(* ===== verification/_CoqProject ===== *)
-Q . S2P
Prelude.v
Charconv.v
Errors.v
Effects.v
RespParse.v
Stream.v
Replies.v
Sockets.v
Client.v
Pack.v
WalCodec.v
Wal.v
Allocator.v
Slab.v
Lru.v
Expiry.v
Buckets.v
Node.v
Store.v
Keyspace.v
StoreSpec.v
Contents.v
Edits.v
Writing.v
Clearing.v
Sample.v
Strings.v
Timers.v
Lists.v
Hashes.v
Stats.v
Throws.v
Records.v
Replay.v
Open.v
Snapshot.v
Durable.v
Execute.v
Batch.v
Server.v
Serving.v
ServerSpec.v
Main.v
