(* ===== verification/Prelude.v ===== *)
(** * Prelude: a verification of reddish

    Reddish is a key-value server with the Redis protocol: a parser of
    requests, a database of strings, integers, lists and hashes with
    deadlines and a bound on the number of keys, a write-ahead log, a slab
    allocator, a server on non-blocking sockets and a client.  This library
    translates it to functions on explicit states, one file per part, and
    proves what the parts promise each other.

    - [Prelude] (this file): bytes, machine integers, loops and tactics;
      [Charconv]: [std::from_chars] and [std::to_string]; [Errors]:
      [error.cpp], [error.hpp], [result.hpp]; [Effects]: the monad of
      operations that change a state or throw, and its specifications.
    - [RespParse]: the request parser of [resp.cpp] and [resp.hpp];
      [Stream]: the requests in a stream that arrives in pieces; [Replies]:
      the reply writers of [resp.cpp].
    - [Sockets]: the poller of [socket.cpp], over epoll and over an array, and
      a connection as the server sees it.
    - [Client]: the C++ client, [client.cpp] and its [socket.cpp].
    - [Pack]: the packed elements of [pack.cpp].
    - [WalCodec], [Wal]: the record format and the log of [wal.cpp].
    - [Allocator], [Slab]: the interface the database uses memory through,
      and [slab.cpp] with [memory.hpp], which implement it.
    - [Lru], [Expiry], [Buckets], [Node]: the recency list, the heap of
      deadlines, the hash index and the node layout of [database.cpp].
    - [Store], [Keyspace], [StoreSpec]: the memory operations of
      [database.cpp], the invariant that ties the structures together, and
      that the operations keep it.
    - [Contents], [Edits], [Writing]: the database as a map from keys to
      values with deadlines, and how a command replaces a value; [Clearing]:
      that [clear_keyspace] empties it; [Sample]: a database to run examples
      on.
    - [Strings], [Timers], [Lists], [Hashes]: the commands of [database.cpp];
      [Throws]: the exceptions they throw; [Stats]: [Database::stats], and
      [release_nodes], which the destructor runs.
    - [Records], [Replay], [Open]: what a record of the log means, that
      [Database::replay] does what it means, and [Database::open_wal].
    - [Snapshot]: [Database::compact_wal].
    - [Durable]: memory and log together, over any run, and after a crash.
    - [Execute]: [execute_into] and the commands of [resp.cpp]; [Batch]:
      [Server::execute_batch] and the maintenance thread of [server.cpp].
    - [Server]: the clients, the handlers and the event loop of [server.cpp];
      [Serving]: the invariant of the server, proved of the handlers against
      what [Backend] asks of the database; [ServerSpec]: two databases that
      provide it, and the theorems about the server.
    - [Main]: the command line of [main.cpp].

    State is explicit.  An operation of the source is a function from a state
    to a result or an exception and a new state ([Effects]); pointers are
    addresses, with 0 for null, nodes are the bytes of their blocks, and
    machine integers are integers with the wrap-around of their width written
    out.  What is not in the repository is a parameter: the memory resource
    under the slab pool, the contents of fresh memory, the clocks and the
    iteration order of an unordered map ([Platform] in [Store]), the
    capacities and sizes of library objects ([Measures] in [Stats]), the
    kernel's epoll and the descriptors it hands out ([Epoll] and
    [Descriptors] in [Sockets]), and the outcome of every other system call
    (the script of a log in [Wal], those of a socket in [Client] and
    [Sockets]).  Threads are steps: the flusher of the log and the maintenance
    thread hold the lock of what they change, so each of their rounds is one
    step between two handlers of the server, or within its wait for room
    ([step] in [Serving], [wait_capacity] in [Batch]).

    What the theorems show:
    - every operation on memory keeps the invariant of [Keyspace], and every
      command is described by its effect on the map, the recency order and
      the log, on every branch, exceptions included ([Strings] to [Hashes]);
    - the data structures implement the map, list or heap they stand for
      ([Buckets], [Lru], [Expiry]), blocks never overlap and the memory limit
      holds ([Slab]);
    - the log keeps what it acknowledged, whatever calls fail, and compaction
      is atomic ([Wal]);
    - the log always means the keyspace in memory, so a crash loses nothing
      that was synced and never leaves a log that cannot be opened
      ([Durable]); compacting a log keeps what it means ([Snapshot], [Main]);
    - every command is answered with the reply it comes to ([Execute]), a
      batch with one reply for each command, after its records are synced
      ([Batch]);
    - in every state the server can reach, under any interleaving of its
      handlers, its threads and the network, no client is forgotten, limits
      hold, replies are in order and a crash loses nothing that was answered;
      stopping it leaves the keyspace on the disk ([ServerSpec]);
    - the client reads the reply that was written, and always returns
      ([Client]); arguments are understood as they are meant ([Main]).

    Fuel.  The loops over the recency list, the deadlines and the chains of
    the index take at most one round per node, and are given one round more
    than there are nodes ([rounds] in [Timers]).  The wait for the maintenance
    thread has one round for each key too many, and one ([wait_rounds] in
    [Batch]); the loop of the client one for each answer of the network and
    two for each byte ([read_rounds] in [Client]); [read_client] reads at most
    seventeen chunks and [flush_client] sends at least a byte each round
    ([Server]); the search for a free identifier tries one more than there are
    clients.  The lemmas on them show that this is enough.  All other loops
    are structural.

    The theorems on the server with a log suppose that no client asks for a
    deadline more than 2^52 seconds ahead ([modest] in [ServerSpec]):
    [Database::expire] checks the deadline against one reading of the clock
    and adds it to a later one, which can overflow.

    Not modelled: the bodies of the wrappers that only pass their arguments to
    a system call ([Socket::bind], [listen], [set_nodelay] and the like; their
    outcomes are parameters), the capacity of string buffers, and the lines
    the server prints. *)

From stdpp Require Export base list gmap numbers option tactics strings.
From Stdlib Require Export ZArith Lia.
From Stdlib Require Import Strings.Byte.

Declare Scope reddish_scope.
Delimit Scope reddish_scope with reddish.
Global Open Scope Z_scope.
Global Open Scope reddish_scope.

(** ** Tactics *)

(** Case analysis on every boolean comparison in sight. *)
(** Splits conjunctions as they are written, and closes what is assumed. *)
Ltac conjuncts := repeat match goal with |- _ /\ _ => split end; try assumption.

Ltac zcases :=
  repeat match goal with
  | |- context [Z.ltb ?a ?b] => destruct (Z.ltb_spec a b)
  | |- context [Z.leb ?a ?b] => destruct (Z.leb_spec a b)
  | |- context [Z.eqb ?a ?b] => destruct (Z.eqb_spec a b)
  | |- context [Z.gtb ?a ?b] => rewrite (Z.gtb_ltb a b)
  | |- context [Z.geb ?a ?b] => rewrite (Z.geb_leb a b)
  | |- context [Nat.ltb ?a ?b] => destruct (Nat.ltb_spec a b)
  | |- context [Nat.leb ?a ?b] => destruct (Nat.leb_spec a b)
  | |- context [Nat.eqb ?a ?b] => destruct (Nat.eqb_spec a b)
  end.

(** The same on a hypothesis. *)
Ltac zcases_in H :=
  repeat match type of H with
  | context [Z.ltb ?a ?b] => destruct (Z.ltb_spec a b)
  | context [Z.leb ?a ?b] => destruct (Z.leb_spec a b)
  | context [Z.eqb ?a ?b] => destruct (Z.eqb_spec a b)
  | context [Nat.ltb ?a ?b] => destruct (Nat.ltb_spec a b)
  | context [Nat.leb ?a ?b] => destruct (Nat.leb_spec a b)
  | context [Nat.eqb ?a ?b] => destruct (Nat.eqb_spec a b)
  end.

(** ** Bytes *)

Abbreviation byte := Corelib.Init.Byte.byte.
Abbreviation bytes := (list byte).

(** [static_cast<unsigned char>(c)]. *)
Definition b2z (b : byte) : Z := Z.of_N (Byte.to_N b).

(** [static_cast<char>(n)]: the low eight bits. *)
Definition z2b (z : Z) : byte :=
  match Byte.of_N (Z.to_N (z mod 256)) with
  | Some b => b
  | None => x00
  end.

Lemma b2z_range (b : byte) : 0 <= b2z b < 256.
Proof. unfold b2z. pose proof (Byte.to_N_bounded b). lia. Qed.

Lemma b2z_z2b (z : Z) : b2z (z2b z) = z mod 256.
Proof.
  unfold b2z, z2b. pose proof (Z.mod_pos_bound z 256 ltac:(lia)) as Hb.
  destruct (Byte.of_N _) as [b|] eqn:E.
  - apply Byte.to_of_N in E. rewrite E. lia.
  - apply Byte.of_N_None_iff in E. lia.
Qed.

Lemma b2z_inj (a b : byte) : b2z a = b2z b -> a = b.
Proof.
  unfold b2z. intros H%N2Z.inj.
  pose proof (Byte.of_to_N a). pose proof (Byte.of_to_N b). congruence.
Qed.

Lemma z2b_b2z (b : byte) : z2b (b2z b) = b.
Proof.
  apply b2z_inj. rewrite b2z_z2b. apply Z.mod_small, b2z_range.
Qed.

#[global] Instance byte_eq_dec : EqDecision byte.
Proof. intros a b. destruct (Byte.byte_eq_dec a b); [by left|by right]. Defined.

#[global] Program Instance byte_countable : Countable byte :=
  inj_countable Byte.to_N Byte.of_N _.
Next Obligation. intros b. apply Byte.of_to_N. Qed.

#[global] Instance byte_inhabited : Inhabited byte := populate x00.

(** ASCII literals as byte lists. *)
Definition of_str (s : String.string) : bytes := Stdlib.Strings.String.list_byte_of_string s.

Definition CR : byte := x0d.
Definition LF : byte := x0a.
Definition crlf : bytes := [CR; LF].

(** Comparison of two [std::string_view]s. *)
Definition bytes_eqb (a b : bytes) : bool := bool_decide (a = b).

Lemma bytes_eqb_eq (a b : bytes) : bytes_eqb a b = true <-> a = b.
Proof. unfold bytes_eqb. apply bool_decide_eq_true. Qed.

(** [size()] of a view or buffer, as a machine number. *)
Definition len {A} (l : list A) : Z := Z.of_nat (length l).

Lemma len_nonneg {A} (l : list A) : 0 <= len l.
Proof. unfold len. lia. Qed.

Lemma len_app {A} (a b : list A) : len (a ++ b) = len a + len b.
Proof. unfold len. rewrite length_app. lia. Qed.

Lemma len_cons {A} (x : A) (l : list A) : len (x :: l) = 1 + len l.
Proof. unfold len. simpl. lia. Qed.

Lemma len_nil {A} : len (@nil A) = 0.
Proof. done. Qed.

Create HintDb reddish.
Create Rewrite HintDb len.
#[export] Hint Resolve b2z_range len_nonneg : reddish.
#[export] Hint Rewrite @len_app @len_cons @len_nil : len.

(** ** Machine integers *)

Definition u8 (z : Z) : Z := z mod 2 ^ 8.
Definition u32 (z : Z) : Z := z mod 2 ^ 32.
Definition u64 (z : Z) : Z := z mod 2 ^ 64.

(** Reading a 64-bit pattern as [std::int64_t]. *)
Definition i64 (z : Z) : Z :=
  let r := u64 z in if r <? 2 ^ 63 then r else r - 2 ^ 64.

Definition int64_max : Z := 2 ^ 63 - 1.
Definition int64_min : Z := - 2 ^ 63.
Definition uint32_max : Z := 2 ^ 32 - 1.
Definition size_max : Z := 2 ^ 64 - 1.

Definition is_int64 (z : Z) : Prop := int64_min <= z <= int64_max.

Lemma u32_small z : 0 <= z < 2 ^ 32 -> u32 z = z.
Proof. apply Z.mod_small. Qed.

Lemma u64_small z : 0 <= z < 2 ^ 64 -> u64 z = z.
Proof. apply Z.mod_small. Qed.

Lemma u32_range z : 0 <= u32 z < 2 ^ 32.
Proof. apply Z.mod_pos_bound. lia. Qed.

Lemma u64_range z : 0 <= u64 z < 2 ^ 64.
Proof. apply Z.mod_pos_bound. lia. Qed.

Lemma i64_u64 z : is_int64 z -> i64 (u64 z) = z.
Proof.
  unfold is_int64, int64_min, int64_max, i64, u64. intros H.
  rewrite Z.mod_mod by lia.
  destruct (Z_lt_le_dec z 0).
  - rewrite <- (Z_mod_plus_full z 1), Z.mod_small by lia. zcases; lia.
  - rewrite Z.mod_small by lia. zcases; lia.
Qed.

Lemma i64_small z : is_int64 z -> i64 z = z.
Proof.
  intros Hz. rewrite <- (i64_u64 z Hz) at 2. unfold i64, u64. by rewrite Z.mod_mod by lia.
Qed.

Lemma i64_range z : is_int64 (i64 z).
Proof.
  unfold is_int64, int64_min, int64_max, i64. pose proof (u64_range z).
  zcases; lia.
Qed.

(** ** Little-endian stores *)

Fixpoint le_bytes (n : nat) (z : Z) : bytes :=
  match n with
  | O => []
  | S k => z2b z :: le_bytes k (z / 256)
  end.

Fixpoint le_value (l : bytes) : Z :=
  match l with
  | [] => 0
  | b :: t => b2z b + 256 * le_value t
  end.

Lemma length_le_bytes n z : length (le_bytes n z) = n.
Proof. revert z; induction n; intros; simpl; [done|by rewrite IHn]. Qed.

Lemma le_value_bytes n z : le_value (le_bytes n z) = z mod 256 ^ Z.of_nat n.
Proof.
  revert z; induction n as [|n IH]; intros z; simpl le_bytes; simpl le_value.
  - by rewrite Z.mod_1_r.
  - rewrite IH, b2z_z2b, Nat2Z.inj_succ, Z.pow_succ_r by lia.
    rewrite Z.rem_mul_r; lia.
Qed.

Lemma le_value_range l : 0 <= le_value l < 256 ^ len l.
Proof.
  induction l as [|b l IH]; simpl le_value; autorewrite with len; [lia|].
  pose proof (b2z_range b). pose proof (len_nonneg l).
  rewrite Z.pow_add_r by lia. lia.
Qed.

(** ** Counted loops with early exit

    [for (i = 0; i < n; ++i) body] where [body] may [return]: the state is
    threaded on the left, an early return is a value on the right.  The
    recursion is on the binary representation of [n], so a loop bound read
    from the network costs nothing once the body has returned. *)

Section loops.
Context {St R : Type}.
Implicit Types (body : St -> St + R) (s : St).

Definition and_then (r : St + R) (k : St -> St + R) : St + R :=
  match r with
  | inl s => k s
  | inr v => inr v
  end.

Fixpoint pos_loop body (n : positive) s : St + R :=
  match n with
  | xH => body s
  | xO p => and_then (pos_loop body p s) (pos_loop body p)
  | xI p => and_then (body s) (fun s => and_then (pos_loop body p s) (pos_loop body p))
  end.

Definition z_loop body (n : Z) s : St + R :=
  match n with
  | Zpos p => pos_loop body p s
  | _ => inl s
  end.

Lemma and_then_assoc (r : St + R) k1 k2 :
  and_then (and_then r k1) k2 = and_then r (fun s => and_then (k1 s) k2).
Proof. by destruct r. Qed.

Lemma and_then_ext (r : St + R) k1 k2 :
  (forall s, k1 s = k2 s) -> and_then r k1 = and_then r k2.
Proof. intros H. destruct r; simpl; auto. Qed.

Lemma pos_loop_comm body p s :
  and_then (pos_loop body p s) body = and_then (body s) (pos_loop body p).
Proof.
  revert s; induction p as [p IH|p IH|]; intros s; simpl; [| |done].
  - rewrite !and_then_assoc. apply and_then_ext; intros s1.
    rewrite !and_then_assoc.
    transitivity (and_then (pos_loop body p s1)
                    (fun s => and_then (body s) (pos_loop body p))).
    { by apply and_then_ext. }
    rewrite <- and_then_assoc, IH, and_then_assoc. by apply and_then_ext.
  - rewrite !and_then_assoc.
    transitivity (and_then (pos_loop body p s)
                    (fun s => and_then (body s) (pos_loop body p))).
    { by apply and_then_ext. }
    rewrite <- and_then_assoc, IH, and_then_assoc. by apply and_then_ext.
Qed.

Lemma pos_loop_succ body p s :
  pos_loop body (Pos.succ p) s = and_then (body s) (pos_loop body p).
Proof.
  revert s; induction p as [p IH|p IH|]; intros s; simpl.
  - rewrite IH, and_then_assoc. apply and_then_ext; intros s1.
    transitivity (and_then (pos_loop body p s1)
                    (fun s => and_then (body s) (pos_loop body p))).
    { by apply and_then_ext. }
    rewrite <- and_then_assoc, pos_loop_comm, and_then_assoc. by apply and_then_ext.
  - done.
  - done.
Qed.

Lemma z_loop_0 body s : z_loop body 0 s = inl s.
Proof. done. Qed.

(** One more iteration is one more unrolling. *)
Lemma z_loop_succ body n s :
  0 <= n -> z_loop body (n + 1) s = and_then (body s) (z_loop body n).
Proof.
  intros H. destruct n as [|p|p]; [|simpl|lia].
  - simpl. by destruct (body s).
  - rewrite Pos.add_1_r. apply pos_loop_succ.
Qed.

Lemma z_loop_unfold body n s :
  0 < n -> z_loop body n s = and_then (body s) (z_loop body (n - 1)).
Proof.
  intros H. rewrite <- z_loop_succ by lia. f_equal. lia.
Qed.

(** Invariant rule: [I] holds of every state reached, [Q] of every early
    return. *)
Lemma z_loop_inv (I : Z -> St -> Prop) (Q : R -> Prop) body n s :
  (forall k s, 0 < k -> I k s ->
     match body s with inl s' => I (k - 1) s' | inr r => Q r end) ->
  0 <= n -> I n s ->
  match z_loop body n s with inl s' => I 0 s' | inr r => Q r end.
Proof.
  intros Hbody Hn. revert s.
  pattern n. apply natlike_ind; [done| |done].
  intros k Hk IH s HI. rewrite <- Z.add_1_r in *. rewrite z_loop_succ by done.
  specialize (Hbody (k + 1) s ltac:(lia) HI).
  destruct (body s) as [s'|r]; simpl; [|done].
  apply IH. by replace (k + 1 - 1) with k in Hbody by lia.
Qed.

(** Two loops in step. *)
Lemma z_loop_ext body1 body2 n s :
  (forall s, body1 s = body2 s) -> z_loop body1 n s = z_loop body2 n s.
Proof.
  intros H. destruct n as [|p|p]; try done. simpl.
  revert s; induction p as [p IH|p IH|]; intros s; simpl; [| |done].
  - rewrite H. apply and_then_ext; intros. rewrite IH. apply and_then_ext. done.
  - rewrite IH. apply and_then_ext. done.
Qed.

End loops.

#[global] Arguments z_loop : simpl never.

(** Two loops of the same length whose bodies stay related. *)
Definition sum_rel {A1 B1 A2 B2} (RA : A1 -> A2 -> Prop) (RB : B1 -> B2 -> Prop)
    (x : A1 + B1) (y : A2 + B2) : Prop :=
  match x, y with
  | inl a, inl a' => RA a a'
  | inr b, inr b' => RB b b'
  | _, _ => False
  end.

Lemma z_loop_sim {S1 R1 S2 R2} (RS : S1 -> S2 -> Prop) (RR : R1 -> R2 -> Prop)
    (body1 : S1 -> S1 + R1) (body2 : S2 -> S2 + R2) n s1 s2 :
  (forall s1 s2, RS s1 s2 -> sum_rel RS RR (body1 s1) (body2 s2)) ->
  RS s1 s2 -> sum_rel RS RR (z_loop body1 n s1) (z_loop body2 n s2).
Proof.
  intros Hb. destruct n as [|p|p]; [done| |done]. unfold z_loop.
  revert s1 s2; induction p as [p IH|p IH|]; intros s1 s2 Hs; simpl; [| |auto].
  - specialize (Hb s1 s2 Hs). destruct (body1 s1) as [a|], (body2 s2) as [b|]; try done.
    specialize (IH a b Hb) as IH1. simpl.
    destruct (pos_loop body1 p a), (pos_loop body2 p b); try done. by apply IH.
  - specialize (IH s1 s2 Hs) as IH1.
    destruct (pos_loop body1 p s1), (pos_loop body2 p s2); try done. by apply IH.
Qed.

(** The right loop follows the left one: it continues when the left one
    does, and leaves in step with it unless the left one leaves with a
    value in [P]. *)
Lemma z_loop_follow {S1 R1 S2 R2} (RS : S1 -> S2 -> Prop) (RR : R1 -> R2 -> Prop)
    (P : R1 -> Prop) (body1 : S1 -> S1 + R1) (body2 : S2 -> S2 + R2) n s1 s2 :
  (forall s1 s2, RS s1 s2 ->
     match body1 s1 with
     | inl s1' => exists s2', body2 s2 = inl s2' /\ RS s1' s2'
     | inr r1 => P r1 \/ exists r2, body2 s2 = inr r2 /\ RR r1 r2
     end) ->
  RS s1 s2 ->
  match z_loop body1 n s1 with
  | inl s1' => exists s2', z_loop body2 n s2 = inl s2' /\ RS s1' s2'
  | inr r1 => P r1 \/ exists r2, z_loop body2 n s2 = inr r2 /\ RR r1 r2
  end.
Proof.
  intros Hb. unfold z_loop. destruct n as [|p|p]; simpl; [by eauto| |by eauto].
  revert s1 s2; induction p as [p IH|p IH|]; intros s1 s2 Hs; simpl in *; [| |by apply Hb].
  - specialize (Hb s1 s2 Hs).
    destruct (body1 s1) as [a|r]; simpl.
    2: { destruct Hb as [?|(r2 & -> & ?)]; [by left|right; by exists r2]. }
    destruct Hb as (b & -> & Hb1). simpl. specialize (IH a b Hb1) as IH1.
    destruct (pos_loop body1 p a) as [a'|r']; simpl.
    2: { destruct IH1 as [?|(r2 & -> & ?)]; [by left|right; by exists r2]. }
    destruct IH1 as (b' & -> & Hb2). simpl. by apply IH.
  - specialize (IH s1 s2 Hs) as IH1.
    destruct (pos_loop body1 p s1) as [a'|r']; simpl.
    2: { destruct IH1 as [?|(r2 & -> & ?)]; [by left|right; by exists r2]. }
    destruct IH1 as (b' & -> & Hb2). simpl. by apply IH.
Qed.

(** ** Bits *)

(** Disjoint bit fields: [lor] is addition. *)
Lemma lor_shiftl_add a b k :
  0 <= k -> 0 <= a < 2 ^ k -> Z.lor a (Z.shiftl b k) = a + b * 2 ^ k.
Proof.
  intros Hk Ha. rewrite <- Z.shiftl_mul_pow2 by done.
  assert (Z.land a (Z.shiftl b k) = 0) as Hz.
  { apply Z.bits_inj'; intros i Hi. rewrite Z.land_spec, Z.bits_0.
    destruct (Z_lt_le_dec i k).
    - rewrite Z.shiftl_spec_low by done. apply andb_false_r.
    - rewrite <- (Z.mod_small a (2 ^ k)) by done.
      by rewrite Z.mod_pow2_bits_high by lia. }
  rewrite Z.add_nocarry_lxor by done. symmetry. by apply Z.lxor_lor.
Qed.

Lemma land_ones_mod a n : 0 <= n -> Z.land a (Z.ones n) = a mod 2 ^ n.
Proof. apply Z.land_ones. Qed.

Lemma lor_mod a b n : 0 <= n -> Z.lor a b mod 2 ^ n = Z.lor (a mod 2 ^ n) (b mod 2 ^ n).
Proof. intros. by rewrite <- !Z.land_ones, Z.land_lor_distr_l by done. Qed.

(** [Z.lor] equations up to associativity and commutativity. *)
Ltac lor_ac :=
  rewrite ?Z.shiftl_lor; apply Z.bits_inj'; intros ? ?; rewrite ?Z.lor_spec, ?Z.bits_0;
  repeat match goal with |- context [Z.testbit ?a ?i] => destruct (Z.testbit a i) end;
  reflexivity.

Lemma le_value_cons b l : le_value (b :: l) = b2z b + 256 * le_value l.
Proof. done. Qed.

Lemma le_value_app a b : le_value (a ++ b) = le_value a + 256 ^ len a * le_value b.
Proof.
  induction a as [|x a IH]; simpl le_value; [unfold len; simpl; lia|].
  rewrite IH, len_cons, Z.pow_add_r by (pose proof (len_nonneg a); lia). lia.
Qed.

Lemma le_value_take n l : le_value l mod 256 ^ Z.of_nat n = le_value (take n l).
Proof.
  revert l; induction n as [|n IH]; intros l; [by rewrite Z.mod_1_r|].
  destruct l as [|b l]; [done|]. cbn [take le_value].
  rewrite Nat2Z.inj_succ, Z.pow_succ_r, Z.rem_mul_r by lia.
  pose proof (b2z_range b).
  rewrite (Z.mul_comm 256 (le_value l)), Z.mod_add, Z.div_add, Z.mod_small, Z.div_small by lia.
  by rewrite Z.add_0_l, IH.
Qed.

(** A number determines its little-endian bytes when none of them is zero. *)
Lemma le_value_inj_nonzero l1 l2 :
  Forall (fun b => b2z b <> 0) l1 -> Forall (fun b => b2z b <> 0) l2 ->
  le_value l1 = le_value l2 -> l1 = l2.
Proof.
  intros H1. revert l2; induction H1 as [|a l1 Ha H1 IH]; intros l2 H2; destruct H2 as [|b l2 Hb H2];
    rewrite ?le_value_cons; intros E; [done| | |].
  - simpl in E. pose proof (b2z_range b). pose proof (le_value_range l2). lia.
  - simpl in E. pose proof (b2z_range a). pose proof (le_value_range l1). lia.
  - pose proof (b2z_range a). pose proof (b2z_range b).
    assert (b2z a = b2z b) as Hab%b2z_inj by lia. subst. f_equal. apply IH; [done|lia].
Qed.

Lemma le_value_lor b l : le_value (b :: l) = Z.lor (b2z b) (Z.shiftl (le_value l) 8).
Proof.
  rewrite lor_shiftl_add by (try lia; apply b2z_range).
  rewrite le_value_cons. change (2 ^ 8) with 256. lia.
Qed.

(** A byte shifted within 64 bits does not wrap. *)
Lemma u64_byte v k : 0 <= v < 256 -> 0 <= k <= 56 -> u64 (Z.shiftl v k) = Z.shiftl v k.
Proof.
  intros Hv Hk. apply u64_small. rewrite Z.shiftl_mul_pow2 by lia.
  pose proof (Z.pow_le_mono_r 2 k 56 ltac:(lia) ltac:(lia)).
  pose proof (Z.pow_pos_nonneg 2 k ltac:(lia) ltac:(lia)).
  change (2 ^ 64) with (256 * 2 ^ 56). nia.
Qed.

(** ** Folds *)

Lemma fold_left_inv {A B} (P : A -> Prop) (f : A -> B -> A) (l : list B) (a : A) :
  (forall a b, P a -> P (f a b)) -> P a -> P (fold_left f l a).
Proof. intros Hf. revert a. induction l as [|b l IH]; simpl; eauto. Qed.

Lemma fold_left_ext {A B} (f g : A -> B -> A) (l : list B) (a : A) :
  (forall a b, f a b = g a b) -> fold_left f l a = fold_left g l a.
Proof. intros H. revert a. induction l as [|b l IH]; intros a; simpl; [done|]. by rewrite H, IH. Qed.

(** ** Sums, filters and permutations *)

Definition zsum (l : list Z) : Z := fold_right Z.add 0 l.

#[export] Instance zsum_proper : Proper (Permutation ==> eq) zsum.
Proof. intros l1 l2 H. induction H; simpl; lia. Qed.

Lemma zsum_app l1 l2 : zsum (l1 ++ l2) = zsum l1 + zsum l2.
Proof. induction l1; simpl; lia. Qed.

Lemma zsum_nonneg l : Forall (fun x => 0 <= x) l -> 0 <= zsum l.
Proof. induction 1; simpl; lia. Qed.

Section filters.
Context {A : Type} (P : A -> Prop) `{!forall x, Decision (P x)}.

Lemma filter_all l : Forall P l -> filter P l = l.
Proof. induction 1 as [|x l Hx _ IH]; [done|]. by rewrite filter_cons_True, IH. Qed.

Lemma filter_none l : Forall (fun x => ~ P x) l -> filter P l = [].
Proof. induction 1 as [|x l Hx _ IH]; [done|]. by rewrite filter_cons_False, IH. Qed.

Lemma filter_concat (ls : list (list A)) : filter P (concat ls) = concat (map (filter P) ls).
Proof. induction ls as [|l ls IH]; simpl; [done|]. by rewrite filter_app, IH. Qed.

End filters.
