(* ===== verification/Charconv.v ===== *)
(** * Charconv: decimal text and machine integers

    The parts of the C++ standard library that the program uses to turn
    integers into text and back: [std::to_string] / [std::to_chars] and
    [std::from_chars] for [std::int64_t] and [std::size_t].  The theorems
    say that printing then parsing is the identity on the representable
    range, and that a text accepted by the unsigned parser is a non-empty
    run of digits. *)

From S2P Require Import Prelude.
From Stdlib Require Import Strings.Byte.

(** ** Printing *)

Definition digit (d : Z) : byte := z2b (48 + d).

Definition is_digit (b : byte) : bool := (48 <=? b2z b) && (b2z b <=? 57).

(** Digits of [n >= 0], most significant first, before [acc]. *)
Fixpoint dec_digits (fuel : nat) (n : Z) (acc : bytes) : bytes :=
  match fuel with
  | O => acc
  | S f => let acc' := digit (n mod 10) :: acc in
           if n <? 10 then acc' else dec_digits f (n / 10) acc'
  end.

(** One step per decimal digit; the binary logarithm bounds their number. *)
Definition to_dec (n : Z) : bytes := dec_digits (S (Z.to_nat (Z.log2 n))) n [].

(** [std::to_string], and [std::to_chars] into a large enough buffer. *)
Definition to_string (z : Z) : bytes :=
  if z <? 0 then x2d :: to_dec (- z) else to_dec z.

(** ** Parsing *)

Inductive errc := errc_ok | invalid_argument | result_out_of_range.

Record from_chars_result := {
  fc_ptr : nat;    (** how many characters were matched *)
  fc_ec : errc;
  fc_value : Z     (** meaningful when [fc_ec] is [errc_ok] *)
}.

(** The longest run of digits: its value and its length. *)
Fixpoint scan_digits (acc : Z) (l : bytes) : Z * nat :=
  match l with
  | [] => (acc, O)
  | b :: t =>
      if is_digit b
      then let '(v, n) := scan_digits (acc * 10 + (b2z b - 48)) t in (v, S n)
      else (acc, O)
  end.

(** [std::from_chars(first, last, value)] for an integer type with range
    [lo, hi]; a minus sign is recognised only for a signed type. *)
Definition from_chars (lo hi : Z) (text : bytes) : from_chars_result :=
  let '(neg, body) :=
    match text with
    | x2d :: t => if lo <? 0 then (true, t) else (false, text)
    | _ => (false, text)
    end in
  let '(v, n) := scan_digits 0 body in
  let ptr := (if neg then S n else n) in
  let value := if neg : bool then - v else v in
  match n with
  | O => {| fc_ptr := O; fc_ec := invalid_argument; fc_value := 0 |}
  | _ => if (lo <=? value) && (value <=? hi)
         then {| fc_ptr := ptr; fc_ec := errc_ok; fc_value := value |}
         else {| fc_ptr := ptr; fc_ec := result_out_of_range; fc_value := 0 |}
  end.

(** The test every caller makes: no error, and the whole text consumed. *)
Definition from_chars_all (lo hi : Z) (text : bytes) : option Z :=
  let r := from_chars lo hi text in
  match fc_ec r with
  | errc_ok => if Nat.eqb (fc_ptr r) (length text) then Some (fc_value r) else None
  | _ => None
  end.

Definition from_chars_int64 : bytes -> option Z := from_chars_all int64_min int64_max.
Definition from_chars_size : bytes -> option Z := from_chars_all 0 size_max.

#[global] Arguments to_dec : simpl never.

(** ** Facts *)

Lemma b2z_digit d : 0 <= d <= 9 -> b2z (digit d) = 48 + d.
Proof. intros. unfold digit. rewrite b2z_z2b, Z.mod_small; lia. Qed.

Lemma is_digit_digit d : 0 <= d <= 9 -> is_digit (digit d) = true.
Proof. intros. unfold is_digit. rewrite b2z_digit by done. zcases; simpl; lia. Qed.

Lemma is_digit_range b : is_digit b = true -> 48 <= b2z b <= 57.
Proof. unfold is_digit. rewrite andb_true_iff, !Z.leb_le. lia. Qed.

Definition all_digits (l : bytes) : Prop := Forall (fun b => is_digit b = true) l.

Lemma all_digits_nil : all_digits [].
Proof. constructor. Qed.

Lemma all_digits_cons b l : is_digit b = true -> all_digits l -> all_digits (b :: l).
Proof. by constructor. Qed.

(** Value of a digit string by Horner's rule. *)
Definition dec_value (acc : Z) (l : bytes) : Z :=
  fold_left (fun a b => a * 10 + (b2z b - 48)) l acc.

Lemma scan_digits_all acc l :
  all_digits l -> scan_digits acc l = (dec_value acc l, length l).
Proof.
  unfold all_digits, dec_value. intros H. revert acc.
  induction H as [|b l Hb _ IH]; intros acc; simpl; [done|].
  by rewrite Hb, IH.
Qed.

(** The run scanned stops at the first character that is not a digit. *)
Lemma scan_digits_stop acc l c r :
  all_digits l -> is_digit c = false ->
  scan_digits acc (l ++ c :: r) = (dec_value acc l, length l).
Proof.
  unfold all_digits, dec_value. intros H Hc. revert acc.
  induction H as [|b l Hb _ IH]; intros acc; simpl; [by rewrite Hc|].
  by rewrite Hb, IH.
Qed.

Lemma scan_digits_inv acc l v n :
  scan_digits acc l = (v, n) ->
  (n <= length l)%nat /\ all_digits (take n l) /\ v = dec_value acc (take n l) /\
  match l !! n with Some c => is_digit c = false | None => True end.
Proof.
  revert acc v n; induction l as [|b l IH]; intros acc v n; simpl.
  - intros [= <- <-]. split_and!; [done|constructor|done|done].
  - destruct (is_digit b) eqn:Eb.
    + destruct (scan_digits _ l) as [v' n'] eqn:E. intros [= <- <-].
      apply IH in E as (H1 & H2 & H3 & H4).
      split_and!; [lia|by constructor|done|done].
    + intros [= <- <-]. split_and!; [lia|constructor|done|done].
Qed.

Lemma dec_value_app acc a b : dec_value acc (a ++ b) = dec_value (dec_value acc a) b.
Proof. apply fold_left_app. Qed.

Lemma dec_value_nonneg acc l : 0 <= acc -> all_digits l -> 0 <= dec_value acc l.
Proof.
  unfold dec_value. intros Ha H. revert acc Ha.
  induction H as [|b l Hb _ IH]; intros acc Ha; simpl; [done|].
  apply IH. apply is_digit_range in Hb. lia.
Qed.

(** Enough fuel: [n < 10 ^ fuel]. *)
Lemma dec_digits_spec fuel n acc :
  0 <= n < 10 ^ Z.of_nat fuel -> (0 < fuel)%nat ->
  exists ds, dec_digits fuel n acc = ds ++ acc /\ all_digits ds /\
             ds <> [] /\ dec_value 0 ds = n.
Proof.
  revert n acc; induction fuel as [|f IH]; intros n acc Hn Hf; [lia|].
  simpl dec_digits. pose proof (Z.mod_pos_bound n 10 ltac:(lia)) as Hm.
  destruct (Z.ltb_spec n 10).
  - exists [digit (n mod 10)]. split_and!; [done| |done|].
    + repeat constructor. apply is_digit_digit. lia.
    + unfold dec_value; simpl. rewrite b2z_digit, Z.mod_small by lia. lia.
  - destruct f as [|f']; [simpl in Hn; lia|].
    destruct (IH (n / 10) (digit (n mod 10) :: acc)) as (ds & E & Hd & _ & Hv).
    { rewrite Nat2Z.inj_succ, Z.pow_succ_r in Hn by lia.
      split; [apply Z.div_pos; lia|]. apply Z.div_lt_upper_bound; lia. }
    { lia. }
    exists (ds ++ [digit (n mod 10)]). split_and!.
    + by rewrite E, <- app_assoc.
    + apply Forall_app; split; [done|]. repeat constructor. apply is_digit_digit. lia.
    + by destruct ds.
    + rewrite dec_value_app, Hv. unfold dec_value; simpl.
      rewrite b2z_digit by lia. pose proof (Z.div_mod n 10 ltac:(lia)). lia.
Qed.

Lemma log2_fuel n : 0 <= n -> n < 10 ^ Z.of_nat (S (Z.to_nat (Z.log2 n))).
Proof.
  intros H. rewrite Nat2Z.inj_succ, Z2Nat.id by apply Z.log2_nonneg.
  destruct (Z.eq_dec n 0) as [->|]; [done|].
  pose proof (Z.log2_spec n ltac:(lia)). pose proof (Z.log2_nonneg n).
  eapply Z.lt_le_trans; [apply H0|]. apply Z.pow_le_mono_l. lia.
Qed.

Lemma to_dec_spec n : 0 <= n ->
  all_digits (to_dec n) /\ to_dec n <> [] /\ dec_value 0 (to_dec n) = n.
Proof.
  intros H. destruct (dec_digits_spec (S (Z.to_nat (Z.log2 n))) n [])
    as (ds & E & Hd & Hne & Hv); [split; [done|by apply log2_fuel]|lia|].
  unfold to_dec. rewrite E, app_nil_r. done.
Qed.

Lemma all_digits_head l c r : all_digits l -> l = c :: r -> c <> x2d.
Proof. intros H ->. inversion H as [|?? Hc]; subst. intros ->. by vm_compute in Hc. Qed.

Lemma from_chars_digits lo hi l :
  all_digits l -> l <> [] -> lo <= dec_value 0 l <= hi ->
  from_chars_all lo hi l = Some (dec_value 0 l).
Proof.
  intros Hd Hne Hr. unfold from_chars_all, from_chars.
  destruct l as [|c l]; [done|].
  assert (match c with x2d => if lo <? 0 then (true, l) else (false, c :: l)
          | _ => (false, c :: l) end = (false, c :: l)) as ->.
  { pose proof (all_digits_head _ _ _ Hd eq_refl). by destruct c. }
  rewrite scan_digits_all by done. simpl length.
  replace ((lo <=? dec_value 0 (c :: l)) && (dec_value 0 (c :: l) <=? hi)) with true
    by (symmetry; rewrite andb_true_iff, !Z.leb_le; lia).
  cbn [fc_ec fc_ptr fc_value]. by rewrite Nat.eqb_refl.
Qed.

(** What the unsigned parser accepts. *)
Lemma from_chars_size_inv l v :
  from_chars_size l = Some v ->
  l <> [] /\ all_digits l /\ v = dec_value 0 l /\ 0 <= v <= size_max.
Proof.
  unfold from_chars_size, from_chars_all, from_chars.
  assert (match l with x2d :: t => if 0 <? 0 then (true, t) else (false, l)
          | _ => (false, l) end = (false, l)) as ->.
  { destruct l as [|c l]; [done|]. by destruct c. }
  destruct (scan_digits 0 l) as [v' n] eqn:E.
  apply scan_digits_inv in E as (Hn & Hd & Hv & _).
  destruct n as [|n]; [done|].
  destruct ((0 <=? v') && (v' <=? size_max)) eqn:Hr; [|done].
  cbn [fc_ec fc_ptr fc_value]. destruct (Nat.eqb_spec (S n) (length l)) as [Hl|]; [|done].
  intros [= <-]. rewrite Hl, firstn_all in Hd, Hv.
  apply andb_true_iff in Hr. rewrite !Z.leb_le in Hr.
  split_and!; [by destruct l|done|done|lia|lia].
Qed.

(** Printing then parsing an [std::int64_t]. *)
Lemma from_chars_to_string z : is_int64 z -> from_chars_int64 (to_string z) = Some z.
Proof.
  unfold is_int64. intros Hz. unfold to_string. destruct (Z.ltb_spec z 0).
  - destruct (to_dec_spec (- z) ltac:(lia)) as (Hd & Hne & Hv).
    unfold from_chars_int64, from_chars_all, from_chars.
    replace (int64_min <? 0) with true by done.
    rewrite scan_digits_all, Hv by done. simpl length.
    destruct (to_dec (- z)) as [|c l] eqn:E; [done|]. simpl length.
    replace (- - z) with z by lia.
    replace ((int64_min <=? z) && (z <=? int64_max)) with true
      by (symmetry; rewrite andb_true_iff, !Z.leb_le; lia).
    cbn [fc_ec fc_ptr fc_value]. by rewrite Nat.eqb_refl.
  - destruct (to_dec_spec z ltac:(lia)) as (Hd & Hne & Hv).
    rewrite <- Hv at 2. apply from_chars_digits; [done..|]. lia.
Qed.

(** Printing then parsing a [std::size_t]. *)
Lemma from_chars_size_to_dec n :
  0 <= n <= size_max -> from_chars_size (to_dec n) = Some n.
Proof.
  intros Hn. destruct (to_dec_spec n ltac:(lia)) as (Hd & Hne & Hv).
  rewrite <- Hv at 2. apply from_chars_digits; [done..|]. lia.
Qed.

#[export] Hint Resolve is_digit_digit all_digits_nil all_digits_cons : reddish.

Lemma from_chars_int64_range s z : from_chars_int64 s = Some z -> is_int64 z.
Proof.
  unfold from_chars_int64, from_chars_all, from_chars, is_int64.
  destruct (match s with x2d :: t => _ | _ => _ end) as [neg body]. destruct (scan_digits 0 body) as [v n].
  destruct n; [done|]. set (value := if neg then - v else v).
  destruct (Z.leb_spec int64_min value); [|done]. destruct (Z.leb_spec value int64_max); [|done].
  cbn [andb fc_ec fc_ptr fc_value]. case_match; [|done]. intros [= <-]. lia.
Qed.

(** The number of characters. *)
Lemma dec_digits_len fuel : forall k n acc, 0 <= n < 10 ^ Z.of_nat (S k) -> (length (dec_digits fuel n acc) <= S k + length acc)%nat.
Proof.
  induction fuel as [|fuel IH]; intros k n acc Hn; cbn [dec_digits]; [lia|].
  destruct (Z.ltb_spec n 10); [cbn; lia|]. destruct k as [|k]; [change (10 ^ Z.of_nat 1) with 10 in Hn; lia|].
  rewrite (Nat2Z.inj_succ (S k)), Z.pow_succ_r in Hn by lia.
  specialize (IH k (n / 10) (digit (n mod 10) :: acc)). cbn [length] in IH.
  assert (0 <= n / 10 < 10 ^ Z.of_nat (S k)) by (split; [apply Z.div_pos; lia|apply Z.div_lt_upper_bound; lia]). lia.
Qed.

Lemma to_string_short z : is_int64 z -> len (to_string z) <= 20.
Proof.
  unfold is_int64, int64_min, int64_max. intros Hz. unfold to_string, to_dec, len.
  assert (forall n, 0 <= n <= 2 ^ 63 -> (length (dec_digits (S (Z.to_nat (Z.log2 n))) n []) <= 19)%nat) as Hd.
  { intros n Hn. pose proof (dec_digits_len (S (Z.to_nat (Z.log2 n))) 18 n []) as Hl. change (10 ^ Z.of_nat 19) with 10000000000000000000 in Hl.
    cbn [length] in Hl. lia. }
  destruct (Z.ltb_spec z 0); cbn [length]; [specialize (Hd (- z))|specialize (Hd z)]; lia.
Qed.
