(* ===== verification/Errors.v ===== *)
(** * Errors: error codes, results and exceptions

    [src/error.hpp], [src/error.cpp] and [src/result.hpp].  A C++ function
    that returns [Result<T>] returns a [Result] value here; one that throws
    ends in an [exn].  The theorems say that the text of an error never
    spans two lines (so it can be framed as a RESP error) and determines
    its code. *)

From S2P Require Import Prelude.
Local Open Scope string_scope.

Inductive ErrorCode :=
| empty_resp_input
| expected_resp_array_prefix
| missing_crlf
| invalid_resp_array_length
| empty_resp_array
| missing_bulk_string_prefix
| expected_bulk_string_prefix
| invalid_bulk_string_length
| incomplete_bulk_string_data
| missing_bulk_string_terminator
| wrong_argument_count
| unknown_command
| protocol_error_prefix
| value_not_integer
| wrong_type
| unsupported_info_section
| request_too_large
| disk_write_failed
| disk_read_failed
| socket_startup_failed
| socket_poll_failed
| socket_creation_failed
| socket_bind_failed
| socket_listen_failed
| socket_accept_failed
| socket_nonblocking_failed
| listening_socket_failed.

#[global] Instance ErrorCode_eq_dec : EqDecision ErrorCode.
Proof. solve_decision. Defined.

Definition error_message (code : ErrorCode) : bytes :=
  of_str match code with
  | empty_resp_input => "Empty RESP input"
  | expected_resp_array_prefix => "Expected RESP array prefix '*'"
  | missing_crlf => "Missing CRLF"
  | invalid_resp_array_length => "Invalid RESP array length"
  | empty_resp_array => "RESP array contains no command"
  | missing_bulk_string_prefix => "Missing bulk string prefix"
  | expected_bulk_string_prefix => "Expected bulk string prefix '$'"
  | invalid_bulk_string_length => "Invalid RESP bulk string length"
  | incomplete_bulk_string_data => "RESP bulk string data is incomplete"
  | missing_bulk_string_terminator => "RESP bulk string is missing trailing CRLF"
  | wrong_argument_count => "ERR wrong number of arguments for"
  | unknown_command => "ERR unknown command"
  | protocol_error_prefix => "ERR Protocol error: "
  | value_not_integer => "ERR value is not an integer or out of range"
  | wrong_type => "WRONGTYPE Operation against a key holding the wrong kind of value"
  | unsupported_info_section => "ERR unsupported INFO section"
  | request_too_large => "ERR request exceeds maximum buffer size"
  | disk_write_failed => "Failed to write WAL"
  | disk_read_failed => "Failed to read WAL"
  | socket_startup_failed => "Failed to initialize socket system"
  | socket_poll_failed => "Socket event polling failed"
  | socket_creation_failed => "Failed to create TCP socket"
  | socket_bind_failed => "Failed to bind TCP socket"
  | socket_listen_failed => "Failed to listen on TCP socket"
  | socket_accept_failed => "Failed to accept TCP client"
  | socket_nonblocking_failed => "Failed to set socket as nonblocking"
  | listening_socket_failed => "Listening socket failed"
  end.

(** [Result<T>] is [std::expected<T, Error>]. *)
Inductive Result (A : Type) : Type :=
| Ok (a : A)
| Unexpected (code : ErrorCode).
Arguments Ok {A} a.
Arguments Unexpected {A} code.

(** What a [throw] carries: an [Error], [std::bad_alloc] (which
    [MemoryLimit] derives from), or a [filesystem_error]. *)
Inductive exn :=
| exn_error (code : ErrorCode)
| exn_bad_alloc
| exn_filesystem.

#[global] Instance exn_eq_dec : EqDecision exn.
Proof. solve_decision. Defined.

Definition result_bind {A B} (r : Result A) (k : A -> Result B) : Result B :=
  match r with
  | Ok a => k a
  | Unexpected c => Unexpected c
  end.

Notation "'try' x <- r ; k" := (result_bind r (fun x => k))
  (at level 60, x pattern, r at next level, right associativity) : reddish_scope.

(** No byte of a text ends a RESP line. *)
Definition one_line (text : bytes) : Prop := Forall (fun b => b <> CR /\ b <> LF) text.

Lemma one_line_app a b : one_line (a ++ b) <-> one_line a /\ one_line b.
Proof. apply Forall_app. Qed.

#[global] Instance one_line_dec text : Decision (one_line text).
Proof. apply Forall_dec. intros b. apply _. Defined.

Lemma error_message_line (code : ErrorCode) : one_line (error_message code).
Proof. apply (bool_decide_unpack _). by destruct code; vm_compute. Qed.

Lemma error_message_inj (c1 c2 : ErrorCode) :
  error_message c1 = error_message c2 -> c1 = c2.
Proof. destruct c1, c2; intros H; first [reflexivity | vm_compute in H; discriminate H]. Qed.

#[export] Hint Resolve error_message_line : reddish.
