(* ===== verification/Effects.v ===== *)
(** * Effects: stateful code that may throw

    Member functions read and write the fields of their object and may leave
    through an exception, keeping what they had already written.  [M S A] is
    that effect over a state [S]; [wp] is its weakest precondition with one
    postcondition for a return and one for a throw.  The rules below are all
    the program logic the components use. *)

From S2P Require Import Prelude Errors.

Definition M (S A : Type) : Type := S -> (exn + A) * S.

Section ops.
Context {S : Type}.

Definition ret {A} (a : A) : M S A := fun s => (inr a, s).

Definition bind {A B} (m : M S A) (k : A -> M S B) : M S B := fun s =>
  match m s with
  | (inl e, s) => (inl e, s)
  | (inr a, s) => k a s
  end.

Definition throw {A} (e : exn) : M S A := fun s => (inl e, s).

Definition get : M S S := fun s => (inr s, s).

Definition gets {A} (f : S -> A) : M S A := fun s => (inr (f s), s).

Definition modify (f : S -> S) : M S unit := fun s => (inr tt, f s).

(** [try { m } catch (...) { h; }]: the handler sees the state the throw left. *)
Definition try_catch {A} (m : M S A) (h : exn -> M S A) : M S A := fun s =>
  match m s with
  | (inl e, s) => h e s
  | r => r
  end.

(** Run the steps of a list in order. *)
Definition for_each {A} (l : list A) (body : A -> M S unit) : M S unit :=
  fold_right (fun a k => bind (body a) (fun _ => k)) (ret tt) l.

Definition when (b : bool) (m : M S unit) : M S unit := if b then m else ret tt.

(** A call on a part of the object. *)
Definition zoom {T A} (part : S -> T) (put : T -> S -> S) (m : M T A) : M S A := fun s =>
  let '(r, t) := m (part s) in (r, put t s).

End ops.

Notation "'let!' x ':=' m 'in' k" := (bind m (fun x => k))
  (at level 10, x pattern, m at level 100, k at level 200,
   format "'[v' 'let!'  x  ':='  m  'in' '/' k ']'") : reddish_scope.
Notation "'do!' m 'in' k" := (bind m (fun _ => k))
  (at level 10, m at level 100, k at level 200,
   format "'[v' 'do!'  m  'in' '/' k ']'") : reddish_scope.

(** ** Weakest preconditions *)

Section wp.
Context {S : Type}.

Definition wp {A} (m : M S A) (Q : A -> S -> Prop) (E : exn -> S -> Prop) (s : S) : Prop :=
  match m s with
  | (inl e, s') => E e s'
  | (inr a, s') => Q a s'
  end.

Lemma wp_ret {A} (a : A) Q E s : Q a s -> wp (ret a) Q E s.
Proof. done. Qed.

Lemma wp_throw {A} e (Q : A -> S -> Prop) E s : E e s -> wp (throw e) Q E s.
Proof. done. Qed.

Lemma wp_gets {A} (f : S -> A) Q E s : Q (f s) s -> wp (gets f) Q E s.
Proof. done. Qed.

Lemma wp_get Q E (s : S) : Q s s -> wp get Q E s.
Proof. done. Qed.

Lemma wp_modify f Q E (s : S) : Q tt (f s) -> wp (modify f) Q E s.
Proof. done. Qed.

Lemma wp_bind {A B} (m : M S A) (k : A -> M S B) Q E s :
  wp m (fun a => wp (k a) Q E) E s -> wp (bind m k) Q E s.
Proof. unfold wp, bind. by destruct (m s) as [[]]. Qed.

Lemma wp_mono {A} (m : M S A) (Q Q' : A -> S -> Prop) (E E' : exn -> S -> Prop) s :
  wp m Q E s -> (forall a s', Q a s' -> Q' a s') -> (forall e s', E e s' -> E' e s') ->
  wp m Q' E' s.
Proof. unfold wp. destruct (m s) as [[]]; auto. Qed.

Lemma wp_and {A} (m : M S A) (Q Q' : A -> S -> Prop) (E E' : exn -> S -> Prop) s :
  wp m Q E s -> wp m Q' E' s -> wp m (fun a s => Q a s /\ Q' a s) (fun e s => E e s /\ E' e s) s.
Proof. unfold wp. destruct (m s) as [[]]; auto. Qed.

Lemma wp_try_catch {A} (m : M S A) h (Q : A -> S -> Prop) E s :
  wp m Q (fun e => wp (h e) Q E) s -> wp (try_catch m h) Q E s.
Proof. unfold wp, try_catch. by destruct (m s) as [[]]. Qed.

Lemma wp_when (b : bool) (m : M S unit) Q E s :
  (b = true -> wp m Q E s) -> (b = false -> Q tt s) -> wp (when b m) Q E s.
Proof. destruct b; intros H1 H2; [by apply H1|by apply H2]. Qed.

Lemma wp_when_modify (b : bool) (f : S -> S) (Q : unit -> S -> Prop) E s :
  Q tt (if b then f s else s) -> wp (when b (modify f)) Q E s.
Proof. by destruct b. Qed.

(** A loop keeps what its body keeps, on a return and on a throw. *)
Lemma wp_for_each {A} (body : A -> M S unit) (I : S -> Prop) E l s :
  (forall a s, a ∈ l -> I s -> wp (body a) (fun _ => I) E s) ->
  I s -> wp (for_each l body) (fun _ => I) E s.
Proof.
  revert s. induction l as [|a l IH]; intros s Hb Hs; [done|].
  apply wp_bind. eapply wp_mono; [apply Hb; [left|done]| |done].
  intros u s' Hs'. apply IH; [|done]. intros b s'' Hb'. apply Hb. by right.
Qed.

Lemma wp_elim {A} (m : M S A) Q E s r s' :
  wp m Q E s -> m s = (r, s') -> match r with inl e => E e s' | inr a => Q a s' end.
Proof. unfold wp. intros H E'. rewrite E' in H. by destruct r. Qed.

(** A call that is seen to return, and one that cannot throw. *)
Lemma wp_returns {A} (m : M S A) Q E s :
  wp m Q E s -> (exists x, fst (m s) = inr x) -> exists x s', m s = (inr x, s') /\ Q x s'.
Proof. unfold wp. destruct (m s) as [[e|x] s']; intros Hw [y Hy]; [discriminate|by eexists _, _]. Qed.

Lemma wp_total {A} (m : M S A) Q s : wp m Q (fun _ _ => False) s -> exists x s', m s = (inr x, s') /\ Q x s'.
Proof. unfold wp. destruct (m s) as [[e|x] s']; intros Hw; [done|by eexists _, _]. Qed.

End wp.

Lemma wp_zoom {S T A} (part : S -> T) (put : T -> S -> S) (m : M T A) (Q : A -> S -> Prop) (E : exn -> S -> Prop) s :
  wp m (fun a t => Q a (put t s)) (fun e t => E e (put t s)) (part s) -> wp (zoom part put m) Q E s.
Proof. unfold wp, zoom. by destruct (m (part s)) as [[]]. Qed.

(** Steps through the structure of a program. *)
Ltac wp_step :=
  lazymatch goal with
  | |- wp (bind _ _) _ _ _ => apply wp_bind
  | |- wp (ret _) _ _ _ => apply wp_ret
  | |- wp (throw _) _ _ _ => apply wp_throw
  | |- wp get _ _ _ => apply wp_get
  | |- wp (gets _) _ _ _ => apply wp_gets
  | |- wp (modify _) _ _ _ => apply wp_modify
  | |- wp (try_catch _ _) _ _ _ => apply wp_try_catch
  | |- wp (zoom _ _ _) _ _ _ => apply wp_zoom
  end.
Ltac wp_steps := repeat (wp_step; cbv beta).

(** ** What a call may throw *)

(** From a state in [I], [m] stays in [I] and throws only exceptions in [P]. *)
Definition calm {S A} (I : S -> Prop) (P : exn -> Prop) (m : M S A) : Prop :=
  forall s, I s -> wp m (fun _ s' => I s') (fun e s' => I s' /\ P e) s.

Section calm.
Context {S : Type} (I : S -> Prop) (P : exn -> Prop).

Lemma calm_ret {A} (a : A) : calm I P (ret a).
Proof. intros s Hs. by apply wp_ret. Qed.

Lemma calm_throw {A} e : P e -> calm I P (throw (A:=A) e).
Proof. intros He s Hs. by apply wp_throw. Qed.

Lemma calm_get : calm I P get.
Proof. intros s Hs. by apply wp_get. Qed.

Lemma calm_gets {A} (f : S -> A) : calm I P (gets f).
Proof. intros s Hs. by apply wp_gets. Qed.

Lemma calm_modify f : (forall s, I s -> I (f s)) -> calm I P (modify f).
Proof. intros Hf s Hs. apply wp_modify. auto. Qed.

Lemma calm_bind {A B} (m : M S A) (k : A -> M S B) : calm I P m -> (forall a, calm I P (k a)) -> calm I P (bind m k).
Proof. intros Hm Hk s Hs. apply wp_bind. eapply wp_mono; [by apply Hm| |done]. intros a s' Hs'. by apply Hk. Qed.

Lemma calm_try_catch {A} (m : M S A) h : calm I P m -> (forall e, P e -> calm I P (h e)) -> calm I P (try_catch m h).
Proof. intros Hm Hh s Hs. apply wp_try_catch. eapply wp_mono; [by apply Hm|done|]. intros e s' [Hs' He]. by apply Hh. Qed.

Lemma calm_when b (m : M S unit) : calm I P m -> calm I P (when b m).
Proof. intros Hm. destruct b; [done|apply calm_ret]. Qed.

Lemma calm_for_each {A} (l : list A) body : (forall a, a ∈ l -> calm I P (body a)) -> calm I P (for_each l body).
Proof.
  induction l as [|a l IH]; intros Hb; [apply calm_ret|]. apply calm_bind; [apply Hb; left|]. intros _. apply IH.
  intros b Hb'. apply Hb. by right.
Qed.

Lemma calm_zoom {T A} (part : S -> T) (put : T -> S -> S) (m : M T A) :
  (forall t, wp m (fun _ _ => True) (fun e _ => P e) t) -> (forall t s, I s -> I (put t s)) -> calm I P (zoom part put m).
Proof.
  intros Hm Hput s Hs. apply wp_zoom. eapply wp_mono; [apply Hm|intros a t _; by apply Hput|]. intros e t He. auto.
Qed.

End calm.
