(* ===== verification/RespParse.v ===== *)
(** * RespParse: requests

    The request half of [src/resp.hpp] and [src/resp.cpp]: the argument
    list with its inline buffer, the general RESP parser
    ([parse_command_slow]), the pointer-chasing fast path
    ([parse_command_into]) and the tag-based command classifier.  [Client]
    requests ([client/C++/src/client.cpp]) are the encoder the parser is
    checked against. *)

From S2P Require Import Prelude Charconv Errors.
From Stdlib Require Import Strings.Byte.

(** ** [ArgumentList] *)

Module ArgumentList.

Definition inline_capacity : nat := 8.

Record t := mk {
  size_ : nat;
  inline_ : list bytes;     (** the array [inline_], eight slots *)
  overflow_ : list bytes
}.

Definition empty : t := mk 0 (replicate inline_capacity []) [].

Definition clear (a : t) : t := mk 0 (inline_ a) [].

Definition push_back (a : t) (value : bytes) : t :=
  if (size_ a <? inline_capacity)%nat
  then mk (S (size_ a)) (<[size_ a := value]> (inline_ a)) (overflow_ a)
  else
    let o := if (size_ a =? inline_capacity)%nat
             then take inline_capacity (inline_ a) else overflow_ a in
    mk (S (size_ a)) (inline_ a) (o ++ [value]).

Definition data (a : t) : list bytes :=
  if (size_ a <=? inline_capacity)%nat then inline_ a else overflow_ a.

(** [begin()] to [end()]. *)
Definition contents (a : t) : list bytes := take (size_ a) (data a).

(** [operator[]]. *)
Definition get (a : t) (index : nat) : bytes := default [] (data a !! index).

(** The inline array has its eight slots; once the list has spilled, the
    overflow vector holds every argument. *)
Definition wf (a : t) : Prop :=
  length (inline_ a) = inline_capacity /\
  ((inline_capacity < size_ a)%nat -> length (overflow_ a) = size_ a).

End ArgumentList.

(** ** Commands *)

Inductive CommandId :=
| id_unknown | id_ping | id_info | id_get | id_set | id_increment
| id_list_push_left | id_list_push_right | id_list_pop_left | id_list_pop_right
| id_list_length | id_hash_set | id_hash_get | id_hash_del | id_hash_length
| id_expire | id_ttl | id_del.

#[global] Instance CommandId_eq_dec : EqDecision CommandId.
Proof. solve_decision. Defined.

Record Command := mkCommand {
  cmd_name : bytes;
  cmd_arguments : ArgumentList.t;
  bytes_consumed : nat;
  classified_id : CommandId
}.

Definition empty_command : Command := mkCommand [] ArgumentList.empty 0 id_unknown.

(** [command.arguments.clear(); command.name = {}; command.bytes_consumed = 0] *)
Definition reset_command (c : Command) : Command :=
  mkCommand [] (ArgumentList.clear (cmd_arguments c)) 0 (classified_id c).

Definition set_consumed (c : Command) (n : nat) : Command :=
  mkCommand (cmd_name c) (cmd_arguments c) n (classified_id c).

(** [if (index == 0) command.name = value; else command.arguments.push_back(value)] *)
Definition add_part (index : Z) (value : bytes) (c : Command) : Command :=
  if index =? 0
  then mkCommand value (cmd_arguments c) (bytes_consumed c) (classified_id c)
  else mkCommand (cmd_name c) (ArgumentList.push_back (cmd_arguments c) value)
                 (bytes_consumed c) (classified_id c).

(** ** The general parser *)

(** [find("\r\n")] from the start of a view. *)
Fixpoint find_crlf (l : bytes) : option nat :=
  match l with
  | a :: ((b :: _) as t) =>
      if bool_decide (a = CR) && bool_decide (b = LF) then Some O
      else S <$> find_crlf t
  | _ => None
  end.

Definition readline (input : bytes) (pos : nat) : Result (bytes * nat) :=
  match find_crlf (drop pos input) with
  | None => Unexpected missing_crlf
  | Some k => Ok (take k (drop pos input), (pos + k + 2)%nat)
  end.

Definition parse_number (input : bytes) (code : ErrorCode) : Result Z :=
  match from_chars_size input with
  | None => Unexpected code
  | Some v => Ok v
  end.

(** One round of the argument loop; [Ok] carries the bulk string and the
    position after its terminator. *)
Definition read_bulk (input : bytes) (pos : nat) : Result (bytes * nat) :=
  let size := length input in
  if (size <=? pos)%nat then Unexpected missing_bulk_string_prefix else
  if negb (bool_decide (input !! pos = Some x24)) then Unexpected expected_bulk_string_prefix else
  try (line, pos) <- readline input (S pos);
  try n <- parse_number line invalid_bulk_string_length;
  if (size <? pos)%nat || (size - pos <? 2)%nat || (Z.of_nat (size - pos - 2) <? n)
  then Unexpected incomplete_bulk_string_data else
  let value := take (Z.to_nat n) (drop pos input) in
  let pos := (pos + Z.to_nat n)%nat in
  if (size - pos <? 2)%nat then Unexpected missing_bulk_string_terminator else
  if negb (bool_decide (take 2 (drop pos input) = crlf))
  then Unexpected missing_bulk_string_terminator else
  Ok (value, (pos + 2)%nat).

Definition slow_step (input : bytes) (st : Z * nat * Command)
    : (Z * nat * Command) + (ErrorCode * Command) :=
  let '(index, pos, c) := st in
  match read_bulk input pos with
  | Unexpected e => inr (e, c)
  | Ok (value, pos') => inl (index + 1, pos', add_part index value c)
  end.

(** The command is an out-parameter: it is returned also on failure. *)
Definition parse_command_slow (input : bytes) (c0 : Command) : Result unit * Command :=
  let c := reset_command c0 in
  if bool_decide (input = []) then (Unexpected empty_resp_input, c) else
  if negb (bool_decide (input !! 0%nat = Some x2a))
  then (Unexpected expected_resp_array_prefix, c) else
  match readline input 1 with
  | Unexpected e => (Unexpected e, c)
  | Ok (line, pos) =>
      match parse_number line invalid_resp_array_length with
      | Unexpected e => (Unexpected e, c)
      | Ok argc =>
          if argc =? 0 then (Unexpected empty_resp_array, c) else
          match z_loop (slow_step input) argc (0, pos, c) with
          | inr (e, c') => (Unexpected e, c')
          | inl (_, pos', c') => (Ok tt, set_consumed c' pos')
          end
      end
  end.

(** ** The fast path *)

(** [static_cast<unsigned char>(c) - static_cast<unsigned>('0')]: unsigned
    arithmetic, so a character below ['0'] wraps to a large number. *)
Definition digit_of (c : byte) : Z := u32 (b2z c - 48).

(** The accumulation loop of [read_length]; [None] is [return false] on
    overflow. *)
Fixpoint length_loop (position : bytes) (value : Z) : option (Z * bytes) :=
  match position with
  | [] => Some (value, [])
  | c :: t =>
      let digit := digit_of c in
      if 9 <? digit then Some (value, position)
      else if (size_max - digit) / 10 <? value then None
      else length_loop t (value * 10 + digit)
  end.

Definition starts_crlf (l : bytes) : bool :=
  match l with
  | a :: b :: _ => bool_decide (a = CR) && bool_decide (b = LF)
  | _ => false
  end.

(** [cursor] is the view from the pointer to [end]; a result is the length
    read and the advanced cursor. *)
Definition read_length (cursor : bytes) : option (Z * bytes) :=
  match cursor with
  | c0 :: ((_ :: _ :: _) as t1) =>
      let first := digit_of c0 in
      if 9 <? first then None else
      if starts_crlf t1 then Some (first, drop 2 t1) else
      match t1 with
      | c1 :: ((_ :: _ :: _) as t2) =>
          let second := digit_of c1 in
          if 9 <? second then None else
          if starts_crlf t2 then Some (first * 10 + second, drop 2 t2) else
          match length_loop cursor 0 with
          | None => None
          | Some (value, position) =>
              if starts_crlf position then Some (value, drop 2 position) else None
          end
      | _ => None
      end
  | _ => None
  end.

(** One round of the argument loop; leaving early means falling back. *)
Definition fast_step (st : Z * bytes * Command) : (Z * bytes * Command) + Command :=
  let '(index, cursor, c) := st in
  match cursor with
  | x24 :: cursor =>
      match read_length cursor with
      | None => inr c
      | Some (n, cursor) =>
          let left := length cursor in
          if (left <? 2)%nat || (Z.of_nat (left - 2) <? n) then inr c else
          let k := Z.to_nat n in
          if negb (bool_decide (cursor !! k = Some CR)) || negb (bool_decide (cursor !! S k = Some LF))
          then inr c
          else inl (index + 1, drop (k + 2) cursor, add_part index (take k cursor) c)
      end
  | _ => inr c
  end.

Definition parse_command_into (input : bytes) (c0 : Command) : Result unit * Command :=
  if (length input <? 4)%nat || negb (bool_decide (input !! 0%nat = Some x2a))
  then parse_command_slow input c0 else
  let c := reset_command c0 in
  match read_length (drop 1 input) with
  | None => parse_command_slow input c
  | Some (count, cursor) =>
      if count =? 0 then parse_command_slow input c else
      match z_loop fast_step count (0, cursor, c) with
      | inr c' => parse_command_slow input c'
      | inl (_, cursor', c') =>
          (Ok tt, set_consumed c' (length input - length cursor'))
      end
  end.

Definition parse_command (input : bytes) : Result Command :=
  match parse_command_into input empty_command with
  | (Ok _, c) => Ok c
  | (Unexpected e, _) => Unexpected e
  end.

(** ** Classification *)

(** [tag_of] on a C string literal without NUL bytes. *)
Fixpoint fold_tag (index : Z) (text : bytes) (tag : Z) : Z :=
  match text with
  | [] => tag
  | c :: t => fold_tag (index + 1) t
                (Z.lor tag (u64 (Z.shiftl (Z.lor (b2z c) 32) (index * 8))))
  end.

Definition tag_of_literal (text : bytes) : Z :=
  let l := take 8 text in
  Z.lor (fold_tag 0 l 0) (u64 (Z.shiftl (len l) 56)).

Section classify.

(** [std::endian::native == std::endian::little]. *)
Variable little_endian : bool.

Definition tag_of_general (name : bytes) : Z :=
  Z.lor (fold_tag 0 (take 8 name) 0) (u64 (Z.shiftl (Z.land (len name) 255) 56)).

Definition tag_of (name : bytes) : Z :=
  if little_endian then
    match name with
    | [a; b; c] =>
        Z.lor (Z.lor (Z.lor (le_value [a; b]) (Z.shiftl (b2z c) 16)) 2105376)
              (Z.shiftl 3 56)
    | [a; b; c; d] => Z.lor (Z.lor (le_value [a; b; c; d]) 538976288) (Z.shiftl 4 56)
    | _ => tag_of_general name
    end
  else tag_of_general name.

(** [CommandInfo]: the identifier and whether it writes. *)
Definition CommandInfo : Type := CommandId * bool.

Definition literal_tag (s : String.string) : Z := tag_of_literal (of_str s).

Definition classify_command (name : bytes) : CommandInfo :=
  match name with
  | [n0; n1; n2] =>
      let folded := Z.lor (Z.lor (Z.lor (b2z n0) 32)
                                 (Z.shiftl (Z.lor (b2z n1) 32) 8))
                          (Z.shiftl (Z.lor (b2z n2) 32) 16) in
      if folded =? u32 (literal_tag "get") then (id_get, false)
      else if folded =? u32 (literal_tag "set") then (id_set, true)
      else if folded =? u32 (literal_tag "del") then (id_del, true)
      else if folded =? u32 (literal_tag "ttl") then (id_ttl, false)
      else (id_unknown, true)
  | _ =>
      let tag := tag_of name in
      if tag =? literal_tag "ping" then (id_ping, false)
      else if tag =? literal_tag "info" then (id_info, false)
      else if tag =? literal_tag "get" then (id_get, false)
      else if tag =? literal_tag "set" then (id_set, true)
      else if tag =? literal_tag "incr" then (id_increment, true)
      else if tag =? literal_tag "lpush" then (id_list_push_left, true)
      else if tag =? literal_tag "rpush" then (id_list_push_right, true)
      else if tag =? literal_tag "lpop" then (id_list_pop_left, true)
      else if tag =? literal_tag "rpop" then (id_list_pop_right, true)
      else if tag =? literal_tag "llen" then (id_list_length, false)
      else if tag =? literal_tag "hset" then (id_hash_set, true)
      else if tag =? literal_tag "hget" then (id_hash_get, false)
      else if tag =? literal_tag "hdel" then (id_hash_del, true)
      else if tag =? literal_tag "hlen" then (id_hash_length, false)
      else if tag =? literal_tag "expire" then (id_expire, true)
      else if tag =? literal_tag "ttl" then (id_ttl, false)
      else if tag =? literal_tag "del" then (id_del, true)
      else (id_unknown, true)
  end.

End classify.

(** ** Requests as the client writes them *)

Definition encode_bulk (part : bytes) : bytes :=
  x24 :: to_string (len part) ++ crlf ++ part ++ crlf.

(** The request string of [Client::execute]. *)
Definition encode_request (command : list bytes) : bytes :=
  x2a :: to_string (len command) ++ crlf ++ concat (map encode_bulk command).

#[global] Arguments encode_bulk : simpl never.
#[global] Arguments encode_request : simpl never.

Example parse_ping :
  parse_command (encode_request [of_str "PING"; of_str "x"] ++ of_str "tail")
  = Ok (mkCommand (of_str "PING")
          (ArgumentList.mk 1 (of_str "x" :: replicate 7 []) []) 21 id_unknown).
Proof. vm_compute. reflexivity. Qed.

Example classify_mixed :
  map (classify_command true) (map of_str ["gEt"; "LPUSH"; "expire"; "gett"; "PIN"]%string)
  = [(id_get, false); (id_list_push_left, true); (id_expire, true);
     (id_unknown, true); (id_unknown, true)].
Proof. vm_compute. reflexivity. Qed.

(** ** Facts about the argument list *)

Module ArgumentListFacts.
Import ArgumentList.

Lemma empty_wf : wf empty.
Proof. split; simpl; [done|lia]. Qed.

Lemma clear_wf a : wf a -> wf (clear a).
Proof. intros [H _]. split; simpl; [done|lia]. Qed.

Lemma push_back_wf a v : wf a -> wf (push_back a v).
Proof.
  intros [Hi Ho]. unfold push_back.
  destruct (Nat.ltb_spec (size_ a) inline_capacity).
  - split; cbn [size_ inline_ overflow_]; [by rewrite length_insert|lia].
  - destruct (Nat.eqb_spec (size_ a) inline_capacity); split; cbn [size_ inline_ overflow_];
      try done; intros _; rewrite length_app, ?length_take, ?Hi, ?Ho by lia; unfold inline_capacity in *; simpl; lia.
Qed.

(** The inline array and the overflow vector together behave as one list. *)
Lemma push_back_contents a v : wf a -> contents (push_back a v) = contents a ++ [v].
Proof.
  intros [Hi Ho]. unfold contents, push_back, data.
  destruct (Nat.ltb_spec (size_ a) inline_capacity) as [Hs|Hs]; cbn [size_ inline_ overflow_].
  - destruct (Nat.leb_spec (S (size_ a)) inline_capacity); [|lia].
    destruct (Nat.leb_spec (size_ a) inline_capacity); [|lia].
    rewrite (take_S_r _ _ v).
    + by rewrite take_insert_ge by lia.
    + by apply list_lookup_insert_eq; rewrite Hi.
  - destruct (Nat.leb_spec (S (size_ a)) inline_capacity); [lia|].
    destruct (Nat.eqb_spec (size_ a) inline_capacity) as [He|He].
    + rewrite He, Nat.leb_refl. rewrite take_ge; [done|].
      rewrite length_app, length_take, Hi. unfold inline_capacity in *. simpl. lia.
    + destruct (Nat.leb_spec (size_ a) inline_capacity); [lia|].
      rewrite !take_ge; [done|by rewrite Ho by lia|].
      rewrite length_app, Ho by lia. simpl. lia.
Qed.

Lemma clear_contents a : contents (clear a) = [].
Proof. done. Qed.

End ArgumentListFacts.

Import ArgumentListFacts.

(** ** Commands up to the stale slots of their argument list *)

Definition cmd_wf (c : Command) : Prop := ArgumentList.wf (cmd_arguments c).

Definition arguments (c : Command) : list bytes := ArgumentList.contents (cmd_arguments c).

#[global] Instance command_equiv : Equiv Command := fun c1 c2 =>
  cmd_name c1 = cmd_name c2 /\ arguments c1 = arguments c2 /\
  bytes_consumed c1 = bytes_consumed c2 /\ classified_id c1 = classified_id c2 /\
  cmd_wf c1 /\ cmd_wf c2.

Ltac cmd_split := unfold equiv, command_equiv in *; destruct_and?; split_and!.

#[global] Instance command_equiv_per : RelationClasses.PER (≡@{Command}).
Proof.
  split.
  - intros c1 c2 H. cmd_split; done.
  - intros c1 c2 c3 H1 H2. cmd_split; try congruence; done.
Qed.

Lemma command_equiv_refl c : cmd_wf c -> c ≡ c.
Proof. intros. cmd_split; done. Qed.

#[global] Instance add_part_proper index value :
  Proper ((≡) ==> (≡)) (add_part index value).
Proof.
  intros c1 c2 H. unfold add_part.
  destruct (index =? 0); cmd_split; simpl; try done; try (by apply push_back_wf).
  unfold arguments in *. simpl. rewrite !push_back_contents by done. by f_equal.
Qed.

#[global] Instance set_consumed_proper : Proper ((≡) ==> (=) ==> (≡)) set_consumed.
Proof. intros c1 c2 H n ? <-. cmd_split; done. Qed.

(** Whatever a command held, resetting it gives the same empty command. *)
Lemma reset_equiv c1 c2 :
  cmd_wf c1 -> cmd_wf c2 -> classified_id c1 = classified_id c2 ->
  reset_command c1 ≡ reset_command c2.
Proof. intros. cmd_split; simpl; try done; by apply clear_wf. Qed.

Lemma reset_wf c : cmd_wf c -> cmd_wf (reset_command c).
Proof. apply clear_wf. Qed.

Lemma add_part_wf i v c : cmd_wf c -> cmd_wf (add_part i v c).
Proof. intros. unfold add_part. case_match; [done|]. by apply push_back_wf. Qed.

Lemma add_part_id i v c : classified_id (add_part i v c) = classified_id c.
Proof. unfold add_part. by case_match. Qed.

#[export] Hint Resolve reset_wf add_part_wf command_equiv_refl empty_wf : reddish.

(** ** Facts about lines *)

Lemma find_crlf_cons a b t :
  find_crlf (a :: b :: t) =
  if bool_decide (a = CR) && bool_decide (b = LF) then Some O else S <$> find_crlf (b :: t).
Proof. reflexivity. Qed.

Lemma find_crlf_bound l k : find_crlf l = Some k -> (k + 2 <= length l)%nat.
Proof.
  revert k; induction l as [|a l IH]; intros k; [done|].
  destruct l as [|b l]; [done|]. rewrite find_crlf_cons.
  destruct (_ && _); [intros [= <-]; simpl; lia|].
  destruct (find_crlf (b :: l)) as [k'|] eqn:E; [|done].
  intros [= <-]. specialize (IH _ eq_refl). simpl in *. lia.
Qed.

Lemma find_crlf_app l r k : find_crlf l = Some k -> find_crlf (l ++ r) = Some k.
Proof.
  revert k; induction l as [|a l IH]; intros k; [done|].
  destruct l as [|b l]; [done|]. cbn [app]. rewrite !find_crlf_cons.
  destruct (_ && _); [done|].
  destruct (find_crlf (b :: l)) as [k'|] eqn:E; [|done].
  intros [= <-]. cbn [app] in IH. by rewrite (IH _ eq_refl).
Qed.

Lemma find_crlf_first l r :
  Forall (fun b => b <> CR) l -> find_crlf (l ++ crlf ++ r) = Some (length l).
Proof.
  induction 1 as [|a l Ha Hl IH]; [reflexivity|].
  destruct l as [|b l]; cbn [app crlf] in *; rewrite find_crlf_cons;
    rewrite (bool_decide_eq_false_2 (a = CR)) by done; [reflexivity|].
  simpl andb. cbn iota. by rewrite IH.
Qed.

Lemma digits_not_CR l : all_digits l -> Forall (fun b => b <> CR) l.
Proof. intros H. eapply Forall_impl; [exact H|]. intros b Hb ->. by vm_compute in Hb. Qed.

Lemma readline_digits input pos ds rest :
  drop pos input = ds ++ crlf ++ rest -> all_digits ds ->
  readline input pos = Ok (ds, (pos + length ds + 2)%nat).
Proof.
  intros E Hd. unfold readline. rewrite E, find_crlf_first by by apply digits_not_CR.
  by rewrite take_app_length.
Qed.

(** ** The fast path accepts a canonical line *)

Lemma digit_of_spec c :
  (is_digit c = true /\ digit_of c = b2z c - 48 /\ 0 <= digit_of c <= 9) \/
  (is_digit c = false /\ 9 < digit_of c).
Proof.
  unfold digit_of, is_digit, u32. pose proof (b2z_range c) as Hc.
  destruct (Z_lt_le_dec (b2z c) 48).
  - right. rewrite <- (Z_mod_plus_full (b2z c - 48) 1), Z.mod_small by lia. zcases; simpl; lia.
  - rewrite Z.mod_small by lia. zcases; simpl; (left + right); lia.
Qed.

Lemma starts_crlf_spec l : starts_crlf l = true -> l = crlf ++ drop 2 l.
Proof.
  destruct l as [|a [|b l]]; try done. simpl.
  rewrite andb_true_iff, !bool_decide_eq_true. by intros [-> ->].
Qed.

Lemma starts_crlf_app l : starts_crlf (crlf ++ l) = true.
Proof. reflexivity. Qed.

Lemma length_loop_spec l v v' p :
  0 <= v <= size_max -> length_loop l v = Some (v', p) ->
  exists ds, all_digits ds /\ l = ds ++ p /\ v' = dec_value v ds /\ 0 <= v' <= size_max.
Proof.
  revert v; induction l as [|c l IH]; intros v Hv; cbn [length_loop].
  - intros [= <- <-]. exists []. split_and!; try done; try lia. constructor.
  - destruct (digit_of_spec c) as [(Hc & Hd & Hr)|(Hc & Hr)].
    + destruct (Z.ltb_spec 9 (digit_of c)); [lia|].
      destruct (Z.ltb_spec ((size_max - digit_of c) / 10) v) as [|Ho]; [done|].
      intros E. apply IH in E as (ds & H1 & -> & -> & H4).
      * exists (c :: ds). split_and!; try done; try lia; [by constructor|].
        unfold dec_value. simpl. by rewrite Hd.
      * pose proof (Z.mul_div_le (size_max - digit_of c) 10 ltac:(lia)). lia.
    + destruct (Z.ltb_spec 9 (digit_of c)); [|lia].
      intros [= <- <-]. exists []. split_and!; try done; try lia. constructor.
Qed.

Lemma read_length_spec cursor v rest :
  read_length cursor = Some (v, rest) ->
  exists ds, ds <> [] /\ all_digits ds /\ cursor = ds ++ crlf ++ rest /\
             v = dec_value 0 ds /\ 0 <= v <= size_max.
Proof.
  destruct cursor as [|c0 [|c1 [|c2 t]]]; try done. unfold read_length.
  destruct (digit_of_spec c0) as [(H0 & D0 & R0)|(H0 & R0)];
    destruct (Z.ltb_spec 9 (digit_of c0)); try lia; [|done].
  destruct (starts_crlf (c1 :: c2 :: t)) eqn:E1.
  { apply starts_crlf_spec in E1. intros [= <- <-]. exists [c0].
    split_and!; [done|auto with reddish|simpl in *; congruence|..];
      unfold dec_value, size_max; simpl; lia. }
  destruct t as [|c3 t]; [done|].
  destruct (digit_of_spec c1) as [(H1 & D1 & R1)|(H1 & R1)];
    destruct (Z.ltb_spec 9 (digit_of c1)); try lia; [|done].
  destruct (starts_crlf (c2 :: c3 :: t)) eqn:E2.
  { apply starts_crlf_spec in E2. intros [= <- <-]. exists [c0; c1].
    split_and!; [done|auto with reddish|simpl in *; congruence|..];
      unfold dec_value, size_max; simpl; lia. }
  destruct (length_loop _ 0) as [[v' p]|] eqn:E3; [|done].
  apply length_loop_spec in E3 as (ds & Hd & E & -> & Hr); [|unfold size_max; lia].
  destruct (starts_crlf p) eqn:E4; [|done]. intros [= <- <-].
  apply starts_crlf_spec in E4. exists ds. split_and!; try done; try lia.
  - intros ->. simpl in E. rewrite E4 in E. injection E as -> _. by vm_compute in H0.
  - by rewrite E, <- E4.
Qed.

Lemma from_chars_size_digits ds :
  all_digits ds -> ds <> [] -> dec_value 0 ds <= size_max ->
  from_chars_size ds = Some (dec_value 0 ds).
Proof.
  intros Hd Hne Hm. apply from_chars_digits; [done..|].
  pose proof (dec_value_nonneg 0 ds ltac:(lia) Hd). lia.
Qed.

(** A cursor into [input] and a position agree on the bytes left. *)
Lemma drop_split (input ds rest : bytes) pos :
  drop pos input = ds ++ rest -> drop (pos + length ds) input = rest.
Proof. intros E. by rewrite <- drop_drop, E, drop_app_length. Qed.

(** A line read by the fast path is read the same way by the general one. *)
Lemma read_length_readline input pos v rest code :
  read_length (drop pos input) = Some (v, rest) ->
  exists line pos', readline input pos = Ok (line, pos') /\
    parse_number line code = Ok v /\ drop pos' input = rest /\
    (pos <= length input -> pos' <= length input)%nat.
Proof.
  intros H. apply read_length_spec in H as (ds & Hne & Hd & E & -> & Hr).
  exists ds, (pos + length ds + 2)%nat.
  rewrite (readline_digits _ _ _ _ E Hd). split_and!; [done| | |].
  - unfold parse_number. by rewrite from_chars_size_digits by (done || lia).
  - apply drop_split in E. by rewrite <- drop_drop, E.
  - intros Hp. apply (f_equal length) in E. rewrite length_drop, !length_app in E.
    simpl in E. lia.
Qed.

Lemma drop_cons_inv (input : bytes) pos a t :
  drop pos input = a :: t ->
  input !! pos = Some a /\ drop (S pos) input = t /\ (pos < length input)%nat.
Proof.
  intros E. assert (input !! pos = Some a) as Ha.
  { rewrite <- (Nat.add_0_r pos), <- lookup_drop, E. done. }
  split_and!; [done| |by eapply lookup_lt_Some].
  rewrite <- Nat.add_1_r, <- drop_drop, E. done.
Qed.

Lemma take2_lookup (l : bytes) k a b :
  l !! k = Some a -> l !! S k = Some b -> take 2 (drop k l) = [a; b].
Proof.
  intros Ha Hb. rewrite (drop_S _ _ _ Ha), (drop_S _ _ _ Hb). reflexivity.
Qed.

(** ** Each round of the fast path is a round of the general parser *)

Lemma fast_slow_step input index pos c st' :
  (pos <= length input)%nat -> fast_step (index, drop pos input, c) = inl st' ->
  exists pos', slow_step input (index, pos, c) = inl (index + 1, pos', st'.2) /\
    st'.1 = (index + 1, drop pos' input) /\ (pos' <= length input)%nat.
Proof.
  intros Hpos. unfold fast_step.
  destruct (drop pos input) as [|c0 cur] eqn:E0; [done|].
  destruct (decide (c0 = x24)) as [->|Hc]; [|by destruct c0].
  apply drop_cons_inv in E0 as (H0 & <- & Hlt).
  destruct (read_length _) as [[n cur2]|] eqn:E1; [|done].
  apply (read_length_readline _ _ _ _ invalid_bulk_string_length) in E1
    as (line & pos2 & Hl & Hn & <- & Hp2).
  specialize (Hp2 ltac:(lia)). rewrite length_drop.
  destruct (Nat.ltb_spec (length input - pos2) 2); [done|].
  destruct (Z.ltb_spec (Z.of_nat (length input - pos2 - 2)) n); [done|].
  destruct (bool_decide (_ = Some CR)) eqn:E2; [|done].
  destruct (bool_decide (_ = Some LF)) eqn:E3; [|done].
  apply bool_decide_eq_true in E2, E3. simpl. intros [= <-].
  unfold slow_step, read_bulk.
  destruct (Nat.leb_spec (length input) pos); [lia|].
  rewrite (bool_decide_eq_true_2 _ H0). simpl negb. cbn iota.
  rewrite Hl. cbn [result_bind]. rewrite Hn. cbn [result_bind].
  destruct (Nat.ltb_spec (length input) pos2); [lia|].
  destruct (Nat.ltb_spec (length input - pos2) 2); [lia|].
  destruct (Z.ltb_spec (Z.of_nat (length input - pos2 - 2)) n); [lia|]. simpl orb. cbn iota.
  destruct (Nat.ltb_spec (length input - (pos2 + Z.to_nat n)) 2); [lia|].
  rewrite <- drop_drop, (take2_lookup _ _ _ _ E2 E3).
  rewrite bool_decide_eq_true_2 by done. simpl negb. cbn iota.
  exists (pos2 + Z.to_nat n + 2)%nat. split_and!; [done| |lia].
  simpl. by rewrite drop_drop, Nat.add_assoc.
Qed.

Lemma fast_slow_loop input n pos c index cur' c' :
  (pos <= length input)%nat ->
  z_loop fast_step n (0, drop pos input, c) = inl (index, cur', c') ->
  exists pos', z_loop (slow_step input) n (0, pos, c) = inl (index, pos', c') /\
    cur' = drop pos' input /\ (pos' <= length input)%nat.
Proof.
  intros Hpos H.
  pose proof (z_loop_follow
    (fun (s1 : Z * bytes * Command) (s2 : Z * nat * Command) =>
       s1 = (s2.1.1, drop s2.1.2 input, s2.2) /\ (s2.1.2 <= length input)%nat)
    (fun _ _ => False) (fun _ => True)
    fast_step (slow_step input) n (0, drop pos input, c) (0, pos, c)) as Hf.
  rewrite H in Hf. destruct Hf as ([[i p] c2] & E & Hs & Hle); [|done|].
  - intros [[i1 cu1] c1] [[i2 p2] c2] [[= -> -> ->] Hle].
    cbn [fst snd] in *.
    destruct (fast_step (i2, drop p2 input, c2)) as [[[i1' cu1'] c1']|] eqn:E; [|by left].
    apply fast_slow_step in E as (p' & E & E' & Hp'); [|done]. simpl in *.
    injection E' as -> ->. eauto.
  - simpl in *. injection Hs as -> -> ->. eauto.
Qed.

(** ** The general parser ignores what the command held before *)

Definition same_outcome (x y : Result unit * Command) : Prop := x.1 = y.1 /\ x.2 ≡ y.2.

Lemma slow_ignores_command input c1 c2 :
  cmd_wf c1 -> cmd_wf c2 -> classified_id c1 = classified_id c2 ->
  same_outcome (parse_command_slow input c1) (parse_command_slow input c2).
Proof.
  intros H1 H2 Hid. pose proof (reset_equiv _ _ H1 H2 Hid) as Hr.
  unfold parse_command_slow. case_match; [done|]. case_match; [done|].
  destruct (readline input 1) as [[line pos]|]; [|done].
  destruct (parse_number _ _) as [argc|]; [|done]. case_match; [done|].
  assert (sum_rel
    (fun s1 s2 : Z * nat * Command => s1.1 = s2.1 /\ s1.2 ≡ s2.2)
    (fun r1 r2 : ErrorCode * Command => r1.1 = r2.1 /\ r1.2 ≡ r2.2)
    (z_loop (slow_step input) argc (0, pos, reset_command c1))
    (z_loop (slow_step input) argc (0, pos, reset_command c2))) as Hl.
  { apply z_loop_sim; [|done].
    intros [[i p] d] [[i' p'] d'] [[= -> ->] He]. simpl in He. unfold slow_step.
    destruct (read_bulk input p') as [[v q]|]; simpl; (split; [done|]); [|done].
    by apply add_part_proper. }
  destruct (z_loop _ argc (_, reset_command c1)) as [[[i1 p1] d1]|[e1 d1]],
           (z_loop _ argc (_, reset_command c2)) as [[[i2 p2] d2]|[e2 d2]];
    try done; destruct Hl as [E Hd]; simpl in *; simplify_eq; (split; [done|]); [|done].
  by apply set_consumed_proper.
Qed.

(** The fast path leaves a well-formed command behind when it gives up. *)
Lemma fast_step_inv n cursor c :
  0 <= n -> cmd_wf c ->
  match z_loop fast_step n (0, cursor, c) with
  | inl s => cmd_wf s.2 /\ classified_id s.2 = classified_id c
  | inr c' => cmd_wf c' /\ classified_id c' = classified_id c
  end.
Proof.
  intros Hn Hc.
  apply (z_loop_inv (fun _ (s : Z * bytes * Command) =>
                       cmd_wf s.2 /\ classified_id s.2 = classified_id c)
                    (fun c' => cmd_wf c' /\ classified_id c' = classified_id c)); [|done|done].
  intros k [[i cur] d] _ [Hd Hid]. simpl in *. unfold fast_step.
  repeat case_match; simplify_eq; try done. simpl. rewrite add_part_id. auto with reddish.
Qed.

Lemma fast_equals_slow input c :
  cmd_wf c -> same_outcome (parse_command_into input c) (parse_command_slow input c).
Proof.
  intros Hc. unfold parse_command_into.
  assert (forall c', cmd_wf c' -> classified_id c' = classified_id c ->
            same_outcome (parse_command_slow input c') (parse_command_slow input c)) as Hslow
    by (intros; by apply slow_ignores_command).
  destruct (_ || _) eqn:E0; [by apply Hslow|]. apply orb_false_iff in E0 as [E0 E0'].
  apply Nat.ltb_ge in E0. apply negb_false_iff, bool_decide_eq_true in E0'.
  destruct (read_length _) as [[count cur]|] eqn:E1; [|apply Hslow; auto with reddish].
  destruct (Z.eqb_spec count 0) as [|Hnz]; [apply Hslow; auto with reddish|].
  pose proof (fast_step_inv count cur (reset_command c)) as Hinv.
  pose proof (read_length_spec _ _ _ E1) as (_ & _ & _ & _ & _ & Hcount).
  specialize (Hinv ltac:(lia) (reset_wf _ Hc)).
  destruct (z_loop fast_step _ _) as [[[i cur'] c']|c'] eqn:E2; [|destruct Hinv; by apply Hslow].
  apply (read_length_readline _ _ _ _ invalid_resp_array_length) in E1
    as (line & pos & Hl & Hn & <- & Hp).
  apply fast_slow_loop in E2 as (pos' & E2 & -> & Hp'); [|apply Hp; lia].
  unfold parse_command_slow.
  rewrite bool_decide_eq_false_2 by (intros ->; done).
  rewrite (bool_decide_eq_true_2 _ E0'). simpl negb. cbn iota.
  rewrite Hl, Hn. destruct (Z.eqb_spec count 0); [done|].
  rewrite E2, length_drop. replace (length input - (length input - pos'))%nat with pos' by lia.
  split; [done|]. simpl. apply command_equiv_refl. apply Hinv.
Qed.

(** ** More input never changes a definite answer *)

(** [is_incomplete_resp_error] of [server.cpp]: the errors that mean "wait
    for more bytes". *)
Definition is_incomplete_resp_error (code : ErrorCode) : bool :=
  bool_decide (code = missing_crlf) || bool_decide (code = missing_bulk_string_prefix) ||
  bool_decide (code = incomplete_bulk_string_data).

(** The second answer is the first one, unless the first asks for more. *)
Definition extends {A} (r1 r2 : Result A) : Prop :=
  match r1 with
  | Ok _ => r2 = r1
  | Unexpected e => is_incomplete_resp_error e = true \/ r2 = r1
  end.

Lemma extends_refl {A} (r : Result A) : extends r r.
Proof. destruct r; simpl; auto. Qed.

Lemma extends_bind {A B} (r1 r2 : Result A) (k1 k2 : A -> Result B) :
  extends r1 r2 -> (forall a, r1 = Ok a -> extends (k1 a) (k2 a)) ->
  extends (result_bind r1 k1) (result_bind r2 k2).
Proof.
  destruct r1 as [a|e]; simpl.
  - intros -> Hk. by apply Hk.
  - intros [He| ->] _; [by left|by right].
Qed.

Lemma readline_app input rest pos :
  (pos <= length input)%nat -> extends (readline input pos) (readline (input ++ rest) pos).
Proof.
  intros Hp. unfold readline. rewrite drop_app_le by done.
  destruct (find_crlf (drop pos input)) as [k|] eqn:E; [|by left].
  rewrite (find_crlf_app _ _ _ E). simpl.
  apply find_crlf_bound in E. by rewrite take_app_le by lia.
Qed.

Lemma readline_bound input pos line pos' :
  readline input pos = Ok (line, pos') -> (pos + 2 <= pos' <= length input)%nat.
Proof.
  unfold readline. destruct (find_crlf _) as [k|] eqn:E; [|done]. intros [= _ <-].
  apply find_crlf_bound in E. rewrite length_drop in E. lia.
Qed.

Lemma read_bulk_bound input pos v pos' :
  read_bulk input pos = Ok (v, pos') -> (pos < pos' <= length input)%nat.
Proof.
  unfold read_bulk. case_match; [done|]. case_match; [done|].
  destruct (readline input (S pos)) as [[line p]|] eqn:E; [|done]. cbn [result_bind].
  destruct (parse_number _ _) as [n|] eqn:En; [|done]. cbn [result_bind].
  destruct ((_ <? _)%nat || _ || _) eqn:Eb; [done|].
  destruct (Nat.ltb_spec (length input - (p + Z.to_nat n)) 2); [done|]. case_match; [done|].
  intros [= _ <-]. apply readline_bound in E. lia.
Qed.

Lemma read_bulk_app input rest pos :
  (pos <= length input)%nat -> extends (read_bulk input pos) (read_bulk (input ++ rest) pos).
Proof.
  intros Hp. unfold read_bulk. rewrite length_app.
  destruct (Nat.leb_spec (length input) pos); [by left|].
  destruct (Nat.leb_spec (length input + length rest) pos); [lia|].
  rewrite lookup_app_l by lia. case_match; [by right|].
  apply extends_bind; [apply readline_app; lia|].
  intros [line p] Hl%readline_bound. apply extends_bind; [apply extends_refl|]. intros n _.
  destruct (Nat.ltb_spec (length input) p); [lia|].
  destruct (Nat.ltb_spec (length input + length rest) p); [lia|].
  destruct (Nat.ltb_spec (length input - p) 2); [by left|].
  destruct (Nat.ltb_spec (length input + length rest - p) 2); [lia|].
  destruct (Z.ltb_spec (Z.of_nat (length input - p - 2)) n); [by left|].
  destruct (Z.ltb_spec (Z.of_nat (length input + length rest - p - 2)) n); [lia|].
  simpl orb. cbn iota.
  destruct (Nat.ltb_spec (length input - (p + Z.to_nat n)) 2); [lia|].
  destruct (Nat.ltb_spec (length input + length rest - (p + Z.to_nat n)) 2); [lia|].
  rewrite !drop_app_le by lia. rewrite !take_app_le by (rewrite length_drop; lia).
  apply extends_refl.
Qed.

Lemma slow_step_app input rest (st : Z * nat * Command) :
  (st.1.2 <= length input)%nat ->
  match slow_step input st with
  | inl st' => exists s2, slow_step (input ++ rest) st = inl s2 /\
                 st' = s2 /\ (st'.1.2 <= length input)%nat
  | inr r => is_incomplete_resp_error r.1 = true \/
             exists r2, slow_step (input ++ rest) st = inr r2 /\ r = r2
  end.
Proof.
  destruct st as [[i pos] c]. simpl fst. simpl snd. intros Hp. unfold slow_step.
  pose proof (read_bulk_app input rest pos Hp) as H.
  destruct (read_bulk input pos) as [[v p]|e] eqn:E; simpl in H.
  - rewrite H. apply read_bulk_bound in E. eexists. split_and!; [done|done|simpl; lia].
  - destruct H as [H| ->]; [by left|right; eauto].
Qed.

Lemma slow_app input rest c :
  input <> [] ->
  match (parse_command_slow input c).1 with
  | Ok _ => parse_command_slow (input ++ rest) c = parse_command_slow input c
  | Unexpected e => is_incomplete_resp_error e = true \/
                    parse_command_slow (input ++ rest) c = parse_command_slow input c
  end.
Proof.
  intros Hne. unfold parse_command_slow.
  rewrite (bool_decide_eq_false_2 _ Hne).
  rewrite (bool_decide_eq_false_2 (input ++ rest = [])) by (by destruct input).
  assert (0 < length input)%nat by (destruct input; [done|simpl; lia]).
  rewrite lookup_app_l by done. destruct (negb _); [by right|].
  pose proof (readline_app input rest 1 ltac:(lia)) as Hl.
  destruct (readline input 1) as [[line pos]|e] eqn:El; simpl in Hl.
  2: { destruct Hl as [?| ->]; [by left|by right]. }
  rewrite Hl. apply readline_bound in El.
  destruct (parse_number _ _) as [argc|]; [|by right]. destruct (argc =? 0); [by right|].
  pose proof (z_loop_follow
    (fun s1 s2 : Z * nat * Command => s1 = s2 /\ (s1.1.2 <= length input)%nat)
    eq (fun r : ErrorCode * Command => is_incomplete_resp_error r.1 = true)
    (slow_step input) (slow_step (input ++ rest)) argc
    (0, pos, reset_command c) (0, pos, reset_command c)) as Hf.
  destruct (z_loop (slow_step input) _ _) as [[[i p] c']|[e c']].
  - destruct Hf as (s2 & -> & <- & _); [|split; [done|simpl; lia]|done].
    intros s1 ? [<- Hs]. by apply slow_step_app.
  - destruct Hf as [?|(r & -> & <-)]; [|split; [done|simpl; lia]|by left|by right].
    intros s1 ? [<- Hs]. by apply slow_step_app.
Qed.

(** A parsed command consumes at least one byte and no more than there are. *)
Lemma slow_consumed input c r c' :
  parse_command_slow input c = (Ok r, c') -> (0 < bytes_consumed c' <= length input)%nat.
Proof.
  unfold parse_command_slow. case_match; [done|]. case_match; [done|].
  destruct (readline input 1) as [[line pos]|e] eqn:El; [|done]. apply readline_bound in El.
  destruct (parse_number _ _) as [argc|] eqn:En; [|done].
  destruct (Z.eqb_spec argc 0); [done|].
  assert (0 <= argc).
  { unfold parse_number in En. destruct (from_chars_size line) eqn:E; simplify_eq.
    apply from_chars_size_inv in E. lia. }
  pose proof (z_loop_inv
    (fun _ (s : Z * nat * Command) => (0 < s.1.2 <= length input)%nat) (fun _ => True)
    (slow_step input) argc (0, pos, reset_command c)) as Hi.
  destruct (z_loop _ _ _) as [[[i p] d]|[e d]]; [|done]. intros [= _ <-]. simpl in *.
  apply Hi; [|done|lia]. intros k [[i' p'] d'] _ Hs. simpl in *.
  destruct (read_bulk input p') as [[v q]|] eqn:E; [|done]. apply read_bulk_bound in E.
  simpl. lia.
Qed.

(** ** Reading back what the client wrote *)

Fixpoint add_parts (index : Z) (parts : list bytes) (c : Command) : Command :=
  match parts with
  | [] => c
  | p :: ps => add_parts (index + 1) ps (add_part index p c)
  end.

Lemma add_parts_spec index parts c :
  1 <= index -> cmd_wf c ->
  cmd_name (add_parts index parts c) = cmd_name c /\
  arguments (add_parts index parts c) = arguments c ++ parts /\
  cmd_wf (add_parts index parts c).
Proof.
  revert index c; induction parts as [|p ps IH]; intros index c Hi Hc; simpl.
  - by rewrite app_nil_r.
  - destruct (IH (index + 1) (add_part index p c)) as (-> & -> & Hw);
      [lia|auto with reddish|].
    unfold add_part. destruct (Z.eqb_spec index 0); [lia|]. simpl.
    split_and!; [done| |].
    + unfold arguments. simpl. rewrite push_back_contents by done. by rewrite <- app_assoc.
    + unfold add_part in Hw. by destruct (Z.eqb_spec index 0); [lia|].
Qed.

Lemma to_string_len {A} (l : list A) : to_string (len l) = to_dec (len l).
Proof. unfold to_string. pose proof (len_nonneg l). by destruct (Z.ltb_spec (len l) 0); [lia|]. Qed.

Lemma readline_number input pos n rest code :
  0 <= n <= size_max -> drop pos input = to_dec n ++ crlf ++ rest ->
  exists line pos', readline input pos = Ok (line, pos') /\ parse_number line code = Ok n /\
    pos' = (pos + length (to_dec n) + 2)%nat /\ drop pos' input = rest.
Proof.
  intros Hn E. destruct (to_dec_spec n ltac:(lia)) as (Hd & _ & _).
  eexists _, _. split_and!; [by eapply readline_digits| |done|].
  - unfold parse_number. by rewrite from_chars_size_to_dec.
  - apply drop_split in E. by rewrite <- drop_drop, E.
Qed.

Lemma read_bulk_encode input pos part rest :
  len part <= size_max -> drop pos input = encode_bulk part ++ rest ->
  read_bulk input pos = Ok (part, (pos + length (encode_bulk part))%nat) /\
  drop (pos + length (encode_bulk part)) input = rest.
Proof.
  intros Hs E. split; [|by apply drop_split in E].
  unfold encode_bulk in E. rewrite to_string_len in E. cbn [app] in E.
  apply drop_cons_inv in E as (H0 & E & Hlt). unfold read_bulk.
  destruct (Nat.leb_spec (length input) pos); [lia|].
  rewrite (bool_decide_eq_true_2 _ H0). simpl negb. cbn iota.
  rewrite <- !app_assoc in E.
  destruct (readline_number _ _ _ _ invalid_bulk_string_length
              (conj (len_nonneg part) Hs) E) as (line & p & -> & Hn & Hp & Ed).
  cbn [result_bind]. rewrite Hn. cbn [result_bind].
  assert (length input - p = length part + 2 + length rest)%nat as Hlen.
  { rewrite <- length_drop, Ed, !length_app. simpl. lia. }
  unfold len in *. rewrite Nat2Z.id.
  destruct (Nat.ltb_spec (length input) p); [lia|].
  destruct (Nat.ltb_spec (length input - p) 2); [lia|].
  destruct (Z.ltb_spec (Z.of_nat (length input - p - 2)) (Z.of_nat (length part))); [lia|].
  simpl orb. cbn iota.
  destruct (Nat.ltb_spec (length input - (p + length part)) 2); [lia|].
  rewrite Ed, take_app_length, <- drop_drop, Ed, drop_app_length.
  rewrite bool_decide_eq_true_2 by done. simpl negb. cbn iota.
  f_equal. f_equal. unfold encode_bulk. rewrite to_string_len. unfold len.
  cbn [length]. rewrite !length_app. cbn [length crlf]. lia.
Qed.

Lemma slow_loop_encode input parts rest index pos c :
  Forall (fun p => len p <= size_max) parts ->
  drop pos input = concat (map encode_bulk parts) ++ rest ->
  z_loop (slow_step input) (len parts) (index, pos, c) =
  inl (index + len parts, (pos + length (concat (map encode_bulk parts)))%nat,
       add_parts index parts c).
Proof.
  revert index pos c; induction parts as [|p ps IH]; intros index pos c Hp E;
    cbn [map concat add_parts].
  - unfold len. simpl. by rewrite Z.add_0_r, Nat.add_0_r.
  - inversion Hp; subst. simpl in E. rewrite <- app_assoc in E.
    apply read_bulk_encode in E as [Hr E]; [|done].
    rewrite len_cons, (Z.add_comm 1), z_loop_succ by apply len_nonneg.
    unfold slow_step at 1. rewrite Hr. cbn [and_then].
    rewrite IH by done. rewrite length_app.
    replace (index + 1 + len ps) with (index + (len ps + 1)) by lia.
    by rewrite Nat.add_assoc.
Qed.

Lemma slow_encode name args rest c :
  len (name :: args) <= size_max -> Forall (fun p => len p <= size_max) (name :: args) ->
  cmd_wf c ->
  exists c', parse_command_slow (encode_request (name :: args) ++ rest) c = (Ok tt, c') /\
    cmd_name c' = name /\ arguments c' = args /\
    bytes_consumed c' = length (encode_request (name :: args)).
Proof.
  intros Hn Hp Hc. set (input := encode_request (name :: args) ++ rest).
  assert (exists pos, z_loop (slow_step input) (len (name :: args)) (0, pos, reset_command c) =
      inl (len (name :: args), length (encode_request (name :: args)),
           add_parts 0 (name :: args) (reset_command c)) /\
      exists line, readline input 1 = Ok (line, pos) /\
      parse_number line invalid_resp_array_length = Ok (len (name :: args)))
    as (pos & Hloop & line & Hl & Hnum).
  { destruct (readline_number input 1 (len (name :: args))
      (concat (map encode_bulk (name :: args)) ++ rest) invalid_resp_array_length)
      as (line & pos & Hl & Hnum & Hpos & Hd).
    - pose proof (len_nonneg (name :: args)). lia.
    - unfold input, encode_request. rewrite to_string_len.
      cbn [app drop]. by rewrite <- !app_assoc.
    - exists pos. split; [|eauto]. rewrite (slow_loop_encode _ _ _ _ _ _ Hp Hd).
      assert (pos + length (concat (map encode_bulk (name :: args))) =
              length (encode_request (name :: args)))%nat as ->; [|done].
      rewrite Hpos. unfold encode_request. rewrite to_string_len.
      cbn [length]. rewrite !length_app. cbn [length crlf]. lia. }
  unfold parse_command_slow. fold input.
  rewrite bool_decide_eq_false_2 by done.
  rewrite bool_decide_eq_true_2 by done. simpl negb. cbn iota.
  rewrite Hl, Hnum, Hloop. rewrite len_cons.
  pose proof (len_nonneg args). destruct (Z.eqb_spec (1 + len args) 0); [lia|].
  destruct (add_parts_spec 1 args (add_part 0 name (reset_command c)))
    as (E1 & E2 & _); [lia|auto with reddish|].
  eexists. split; [done|]. split_and!; [exact E1|exact E2|done].
Qed.

(** ** Classification is a case-insensitive comparison *)

(** The byte a tag stores for a character. *)
Definition fold8 (c : byte) : byte := z2b (Z.lor (b2z c) 32).

Definition lower (c : byte) : byte :=
  if (65 <=? b2z c) && (b2z c <=? 90) then z2b (b2z c + 32) else c.

Definition is_lower (c : byte) : bool := (97 <=? b2z c) && (b2z c <=? 122).

(** What the classifier should compute: the lower-cased name looked up in
    the table of commands. *)
Fixpoint assoc (table : list (bytes * CommandInfo)) (name : bytes) : CommandInfo :=
  match table with
  | [] => (id_unknown, true)
  | (w, info) :: t => if bool_decide (name = w) then info else assoc t name
  end.

Definition command_table : list (bytes * CommandInfo) :=
  prod_map of_str id <$>
  [("ping", (id_ping, false)); ("info", (id_info, false)); ("get", (id_get, false));
   ("set", (id_set, true)); ("incr", (id_increment, true));
   ("lpush", (id_list_push_left, true)); ("rpush", (id_list_push_right, true));
   ("lpop", (id_list_pop_left, true)); ("rpop", (id_list_pop_right, true));
   ("llen", (id_list_length, false)); ("hset", (id_hash_set, true));
   ("hget", (id_hash_get, false)); ("hdel", (id_hash_del, true));
   ("hlen", (id_hash_length, false)); ("expire", (id_expire, true));
   ("ttl", (id_ttl, false)); ("del", (id_del, true))]%string.

Definition classify_reference (name : bytes) : CommandInfo := assoc command_table (map lower name).

Lemma fold8_lower c : is_lower (fold8 c) = true \/ is_lower (lower c) = true -> fold8 c = lower c.
Proof. by destruct c; vm_compute; intros [|]. Qed.

Lemma b2z_fold8 c : b2z (fold8 c) = Z.lor (b2z c) 32.
Proof. by destruct c; vm_compute. Qed.

Lemma b2z_fold8_nz c : b2z (fold8 c) <> 0.
Proof. by destruct c; vm_compute. Qed.

Lemma fold8_nonzero l : Forall (fun b => b2z b <> 0) (map fold8 l).
Proof. induction l; simpl; constructor; [apply b2z_fold8_nz|done]. Qed.

(** A word of the table: short, and all lower-case letters. *)
Definition word (w : bytes) : Prop :=
  (length w <= 6)%nat /\ Forall (fun b => is_lower b = true) w.

#[global] Instance word_dec w : Decision (word w).
Proof. unfold word. apply and_dec; [apply _|apply Forall_dec; apply _]. Defined.

Lemma word_fold8 w name : word w -> map fold8 name = w <-> map lower name = w.
Proof.
  intros [_ Hw]. revert w Hw. induction name as [|c name IH]; intros w Hw; [done|].
  destruct w as [|b w]; [done|]. inversion Hw as [|?? Hb Hw']; subst. simpl.
  specialize (IH w Hw'). split; intros [= E1 E2].
  - rewrite <- (fold8_lower c) by (left; by rewrite E1). f_equal; [done|by apply IH].
  - rewrite (fold8_lower c) by (right; by rewrite E1). f_equal; [done|by apply IH].
Qed.

Lemma word_fixed w : word w -> map fold8 w = w.
Proof.
  intros Hw. apply word_fold8; [done|]. destruct Hw as [_ Hw].
  induction Hw as [|b w Hb _ IH]; [done|]. simpl. f_equal; [|done].
  revert Hb. by destruct b; vm_compute.
Qed.

Lemma word_nonzero w : word w -> Forall (fun b => b2z b <> 0) w.
Proof. intros Hw. rewrite <- (word_fixed w Hw). apply fold8_nonzero. Qed.

Lemma fold_tag_value index l tag :
  0 <= index -> index + len l <= 8 -> 0 <= tag < 256 ^ index ->
  fold_tag index l tag = tag + 256 ^ index * le_value (map fold8 l).
Proof.
  revert index tag; induction l as [|c l IH]; intros index tag Hi Hl Ht; cbn [fold_tag map le_value].
  - lia.
  - rewrite len_cons in Hl. pose proof (len_nonneg l). rewrite <- b2z_fold8.
    pose proof (b2z_range (fold8 c)) as Hc.
    assert (2 ^ (index * 8) = 256 ^ index) as Hp by (rewrite Z.mul_comm, Z.pow_mul_r by lia; done).
    assert (256 * 256 ^ index = 256 ^ (index + 1)) as Hs by (rewrite Z.pow_add_r by lia; lia).
    assert (256 ^ (index + 1) <= 256 ^ 8) by (apply Z.pow_le_mono_r; lia).
    rewrite u64_small.
    2: { rewrite Z.shiftl_mul_pow2, Hp by lia. change (2 ^ 64) with (256 ^ 8). nia. }
    rewrite lor_shiftl_add, Hp by (rewrite ?Hp; lia).
    rewrite IH by (try lia; nia). nia.
Qed.

Lemma fold_tag_take l :
  fold_tag 0 (take 8 l) 0 = le_value (map fold8 (take 8 l)).
Proof.
  rewrite fold_tag_value; [lia|lia| |lia].
  unfold len. pose proof (length_take_le l 8). rewrite length_take. lia.
Qed.

(** Below its size byte, a tag is the little-endian value of the folded name. *)
Lemma tag_low name :
  tag_of_general name mod 256 ^ 7 = le_value (map fold8 (take 7 name)).
Proof.
  unfold tag_of_general. rewrite fold_tag_take.
  change (256 ^ 7) with (2 ^ 56). rewrite lor_mod by lia.
  assert (u64 (Z.shiftl (Z.land (len name) 255) 56) mod 2 ^ 56 = 0) as ->.
  { unfold u64. rewrite Z.shiftl_mul_pow2 by lia.
    change (2 ^ 64) with (2 ^ 8 * 2 ^ 56). rewrite Z.mul_mod_distr_r by lia.
    apply Z.mod_mul. lia. }
  rewrite Z.lor_0_r. change (2 ^ 56) with (256 ^ Z.of_nat 7).
  rewrite le_value_take. f_equal. rewrite firstn_map.
  by rewrite take_take.
Qed.

(** The two memcpy shortcuts compute the general tag. *)
Lemma tag_of_eq le name : tag_of le name = tag_of_general name.
Proof.
  assert (forall c, 0 <= Z.lor (b2z c) 32 < 256) as Hc
    by (intros c; rewrite <- b2z_fold8; apply b2z_range).
  unfold tag_of. destruct le; [|done].
  destruct name as [|a [|b [|c [|d [|e name]]]]]; try done;
    unfold tag_of_general; cbn [take fold_tag];
    rewrite !u64_byte by (apply Hc || (vm_compute; done));
    rewrite !le_value_lor; simpl le_value;
    rewrite ?Z.shiftl_lor, ?Z.shiftl_shiftl, ?Z.shiftl_0_l, ?Z.shiftl_0_r, ?Z.lor_0_r by lia;
    change ((0 + 1) * 8) with 8; change ((0 + 1 + 1) * 8) with 16;
    try change ((0 + 1 + 1 + 1) * 8) with 24; change (0 * 8) with 0;
    change (8 + 8) with 16; try change (16 + 8) with 24; try change (8 + 16) with 24;
    rewrite ?Z.shiftl_0_r.
  - change 2105376 with (Z.lor 32 (Z.lor (Z.shiftl 32 8) (Z.shiftl 32 16))).
    change (Z.land (len [a; b; c]) 255) with 3. lor_ac.
  - change 538976288 with
      (Z.lor 32 (Z.lor (Z.shiftl 32 8) (Z.lor (Z.shiftl 32 16) (Z.shiftl 32 24)))).
    change (Z.land (len [a; b; c; d]) 255) with 4. lor_ac.
Qed.

Lemma tag_of_literal_eq w : word w -> tag_of_literal w = tag_of_general w.
Proof.
  intros [Hw _]. unfold tag_of_literal, tag_of_general. rewrite (take_ge w) by lia.
  f_equal. f_equal. f_equal. change 255 with (Z.ones 8).
  rewrite Z.land_ones, Z.mod_small by (unfold len; lia). done.
Qed.

Lemma tag_of_general_fold name w :
  map fold8 name = map fold8 w -> tag_of_general name = tag_of_general w.
Proof.
  intros E. unfold tag_of_general. rewrite !fold_tag_take, <- !firstn_map, E.
  apply (f_equal length) in E. rewrite !length_map in E. unfold len. by rewrite E.
Qed.

Lemma word_short w name : word w -> map fold8 (take 7 name) = w -> map fold8 name = w.
Proof.
  intros [Hw _] E. rewrite take_ge in E; [done|].
  apply (f_equal length) in E. rewrite length_map, length_take in E. lia.
Qed.

(** Comparing tags is comparing lower-cased names. *)
Lemma tag_test le name w :
  word w -> (tag_of le name =? tag_of_literal w) = bool_decide (map lower name = w).
Proof.
  intros Hw. rewrite tag_of_eq, tag_of_literal_eq by done.
  case_bool_decide as E.
  - apply Z.eqb_eq. apply tag_of_general_fold.
    rewrite (word_fixed w Hw). by apply word_fold8.
  - apply Z.eqb_neq. intros Ht. apply E. apply word_fold8; [done|].
    apply word_short; [done|].
    apply le_value_inj_nonzero; [apply fold8_nonzero|by apply word_nonzero|].
    rewrite <- tag_low, Ht, tag_low. f_equal.
    rewrite take_ge by (destruct Hw; lia). by apply word_fixed.
Qed.

(** The 24-bit key of a three-letter name. *)
Lemma folded_test a b c w :
  word w -> length w = 3%nat ->
  (Z.lor (Z.lor (Z.lor (b2z a) 32) (Z.shiftl (Z.lor (b2z b) 32) 8))
         (Z.shiftl (Z.lor (b2z c) 32) 16) =? le_value w)
  = bool_decide (map lower [a; b; c] = w).
Proof.
  intros Hw Hl. rewrite <- !b2z_fold8.
  replace (Z.lor _ _) with (le_value (map fold8 [a; b; c])).
  2: { cbn [map]. rewrite !le_value_lor. simpl le_value.
       rewrite ?Z.shiftl_lor, ?Z.shiftl_shiftl, ?Z.shiftl_0_l, ?Z.lor_0_r by lia.
       change (8 + 8) with 16. lor_ac. }
  case_bool_decide as E.
  - apply Z.eqb_eq. f_equal. by apply word_fold8.
  - apply Z.eqb_neq. intros Ht. apply E. apply word_fold8; [done|].
    apply le_value_inj_nonzero; [apply fold8_nonzero|by apply word_nonzero|done].
Qed.

(** A closed command word. *)
Ltac word := apply (bool_decide_unpack _); vm_compute; exact I.

Lemma classify_eq le name : classify_command le name = classify_reference name.
Proof.
  unfold classify_command.
  assert (classify_reference name =
    (let tag := tag_of le name in
      if tag =? literal_tag "ping" then (id_ping, false)
      else if tag =? literal_tag "info" then (id_info, false)
      else if tag =? literal_tag "get" then (id_get, false)
      else if tag =? literal_tag "set" then (id_set, true)
      else if tag =? literal_tag "incr" then (id_increment, true)
      else if tag =? literal_tag "lpush" then (id_list_push_left, true)
      else if tag =? literal_tag "rpush" then (id_list_push_right, true)
      else if tag =? literal_tag "lpop" then (id_list_pop_left, true)
      else if tag =? literal_tag "rpop" then (id_list_pop_right, true)
      else if tag =? literal_tag "llen" then (id_list_length, false)
      else if tag =? literal_tag "hset" then (id_hash_set, true)
      else if tag =? literal_tag "hget" then (id_hash_get, false)
      else if tag =? literal_tag "hdel" then (id_hash_del, true)
      else if tag =? literal_tag "hlen" then (id_hash_length, false)
      else if tag =? literal_tag "expire" then (id_expire, true)
      else if tag =? literal_tag "ttl" then (id_ttl, false)
      else if tag =? literal_tag "del" then (id_del, true)
      else (id_unknown, true))) as E.
  { unfold literal_tag. cbv zeta. rewrite !tag_test by word. reflexivity. }
  destruct name as [|a [|b [|c [|d name]]]]; try (by rewrite E). clear E.
  unfold classify_reference, command_table. cbn [fmap list_fmap prod_map fst snd id assoc].
  assert (forall w, length w <> 3%nat -> bool_decide (map lower [a; b; c] = w) = false) as Hne.
  { intros w Hw. apply bool_decide_eq_false. intros E. apply Hw. by rewrite <- E. }
  change (u32 (literal_tag "get")) with (le_value (of_str "get")).
  change (u32 (literal_tag "set")) with (le_value (of_str "set")).
  change (u32 (literal_tag "del")) with (le_value (of_str "del")).
  change (u32 (literal_tag "ttl")) with (le_value (of_str "ttl")).
  rewrite !folded_test by (word || done).
  repeat match goal with
  | |- context [bool_decide (map lower [a; b; c] = ?w)] =>
      rewrite (Hne w) by (vm_compute; discriminate)
  end.
  repeat case_bool_decide; try reflexivity; try congruence;
    match goal with H1 : map lower ?x = _, H2 : map lower ?x = _ |- _ =>
      rewrite H1 in H2; vm_compute in H2; discriminate H2 end.
Qed.

(** ** Properties *)

Lemma into_result input c :
  cmd_wf c -> (parse_command_into input c).1 = (parse_command_slow input c).1 /\
  (parse_command_into input c).2 ≡ (parse_command_slow input c).2.
Proof. apply fast_equals_slow. Qed.

Lemma into_app input rest c :
  input <> [] -> cmd_wf c ->
  match (parse_command_into input c).1 with
  | Ok _ => same_outcome (parse_command_into (input ++ rest) c) (parse_command_into input c)
  | Unexpected e => is_incomplete_resp_error e = true \/
      same_outcome (parse_command_into (input ++ rest) c) (parse_command_into input c)
  end.
Proof.
  intros Hne Hc. pose proof (fast_equals_slow input c Hc) as [E1 E2].
  pose proof (fast_equals_slow (input ++ rest) c Hc) as [F1 F2].
  pose proof (slow_app input rest c Hne) as Hs. rewrite E1.
  destruct (parse_command_slow input c).1 eqn:E; [|destruct Hs as [?|Hs]; [by left|right]];
    rewrite Hs in F1, F2; (split; [congruence|]); etrans; done.
Qed.

Lemma into_encode name args rest c :
  len (name :: args) <= size_max -> Forall (fun p => len p <= size_max) (name :: args) ->
  cmd_wf c ->
  exists c', parse_command_into (encode_request (name :: args) ++ rest) c = (Ok tt, c') /\
    cmd_name c' = name /\ arguments c' = args /\
    bytes_consumed c' = length (encode_request (name :: args)).
Proof.
  intros Hn Hp Hc. destruct (slow_encode name args rest c Hn Hp Hc) as (c' & E & H1 & H2 & H3).
  pose proof (fast_equals_slow (encode_request (name :: args) ++ rest) c Hc) as [E1 E2].
  rewrite E in E1, E2. destruct (parse_command_into _ c) as [r d]. simpl in *. subst r.
  destruct E2 as (?&?&?&_). exists d. split_and!; [done|congruence..].
Qed.

Lemma into_consumed input c r c' :
  cmd_wf c -> parse_command_into input c = (Ok r, c') ->
  (0 < bytes_consumed c' <= length input)%nat.
Proof.
  intros Hc E. pose proof (fast_equals_slow input c Hc) as [E1 E2]. rewrite E in E1, E2.
  destruct (parse_command_slow input c) as [r' d] eqn:Es. simpl in *. subst r'.
  destruct E2 as (_&_&->&_). by eapply slow_consumed.
Qed.

(** C5: the pointer-based fast path and the general RESP parser agree on
    every input: same success or error code, same command name, arguments
    and byte count (whatever the reused [Command] object held before). *)
Theorem parse_fast_path_equivalent (input : bytes) (c : Command) :
  cmd_wf c -> same_outcome (parse_command_into input c) (parse_command_slow input c).
Proof. apply fast_equals_slow. Qed.

Lemma parse_fast_path_equivalent_witness :
  cmd_wf empty_command /\
  same_outcome (parse_command_into (encode_request [of_str "GET"; of_str "k"]) empty_command)
               (parse_command_slow (encode_request [of_str "GET"; of_str "k"]) empty_command).
Proof. split; [apply empty_wf|]. apply parse_fast_path_equivalent. apply empty_wf. Defined.

(** C14: a request written by the client is parsed back to the same command
    name and arguments, consuming exactly its own bytes whatever follows it
    in the buffer. *)
Theorem parse_request_roundtrip (name : bytes) (args : list bytes) (rest : bytes) (c : Command) :
  len (name :: args) <= size_max -> Forall (fun p => len p <= size_max) (name :: args) ->
  cmd_wf c ->
  exists c', parse_command_into (encode_request (name :: args) ++ rest) c = (Ok tt, c') /\
    cmd_name c' = name /\ arguments c' = args /\
    bytes_consumed c' = length (encode_request (name :: args)).
Proof. apply into_encode. Qed.

Lemma parse_request_roundtrip_witness :
  exists c', parse_command_into (encode_request [of_str "DEL"; of_str "a"; []] ++ of_str "*1") empty_command
               = (Ok tt, c') /\
    cmd_name c' = of_str "DEL" /\ arguments c' = [of_str "a"; []] /\
    bytes_consumed c' = length (encode_request [of_str "DEL"; of_str "a"; []]).
Proof.
  apply parse_request_roundtrip; [vm_compute; discriminate| |apply empty_wf].
  repeat constructor; vm_compute; discriminate.
Defined.

(** C30: while a request is still arriving, every non-empty proper prefix of
    it is reported with one of the "incomplete" errors, never as a protocol
    error and never as a complete command. *)
Theorem parse_prefix_incomplete (name : bytes) (args : list bytes) (p rest : bytes) (c : Command) :
  len (name :: args) <= size_max -> Forall (fun p => len p <= size_max) (name :: args) ->
  cmd_wf c -> encode_request (name :: args) = p ++ rest -> p <> [] -> rest <> [] ->
  exists e, (parse_command_into p c).1 = Unexpected e /\ is_incomplete_resp_error e = true.
Proof.
  intros Hn Hs Hc E Hp Hr. pose proof (into_app p rest c Hp Hc) as Ha. rewrite <- E in Ha.
  destruct (into_encode name args [] c Hn Hs Hc) as (c' & E' & _ & _ & Hlen).
  rewrite app_nil_r in E'. rewrite E' in Ha.
  destruct (parse_command_into p c) as [[r|e] d] eqn:Ep; simpl in Ha.
  - apply into_consumed in Ep as Hb; [|done]. destruct Ha as [_ (_ & _ & Hl & _)]. simpl in Hl.
    rewrite Hlen, E, length_app in Hl. destruct rest; [done|]. simpl in Hl. lia.
  - destruct Ha as [He|[Ha _]]; [eauto|done].
Qed.

Lemma parse_prefix_incomplete_witness :
  exists e, (parse_command_into (take 9 (encode_request [of_str "PING"])) empty_command).1 = Unexpected e /\
    is_incomplete_resp_error e = true.
Proof.
  apply (parse_prefix_incomplete (of_str "PING") [] _ (drop 9 (encode_request [of_str "PING"])));
    [vm_compute; discriminate|repeat constructor; vm_compute; discriminate|apply empty_wf
    |symmetry; apply take_drop|vm_compute; discriminate|vm_compute; discriminate].
Defined.

(** An answer of the parser that is not "incomplete" is final: more
    bytes after the input change neither the result nor the command. *)
Theorem parse_answer_final (input rest : bytes) (c : Command) :
  input <> [] -> cmd_wf c ->
  (forall e, (parse_command_into input c).1 = Unexpected e -> is_incomplete_resp_error e = false) ->
  same_outcome (parse_command_into (input ++ rest) c) (parse_command_into input c).
Proof.
  intros Hne Hc Hd. pose proof (into_app input rest c Hne Hc) as Ha.
  destruct (parse_command_into input c).1 as [|e]; [done|].
  destruct Ha as [He|Ha]; [|done]. rewrite (Hd e eq_refl) in He. done.
Qed.

Lemma parse_answer_final_witness :
  same_outcome (parse_command_into (of_str "+OK" ++ of_str "more") empty_command)
               (parse_command_into (of_str "+OK") empty_command).
Proof.
  apply parse_answer_final; [vm_compute; discriminate|apply empty_wf|].
  intros e H. vm_compute in H. injection H as <-. reflexivity.
Defined.

(** C31: the tag-based classifier, on either byte order, is the lookup of
    the lower-cased name in the command table, for names of every length. *)
Theorem classify_command_correct (little_endian : bool) (name : bytes) :
  classify_command little_endian name = classify_reference name.
Proof. apply classify_eq. Qed.
