(* ===== verification/Stream.v ===== *)
(** * Stream: the requests in a stream of bytes

    A client sends its requests one after the other; the server reads them
    in whatever pieces they arrive, parses as many as are complete, each into
    a command that held an earlier request, and keeps the rest for the next
    read.  [decodes] says which requests a stream begins with.  The requests
    that are found do not depend on the pieces. *)

From S2P Require Import Prelude Charconv Errors Effects RespParse.

(** ** Parsing into a used command *)

(** The same request, whatever else the commands hold. *)
Definition same_request (c1 c2 : Command) : Prop :=
  cmd_name c1 = cmd_name c2 /\ arguments c1 = arguments c2 /\ bytes_consumed c1 = bytes_consumed c2 /\ cmd_wf c1 /\ cmd_wf c2.

Lemma same_request_equiv c1 c2 : c1 ≡ c2 -> same_request c1 c2.
Proof. intros (? & ? & ? & _ & ? & ?). by split_and!. Qed.

Lemma same_request_trans c1 c2 c3 : same_request c1 c2 -> same_request c2 c3 -> same_request c1 c3.
Proof. intros (? & ? & ? & ? & ?) (? & ? & ? & ? & ?). split_and!; congruence || done. Qed.

Lemma add_part_same i v c1 c2 : same_request c1 c2 -> same_request (add_part i v c1) (add_part i v c2).
Proof.
  intros (E1 & E2 & E3 & H1 & H2). unfold same_request. split_and!; [| | |by apply add_part_wf..]; unfold add_part; destruct (i =? 0); try done.
  unfold arguments in *. cbn [cmd_arguments]. rewrite !ArgumentListFacts.push_back_contents by done. by rewrite E2.
Qed.

(** The general parser, for two commands. *)
Lemma slow_same_request input c1 c2 : cmd_wf c1 -> cmd_wf c2 ->
  (parse_command_slow input c1).1 = (parse_command_slow input c2).1 /\
  same_request (parse_command_slow input c1).2 (parse_command_slow input c2).2.
Proof.
  intros H1 H2. assert (same_request (reset_command c1) (reset_command c2)) as Hr by (split_and!; try done; by apply reset_wf).
  unfold parse_command_slow. case_match; [done|]. case_match; [done|].
  destruct (readline input 1) as [[line pos]|]; [|done]. destruct (parse_number _ _) as [argc|]; [|done]. case_match; [done|].
  assert (sum_rel
    (fun s1 s2 : Z * nat * Command => s1.1 = s2.1 /\ same_request s1.2 s2.2)
    (fun r1 r2 : ErrorCode * Command => r1.1 = r2.1 /\ same_request r1.2 r2.2)
    (z_loop (slow_step input) argc (0, pos, reset_command c1))
    (z_loop (slow_step input) argc (0, pos, reset_command c2))) as Hl.
  { apply z_loop_sim; [|done]. intros [[i p] d] [[i' p'] d'] [[= -> ->] He]. cbn [snd] in He. unfold slow_step.
    destruct (read_bulk input p') as [[v q]|]; cbn; (split; [done|]); [by apply add_part_same|done]. }
  destruct (z_loop _ argc (_, reset_command c1)) as [[[i1 p1] d1]|[e1 d1]],
           (z_loop _ argc (_, reset_command c2)) as [[[i2 p2] d2]|[e2 d2]]; try done; destruct Hl as [E Hd]; cbn in *.
  - injection E as -> ->. split; [done|]. destruct Hd as (? & ? & _ & ? & ?). by split_and!.
  - subst e2. by split.
Qed.

(** What [parse_command_into] leaves in a used command is what a fresh one
    gets. *)
Lemma into_fresh input c : cmd_wf c ->
  (parse_command_into input c).1 = (parse_command_into input empty_command).1 /\
  same_request (parse_command_into input c).2 (parse_command_into input empty_command).2.
Proof.
  intros Hc. destruct (fast_equals_slow input c Hc) as [E1 Q1].
  destruct (fast_equals_slow input empty_command ArgumentListFacts.empty_wf) as [E2 Q2].
  destruct (slow_same_request input c empty_command Hc ArgumentListFacts.empty_wf) as [E3 Q3]. split; [congruence|].
  eapply same_request_trans; [apply same_request_equiv, Q1|]. eapply same_request_trans; [exact Q3|]. apply same_request_equiv.
  by symmetry.
Qed.

Lemma into_command input c : cmd_wf c ->
  cmd_wf (parse_command_into input c).2 /\
  match parse_command_into input c with
  | (Ok _, c') => exists c0, parse_command input = Ok c0 /\ same_request c' c0
  | (Unexpected e, _) => parse_command input = Unexpected e
  end.
Proof.
  intros Hc. destruct (into_fresh input c Hc) as [E Q]. split; [apply Q|]. unfold parse_command.
  destruct (parse_command_into input c) as [[u|e] c'], (parse_command_into input empty_command) as [[u0|e0] c0]; cbn in *; try discriminate.
  - by exists c0.
  - congruence.
Qed.

(** A request consumes at least one byte and at most all, and its parts are no
    longer than the input. *)
Definition short_parts (n : nat) (c : Command) : Prop :=
  (length (cmd_name c) <= n)%nat /\ Forall (fun p => (length p <= n)%nat) (arguments c).

Lemma add_part_short n i v c : cmd_wf c -> (length v <= n)%nat -> short_parts n c -> short_parts n (add_part i v c).
Proof.
  intros Hc Hv [H1 H2]. unfold add_part. destruct (i =? 0); [by split|]. split; [done|]. unfold arguments in *. cbn [cmd_arguments].
  rewrite ArgumentListFacts.push_back_contents by done. apply Forall_app. split; [done|]. by apply Forall_singleton.
Qed.

Lemma read_bulk_short input pos v q : read_bulk input pos = Ok (v, q) -> (length v <= length input)%nat.
Proof.
  unfold read_bulk. destruct (_ <=? _)%nat; [done|]. destruct (negb _); [done|]. destruct (readline _ _) as [[line p]|]; [|done].
  cbn [result_bind]. destruct (parse_number _ _) as [n|]; [|done]. cbn [result_bind]. destruct (_ || _); [done|].
  destruct (_ <? _)%nat; [done|]. destruct (negb _); [done|]. intros [= <- <-]. rewrite length_take, length_drop. lia.
Qed.

Lemma slow_short input c r c' : cmd_wf c -> parse_command_slow input c = (Ok r, c') -> short_parts (length input) c'.
Proof.
  intros Hc. unfold parse_command_slow. case_match; [done|]. case_match; [done|].
  destruct (readline input 1) as [[line pos]|]; [|done]. destruct (parse_number _ _) as [argc|] eqn:En; [|done].
  destruct (Z.eqb_spec argc 0); [done|].
  assert (0 <= argc).
  { unfold parse_number in En. destruct (from_chars_size line) eqn:E; simplify_eq. apply from_chars_size_inv in E. lia. }
  pose proof (z_loop_inv (fun _ (s : Z * nat * Command) => cmd_wf s.2 /\ short_parts (length input) s.2) (fun _ => True)
    (slow_step input) argc (0, pos, reset_command c)) as Hi.
  destruct (z_loop _ _ _) as [[[i p] d]|[e d]]; [|done]. intros [= _ <-]. cbn [snd] in Hi. apply Hi; [|done|split; [by apply reset_wf|split; [cbn; lia|apply Forall_nil_2]]].
  intros k [[i' p'] d'] _ [Hw Hs]. cbn [snd] in Hw, Hs. unfold slow_step.
  destruct (read_bulk input p') as [[v q]|] eqn:E; [|done]. cbn [snd]. split; [by apply add_part_wf|].
  apply add_part_short; [done| |done]. by eapply read_bulk_short.
Qed.

Lemma parse_command_bounds input c :
  parse_command input = Ok c -> (0 < bytes_consumed c <= length input)%nat /\ short_parts (length input) c /\ cmd_wf c.
Proof.
  unfold parse_command. destruct (fast_equals_slow input empty_command ArgumentListFacts.empty_wf) as [E1 Q].
  destruct (parse_command_into input empty_command) as [[u|e] c'] eqn:E; [|done]. intros [= <-]. cbn in E1, Q.
  destruct (parse_command_slow input empty_command) as [[u'|e'] c''] eqn:Es; [|done]. cbn in Q.
  destruct Q as (En & Ea & Ec & _ & Hw & _). rewrite Ec. split; [by eapply slow_consumed|]. split; [|exact Hw].
  unfold short_parts. rewrite En, Ea. exact (slow_short _ empty_command _ _ ArgumentListFacts.empty_wf Es).
Qed.

(** ** What a stream begins with *)

(** A request: its name and its arguments. *)
Definition Request : Type := bytes * list bytes.
Definition request_of (c : Command) : Request := (cmd_name c, arguments c).

Inductive decodes : bytes -> list Request -> bytes -> Prop :=
| decodes_nil input : decodes input [] input
| decodes_cons input c requests rest :
    parse_command input = Ok c -> decodes (drop (bytes_consumed c) input) requests rest ->
    decodes input (request_of c :: requests) rest.

(** Nothing can be decided about what is left yet. *)
Definition undecided (input : bytes) : Prop :=
  input = [] \/ exists e, parse_command input = Unexpected e /\ is_incomplete_resp_error e = true.

Lemma decodes_suffix input requests rest : decodes input requests rest -> exists used, input = used ++ rest.
Proof.
  induction 1 as [input|input c requests rest _ _ [used E]]; [by exists []|]. exists (take (bytes_consumed c) input ++ used).
  by rewrite <- app_assoc, <- E, take_drop.
Qed.

Lemma decodes_trans a requests1 b requests2 c :
  decodes a requests1 b -> decodes b requests2 c -> decodes a (requests1 ++ requests2) c.
Proof. induction 1; intros; [done|]. cbn. econstructor; eauto. Qed.

(** More input changes nothing. *)
Lemma parse_command_app input more c : parse_command input = Ok c ->
  exists c', parse_command (input ++ more) = Ok c' /\ request_of c' = request_of c /\ bytes_consumed c' = bytes_consumed c.
Proof.
  intros E. assert (input <> []) as Hne by (intros ->; by vm_compute in E).
  pose proof (into_app input more empty_command Hne ArgumentListFacts.empty_wf) as Ha. unfold parse_command in *.
  destruct (parse_command_into input empty_command) as [[u|e] c0]; [|done]. injection E as ->. cbn in Ha. destruct Ha as [E1 Q].
  destruct (parse_command_into (input ++ more) empty_command) as [[u'|e'] c']; [|done]. cbn in Q. exists c'. split; [done|].
  destruct Q as (En & Ea & Ec & _). unfold request_of. by rewrite En, Ea, Ec.
Qed.

Lemma decodes_app input requests rest more : decodes input requests rest -> decodes (input ++ more) requests (rest ++ more).
Proof.
  induction 1 as [input|input c requests rest Ep _ IH]; [constructor|].
  destruct (parse_command_app input more c Ep) as (c' & Ep' & Er & Ec). rewrite <- Er. econstructor; [exact Ep'|].
  destruct (parse_command_bounds _ _ Ep) as [Hb _]. rewrite Ec, drop_app_le by lia. exact IH.
Qed.

(** The requests of a stream are determined; one that has been read as far as
    it goes cannot be read further. *)
Lemma decodes_prefix input requests1 rest1 requests2 rest2 :
  decodes input requests1 rest1 -> decodes input requests2 rest2 -> undecided rest2 ->
  exists more, requests2 = requests1 ++ more /\ decodes rest1 more rest2.
Proof.
  intros H1. revert requests2 rest2. induction H1 as [input|input c requests rest Ep H1 IH]; intros requests2 rest2 H2 Hu; [by exists requests2|].
  destruct H2 as [input|input c2 requests2 rest2 Ep2 H2].
  - destruct Hu as [->|(e & Ee & _)]; [by vm_compute in Ep|congruence].
  - assert (c2 = c) as -> by congruence. destruct (IH _ _ H2 Hu) as (more & -> & Hm). by exists more.
Qed.

Lemma decodes_unique input requests1 rest1 requests2 rest2 :
  decodes input requests1 rest1 -> decodes input requests2 rest2 -> undecided rest1 -> undecided rest2 ->
  requests1 = requests2 /\ rest1 = rest2.
Proof.
  intros H1 H2 Hu1 Hu2. destruct (decodes_prefix _ _ _ _ _ H1 H2 Hu2) as (more & -> & Hm).
  destruct Hm as [input'|input' c more' rest' Ep _]; [by rewrite app_nil_r|].
  destruct Hu1 as [->|(e & Ee & _)]; [by vm_compute in Ep|congruence].
Qed.

(** What a client wrote is what is read. *)
Lemma decodes_encoded (requests : list Request) rest :
  Forall (fun r => len (r.1 :: r.2) <= size_max /\ Forall (fun p => len p <= size_max) (r.1 :: r.2)) requests ->
  decodes (concat (map (fun r => encode_request (r.1 :: r.2)) requests) ++ rest) requests rest.
Proof.
  induction 1 as [|[name args] requests [Hn Hp] _ IH]; [constructor|]. cbn [map concat fst snd] in *. rewrite <- app_assoc.
  destruct (into_encode name args (concat (map (fun r => encode_request (r.1 :: r.2)) requests) ++ rest) empty_command Hn Hp
    ArgumentListFacts.empty_wf) as (c & E & En & Ea & Ec).
  replace (name, args) with (request_of c) by (unfold request_of; by rewrite En, Ea). econstructor.
  - unfold parse_command. by rewrite E.
  - by rewrite Ec, drop_app_length.
Qed.

(** ** In pieces *)

(** Pieces arrive one by one; after each, some of the requests that are
    complete are taken. *)
Inductive arrives : bytes -> list bytes -> list Request -> bytes -> Prop :=
| arrives_nil unread : arrives unread [] [] unread
| arrives_cons unread piece pieces requests1 unread1 requests2 unread2 :
    decodes (unread ++ piece) requests1 unread1 -> arrives unread1 pieces requests2 unread2 ->
    arrives unread (piece :: pieces) (requests1 ++ requests2) unread2.

Lemma arrives_decodes unread pieces requests rest :
  arrives unread pieces requests rest -> decodes (unread ++ concat pieces) requests rest.
Proof.
  induction 1 as [unread|unread piece pieces requests1 unread1 requests2 unread2 H1 _ IH]; [rewrite app_nil_r; constructor|].
  cbn [concat]. rewrite app_assoc. eapply decodes_trans; [by apply decodes_app|exact IH].
Qed.

(** ** Results *)

(** C15: fragmentation does not matter.  However the bytes of a client are cut into
    pieces, and however many of the complete requests are taken after each
    piece, once no complete request is left the same requests were found, with
    the same bytes left over. *)
Theorem fragmentation_irrelevant pieces pieces' requests requests' rest rest' :
  concat pieces = concat pieces' -> arrives [] pieces requests rest -> arrives [] pieces' requests' rest' ->
  undecided rest -> undecided rest' -> requests = requests' /\ rest = rest'.
Proof.
  intros E H1 H2 Hu1 Hu2. apply arrives_decodes in H1, H2. cbn [app] in H1, H2. rewrite E in H1. by eapply decodes_unique.
Qed.

Lemma fragmentation_irrelevant_witness : exists requests,
  arrives [] [of_str "*1" ++ crlf ++ of_str "$4" ++ crlf ++ of_str "PI"; of_str "NG" ++ crlf] requests [] /\ requests = [(of_str "PING", [])].
Proof.
  assert (arrives [] [of_str "*1" ++ crlf ++ of_str "$4" ++ crlf ++ of_str "PI"; of_str "NG" ++ crlf] ([] ++ [(of_str "PING", [])] ++ []) []) as H1.
  { econstructor; [constructor|]. econstructor; [|constructor]. eapply (decodes_cons _ (match parse_command
      ((([] ++ of_str "*1" ++ crlf ++ of_str "$4" ++ crlf ++ of_str "PI")) ++ of_str "NG" ++ crlf) with Ok c => c | Unexpected _ => empty_command end));
      [vm_compute; reflexivity|constructor]. }
  assert (arrives [] [encode_request [of_str "PING"]] ([(of_str "PING", [])] ++ []) []) as H2.
  { econstructor; [|constructor]. apply (decodes_encoded [(of_str "PING", [])] []). repeat constructor; vm_compute; discriminate. }
  assert (concat [of_str "*1" ++ crlf ++ of_str "$4" ++ crlf ++ of_str "PI"; of_str "NG" ++ crlf] = concat [encode_request [of_str "PING"]]) as Ec
    by (vm_compute; reflexivity).
  destruct (fragmentation_irrelevant _ _ _ _ _ _ Ec H1 H2 (or_introl eq_refl) (or_introl eq_refl)) as [E _].
  eexists. split; [exact H1|exact E].
Defined.
