(* ===== verification/Replies.v ===== *)
(** * Replies: what the server writes back

    The reply writers of [resp.cpp] append to the output buffer of a client.
    Each writes one whole RESP reply, or throws and writes nothing, and none
    but PONG lets the buffer grow beyond its limit. *)

From S2P Require Import Prelude Charconv Errors Effects.

(** ** The program *)

Definition max_reply_bytes : Z := 1024 * 1024.

Definition too_large : exn := exn_error request_too_large.

Definition require_reply_space (n : Z) : M bytes unit :=
  let! output := get in
  if (max_reply_bytes <? n) || (max_reply_bytes - n <? len output) then throw too_large else ret tt.

Definition put_text (text : bytes) : M bytes unit := modify (fun output => output ++ text).

(** [std::to_chars] into a buffer of 24 characters. *)
Definition append_decimal (value : Z) : M bytes unit := put_text (to_string value).

Definition append_simple_string (text : bytes) : M bytes unit :=
  do! require_reply_space (len text + 3) in
  do! put_text (of_str "+") in
  do! put_text text in
  put_text crlf.

Definition append_error (text : bytes) : M bytes unit :=
  do! require_reply_space (len text + 3) in
  do! put_text (of_str "-") in
  do! put_text text in
  put_text crlf.

Definition append_integer (value : Z) : M bytes unit :=
  do! require_reply_space 24 in
  do! put_text (of_str ":") in
  do! append_decimal value in
  put_text crlf.

Definition append_wrong_arguments (name : bytes) : M bytes unit :=
  append_error (error_message wrong_argument_count ++ of_str " '" ++ name ++ of_str "' command").

Definition append_bulk_view (text : bytes) : M bytes unit :=
  if max_reply_bytes - 32 <? len text then throw too_large else
  do! require_reply_space (len text + 32) in
  let header := of_str "$" ++ to_string (len text) ++ crlf in
  modify (fun output => output ++ header ++ text ++ crlf).

(** [aliased]: the text lies in the output buffer itself, and is copied out
    before the buffer changes. *)
Definition append_bulk_string (aliased : bool) (text : bytes) : M bytes unit :=
  if aliased then let saved := text in append_bulk_view saved else append_bulk_view text.

Definition append_null : M bytes unit :=
  do! require_reply_space 5 in
  put_text (of_str "$-1" ++ crlf).

Definition append_array_header (count : Z) : M bytes unit :=
  do! require_reply_space 24 in
  do! put_text (of_str "*") in
  do! append_decimal count in
  put_text crlf.

(** ** What a reply is *)

Inductive reply :=
| RSimple (text : bytes)
| RError (text : bytes)
| RInteger (n : Z)
| RBulk (text : bytes)
| RNull.

Definition encode_reply (r : reply) : bytes :=
  match r with
  | RSimple text => of_str "+" ++ text ++ crlf
  | RError text => of_str "-" ++ text ++ crlf
  | RInteger n => of_str ":" ++ to_string n ++ crlf
  | RBulk text => of_str "$" ++ to_string (len text) ++ crlf ++ text ++ crlf
  | RNull => of_str "$-1" ++ crlf
  end.

(** A line ends at its first CRLF. *)
Definition reply_ok (r : reply) : Prop :=
  match r with
  | RSimple text | RError text => one_line text
  | RInteger n => is_int64 n
  | RBulk text => len text <= max_reply_bytes - 32
  | RNull => True
  end.

(** The writer [m] appends the reply [r] to a buffer that stays within its
    limit, or throws and writes nothing. *)
Definition replies (m : M bytes unit) (r : reply) : Prop :=
  forall output, wp m (fun _ output' => output' = output ++ encode_reply r /\ len output' <= max_reply_bytes)
    (fun e output' => e = too_large /\ output' = output) output.

Lemma space_wp n output (Q : unit -> bytes -> Prop) E :
  (n <= max_reply_bytes -> len output + n <= max_reply_bytes -> Q tt output) -> E too_large output ->
  wp (require_reply_space n) Q E output.
Proof.
  intros HQ HE. unfold require_reply_space. wp_steps.
  destruct (Z.ltb_spec max_reply_bytes n); cbn [orb]; [wp_steps; exact HE|].
  destruct (Z.ltb_spec (max_reply_bytes - n) (len output)); wp_steps; [exact HE|]. apply HQ; lia.
Qed.

Lemma line_replies c text r :
  encode_reply r = of_str c ++ text ++ crlf -> length (of_str c) = 1%nat ->
  replies (do! require_reply_space (len text + 3) in do! put_text (of_str c) in do! put_text text in put_text crlf) r.
Proof.
  intros Er Hc output. wp_steps. apply space_wp; [|by split]. intros _ Hs. unfold put_text. wp_steps.
  rewrite <- !app_assoc, Er. split; [done|]. rewrite !len_app. change (len crlf) with 2. unfold len in *. lia.
Qed.

Lemma append_simple_string_replies text : replies (append_simple_string text) (RSimple text).
Proof. by apply line_replies. Qed.

Lemma append_error_replies text : replies (append_error text) (RError text).
Proof. by apply line_replies. Qed.

Lemma append_integer_replies n : is_int64 n -> replies (append_integer n) (RInteger n).
Proof.
  intros Hn output. unfold append_integer, append_decimal, put_text. wp_steps. apply space_wp; [|by split]. intros _ Hs. wp_steps.
  rewrite <- !app_assoc. split; [done|]. rewrite !len_app. pose proof (to_string_short n Hn).
  change (len crlf) with 2. change (len (of_str ":")) with 1. lia.
Qed.

Lemma append_bulk_view_replies text : replies (append_bulk_view text) (RBulk text).
Proof.
  intros output. unfold append_bulk_view. destruct (Z.ltb_spec (max_reply_bytes - 32) (len text)); wp_steps; [done|].
  apply space_wp; [|by split]. intros _ Hs. wp_steps. cbv zeta. rewrite <- !app_assoc. split; [done|].
  pose proof (len_nonneg text). assert (is_int64 (len text)) as Hl by (unfold is_int64, int64_min, int64_max, max_reply_bytes in *; lia).
  pose proof (to_string_short _ Hl). rewrite !len_app. change (len crlf) with 2. change (len (of_str "$")) with 1. lia.
Qed.

Lemma append_bulk_string_replies aliased text : replies (append_bulk_string aliased text) (RBulk text).
Proof. destruct aliased; apply append_bulk_view_replies. Qed.

Lemma append_null_replies : replies append_null RNull.
Proof.
  intros output. unfold append_null, put_text. wp_steps. apply space_wp; [|by split]. intros _ Hs. wp_steps.
  split; [done|]. rewrite len_app. change (len (of_str "$-1" ++ crlf)) with 5. lia.
Qed.

#[export] Hint Resolve append_simple_string_replies append_error_replies append_integer_replies append_bulk_view_replies
  append_bulk_string_replies append_null_replies : reddish.

(** The same without the limit, which integers keep only if they have 64 bits. *)
Definition appends (m : M bytes unit) (r : reply) : Prop :=
  forall output, wp m (fun _ output' => output' = output ++ encode_reply r) (fun e output' => e = too_large /\ output' = output) output.

Lemma replies_appends m r : replies m r -> appends m r.
Proof. intros Hm output. eapply wp_mono; [apply Hm|by intros u o [-> _]|done]. Qed.

Lemma append_integer_appends n : appends (append_integer n) (RInteger n).
Proof.
  intros output. unfold append_integer, append_decimal, put_text. wp_steps. apply space_wp; [|by split]. intros _ _. wp_steps.
  by rewrite <- !app_assoc.
Qed.

#[export] Hint Resolve replies_appends append_integer_appends : reddish.
