(* ===== verification/Sockets.v ===== *)
(** * Sockets: the event poller

    [SocketSystem] of [src/socket.cpp] registers sockets with the operating
    system and turns what it reports into [SocketEvent]s: over [epoll] on
    Linux, over an array for [WSAPoll] elsewhere, from which a socket is taken
    by moving the last one into its place.  [Poller] is what the server relies
    on; both versions are shown to provide it.  [Socket] is a connection seen
    from the server: the outcomes of the calls to come, and what was sent. *)

From S2P Require Import Prelude Errors Effects.

(** A 32-bit pattern read as [int]. *)
Definition i32 (z : Z) : Z := let r := u32 z in if r <? 2 ^ 31 then r else r - 2 ^ 32.
Definition int32_max : Z := 2 ^ 31 - 1.
Definition is_int32 (z : Z) : Prop := - 2 ^ 31 <= z <= int32_max.

Definition poll_failed : exn := exn_error socket_poll_failed.

(** ** What the server relies on *)

Record SocketEvent := mkEvent {
  ev_token : Z;
  ev_readable : bool;
  ev_writable : bool;
  ev_error : bool
}.

Definition listener_token : Z := -1.

(** The sockets that are watched: the token, and whether for reading and
    writing. *)
Abbreviation Watched := (gmap Z (Z * bool * bool)).

Class Poller (P : Type) := {
  pl_ok : P -> Prop;
  pl_watched : P -> Watched;
  pl_watch : Z -> Z -> bool -> bool -> M P unit;   (** handle, token, readable, writable *)
  pl_unwatch : Z -> P -> P;
  pl_watch_spec handle token r w p :
    pl_ok p -> is_int32 token -> (forall t r0 w0, pl_watched p !! handle = Some (t, r0, w0) -> t = token) ->
    wp (pl_watch handle token r w)
      (fun _ p' => pl_ok p' /\ pl_watched p' = <[handle := (token, r, w)]> (pl_watched p))
      (fun e p' => e = poll_failed /\ pl_ok p' /\ pl_watched p' = pl_watched p) p;
  pl_unwatch_spec handle p :
    pl_ok p -> pl_ok (pl_unwatch handle p) /\ pl_watched (pl_unwatch handle p) = delete handle (pl_watched p)
}.

(** ** Over epoll *)

Definition EPOLLIN : Z := 1.
Definition EPOLLOUT : Z := 4.
Definition EPOLLERR : Z := 8.
Definition EPOLLHUP : Z := 16.

(** How [epoll_ctl] ends; [ctl_exists] is [EEXIST]. *)
Inductive ctl_outcome := ctl_done | ctl_exists | ctl_refused.

(** The kernel: a table from descriptors to events and user data. *)
Class Epoll (E : Type) := {
  ep_table : E -> gmap Z (Z * Z);
  ep_add : Z -> Z * Z -> E -> ctl_outcome * E;
  ep_mod : Z -> Z * Z -> E -> ctl_outcome * E;
  ep_del : Z -> E -> E;
  ep_add_spec fd ev e :
    match ep_add fd ev e with
    | (ctl_done, e') => ep_table e !! fd = None /\ ep_table e' = <[fd := ev]> (ep_table e)
    | (ctl_exists, e') => is_Some (ep_table e !! fd) /\ ep_table e' = ep_table e
    | (ctl_refused, e') => ep_table e' = ep_table e
    end;
  ep_mod_spec fd ev e :
    match ep_mod fd ev e with
    | (ctl_done, e') => is_Some (ep_table e !! fd) /\ ep_table e' = <[fd := ev]> (ep_table e)
    | (_, e') => ep_table e' = ep_table e
    end;
  ep_del_spec fd e : ep_table (ep_del fd e) = delete fd (ep_table e)
}.

(** [static_cast<std::uint64_t>(static_cast<std::uint32_t>(token))], and back. *)
Definition token_data (token : Z) : Z := u32 token.
Definition data_token (data : Z) : Z := i32 (u32 data).

Definition interest (readable writable : bool) : Z :=
  Z.lor (if readable then EPOLLIN else 0) (if writable then EPOLLOUT else 0).

Definition watch_epoll {E} `{Epoll E} (handle token : Z) (readable writable : bool) : M E unit := fun e =>
  let ev := (interest readable writable, token_data token) in
  match ep_add handle ev e with
  | (ctl_done, e) => (inr tt, e)
  | (ctl_refused, e) => (inl poll_failed, e)
  | (ctl_exists, e) =>
      match ep_mod handle ev e with
      | (ctl_done, e) => (inr tt, e)
      | (_, e) => (inl poll_failed, e)
      end
  end.

Definition unwatch_epoll {E} `{Epoll E} (handle : Z) (e : E) : E := ep_del handle e.

Definition has (events flag : Z) : bool := negb (Z.land events flag =? 0).

Definition translate_epoll (event : Z * Z) : SocketEvent :=
  mkEvent (data_token event.2) (has event.1 EPOLLIN || has event.1 EPOLLHUP) (has event.1 EPOLLOUT) (has event.1 EPOLLERR).

(** How [epoll_wait] and [WSAPoll] end. *)
Inductive wait_outcome (X : Type) := ready (reported : list X) | interrupted | wait_error.
Arguments ready {X} _.
Arguments interrupted {X}.
Arguments wait_error {X}.

Definition wait_epoll (o : wait_outcome (Z * Z)) : exn + list SocketEvent :=
  match o with
  | ready events => inr (map translate_epoll events)
  | interrupted => inr []
  | wait_error => inl poll_failed
  end.

(** ** Over an array *)

Definition POLLERR : Z := 1.
Definition POLLHUP : Z := 2.
Definition POLLNVAL : Z := 4.
Definition POLLWRNORM : Z := 16.
Definition POLLRDNORM : Z := 256.

Definition max_events_per_wait : nat := 256.

(** [Registration], with the handle of its socket. *)
Record Registration := mkRegistration { reg_handle : Z; reg_token : Z; reg_writable : bool }.

Record Poll := mkPoll {
  registrations : list Registration;
  slots : gmap Z nat;
  poll_fds : list (Z * Z)   (** descriptor and events *)
}.

Definition poll_events (readable writable : bool) : Z :=
  Z.lor (if readable then POLLRDNORM else 0) (if writable then POLLWRNORM else 0).

Definition watch_poll (handle token : Z) (readable writable : bool) (p : Poll) : Poll :=
  let events := poll_events readable writable in
  match slots p !! handle with
  | Some index =>
      mkPoll (alter (fun r => mkRegistration (reg_handle r) (reg_token r) writable) index (registrations p)) (slots p)
             (alter (fun f => (f.1, events)) index (poll_fds p))
  | None =>
      let index := length (registrations p) in
      mkPoll (registrations p ++ [mkRegistration handle token writable]) (<[handle := index]> (slots p))
             (poll_fds p ++ [(handle, events)])
  end.

(** The last registration takes the place of the one that goes. *)
Definition unwatch_poll (handle : Z) (p : Poll) : Poll :=
  match slots p !! handle with
  | None => p
  | Some index =>
      let last := (length (registrations p) - 1)%nat in
      let p :=
        if (index =? last)%nat then p else
        match registrations p !! last, poll_fds p !! last with
        | Some r, Some f =>
            mkPoll (<[index := r]> (registrations p)) (<[reg_handle r := index]> (slots p)) (<[index := f]> (poll_fds p))
        | _, _ => p
        end in
      mkPoll (take last (registrations p)) (delete handle (slots p)) (take last (poll_fds p))
  end.

(** What [WSAPoll] reports of each descriptor. *)
Definition translate_poll (r : Registration) (revents : Z) : SocketEvent :=
  mkEvent (reg_token r) (has revents POLLRDNORM || has revents POLLERR || has revents POLLHUP) (has revents POLLWRNORM)
    (has revents POLLNVAL).

(** The loop over the descriptors, of which at most a number are reported. *)
Fixpoint collect (room : nat) (rs : list (Registration * Z)) : list SocketEvent :=
  match room, rs with
  | O, _ => []
  | _, [] => []
  | S room, (r, revents) :: rs =>
      let ev := translate_poll r revents in
      if negb (ev_readable ev) && negb (ev_writable ev) && negb (ev_error ev) then collect (S room) rs
      else ev :: collect room rs
  end.

(** [outcome]: with what is reported of each descriptor. *)
Definition wait_poll (outcome : wait_outcome Z) (p : Poll) : exn + list SocketEvent :=
  if bool_decide (poll_fds p = []) then inr [] else
  match outcome with
  | ready revents => inr (collect max_events_per_wait (combine (registrations p) revents))
  | interrupted => inr []
  | wait_error => inl poll_failed
  end.

(** ** A connection *)

(** The outcomes of [::recv] and [::send]; [recv_data []] is the end of the
    stream. *)
Inductive recv_outcome := recv_data (data : bytes) | recv_block | recv_fail.
Inductive send_outcome := send_count (count : Z) | send_block | send_fail.

(** A socket with the outcomes of the calls to come, and with what went over
    it.  A script that has ended blocks. *)
Record Socket := mkSocket {
  sk_handle : Z;
  sk_recvs : list recv_outcome;
  sk_sends : list send_outcome;
  sk_heard : bytes;   (** received so far *)
  sk_wire : bytes   (** sent so far *)
}.

(** [Socket::receive] into [size] characters. *)
Definition receive (size : nat) (k : Socket) : recv_outcome * Socket :=
  match sk_recvs k with
  | [] => (recv_block, k)
  | recv_data data :: rest =>
      let later := drop size data in
      (recv_data (take size data),
       mkSocket (sk_handle k) (if bool_decide (later = []) then rest else recv_data later :: rest) (sk_sends k)
         (sk_heard k ++ take size data) (sk_wire k))
  | outcome :: rest => (outcome, mkSocket (sk_handle k) rest (sk_sends k) (sk_heard k) (sk_wire k))
  end.

(** [Socket::send]: it takes no more than it is given. *)
Definition send (data : bytes) (k : Socket) : send_outcome * Socket :=
  match sk_sends k with
  | [] => (send_block, k)
  | send_count count :: rest =>
      let taken := Z.to_nat (Z.min count (len data)) in
      (send_count (Z.of_nat taken), mkSocket (sk_handle k) (sk_recvs k) rest (sk_heard k) (sk_wire k ++ take taken data))
  | outcome :: rest => (outcome, mkSocket (sk_handle k) (sk_recvs k) rest (sk_heard k) (sk_wire k))
  end.

Definition invalid_socket : Z := -1.

(** The descriptors the operating system hands out are not in use. *)
Class Descriptors := {
  new_fd : gset Z -> Z;
  new_fd_fresh X : new_fd X ∉ X;
  new_fd_valid X : new_fd X <> invalid_socket
}.

(** The outcomes of [::accept], with those of the calls on the new socket, and
    of making it non-blocking. *)
Inductive accept_outcome :=
| accepted (recvs : list recv_outcome) (sends : list send_outcome) (nonblocking : bool)
| accept_block
| accept_fail.

(** [Socket::accept], the descriptors in use given: no socket when there is
    nobody to accept. *)
Definition accept `{Descriptors} (used : gset Z) (o : accept_outcome) : exn + option (Socket * bool) :=
  match o with
  | accepted recvs sends nonblocking => inr (Some (mkSocket (new_fd used) recvs sends [] [], nonblocking))
  | accept_block => inr None
  | accept_fail => inl (exn_error socket_accept_failed)
  end.

(** ** The pollers provide what the server relies on *)

Lemma token_roundtrip t : is_int32 t -> data_token (token_data t) = t.
Proof.
  unfold is_int32, int32_max, data_token, token_data, i32, u32. intros Ht. rewrite !Zmod_mod. destruct (Z.leb_spec 0 t).
  - rewrite Z.mod_small by lia. case_match eqn:E; lia.
  - assert (t mod 2 ^ 32 = t + 2 ^ 32) as -> by (symmetry; apply (Z.mod_unique _ _ (-1)); lia). case_match eqn:E; lia.
Qed.

Definition shown_event (ev : Z * Z) : Z * bool * bool := (data_token ev.2, has ev.1 EPOLLIN, has ev.1 EPOLLOUT).

Lemma shown_interest t r w : is_int32 t -> shown_event (interest r w, token_data t) = (t, r, w).
Proof. intros Ht. unfold shown_event. cbn [fst snd]. rewrite token_roundtrip by done. by destruct r, w. Qed.

#[export] Program Instance epoll_poller {E} `{Epoll E} : Poller E := {
  pl_ok _ := True;
  pl_watched e := shown_event <$> ep_table e;
  pl_watch := watch_epoll;
  pl_unwatch := unwatch_epoll
}.
Next Obligation.
  intros E H handle token r w e _ Ht _. unfold wp, watch_epoll. set (ev := (interest r w, token_data token)).
  assert (shown_event ev = (token, r, w)) as Eev by by apply shown_interest.
  pose proof (ep_add_spec handle ev e) as Ha. destruct (ep_add handle ev e) as [[] e1].
  - destruct Ha as [_ ->]. split; [done|]. by rewrite fmap_insert, Eev.
  - destruct Ha as [_ Ha]. pose proof (ep_mod_spec handle ev e1) as Hm. destruct (ep_mod handle ev e1) as [[] e2].
    + destruct Hm as [_ ->]. split; [done|]. by rewrite fmap_insert, Eev, Ha.
    + rewrite Hm, Ha. by split_and!.
    + rewrite Hm, Ha. by split_and!.
  - rewrite Ha. by split_and!.
Qed.
Next Obligation. intros E H handle e _. split; [done|]. unfold unwatch_epoll. by rewrite ep_del_spec, fmap_delete. Qed.

(** The array: every registration is where [slots] says, beside its descriptor. *)
Record poll_ok (p : Poll) : Prop := {
  po_length : length (poll_fds p) = length (registrations p);
  po_slot i r : registrations p !! i = Some r -> slots p !! reg_handle r = Some i;
  po_reg h i : slots p !! h = Some i -> exists r, registrations p !! i = Some r /\ reg_handle r = h;
  po_fd i r f : registrations p !! i = Some r -> poll_fds p !! i = Some f -> f.1 = reg_handle r
}.

Definition slot_shown (p : Poll) (h : Z) (i : nat) : option (Z * bool * bool) :=
  match registrations p !! i, poll_fds p !! i with
  | Some r, Some f => Some (reg_token r, has f.2 POLLRDNORM, has f.2 POLLWRNORM)
  | _, _ => None
  end.

Definition poll_watched (p : Poll) : Watched := map_imap (slot_shown p) (slots p).

Lemma shown_poll_events r w : (has (poll_events r w) POLLRDNORM, has (poll_events r w) POLLWRNORM) = (r, w).
Proof. by destruct r, w. Qed.

Lemma poll_watched_lookup p h : poll_watched p !! h = slots p !! h ≫= slot_shown p h.
Proof. apply map_lookup_imap. Qed.

Lemma slot_some p h i : poll_ok p -> slots p !! h = Some i ->
  exists r f, registrations p !! i = Some r /\ poll_fds p !! i = Some f /\ reg_handle r = h /\ f.1 = h /\ (i < length (registrations p))%nat.
Proof.
  intros Hp Hi. destruct (po_reg p Hp h i Hi) as (r & Hr & Er). pose proof (lookup_lt_Some _ _ _ Hr) as Hlt.
  destruct (lookup_lt_is_Some_2 (poll_fds p) i) as [f Hf]; [by rewrite (po_length p Hp)|].
  exists r, f. split_and!; try done. rewrite <- Er. by eapply po_fd.
Qed.

Lemma lookup_snoc_eq {X} (l : list X) x : (l ++ [x]) !! length l = Some x.
Proof. by apply list_lookup_middle. Qed.

Lemma watch_poll_ok handle token r w p : poll_ok p -> poll_ok (watch_poll handle token r w p).
Proof.
  intros Hp. unfold watch_poll. destruct (slots p !! handle) as [index|] eqn:Es.
  - split; cbn [registrations slots poll_fds].
    + rewrite !length_alter. apply Hp.
    + intros i x Hx. destruct (decide (i = index)) as [->|Hne].
      * rewrite list_lookup_alter_eq in Hx. apply fmap_Some in Hx as (x0 & Hx & ->). exact (po_slot p Hp _ _ Hx).
      * rewrite list_lookup_alter_ne in Hx by done. by apply (po_slot p Hp).
    + intros h i Hi. destruct (po_reg p Hp h i Hi) as (x & Hx & Ex). destruct (decide (i = index)) as [->|Hne].
      * rewrite list_lookup_alter_eq, Hx. by eexists.
      * rewrite list_lookup_alter_ne by done. by exists x.
    + intros i x f Hx Hf. destruct (decide (i = index)) as [->|Hne].
      * rewrite list_lookup_alter_eq in Hx. rewrite list_lookup_alter_eq in Hf. apply fmap_Some in Hx as (x0 & Hx & ->), Hf as (f0 & Hf & ->). cbn. by eapply (po_fd p Hp).
      * rewrite list_lookup_alter_ne in Hx by done. rewrite list_lookup_alter_ne in Hf by done. by eapply (po_fd p Hp).
  - split; cbn [registrations slots poll_fds].
    + rewrite !length_app. by rewrite (po_length p Hp).
    + intros i x Hx. apply lookup_snoc_Some in Hx as [[Hlt Hx]|[-> <-]]; cbn; [|by rewrite lookup_insert_eq].
      pose proof (po_slot p Hp _ _ Hx) as Hs. rewrite lookup_insert_ne; [done|]. intros E. rewrite E in Es. congruence.
    + intros h i Hi. destruct (decide (h = handle)) as [->|Hne].
      * rewrite lookup_insert_eq in Hi. injection Hi as <-. exists (mkRegistration handle token w). by rewrite lookup_snoc_eq.
      * rewrite lookup_insert_ne in Hi by done. destruct (po_reg p Hp h i Hi) as (x & Hx & Ex). exists x. split; [|done].
        by apply lookup_app_l_Some.
    + intros i x f Hx Hf. apply lookup_snoc_Some in Hx as [[Hlt Hx]|[-> <-]].
      * rewrite lookup_app_l in Hf by (by rewrite (po_length p Hp)). by eapply (po_fd p Hp).
      * rewrite <- (po_length p Hp), lookup_snoc_eq in Hf. by injection Hf as <-.
Qed.

(** The token of a socket is the one it was first watched with. *)
Definition kept_token (m : Watched) (handle token : Z) : Z :=
  match m !! handle with Some (t, _, _) => t | None => token end.

Lemma watch_poll_watched handle token r w p : poll_ok p ->
  poll_watched (watch_poll handle token r w p) = <[handle := (kept_token (poll_watched p) handle token, r, w)]> (poll_watched p).
Proof.
  intros Hp. pose proof (shown_poll_events r w) as [= Er Ew]. apply map_eq. intros h. unfold kept_token. rewrite (poll_watched_lookup p handle).
  destruct (slots p !! handle) as [index|] eqn:Es.
  - destruct (slot_some p handle index Hp Es) as (x & f & Hx & Hf & Ex & Ef & _). cbn [mbind option_bind]. unfold slot_shown at 1. rewrite Hx, Hf.
    rewrite poll_watched_lookup. unfold watch_poll. rewrite Es. cbn [slots]. destruct (decide (h = handle)) as [->|Hne].
    + rewrite Es, lookup_insert_eq. cbn [mbind option_bind]. unfold slot_shown. cbn [registrations poll_fds].
      rewrite !list_lookup_alter_eq, Hx, Hf. cbn. by rewrite Er, Ew.
    + rewrite lookup_insert_ne, poll_watched_lookup by done. destruct (slots p !! h) as [i|] eqn:Ei; [|done]. cbn [mbind option_bind].
      unfold slot_shown. cbn [registrations poll_fds]. rewrite !list_lookup_alter_ne; [done|..]; intros <-;
      destruct (slot_some p h index Hp Ei) as (x' & ? & Hx' & ? & Ex' & _); congruence.
  - rewrite poll_watched_lookup. unfold watch_poll. rewrite Es. cbn [slots mbind option_bind]. destruct (decide (h = handle)) as [->|Hne].
    + rewrite !lookup_insert_eq. cbn [mbind option_bind]. unfold slot_shown. cbn [registrations poll_fds]. rewrite lookup_snoc_eq.
      rewrite <- (po_length p Hp), lookup_snoc_eq. cbn. by rewrite Er, Ew.
    + rewrite !lookup_insert_ne, poll_watched_lookup by done. destruct (slots p !! h) as [i|] eqn:Ei; [|done]. cbn [mbind option_bind].
      unfold slot_shown. cbn [registrations poll_fds]. destruct (slot_some p h i Hp Ei) as (x & f & Hx & Hf & _).
      by rewrite (lookup_app_l_Some _ _ _ _ Hx), (lookup_app_l_Some _ _ _ _ Hf), Hx, Hf.
Qed.

(** Taking one out: the last fills the gap. *)
Definition gap_filled {X} (index : nat) (l : list X) : list X :=
  let last := (length l - 1)%nat in
  take last (match l !! last with Some x => if (index =? last)%nat then l else <[index := x]> l | None => l end).

Lemma gap_filled_lookup {X} index (l : list X) i : (index < length l)%nat ->
  gap_filled index l !! i =
    if (i <? length l - 1)%nat then l !! (if (i =? index)%nat then length l - 1 else i)%nat else None.
Proof.
  intros Hi. unfold gap_filled. destruct (lookup_lt_is_Some_2 l (length l - 1)) as [x Hx]; [lia|]. rewrite Hx.
  destruct (Nat.ltb_spec i (length l - 1)) as [Hlt|Hge].
  - rewrite lookup_take_lt by done. destruct (Nat.eqb_spec i index) as [->|Hne].
    + destruct (Nat.eqb_spec index (length l - 1)); [lia|]. rewrite list_lookup_insert_eq by lia. done.
    + destruct (Nat.eqb_spec index (length l - 1)); [done|]. by rewrite list_lookup_insert_ne.
  - apply lookup_take_ge. done.
Qed.

Lemma unwatch_poll_shape handle p index r : poll_ok p -> slots p !! handle = Some index ->
  registrations p !! (length (registrations p) - 1)%nat = Some r ->
  unwatch_poll handle p = mkPoll (gap_filled index (registrations p))
    (delete handle (if (index =? length (registrations p) - 1)%nat then slots p else <[reg_handle r := index]> (slots p)))
    (gap_filled index (poll_fds p)).
Proof.
  intros Hp Es Hr. unfold unwatch_poll, gap_filled. rewrite Es, (po_length p Hp), Hr.
  destruct (lookup_lt_is_Some_2 (poll_fds p) (length (registrations p) - 1)) as [f ->].
  { rewrite (po_length p Hp). by eapply lookup_lt_Some. }
  by destruct (index =? _)%nat.
Qed.

Lemma unwatch_poll_slots handle p index r h : poll_ok p -> slots p !! handle = Some index ->
  registrations p !! (length (registrations p) - 1)%nat = Some r ->
  slots (unwatch_poll handle p) !! h =
    if decide (h = handle) then None else if decide (h = reg_handle r) then Some index else slots p !! h.
Proof.
  intros Hp Es Hr. rewrite (unwatch_poll_shape _ _ _ _ Hp Es Hr). cbn [slots]. destruct (decide (h = handle)) as [->|Hne].
  { by rewrite lookup_delete_eq. }
  rewrite lookup_delete_ne by done. destruct (Nat.eqb_spec index (length (registrations p) - 1)) as [Ei|Hi].
  - destruct (decide (h = reg_handle r)) as [->|]; [|done]. exfalso. apply Hne. rewrite <- Ei in Hr.
    destruct (po_reg p Hp _ _ Es) as (r' & Hr' & <-). congruence.
  - destruct (decide (h = reg_handle r)) as [->|Hh]; [by rewrite lookup_insert_eq|by rewrite lookup_insert_ne].
Qed.

Lemma last_registration p h i : poll_ok p -> slots p !! h = Some i ->
  exists r, registrations p !! (length (registrations p) - 1)%nat = Some r.
Proof.
  intros Hp Hi. destruct (slot_some p h i Hp Hi) as (? & ? & ? & ? & ? & ? & Hlt).
  apply lookup_lt_is_Some_2. lia.
Qed.

(** Where a registration that stays is found afterwards. *)
Lemma moved_slot p handle index last i r : poll_ok p -> slots p !! handle = Some index ->
  registrations p !! (length (registrations p) - 1)%nat = Some last ->
  gap_filled index (registrations p) !! i = Some r ->
  reg_handle r <> handle /\ (if decide (reg_handle r = reg_handle last) then Some index else slots p !! reg_handle r) = Some i.
Proof.
  intros Hp Es Hlast Hr. destruct (slot_some p handle index Hp Es) as (x & ? & Hx & ? & Ex & ? & Hlt).
  rewrite gap_filled_lookup in Hr by done. destruct (Nat.ltb_spec i (length (registrations p) - 1)) as [Hi|]; [|done].
  pose proof (po_slot p Hp _ _ Hr) as Hs. pose proof (po_slot p Hp _ _ Hlast) as Hsl. split.
  - intros E. rewrite E in Hs. destruct (Nat.eqb_spec i index); simplify_eq; lia.
  - destruct (Nat.eqb_spec i index) as [->|Hne].
    + assert (r = last) as -> by congruence. by rewrite decide_True.
    + rewrite decide_False; [done|]. intros E. rewrite E in Hs. simplify_eq. lia.
Qed.

Lemma unwatch_poll_ok handle p : poll_ok p -> poll_ok (unwatch_poll handle p).
Proof.
  intros Hp. destruct (slots p !! handle) as [index|] eqn:Es; [|unfold unwatch_poll; by rewrite Es].
  destruct (last_registration p handle index Hp Es) as [last Hl].
  destruct (slot_some p handle index Hp Es) as (x & fx & Hx & Hfx & Ex & Efx & Hlt). pose proof (po_length p Hp) as En.
  split.
  - rewrite (unwatch_poll_shape _ _ _ _ Hp Es Hl). cbn [registrations poll_fds]. unfold gap_filled. rewrite !length_take.
    repeat case_match; rewrite ?length_insert; lia.
  - intros i r Hr. rewrite (unwatch_poll_slots _ _ _ _ _ Hp Es Hl).
    rewrite (unwatch_poll_shape _ _ _ _ Hp Es Hl) in Hr. cbn [registrations] in Hr.
    destruct (moved_slot _ _ _ _ _ _ Hp Es Hl Hr) as [Hne Hs]. by rewrite decide_False.
  - intros h i Hi. rewrite (unwatch_poll_slots _ _ _ _ _ Hp Es Hl) in Hi.
    rewrite (unwatch_poll_shape _ _ _ _ Hp Es Hl). cbn [registrations]. destruct (decide (h = handle)); [done|].
    rewrite gap_filled_lookup by done. destruct (decide (h = reg_handle last)) as [->|Hh].
    + injection Hi as <-. rewrite Nat.eqb_refl. destruct (Nat.ltb_spec index (length (registrations p) - 1)); [by exists last|].
      exfalso. assert (index = length (registrations p) - 1)%nat as E by lia. rewrite <- E in Hl. simplify_eq.
    + destruct (po_reg p Hp h i Hi) as (r & Hr & Er). pose proof (lookup_lt_Some _ _ _ Hr).
      destruct (Nat.ltb_spec i (length (registrations p) - 1)).
      * destruct (Nat.eqb_spec i index) as [->|]; [congruence|by exists r].
      * exfalso. assert (i = length (registrations p) - 1)%nat as E by lia. rewrite <- E in Hl. congruence.
  - intros i r f Hr Hf. rewrite (unwatch_poll_shape _ _ _ _ Hp Es Hl) in Hr, Hf. cbn [registrations poll_fds] in Hr, Hf.
    rewrite gap_filled_lookup in Hr by lia. rewrite gap_filled_lookup in Hf by lia. rewrite En in Hf.
    destruct (i <? _)%nat; [|done]. by eapply (po_fd p Hp).
Qed.

Lemma unwatch_poll_watched handle p : poll_ok p -> poll_watched (unwatch_poll handle p) = delete handle (poll_watched p).
Proof.
  intros Hp. apply map_eq. intros h. rewrite poll_watched_lookup. destruct (slots p !! handle) as [index|] eqn:Es.
  2:{ unfold unwatch_poll. rewrite Es. destruct (decide (h = handle)) as [->|Hne].
      - by rewrite Es, lookup_delete_eq.
      - by rewrite lookup_delete_ne, poll_watched_lookup. }
  destruct (last_registration p handle index Hp Es) as [last Hl]. rewrite (unwatch_poll_slots _ _ _ _ _ Hp Es Hl).
  destruct (slot_some p handle index Hp Es) as (x & fx & Hx & Hfx & Ex & Efx & Hlt). pose proof (po_length p Hp) as En.
  destruct (decide (h = handle)) as [->|Hne]; [by rewrite lookup_delete_eq|]. rewrite lookup_delete_ne, poll_watched_lookup by done.
  unfold slot_shown. rewrite (unwatch_poll_shape _ _ _ _ Hp Es Hl). cbn [registrations poll_fds].
  destruct (decide (h = reg_handle last)) as [->|Hh].
  - rewrite (po_slot p Hp _ _ Hl). cbn [mbind option_bind]. rewrite !gap_filled_lookup by lia. rewrite En, Nat.eqb_refl.
    destruct (Nat.ltb_spec index (length (registrations p) - 1)); [done|]. exfalso.
    assert (index = length (registrations p) - 1)%nat as E by lia. rewrite <- E in Hl. simplify_eq.
  - destruct (slots p !! h) as [i|] eqn:Ei; [|done]. cbn [mbind option_bind]. destruct (slot_some p h i Hp Ei) as (y & fy & Hy & Hfy & Ey & _ & Hi).
    rewrite !gap_filled_lookup by lia. rewrite En. destruct (Nat.ltb_spec i (length (registrations p) - 1)).
    + destruct (Nat.eqb_spec i index) as [->|]; [congruence|done].
    + exfalso. assert (i = length (registrations p) - 1)%nat as E by lia. rewrite <- E in Hl. congruence.
Qed.

#[export] Program Instance poll_poller : Poller Poll := {
  pl_ok := poll_ok;
  pl_watched := poll_watched;
  pl_watch handle token r w := modify (watch_poll handle token r w);
  pl_unwatch := unwatch_poll
}.
Next Obligation.
  intros handle token r w p Hp _ Ht. apply wp_modify. split; [by apply watch_poll_ok|]. rewrite watch_poll_watched by done.
  do 3 f_equal. unfold kept_token. destruct (poll_watched p !! handle) as [[[t r0] w0]|] eqn:E; [by eapply Ht|done].
Qed.
Next Obligation. intros handle p Hp. split; [by apply unwatch_poll_ok|by apply unwatch_poll_watched]. Qed.

(** ** Results *)

(** The calls a server makes. *)
Inductive poll_op := op_watch (handle token : Z) (readable writable : bool) | op_unwatch (handle : Z).

Definition run_op (o : poll_op) (p : Poll) : Poll :=
  match o with
  | op_watch h t r w => watch_poll h t r w p
  | op_unwatch h => unwatch_poll h p
  end.

Definition spec_op (o : poll_op) (m : Watched) : Watched :=
  match o with
  | op_watch h t r w => <[h := (kept_token m h t, r, w)]> m
  | op_unwatch h => delete h m
  end.

Definition empty_poll : Poll := mkPoll [] ∅ [].

Lemma empty_poll_ok : poll_ok empty_poll.
Proof. split; [done|..]; by intros. Qed.

Lemma run_ops_refine ops : forall p, poll_ok p ->
  poll_ok (fold_left (fun p o => run_op o p) ops p) /\
  poll_watched (fold_left (fun p o => run_op o p) ops p) = fold_left (fun m o => spec_op o m) ops (poll_watched p).
Proof.
  induction ops as [|o ops IH]; intros p Hp; [done|]. cbn [fold_left]. assert (poll_watched (run_op o p) = spec_op o (poll_watched p)) as <-.
  { destruct o; [by apply watch_poll_watched|by apply unwatch_poll_watched]. }
  apply IH. destruct o; [by apply watch_poll_ok|by apply unwatch_poll_ok].
Qed.

Lemma collect_bound room rs : (length (collect room rs) <= room)%nat.
Proof. revert room. induction rs as [|[r revents] rs IH]; intros [|room]; cbn; try lia. case_match; [apply (IH (S room))|cbn; specialize (IH room); lia]. Qed.

Lemma collect_from room rs ev : ev ∈ collect room rs -> exists r revents, (r, revents) ∈ rs /\ ev = translate_poll r revents.
Proof.
  revert room. induction rs as [|[r revents] rs IH]; intros [|room] He; cbn in He; try by apply elem_of_nil in He.
  case_match; [|apply elem_of_cons in He as [->|He]].
  - destruct (IH _ He) as (r' & v' & Hin & ->). exists r', v'. split; [by right|done].
  - exists r, revents. split; [left|done].
  - destruct (IH _ He) as (r' & v' & Hin & ->). exists r', v'. split; [by right|done].
Qed.

Lemma registered_watched p r : poll_ok p -> r ∈ registrations p -> exists rd wr, poll_watched p !! reg_handle r = Some (reg_token r, rd, wr).
Proof.
  intros Hp Hr. apply list_elem_of_lookup in Hr as [i Hi]. pose proof (po_slot p Hp _ _ Hi) as Hs.
  destruct (slot_some p _ _ Hp Hs) as (r' & f & Hr' & Hf & _). rewrite poll_watched_lookup, Hs. cbn. unfold slot_shown. rewrite Hi, Hf.
  by eexists _, _.
Qed.

(** C22: the poll array refines a map of sockets.  After any sequence of [watch]
    and [unwatch] the arrays and the index agree with a map from handles to
    the token and the interests, although [unwatch] moves the last entry; and
    [wait] reports at most [max_events_per_wait] events, each with the token
    of a socket that is watched. *)
Theorem poll_refines_map ops outcome :
  let p := fold_left (fun p o => run_op o p) ops empty_poll in
  poll_ok p /\ poll_watched p = fold_left (fun m o => spec_op o m) ops ∅ /\
  match wait_poll outcome p with
  | inr events => (length events <= max_events_per_wait)%nat /\
      Forall (fun ev => exists h r w, poll_watched p !! h = Some (ev_token ev, r, w)) events
  | inl e => e = poll_failed
  end.
Proof.
  intros p. destruct (run_ops_refine ops empty_poll empty_poll_ok) as [Hp Ew]. fold p in Hp, Ew. split; [exact Hp|]. split; [exact Ew|].
  unfold wait_poll. case_bool_decide; [split; [cbn; lia|by apply Forall_nil]|]. destruct outcome as [revents| |]; [|split; [cbn; lia|by apply Forall_nil]|done].
  split; [apply collect_bound|]. apply Forall_forall. intros ev Hev. apply collect_from in Hev as (r & v & Hin & ->). cbn.
  apply list_elem_of_In, in_combine_l, list_elem_of_In in Hin. destruct (registered_watched p r Hp Hin) as (rd & wr & E). by exists (reg_handle r), rd, wr.
Qed.

(** A kernel that refuses nothing, and the smallest unused descriptor. *)
#[export] Program Instance table_epoll : Epoll (gmap Z (Z * Z)) := {
  ep_table e := e;
  ep_add fd ev e := match e !! fd with Some _ => (ctl_exists, e) | None => (ctl_done, <[fd := ev]> e) end;
  ep_mod fd ev e := match e !! fd with Some _ => (ctl_done, <[fd := ev]> e) | None => (ctl_refused, e) end;
  ep_del fd e := delete fd e
}.
Next Obligation. intros fd ev e. cbn. destruct (e !! fd) eqn:E; cbn; by eauto. Qed.
Next Obligation. intros fd ev e. cbn. destruct (e !! fd) eqn:E; cbn; by eauto. Qed.
Next Obligation. done. Qed.

#[export] Program Instance fresh_descriptors : Descriptors := { new_fd X := fresh ({[invalid_socket]} ∪ X) }.
Next Obligation. intros X HX. apply (is_fresh ({[invalid_socket]} ∪ X)). set_solver. Qed.
Next Obligation. intros X E. apply (is_fresh ({[invalid_socket]} ∪ X)). rewrite E. set_solver. Qed.
