(* ===== verification/Client.v ===== *)
(** * Client: requests and replies on the wire

    [Client::execute] of the C++ client: it sends one request and reads one
    reply, in whatever pieces the network delivers it; with the loops around
    [send] and [recv] in the client's [socket.cpp].  The operating system's
    answers are two scripts, one for each call; a script that has ended stands
    for a peer that is gone. *)

From S2P Require Import Prelude Charconv Errors Effects RespParse Replies.
From Stdlib Require Import Strings.Byte.

(** [std::expected<T, std::string>]. *)
Inductive expected (T : Type) :=
| Got (value : T)
| Failed (message : bytes).
Arguments Got {T} value.
Arguments Failed {T} message.

(** ** The socket *)

(** The result of one [::send] and of one [::recv]. *)
Inductive send_result := sent (count : Z) | send_interrupted | send_error.
Inductive recv_result := received (data : bytes) | recv_interrupted | recv_error.

Record Net := mkNet {
  handle_ : Z;                      (** -1 when closed *)
  sends : list send_result;
  recvs : list recv_result;
  wire : bytes                      (** what the peer has been sent *)
}.

Definition set_sends (l : list send_result) (n : Net) : Net := mkNet (handle_ n) l (recvs n) (wire n).
Definition set_recvs (l : list recv_result) (n : Net) : Net := mkNet (handle_ n) (sends n) l (wire n).
Definition put_wire (data : bytes) (n : Net) : Net := mkNet (handle_ n) (sends n) (recvs n) (wire n ++ data).

Definition close_socket : M Net unit := modify (fun n => mkNet (-1) (sends n) (recvs n) (wire n)).

(** [Socket::connect]: the new socket, if there is one, whether the address is
    one, and whether [::connect] reaches it. *)
Definition connect (created : option Z) (address connected : bool) : M Net (expected unit) :=
  do! close_socket in
  match created with
  | None => ret (Failed (of_str "Failed to create socket"))
  | Some socket =>
      if negb (address && connected) then ret (Failed (of_str "Failed to connect to server"))
      else do! modify (fun n => mkNet socket (sends n) (recvs n) (wire n)) in ret (Got tt)
  end.

Definition int_max : Z := 2 ^ 31 - 1.

(** The loop of [Socket::send], on what is left of the data. *)
Fixpoint send_loop (script : list send_result) (rest : bytes) (n : Net) : expected unit * Net :=
  if bool_decide (rest = []) then (Got tt, set_sends script n) else
  match script with
  | [] | send_error :: _ => (Failed (of_str "Failed to send command"), set_sends (tail script) n)
  | send_interrupted :: script => send_loop script rest n
  | sent count :: script =>
      if count <=? 0 then (Failed (of_str "Server closed connection"), set_sends script n) else
      let k := Z.to_nat (Z.min count (len rest)) in
      send_loop script (drop k rest) (put_wire (take k rest) n)
  end.

Definition send (data : bytes) : M Net (expected unit) := fun n =>
  if int_max <? len data then (inr (Failed (of_str "Command too large")), n) else
  let '(r, n) := send_loop (sends n) data n in (inr r, n).

(** The loop of [Socket::receive] into a buffer of [size] characters. *)
Fixpoint receive_loop (script : list recv_result) (size : Z) (n : Net) : expected bytes * Net :=
  match script with
  | recv_interrupted :: script => receive_loop script size n
  | received data :: script =>
      let got := take (Z.to_nat size) data in
      let later := drop (Z.to_nat size) data in
      if bool_decide (got = []) then (Failed (of_str "Server closed connection"), set_recvs script n)
      else (Got got, set_recvs (if bool_decide (later = []) then script else received later :: script) n)
  | _ => (Failed (of_str "Server closed connection"), set_recvs (tail script) n)
  end.

Definition receive (size : Z) : M Net (expected bytes) := fun n =>
  if int_max <? size then (inr (Failed (of_str "Receive buffer too large")), n) else
  let '(r, n) := receive_loop (recvs n) size n in (inr r, n).

(** ** Reading a reply *)

Definition reply_limit : Z := 16 * 1024 * 1024.

(** What the loop finds at a position: an error, too few bytes, or the place
    after an element and the elements it announces. *)
Inductive item := bad (message : bytes) | need_more | item_to (next : nat) (added : Z).

Definition reply_item (response : bytes) (position : nat) : item :=
  match find_crlf (drop position response) with
  | None => need_more
  | Some k =>
      let type := default x00 (response !! position) in
      let line := take (k - 1) (drop (S position) response) in
      let number := from_chars_int64 line in
      if bool_decide (type = x3a) && bool_decide (number = None) then bad (of_str "Invalid RESP integer") else
      let counted := bool_decide (type = x24) || bool_decide (type = x2a) in
      let length := default 0 number in
      if counted && (bool_decide (number = None) || (length <? -1) || (reply_limit <? length)) then bad (of_str "Invalid RESP length") else
      if negb (counted || bool_decide (type = x2b) || bool_decide (type = x2d) || bool_decide (type = x3a))
      then bad (of_str "Invalid RESP reply type") else
      let next := (position + k + 2)%nat in
      if bool_decide (type = x24) && (0 <=? length) then
        let next := (next + Z.to_nat length + 2)%nat in
        if reply_limit <? Z.of_nat next then bad (of_str "RESP reply too large") else
        if Z.of_nat (List.length response) <? Z.of_nat next then need_more else
        if negb (bool_decide (take 2 (drop (next - 2) response) = crlf)) then bad (of_str "Invalid RESP bulk terminator")
        else item_to next 0
      else item_to next (if bool_decide (type = x2a) && (0 <? length) then length else 0)
  end.

Definition fail_with {T} (message : bytes) : M Net (expected T) := do! close_socket in ret (Failed message).

(** The loop; [None] when the fuel is used up. *)
Fixpoint read_reply (fuel : nat) (response : bytes) (position : nat) (pending : Z) : M Net (option (expected bytes)) :=
  match fuel with
  | O => ret None
  | S fuel =>
      if pending =? 0 then
        if negb (position =? List.length response)%nat
        then let! r := fail_with (of_str "Unexpected data after RESP reply") in ret (Some r)
        else ret (Some (Got response))
      else
      match reply_item response position with
      | bad message => let! r := fail_with message in ret (Some r)
      | item_to next added =>
          let pending := pending - 1 + added in
          if reply_limit <? pending then let! r := fail_with (of_str "RESP reply too large") in ret (Some r)
          else read_reply fuel response next pending
      | need_more =>
          let! chunk := receive 4096 in
          match chunk with
          | Failed message => let! r := fail_with message in ret (Some r)
          | Got data =>
              if reply_limit <? len response + len data then let! r := fail_with (of_str "RESP reply too large") in ret (Some r)
              else read_reply fuel (response ++ data) position pending
          end
      end
  end.

(** The bytes a [recv] may still deliver. *)
Definition delivered (r : recv_result) : bytes := match r with received data => data | _ => [] end.

(** Every round takes an answer of [recv], some of its bytes, or moves past at
    least two bytes. *)
Definition read_rounds (n : Net) : nat := S (S (length (recvs n) + 2 * length (concat (map delivered (recvs n))))).

Definition execute (command : list bytes) : M Net (option (expected bytes)) :=
  let request := encode_request command in
  let! r := send request in
  match r with
  | Failed message => let! r := fail_with message in ret (Some r)
  | Got _ => let! n := get in read_reply (read_rounds n) [] 0 1
  end.

(** ** The commands *)

Definition ping : M Net (option (expected bytes)) := execute [of_str "PING"].
Definition set (key value : bytes) : M Net (option (expected bytes)) := execute [of_str "SET"; key; value].
Definition get_key (key : bytes) : M Net (option (expected bytes)) := execute [of_str "GET"; key].
Definition increment (key : bytes) : M Net (option (expected bytes)) := execute [of_str "INCR"; key].
Definition del (key : bytes) : M Net (option (expected bytes)) := execute [of_str "DEL"; key].
Definition expire (key : bytes) (seconds : Z) : M Net (option (expected bytes)) :=
  execute [of_str "EXPIRE"; key; to_string seconds].
Definition ttl (key : bytes) : M Net (option (expected bytes)) := execute [of_str "TTL"; key].
Definition lpush (key value : bytes) : M Net (option (expected bytes)) := execute [of_str "LPUSH"; key; value].
Definition rpush (key value : bytes) : M Net (option (expected bytes)) := execute [of_str "RPUSH"; key; value].
Definition lpop (key : bytes) : M Net (option (expected bytes)) := execute [of_str "LPOP"; key].
Definition rpop (key : bytes) : M Net (option (expected bytes)) := execute [of_str "RPOP"; key].
Definition llen (key : bytes) : M Net (option (expected bytes)) := execute [of_str "LLEN"; key].
Definition hset (key field value : bytes) : M Net (option (expected bytes)) := execute [of_str "HSET"; key; field; value].
Definition hget (key field : bytes) : M Net (option (expected bytes)) := execute [of_str "HGET"; key; field].
Definition hdel (key field : bytes) : M Net (option (expected bytes)) := execute [of_str "HDEL"; key; field].
Definition hlen (key : bytes) : M Net (option (expected bytes)) := execute [of_str "HLEN"; key].
Definition info (section : bytes) : M Net (option (expected bytes)) :=
  if bool_decide (section = []) then execute [of_str "INFO"] else execute [of_str "INFO"; section].

(** ** One element *)

Lemma find_crlf_none l : Forall (fun b => b <> LF) l -> find_crlf l = None.
Proof.
  induction 1 as [|a l Ha Hl IH]; [done|]. destruct l as [|b l]; [done|]. rewrite find_crlf_cons.
  inversion Hl as [|? ? Hb Hl']; subst. rewrite (bool_decide_eq_false_2 (b = LF)) by done. rewrite andb_false_r, IH. done.
Qed.

(** The first line of a reply: what follows its type. *)
Definition first_line (r : reply) : bytes :=
  match r with
  | RSimple text | RError text => text
  | RInteger n => to_string n
  | RBulk text => to_string (len text)
  | RNull => of_str "-1"
  end.

Definition type_of (r : reply) : byte :=
  match r with RSimple _ => x2b | RError _ => x2d | RInteger _ => x3a | RBulk _ | RNull => x24 end.

Definition body_of (r : reply) : bytes := match r with RBulk text => text ++ crlf | _ => [] end.

Lemma encode_reply_parts r : encode_reply r = type_of r :: first_line r ++ crlf ++ body_of r.
Proof. destruct r; try reflexivity; cbn [encode_reply type_of first_line body_of]; by rewrite ?app_nil_r. Qed.

Lemma digits_line l : all_digits l -> one_line l.
Proof.
  intros Hl. eapply Forall_impl; [exact Hl|]. intros b Hb. apply is_digit_range in Hb. split; intros ->; vm_compute in Hb; by destruct Hb.
Qed.

Lemma to_string_line z : one_line (to_string z).
Proof.
  unfold to_string. destruct (Z.ltb_spec z 0).
  - constructor; [split; discriminate|]. apply digits_line, to_dec_spec. lia.
  - apply digits_line, to_dec_spec. lia.
Qed.

Lemma first_line_ok r : reply_ok r -> one_line (type_of r :: first_line r).
Proof.
  intros Hr. constructor; [destruct r; split; discriminate|].
  destruct r; cbn [first_line reply_ok] in *; [done|done|apply to_string_line|apply to_string_line|].
  repeat constructor; discriminate.
Qed.

Lemma reply_number r : reply_ok r ->
  match r with
  | RInteger n => from_chars_int64 (first_line r) = Some n
  | RBulk text => from_chars_int64 (first_line r) = Some (len text)
  | RNull => from_chars_int64 (first_line r) = Some (-1)
  | _ => True
  end.
Proof.
  intros Hr. destruct r; cbn [first_line reply_ok] in *; [done|done|by apply from_chars_to_string| |vm_compute; reflexivity].
  apply from_chars_to_string. pose proof (len_nonneg text). unfold is_int64, int64_min, int64_max, max_reply_bytes in *. lia.
Qed.

(** The element once its first line is there. *)
Lemma item_of_line r b : reply_ok r ->
  reply_item (type_of r :: first_line r ++ crlf ++ b) 0 =
  match r with
  | RBulk text =>
      if len b <? len text + 2 then need_more
      else if negb (bool_decide (take 2 (drop (length text) b) = crlf)) then bad (of_str "Invalid RESP bulk terminator")
      else item_to (length (encode_reply r)) 0
  | _ => item_to (length (encode_reply r)) 0
  end.
Proof.
  intros Hr. pose proof (first_line_ok r Hr) as Hline. pose proof (reply_number r Hr) as Hnum. unfold reply_item. rewrite drop_0.
  change (type_of r :: first_line r ++ crlf ++ b) with ((type_of r :: first_line r) ++ crlf ++ b).
  rewrite find_crlf_first by (eapply Forall_impl; [exact Hline|]; by intros ? []).
  cbn [app length Nat.add Nat.sub skipn]. rewrite ?drop_0, ?Nat.sub_0_r, ?take_app_length.
  change ((type_of r :: first_line r ++ crlf ++ b) !! 0%nat) with (Some (type_of r)). cbn [default].
  assert (length (encode_reply r) = S (length (first_line r) + (2 + length (body_of r)))) as El.
  { rewrite encode_reply_parts. cbn [length]. by rewrite !length_app. }
  rewrite El. destruct r as [text|text|n|text|]; cbn [type_of first_line reply_ok body_of length] in *;
    rewrite ?Hnum; try reflexivity; try (cbn; f_equal; lia).
  pose proof (len_nonneg text) as Hp. cbn [from_option id].
  change (bool_decide (x24 = x3a)) with false. change (bool_decide (x24 = x24)) with true.
  rewrite (bool_decide_eq_false_2 (Some (len text) = None)) by done. cbn [andb orb negb].
  destruct (Z.ltb_spec (len text) (-1)); [lia|]. destruct (Z.ltb_spec reply_limit (len text)); [unfold reply_limit, max_reply_bytes in *; lia|].
  cbn [orb]. destruct (Z.leb_spec 0 (len text)); [|lia].
  assert (length (to_string (len text)) <= 20)%nat as H20.
  { assert (is_int64 (len text)) as Hl by (unfold is_int64, int64_min, int64_max, max_reply_bytes in *; lia).
    pose proof (to_string_short _ Hl). unfold len in *. lia. }
  set (t := to_string (len text)) in *. set (next := S (length t + 2 + Z.to_nat (len text) + 2)).
  change (length t + 2 + Z.to_nat (len text) + 2 - 1)%nat with (next - 2)%nat.
  assert (next = S (length t + (2 + length (text ++ crlf)))) as En by (unfold next, len; rewrite length_app, Nat2Z.id; cbn; lia).
  destruct (Z.ltb_spec reply_limit (Z.of_nat next)) as [Hbig|_].
  { exfalso. unfold next, reply_limit, max_reply_bytes, len in *. lia. }
  assert (S (length (t ++ crlf ++ b)) = (S (length t) + 2 + length b)%nat) as Eb by (rewrite !length_app; cbn; lia).
  rewrite Eb. destruct (Z.ltb_spec (Z.of_nat (S (length t) + 2 + length b)) (Z.of_nat next)) as [Hs|Hs],
    (Z.ltb_spec (len b) (len text + 2)) as [Hs'|Hs']; try (exfalso; unfold next, len in *; lia); [done|].
  assert (drop (next - 2) (x24 :: t ++ crlf ++ b) = drop (length text) b) as ->; [|by rewrite En].
  replace (next - 2)%nat with (length (x24 :: t ++ crlf) + length text)%nat
    by (unfold next, len; rewrite Nat2Z.id; cbn; rewrite length_app; cbn; lia).
  change (x24 :: t ++ crlf ++ b) with ((x24 :: t) ++ crlf ++ b). rewrite app_assoc, <- drop_drop. by rewrite drop_app_length.
Qed.

Lemma item_whole r : reply_ok r -> reply_item (encode_reply r) 0 = item_to (length (encode_reply r)) 0.
Proof.
  intros Hr. rewrite encode_reply_parts at 1. rewrite item_of_line by done. destruct r as [| | |text|]; try reflexivity.
  cbn [body_of]. rewrite len_app. change (len crlf) with 2. rewrite Z.ltb_irrefl, drop_app_length. reflexivity.
Qed.

Lemma item_prefix r p q : reply_ok r -> encode_reply r = p ++ q -> q <> [] -> reply_item p 0 = need_more.
Proof.
  intros Hr E Hq. pose proof (first_line_ok r Hr) as Hline. rewrite encode_reply_parts in E.
  set (line := type_of r :: first_line r) in *. change (line ++ crlf ++ body_of r = p ++ q) in E.
  destruct (Nat.le_gt_cases (length line + 2) (length p)) as [Hlong|Hshort].
  - rewrite app_assoc in E. apply app_eq_inv in E as [(k & E1 & E2)|(k & -> & Eb)].
    { assert (k = []) as ->.
      { apply (f_equal length) in E1. rewrite !length_app in E1. change (length crlf) with 2%nat in E1. apply nil_length_inv. lia. }
      rewrite app_nil_r in E1. rewrite <- E1. cbn in E2. rewrite E2 in Hq.
      rewrite <- (app_nil_r (line ++ crlf)), <- app_assoc. unfold line. cbn [app]. rewrite item_of_line by done.
      destruct r as [| | |text|]; cbn [body_of] in Hq; try done. destruct (Z.ltb_spec (len (@nil byte)) (len text + 2)) as [|Hl]; [done|].
      pose proof (len_nonneg text). change (len (@nil byte)) with 0 in Hl. lia. }
    rewrite <- app_assoc. unfold line. cbn [app]. rewrite item_of_line by done.
    destruct r as [| | |text|]; cbn [body_of] in Eb; try (symmetry in Eb; by apply app_nil in Eb as [_ ->]).
    apply (f_equal len) in Eb. rewrite !len_app in Eb. change (len crlf) with 2 in Eb.
    assert (0 < len q) by (destruct q; [done|]; unfold len; cbn; lia). destruct (Z.ltb_spec (len k) (len text + 2)); [done|lia].
  - unfold reply_item. rewrite drop_0, find_crlf_none; [done|].
    assert (p = take (length p) (line ++ [CR])) as ->.
    { rewrite <- (take_app_length p q) at 1. rewrite <- E. change (crlf ++ body_of r) with ([CR] ++ LF :: body_of r).
      rewrite app_assoc. apply take_app_le. rewrite length_app. change (length [CR]) with 1%nat. lia. }
    apply Forall_take, Forall_app. split; [eapply Forall_impl; [exact Hline|]; by intros ? []|]. by repeat constructor.
Qed.

(** ** The network *)

(** The answers of [recv] that deliver [stream], in any pieces. *)
Definition delivers (script : list recv_result) (stream : bytes) : Prop :=
  concat (map delivered script) = stream /\
  Forall (fun r => match r with received data => data <> [] | recv_interrupted => True | recv_error => False end) script.

Definition load (script : list recv_result) (stream : bytes) : nat := (length script + 2 * length stream)%nat.

Lemma receive_delivers script : forall stream n, delivers script stream -> stream <> [] ->
  exists c rest script', receive_loop script 4096 n = (Got c, set_recvs script' n) /\
    c <> [] /\ stream = c ++ rest /\ delivers script' rest /\ (length script' <= length script)%nat.
Proof.
  induction script as [|r script IH]; intros stream n [E Hall] Hne; [by cbn in E; subst|].
  inversion Hall as [|? ? Hr Hall']; subst. destruct r as [data| |]; [| |done].
  2:{ apply (IH _ n) in Hne; [|by split].
    destruct Hne as (c & rest & script' & E & H1 & H2 & H3 & H4). exists c, rest, script'. cbn [receive_loop]. split_and!; try done. cbn. lia. }
  cbn [receive_loop map concat delivered]. set (k := Z.to_nat 4096). assert (0 < k)%nat as Hk by (unfold k; lia). clearbody k.
  assert (take k data <> []) as Hc by (destruct data, k; [done..|lia|done]). rewrite bool_decide_false by done.
  destruct (bool_decide_reflect (drop k data = [])) as [Ed|Hd].
  - exists (take k data), (concat (map delivered script)), script. split_and!; try done; [|cbn; lia].
    f_equal. rewrite <- (take_drop k data) at 1. by rewrite Ed, app_nil_r.
  - exists (take k data), (drop k data ++ concat (map delivered script)), (received (drop k data) :: script).
    split_and!; try done; [by rewrite app_assoc, take_drop|split; [done|by constructor]].
Qed.

Lemma load_less script stream script' c rest :
  c <> [] -> stream = c ++ rest -> (length script' <= length script)%nat -> (load script' rest + length c + 1 <= load script stream)%nat.
Proof. intros Hc -> Hl. unfold load. rewrite length_app. destruct c; [done|]. cbn [length]. lia. Qed.

Lemma receive_wp n stream (Q : expected bytes -> Net -> Prop) E :
  delivers (recvs n) stream -> stream <> [] ->
  (forall c rest script', c <> [] -> stream = c ++ rest -> delivers script' rest ->
     (load script' rest + length c + 1 <= load (recvs n) stream)%nat -> Q (Got c) (set_recvs script' n)) ->
  wp (receive 4096) Q E n.
Proof.
  intros Hd Hne HQ. destruct (receive_delivers _ _ n Hd Hne) as (c & rest & script' & Er & Hc & Es & Hd' & Hl).
  unfold wp, receive. change (int_max <? 4096) with false. cbn iota. rewrite Er. apply (HQ c rest); try done. by eapply load_less.
Qed.

(** Reading the rest of a reply of which [p] is there. *)
Lemma read_reply_wp fuel : forall r p q n, reply_ok r -> len (encode_reply r) <= reply_limit -> encode_reply r = p ++ q ->
  delivers (recvs n) q -> (load (recvs n) q + 1 < fuel)%nat ->
  wp (read_reply fuel p 0 1)
    (fun x n' => x = Some (Got (encode_reply r)) /\ wire n' = wire n /\ handle_ n' = handle_ n) (fun _ _ => False) n.
Proof.
  induction fuel as [|fuel IH]; intros r p q n Hr Hlim E Hd Hfuel; [lia|]. cbn [read_reply].
  change (1 =? 0) with false. cbn iota. destruct q as [|x q].
  - rewrite app_nil_r in E. subst p. rewrite item_whole by done. change (reply_limit <? 1 - 1 + 0) with false. cbn iota.
    destruct fuel as [|fuel]; [lia|]. cbn [read_reply]. change (1 - 1 + 0 =? 0) with true. cbn iota. rewrite Nat.eqb_refl. cbn [negb]. by wp_steps.
  - rewrite (item_prefix r p (x :: q)) by done. wp_steps. eapply receive_wp; [exact Hd|done|].
    intros c rest script' Hc Es Hd' Hload. rewrite Es in E. rewrite E in Hlim. rewrite !len_app in Hlim.
    pose proof (len_nonneg rest). destruct (Z.ltb_spec reply_limit (len p + len c)); [lia|].
    eapply wp_mono; [apply (IH r (p ++ c) rest (set_recvs script' n)); try done|done|done].
    + rewrite E, !len_app. lia.
    + by rewrite <- app_assoc.
    + cbn [set_recvs recvs]. lia.
Qed.

(** The answers of [send] that take [size] bytes. *)
Fixpoint accepts (script : list send_result) (size : Z) : bool :=
  (size <=? 0) ||
  match script with
  | sent count :: script => (0 <? count) && accepts script (size - count)
  | send_interrupted :: script => accepts script size
  | _ => false
  end.

Lemma send_loop_accepts script : forall rest n, accepts script (len rest) = true ->
  exists script', send_loop script rest n = (Got tt, mkNet (handle_ n) script' (recvs n) (wire n ++ rest)).
Proof.
  induction script as [|r script IH]; intros rest n Ha; cbn [send_loop]; destruct (bool_decide_reflect (rest = [])) as [->|Hne];
    try (rewrite app_nil_r; destruct n; by eexists).
  - exfalso. cbn [accepts] in Ha. rewrite orb_false_r in Ha. apply Z.leb_le in Ha. destruct rest as [|x rest]; [done|].
    rewrite len_cons in Ha. pose proof (len_nonneg rest). lia.
  - assert (0 < len rest) as Hp by (destruct rest as [|x rest]; [done|]; rewrite len_cons; pose proof (len_nonneg rest); lia).
    cbn [accepts] in Ha. destruct (Z.leb_spec (len rest) 0); [lia|]. cbn [orb] in Ha. destruct r as [count| |]; [|by apply IH|done].
    apply andb_prop in Ha as [Hc Ha]. apply Z.ltb_lt in Hc. destruct (Z.leb_spec count 0); [lia|].
    set (k := Z.to_nat (Z.min count (len rest))). destruct (IH (drop k rest) (put_wire (take k rest) n)) as [script' Es].
    { unfold len in *. rewrite length_drop. destruct (Z.le_gt_cases (Z.of_nat (length rest)) count) as [Hle|Hgt].
      - replace (Z.of_nat (length rest - k)) with 0 by lia. destruct script; done.
      - replace (Z.of_nat (length rest - k)) with (Z.of_nat (length rest) - count) by lia. done. }
    exists script'. rewrite Es. cbn [put_wire handle_ recvs wire]. by rewrite <- app_assoc, take_drop.
Qed.

(** ** Every call ends *)

Definition ahead (script : list recv_result) : nat := load script (concat (map delivered script)).

Lemma receive_any script : forall n,
  match receive_loop script 4096 n with
  | (Got c, n') => (ahead (recvs n') + length c + 1 <= ahead script)%nat
  | (Failed _, _) => True
  end.
Proof.
  induction script as [|r script IH]; intros n; [done|]. destruct r as [data| |]; cbn [receive_loop]; [|  |done].
  2:{ specialize (IH n). destruct (receive_loop script 4096 n) as [[c|m] n']; [|done]. unfold ahead, load in *. cbn [length map concat delivered app] in *. lia. }
  set (k := Z.to_nat 4096). clearbody k. destruct (bool_decide_reflect (take k data = [])) as [|Hc]; [done|].
  cbn [set_recvs recvs]. pose proof (f_equal length (take_drop k data)) as El. rewrite length_app in El.
  assert (0 < length (take k data))%nat by (destruct (take k data); [done|cbn; lia]).
  destruct (bool_decide_reflect (drop k data = [])) as [Ed|Hd]; unfold ahead, load; cbn [length map concat delivered]; rewrite !length_app; [|lia].
  rewrite Ed in El. cbn in El. lia.
Qed.

Lemma item_bounds response position next added :
  reply_item response position = item_to next added -> (position + 2 <= next <= length response)%nat /\ 0 <= added.
Proof.
  unfold reply_item. destruct (find_crlf (drop position response)) as [k|] eqn:Ek; [|done]. apply find_crlf_bound in Ek.
  rewrite length_drop in Ek. repeat case_match; try done; intros [= <- <-]; split; try lia;
    repeat match goal with H : Z.ltb _ _ = false |- _ => apply Z.ltb_ge in H | H : andb _ _ = true |- _ => apply andb_prop in H as [? H] end; try lia.
  all: repeat match goal with H : Z.ltb _ _ = true |- _ => apply Z.ltb_lt in H end; lia.
Qed.

Lemma fail_total {T} message n : exists r n', @fail_with T message n = (inr r, n').
Proof. by eexists _, _. Qed.

Lemma read_reply_total fuel : forall response position pending n,
  (position <= length response)%nat -> 0 <= pending -> (ahead (recvs n) + (length response - position) < fuel)%nat ->
  exists r n', read_reply fuel response position pending n = (inr (Some r), n').
Proof.
  induction fuel as [|fuel IH]; intros response position pending n Hpos Hpend Hfuel; [lia|]. cbn [read_reply].
  destruct (pending =? 0) eqn:Ep; [destruct (negb _); by eexists _, _|].
  destruct (reply_item response position) as [m| |next added] eqn:Ei; [by eexists _, _| |].
  - unfold bind, receive. change (int_max <? 4096) with false. cbn iota. pose proof (receive_any (recvs n) n) as Hrec.
    destruct (receive_loop (recvs n) 4096 n) as [[c|m] n']; [|by eexists _, _].
    destruct (reply_limit <? len response + len c); [by eexists _, _|]. apply IH; [rewrite length_app; lia|done|].
    rewrite length_app. lia.
  - apply item_bounds in Ei as [Hnext Hadd]. apply Z.eqb_neq in Ep. destruct (reply_limit <? pending - 1 + added); [by eexists _, _|].
    apply IH; lia.
Qed.

(** ** Results *)

(** C16: the client gets the reply the server wrote.  Whatever pieces the
    network delivers the request and the reply in, and however often its calls
    are interrupted, [Client::execute] sends exactly the request and returns
    exactly the reply, without waiting for anything after it. *)
Theorem client_exchange command r n :
  reply_ok r -> len (encode_reply r) <= reply_limit -> delivers (recvs n) (encode_reply r) ->
  len (encode_request command) <= int_max -> accepts (sends n) (len (encode_request command)) = true ->
  exists n', execute command n = (inr (Some (Got (encode_reply r))), n') /\
    wire n' = wire n ++ encode_request command /\ handle_ n' = handle_ n.
Proof.
  intros Hr Hlim Hd Hs Ha. unfold execute, bind, send. destruct (Z.ltb_spec int_max (len (encode_request command))); [lia|].
  destruct (send_loop_accepts _ _ n Ha) as [script' ->]. unfold get. set (n1 := mkNet _ _ _ _).
  destruct Hd as [Es Hall].
  pose proof (read_reply_wp (read_rounds n1) r [] (encode_reply r) n1 Hr Hlim eq_refl (conj Es Hall)) as Hw.
  assert (load (recvs n1) (encode_reply r) + 1 < read_rounds n1)%nat as Hf by (unfold read_rounds, load; cbn [n1 recvs]; rewrite Es; lia).
  destruct (wp_total _ _ _ (Hw Hf)) as (x & n' & E & -> & Hwire & Hh). exists n'. by split_and!.
Qed.


(** ** Example *)

Definition sample_net : Net :=
  mkNet 3 [sent 5; send_interrupted; sent 1000]
    [received (of_str "$5"); recv_interrupted; received (crlf ++ of_str "ab"); received (crlf ++ of_str "c" ++ crlf)] [].

Lemma client_exchange_witness : exists n',
  execute [of_str "GET"; of_str "k"] sample_net = (inr (Some (Got (encode_reply (RBulk (of_str "ab" ++ crlf ++ of_str "c"))))), n').
Proof.
  destruct (client_exchange [of_str "GET"; of_str "k"] (RBulk (of_str "ab" ++ crlf ++ of_str "c")) sample_net) as (n' & E & _).
  - vm_compute. discriminate.
  - vm_compute. discriminate.
  - split; [reflexivity|]. repeat constructor; discriminate.
  - vm_compute. discriminate.
  - vm_compute. reflexivity.
  - exists n'. exact E.
Defined.
