(* ===== verification/Pack.v ===== *)
(** * Pack: the packed element encoding

    [src/pack.hpp] and [src/pack.cpp]: the byte encoding of list and hash
    elements.  A [char *] that is written through becomes the list of bytes
    written, a [const char *] that is read becomes the list of bytes from
    that address on, and a read past the end of the buffer is [None].  The
    element helpers of [database.cpp] that choose between the text and the
    integer overloads are here too.  The theorems: decoding inverts
    encoding, every size function agrees with the bytes written, and the
    trailing length lets a run of elements be walked from its end. *)

From S2P Require Import Prelude.
From Stdlib Require Import Strings.Byte.

(** ** Data *)

Inductive Kind := kind_string | kind_integer.

Record Element := mkElement {
  elem_kind : Kind;
  elem_text : bytes;
  elem_integer : Z
}.

Definition is_integer_element (e : Element) : bool :=
  match elem_kind e with kind_integer => true | kind_string => false end.

Definition max_string_header : Z := 5.
Definition integer_tag : Z := 128.
Definition long_string_tag : Z := 192.

(** ** Loads and stores *)

(** [load_u32]: four bytes, little-endian on every host. *)
Definition load_u32 (p : bytes) : option Z :=
  if (length p <? 4)%nat then None else Some (le_value (take 4 p)).

Definition store_u32 (value : Z) : bytes := le_bytes 4 value.

Definition load_u64 (p : bytes) : option Z :=
  if (length p <? 8)%nat then None else Some (le_value (take 8 p)).

Definition store_u64 (value : Z) : bytes := le_bytes 8 value.

Definition header_and_payload (p : bytes) : option Z :=
  match p with
  | [] => None
  | b :: rest =>
      let tag := b2z b in
      if Z.land tag 128 =? 0 then Some (1 + Z.land tag 127)
      else if Z.land tag 192 =? integer_tag then Some (1 + 8)
      else n ← load_u32 rest; Some (max_string_header + n)
  end.

(** ** Sizes *)

Definition backlen_bytes (size : Z) : Z :=
  if size <=? 127 then 1
  else if size <? 16384 then 2
  else if size <? 2097152 then 3
  else if size <? 268435456 then 4
  else 5.

Definition body_size_text (text : bytes) : Z :=
  (if len text <=? 127 then 1 else max_string_header) + len text.

Definition body_size_int (value : Z) : Z := 1 + 8.

Definition encoded_size_text (text : bytes) : Z :=
  let header := if len text <=? 127 then 1 else max_string_header in
  let body := header + len text in
  body + backlen_bytes body.

Definition encoded_size_int (value : Z) : Z :=
  let body := 1 + 8 in body + backlen_bytes body.

(** ** Encoding *)

Definition encode_backlen (size : Z) : bytes :=
  let low k := z2b (Z.lor (Z.land (Z.shiftr size k) 127) 128) in
  if size <=? 127 then [z2b size]
  else if size <? 16384 then [z2b (Z.shiftr size 7); low 0]
  else if size <? 2097152 then [z2b (Z.shiftr size 14); low 7; low 0]
  else if size <? 268435456 then [z2b (Z.shiftr size 21); low 14; low 7; low 0]
  else [z2b (Z.shiftr size 28); low 21; low 14; low 7; low 0].

Definition encode_body_text (text : bytes) : bytes :=
  (if len text <=? 127
   then [z2b (len text)]
   else z2b long_string_tag :: store_u32 (u32 (len text))) ++ text.

Definition encode_body_int (value : Z) : bytes :=
  z2b integer_tag :: store_u64 (u64 value).

Definition encode_text (text : bytes) : bytes :=
  let header := if len text <=? 127
                then [z2b (len text)]
                else z2b long_string_tag :: store_u32 (u32 (len text)) in
  let cursor := header ++ text in
  let body := len cursor in
  cursor ++ encode_backlen body.

Definition encode_int (value : Z) : bytes :=
  let body := 1 + 8 in
  (z2b integer_tag :: store_u64 (u64 value)) ++ encode_backlen body.

(** ** Decoding *)

Definition element_size (p : bytes) : option Z := header_and_payload p.

Definition stride (p : bytes) : option Z :=
  body ← header_and_payload p; Some (body + backlen_bytes body).

(** The loop of [decode_backlen]: [l] is what precedes the cursor, nearest
    byte first. *)
Fixpoint decode_backlen_loop (l : bytes) (value shift : Z) : option Z :=
  match l with
  | [] => None
  | b :: t =>
      let byte := b2z b in
      let value := Z.lor value (u64 (Z.shiftl (Z.land byte 127) shift)) in
      if Z.land byte 128 =? 0 then Some value
      else decode_backlen_loop t value (shift + 7)
  end.

(** [decode_backlen(end)], given the bytes before [end]. *)
Definition decode_backlen (before : bytes) : option Z :=
  decode_backlen_loop (reverse before) 0 0.

(** A view of [n] bytes; [None] when it leaves the buffer. *)
Definition view (p : bytes) (n : Z) : option bytes :=
  if len p <? n then None else Some (take (Z.to_nat n) p).

Definition decode (p : bytes) : option Element :=
  match p with
  | [] => None
  | b :: rest =>
      let tag := b2z b in
      if Z.land tag 128 =? 0 then
        t ← view rest (Z.land tag 127); Some (mkElement kind_string t 0)
      else if Z.land tag 192 =? integer_tag then
        n ← load_u64 rest; Some (mkElement kind_integer [] (i64 n))
      else
        n ← load_u32 rest;
        t ← view (drop 4 rest) n; Some (mkElement kind_string t 0)
  end.

(** ** Elements of the database *)

(** [Value] of [database.hpp]. *)
Inductive Value :=
| VString (text : bytes)
| VInteger (n : Z).

#[global] Instance Value_eq_dec : EqDecision Value.
Proof. solve_decision. Defined.

Record ElementInput := mkInput {
  is_integer : bool;
  integer : Z;
  text : bytes
}.

(** [ElementInput::from]. *)
Definition input_from (value : Value) : ElementInput :=
  match value with
  | VInteger n => mkInput true n []
  | VString t => mkInput false 0 t
  end.

Definition text_input (t : bytes) : ElementInput := mkInput false 0 t.

Definition input_size (value : ElementInput) (with_backlen : bool) : Z :=
  if is_integer value
  then if with_backlen then encoded_size_int (integer value) else body_size_int (integer value)
  else if with_backlen then encoded_size_text (text value) else body_size_text (text value).

Definition write_element (value : ElementInput) (with_backlen : bool) : bytes :=
  if is_integer value
  then if with_backlen then encode_int (integer value) else encode_body_int (integer value)
  else if with_backlen then encode_text (text value) else encode_body_text (text value).

Definition element_to_value (e : Element) : Value :=
  if is_integer_element e then VInteger (elem_integer e) else VString (elem_text e).

Example encode_examples :
  decode (encode_text (of_str "abc") ++ [x00]) = Some (mkElement kind_string (of_str "abc") 0) /\
  decode (encode_int (-7)) = Some (mkElement kind_integer [] (-7)) /\
  stride (encode_text (replicate 200 x61)) = Some 207 /\
  decode_backlen (encode_text (replicate 200 x61)) = Some 205.
Proof. vm_compute. done. Qed.

(** ** Tags and little-endian loads *)

Lemma land_127 n : Z.land n 127 = n mod 128.
Proof. change 127 with (Z.ones 7). by rewrite Z.land_ones by lia. Qed.

Lemma land_128_low n : 0 <= n < 128 -> Z.land n 128 = 0.
Proof.
  intros Hn. change 128 with (Z.shiftl 1 7).
  apply Z.bits_inj'; intros i Hi. rewrite Z.land_spec, Z.bits_0.
  destruct (Z_lt_le_dec i 7).
  - rewrite Z.shiftl_spec_low by done. apply andb_false_r.
  - rewrite <- (Z.mod_small n (2 ^ 7)), Z.mod_pow2_bits_high by lia. done.
Qed.

Lemma lor_128 n : 0 <= n < 128 -> Z.lor n 128 = n + 128.
Proof.
  intros Hn. change (Z.lor n 128) with (Z.lor n (Z.shiftl 1 7)).
  by rewrite lor_shiftl_add by lia.
Qed.

Lemma land_128_high n : 0 <= n < 128 -> Z.land (n + 128) 128 = 128.
Proof.
  intros Hn. rewrite <- lor_128, Z.land_lor_distr_l, land_128_low by done. done.
Qed.

Lemma store_load_u32 v rest : 0 <= v < 2 ^ 32 -> load_u32 (store_u32 v ++ rest) = Some v.
Proof.
  intros Hv. unfold load_u32, store_u32.
  destruct (Nat.ltb_spec (length (le_bytes 4 v ++ rest)) 4) as [H|_].
  { rewrite length_app, length_le_bytes in H. lia. }
  rewrite (take_app_length' (le_bytes 4 v) rest 4) by (by rewrite length_le_bytes).
  rewrite le_value_bytes. f_equal. apply Z.mod_small. done.
Qed.

Lemma store_load_u64 v rest : 0 <= v < 2 ^ 64 -> load_u64 (store_u64 v ++ rest) = Some v.
Proof.
  intros Hv. unfold load_u64, store_u64.
  destruct (Nat.ltb_spec (length (le_bytes 8 v ++ rest)) 8) as [H|_].
  { rewrite length_app, length_le_bytes in H. lia. }
  rewrite (take_app_length' (le_bytes 8 v) rest 8) by (by rewrite length_le_bytes).
  rewrite le_value_bytes. f_equal. apply Z.mod_small. done.
Qed.

Lemma view_app l rest : view (l ++ rest) (len l) = Some l.
Proof.
  unfold view. rewrite len_app. pose proof (len_nonneg rest).
  destruct (Z.ltb_spec (len l + len rest) (len l)); [lia|].
  unfold len. by rewrite Nat2Z.id, take_app_length.
Qed.

(** ** The trailing length *)

(** A continuation byte adds the next seven bits. *)
Lemma backlen_low size k t :
  0 <= size -> 0 <= k <= 49 ->
  decode_backlen_loop (z2b (Z.lor (Z.land (Z.shiftr size k) 127) 128) :: t) (size mod 2 ^ k) k
  = decode_backlen_loop t (size mod 2 ^ (k + 7)) (k + 7).
Proof.
  intros Hs Hk. cbn [decode_backlen_loop].
  pose proof (Z.mod_pos_bound (size / 2 ^ k) 128 ltac:(lia)) as Hm.
  pose proof (Z.pow_pos_nonneg 2 k ltac:(lia) ltac:(lia)) as Hp.
  rewrite Z.shiftr_div_pow2, land_127, lor_128 by lia.
  rewrite b2z_z2b, (Z.mod_small (_ + 128)) by lia.
  rewrite land_128_high by done. simpl Z.eqb. cbn iota.
  rewrite land_127. replace (((size / 2 ^ k) mod 128 + 128) mod 128) with ((size / 2 ^ k) mod 128).
  2: { rewrite <- (Z.mul_1_l 128) at 3. by rewrite Z.mod_add, Z.mod_mod by lia. }
  rewrite u64_byte by lia.
  rewrite lor_shiftl_add by (try apply Z.mod_pos_bound; lia).
  f_equal. rewrite Z.pow_add_r, Z.rem_mul_r by lia. change (2 ^ 7) with 128. lia.
Qed.

(** The leading byte ends the scan. *)
Lemma backlen_top size k t :
  0 <= size < 2 ^ (k + 7) -> 0 <= k <= 49 ->
  decode_backlen_loop (z2b (Z.shiftr size k) :: t) (size mod 2 ^ k) k = Some size.
Proof.
  intros Hs Hk. cbn [decode_backlen_loop].
  pose proof (Z.pow_pos_nonneg 2 k ltac:(lia) ltac:(lia)) as Hp.
  rewrite Z.pow_add_r in Hs by lia. change (2 ^ 7) with 128 in Hs.
  assert (0 <= size / 2 ^ k < 128) as Hd.
  { split; [apply Z.div_pos; lia|apply Z.div_lt_upper_bound; lia]. }
  rewrite Z.shiftr_div_pow2, b2z_z2b, (Z.mod_small _ 256) by lia.
  rewrite land_128_low by done. simpl Z.eqb. cbn iota.
  rewrite land_127, (Z.mod_small _ 128), u64_byte by lia.
  rewrite lor_shiftl_add by (try apply Z.mod_pos_bound; lia).
  f_equal. pose proof (Z.div_mod size (2 ^ k) ltac:(lia)). lia.
Qed.

Lemma decode_backlen_app before size :
  0 <= size < 2 ^ 35 -> decode_backlen (before ++ encode_backlen size) = Some size.
Proof.
  intros Hs. unfold decode_backlen. rewrite reverse_app.
  pose proof (backlen_top size) as Top. pose proof (backlen_low size) as Low.
  assert (forall k, decode_backlen_loop k 0 0 = decode_backlen_loop k (size mod 2 ^ 0) 0) as Hz
    by (intros; by rewrite Z.mod_1_r).
  unfold encode_backlen.
  destruct (Z.leb_spec size 127); [|destruct (Z.ltb_spec size 16384);
    [|destruct (Z.ltb_spec size 2097152); [|destruct (Z.ltb_spec size 268435456)]]];
    rewrite Hz; cbn [reverse rev_append app].
  all: rewrite ?Low by lia; cbn [Z.add Pos.add Pos.succ].
  - replace size with (Z.shiftr size 0) at 1 by apply Z.shiftr_0_r. apply Top; [simpl; lia|lia].
  - apply (Top 7); simpl; lia.
  - apply (Top 14); simpl; lia.
  - apply (Top 21); simpl; lia.
  - apply (Top 28); simpl; lia.
Qed.

Lemma len_encode_backlen size : len (encode_backlen size) = backlen_bytes size.
Proof. unfold encode_backlen, backlen_bytes. by zcases. Qed.

(** ** One element *)

(** The value an input stands for, and the inputs the encoding can hold. *)
Definition input_value (v : ElementInput) : Value :=
  if is_integer v then VInteger (integer v) else VString (text v).

Definition encodable (v : Value) : Prop :=
  match v with
  | VString t => len t <= uint32_max
  | VInteger n => is_int64 n
  end.

Lemma input_value_from v : input_value (input_from v) = v.
Proof. by destruct v. Qed.

(** The listpack form is the body followed by its length. *)
Lemma write_element_backlen v :
  write_element v true =
  write_element v false ++ encode_backlen (len (write_element v false)).
Proof. by destruct v as [[] n t]. Qed.

Lemma header_text t rest :
  len t <= uint32_max ->
  header_and_payload (encode_body_text t ++ rest) = Some (body_size_text t) /\
  decode (encode_body_text t ++ rest) = Some (mkElement kind_string t 0) /\
  len (encode_body_text t) = body_size_text t.
Proof.
  unfold uint32_max. intros Ht. pose proof (len_nonneg t).
  unfold encode_body_text, body_size_text. destruct (Z.leb_spec (len t) 127).
  - cbn [app header_and_payload decode]. rewrite b2z_z2b, (Z.mod_small _ 256) by lia.
    rewrite land_128_low by lia. simpl Z.eqb. cbn iota.
    rewrite land_127, Z.mod_small by lia. rewrite view_app.
    split_and!; [done|done|by rewrite len_cons].
  - rewrite <- app_assoc. cbn [app header_and_payload decode].
    rewrite b2z_z2b. change (long_string_tag mod 256) with 192.
    change (Z.land 192 128 =? 0) with false. change (Z.land 192 192 =? integer_tag) with false.
    cbn iota. rewrite store_load_u32 by apply u32_range. rewrite u32_small by lia.
    cbn [mbind option_bind]. unfold store_u32.
    rewrite drop_app_length' by (by rewrite length_le_bytes). rewrite view_app.
    split_and!; [done|done|]. rewrite len_cons, len_app. unfold len at 1.
    rewrite length_le_bytes. unfold max_string_header. lia.
Qed.

Lemma header_int n rest :
  is_int64 n ->
  header_and_payload (encode_body_int n ++ rest) = Some (body_size_int n) /\
  decode (encode_body_int n ++ rest) = Some (mkElement kind_integer [] n) /\
  len (encode_body_int n) = body_size_int n.
Proof.
  intros Hn. unfold encode_body_int, body_size_int. cbn [app header_and_payload decode].
  rewrite b2z_z2b. change (integer_tag mod 256) with 128.
  change (Z.land 128 128 =? 0) with false. change (Z.land 128 192 =? integer_tag) with true.
  cbn iota. rewrite store_load_u64 by apply u64_range. cbn [mbind option_bind].
  rewrite i64_u64 by done. split_and!; [done|done|].
  rewrite len_cons. unfold store_u64, len. by rewrite length_le_bytes.
Qed.

(** What the rest of the program needs of the encoding, for one element in
    its short form (hash fields and values) followed by anything. *)
Lemma element_body v rest :
  encodable (input_value v) ->
  element_size (write_element v false ++ rest) = Some (len (write_element v false)) /\
  option_map element_to_value (decode (write_element v false ++ rest)) = Some (input_value v) /\
  len (write_element v false) = input_size v false.
Proof.
  destruct v as [[] n t]; unfold input_value, write_element, input_size;
    cbn [is_integer integer text encodable]; intros Hv.
  - destruct (header_int n rest Hv) as (H1 & H2 & H3). unfold element_size.
    rewrite H1, H2, H3. done.
  - destruct (header_text t rest Hv) as (H1 & H2 & H3). unfold element_size.
    rewrite H1, H2, H3. done.
Qed.

(** A string field decodes to a string element with that very text. *)
Lemma decode_text_body t rest :
  len t <= uint32_max ->
  decode (encode_body_text t ++ rest) = Some (mkElement kind_string t 0).
Proof. intros Ht. by destruct (header_text t rest Ht) as (_ & H & _). Qed.

(** The same for the form with a trailing length (list elements). *)
Lemma element_full v rest :
  encodable (input_value v) ->
  stride (write_element v true ++ rest) = Some (len (write_element v true)) /\
  option_map element_to_value (decode (write_element v true ++ rest)) = Some (input_value v) /\
  len (write_element v true) = input_size v true.
Proof.
  intros Hv. rewrite write_element_backlen, <- app_assoc.
  destruct (element_body v (encode_backlen (len (write_element v false)) ++ rest) Hv)
    as (H1 & H2 & H3).
  unfold element_size in H1. unfold stride. rewrite H1, H2. cbn [mbind option_bind].
  rewrite len_app, len_encode_backlen, H3. split_and!; [done|done|].
  by destruct v as [[] n t].
Qed.

Lemma body_bounds v : encodable (input_value v) -> 0 < len (write_element v false) < 2 ^ 35.
Proof.
  intros Hv. destruct (element_body v [] Hv) as (_ & _ & ->).
  destruct v as [[] n t]; cbn in *; [done|]. unfold body_size_text, uint32_max in *.
  pose proof (len_nonneg t). unfold max_string_header. zcases; lia.
Qed.

(** From the end of a run the last element is found through its length. *)
Lemma element_from_end before v :
  encodable (input_value v) ->
  decode_backlen (before ++ write_element v true) = Some (len (write_element v false)) /\
  len (write_element v true) =
    len (write_element v false) + backlen_bytes (len (write_element v false)).
Proof.
  intros Hv. pose proof (body_bounds v Hv). rewrite write_element_backlen, app_assoc.
  rewrite decode_backlen_app by lia. by rewrite len_app, len_encode_backlen.
Qed.

(** ** Properties *)

(** C38: decoding an element that was encoded gives its value back, whatever
    bytes follow; the step to the next element and every precomputed size
    equal the number of bytes written; integers keep all 64 bits. *)
Theorem pack_roundtrip (v : ElementInput) (with_backlen : bool) (rest : bytes) :
  encodable (input_value v) ->
  let p := write_element v with_backlen ++ rest in
  option_map element_to_value (decode p) = Some (input_value v) /\
  (if with_backlen then stride p else element_size p) = Some (input_size v with_backlen) /\
  len (write_element v with_backlen) = input_size v with_backlen.
Proof.
  intros Hv p. subst p. destruct with_backlen.
  - destruct (element_full v rest Hv) as (-> & -> & ->). done.
  - destruct (element_body v rest Hv) as (-> & -> & ->). done.
Qed.

Lemma pack_roundtrip_witness :
  option_map element_to_value (decode (write_element (input_from (VInteger (-9))) true ++ [x00]))
    = Some (VInteger (-9)).
Proof.
  assert (encodable (input_value (input_from (VInteger (-9))))) as H
    by (vm_compute; split; discriminate).
  exact (proj1 (pack_roundtrip (input_from (VInteger (-9))) true [x00] H)).
Defined.

(** Reading backwards from the end of a non-empty run of list elements,
    the trailing length leads to the first byte of the last element, which
    decodes to its value. *)
Theorem pack_backward_step (before : bytes) (v : ElementInput) :
  encodable (input_value v) ->
  exists payload,
    decode_backlen (before ++ write_element v true) = Some payload /\
    let full := payload + backlen_bytes payload in
    let run := before ++ write_element v true in
    full = input_size v true /\
    take (Z.to_nat (len run - full)) run = before /\
    option_map element_to_value (decode (drop (Z.to_nat (len run - full)) run)) = Some (input_value v).
Proof.
  intros Hv. destruct (element_from_end before v Hv) as [H1 H2].
  destruct (element_full v [] Hv) as (_ & H3 & H4). rewrite app_nil_r in H3.
  exists (len (write_element v false)). split; [done|]. cbv zeta. rewrite <- H2.
  rewrite len_app, Z.add_simpl_r. unfold len at 2 3. rewrite Nat2Z.id.
  split_and!; [done|apply take_app_length|by rewrite drop_app_length].
Qed.

Lemma pack_backward_step_witness :
  encodable (VString (replicate 150 x41)) /\
  exists payload,
    decode_backlen (of_str "xy" ++ write_element (text_input (replicate 150 x41)) true) = Some payload.
Proof.
  assert (encodable (input_value (text_input (replicate 150 x41)))) as H by (vm_compute; discriminate).
  split; [exact H|]. destruct (pack_backward_step (of_str "xy") _ H) as (p & Hp & _).
  exists p. exact Hp.
Defined.
