(* ===== verification/WalCodec.v ===== *)
(** * WalCodec: records of the write-ahead log

    The format half of [src/wal.hpp] and [src/wal.cpp]: operation codes, the
    table-driven CRC, the layout of a record as [Wal::append] builds it and
    the recovery scan.  The replay callback is a parameter: any function on
    any state.  The theorems: the CRC is the bitwise one; recovering a log
    replays exactly the records appended to it; a log cut anywhere after
    its header replays exactly its complete records and reports where they
    end. *)

From S2P Require Import Prelude Errors.
From Stdlib Require Import Strings.Byte.

(** ** Operations *)

Inductive WalOp :=
| op_set | op_increment | op_push_left | op_push_right | op_pop_left | op_pop_right
| op_hash_set | op_hash_del | op_expire_at | op_del | op_integer_set
| op_other (code : Z).   (** a byte that is no enumerator *)

#[global] Instance WalOp_eq_dec : EqDecision WalOp.
Proof. solve_decision. Defined.

Definition op_code (op : WalOp) : Z :=
  match op with
  | op_set => 0 | op_increment => 1 | op_push_left => 2 | op_push_right => 3
  | op_pop_left => 4 | op_pop_right => 5 | op_hash_set => 6 | op_hash_del => 7
  | op_expire_at => 8 | op_del => 9 | op_integer_set => 10
  | op_other c => c
  end.

(** [static_cast<WalOp>(static_cast<unsigned char>(c))]. *)
Definition op_of_byte (c : byte) : WalOp :=
  match b2z c with
  | 0 => op_set | 1 => op_increment | 2 => op_push_left | 3 => op_push_right
  | 4 => op_pop_left | 5 => op_pop_right | 6 => op_hash_set | 7 => op_hash_del
  | 8 => op_expire_at | 9 => op_del | 10 => op_integer_set
  | n => op_other n
  end.

Definition magic : bytes := of_str "RDWAL001".
Definition max_record : Z := 128 * 1024 * 1024.

(** ** Checksum *)

Definition crc_shift (c : Z) : Z :=
  Z.lxor (Z.shiftr c 1) (if Z.land c 1 =? 0 then 0 else 3988292384).

Definition crc_table : list Z := map (fun i => Nat.iter 8 crc_shift i) (seqZ 0 256).

Definition crc_update (c : Z) (ch : byte) : Z :=
  Z.lxor (nth (Z.to_nat (Z.land (Z.lxor c (b2z ch)) 255)) crc_table 0) (Z.shiftr c 8).

(** [~c] on 32 bits. *)
Definition not32 (c : Z) : Z := Z.lxor c uint32_max.

Definition crc (data : bytes) : Z := not32 (fold_left crc_update data (not32 0)).

(** ** Integers in records *)

Definition put32 (n : Z) : bytes := map (fun i => z2b (Z.shiftr n (8 * i))) [0; 1; 2; 3].

(** [get32]: the caller guarantees four bytes. *)
Definition get32 (p : bytes) : Z :=
  fold_left (fun n i => Z.lor n (Z.shiftl (b2z (nth (Z.to_nat i) p x00)) (8 * i))) [0; 1; 2; 3] 0.

(** ** Building a record *)

(** The size computation of [Wal::append]; [None] is [request_too_large]. *)
Fixpoint record_size (args : list bytes) (size : Z) : option Z :=
  match args with
  | [] => Some size
  | arg :: rest =>
      if (max_record - 4 <? len arg) || (max_record - len arg - 4 <? size) then None
      else record_size rest (size + (4 + len arg))
  end.

Definition put_args (args : list bytes) : bytes :=
  concat (map (fun arg => put32 (u32 (len arg)) ++ arg) args).

(** [buffer_[4 + i] = checksum >> (8 * i)] for [i < 4]. *)
Definition patch_checksum (buffer : bytes) (checksum : Z) : bytes :=
  fold_left (fun b (i : nat) => <[(4 + i)%nat := z2b (Z.shiftr checksum (8 * Z.of_nat i))]> b)
            [0; 1; 2; 3]%nat buffer.

(** The bytes that [append] hands to [fwrite]. *)
Definition build_record (op : WalOp) (args : list bytes) : Result bytes :=
  match record_size args 2 with
  | None => Unexpected request_too_large
  | Some size =>
      if (max_record <? size) || (255 <? len args) then Unexpected request_too_large else
      let buffer := put32 (u32 size) ++ put32 0 ++ z2b (op_code op) :: z2b (len args) :: put_args args in
      Ok (patch_checksum buffer (crc (drop 8 buffer)))
  end.

(** ** Recovery *)

(** The input stream: its bytes, and where a device error strikes, if it
    does.  A short read without such an error is the end of the file. *)
Record ifstream := mkStream {
  stream_data : bytes;          (** what is left to read *)
  stream_error : option nat     (** bytes left before a read error *)
}.

(** [read(buf, n)]: the bytes delivered, whether the stream is at its end,
    and the stream after. *)
Definition stream_read (s : ifstream) (n : nat) : bytes * bool * ifstream :=
  let limit := match stream_error s with
               | Some k => Nat.min k (length (stream_data s))
               | None => length (stream_data s)
               end in
  let got := Nat.min n limit in
  (take got (stream_data s),
   (got <? n)%nat && bool_decide (stream_error s = None),
   mkStream (drop got (stream_data s)) ((fun k => k - got)%nat <$> stream_error s)).

(** The argument loop of [recover], on what is left of the payload. *)
Fixpoint split_args (argc : nat) (payload : bytes) : option (list bytes * bytes) :=
  match argc with
  | O => Some ([], payload)
  | S k =>
      if (length payload <? 4)%nat then None else
      let n := get32 payload in
      let rest := drop 4 payload in
      if len rest <? n then None else
      '(args, rest') ← split_args k (drop (Z.to_nat n) rest);
      Some (take (Z.to_nat n) rest :: args, rest')
  end.

Section recover.

Context {St : Type}.

(** [Wal::Replay]: a callback that may throw. *)
Variable replay : WalOp -> list bytes -> St -> option exn * St.

(** How the scan ends: [throw], or the count of valid bytes and whether the
    tail was torn. *)
Inductive scan_end :=
| scan_throw (e : exn)
| scan_done (valid : Z) (torn : bool).

Definition read_failed : scan_end := scan_throw (exn_error disk_read_failed).

(** The record loop; [None] when the fuel runs out. *)
Fixpoint scan (fuel : nat) (input : ifstream) (valid : Z) (st : St) : option (scan_end * St) :=
  match fuel with
  | O => None
  | S fuel =>
      let '(header, eof, input) := stream_read input 8 in
      if bool_decide (header = []) && eof then Some (scan_done valid false, st) else
      if negb (length header =? 8)%nat then
        if eof then Some (scan_done valid true, st) else Some (read_failed, st)
      else
      let size := get32 header in
      let checksum := get32 (drop 4 header) in
      if (size <? 2) || (max_record <? size) then Some (read_failed, st) else
      let '(payload, eof, input) := stream_read input (Z.to_nat size) in
      if negb (len payload =? size) then
        if eof then Some (scan_done valid true, st) else Some (read_failed, st)
      else
      if negb (crc payload =? checksum) then Some (read_failed, st) else
      let op := op_of_byte (nth 0 payload x00) in
      let argc := Z.to_nat (b2z (nth 1 payload x00)) in
      match split_args argc (drop 2 payload) with
      | Some (args, []) =>
          match replay op args st with
          | (Some e, st) => Some (scan_throw e, st)
          | (None, st) => scan fuel input (valid + (8 + size)) st
          end
      | _ => Some (read_failed, st)
      end
  end.

(** [recover]: the outcome, the replayed state and the file afterwards (cut
    to its valid part when torn).  [None] is a file that does not exist.
    A record takes at least ten bytes, so the length of the file is more
    than enough rounds; the last branch is unreachable. *)
Definition recover (file : option bytes) (err : option nat) (st : St)
    : scan_end * St * option bytes :=
  match file with
  | None | Some [] => (scan_done 0 false, st, file)
  | Some content =>
      let '(header, _, input) := stream_read (mkStream content err) 8 in
      if negb (bool_decide (header = magic)) then (read_failed, st, file) else
      match scan (S (length content)) input 8 st with
      | Some (scan_done valid true, st) => (scan_done valid true, st, Some (take (Z.to_nat valid) content))
      | Some (e, st) => (e, st, file)
      | None => (read_failed, st, file)
      end
  end.

End recover.

Arguments scan {St} replay fuel input valid st.
Arguments recover {St} replay file err st.

Example crc_check : crc (of_str "123456789") = 3421780262.
Proof. vm_compute. reflexivity. Qed.

Example recover_two :
  match build_record op_set [of_str "k"; of_str "v"], build_record op_del [of_str "k"] with
  | Ok a, Ok b =>
      recover (fun op args st => (None, st ++ [(op, args)])) (Some (magic ++ a ++ b ++ [x01])) None []
      = (scan_done 43 true, [(op_set, [of_str "k"; of_str "v"]); (op_del, [of_str "k"])],
         Some (magic ++ a ++ b))
  | _, _ => False
  end.
Proof. vm_compute. reflexivity. Qed.

(** ** The checksum is the bitwise CRC-32 *)

(** Reference: shift the eight bits of every byte through the register. *)
Definition crc_bitwise (data : bytes) : Z :=
  not32 (fold_left (fun c ch => Nat.iter 8 crc_shift (Z.lxor c (b2z ch))) data (not32 0)).

Lemma land_1_odd c : (Z.land c 1 =? 0) = negb (Z.odd c).
Proof.
  change 1 with (Z.ones 1). rewrite Z.land_ones by lia. change (2 ^ 1) with 2.
  rewrite Zmod_odd. by destruct (Z.odd c).
Qed.

Lemma crc_shift_lxor a b : crc_shift (Z.lxor a b) = Z.lxor (crc_shift a) (crc_shift b).
Proof.
  unfold crc_shift. rewrite !land_1_odd, Z.shiftr_lxor.
  rewrite <- !Z.bit0_odd, Z.lxor_spec.
  destruct (Z.testbit a 0), (Z.testbit b 0); simpl xorb; simpl negb; cbn iota;
    rewrite ?Z.lxor_0_r; apply Z.bits_inj'; intros i Hi; rewrite !Z.lxor_spec;
    repeat match goal with |- context [Z.testbit ?x ?j] => destruct (Z.testbit x j) end; done.
Qed.

Lemma crc_iter_lxor n a b :
  Nat.iter n crc_shift (Z.lxor a b) = Z.lxor (Nat.iter n crc_shift a) (Nat.iter n crc_shift b).
Proof. induction n as [|n IH]; simpl; [done|]. by rewrite IH, crc_shift_lxor. Qed.

Lemma crc_iter_shiftl n h : Nat.iter n crc_shift (Z.shiftl h (Z.of_nat n)) = h.
Proof.
  revert h; induction n as [|n IH]; intros h; [apply Z.shiftl_0_r|].
  rewrite Nat.iter_succ_r, Nat2Z.inj_succ.
  assert (crc_shift (Z.shiftl h (Z.succ (Z.of_nat n))) = Z.shiftl h (Z.of_nat n)) as ->; [|apply IH].
  unfold crc_shift. rewrite land_1_odd, <- Z.bit0_odd, Z.shiftl_spec_low by lia.
  simpl negb. cbn iota. rewrite Z.lxor_0_r, Z.shiftr_shiftl_l by lia. f_equal. lia.
Qed.

Lemma lxor_range n a b : 0 <= n -> 0 <= a < 2 ^ n -> 0 <= b < 2 ^ n -> 0 <= Z.lxor a b < 2 ^ n.
Proof.
  intros Hn Ha Hb. replace (Z.lxor a b) with (Z.lxor a b mod 2 ^ n).
  { apply Z.mod_pos_bound. lia. }
  apply Z.bits_inj'; intros i Hi. destruct (Z_lt_le_dec i n).
  - by rewrite Z.mod_pow2_bits_low by lia.
  - rewrite Z.mod_pow2_bits_high, Z.lxor_spec by lia.
    rewrite <- (Z.mod_small a (2 ^ n)), <- (Z.mod_small b (2 ^ n)) by done.
    by rewrite !Z.mod_pow2_bits_high by lia.
Qed.

Lemma crc_shift_range c : 0 <= c < 2 ^ 32 -> 0 <= crc_shift c < 2 ^ 32.
Proof.
  intros Hc. unfold crc_shift. apply lxor_range; [lia| |destruct (_ =? 0); lia].
  rewrite Z.shiftr_div_pow2 by lia.
  split; [apply Z.div_pos; lia|apply Z.div_lt_upper_bound; lia].
Qed.

#[local] Opaque crc_shift.

Lemma crc_iter_byte h : Nat.iter 8 crc_shift (Z.shiftl h 8) = h.
Proof. exact (crc_iter_shiftl 8 h). Qed.

Lemma crc_table_nth i : 0 <= i < 256 -> nth (Z.to_nat i) crc_table 0 = Nat.iter 8 crc_shift i.
Proof.
  intros Hi. unfold crc_table. apply nth_lookup_Some.
  change (map ?f ?l) with (f <$> l). rewrite list_lookup_fmap.
  rewrite lookup_seqZ_lt by lia. by rewrite Z.add_0_l, Z2Nat.id by lia.
Qed.

(** The low byte and the rest of a word, as disjoint parts. *)
Lemma split_low_byte c : c = Z.lxor (Z.land c 255) (Z.shiftl (Z.shiftr c 8) 8).
Proof.
  apply Z.bits_inj'; intros i Hi. rewrite Z.lxor_spec, Z.land_spec.
  change 255 with (Z.ones 8). destruct (Z_lt_le_dec i 8).
  - rewrite Z.ones_spec_low, Z.shiftl_spec_low by lia.
    by rewrite andb_true_r, xorb_false_r.
  - rewrite Z.ones_spec_high, Z.shiftl_spec, Z.shiftr_spec by lia.
    rewrite andb_false_r, xorb_false_l. f_equal. lia.
Qed.

Lemma crc_update_bitwise c ch :
  crc_update c ch = Nat.iter 8 crc_shift (Z.lxor c (b2z ch)).
Proof.
  unfold crc_update. rewrite (split_low_byte (Z.lxor c (b2z ch))) at 2.
  rewrite crc_iter_lxor, crc_iter_byte, crc_table_nth.
  - f_equal. rewrite Z.shiftr_lxor.
    rewrite (Z.shiftr_div_pow2 (b2z ch)), Z.div_small by (try lia; apply b2z_range).
    by rewrite Z.lxor_0_r.
  - change 255 with (Z.ones 8). rewrite Z.land_ones by lia. apply Z.mod_pos_bound. lia.
Qed.

Lemma crc_eq_bitwise data : crc data = crc_bitwise data.
Proof.
  unfold crc, crc_bitwise. f_equal. apply fold_left_ext. intros. apply crc_update_bitwise.
Qed.

Lemma crc_iter_range n c : 0 <= c < 2 ^ 32 -> 0 <= Nat.iter n crc_shift c < 2 ^ 32.
Proof. intros Hc. induction n; [done|]. by apply crc_shift_range. Qed.

Lemma crc_range data : 0 <= crc data < 2 ^ 32.
Proof.
  rewrite crc_eq_bitwise. unfold crc_bitwise, not32.
  apply lxor_range; [lia| |unfold uint32_max; lia].
  apply (fold_left_inv (fun c => 0 <= c < 2 ^ 32)); [|vm_compute; done].
  intros c b Hc. apply crc_iter_range. apply lxor_range; [lia|done|].
  pose proof (b2z_range b). lia.
Qed.

(** ** Integers in records *)

Lemma put32_le n : put32 n = le_bytes 4 n.
Proof.
  unfold put32. cbn [map le_bytes]. rewrite !Z.shiftr_div_pow2 by lia.
  rewrite !Z.div_div by lia. by rewrite Z.div_1_r.
Qed.

Lemma length_put32 n : length (put32 n) = 4%nat.
Proof. done. Qed.

Lemma len_put32 n : len (put32 n) = 4.
Proof. done. Qed.

Lemma get32_le (l : bytes) : (4 <= length l)%nat -> get32 l = le_value (take 4 l).
Proof.
  intros Hl. destruct l as [|a [|b [|c [|d l]]]]; simpl in Hl; try lia.
  cbn [take]. rewrite !le_value_lor. simpl le_value.
  change (get32 (a :: b :: c :: d :: l)) with
    (Z.lor (Z.lor (Z.lor (Z.lor 0 (Z.shiftl (b2z a) 0)) (Z.shiftl (b2z b) 8))
             (Z.shiftl (b2z c) 16)) (Z.shiftl (b2z d) 24)).
  rewrite ?Z.shiftl_lor, ?Z.shiftl_shiftl, ?Z.shiftl_0_l, ?Z.lor_0_r, ?Z.lor_0_l by lia.
  rewrite Z.shiftl_0_r. change (8 + 8) with 16. try change (16 + 8) with 24. try change (8 + 16) with 24. lor_ac.
Qed.

Lemma get32_put32 n rest : 0 <= n < 2 ^ 32 -> get32 (put32 n ++ rest) = n.
Proof.
  intros Hn. rewrite get32_le by (rewrite length_app; simpl; lia).
  rewrite put32_le, take_app_length' by (by rewrite length_le_bytes).
  rewrite le_value_bytes. by apply Z.mod_small.
Qed.

(** ** Records *)

Definition payload (op : WalOp) (args : list bytes) : bytes :=
  z2b (op_code op) :: z2b (len args) :: put_args args.

Definition encode_record (op : WalOp) (args : list bytes) : bytes :=
  put32 (len (payload op args)) ++ put32 (crc (payload op args)) ++ payload op args.

Definition real_op (op : WalOp) : Prop :=
  match op with op_other _ => False | _ => True end.

(** A record [append] accepts. *)
Definition record_ok (r : WalOp * list bytes) : Prop :=
  real_op r.1 /\ len r.2 <= 255 /\ len (payload r.1 r.2) <= max_record.

Definition enc (r : WalOp * list bytes) : bytes := encode_record r.1 r.2.

Lemma op_of_byte_code op : real_op op -> op_of_byte (z2b (op_code op)) = op.
Proof. by destruct op. Qed.

Lemma len_put_args args : len (put_args args) = foldr (fun a n => 4 + len a + n) 0 args.
Proof.
  induction args as [|a args IH]; [done|]. unfold put_args in *.
  cbn [map concat foldr]. rewrite !len_app, IH. done.
Qed.

Lemma record_size_spec args size n :
  record_size args size = Some n -> n = size + len (put_args args).
Proof.
  rewrite len_put_args. revert size; induction args as [|a args IH]; intros size; simpl.
  - intros [= <-]. lia.
  - case_match; [done|]. intros E%IH. lia.
Qed.

Lemma record_size_fits args size :
  0 <= size -> size + len (put_args args) <= max_record ->
  record_size args size = Some (size + len (put_args args)).
Proof.
  rewrite len_put_args. revert size; induction args as [|a args IH]; intros size Hs Hm; simpl in *.
  - f_equal. lia.
  - pose proof (len_nonneg a). pose proof (len_nonneg (put_args args)) as Hn.
    rewrite len_put_args in Hn.
    destruct (Z.ltb_spec (max_record - 4) (len a)); [lia|].
    destruct (Z.ltb_spec (max_record - len a - 4) size); [lia|]. simpl orb. cbn iota.
    rewrite IH by lia. f_equal. lia.
Qed.

Lemma patch_checksum_spec (h : bytes) c0 c body :
  length h = 4%nat -> patch_checksum (h ++ put32 c0 ++ body) c = h ++ put32 c ++ body.
Proof.
  intros Hh. destruct h as [|a [|b [|d [|e [|]]]]]; done.
Qed.

(** The buffer patched in place is the record with its checksum. *)
Lemma build_record_spec op args r :
  build_record op args = Ok r ->
  r = encode_record op args /\ len args <= 255 /\ len (payload op args) <= max_record.
Proof.
  unfold build_record. destruct (record_size args 2) as [size|] eqn:E; [|done].
  apply record_size_spec in E.
  assert (size = len (payload op args)) as Hs by (unfold payload; rewrite !len_cons; lia).
  destruct (Z.ltb_spec max_record size); [done|].
  destruct (Z.ltb_spec 255 (len args)); [done|]. simpl orb. cbn iota.
  cbv zeta. rewrite patch_checksum_spec by done. unfold max_record in *.
  pose proof (len_nonneg (payload op args)). rewrite u32_small by lia.
  intros E'. split; [|lia]. unfold encode_record. rewrite <- Hs. by injection E' as <-.
Qed.

Lemma build_record_ok op args :
  len args <= 255 -> len (payload op args) <= max_record ->
  build_record op args = Ok (encode_record op args).
Proof.
  intros Ha Hm. destruct (build_record op args) as [r|e] eqn:E.
  { by apply build_record_spec in E as (-> & _). }
  unfold build_record in E. unfold payload in Hm. rewrite !len_cons in Hm.
  rewrite record_size_fits in E by lia.
  destruct (Z.ltb_spec max_record (2 + len (put_args args))); [lia|].
  by destruct (Z.ltb_spec 255 (len args)); [lia|].
Qed.

Lemma len_encode_record op args : len (encode_record op args) = 8 + len (payload op args).
Proof. unfold encode_record. rewrite !len_app, !len_put32. lia. Qed.

Lemma payload_len op args : 2 <= len (payload op args).
Proof. unfold payload. rewrite !len_cons. pose proof (len_nonneg (put_args args)). lia. Qed.

(** Splitting a payload gives the arguments back. *)
Lemma split_put_args args rest :
  Forall (fun a => len a < 2 ^ 32) args ->
  split_args (length args) (put_args args ++ rest) = Some (args, rest).
Proof.
  induction 1 as [|a args Ha _ IH]; [done|].
  assert (put_args (a :: args) ++ rest = put32 (u32 (len a)) ++ a ++ (put_args args ++ rest)) as ->.
  { unfold put_args. cbn [map concat]. by rewrite <- !app_assoc. }
  revert IH. generalize (put_args args ++ rest). intros tail IH. cbn [length split_args].
  destruct (Nat.ltb_spec (length (put32 (u32 (len a)) ++ a ++ tail)) 4) as [H|_].
  { rewrite length_app, length_put32 in H. lia. }
  rewrite get32_put32 by apply u32_range.
  rewrite drop_app_length' by done.
  pose proof (len_nonneg a). pose proof (len_nonneg tail).
  rewrite u32_small, len_app by lia.
  destruct (Z.ltb_spec (len a + len tail) (len a)); [lia|].
  unfold len. by rewrite Nat2Z.id, drop_app_length, take_app_length, IH.
Qed.

Lemma args_bounded op args :
  len (payload op args) <= max_record -> Forall (fun a => len a < 2 ^ 32) args.
Proof.
  unfold payload, max_record. rewrite !len_cons, len_put_args.
  induction args as [|a args IH]; simpl; [constructor|]. intros H.
  pose proof (len_nonneg (put_args args)) as Hn. rewrite len_put_args in Hn.
  pose proof (len_nonneg a). constructor; [lia|]. apply IH. lia.
Qed.

(** ** The recovery scan *)

Lemma stream_read_app (a b : bytes) n :
  length a = n -> stream_read (mkStream (a ++ b) None) n = (a, false, mkStream b None).
Proof.
  intros <-. unfold stream_read. cbn [stream_data stream_error]. rewrite length_app, Nat.min_l by lia.
  rewrite take_app_length, drop_app_length, Nat.ltb_irrefl. done.
Qed.

Lemma stream_read_short (d : bytes) n :
  (length d < n)%nat -> stream_read (mkStream d None) n = (d, true, mkStream [] None).
Proof.
  intros H. unfold stream_read. cbn [stream_data stream_error]. rewrite Nat.min_r by lia.
  rewrite take_ge, drop_ge by lia. by destruct (Nat.ltb_spec (length d) n); [|lia].
Qed.

Section scan_facts.

Context {St : Type} (replay : WalOp -> list bytes -> St -> option exn * St).

(** Replaying records in order, up to the first exception. *)
Fixpoint replay_all (rs : list (WalOp * list bytes)) (st : St) : option exn * St :=
  match rs with
  | [] => (None, st)
  | r :: rs => match replay r.1 r.2 st with
               | (Some e, st) => (Some e, st)
               | (None, st) => replay_all rs st
               end
  end.

Lemma scan_end_of_file f valid st :
  scan replay (S f) (mkStream [] None) valid st = Some (scan_done valid false, st).
Proof. done. Qed.

Lemma record_bounds r : record_ok r -> 2 <= len (payload r.1 r.2) < 2 ^ 32.
Proof. intros (_ & _ & H). pose proof (payload_len r.1 r.2). unfold max_record in H. lia. Qed.

(** The first eight bytes of a record give its size and checksum. *)
Lemma enc_header r :
  record_ok r ->
  exists h, enc r = h ++ payload r.1 r.2 /\ length h = 8%nat /\
    get32 h = len (payload r.1 r.2) /\ get32 (drop 4 h) = crc (payload r.1 r.2).
Proof.
  intros Hr. pose proof (record_bounds r Hr). pose proof (crc_range (payload r.1 r.2)).
  exists (put32 (len (payload r.1 r.2)) ++ put32 (crc (payload r.1 r.2))). split_and!.
  - unfold enc, encode_record. by rewrite app_assoc.
  - done.
  - by rewrite get32_put32 by lia.
  - rewrite drop_app_length' by done.
    by rewrite <- (app_nil_r (put32 (crc _))), get32_put32 by lia.
Qed.

Lemma record_fields r :
  record_ok r ->
  op_of_byte (nth 0 (payload r.1 r.2) x00) = r.1 /\
  split_args (Z.to_nat (b2z (nth 1 (payload r.1 r.2) x00))) (drop 2 (payload r.1 r.2)) = Some (r.2, []).
Proof.
  intros (Hop & Hargs & Hmax). pose proof (len_nonneg r.2). split; [by apply op_of_byte_code|].
  change (nth 1 (payload r.1 r.2) x00) with (z2b (len r.2)).
  change (drop 2 (payload r.1 r.2)) with (put_args r.2).
  rewrite b2z_z2b, Z.mod_small by lia. unfold len. rewrite Nat2Z.id.
  rewrite <- (app_nil_r (put_args r.2)). apply split_put_args. by eapply args_bounded.
Qed.

(** One complete record is replayed and the scan moves past it. *)
Lemma scan_record f r rest valid st :
  record_ok r ->
  scan replay (S f) (mkStream (enc r ++ rest) None) valid st =
  match replay r.1 r.2 st with
  | (Some e, st) => Some (scan_throw e, st)
  | (None, st) => scan replay f (mkStream rest None) (valid + len (enc r)) st
  end.
Proof.
  intros Hr. pose proof (record_bounds r Hr) as Hb. pose proof Hr as (_ & _ & Hmax).
  destruct (record_fields r Hr) as [F1 F2].
  destruct (enc_header r Hr) as (h & -> & H8 & E1 & E2). rewrite <- app_assoc. cbn [scan].
  rewrite (stream_read_app h) by done.
  rewrite bool_decide_eq_false_2 by (by intros ->). rewrite H8, E1, E2. simpl andb. simpl negb. cbn iota.
  destruct (Z.ltb_spec (len (payload r.1 r.2)) 2); [lia|].
  destruct (Z.ltb_spec max_record (len (payload r.1 r.2))); [lia|]. simpl orb. cbn iota.
  rewrite stream_read_app by (unfold len; by rewrite Nat2Z.id).
  rewrite !Z.eqb_refl. simpl negb. cbn iota. rewrite F1, F2.
  destruct (replay r.1 r.2 st) as [[e|] st']; [done|]. f_equal.
  rewrite len_app. unfold len at 2. rewrite H8. lia.
Qed.

(** A record cut short ends the scan without an error. *)
Lemma scan_torn f r t u valid st :
  record_ok r -> enc r = t ++ u -> t <> [] -> u <> [] ->
  scan replay (S f) (mkStream t None) valid st = Some (scan_done valid true, st).
Proof.
  intros Hr E Ht Hu. pose proof (record_bounds r Hr) as Hb. cbn [scan].
  destruct (Nat.lt_ge_cases (length t) 8) as [Hl|Hl].
  - rewrite stream_read_short by done. rewrite (bool_decide_eq_false_2 _ Ht). simpl andb. cbn iota.
    by destruct (Nat.eqb_spec (length t) 8); [lia|].
  - destruct (enc_header r Hr) as (h & Eh & H8 & E1 & E2). rewrite Eh in E.
    assert (take 8 t = h) as Hh.
    { apply (f_equal (take 8)) in E. rewrite take_app_length' in E by done.
      by rewrite take_app_le in E by done. }
    assert (length (drop 8 t) < length (payload r.1 r.2))%nat as Hs.
    { apply (f_equal length) in E. rewrite !length_app, H8 in E.
      rewrite length_drop. assert (0 < length u)%nat by (destruct u; [done|simpl; lia]). lia. }
    rewrite <- (take_drop 8 t), Hh, (stream_read_app h) by done.
    rewrite bool_decide_eq_false_2 by (by intros ->). rewrite H8, E1. simpl andb. simpl negb. cbn iota.
    destruct Hr as (_ & _ & Hmax).
    destruct (Z.ltb_spec (len (payload r.1 r.2)) 2); [lia|].
    destruct (Z.ltb_spec max_record (len (payload r.1 r.2))); [lia|]. simpl orb. cbn iota.
    rewrite stream_read_short by (unfold len; by rewrite Nat2Z.id).
    destruct (Z.eqb_spec (len (drop 8 t)) (len (payload r.1 r.2))) as [Hq|]; [unfold len in Hq; lia|].
    done.
Qed.

(** What is left of a log after its complete records. *)
Definition tail_of (rs : list (WalOp * list bytes)) (t : bytes) : Prop :=
  t = [] \/ exists r rs' u, rs = r :: rs' /\ enc r = t ++ u /\ t <> [] /\ u <> [].

Lemma scan_records f rs more t valid st :
  Forall record_ok (rs ++ more) -> tail_of more t -> (length rs < f)%nat ->
  scan replay f (mkStream (concat (map enc rs) ++ t) None) valid st =
  match replay_all rs st with
  | (Some e, st') => Some (scan_throw e, st')
  | (None, st') => Some (scan_done (valid + len (concat (map enc rs))) (negb (bool_decide (t = []))), st')
  end.
Proof.
  revert f valid st; induction rs as [|r rs IH]; intros f valid st Hok Ht Hf; destruct f as [|f]; try lia.
  - cbn [map concat app replay_all]. change (len (concat (map enc []))) with 0.
    rewrite Z.add_0_r. destruct Ht as [-> |(r & rs' & u & -> & E & Hn & Hu)].
    + apply scan_end_of_file.
    + rewrite (bool_decide_eq_false_2 _ Hn). apply (scan_torn _ r _ u); try done.
      by inversion Hok.
  - inversion Hok; subst. cbn [map concat replay_all]. rewrite <- app_assoc, scan_record by done.
    destruct (replay r.1 r.2 st) as [[e|] st']; [done|].
    rewrite IH by (done || (simpl in Hf; lia)). rewrite len_app, Z.add_assoc. done.
Qed.

(** Any prefix of a log is some of its records and a torn tail. *)
Lemma log_prefix rs p u :
  concat (map enc rs) = p ++ u ->
  exists done more t, rs = done ++ more /\ p = concat (map enc done) ++ t /\ tail_of more t.
Proof.
  revert p u; induction rs as [|r rs IH]; intros p u E; cbn [map concat] in E.
  - destruct p; [|done]. exists [], [], []. split_and!; [done|done|by left].
  - destruct (Nat.le_gt_cases (length (enc r)) (length p)) as [Hle|Hlt].
    + assert (p = enc r ++ drop (length (enc r)) p) as Hp.
      { rewrite <- (take_drop (length (enc r)) p) at 1. f_equal.
        apply (f_equal (take (length (enc r)))) in E.
        by rewrite take_app_length, take_app_le in E by done. }
      rewrite Hp, <- app_assoc in E. apply app_inv_head in E.
      destruct (IH _ _ E) as (d & m & t & -> & Hd & Ht).
      exists (r :: d), m, t. split_and!; [done| |done].
      rewrite Hp, Hd. cbn [map concat]. by rewrite app_assoc.
    + exists [], (r :: rs), p. split_and!; [done|done|].
      destruct p as [|b p]; [by left|]. right.
      exists r, rs, (drop (length (b :: p)) (enc r)). split_and!; [done| |done|].
      * rewrite <- (take_drop (length (b :: p)) (enc r)) at 1. f_equal.
        apply (f_equal (take (length (b :: p)))) in E.
        rewrite take_app_length in E. rewrite take_app_le in E by lia. done.
      * intros Hnil. apply (f_equal length) in Hnil. rewrite length_drop in Hnil. simpl in *. lia.
Qed.

Lemma length_records rs : (length rs <= length (concat (map enc rs)))%nat.
Proof.
  induction rs as [|r rs IH]; [done|]. cbn [map concat length]. rewrite length_app.
  pose proof (payload_len r.1 r.2). pose proof (len_encode_record r.1 r.2) as Hl.
  unfold enc, len in *. lia.
Qed.

(** Recovering any cut of a log. *)
Lemma recover_cut rs more t st :
  Forall record_ok (rs ++ more) -> tail_of more t ->
  recover replay (Some (magic ++ concat (map enc rs) ++ t)) None st =
  match replay_all rs st with
  | (Some e, st') => (scan_throw e, st', Some (magic ++ concat (map enc rs) ++ t))
  | (None, st') => (scan_done (8 + len (concat (map enc rs))) (negb (bool_decide (t = []))), st',
                    Some (magic ++ concat (map enc rs)))
  end.
Proof.
  intros Hok Ht. set (content := magic ++ concat (map enc rs) ++ t).
  assert (recover replay (Some content) None st =
    match scan replay (S (length content)) (mkStream (concat (map enc rs) ++ t) None) 8 st with
    | Some (scan_done valid true, st) => (scan_done valid true, st, Some (take (Z.to_nat valid) content))
    | Some (e, st) => (e, st, Some content)
    | None => (read_failed, st, Some content)
    end) as ->.
  { reflexivity. }
  rewrite (scan_records _ _ more) by (done || (unfold content; rewrite !length_app;
    pose proof (length_records rs); lia)).
  destruct (replay_all rs st) as [[e|] st']; [done|].
  case_bool_decide as Hn; simpl negb; cbn iota.
  - unfold content. rewrite Hn, app_nil_r. done.
  - do 2 f_equal. unfold content. rewrite app_assoc, take_app_length'; [done|].
    rewrite length_app. change (length magic) with 8%nat. unfold len. lia.
Qed.

End scan_facts.

(** ** Properties *)

(** The table-driven checksum of the log is the bitwise CRC-32 with
    polynomial 0xEDB88320, for data of every length. *)
Theorem crc_table_correct (data : bytes) : crc data = crc_bitwise data.
Proof. apply crc_eq_bitwise. Qed.

(** C23: whatever point a log of accepted records is cut at after its
    header, recovery succeeds: it replays exactly the records that are
    complete, in order, and leaves a file that ends after the last of them.
    Only an exception of the replay callback itself can end it early. *)
Theorem recover_after_cut {St} (replay : WalOp -> list bytes -> St -> option exn * St)
    (rs : list (WalOp * list bytes)) (p u : bytes) (st : St) :
  Forall record_ok rs -> concat (map enc rs) = p ++ u ->
  exists complete more t,
    rs = complete ++ more /\ p = concat (map enc complete) ++ t /\ tail_of more t /\
    recover replay (Some (magic ++ p)) None st =
    match replay_all replay complete st with
    | (Some e, st') => (scan_throw e, st', Some (magic ++ p))
    | (None, st') =>
        (scan_done (8 + len (concat (map enc complete))) (negb (bool_decide (t = []))), st',
         Some (magic ++ concat (map enc complete)))
    end.
Proof.
  intros Hok E. destruct (log_prefix rs p u E) as (d & m & t & -> & -> & Ht).
  exists d, m, t. split_and!; [done|done|done|]. by apply (recover_cut replay d m t).
Qed.

Lemma recover_after_cut_witness :
  exists complete more t,
    [(op_set, [of_str "k"; of_str "v"]); (op_del, [of_str "k"])] = complete ++ more /\
    take 30 (concat (map enc [(op_set, [of_str "k"; of_str "v"]); (op_del, [of_str "k"])]))
      = concat (map enc complete) ++ t.
Proof.
  destruct (recover_after_cut (fun op args (st : nat) => (None, S st))
    [(op_set, [of_str "k"; of_str "v"]); (op_del, [of_str "k"])]
    (take 30 (concat (map enc [(op_set, [of_str "k"; of_str "v"]); (op_del, [of_str "k"])])))
    (drop 30 (concat (map enc [(op_set, [of_str "k"; of_str "v"]); (op_del, [of_str "k"])])))
    O) as (c & m & t & H1 & H2 & _).
  - repeat constructor; vm_compute; discriminate.
  - symmetry. apply take_drop.
  - exists c, m, t. split; [exact H1|exact H2].
Defined.

(** C24: a frame of full length whose payload does not match its checksum
    stops recovery with [disk_read_failed]: the records before it have been
    replayed, nothing after it is, and the file is left as it was. *)
Theorem recover_rejects_corruption {St} (replay : WalOp -> list bytes -> St -> option exn * St)
    (rs : list (WalOp * list bytes)) (h body rest : bytes) (st st' : St) :
  Forall record_ok rs -> replay_all replay rs st = (None, st') ->
  length h = 8%nat -> get32 h = len body -> 2 <= len body <= max_record ->
  crc body <> get32 (drop 4 h) ->
  recover replay (Some (magic ++ concat (map enc rs) ++ h ++ body ++ rest)) None st =
  (read_failed, st', Some (magic ++ concat (map enc rs) ++ h ++ body ++ rest)).
Proof.
  intros Hok Hr H8 Hs Hb Hc.
  assert (forall f valid st0, scan replay (S f) (mkStream (h ++ body ++ rest) None) valid st0
            = Some (read_failed, st0)) as Hbad.
  { intros f valid st0. cbn [scan]. rewrite (stream_read_app h) by done.
    rewrite bool_decide_eq_false_2 by (by intros ->). rewrite H8, Hs. simpl andb. simpl negb. cbn iota.
    destruct (Z.ltb_spec (len body) 2); [lia|].
    destruct (Z.ltb_spec max_record (len body)); [lia|]. simpl orb. cbn iota.
    rewrite stream_read_app by (unfold len; by rewrite Nat2Z.id).
    rewrite Z.eqb_refl. simpl negb. cbn iota.
    by destruct (Z.eqb_spec (crc body) (get32 (drop 4 h))). }
  assert (forall f valid st0 st1, (length rs < f)%nat -> replay_all replay rs st0 = (None, st1) ->
    scan replay f (mkStream (concat (map enc rs) ++ h ++ body ++ rest) None) valid st0
    = Some (read_failed, st1)) as Hscan.
  { clear Hr. induction Hok as [|r rs Hr _ IH]; intros f valid st0 st1 Hf Hrep; destruct f as [|f];
      try (simpl in Hf; lia).
    - cbn [map concat app replay_all] in *. injection Hrep as ->. apply Hbad.
    - cbn [map concat replay_all] in *. rewrite <- app_assoc, scan_record by done.
      destruct (replay r.1 r.2 st0) as [[e|] st2]; [done|]. apply IH; [simpl in Hf; lia|done]. }
  set (content := magic ++ concat (map enc rs) ++ h ++ body ++ rest).
  change (recover replay (Some content) None st) with
    (match scan replay (S (length content)) (mkStream (concat (map enc rs) ++ h ++ body ++ rest) None) 8 st with
    | Some (scan_done valid true, st) => (scan_done valid true, st, Some (take (Z.to_nat valid) content))
    | Some (e, st) => (e, st, Some content)
    | None => (read_failed, st, Some content)
    end).
  rewrite (Hscan _ _ _ st'); [done| |done].
  unfold content. rewrite !length_app. pose proof (length_records rs). lia.
Qed.

Lemma recover_rejects_corruption_witness :
  recover (fun op args (st : nat) => (None, S st))
    (Some (magic ++ enc (op_del, [of_str "k"]) ++ put32 3 ++ put32 7 ++ of_str "abc" ++ of_str "tail")) None O
  = (read_failed, 1%nat,
     Some (magic ++ enc (op_del, [of_str "k"]) ++ put32 3 ++ put32 7 ++ of_str "abc" ++ of_str "tail")).
Proof.
  exact (recover_rejects_corruption (fun op args (st : nat) => (None, S st))
    [(op_del, [of_str "k"])] (put32 3 ++ put32 7) (of_str "abc") (of_str "tail") O 1%nat
    ltac:(repeat constructor; vm_compute; discriminate) eq_refl eq_refl
    ltac:(vm_compute; reflexivity) ltac:(vm_compute; split; discriminate)
    ltac:(vm_compute; discriminate)).
Defined.
