(* ===== verification/Wal.v ===== *)
(** * Wal: the write-ahead log as a state machine

    The class [Wal] of [src/wal.cpp]: opening, appending, flushing, batches,
    the background flusher and compaction, over the C library's buffered
    file and the operating system underneath.  Every library or system call
    takes its outcome from a script that is part of the state, so a theorem
    about all scripts covers every pattern of failures.  A crash keeps some
    prefix of the file that contains at least what was synchronised. *)

From S2P Require Import Prelude Errors Effects WalCodec.

(** ** State *)

Inductive WalSync := sync_everysec | sync_always | sync_none.

#[global] Instance WalSync_eq_dec : EqDecision WalSync.
Proof. solve_decision. Defined.

(** The outcome of one call: whether it reports success, how many of the
    bytes it was given it accepted, and how many buffered bytes it passed on
    to the operating system. *)
Record io_outcome := mkIo { io_ok : bool; io_accepted : nat; io_moved : nat }.

(** A file as its writer sees it: the bytes in the stdio buffer, the bytes
    the operating system has, and how many of those are on the device. *)
Record File := mkFile { stdio : bytes; contents : bytes; durable : nat }.

Record Wal := mkWal {
  sync_ : WalSync;
  file_ : bool;                    (** [file_] is not null *)
  disk_ : File;                    (** the file at [path_] *)
  replaced_ : option File;         (** what [path_] named before a rename that is not yet durable *)
  capacity_ : Z;                   (** [buffer_.capacity()] *)
  bytes_ : Z;
  failed_ : bool;
  dirty_ : bool;
  defer_sync_ : bool;
  script_ : list io_outcome        (** outcomes of the calls to come *)
}.

Definition set_file (b : bool) (w : Wal) : Wal :=
  mkWal (sync_ w) b (disk_ w) (replaced_ w) (capacity_ w) (bytes_ w) (failed_ w) (dirty_ w) (defer_sync_ w) (script_ w).
Definition set_disk (d : File) (w : Wal) : Wal :=
  mkWal (sync_ w) (file_ w) d (replaced_ w) (capacity_ w) (bytes_ w) (failed_ w) (dirty_ w) (defer_sync_ w) (script_ w).
Definition set_replaced (r : option File) (w : Wal) : Wal :=
  mkWal (sync_ w) (file_ w) (disk_ w) r (capacity_ w) (bytes_ w) (failed_ w) (dirty_ w) (defer_sync_ w) (script_ w).
Definition set_capacity (c : Z) (w : Wal) : Wal :=
  mkWal (sync_ w) (file_ w) (disk_ w) (replaced_ w) c (bytes_ w) (failed_ w) (dirty_ w) (defer_sync_ w) (script_ w).
Definition set_bytes (n : Z) (w : Wal) : Wal :=
  mkWal (sync_ w) (file_ w) (disk_ w) (replaced_ w) (capacity_ w) n (failed_ w) (dirty_ w) (defer_sync_ w) (script_ w).
Definition set_failed (b : bool) (w : Wal) : Wal :=
  mkWal (sync_ w) (file_ w) (disk_ w) (replaced_ w) (capacity_ w) (bytes_ w) b (dirty_ w) (defer_sync_ w) (script_ w).
Definition set_dirty (b : bool) (w : Wal) : Wal :=
  mkWal (sync_ w) (file_ w) (disk_ w) (replaced_ w) (capacity_ w) (bytes_ w) (failed_ w) b (defer_sync_ w) (script_ w).
Definition set_defer (b : bool) (w : Wal) : Wal :=
  mkWal (sync_ w) (file_ w) (disk_ w) (replaced_ w) (capacity_ w) (bytes_ w) (failed_ w) (dirty_ w) b (script_ w).
Definition set_script (l : list io_outcome) (w : Wal) : Wal :=
  mkWal (sync_ w) (file_ w) (disk_ w) (replaced_ w) (capacity_ w) (bytes_ w) (failed_ w) (dirty_ w) (defer_sync_ w) l.

Definition write_failed : exn := exn_error disk_write_failed.

(** ** Library and system calls *)

(** The next outcome; a script that has run out succeeds. *)
Definition outcome : M Wal io_outcome := fun w =>
  match script_ w with
  | [] => (inr (mkIo true 0 0), w)
  | o :: rest => (inr o, set_script rest w)
  end.

(** A call with no effect on the log but its result. *)
Definition syscall : M Wal bool := let! o := outcome in ret (io_ok o).

(** A call whose failure throws. *)
Definition require (e : exn) (m : M Wal bool) : M Wal unit :=
  let! ok := m in if (ok : bool) then ret tt else throw e.

(** The library passes [n] buffered bytes on. *)
Definition pass_on (n : nat) (f : File) : File :=
  mkFile (drop n (stdio f)) (contents f ++ take n (stdio f)) (durable f).

(** [fwrite(data, 1, size, file_) == size].  Buffered bytes may reach the
    operating system at any such call. *)
Definition fwrite (data : bytes) : M Wal bool :=
  let! o := outcome in
  let accepted := if io_ok o then data else take (io_accepted o) data in
  do! modify (fun w =>
        let f := disk_ w in
        set_disk (pass_on (io_moved o) (mkFile (stdio f ++ accepted) (contents f) (durable f))) w) in
  ret (io_ok o).

Definition fflush : M Wal bool :=
  let! o := outcome in
  do! modify (fun w =>
        set_disk (pass_on (if io_ok o then length (stdio (disk_ w)) else io_moved o) (disk_ w)) w) in
  ret (io_ok o).

Definition fdatasync : M Wal bool :=
  let! o := outcome in
  do! modify (fun w =>
        let f := disk_ w in
        if io_ok o then set_disk (mkFile (stdio f) (contents f) (length (contents f))) w else w) in
  ret (io_ok o).

(** [fclose] flushes, and closes whether or not that worked. *)
Definition fclose : M Wal bool :=
  let! ok := fflush in
  do! modify (fun w =>
        set_file false (set_disk (mkFile [] (contents (disk_ w)) (durable (disk_ w))) w)) in
  ret ok.

(** [buffer_.reserve(n)]: allocates when the capacity is less. *)
Definition buffer_reserve (n : Z) : M Wal unit :=
  let! w := get in
  if n <=? capacity_ w then ret tt else
  do! require exn_bad_alloc syscall in
  modify (set_capacity n).

(** ** Operations *)

Definition flush_locked : M Wal unit :=
  let! failed := gets failed_ in
  if (failed : bool) then throw write_failed else
  let! dirty := gets dirty_ in
  if negb dirty then ret tt else
  let! ok := fflush in
  if negb ok then do! modify (set_failed true) in throw write_failed else
  let! sync := gets sync_ in
  do! (if bool_decide (sync = sync_none) then ret tt else
       let! ok := fdatasync in
       if negb ok then do! modify (set_failed true) in throw write_failed else ret tt) in
  modify (set_dirty false).

Definition append (op : WalOp) (args : list bytes) : M Wal unit :=
  let! failed := gets failed_ in
  if (failed : bool) then throw write_failed else
  match build_record op args with
  | Unexpected code => throw (exn_error code)
  | Ok buffer =>
      do! buffer_reserve (len buffer) in
      let! ok := fwrite buffer in
      if negb ok then do! modify (set_failed true) in throw write_failed else
      do! modify (fun w => set_bytes (u64 (bytes_ w + len buffer)) w) in
      do! modify (set_dirty true) in
      let! w := get in
      when (bool_decide (sync_ w = sync_always) && negb (defer_sync_ w)) flush_locked
  end.

Definition reserve_record (n : Z) : M Wal unit :=
  if max_record + 8 <? n then throw (exn_error request_too_large) else buffer_reserve n.

Definition flush : M Wal unit := flush_locked.

Definition begin_batch : M Wal unit :=
  modify (fun w => set_defer (bool_decide (sync_ w = sync_always)) w).

Definition end_batch : M Wal unit :=
  do! modify (set_defer false) in
  let! sync := gets sync_ in
  when (bool_decide (sync = sync_always)) flush_locked.

(** One round of the flusher thread. *)
Definition flusher_tick : M Wal unit :=
  try_catch flush_locked (fun _ => modify (set_failed true)).

(** [~Wal]. *)
Definition destroy : M Wal unit :=
  let! open := gets file_ in
  when open (do! flusher_tick in let! _ := fclose in ret tt).

(** [take_lock]: [flock], then [fcntl]. *)
Definition take_lock : M Wal unit :=
  do! require write_failed syscall in require write_failed syscall.

(** [open], [fsync] and [close] of the parent directory: a rename or a
    creation before it is durable after it. *)
Definition sync_directory : M Wal unit :=
  do! require write_failed syscall in
  do! require write_failed syscall in
  modify (set_replaced None).

(** The block of the constructor that starts a new log. *)
Definition create_header : M Wal unit :=
  do! require write_failed (fwrite magic) in
  do! modify (set_bytes (len magic)) in
  do! modify (set_dirty true) in
  do! flush_locked in
  let! sync := gets sync_ in
  when (negb (bool_decide (sync = sync_none))) sync_directory.

(** The constructor after recovery: [setvbuf], the byte count, the header. *)
Definition finish_open (valid : Z) : M Wal unit :=
  do! require write_failed syscall in
  do! modify (set_bytes valid) in
  when (valid =? 0) create_header.

(** Its handler. *)
Definition abandon_open (e : exn) : M Wal unit :=
  let! open := gets file_ in
  do! when open (let! _ := fclose in ret tt) in
  throw e.

(** [resize_file], cutting the file to [c]. *)
Definition resize_file (c : bytes) : M Wal unit :=
  do! require exn_filesystem syscall in
  modify (fun w => set_disk (mkFile [] c (Nat.min (durable (disk_ w)) (length c))) w).

Section construct.

Context {St : Type}.
Variable replay : WalOp -> list bytes -> St -> option exn * St.

Definition on_wal {A} (m : M Wal A) : M (Wal * St) A := fun '(w, st) =>
  let '(r, w) := m w in (r, (w, st)).

(** [recover(path, replay)] on the file at [path_]; cutting a torn tail is a
    call of its own, which may fail. *)
Definition recover_file (err : option nat) : M (Wal * St) Z := fun '(w, st) =>
  match recover replay (Some (contents (disk_ w))) err st with
  | (scan_throw e, st, _) => (inl e, (w, st))
  | (scan_done valid true, st, file) =>
      on_wal (do! resize_file (default [] file) in ret valid) (w, st)
  | (scan_done valid false, st, _) => (inr valid, (w, st))
  end.

(** [Wal::Wal] on the object before its body runs.  The flusher thread it
    starts is [flusher_tick], at any time. *)
Definition construct (err : option nat) : M (Wal * St) unit :=
  do! on_wal (require write_failed syscall) in
  try_catch
    (do! on_wal take_lock in
     do! on_wal (require write_failed syscall) in
     do! on_wal (modify (set_file true)) in
     do! on_wal take_lock in
     let! valid := recover_file err in
     on_wal (finish_open valid))
    (fun e => on_wal (abandon_open e)).

End construct.

(** The members before the constructor's body, with the file found at the
    path; what is found there is on the device. *)
Definition unopened (sync : WalSync) (found : bytes) (script : list io_outcome) : Wal :=
  mkWal sync false (mkFile [] found (length found)) None 15 0 false false false script.

(** ** Compaction *)

Definition no_replay (op : WalOp) (args : list bytes) (st : unit) : option exn * unit := (None, st).

(** The block that fills the temporary log: its byte count and its file. *)
Definition build_replacement (write : M Wal unit) : M Wal (Z * File) := fun w =>
  match construct no_replay None (unopened sync_always [] (script_ w), tt) with
  | (inl e, (rep, _)) => (inl e, set_script (script_ rep) w)
  | (inr _, (rep, _)) =>
      let '(r, rep) := (do! begin_batch in do! write in do! end_batch in do! flush in gets bytes_) rep in
      let '(_, rep) := destroy rep in
      (match r with inl e => inl e | inr n => inr (n, disk_ rep) end, set_script (script_ rep) w)
  end.

(** The part before [switching]: build the replacement, read it back, flush
    the log it replaces. *)
Definition prepare_compaction (write : M Wal unit) (err : option nat) : M Wal (Z * File) :=
  let! (n, file) := build_replacement write in
  match recover no_replay (Some (contents file)) err tt with
  | (scan_throw e, _, _) => throw e
  | (scan_done valid _, _, _) =>
      if negb (valid =? n) then throw (exn_error disk_read_failed) else
      do! flush_locked in ret (n, file)
  end.

(** The part after [switching]. *)
Definition switch_file (n : Z) (file : File) : M Wal unit :=
  do! require write_failed fclose in
  do! require exn_filesystem syscall in
  do! modify (fun w => set_disk file (set_replaced (Some (disk_ w)) w)) in
  do! sync_directory in
  do! require write_failed syscall in
  do! modify (set_file true) in
  do! require write_failed syscall in
  do! take_lock in
  do! modify (set_bytes n) in
  modify (set_dirty false).

Definition compact (write : M Wal unit) (err : option nat) : M Wal unit :=
  let! w := get in
  if failed_ w || defer_sync_ w then throw write_failed else
  do! require write_failed syscall in
  let! (n, file) := prepare_compaction write err in
  try_catch (switch_file n file)
    (fun e => do! modify (set_failed true) in throw e).

(** ** What the log promises *)

(** Everything written to a file, buffered or not. *)
Definition log_of (f : File) : bytes := contents f ++ stdio f.

(** What a write that failed half-way may leave: a proper prefix of a record. *)
Definition torn (t : bytes) : Prop :=
  t = [] \/ exists r u, record_ok r /\ enc r = t ++ u /\ t <> [] /\ u <> [].

(** [w] holds the records [rs]. *)
Record wal_inv (rs : list (WalOp * list bytes)) (w : Wal) : Prop := {
  inv_records : Forall record_ok rs;
  inv_log : exists t, log_of (disk_ w) = magic ++ concat (map enc rs) ++ t /\ torn t /\
                      (failed_ w = false -> t = []);
  inv_durable : (durable (disk_ w) <= length (contents (disk_ w)))%nat;
  inv_open : failed_ w = false ->
    file_ w = true /\ replaced_ w = None /\ u64 (bytes_ w) = u64 (len (log_of (disk_ w)));
  inv_clean : failed_ w = false -> dirty_ w = false ->
    stdio (disk_ w) = [] /\
    (sync_ w <> sync_none -> durable (disk_ w) = length (contents (disk_ w)))
}.

(** The file only grows, and so does its durable part. *)
Definition grows (w w' : Wal) : Prop :=
  sync_ w' = sync_ w /\ replaced_ w' = replaced_ w /\ (exists x, contents (disk_ w') = contents (disk_ w) ++ x) /\
  (durable (disk_ w) <= durable (disk_ w'))%nat.

Lemma grows_refl w : grows w w.
Proof. split_and!; [done|done|exists []; by rewrite app_nil_r|done]. Qed.

Lemma grows_same_file w w' :
  sync_ w' = sync_ w -> replaced_ w' = replaced_ w -> disk_ w' = disk_ w -> grows w w'.
Proof.
  intros E1 E2 E3. unfold grows. rewrite E3. split_and!; [done|done|exists []; by rewrite app_nil_r|done].
Qed.

Lemma grows_trans a b c : grows a b -> grows b c -> grows a c.
Proof.
  intros (E1 & F1 & [x Hx] & D1) (E2 & F2 & [y Hy] & D2). split_and!; [congruence|congruence| |lia].
  exists (x ++ y). by rewrite Hy, Hx, app_assoc.
Qed.

Lemma log_pass_on n f : log_of (pass_on n f) = log_of f.
Proof. unfold log_of, pass_on. simpl. by rewrite <- app_assoc, take_drop. Qed.

(** The calls other threads and the database make on an open log. *)
Inductive call :=
| c_append (op : WalOp) (args : list bytes)
| c_reserve (n : Z)
| c_flush
| c_begin
| c_end
| c_tick.

Definition run_call (c : call) : M Wal unit :=
  match c with
  | c_append op args => append op args
  | c_reserve n => reserve_record n
  | c_flush => flush
  | c_begin => begin_batch
  | c_end => end_batch
  | c_tick => flusher_tick
  end.

Definition record_of (c : call) : list (WalOp * list bytes) :=
  match c with c_append op args => [(op, args)] | _ => [] end.

Definition call_ok (c : call) : Prop :=
  match c with c_append op _ => real_op op | _ => True end.

(** A history: the calls in order, whatever each returns; the records whose
    [append] returned, and the state after. *)
Fixpoint history (cs : list call) (w : Wal) : list (WalOp * list bytes) * Wal :=
  match cs with
  | [] => ([], w)
  | c :: cs =>
      let '(r, w) := run_call c w in
      let '(rs, w) := history cs w in
      (match r with inl _ => rs | inr _ => record_of c ++ rs end, w)
  end.

(** What a crash may leave of a file, and of the log. *)
Definition file_image (f : File) (d : bytes) : Prop :=
  exists k, (durable f <= k <= length (contents f))%nat /\ d = take k (contents f).

Definition crash_image (w : Wal) (d : bytes) : Prop :=
  file_image (disk_ w) d \/ exists f, replaced_ w = Some f /\ file_image f d.

(** ** Each call keeps the invariant *)

(** The calls on the file change the file and the script, nothing else. *)
Definition on_file (d : File) (w : Wal) (sc : list io_outcome) : Wal := set_script sc (set_disk d w).

Lemma outcome_wp (Q : io_outcome -> Wal -> Prop) E w :
  (forall o sc, Q o (set_script sc w)) -> wp outcome Q E w.
Proof.
  intros H. unfold wp, outcome. destruct w as [? ? ? ? ? ? ? ? ? [|o sc]]; simpl.
  - apply (H _ []).
  - apply (H o sc).
Qed.

Lemma syscall_wp (Q : bool -> Wal -> Prop) E w :
  (forall ok sc, Q ok (set_script sc w)) -> wp syscall Q E w.
Proof. intros H. unfold syscall. wp_steps. apply outcome_wp. intros o sc. apply H. Qed.

Lemma require_wp e (m : M Wal bool) (Q : unit -> Wal -> Prop) E w :
  wp m (fun ok w' => if ok then Q tt w' else E e w') E w -> wp (require e m) Q E w.
Proof. intros H. unfold require. wp_steps. eapply wp_mono; [apply H| |done]. by intros []. Qed.

Lemma require_syscall_wp e (Q : unit -> Wal -> Prop) E w :
  (forall sc, Q tt (set_script sc w) /\ E e (set_script sc w)) -> wp (require e syscall) Q E w.
Proof.
  intros H. apply require_wp, syscall_wp. intros [] sc; apply H.
Qed.

Lemma pass_on_grows n f : exists x, contents (pass_on n f) = contents f ++ x.
Proof. by eexists. Qed.

Lemma fflush_wp (Q : bool -> Wal -> Prop) E w :
  (forall ok d sc, log_of d = log_of (disk_ w) -> (exists x, contents d = contents (disk_ w) ++ x) ->
     durable d = durable (disk_ w) -> (ok = true -> stdio d = []) -> Q ok (on_file d w sc)) ->
  wp fflush Q E w.
Proof.
  intros H. unfold fflush. wp_steps. apply outcome_wp. intros o sc. wp_steps.
  apply (H (io_ok o) _ sc); simpl; [apply log_pass_on|apply pass_on_grows|done|].
  intros ->. apply drop_all.
Qed.

Lemma fdatasync_wp (Q : bool -> Wal -> Prop) E w :
  (forall ok sc n, (if ok : bool then n = length (contents (disk_ w)) else n = durable (disk_ w)) ->
     Q ok (on_file (mkFile (stdio (disk_ w)) (contents (disk_ w)) n) w sc)) ->
  wp fdatasync Q E w.
Proof.
  intros H. unfold fdatasync. wp_steps. apply outcome_wp. intros o sc. wp_steps.
  destruct (io_ok o) eqn:Ho; [by apply (H true sc)|].
  specialize (H false sc _ eq_refl). by destruct w as [? ? [] ? ? ? ? ? ? ?].
Qed.

Lemma fwrite_wp data (Q : bool -> Wal -> Prop) E w :
  (forall (ok : bool) d sc k, let a := if ok then data else take k data in
     log_of d = log_of (disk_ w) ++ a -> (exists x, contents d = contents (disk_ w) ++ x) ->
     durable d = durable (disk_ w) -> Q ok (on_file d w sc)) ->
  wp (fwrite data) Q E w.
Proof.
  intros H. unfold fwrite. wp_steps. apply outcome_wp. intros o sc. wp_steps.
  apply (H (io_ok o) _ sc (io_accepted o)); [|by eexists|done].
  etransitivity; [apply log_pass_on|]. unfold log_of. simpl. by rewrite app_assoc.
Qed.

Lemma grows_file w d sc :
  (exists x, contents d = contents (disk_ w) ++ x) -> (durable (disk_ w) <= durable d)%nat ->
  grows w (on_file d w sc).
Proof. intros ? ?. by split_and!. Qed.

(** Replacing the file by one with the same log, no less durable. *)
Lemma inv_same_log rs w d sc :
  wal_inv rs w -> log_of d = log_of (disk_ w) ->
  (durable (disk_ w) <= durable d <= length (contents d))%nat ->
  dirty_ w = true \/ failed_ w = true -> wal_inv rs (on_file d w sc).
Proof.
  intros [Hr Hl Hd Ho Hc] El Hdur Hdirty. constructor; simpl; try done.
  - by rewrite El.
  - lia.
  - by rewrite El.
  - intros Hf Hdf. destruct Hdirty; congruence.
Qed.

Lemma inv_fail rs w : wal_inv rs w -> wal_inv rs (set_failed true w).
Proof.
  intros [Hr [t (Hl & Ht & Hf)] Hd Ho Hc]. constructor; simpl; try done. by exists t.
Qed.

Lemma prefix_length {A} (x y : list A) : (exists z, y = x ++ z) -> (length x <= length y)%nat.
Proof. intros [z ->]. rewrite length_app. lia. Qed.

Lemma flush_inv rs w :
  wal_inv rs w ->
  wp flush_locked
     (fun _ w' => wal_inv rs w' /\ grows w w' /\ failed_ w' = false /\ dirty_ w' = false /\
                  defer_sync_ w' = defer_sync_ w /\ capacity_ w' = capacity_ w /\ failed_ w = false)
     (fun e w' => wal_inv rs w' /\ grows w w' /\ failed_ w' = true /\ e = write_failed /\
                  (failed_ w = true -> w' = w)) w.
Proof.
  intros H. unfold flush_locked. wp_steps.
  destruct (failed_ w) eqn:Hf; wp_steps; [split_and!; auto using grows_refl|].
  destruct (dirty_ w) eqn:Hd; simpl; wp_steps; [|split_and!; auto using grows_refl].
  apply fflush_wp. intros ok d sc El Hpre Edur Hstd.
  pose proof (prefix_length _ _ Hpre) as Hlen. pose proof (inv_durable _ _ H) as Hdur.
  assert (wal_inv rs (on_file d w sc)) as H1 by (apply inv_same_log; [done|done|lia|by left]).
  destruct ok; simpl; wp_steps.
  2:{ split_and!; [by apply inv_fail|by apply grows_file; [|lia]|done|done|congruence]. }
  specialize (Hstd eq_refl).
  assert (forall w', wal_inv rs w' -> failed_ w' = false -> stdio (disk_ w') = [] ->
    (sync_ w' <> sync_none -> durable (disk_ w') = length (contents (disk_ w'))) ->
    wal_inv rs (set_dirty false w')) as Hclean.
  { intros w' [? ? ? ? ?] ? ? ?. by constructor. }
  destruct (bool_decide_reflect (sync_ (on_file d w sc) = sync_none)) as [En|En]; wp_steps.
  - split_and!; try done; [by apply Hclean|by apply grows_file; [|lia]].
  - apply fdatasync_wp. intros ok sc' n Hn. simpl in Hn.
    assert (wal_inv rs (on_file (mkFile (stdio d) (contents d) n) (on_file d w sc) sc')) as H2.
    { apply inv_same_log; [done|done| |by left]. simpl. destruct ok; lia. }
    assert (grows w (on_file (mkFile (stdio d) (contents d) n) (on_file d w sc) sc')) as Hg.
    { apply grows_trans with (on_file d w sc); [apply grows_file; [done|lia]|].
      apply grows_file; [exists []; by rewrite app_nil_r|simpl; destruct ok; lia]. }
    destruct ok; simpl negb; cbn iota; wp_steps.
    + split_and!; try done. apply Hclean; done.
    + split_and!; [by apply inv_fail|done|done|done|congruence].
Qed.

(** The script, the capacity and the batch flag do not matter. *)
Lemma inv_script rs w sc : wal_inv rs w -> wal_inv rs (set_script sc w).
Proof. intros []; by constructor. Qed.
Lemma inv_capacity rs w n : wal_inv rs w -> wal_inv rs (set_capacity n w).
Proof. intros []; by constructor. Qed.
Lemma inv_defer rs w b : wal_inv rs w -> wal_inv rs (set_defer b w).
Proof. intros []; by constructor. Qed.
#[local] Hint Resolve inv_script inv_capacity inv_defer grows_refl : reddish.

Lemma buffer_reserve_wp n (Q : unit -> Wal -> Prop) E w :
  (forall sc c, capacity_ w <= c -> n <= c -> Q tt (set_capacity c (set_script sc w))) ->
  (forall sc, capacity_ w < n -> E exn_bad_alloc (set_script sc w)) ->
  wp (buffer_reserve n) Q E w.
Proof.
  intros HQ HE. unfold buffer_reserve. wp_steps. destruct (Z.leb_spec n (capacity_ w)); wp_steps.
  - specialize (HQ (script_ w) (capacity_ w)). destruct w. apply HQ; simpl in *; lia.
  - apply require_syscall_wp. intros sc. split; [|by apply HE]. wp_steps. apply HQ; lia.
Qed.

Lemma take_record (b : bytes) k :
  take k b = [] \/ take k b = b \/ exists u, b = take k b ++ u /\ take k b <> [] /\ u <> [].
Proof.
  destruct (decide (take k b = [])) as [E|E]; [by left|right].
  destruct (decide (drop k b = [])) as [E'|E'].
  - left. rewrite <- (take_drop k b) at 2. by rewrite E', app_nil_r.
  - right. exists (drop k b). by rewrite take_drop.
Qed.

Lemma concat_snoc rs r : concat (map enc (rs ++ [r])) = concat (map enc rs) ++ enc r.
Proof. by rewrite map_app, concat_app; simpl; rewrite app_nil_r. Qed.

(** A record, or a part of one, written at the end of a log in order. *)
Lemma inv_written rs r w d sc k (ok : bool) :
  wal_inv rs w -> failed_ w = false -> record_ok r ->
  log_of d = log_of (disk_ w) ++ (if ok then enc r else take k (enc r)) ->
  (exists x, contents d = contents (disk_ w) ++ x) -> durable d = durable (disk_ w) ->
  if ok then
    wal_inv (rs ++ [r])
      (set_dirty true (set_bytes (u64 (bytes_ w + len (enc r))) (on_file d w sc)))
  else exists rs', (rs' = [] \/ rs' = [r]) /\ wal_inv (rs ++ rs') (set_failed true (on_file d w sc)).
Proof.
  intros [Hr [t (Hl & Ht & Hf)] Hd Ho Hc] Hfail Hok El Hpre Edur.
  pose proof (prefix_length _ _ Hpre) as Hlen. rewrite (Hf Hfail), app_nil_r in Hl.
  rewrite Hl in El. destruct (Ho Hfail) as (Hopen & Hrep & Hb).
  destruct ok.
  - constructor; simpl; try done.
    + apply Forall_app. auto.
    + exists []. rewrite app_nil_r, concat_snoc, El, <- app_assoc. split_and!; try done. by left.
    + lia.
    + intros _. split_and!; try done. rewrite El, <- Hl, len_app. unfold u64 in *.
      by rewrite Zmod_mod, <- Zplus_mod_idemp_l, Hb, Zplus_mod_idemp_l.
  - assert (forall rs' t', Forall record_ok rs' -> torn t' ->
      concat (map enc rs') ++ t' = take k (enc r) ->
      wal_inv (rs ++ rs') (set_failed true (on_file d w sc))) as Hgo.
    { intros rs' t' Hr' Ht' E. constructor; simpl; try done; [|exists t'|lia].
      - apply Forall_app. auto.
      - split_and!; [|done|done]. rewrite El, <- E, map_app, concat_app, <- !app_assoc. done. }
    destruct (take_record (enc r) k) as [E|[E|(u & E & Hne & Hu)]].
    + exists []. split; [by left|]. apply (Hgo [] []); [constructor|by left|by rewrite E].
    + exists [r]. split; [by right|]. apply (Hgo [r] []); [by constructor|by left|].
      simpl. by rewrite !app_nil_r.
    + exists []. split; [by left|]. apply (Hgo [] (take k (enc r))); [constructor| |done].
      right. by exists r, u.
Qed.

(** [append]: on a return the record is in the log, durable when the policy
    asks for it; on a throw either nothing was written, or the log has failed. *)
Definition appended (rs : list (WalOp * list bytes)) (r : WalOp * list bytes) (w w' : Wal) : Prop :=
  wal_inv (rs ++ [r]) w' /\ grows w w' /\ failed_ w' = false /\
  (sync_ w = sync_always -> defer_sync_ w = false -> dirty_ w' = false) /\
  defer_sync_ w' = defer_sync_ w /\ capacity_ w <= capacity_ w' /\ failed_ w = false.

Definition append_threw (rs : list (WalOp * list bytes)) (r : WalOp * list bytes)
    (e : exn) (w w' : Wal) : Prop :=
  (exists rs', (rs' = [] \/ rs' = [r]) /\ wal_inv (rs ++ rs') w' /\
               (failed_ w' = false -> rs' = [] /\ disk_ w' = disk_ w) /\
               (failed_ w = true -> rs' = [])) /\ grows w w' /\
  (failed_ w = true -> w' = w) /\
  (e = exn_bad_alloc -> capacity_ w < len (enc r)).

Lemma append_inv rs w op args :
  real_op op -> wal_inv rs w ->
  wp (append op args) (fun _ => appended rs (op, args) w)
     (fun e => append_threw rs (op, args) e w) w.
Proof.
  intros Hop H. unfold append. wp_steps.
  assert (forall e w', wal_inv rs w' -> disk_ w' = disk_ w -> grows w w' ->
    (failed_ w = true -> w' = w) -> (e = exn_bad_alloc -> capacity_ w < len (enc (op, args))) ->
    append_threw rs (op, args) e w w') as Hnothing.
  { intros e w' H' Hd Hg Hf He. split; [|done]. exists []. rewrite app_nil_r. auto. }
  destruct (failed_ w) eqn:Hf; wp_steps; [apply Hnothing; auto with reddish; discriminate|].
  destruct (build_record op args) as [buffer|c] eqn:Hb; wp_steps;
    [|apply Hnothing; auto with reddish; discriminate].
  destruct (build_record_spec _ _ _ Hb) as (-> & Hargs & Hsize).
  change (encode_record op args) with (enc (op, args)).
  assert (record_ok (op, args)) as Hok by done.
  apply buffer_reserve_wp; [|intros sc Hcap; apply Hnothing; auto using grows_same_file with reddish; congruence].
  intros sc c Hc Hn. wp_steps. apply fwrite_wp. intros ok d sc' k a El Hpre Edur.
  set (w1 := set_capacity c (set_script sc w)) in *.
  assert (wal_inv rs w1) as H1 by (unfold w1; auto with reddish).
  pose proof (inv_written rs (op, args) w1 d sc' k ok H1 Hf Hok El Hpre Edur) as Hw.
  assert (grows w (on_file d w1 sc')) as Hg.
  { apply grows_trans with w1; [by apply grows_same_file|apply grows_file; [done|lia]]. }
  destruct ok; simpl negb; cbn iota; wp_steps.
  - apply wp_when; intros Hs.
    + eapply wp_mono; [apply (flush_inv _ _ Hw)| |].
      * intros u w' (? & Hg' & ? & ? & ? & Hcap & _). split_and!; try done.
        -- by eapply grows_trans.
        -- rewrite Hcap. done.
      * intros e w' (Hi & Hg' & Hf' & -> & _). split_and!; try done.
        -- exists [(op, args)]. split_and!; [by right|done|congruence|congruence].
        -- by eapply grows_trans.
        -- congruence.
    + split_and!; try done. simpl in *. intros E1 E2. rewrite E1, E2 in Hs. discriminate.
  - destruct Hw as (rs' & Hrs & Hw). split_and!; try done; [|congruence].
    exists rs'. split_and!; [done|done|discriminate|congruence].
Qed.

Lemma flush_throws_failed w : wp flush_locked (fun _ _ => True) (fun _ w' => failed_ w' = true) w.
Proof.
  unfold flush_locked. wp_steps. destruct (failed_ w) eqn:Hf; wp_steps; [exact Hf|].
  destruct (negb (dirty_ w)); wp_steps; [done|].
  apply fflush_wp. intros ok d sc _ _ _ _. destruct ok; cbn [negb]; cbn iota; wp_steps; [|reflexivity].
  destruct (bool_decide _); wp_steps; [done|]. apply fdatasync_wp. intros ok' sc' n _.
  destruct ok'; cbn [negb]; cbn iota; wp_steps; [done|reflexivity].
Qed.

(** A record that fits and has its buffer can only be refused by a log that
    has failed. *)
Lemma append_reserved op args w :
  len args <= 255 -> len (enc (op, args)) <= max_record + 8 -> len (enc (op, args)) <= capacity_ w ->
  wp (append op args) (fun _ _ => True) (fun _ w' => failed_ w' = true) w.
Proof.
  intros Ha Hm Hc. change (enc (op, args)) with (encode_record op args) in *. unfold append. wp_steps.
  destruct (failed_ w) eqn:Hf; wp_steps; [exact Hf|].
  rewrite build_record_ok by (rewrite ?len_encode_record in Hm; lia). wp_steps.
  apply buffer_reserve_wp; [|intros sc Hcap; lia]. intros sc c _ _. wp_steps.
  apply fwrite_wp. intros ok d sc' k a _ _ _. destruct ok; cbn [negb]; cbn iota; wp_steps; [|reflexivity].
  apply wp_when; intros _; [apply flush_throws_failed|done].
Qed.

(** A failed log stays failed and its file is left alone. *)
Definition frozen (w w' : Wal) : Prop :=
  failed_ w = true -> failed_ w' = true /\ disk_ w' = disk_ w.

(** What a call that appends [new] leaves, on a return and on a throw. *)
Definition call_returned rs (new : list (WalOp * list bytes)) (w w' : Wal) : Prop :=
  wal_inv (rs ++ new) w' /\ grows w w' /\ frozen w w' /\ (failed_ w = true -> new = []).

Definition call_threw rs (new : list (WalOp * list bytes)) (w w' : Wal) : Prop :=
  (exists rs', (rs' = [] \/ rs' = new) /\ wal_inv (rs ++ rs') w' /\
               (failed_ w' = false -> rs' = []) /\ (failed_ w = true -> rs' = [])) /\
  grows w w' /\ frozen w w'.

Lemma call_quiet rs w w' :
  wal_inv rs w' -> sync_ w' = sync_ w -> replaced_ w' = replaced_ w -> disk_ w' = disk_ w ->
  failed_ w' = failed_ w ->
  call_returned rs [] w w' /\ forall new, call_threw rs new w w'.
Proof.
  intros H E1 E0 E2 E3. assert (frozen w w') by (intros ?; by rewrite E3).
  unfold call_returned, call_threw.
  split; [|intros new]; split_and!; auto using grows_same_file; [by rewrite app_nil_r|].
  exists []. rewrite app_nil_r. auto.
Qed.

Lemma flush_call rs w :
  wal_inv rs w ->
  wp flush_locked (fun _ => call_returned rs [] w) (fun _ => call_threw rs [] w) w.
Proof.
  intros H. unfold call_returned, call_threw. eapply wp_mono; [by apply flush_inv| |].
  - intros u w' (? & ? & ? & ? & ? & ? & ?). rewrite app_nil_r. split_and!; try done. intros ?. congruence.
  - intros e w' (? & ? & ? & -> & Hf). split_and!; try done.
    + exists []. rewrite app_nil_r. auto.
    + intros ?. by rewrite Hf.
Qed.

(** Any call. *)
Lemma call_inv rs w c :
  call_ok c -> wal_inv rs w ->
  wp (run_call c) (fun _ => call_returned rs (record_of c) w)
     (fun _ => call_threw rs (record_of c) w) w.
Proof.
  intros Hok H. destruct c as [op args|n| | | |]; simpl run_call; simpl record_of.
  - eapply wp_mono; [by apply append_inv| |].
    + intros u w' (? & ? & ? & ? & ? & ? & ?). split_and!; try done; intros ?; congruence.
    + intros e w' ((rs' & Hrs & Hi & Hf & Hz) & Hg & Hfail & _). split_and!; [|done|].
      * exists rs'. split_and!; [done|done| |done]. intros ?. by apply Hf.
      * intros E. by rewrite (Hfail E).
  - unfold reserve_record. destruct (_ <? _); [apply wp_throw|apply buffer_reserve_wp];
      intros; apply call_quiet; auto with reddish.
  - by apply flush_call.
  - apply wp_modify, call_quiet; auto with reddish.
  - unfold end_batch. wp_steps. apply (inv_defer _ _ false) in H.
    apply wp_when; intros _; [|by apply call_quiet].
    eapply wp_mono; [apply (flush_call rs _ H)|by intros u w' ?|by intros e w' ?].
  - unfold flusher_tick. wp_steps. eapply wp_mono; [by apply flush_call|done|].
    intros e w' ((rs' & Hrs & Hi & _) & Hg & Hz). wp_steps.
    assert (rs' = []) as -> by tauto. split_and!; [by apply inv_fail|done| |done].
    intros E. by destruct (Hz E).
Qed.

(** Under the policy that syncs every record, outside a batch, nothing waits
    to be written. *)
Definition synced (w : Wal) : Prop :=
  sync_ w = sync_always -> defer_sync_ w = false -> failed_ w = false -> dirty_ w = false.

Lemma flush_cleans w : wp flush_locked (fun _ w' => dirty_ w' = false) (fun _ w' => failed_ w' = true) w.
Proof.
  unfold flush_locked. wp_steps. destruct (failed_ w) eqn:Hf; wp_steps; [exact Hf|].
  destruct (dirty_ w) eqn:Hd; cbn [negb]; wp_steps; [|exact Hd].
  apply fflush_wp. intros ok d sc _ _ _ _. destruct ok; cbn [negb]; cbn iota; wp_steps; [|reflexivity].
  destruct (bool_decide _); wp_steps; [reflexivity|]. apply fdatasync_wp. intros ok' sc' n _.
  destruct ok'; cbn [negb]; cbn iota; wp_steps; reflexivity.
Qed.

Lemma flush_synced w : wp flush_locked (fun _ => synced) (fun _ => synced) w.
Proof.
  eapply wp_mono; [apply flush_cleans|intros u w' Hd _ _ _; exact Hd|].
  intros e w' Hf _ _. congruence.
Qed.

Lemma call_synced c w : synced w -> wp (run_call c) (fun _ => synced) (fun _ => synced) w.
Proof.
  intros Hs. destruct c as [op args|n| | | |]; simpl run_call.
  - unfold append. wp_steps. destruct (failed_ w) eqn:Hf; wp_steps; [exact Hs|].
    destruct (build_record op args) as [b|code]; wp_steps; [|exact Hs].
    apply buffer_reserve_wp; [|intros sc _; exact Hs]. intros sc c _ _. wp_steps.
    apply fwrite_wp. intros ok d sc' k x _ _ _. destruct ok; cbn [negb]; cbn iota; wp_steps; [|intros _ _; discriminate].
    apply wp_when; intros Hb; [apply flush_synced|]. intros E1 E2. simpl in *. rewrite E1, E2 in Hb. discriminate.
  - unfold reserve_record. destruct (_ <? _); wp_steps; [exact Hs|]. apply buffer_reserve_wp; intros; exact Hs.
  - apply flush_synced.
  - unfold begin_batch. wp_steps. intros E1. simpl in *. rewrite E1. discriminate.
  - unfold end_batch. wp_steps. apply wp_when; intros Hb; [apply flush_synced|].
    intros E1. simpl in *. rewrite E1 in Hb. discriminate.
  - unfold flusher_tick. wp_steps. eapply wp_mono; [apply flush_synced|done|]. intros e w' _. wp_steps. intros _ _. discriminate.
Qed.

(** What every call does to a log, whether it returns or throws. *)
Definition moves (w w' : Wal) : Prop := grows w w' /\ frozen w w' /\ (synced w -> synced w').

Lemma moves_refl w : moves w w.
Proof. split_and!; [apply grows_refl|done|done]. Qed.

Lemma moves_trans a b c : moves a b -> moves b c -> moves a c.
Proof.
  intros (G1 & F1 & S1) (G2 & F2 & S2). split_and!; [by eapply grows_trans| |auto].
  intros E. destruct (F1 E) as [E1 <-]. by apply F2.
Qed.

Lemma call_moves rs w c :
  call_ok c -> wal_inv rs w -> wp (run_call c) (fun _ => moves w) (fun _ => moves w) w.
Proof.
  intros Hok Hi. pose proof (call_inv rs w c Hok Hi) as H1. pose proof (call_synced c w) as H2. unfold wp in *.
  destruct (run_call c w) as [[e|u] w']; [destruct H1 as (_ & Hg & Hz)|destruct H1 as (_ & Hg & Hz & _)]; by split.
Qed.

Lemma history_inv cs rs w :
  Forall call_ok cs -> wal_inv rs w ->
  let '(acked, w') := history cs w in
  exists rs', wal_inv (rs ++ acked ++ rs') w' /\ grows w w' /\ frozen w w' /\
    (failed_ w' = false -> rs' = []) /\ (failed_ w = true -> acked = [] /\ rs' = []).
Proof.
  intros Hcs. revert rs w. induction Hcs as [|c cs Hc _ IH]; intros rs w H; simpl.
  { exists []. rewrite app_nil_r. split_and!; try done. apply grows_refl. }
  pose proof (call_inv rs w c Hc H) as Hstep. unfold wp in Hstep.
  destruct (run_call c w) as [[e|u] w1] eqn:Ec.
  - destruct Hstep as ((x & Hx & Hi & Hx1 & Hx2) & Hg & Hz).
    specialize (IH _ _ Hi). destruct (history cs w1) as [acked w2].
    destruct IH as (rs' & Hi' & Hg' & Hz' & Hf1 & Hf2).
    assert (frozen w w2) as Hzz.
    { intros E. destruct (Hz E) as [E1 E2]. destruct (Hz' E1) as [-> ->]. done. }
    assert (grows w w2) as Hgg by by eapply grows_trans.
    destruct (failed_ w1) eqn:Ef.
    + destruct (Hf2 eq_refl) as [-> ->]. exists x. rewrite !app_nil_r in Hi'. split_and!; try done.
      * intros E. destruct (Hz' Ef). congruence.
      * intros E. auto.
    + rewrite (Hx1 eq_refl), app_nil_r in Hi'. exists rs'. split_and!; try done.
      intros E. destruct (Hz E). congruence.
  - destruct Hstep as (Hi & Hg & Hz & Hnew). specialize (IH _ _ Hi).
    destruct (history cs w1) as [acked w2]. destruct IH as (rs' & Hi' & Hg' & Hz' & Hf1 & Hf2).
    exists rs'. rewrite <- !app_assoc in *. split_and!; try done.
    + by eapply grows_trans.
    + intros E. destruct (Hz E) as [E1 E2]. destruct (Hz' E1) as [-> ->]. done.
    + intros E. rewrite (Hnew E). apply Hf2. by apply Hz.
Qed.

(** ** Crashes *)

(** A prefix of a log, at least as long as its first records, holds them. *)
Lemma cut_keeps rs more t u q :
  Forall record_ok (rs ++ more) -> torn t -> concat (map enc more) ++ t = q ++ u ->
  exists complete rest t', Forall record_ok ((rs ++ complete) ++ rest) /\ tail_of rest t' /\
    q = concat (map enc complete) ++ t' /\ complete `prefix_of` more.
Proof.
  intros Hok [->|(r & v & Hr & Er & Ht & Hv)] E.
  - rewrite app_nil_r in E. destruct (log_prefix _ _ _ E) as (c & m & t' & -> & -> & Htail).
    exists c, m, t'. rewrite <- app_assoc. split_and!; try done. by exists m.
  - assert (concat (map enc (more ++ [r])) = q ++ (u ++ v)) as E'.
    { rewrite concat_snoc, Er, app_assoc, E, <- app_assoc. done. }
    destruct (log_prefix _ _ _ E') as (c & m & t' & Em & -> & Htail).
    exists c, m, t'. rewrite <- app_assoc, <- Em, app_assoc. split_and!; try done.
    { apply Forall_app. split; [done|by constructor]. }
    destruct m as [|x m _] using rev_ind.
    + exfalso. rewrite app_nil_r in Em. subst c. apply (f_equal length) in E.
      rewrite concat_snoc, Er, !length_app in E. destruct v; [done|]. simpl in E. lia.
    + rewrite app_assoc in Em. apply app_inj_tail in Em as [-> ->]. by exists m.
Qed.

Lemma torn_tail t rs : torn t -> Forall record_ok rs ->
  exists more, Forall record_ok (rs ++ more) /\ tail_of more t.
Proof.
  intros [->|(r & u & Hr & E & H1 & H2)] Hrs.
  - exists []. rewrite app_nil_r. split; [done|by left].
  - exists [r]. split; [apply Forall_app; split; [done|by apply Forall_singleton]|].
    right. by exists r, [], u.
Qed.

Lemma tail_torn t rs more : Forall record_ok (rs ++ more) -> tail_of more t -> torn t.
Proof.
  intros Hok [->|(r & rs' & u & -> & E & H1 & H2)]; [by left|]. right. exists r, u. split; [|done].
  apply Forall_app in Hok as [_ Hok]. by inversion Hok.
Qed.

(** Opening a file that a log left: [rs] are its complete records. *)
Definition opens_as (found : bytes) (rs : list (WalOp * list bytes)) : Prop :=
  (found = [] /\ rs = []) \/
  (exists t, found = magic ++ concat (map enc rs) ++ t /\ torn t /\ Forall record_ok rs).

(** Every file has at most one list of complete records. *)
Lemma recover_opened {St} (replay : WalOp -> list bytes -> St -> option exn * St) rs t st :
  Forall record_ok rs -> torn t ->
  recover replay (Some (magic ++ concat (map enc rs) ++ t)) None st =
  match replay_all replay rs st with
  | (Some e, st') => (scan_throw e, st', Some (magic ++ concat (map enc rs) ++ t))
  | (None, st') => (scan_done (8 + len (concat (map enc rs))) (negb (bool_decide (t = []))), st',
                    Some (magic ++ concat (map enc rs)))
  end.
Proof. intros Hok Ht. destruct (torn_tail t rs Ht Hok) as (more & Hm & Htail). by apply (recover_cut replay rs more). Qed.

(** What every crash image of a log that holds [rs ++ more] opens as, when its
    first records [rs] are durable. *)
Lemma image_opens rs more f t d :
  Forall record_ok (rs ++ more) -> torn t ->
  log_of f = magic ++ concat (map enc (rs ++ more)) ++ t ->
  (length (magic ++ concat (map enc rs)) <= durable f)%nat -> file_image f d ->
  exists complete t', complete `prefix_of` more /\ d = magic ++ concat (map enc (rs ++ complete)) ++ t' /\
    torn t' /\ Forall record_ok (rs ++ complete).
Proof.
  intros Hok Ht El Hdur (k & Hk & ->).
  set (base := magic ++ concat (map enc rs)) in *.
  assert (log_of f = base ++ concat (map enc more) ++ t) as El'.
  { rewrite El, map_app, concat_app. unfold base. by rewrite <- !app_assoc. }
  unfold log_of in El'.
  assert (exists q, take k (contents f) = base ++ q) as [q Eq].
  { exists (drop (length base) (take k (contents f))).
    rewrite <- (take_drop (length base) (take k (contents f))) at 1. f_equal.
    rewrite take_take, Nat.min_l by lia.
    transitivity (take (length base) (contents f ++ stdio f)).
    - rewrite take_app_le by lia. done.
    - rewrite El', take_app_le, firstn_all by lia. done. }
  rewrite <- (take_drop k (contents f)), Eq, <- !app_assoc in El'. apply app_inv_head in El'.
  destruct (cut_keeps rs more t _ q Hok Ht (eq_sym El')) as (c & m & t' & Hok' & Htail & -> & Hpre).
  exists c, t'. split; [done|]. split; [|split; [by eapply tail_torn|by apply Forall_app in Hok' as [? _]]].
  rewrite Eq. unfold base. by rewrite <- app_assoc, (app_assoc _ _ t'), <- concat_app, <- map_app.
Qed.

Lemma image_recovers {St} (replay : WalOp -> list bytes -> St -> option exn * St) rs more f t d st :
  Forall record_ok (rs ++ more) -> torn t ->
  log_of f = magic ++ concat (map enc (rs ++ more)) ++ t ->
  (length (magic ++ concat (map enc rs)) <= durable f)%nat -> file_image f d ->
  exists complete, complete `prefix_of` more /\
    forall st', replay_all replay (rs ++ complete) st = (None, st') ->
      exists tail, recover replay (Some d) None st =
        (scan_done (8 + len (concat (map enc (rs ++ complete)))) tail, st',
         Some (magic ++ concat (map enc (rs ++ complete)))).
Proof.
  intros Hok Ht El Hdur Him. destruct (image_opens rs more f t d Hok Ht El Hdur Him) as (c & t' & Hc & -> & Ht' & Hok').
  exists c. split; [done|]. intros st' Hrep. exists (negb (bool_decide (t' = []))).
  rewrite (recover_opened replay _ _ st Hok' Ht'). by rewrite Hrep.
Qed.

(** ** Opening *)

Lemma on_wal_wp {St A} (m : M Wal A) (Q : A -> Wal * St -> Prop) E w st :
  wp m (fun a w' => Q a (w', st)) (fun e w' => E e (w', st)) w -> wp (on_wal m) Q E (w, st).
Proof. unfold wp, on_wal. by destruct (m w) as [[]]. Qed.

Lemma take_lock_wp (Q : unit -> Wal -> Prop) E w :
  (forall sc, Q tt (set_script sc w) /\ E write_failed (set_script sc w)) -> wp take_lock Q E w.
Proof.
  intros H. unfold take_lock. wp_steps. apply require_syscall_wp. intros sc. split; [|apply H].
  apply require_syscall_wp. intros sc'. apply (H sc').
Qed.

Lemma sync_directory_wp (Q : unit -> Wal -> Prop) E w :
  (forall sc, Q tt (set_replaced None (set_script sc w))) ->
  (forall sc, E write_failed (set_script sc w)) -> wp sync_directory Q E w.
Proof.
  intros HQ HE. unfold sync_directory. wp_steps. apply require_syscall_wp. intros sc. split; [|apply HE].
  wp_steps. apply require_syscall_wp. intros sc'. split; [|apply (HE sc')]. wp_steps. apply (HQ sc').
Qed.

(** An open log with the records [rs], all durable if the policy syncs at all. *)
Definition opened (sync : WalSync) (rs : list (WalOp * list bytes)) (w : Wal) : Prop :=
  wal_inv rs w /\ failed_ w = false /\ dirty_ w = false /\ sync_ w = sync /\ defer_sync_ w = false.

Lemma create_header_inv sync w E :
  sync_ w = sync -> file_ w = true -> replaced_ w = None -> failed_ w = false ->
  defer_sync_ w = false -> disk_ w = mkFile [] [] 0 -> (forall w, E write_failed w) ->
  wp create_header (fun _ => opened sync []) E w.
Proof.
  intros Hs Ho Hr Hf Hdef Hd HE. unfold create_header. wp_steps. apply require_wp, fwrite_wp.
  rewrite Hd. intros ok d sc k a El Hpre Edur. destruct ok; [|apply HE]. wp_steps. simpl in El, Edur.
  eapply wp_mono; [apply (flush_inv [])| |intros e w' (_ & _ & _ & -> & _); apply HE].
  { constructor; simpl; [done| |lia|by rewrite El|done].
    exists []. split_and!; [done|by left|done]. }
  intros u w' (Hi & (Hs' & Hrep & _) & Hf' & Hd' & Hdef' & _). simpl in *. wp_steps.
  apply wp_when; intros _; [|split_and!; congruence].
  apply sync_directory_wp; [|intros; apply HE]. intros sc'. split_and!; simpl; try congruence.
  apply inv_script with (sc := sc') in Hi. destruct Hi as [? ? ? Hop ?]. constructor; try done.
  simpl in *. intros E'. by destruct (Hop E') as (? & ? & ?).
Qed.

Lemma abandon_open_throws e (Q : unit -> Wal -> Prop) w : wp (abandon_open e) Q (fun e' _ => e' = e) w.
Proof.
  unfold abandon_open. wp_steps. apply wp_when; intros _; [|done]. unfold fclose. wp_steps. by apply fflush_wp.
Qed.

(** Why a file that holds [rs] may fail to open: a call on it failed, before
    the records were replayed or after, or replaying one of them did. *)
Definition open_threw {St} (replay : WalOp -> list bytes -> St -> option exn * St) rs st (e : exn) (st' : St) : Prop :=
  ((e = write_failed \/ e = exn_filesystem) /\ (st' = st \/ replay_all replay rs st = (None, st'))) \/
  replay_all replay rs st = (Some e, st').

(** What [recover_file] makes of a file that holds [rs]. *)
Lemma recover_file_inv {St} (replay : WalOp -> list bytes -> St -> option exn * St)
    rs found w st :
  opens_as found rs -> disk_ w = mkFile [] found (length found) ->
  failed_ w = false -> dirty_ w = false -> file_ w = true -> replaced_ w = None ->
  wp (recover_file replay None)
     (fun valid '(w', st') => replay_all replay rs st = (None, st') /\
        exists sc d, w' = on_file d w sc /\
          ((valid = 0 /\ rs = [] /\ d = mkFile [] [] 0) \/
           (0 < valid /\ wal_inv rs (set_bytes valid w'))))
     (fun e x => open_threw replay rs st e (snd x)) (w, st).
Proof.
  intros Hfound Hd Hf Hdirty Hopen Hrep. unfold wp, recover_file. rewrite Hd. cbn [contents].
  destruct Hfound as [[-> ->]|(t & -> & Ht & Hok)].
  { simpl. split; [done|]. exists (script_ w), (disk_ w). rewrite Hd. split; [by destruct w; simpl in *; subst|].
    left. done. }
  rewrite (recover_opened replay rs t st Hok Ht).
  destruct (replay_all replay rs st) as [[e|] st'] eqn:Erep; [by right|].
  set (log := magic ++ concat (map enc rs)).
  assert (forall sc n, n = length log -> wal_inv rs (set_bytes (8 + len (concat (map enc rs)))
            (on_file (mkFile [] log n) w sc))) as Hinv.
  { intros sc n ->. constructor; simpl; try done; unfold log_of; simpl; rewrite ?app_nil_r.
    - exists []. rewrite app_nil_r. split_and!; [done|by left|done].
    - intros _. split_and!; [done|done|]. f_equal. symmetry. apply (len_app magic). }
  pose proof (len_nonneg (concat (map enc rs))) as Hpos.
  destruct (bool_decide_reflect (t = [])) as [->|Hne]; simpl.
  - split; [done|]. rewrite app_nil_r in Hd. exists (script_ w), (mkFile [] log (length log)).
    assert (w = on_file (mkFile [] log (length log)) w (script_ w)) as Ew.
    { destruct w; simpl in *. by subst. }
    split; [done|]. right. split; [lia|]. rewrite Ew. by apply Hinv.
  - cbn [default].
    assert (forall Q : Z -> Wal * St -> Prop, wp (do! resize_file log in ret (8 + len (concat (map enc rs))))
      (fun v w' => Q v (w', st')) (fun e w' => open_threw replay rs st e st') w ->
      match on_wal (do! resize_file log in ret (8 + len (concat (map enc rs)))) (w, st') with
      | (inl e, x) => open_threw replay rs st e (snd x) | (inr v, x) => Q v x end) as Hon by (intros Q; apply (on_wal_wp _ Q (fun e x => open_threw replay rs st e (snd x)))).
    apply Hon. unfold resize_file. wp_steps. apply require_syscall_wp. intros sc. split; [|left; cbn [snd]; auto].
    wp_steps. split; [done|]. exists sc, (mkFile [] log (length log)).
    assert (Nat.min (durable (disk_ w)) (length log) = length log) as Hmin.
    { rewrite Hd. cbn [durable]. unfold log. rewrite app_assoc, (length_app _ t). lia. }
    assert (set_disk (mkFile [] log (Nat.min (durable (disk_ w)) (length log))) (set_script sc w)
            = on_file (mkFile [] log (length log)) w sc) as Ew by by rewrite Hmin.
    split; [exact Ew|]. right. split; [lia|].
    change (wal_inv rs (set_bytes (8 + len (concat (map enc rs)))
      (set_disk (mkFile [] log (Nat.min (durable (disk_ w)) (length log))) (set_script sc w)))).
    rewrite Ew. by apply Hinv.
Qed.

Lemma construct_inv {St} (replay : WalOp -> list bytes -> St -> option exn * St)
    sync found script rs st :
  opens_as found rs ->
  wp (construct replay None)
     (fun _ '(w, st') => opened sync rs w /\ replay_all replay rs st = (None, st'))
     (fun e x => open_threw replay rs st e (snd x)) (unopened sync found script, st).
Proof.
  intros Hfound. unfold construct. wp_steps. apply on_wal_wp, require_syscall_wp.
  intros sc0. split; [|left; auto]. wp_steps.
  assert (forall e (x : Wal * St), open_threw replay rs st e (snd x) -> wp (on_wal (abandon_open e))
      (fun _ '(w, st') => opened sync rs w /\ replay_all replay rs st = (None, st'))
      (fun e x => open_threw replay rs st e (snd x)) x) as Hcatch.
  { intros e [w st'] He. apply on_wal_wp. eapply wp_mono; [apply (abandon_open_throws e (fun _ _ => False))|done|].
    by intros e' w' ->. }
  assert (forall w, open_threw replay rs st write_failed (snd (w : Wal, st))) as Hearly by (left; auto).
  apply on_wal_wp, take_lock_wp. intros sc1. split; [|by apply Hcatch].
  wp_steps. apply on_wal_wp, require_syscall_wp. intros sc2. split; [|by apply Hcatch].
  wp_steps. apply on_wal_wp. wp_steps. apply on_wal_wp, take_lock_wp. intros sc3. split; [|by apply Hcatch].
  wp_steps. eapply wp_mono; [by apply (recover_file_inv replay rs found)| |intros e x He; by apply Hcatch].
  intros valid [w' st'] (Hrep & sc & d & -> & Hd). apply on_wal_wp. unfold finish_open. wp_steps.
  apply require_syscall_wp. intros sc4. split; [|apply Hcatch; left; auto]. wp_steps.
  apply wp_when; intros Hv.
  - apply Z.eqb_eq in Hv as ->. destruct Hd as [(_ & -> & ->)|[? _]]; [|lia].
    eapply wp_mono; [apply (create_header_inv sync _ (fun e _ => e = write_failed)); done|done|].
    intros e w' ->. apply Hcatch. left. auto.
  - destruct Hd as [(-> & _)|[_ Hi]]; [done|]. split; [|done]. split_and!; try done.
    apply (inv_script _ _ sc4) in Hi. done.
Qed.

(** ** Compaction *)

(** A snapshot writer that, when it returns, has appended records in [P]. *)
Definition writes (write : M Wal unit) (P : list (WalOp * list bytes) -> Prop) : Prop :=
  forall rs w, wal_inv rs w ->
    wp write (fun _ w' => exists new, P new /\ wal_inv (rs ++ new) w' /\ grows w w') (fun _ _ => True) w.

Lemma writes_nothing (P : list (WalOp * list bytes) -> Prop) : P [] -> writes (ret tt) P.
Proof. intros HP rs w H. exists []. rewrite app_nil_r. split_and!; [done|done|apply grows_refl]. Qed.

Lemma writes_throw e P : writes (throw e) P.
Proof. intros rs w H. done. Qed.

Lemma writes_append op args (P : list (WalOp * list bytes) -> Prop) : real_op op -> P [(op, args)] -> writes (append op args) P.
Proof.
  intros Hop HP rs w H. eapply wp_mono; [by apply append_inv| |done].
  intros u w' (Hi & Hg & _). by exists [(op, args)].
Qed.

Lemma writes_then m1 m2 (P1 P2 P : list (WalOp * list bytes) -> Prop) :
  writes m1 P1 -> writes m2 P2 -> (forall new1 new2, P1 new1 -> P2 new2 -> P (new1 ++ new2)) ->
  writes (do! m1 in m2) P.
Proof.
  intros H1 H2 HP rs w H. apply wp_bind. eapply wp_mono; [by apply H1| |done].
  intros u w1 (new1 & HP1 & Hi1 & Hg1). eapply wp_mono; [by apply H2| |done].
  intros u' w2 (new2 & HP2 & Hi2 & Hg2). exists (new1 ++ new2). rewrite app_assoc.
  split_and!; [by apply HP|done|by eapply grows_trans].
Qed.

Lemma writes_calls cs : Forall call_ok cs -> writes (for_each cs run_call) (eq (concat (map record_of cs))).
Proof.
  intros Hcs. induction Hcs as [|c cs Hc _ IH]; [by apply writes_nothing|].
  eapply (writes_then _ _ (eq (record_of c))); [|exact IH|by intros ? ? <- <-].
  intros rs w H. eapply wp_mono; [by apply call_inv| |done]. intros u w1 (Hi & Hg & _). by exists (record_of c).
Qed.

(** The file of a complete log, all of it on the device. *)
Definition settled (rs : list (WalOp * list bytes)) : File :=
  let c := magic ++ concat (map enc rs) in mkFile [] c (length c).

Lemma clean_settled rs w :
  wal_inv rs w -> failed_ w = false -> dirty_ w = false -> sync_ w <> sync_none ->
  disk_ w = settled rs.
Proof.
  intros [_ (t & Hl & _ & Ht) _ _ Hc] Hf Hd Hs. destruct (Hc Hf Hd) as [E1 E2]. specialize (E2 Hs).
  rewrite (Ht Hf), app_nil_r in Hl. unfold log_of in Hl. rewrite E1, app_nil_r in Hl.
  destruct (disk_ w) as [a b c]. unfold settled. simpl in *. by subst.
Qed.

Lemma build_replacement_inv write P w :
  writes write P ->
  wp (build_replacement write)
     (fun '(n, f) w' => (exists sc, w' = set_script sc w) /\
        exists new, P new /\ f = settled new /\ Forall record_ok new /\
        u64 n = u64 (len (contents f)))
     (fun _ w' => exists sc, w' = set_script sc w) w.
Proof.
  intros Hwr. unfold wp, build_replacement.
  pose proof (construct_inv no_replay sync_always [] (script_ w) [] tt) as Hopen. unfold wp in Hopen.
  destruct (construct no_replay None (unopened sync_always [] (script_ w), ())) as [[e|u] [rep st]];
    [by eexists|].
  destruct Hopen as ((Hi & Hf & Hd & Hs & Hdef) & _); [by left|].
  assert (wp (do! begin_batch in do! write in do! end_batch in do! flush in gets bytes_)
    (fun n w' => exists new, P new /\ wal_inv new w' /\ failed_ w' = false /\ dirty_ w' = false /\
                 sync_ w' = sync_always /\ n = bytes_ w') (fun _ _ => True) rep) as Hrun.
  { unfold begin_batch. wp_steps. apply (inv_defer _ _ (bool_decide (sync_ rep = sync_always))) in Hi.
    eapply wp_mono; [by apply (Hwr [])| |done]. intros u1 w1 (new & HP & Hi1 & Hs1 & _). wp_steps.
    eapply wp_mono; [apply (call_inv _ _ c_end I Hi1)| |done].
    intros u2 w2 (Hi2 & (Hs2 & _) & _). wp_steps. simpl record_of in Hi2. rewrite app_nil_r in Hi2.
    eapply wp_mono; [by apply (flush_inv _ _ Hi2)| |done].
    intros u3 w3 (Hi3 & (Hs3 & _) & Hf3 & Hd3 & _). wp_steps. exists new. split_and!; try done.
    rewrite Hs3, Hs2, Hs1. done. }
  unfold wp in Hrun.
  destruct ((do! begin_batch in do! write in do! end_batch in do! flush in gets bytes_) rep)
    as [[e|n] rep']; [destruct (destroy rep'); by eexists|].
  destruct Hrun as (new & HP & Hi' & Hf' & Hd' & Hs' & ->).
  pose proof (clean_settled _ _ Hi' Hf' Hd') as Hset. rewrite Hs' in Hset. specialize (Hset ltac:(done)).
  destruct (inv_open _ _ Hi' Hf') as (Ho & _ & Hb).
  assert (wp destroy (fun _ w' => disk_ w' = disk_ rep') (fun _ _ => False) rep') as Hdes.
  { unfold destroy, flusher_tick, fclose. wp_steps. rewrite Ho. simpl. wp_steps.
    unfold flush_locked. wp_steps. rewrite Hf'. wp_steps. rewrite Hd'. simpl. wp_steps.
    apply fflush_wp. intros ok d sc El [x Hx] Edur _. wp_steps. simpl. rewrite Hset in *.
    unfold log_of in El. rewrite Hx, app_nil_r, <- app_assoc in El.
    rewrite <- (app_nil_r (contents _)) in El at 2. apply app_inv_head, app_nil in El as [-> _].
    rewrite Hx, Edur, app_nil_r. done. }
  unfold wp in Hdes. destruct (destroy rep') as [[e|u'] rep'']; [done|].
  split; [by eexists|]. exists new. split_and!; [exact HP|congruence| |].
  - apply Hi'.
  - rewrite Hdes, Hb. unfold log_of. rewrite Hset. simpl. by rewrite app_nil_r.
Qed.

(** The log a compaction replaces, closed. *)
Definition superseded (rs : list (WalOp * list bytes)) (w : Wal) (old : File) : Prop :=
  log_of old = magic ++ concat (map enc rs) /\
  (durable (disk_ w) <= durable old <= length (contents old))%nat /\
  (exists x, contents old = contents (disk_ w) ++ x).

Lemma switch_file_inv rs new n w :
  wal_inv rs w -> failed_ w = false -> dirty_ w = false -> Forall record_ok new ->
  u64 n = u64 (len (contents (settled new))) ->
  wp (switch_file n (settled new))
     (fun _ w' => wal_inv new w' /\ failed_ w' = false /\ dirty_ w' = false /\ disk_ w' = settled new /\
                  sync_ w' = sync_ w /\ defer_sync_ w' = defer_sync_ w)
     (fun e w' => exists old, superseded rs w old /\
        ((disk_ w' = old /\ replaced_ w' = None) \/
         (disk_ w' = settled new /\ (replaced_ w' = None \/ replaced_ w' = Some old)))) w.
Proof.
  intros H Hf Hd Hnew Hn.
  destruct (inv_clean _ _ H Hf Hd) as [Hstd _]. destruct (inv_open _ _ H Hf) as (Ho & Hrep & _).
  destruct (inv_log _ _ H) as (t & Hl & _ & Ht). rewrite (Ht Hf), app_nil_r in Hl.
  pose proof (inv_durable _ _ H) as Hdur.
  set (old := mkFile [] (contents (disk_ w)) (durable (disk_ w))).
  assert (superseded rs w old) as Hold.
  { unfold log_of in Hl. rewrite Hstd in Hl. split_and!; [done|done|done|exists []; by rewrite app_nil_r]. }
  unfold switch_file, fclose. wp_steps. apply require_wp. wp_steps.
  apply fflush_wp. intros ok d sc El [x Hx] Edur _. wp_steps. simpl.
  assert (mkFile [] (contents d) (durable d) = old) as Eold.
  { unfold log_of in El. rewrite Hx, Hstd, app_nil_r, <- app_assoc in El.
    rewrite <- (app_nil_r (contents (disk_ w))) in El at 2. apply app_inv_head, app_nil in El as [-> _].
    unfold old. rewrite Hx, Edur, app_nil_r. done. }
  rewrite Eold. destruct ok; [|exists old; split; [done|by left]].
  wp_steps. apply require_syscall_wp. intros sc1. split; [|exists old; split; [done|by left]].
  wp_steps. apply sync_directory_wp; [|intros sc2; exists old; split; [done|right; split; [done|by right]]].
  intros sc2. wp_steps. apply require_syscall_wp. intros sc3.
  split; [|exists old; split; [done|right; split; [done|by left]]].
  wp_steps. apply require_syscall_wp. intros sc4.
  split; [|exists old; split; [done|right; split; [done|by left]]].
  wp_steps. apply take_lock_wp. intros sc5.
  split; [|exists old; split; [done|right; split; [done|by left]]].
  wp_steps. split_and!; try done. constructor; simpl; try done.
  - exists []. unfold log_of. simpl. rewrite !app_nil_r. split_and!; [done|by left|done].
  - intros _. split_and!; [done|done|]. unfold log_of. simpl. rewrite app_nil_r. done.
Qed.

Lemma script_moves sc w : moves w (set_script sc w).
Proof. split_and!; [by apply grows_same_file|done|exact (fun H => H)]. Qed.

(** The log after a compaction that failed past the point of no return. *)
Definition stranded rs new (w w' : Wal) : Prop :=
  failed_ w' = true /\ Forall record_ok new /\
  exists old, superseded rs w old /\
    ((disk_ w' = old /\ replaced_ w' = None) \/
     (disk_ w' = settled new /\ (replaced_ w' = None \/ replaced_ w' = Some old))).

Lemma compact_inv write P rs w err :
  writes write P -> wal_inv rs w -> failed_ w = false ->
  wp (compact write err)
     (fun _ w' => exists new, P new /\ wal_inv new w' /\ failed_ w' = false /\ dirty_ w' = false /\
                  disk_ w' = settled new /\ sync_ w' = sync_ w)
     (fun e w' => (wal_inv rs w' /\ moves w w') \/ exists new, P new /\ stranded rs new w w') w.
Proof.
  intros Hwr H Hf. unfold compact. wp_steps.
  destruct (failed_ w || defer_sync_ w); wp_steps; [left; auto using moves_refl|].
  apply require_syscall_wp. intros sc.
  split; [|left; split; [by apply inv_script|apply script_moves]].
  apply (inv_script _ _ sc) in H. wp_steps. unfold prepare_compaction. wp_steps.
  eapply wp_mono; [by apply build_replacement_inv| |].
  2:{ intros e w' [sc' ->]. left. split; [by apply (inv_script _ _ sc')|exact (script_moves sc' w)]. }
  intros [n f] w' ([sc' ->] & new & HP & -> & Hnew & Hn).
  apply (inv_script _ _ sc') in H.
  destruct (recover no_replay (Some (contents (settled new))) err tt) as [[[e|valid tn] st] file]; wp_steps.
  { left. split; [done|exact (script_moves sc' w)]. }
  destruct (negb (valid =? n)); wp_steps; [left; split; [done|exact (script_moves sc' w)]|].
  eapply wp_mono; [apply wp_and; [by apply flush_inv|apply flush_synced]| |].
  2:{ intros e w' ((? & ? & Hf' & _) & ?). left. split; [done|]. split_and!; [done|by intros; congruence|done]. }
  intros u w1 ((Hi & Hg & Hf1 & Hd1 & _) & _). wp_steps.
  eapply wp_mono; [by apply (switch_file_inv rs new n)| |].
  - intros u' w2 (? & ? & ? & ? & Hs2 & ?). exists new. split_and!; try done. rewrite Hs2. apply Hg.
  - intros e w2 (old & (Hl & Hdur & [x Hx]) & Hd2). wp_steps. right. exists new. split; [done|].
    split_and!; [done|done|]. exists old.
    split; [|done]. destruct Hg as (_ & _ & [y Hy] & Hdur'). simpl in Hy, Hdur'.
    split_and!; [done|lia|lia|]. exists (y ++ x). by rewrite Hx, Hy, app_assoc.
Qed.

(** ** Properties *)

(** Recovery of a file, collecting what it replays. *)
Definition collect (op : WalOp) (args : list bytes) (st : list (WalOp * list bytes))
    : option exn * list (WalOp * list bytes) := (None, st ++ [(op, args)]).

Definition recovers (d : bytes) (rs : list (WalOp * list bytes)) : Prop :=
  exists valid tail, recover collect (Some d) None [] =
    (scan_done valid tail, rs, Some (magic ++ concat (map enc rs))).

Lemma replay_collect rs st : replay_all collect rs st = (None, st ++ rs).
Proof.
  revert st. induction rs as [|[op args] rs IH]; intros st; simpl; [by rewrite app_nil_r|].
  rewrite IH, <- app_assoc. done.
Qed.

Lemma log_unique rs rs' t t' :
  Forall record_ok rs -> Forall record_ok rs' -> torn t -> torn t' ->
  magic ++ concat (map enc rs) ++ t = magic ++ concat (map enc rs') ++ t' -> rs = rs'.
Proof.
  intros H1 H2 H3 H4 E. pose proof (recover_opened collect rs t [] H1 H3) as E1.
  rewrite E, (recover_opened collect rs' t' [] H2 H4), !replay_collect in E1. by injection E1.
Qed.

Lemma wal_inv_unique rs rs' w w' : wal_inv rs w -> wal_inv rs' w' -> disk_ w' = disk_ w -> rs' = rs.
Proof.
  intros [Hr (t & Hl & Ht & _) _ _ _] [Hr' (t' & Hl' & Ht' & _) _ _ _] E. rewrite E, Hl in Hl'.
  symmetry. by apply (log_unique rs rs' t t').
Qed.

(** Every crash image of a log that grew from one whose records [rs] are
    durable. *)
Lemma grown_recovers rs more w d :
  wal_inv (rs ++ more) w -> (length (magic ++ concat (map enc rs)) <= durable (disk_ w))%nat ->
  file_image (disk_ w) d -> exists later, later `prefix_of` more /\ recovers d (rs ++ later).
Proof.
  intros [Hok (t & Hl & Ht & _) _ _ _] Hdur Him.
  destruct (image_recovers collect rs more _ t d [] Hok Ht Hl Hdur Him) as (c & Hc & Hrec).
  exists c. split; [done|]. destruct (Hrec _ (replay_collect _ [])) as [tail E].
  eexists _, tail. exact E.
Qed.

Lemma settled_recovers rs d : Forall record_ok rs -> file_image (settled rs) d -> recovers d rs.
Proof.
  intros Hok (k & Hk & ->). unfold settled in *. cbn [durable contents] in *.
  rewrite take_ge by lia. rewrite <- (app_nil_r (concat _)) at 1.
  assert (Forall record_ok (rs ++ [])) as Hok' by by rewrite app_nil_r.
  eexists _, _. rewrite (recover_cut collect rs [] [] [] Hok' (or_introl eq_refl)).
  by rewrite replay_collect.
Qed.

(** The calls after which the policy promises durability. *)
Definition sync_point (c : call) (w : Wal) : bool :=
  match c with
  | c_append _ _ => bool_decide (sync_ w = sync_always) && negb (defer_sync_ w)
  | c_flush => negb (bool_decide (sync_ w = sync_none))
  | c_end => bool_decide (sync_ w = sync_always)
  | _ => false
  end.

Lemma sync_point_clean rs c w :
  call_ok c -> wal_inv rs w -> sync_point c w = true ->
  wp (run_call c) (fun _ w' => failed_ w = false /\ failed_ w' = false /\ dirty_ w' = false /\
                              sync_ w <> sync_none) (fun _ _ => True) w.
Proof.
  intros Hok H Hs. destruct c as [op args|n| | | |]; simpl in Hs; try discriminate; simpl run_call.
  - apply andb_true_iff in Hs as [Hs1 Hs2]. apply bool_decide_eq_true in Hs1.
    apply negb_true_iff in Hs2. eapply wp_mono; [by apply append_inv| |done].
    intros u w' (_ & _ & ? & Hd & _ & _ & ?). split_and!; auto. by rewrite Hs1.
  - apply negb_true_iff, bool_decide_eq_false in Hs. eapply wp_mono; [by apply flush_inv| |done].
    intros u w' (? & ? & ? & ? & ? & ? & ?). done.
  - apply bool_decide_eq_true in Hs. unfold end_batch. wp_steps.
    apply wp_when; intros E; [|simpl in E; rewrite Hs in E; discriminate].
    eapply wp_mono; [apply (flush_inv rs), inv_defer, H| |done].
    intros u w' (? & ? & ? & ? & ? & ? & ?). split_and!; try done. by rewrite Hs.
Qed.

(** C8: an acknowledged record survives.  Take a log opened on a file that
    holds [rs], any calls on it with any pattern of I/O failures, then a call
    that returns normally and after which the policy promises durability, then
    any further calls and failures, then a crash that keeps any part of the
    file containing what was synchronised.  Recovery succeeds and replays
    [rs], every record acknowledged up to the promise, and after them only
    records that were appended later. *)
Theorem acknowledged_records_survive sync found script rs w0 cs acked w c w1 cs' acked' w2 d :
  opens_as found rs ->
  construct collect None (unopened sync found script, []) = (inr tt, (w0, rs)) ->
  Forall call_ok cs -> history cs w0 = (acked, w) ->
  call_ok c -> sync_point c w = true -> run_call c w = (inr tt, w1) ->
  Forall call_ok cs' -> history cs' w1 = (acked', w2) -> crash_image w2 d ->
  exists later, recovers d (rs ++ acked ++ record_of c ++ later).
Proof.
  intros Hfound Hopen Hcs Hh1 Hc Hsync Hrun Hcs' Hh2 Hcrash.
  pose proof (wp_elim _ _ _ _ _ _ (construct_inv collect sync found script rs [] Hfound) Hopen) as [Ho _].
  destruct Ho as (Hi0 & Hf0 & Hd0 & Hs0 & Hdef0).
  pose proof (history_inv cs rs w0 Hcs Hi0) as Hhist. rewrite Hh1 in Hhist.
  destruct Hhist as (x & Hi & _ & _ & Hx & _).
  pose proof (wp_elim _ _ _ _ _ _ (sync_point_clean _ _ _ Hc Hi Hsync) Hrun) as (Hf & Hf1 & Hd1 & Hs).
  rewrite (Hx Hf), app_nil_r in Hi.
  pose proof (wp_elim _ _ _ _ _ _ (call_inv _ _ _ Hc Hi) Hrun) as (Hi1 & (Hs1 & _) & _ & _).
  rewrite <- Hs1 in Hs. pose proof (clean_settled _ _ Hi1 Hf1 Hd1 Hs) as Hset.
  pose proof (history_inv cs' _ w1 Hcs' Hi1) as Hhist. rewrite Hh2 in Hhist.
  destruct Hhist as (y & Hi2 & (_ & Hrep & _ & Hdur) & _).
  destruct (inv_open _ _ Hi1 Hf1) as (_ & Hrep1 & _).
  destruct Hcrash as [Him|(f & E & _)]; [|congruence].
  rewrite Hset in Hdur. destruct (grown_recovers _ _ _ d Hi2 Hdur Him) as (later & _ & Hrec).
  exists later. by rewrite <- !app_assoc in Hrec.
Qed.

(** A new log, and the same after one record. *)
Definition sample_new : Wal :=
  Eval vm_compute in fst (snd (construct collect None (unopened sync_always [] [], []))).
Definition sample_one : Wal :=
  Eval vm_compute in snd (run_call (c_append op_set [of_str "k"; of_str "v"]) sample_new).

Lemma sample_one_image : crash_image sample_one (contents (disk_ sample_one)).
Proof.
  left. exists (length (contents (disk_ sample_one))). split; [split; vm_compute; constructor|].
  vm_compute. reflexivity.
Qed.

Lemma acknowledged_records_survive_witness :
  exists later,
    recovers (contents (disk_ sample_one))
      ([] ++ [] ++ record_of (c_append op_set [of_str "k"; of_str "v"]) ++ later).
Proof.
  exact (acknowledged_records_survive sync_always [] [] [] sample_new [] [] sample_new
    (c_append op_set [of_str "k"; of_str "v"]) sample_one [] [] sample_one
    (contents (disk_ sample_one))
    (or_introl (conj eq_refl eq_refl)) ltac:(vm_compute; reflexivity) (Forall_nil_2 _) eq_refl I
    ltac:(vm_compute; reflexivity) ltac:(vm_compute; reflexivity)
    (Forall_nil_2 _) eq_refl
    sample_one_image).
Defined.

(** While the log has not failed, its file is exactly the records found
    in it and those whose [append] returned, in order; [bytes()] is its size
    (modulo the width of [size_t]).  Once it has failed, no later call
    changes the file or is acknowledged. *)
Theorem log_is_acknowledged_records rs w cs acked w' :
  wal_inv rs w -> Forall call_ok cs -> history cs w = (acked, w') ->
  (failed_ w' = false ->
     log_of (disk_ w') = magic ++ concat (map enc (rs ++ acked)) /\
     u64 (bytes_ w') = u64 (len (log_of (disk_ w')))) /\
  (failed_ w = true -> acked = [] /\ failed_ w' = true /\ disk_ w' = disk_ w).
Proof.
  intros Hi Hcs Hh. pose proof (history_inv cs rs w Hcs Hi) as Hhist. rewrite Hh in Hhist.
  destruct Hhist as (x & Hi' & _ & Hz & Hx & Hacked). split.
  - intros Hf. rewrite (Hx Hf), app_nil_r in Hi'. destruct (inv_open _ _ Hi' Hf) as (_ & _ & Hb).
    destruct (inv_log _ _ Hi') as (t & Hl & _ & Ht). rewrite (Ht Hf), app_nil_r in Hl. done.
  - intros Hf. destruct (Hz Hf), (Hacked Hf). done.
Qed.

(** A log of one record, just opened. *)
Definition sample_log : Wal :=
  set_file true (set_bytes 23 (unopened sync_everysec (magic ++ enc (op_del, [of_str "k"])) [])).

Lemma sample_log_inv : wal_inv [(op_del, [of_str "k"])] sample_log.
Proof.
  constructor; simpl; try done.
  - apply Forall_singleton. split_and!; vm_compute; [done|discriminate|discriminate].
  - exists []. split_and!; [done|by left|done].
Qed.

Definition sample_log_after : Wal :=
  Eval vm_compute in snd (history [c_append op_del [of_str "a"]; c_flush] sample_log).

Lemma log_is_acknowledged_records_witness :
  log_of (disk_ sample_log_after) =
  magic ++ concat (map enc [(op_del, [of_str "k"]); (op_del, [of_str "a"])]).
Proof.
  destruct (log_is_acknowledged_records [(op_del, [of_str "k"])] sample_log
    [c_append op_del [of_str "a"]; c_flush] [(op_del, [of_str "a"])] sample_log_after sample_log_inv
    ltac:(repeat constructor) ltac:(vm_compute; reflexivity)) as [H _].
  exact (proj1 (H eq_refl)).
Defined.

(** C10: compaction is atomic.  Let a log in order hold [rs ++ more] with
    [rs] durable, and let the snapshot writer append the records [new] (with
    any other calls of its own, the replacement's flusher included).
    Whatever calls fail: if [compact] returns, the log is in order and holds
    exactly [new], durably; if it throws, either the log still holds
    [rs ++ more] or it has failed for good; and a crash right after it, or at
    any failing call inside it, recovers to exactly [new], or to [rs] and a
    part of [more]. *)
Theorem compact_atomic rs more w cs err r w' :
  wal_inv (rs ++ more) w -> failed_ w = false ->
  (length (magic ++ concat (map enc rs)) <= durable (disk_ w))%nat ->
  Forall call_ok cs -> compact (for_each cs run_call) err w = (r, w') ->
  let new := concat (map record_of cs) in
  match r with
  | inr _ => wal_inv new w' /\ failed_ w' = false /\ forall d, crash_image w' d -> recovers d new
  | inl _ => (wal_inv (rs ++ more) w' \/ failed_ w' = true) /\
             forall d, crash_image w' d ->
               recovers d new \/ exists later, later `prefix_of` more /\ recovers d (rs ++ later)
  end.
Proof.
  intros Hi Hf Hdur Hcs Hrun new.
  pose proof (wp_elim _ _ _ _ _ _ (compact_inv _ _ (rs ++ more) w err (writes_calls cs Hcs) Hi Hf) Hrun) as H.
  destruct r as [e|u].
  - destruct H as [[Hi' ((_ & Hrep & _ & Hdur') & _)]|(new' & <- & Hf' & Hnew & old & (Hl & Hdur' & Hx) & Hd)].
    + split; [by left|]. destruct (inv_open _ _ Hi Hf) as (_ & Hr & _).
      intros d [Him|(f & E & _)]; [|congruence]. right.
      apply (grown_recovers _ _ w'); [done|lia|done].
    + split; [by right|]. intros d Hcrash.
      assert (file_image old d \/ file_image (settled new) d) as Hd'.
      { destruct Hcrash as [Him|(f & E & Him)], Hd as [[E1 E2]|[E1 [E2|E2]]];
          rewrite ?E1 in Him; try (by left); try (by right); left; congruence. }
      pose proof (inv_records _ _ Hi) as Hok.
      destruct Hd' as [Him|Him]; [right|left].
      * destruct (image_recovers collect rs more old [] d [] Hok (or_introl eq_refl)) as (c & Hc & Hrec);
          [by rewrite app_nil_r|lia|done|].
        exists c. split; [done|]. destruct (Hrec _ (replay_collect _ [])) as [tail E].
        eexists _, tail. exact E.
      * by apply settled_recovers.
  - destruct H as (new' & <- & Hi' & Hf' & Hd' & Hset & _). split_and!; [done|done|].
    destruct (inv_open _ _ Hi' Hf') as (_ & Hr & _).
    intros d [Him|(f & E & _)]; [|congruence]. rewrite Hset in Him.
    apply settled_recovers; [apply Hi'|done].
Qed.

Definition sample_compacted : Wal :=
  Eval vm_compute in
    snd (compact (for_each [c_append op_set [of_str "k"; of_str "v"]; c_tick] run_call) None sample_log).

Lemma compact_atomic_witness : recovers (contents (disk_ sample_compacted)) [(op_set, [of_str "k"; of_str "v"])].
Proof.
  destruct (compact_atomic [(op_del, [of_str "k"])] [] sample_log
    [c_append op_set [of_str "k"; of_str "v"]; c_tick] None (inr tt) sample_compacted
    sample_log_inv eq_refl (le_n _) ltac:(repeat constructor) ltac:(vm_compute; reflexivity)) as (_ & _ & H).
  apply H. left. exists (length (contents (disk_ sample_compacted))).
  split; [split; vm_compute; constructor|]. vm_compute. reflexivity.
Defined.

(** A log that was only just created under the policy that leaves syncing to
    the operating system: a crash may leave a part of its header, and such a
    file is refused, though a record torn in the same way is cut off. *)
Definition sample_created : Wal :=
  Eval vm_compute in fst (snd (construct no_replay None (unopened sync_none [] [], tt))).

Lemma torn_header_unreadable :
  fst (construct no_replay None (unopened sync_none [] [], tt)) = inr tt /\
  forall n, (1 <= n <= 7)%nat -> crash_image sample_created (take n magic) /\
    recover collect (Some (take n magic)) None [] = (read_failed, [], Some (take n magic)).
Proof.
  split; [vm_compute; reflexivity|]. intros n Hn. split.
  - left. exists n. split; [|reflexivity]. split; [apply Nat.le_0_l|]. change (length (contents (disk_ sample_created))) with 8%nat. lia.
  - do 8 (destruct n as [|n]; [try lia; vm_compute; reflexivity|]). lia.
Qed.
