(* ===== verification/Allocator.v ===== *)
(** * Allocator: what the keyspace asks of its memory

    The database places its nodes with [pool_.allocate] and gives them back
    with [pool_.deallocate]; its containers draw on the same resource.  This
    is the contract it relies on: a new block overlaps no live block, a
    refusal is [std::bad_alloc] and takes nothing, and no other call touches
    a live block.  [Slab] shows that the slab pool keeps it. *)

From S2P Require Import Prelude Errors Effects.

(** Two address ranges do not overlap. *)
Definition apart (p n q m : Z) : Prop := p + n <= q \/ q + m <= p.

Class NodeAllocator (A : Type) := {
  al_ok : A -> Prop;
  al_live : A -> gmap Z Z;                 (** nodes: address to size *)
  al_taken : A -> gmap Z Z;                (** blocks taken directly from the resource *)
  al_allocate : Z -> M A Z;
  al_deallocate : Z -> Z -> A -> A;
  al_take : Z -> M A Z;                    (** [memory_.allocate] *)
  al_give : Z -> Z -> A -> A;              (** [memory_.deallocate] *)
  al_container : M A unit;                 (** a container asks for memory *)
  al_return : A -> A;                      (** a container gives memory back *)
  al_allocate_spec n a :
    al_ok a -> 0 <= n ->
    wp (al_allocate n)
       (fun p a' => al_ok a' /\ 0 < p /\ al_live a !! p = None /\ al_live a' = <[p := n]> (al_live a) /\
                    al_taken a' = al_taken a)
       (fun e a' => e = exn_bad_alloc /\ al_ok a' /\ al_live a' = al_live a /\ al_taken a' = al_taken a) a;
  al_deallocate_spec p n a :
    al_ok a -> al_live a !! p = Some n ->
    al_ok (al_deallocate p n a) /\ al_live (al_deallocate p n a) = delete p (al_live a) /\
    al_taken (al_deallocate p n a) = al_taken a;
  al_take_spec n a :
    al_ok a -> 0 <= n ->
    wp (al_take n)
       (fun p a' => al_ok a' /\ 0 < p < 2 ^ 64 /\ al_taken a !! p = None /\ al_taken a' = <[p := n]> (al_taken a) /\
                    al_live a' = al_live a)
       (fun e a' => e = exn_bad_alloc /\ al_ok a' /\ al_live a' = al_live a /\ al_taken a' = al_taken a) a;
  al_give_spec p n a :
    al_ok a -> al_taken a !! p = Some n ->
    al_ok (al_give p n a) /\ al_taken (al_give p n a) = delete p (al_taken a) /\
    al_live (al_give p n a) = al_live a;
  al_container_spec a :
    al_ok a ->
    wp al_container (fun _ a' => al_ok a' /\ al_live a' = al_live a /\ al_taken a' = al_taken a)
       (fun e a' => e = exn_bad_alloc /\ al_ok a' /\ al_live a' = al_live a /\ al_taken a' = al_taken a) a;
  al_return_spec a :
    al_ok a -> al_ok (al_return a) /\ al_live (al_return a) = al_live a /\ al_taken (al_return a) = al_taken a;
  al_allocate_throws n a : wp (al_allocate n) (fun _ _ => True) (fun e _ => e = exn_bad_alloc) a;
  al_take_throws n a : wp (al_take n) (fun _ _ => True) (fun e _ => e = exn_bad_alloc) a;
  al_container_throws a : wp al_container (fun _ _ => True) (fun e _ => e = exn_bad_alloc) a;
  al_apart a p n q m :
    al_ok a -> al_live a !! p = Some n -> al_live a !! q = Some m -> p <> q -> apart p n q m
}.
