(* ===== verification/Slab.v ===== *)
(** * Slab: the memory resource and the slab pool

    [MemoryResource] of [src/memory.hpp] counts what it hands out against a
    limit and asks the pool to give memory back before it refuses;
    [SlabPool] of [src/slab.cpp] carves chunks into blocks of a few sizes.
    The two call each other, so they share one state here.  The upstream
    [new_delete_resource] is a parameter: a function of the time and of what
    is allocated, which may fail at any time and which never returns memory
    that overlaps an allocation. *)

From S2P Require Import Prelude Errors Effects Allocator.

(** ** Size classes *)

Definition class_sizes : list Z :=
  [ 8;   16;  24;  32;   40;   48;   56;   64;   72;   80;   88;   96;
    104; 112; 120; 128;  160;  192;  224;  256;  320;  384;  448;  512;
    640; 768; 896; 1024; 1280; 1536; 1792; 2048; 2560; 3072; 3584; 4096 ].

Definition class_count : Z := 36.
Definition dense_limit : Z := 128.
Definition dense_classes : Z := dense_limit / 8.
Definition class_size (index : Z) : Z := nth (Z.to_nat index) class_sizes 0.
Definition largest_class : Z := class_size (class_count - 1).

(** The binary search; [high - low] halves, so [class_count] rounds are plenty. *)
Fixpoint class_search (fuel : nat) (size low high : Z) : Z :=
  match fuel with
  | O => low
  | S fuel =>
      if low <? high then
        let middle := (low + high) / 2 in
        if class_size middle <? size then class_search fuel size (middle + 1) high
        else class_search fuel size low middle
      else low
  end.

Definition class_index (size : Z) : Z :=
  if size <=? dense_limit then (if size <=? 8 then 0 else (size + 7) / 8 - 1)
  else class_search (Z.to_nat class_count) size dense_classes (class_count - 1).

(** ** State *)

Record Chunk := mkChunk {
  chunk_self : Z;        (** where the [Chunk] itself was allocated *)
  chunk_memory : Z;
  chunk_bytes_ : Z;
  chunk_index : Z
}.

(** [sizeof(Chunk)]. *)
Definition sizeof_Chunk : Z := 32.
Definition chunk_bytes : Z := 64 * 1024.

Record Pool := mkPool {
  limit_ : Z;
  used_ : Z;
  upstream_ : gmap Z Z;          (** what the upstream resource has handed out: address to size *)
  clock_ : nat;                  (** counts the calls to it *)
  free_lists_ : list (list Z);   (** per class, the free blocks from the head on *)
  chunks_ : list Chunk;          (** from the head on *)
  reserved_ : Z;
  live_ : gmap Z Z               (** ghost: the blocks of [allocate] not yet given back, with their size *)
}.

Definition set_memory (used : Z) (up : gmap Z Z) (clock : nat) (s : Pool) : Pool :=
  mkPool (limit_ s) used up clock (free_lists_ s) (chunks_ s) (reserved_ s) (live_ s).
Definition set_free (index : Z) (l : list Z) (s : Pool) : Pool :=
  mkPool (limit_ s) (used_ s) (upstream_ s) (clock_ s) (<[Z.to_nat index := l]> (free_lists_ s))
         (chunks_ s) (reserved_ s) (live_ s).
Definition set_chunks (cs : list Chunk) (reserved : Z) (s : Pool) : Pool :=
  mkPool (limit_ s) (used_ s) (upstream_ s) (clock_ s) (free_lists_ s) cs reserved (live_ s).
Definition set_live (l : gmap Z Z) (s : Pool) : Pool :=
  mkPool (limit_ s) (used_ s) (upstream_ s) (clock_ s) (free_lists_ s) (chunks_ s) (reserved_ s) l.

Definition free_list (index : Z) (s : Pool) : list Z := nth (Z.to_nat index) (free_lists_ s) [].

(** [SlabPool()] and [MemoryResource(limit)]. *)
Definition new_pool (limit : Z) : Pool :=
  mkPool limit 0 ∅ 0 (replicate (Z.to_nat class_count) []) [] 0 ∅.

(** ** Giving memory back *)

(** [do_deallocate]. *)
Definition mem_deallocate (p n : Z) (s : Pool) : Pool :=
  set_memory (u64 (used_ s - n)) (delete p (upstream_ s)) (clock_ s) s.

Definition in_chunk (c : Chunk) (address : Z) : bool :=
  (chunk_memory c <=? address) && (address <? chunk_memory c + chunk_bytes_ c).

(** The outer loop of [SlabPool::reclaim]: the chunks it keeps. *)
Fixpoint reclaim_loop (cs : list Chunk) (s : Pool) : list Chunk * Pool :=
  match cs with
  | [] => ([], s)
  | c :: cs =>
      let l := free_list (chunk_index c) s in
      let free := len (filter (in_chunk c) l) in
      if negb (free =? chunk_bytes_ c / class_size (chunk_index c)) then
        let '(kept, s) := reclaim_loop cs s in (c :: kept, s)
      else
        let s := set_free (chunk_index c) (filter (fun a => negb (in_chunk c a)) l) s in
        let s := set_chunks (chunks_ s) (u64 (reserved_ s - chunk_bytes_ c)) s in
        let s := mem_deallocate (chunk_memory c) (chunk_bytes_ c) s in
        let s := mem_deallocate (chunk_self c) sizeof_Chunk s in
        reclaim_loop cs s
  end.

Definition reclaim (s : Pool) : Pool :=
  let '(kept, s) := reclaim_loop (chunks_ s) s in set_chunks kept (reserved_ s) s.

(** ** Taking memory *)

(** [SlabPool::release]. *)
Definition release (s : Pool) : Pool :=
  let s := fold_left (fun s c => mem_deallocate (chunk_self c) sizeof_Chunk
                                   (mem_deallocate (chunk_memory c) (chunk_bytes_ c) s)) (chunks_ s) s in
  mkPool (limit_ s) (used_ s) (upstream_ s) (clock_ s) (map (fun _ => []) (free_lists_ s)) [] 0 (live_ s).

Section alloc.

Variable upstream : nat -> gmap Z Z -> Z -> option Z.

(** [new_delete_resource()->allocate], then [used_ += bytes]. *)
Definition take_upstream (n : Z) : M Pool Z := fun s =>
  let up := upstream_ s in
  match upstream (clock_ s) up n with
  | None => (inl exn_bad_alloc, set_memory (used_ s) up (S (clock_ s)) s)
  | Some p => (inr p, set_memory (u64 (used_ s + n)) (<[p := n]> up) (S (clock_ s)) s)
  end.

(** Whether the limit rules [n] more bytes out. *)
Definition over_limit (n : Z) (s : Pool) : bool := u64 (limit_ s - used_ s) <? n.

(** [do_allocate]. *)
Definition mem_allocate (n : Z) : M Pool Z :=
  let! s := get in
  do! (if negb (limit_ s =? 0) && over_limit n s then
         do! modify reclaim in
         let! s := get in
         if over_limit n s then throw exn_bad_alloc else ret tt
       else ret tt) in
  take_upstream n.

(** [while (bytes < block * 16) bytes *= 2;]. *)
Fixpoint chunk_size (fuel : nat) (bytes block : Z) : Z :=
  match fuel with
  | O => bytes
  | S fuel => if bytes <? block * 16 then chunk_size fuel (bytes * 2) block else bytes
  end.

(** The blocks of a chunk in the order of their addresses. *)
Definition chunk_blocks (memory bytes block : Z) : list Z :=
  map (fun offset => memory + offset * block) (seqZ 0 (bytes / block)).

Definition add_chunk (index : Z) : M Pool unit :=
  let block := class_size index in
  let bytes := chunk_size 64 chunk_bytes block in
  let! memory := mem_allocate bytes in
  do! try_catch
        (let! self := mem_allocate sizeof_Chunk in
         modify (fun s => set_chunks (mkChunk self memory bytes index :: chunks_ s) (reserved_ s) s))
        (fun e => do! modify (mem_deallocate memory bytes) in throw e) in
  do! modify (fun s => set_chunks (chunks_ s) (u64 (reserved_ s + bytes)) s) in
  modify (fun s =>
    set_free index (fold_left (fun l b => b :: l) (chunk_blocks memory bytes block) (free_list index s)) s).

Definition pool_allocate (size : Z) : M Pool Z :=
  let! p :=
    (if largest_class <? size then mem_allocate size else
     let index := class_index size in
     let! s := get in
     do! match free_list index s with [] => add_chunk index | _ => ret tt end in
     let! s := get in
     match free_list index s with
     | [] => throw exn_bad_alloc   (* not reached: a chunk was just added *)
     | block :: next => do! modify (set_free index next) in ret block
     end) in
  do! modify (fun s => set_live (<[p := size]> (live_ s)) s) in
  ret p.

Definition pool_deallocate (p size : Z) (s : Pool) : Pool :=
  if p =? 0 then s else
  let s := set_live (delete p (live_ s)) s in
  if largest_class <? size then mem_deallocate p size s else
  let index := class_index size in
  set_free index (p :: free_list index s) s.

End alloc.

(** ** The size classes *)

(** The smallest class that holds [size], by inspection of all sizes. *)
Lemma class_index_spec size :
  0 <= size <= largest_class ->
  0 <= class_index size < class_count /\ size <= class_size (class_index size) /\
  forall i, 0 <= i < class_index size -> class_size i < size.
Proof.
  intros H.
  assert (forallb (fun s =>
    (0 <=? class_index s) && (class_index s <? class_count) && (s <=? class_size (class_index s)) &&
    forallb (fun i => class_size i <? s) (seqZ 0 (class_index s))) (seqZ 0 (largest_class + 1)) = true) as Hall
    by (vm_compute; reflexivity).
  rewrite forallb_forall in Hall. specialize (Hall size).
  rewrite <- list_elem_of_In, elem_of_seqZ in Hall. specialize (Hall ltac:(lia)).
  apply andb_true_iff in Hall as [Hall Hmin]. rewrite forallb_forall in Hmin. split_and!; try lia.
  intros i Hi. apply Z.ltb_lt, Hmin, list_elem_of_In, elem_of_seqZ. lia.
Qed.

Lemma class_size_pos i : 0 <= i < class_count -> 8 <= class_size i <= largest_class.
Proof.
  intros H.
  assert (forallb (fun i => (8 <=? class_size i) && (class_size i <=? largest_class)) (seqZ 0 class_count) = true)
    as Hall by (vm_compute; reflexivity).
  rewrite forallb_forall in Hall. specialize (Hall i).
  rewrite <- list_elem_of_In, elem_of_seqZ in Hall. specialize (Hall ltac:(lia)). lia.
Qed.

(** ** Conservation of blocks *)

Definition blocks_of (c : Chunk) : list Z :=
  chunk_blocks (chunk_memory c) (chunk_bytes_ c) (class_size (chunk_index c)).

Definition chunks_of_class (i : Z) (cs : list Chunk) : list Chunk :=
  filter (fun c => chunk_index c = i) cs.

(** The live blocks carved for class [i], and those allocated upstream. *)
Definition live_class (i : Z) (live : gmap Z Z) : list Z :=
  (filter (fun b : Z * Z => b.2 <= largest_class /\ class_index b.2 = i) (map_to_list live)).*1.

Definition live_large (live : gmap Z Z) : list (Z * Z) :=
  filter (fun b : Z * Z => largest_class < b.2) (map_to_list live).

(** What a chunk holds upstream: its memory and its descriptor. *)
Definition chunk_allocs (c : Chunk) : list (Z * Z) :=
  [(chunk_memory c, chunk_bytes_ c); (chunk_self c, sizeof_Chunk)].

Definition separated (up : gmap Z Z) : Prop :=
  forall p n q m, up !! p = Some n -> up !! q = Some m -> p <> q -> apart p n q m.

Definition total (up : gmap Z Z) : Z := zsum (map_to_list up).*2.

(** The memory held upstream is [allocs], and the counters agree. *)
Record held (allocs : list (Z * Z)) (s : Pool) : Prop := {
  h_upstream : map_to_list (upstream_ s) ≡ₚ allocs;
  h_separated : separated (upstream_ s);
  h_positive : forall p n, upstream_ s !! p = Some n -> 0 < p /\ 0 <= n;
  h_used : used_ s = u64 (total (upstream_ s));
  h_limit : 0 <= limit_ s < 2 ^ 64 /\ (limit_ s <> 0 -> total (upstream_ s) <= limit_ s)
}.

(** The pool with [others] allocated by the rest of the program: every
    block of every chunk is free or live, never both; the memory held
    upstream is that of the chunks, the large blocks and [others]. *)
Record pool_inv (others : gmap Z Z) (s : Pool) : Prop := {
  pi_classes : length (free_lists_ s) = Z.to_nat class_count;
  pi_blocks : forall i, 0 <= i < class_count ->
    free_list i s ++ live_class i (live_ s) ≡ₚ concat (map blocks_of (chunks_of_class i (chunks_ s)));
  pi_chunks : Forall (fun c => 0 <= chunk_index c < class_count /\ chunk_bytes_ c = chunk_bytes) (chunks_ s);
  pi_held : held (map_to_list others ++ concat (map chunk_allocs (chunks_ s)) ++ live_large (live_ s)) s;
  pi_live : forall p n, live_ s !! p = Some n -> 0 <= n;
  pi_reserved : reserved_ s = u64 (chunk_bytes * len (chunks_ s))
}.

Lemma new_pool_inv limit : 0 <= limit < 2 ^ 64 -> pool_inv ∅ (new_pool limit).
Proof.
  intros H. constructor; try done.
  - intros i Hi. unfold free_list, new_pool. cbn [free_lists_].
    rewrite nth_lookup, lookup_replicate_2 by (unfold class_count in *; lia). done.
  - constructor; try done. split; [done|]. intros Hl. change (0 <= limit). lia.
Qed.

#[global] Instance held_proper : Proper (Permutation ==> eq ==> iff) held.
Proof. intros l1 l2 Hl s ? <-. split; intros [H ? ? ? ?]; constructor; try done; by rewrite H. Qed.

Lemma total_permutation up allocs : map_to_list up ≡ₚ allocs -> total up = zsum allocs.*2.
Proof. intros H. unfold total. by rewrite H. Qed.

Lemma held_lookup allocs s p n : held allocs s -> (p, n) ∈ allocs -> upstream_ s !! p = Some n.
Proof. intros [H _ _ _ _] Hin. apply elem_of_map_to_list. by rewrite H. Qed.

Lemma held_keys allocs s : held allocs s -> NoDup allocs.*1.
Proof. intros [H _ _ _ _]. rewrite <- H. apply NoDup_fst_map_to_list. Qed.

Lemma u64_sub a b : u64 (u64 a - b) = u64 (a - b).
Proof. unfold u64. by rewrite Zminus_mod_idemp_l. Qed.
Lemma u64_add a b : u64 (u64 a + b) = u64 (a + b).
Proof. unfold u64. by rewrite Zplus_mod_idemp_l. Qed.

Lemma mem_deallocate_held allocs p n s :
  held ((p, n) :: allocs) s -> held allocs (mem_deallocate p n s).
Proof.
  intros H. pose proof (held_lookup _ _ p n H ltac:(left)) as Hp. destruct H as [Hup Hsep Hpos Hu [Hl1 Hl2]].
  assert (map_to_list (delete p (upstream_ s)) ≡ₚ allocs) as Hdel.
  { apply (Permutation_cons_inv (a := (p, n))). by rewrite map_to_list_delete. }
  assert (total (upstream_ s) = n + total (delete p (upstream_ s))) as Htot.
  { rewrite (total_permutation _ _ Hup), (total_permutation _ _ Hdel). done. }
  destruct (Hpos _ _ Hp) as [_ Hn]. constructor; simpl.
  - done.
  - intros a x b y Ha Hb. apply lookup_delete_Some in Ha as [_ Ha], Hb as [_ Hb]. by apply Hsep.
  - intros a x Ha. apply lookup_delete_Some in Ha as [_ Ha]. by apply Hpos.
  - rewrite Hu, u64_sub. f_equal. lia.
  - split; [done|]. intros Hz. specialize (Hl2 Hz). lia.
Qed.

(** Only the memory fields matter. *)
Lemma held_same allocs s s' :
  upstream_ s' = upstream_ s -> used_ s' = used_ s -> limit_ s' = limit_ s -> held allocs s -> held allocs s'.
Proof. intros E1 E2 E3 [? ? ? ? ?]. constructor; rewrite ?E1, ?E2, ?E3; done. Qed.

Lemma held_total allocs s : held allocs s -> 0 <= total (upstream_ s).
Proof.
  intros [_ _ Hpos _ _]. apply zsum_nonneg, Forall_map, Forall_forall. intros [p n] Hin.
  apply elem_of_map_to_list in Hin. by destruct (Hpos _ _ Hin).
Qed.

(** ** Reclaiming *)

Lemma elem_of_chunk_blocks memory bytes block a :
  0 < block -> 0 <= bytes ->
  a ∈ chunk_blocks memory bytes block -> memory <= a /\ a + block <= memory + bytes.
Proof.
  intros Hb Hbytes Ha. unfold chunk_blocks in Ha. apply list_elem_of_fmap in Ha as (k & -> & Hk).
  apply elem_of_seqZ in Hk. pose proof (Z.mul_div_le bytes block Hb). nia.
Qed.

Lemma length_chunk_blocks memory bytes block :
  0 <= bytes / block -> len (chunk_blocks memory bytes block) = bytes / block.
Proof. intros H. unfold len, chunk_blocks. rewrite length_map, length_seqZ. lia. Qed.

Lemma in_chunk_true c a : Is_true (in_chunk c a) <-> chunk_memory c <= a < chunk_memory c + chunk_bytes_ c.
Proof. unfold in_chunk. rewrite andb_True. split; rewrite !Is_true_true, Z.leb_le, Z.ltb_lt; lia. Qed.

Lemma in_chunk_false c a :
  Is_true (negb (in_chunk c a)) <-> ~ (chunk_memory c <= a < chunk_memory c + chunk_bytes_ c).
Proof. rewrite negb_True, in_chunk_true. done. Qed.

Definition chunk_ok (c : Chunk) : Prop := 0 <= chunk_index c < class_count /\ chunk_bytes_ c = chunk_bytes.

Lemma blocks_of_range c a :
  chunk_ok c -> a ∈ blocks_of c ->
  chunk_memory c <= a /\ a + class_size (chunk_index c) <= chunk_memory c + chunk_bytes_ c.
Proof.
  intros [Hi Hb] Ha. pose proof (class_size_pos _ Hi). unfold blocks_of in Ha.
  apply elem_of_chunk_blocks in Ha; [done|lia|rewrite Hb; unfold chunk_bytes; lia].
Qed.

Lemma length_blocks_of c :
  chunk_ok c -> len (blocks_of c) = chunk_bytes_ c / class_size (chunk_index c).
Proof.
  intros [Hi Hb]. pose proof (class_size_pos _ Hi). apply length_chunk_blocks, Z.div_pos; [|lia].
  rewrite Hb. unfold chunk_bytes. lia.
Qed.

Lemma blocks_of_in c : chunk_ok c -> Forall (fun a => Is_true (in_chunk c a)) (blocks_of c).
Proof.
  intros Hc. apply Forall_forall. intros a Ha. apply in_chunk_true.
  pose proof (blocks_of_range c a Hc Ha). destruct Hc as [Hi _]. pose proof (class_size_pos _ Hi). lia.
Qed.

(** The blocks in the range of a chunk are its own. *)
Lemma in_chunk_books c (free live R : list Z) :
  chunk_ok c -> free ++ live ≡ₚ blocks_of c ++ R ->
  Forall (fun a => Is_true (negb (in_chunk c a))) R ->
  filter (in_chunk c) free ++ filter (in_chunk c) live ≡ₚ blocks_of c.
Proof.
  intros Hc Hp HR.
  rewrite <- filter_app, Hp, filter_app, filter_all by (by apply blocks_of_in).
  rewrite filter_none, app_nil_r; [done|]. eapply Forall_impl; [done|]. intros a. by rewrite negb_True.
Qed.

(** When all blocks of a chunk are free, none of them is live, and taking
    them off the free list leaves the other chunks' blocks. *)
Lemma all_free_split c (free live R : list Z) :
  chunk_ok c -> free ++ live ≡ₚ blocks_of c ++ R ->
  Forall (fun a => Is_true (negb (in_chunk c a))) R ->
  len (filter (in_chunk c) free) = len (blocks_of c) ->
  filter (fun a => negb (in_chunk c a)) free ++ live ≡ₚ R.
Proof.
  intros Hc Hp HR Hlen.
  assert (filter (in_chunk c) live = []) as Hlive.
  { pose proof (in_chunk_books c free live R Hc Hp HR) as Hin.
    apply Permutation_length in Hin. rewrite length_app in Hin. unfold len in Hlen.
    destruct (filter (in_chunk c) live); [done|]. simpl in Hin. lia. }
  assert (filter (fun a => negb (in_chunk c a)) live = live) as Hout.
  { apply filter_all, Forall_forall. intros a Ha. rewrite negb_True. intros Hin.
    assert (a ∈ filter (in_chunk c) live) as Hc' by (by apply list_elem_of_filter).
    rewrite Hlive in Hc'. by apply elem_of_nil in Hc'. }
  rewrite <- Hout at 1. rewrite <- filter_app, Hp, filter_app, filter_none, filter_all; [done|done|].
  eapply Forall_impl; [by apply blocks_of_in|]. intros a Ha. simpl. by rewrite negb_True; auto.
Qed.

Lemma held_apart allocs s p n q m :
  held ((p, n) :: allocs) s -> (q, m) ∈ allocs -> apart p n q m.
Proof.
  intros H Hin. pose proof (held_keys _ _ H) as Hnd. apply NoDup_cons in Hnd as [Hne _].
  pose proof (held_lookup _ _ p n H ltac:(left)). pose proof (held_lookup _ _ q m H ltac:(by right)).
  apply (h_separated _ _ H); [done..|]. intros ->. apply Hne. apply list_elem_of_fmap. by exists (q, m).
Qed.

Lemma elem_of_chunk_allocs c cs :
  c ∈ cs -> (chunk_memory c, chunk_bytes_ c) ∈ concat (map chunk_allocs cs).
Proof.
  intros Hc. apply list_elem_of_In, in_concat. exists (chunk_allocs c).
  split; [apply in_map; by apply list_elem_of_In|by left].
Qed.

Lemma other_blocks_outside c cs rest s :
  (forall c', c' ∈ cs -> chunk_ok c' /\ (chunk_memory c', chunk_bytes_ c') ∈ rest) ->
  held ((chunk_memory c, chunk_bytes_ c) :: rest) s ->
  Forall (fun a => Is_true (negb (in_chunk c a))) (concat (map blocks_of cs)).
Proof.
  intros Hcs Hh. apply Forall_concat, Forall_map, Forall_forall. intros c' Hc'.
  apply Forall_forall. intros a Ha. apply in_chunk_false. destruct (Hcs c' Hc') as [Hok Hin].
  pose proof (blocks_of_range c' a Hok Ha). destruct Hok as [Hi _]. pose proof (class_size_pos _ Hi).
  pose proof (held_apart _ _ _ _ _ _ Hh Hin) as Hap. unfold apart in Hap. lia.
Qed.

Lemma free_list_set i j l s :
  0 <= i < class_count -> 0 <= j < class_count -> length (free_lists_ s) = Z.to_nat class_count ->
  free_list i (set_free j l s) = if decide (i = j) then l else free_list i s.
Proof.
  intros Hi Hj Hl. unfold free_list, set_free. cbn [free_lists_]. rewrite !nth_lookup.
  destruct (decide (i = j)) as [->|Hne].
  - rewrite list_lookup_insert_eq by (rewrite Hl; lia). done.
  - rewrite list_lookup_insert_ne by lia. done.
Qed.

(** One chunk of the list against the others. *)
Lemma class_split others kept c cs r s :
  pool_inv others (set_chunks (kept ++ c :: cs) r s) ->
  let R := concat (map blocks_of (chunks_of_class (chunk_index c) (kept ++ cs))) in
  chunk_ok c /\ Forall chunk_ok (kept ++ cs) /\
  held ((chunk_memory c, chunk_bytes_ c) :: (chunk_self c, sizeof_Chunk) ::
        map_to_list others ++ concat (map chunk_allocs (kept ++ cs)) ++ live_large (live_ s)) s /\
  free_list (chunk_index c) s ++ live_class (chunk_index c) (live_ s) ≡ₚ blocks_of c ++ R /\
  Forall (fun a => Is_true (negb (in_chunk c a))) R.
Proof.
  intros [Hcl Hbl Hch Hh Hlv Hr] R. simpl in *.
  apply Forall_app in Hch as [Hk Hch]. apply Forall_cons in Hch as [Hc Hch].
  assert (Forall chunk_ok (kept ++ cs)) as Hok by by apply Forall_app.
  assert (held ((chunk_memory c, chunk_bytes_ c) :: (chunk_self c, sizeof_Chunk) ::
    map_to_list others ++ concat (map chunk_allocs (kept ++ cs)) ++ live_large (live_ s)) s) as Hh'.
  { apply (held_same _ _ s) in Hh; [|done..]. revert Hh. apply held_proper; [|done].
    rewrite !map_app, !concat_app. simpl. solve_Permutation. }
  split_and!; try done.
  - specialize (Hbl (chunk_index c) (proj1 Hc)). unfold R, chunks_of_class in *.
    rewrite filter_app, filter_cons_True in Hbl by done. etransitivity; [exact Hbl|].
    rewrite filter_app, !map_app, !concat_app. simpl. solve_Permutation.
  - eapply other_blocks_outside; [|exact Hh']. intros c' Hc'. apply list_elem_of_filter in Hc' as [_ Hc'].
    split; [by eapply Forall_forall in Hc'; [|exact Hok]|].
    right. rewrite !elem_of_app. right. left. by apply elem_of_chunk_allocs.
Qed.

(** Giving a wholly free chunk back. *)
Lemma drop_chunk_inv others kept c cs r s :
  pool_inv others (set_chunks (kept ++ c :: cs) r s) ->
  len (filter (in_chunk c) (free_list (chunk_index c) s)) = chunk_bytes_ c / class_size (chunk_index c) ->
  pool_inv others
    (set_chunks (kept ++ cs) (u64 (r - chunk_bytes_ c))
      (mem_deallocate (chunk_self c) sizeof_Chunk
        (mem_deallocate (chunk_memory c) (chunk_bytes_ c)
          (set_free (chunk_index c)
             (filter (fun a => negb (in_chunk c a)) (free_list (chunk_index c) s)) s)))).
Proof.
  intros H Hfree. destruct (class_split _ _ _ _ _ _ H) as (Hc & Hok & Hh & Hp & HR).
  destruct H as [Hcl Hbl _ _ Hlv Hr]. pose proof (proj1 Hc) as Hi. constructor; simpl in *.
  - by rewrite length_insert.
  - intros i Hi'. specialize (Hbl i Hi').
    change (free_list i (set_free (chunk_index c)
      (filter (fun a => negb (in_chunk c a)) (free_list (chunk_index c) s)) s) ++ live_class i (live_ s)
      ≡ₚ concat (map blocks_of (chunks_of_class i (kept ++ cs)))).
    rewrite free_list_set by done. destruct (decide (i = chunk_index c)) as [->|Hne].
    + apply all_free_split; [done|done|done|by rewrite length_blocks_of].
    + unfold chunks_of_class in *. rewrite filter_app in *. by rewrite filter_cons_False in Hbl.
  - done.
  - apply (held_same _ (mem_deallocate (chunk_self c) sizeof_Chunk
      (mem_deallocate (chunk_memory c) (chunk_bytes_ c) s))); [done..|].
    by apply mem_deallocate_held, mem_deallocate_held.
  - done.
  - rewrite Hr, u64_sub. f_equal. destruct Hc as [_ ->]. rewrite !len_app, len_cons. lia.
Qed.

(** A chunk with a live block in it. *)
Definition has_live (live : gmap Z Z) (c : Chunk) : Prop :=
  exists a n, a ∈ blocks_of c /\ live !! a = Some n /\ n <= largest_class.

Lemma part_live others kept c cs r s :
  pool_inv others (set_chunks (kept ++ c :: cs) r s) ->
  len (filter (in_chunk c) (free_list (chunk_index c) s)) <> chunk_bytes_ c / class_size (chunk_index c) ->
  has_live (live_ s) c.
Proof.
  intros H Hfree. destruct (class_split _ _ _ _ _ _ H) as (Hc & _ & _ & Hp & HR).
  pose proof (in_chunk_books _ _ _ _ Hc Hp HR) as Hin. rewrite <- length_blocks_of in Hfree by done.
  destruct (filter (in_chunk c) (live_class (chunk_index c) (live_ s))) as [|a l] eqn:El.
  { exfalso. apply Hfree. unfold len. by rewrite <- Hin, app_nil_r. }
  assert (a ∈ filter (in_chunk c) (live_class (chunk_index c) (live_ s))) as Ha by (rewrite El; left).
  assert (a ∈ blocks_of c) as Hac by (rewrite <- Hin; apply elem_of_app; right; left).
  apply list_elem_of_filter in Ha as [_ Ha]. apply list_elem_of_fmap in Ha as ([a' n] & -> & Ha).
  apply list_elem_of_filter in Ha as [[Hn _] Ha]. apply elem_of_map_to_list in Ha. by exists a', n.
Qed.

Lemma reclaim_loop_inv others cs kept s :
  pool_inv others (set_chunks (kept ++ cs) (reserved_ s) s) ->
  let '(kept', s') := reclaim_loop cs s in
  pool_inv others (set_chunks (kept ++ kept') (reserved_ s') s') /\
  live_ s' = live_ s /\ limit_ s' = limit_ s /\ Forall (has_live (live_ s)) kept'.
Proof.
  revert kept s. induction cs as [|c cs IH]; intros kept s H; [done|]. cbn [reclaim_loop].
  destruct (Z.eqb_spec (len (filter (in_chunk c) (free_list (chunk_index c) s)))
              (chunk_bytes_ c / class_size (chunk_index c))) as [E|E]; simpl negb; cbn iota.
  - match goal with |- context [reclaim_loop cs ?s1] => specialize (IH kept s1) end.
    destruct (reclaim_loop cs _) as [kept' s']. apply IH.
    exact (drop_chunk_inv others kept c cs _ s H E).
  - specialize (IH (kept ++ [c]) s). rewrite <- app_assoc in IH. specialize (IH H).
    pose proof (part_live others kept c cs _ s H E) as Hlive.
    destruct (reclaim_loop cs s) as [kept' s']. rewrite <- app_assoc in IH.
    destruct IH as (? & ? & ? & ?). split_and!; try done. by constructor.
Qed.

Lemma reclaim_inv others s :
  pool_inv others s ->
  pool_inv others (reclaim s) /\ live_ (reclaim s) = live_ s /\ limit_ (reclaim s) = limit_ s /\
  Forall (has_live (live_ s)) (chunks_ (reclaim s)).
Proof.
  intros H. unfold reclaim. pose proof (reclaim_loop_inv others (chunks_ s) [] s) as Hl.
  destruct (reclaim_loop (chunks_ s) s) as [kept s']. apply Hl. by destruct s.
Qed.

(** ** Live blocks *)

Lemma live_class_insert live p n i :
  live !! p = None ->
  live_class i (<[p := n]> live) ≡ₚ
  if decide (n <= largest_class /\ class_index n = i) then p :: live_class i live else live_class i live.
Proof.
  intros Hp. unfold live_class. rewrite (map_to_list_insert _ _ _ Hp).
  destruct (decide _) as [H|H]; [rewrite filter_cons_True by done|rewrite filter_cons_False by done]; done.
Qed.

Lemma live_large_insert live p n :
  live !! p = None ->
  live_large (<[p := n]> live) ≡ₚ
  if decide (largest_class < n) then (p, n) :: live_large live else live_large live.
Proof.
  intros Hp. unfold live_large. rewrite (map_to_list_insert _ _ _ Hp).
  destruct (decide _) as [H|H]; [rewrite filter_cons_True by done|rewrite filter_cons_False by done]; done.
Qed.

Lemma elem_of_live_class live p n :
  live !! p = Some n -> n <= largest_class -> p ∈ live_class (class_index n) live.
Proof.
  intros Hp Hn. apply list_elem_of_fmap. exists (p, n). split; [done|].
  apply list_elem_of_filter. split; [done|]. by apply elem_of_map_to_list.
Qed.

Lemma elem_of_live_large live p n : live !! p = Some n -> largest_class < n -> (p, n) ∈ live_large live.
Proof. intros Hp Hn. apply list_elem_of_filter. split; [done|]. by apply elem_of_map_to_list. Qed.

(** A block in the books of class [i] lies in a chunk of that class. *)
Lemma block_in_chunk others s i a :
  pool_inv others s -> 0 <= i < class_count -> a ∈ free_list i s ++ live_class i (live_ s) ->
  exists c, c ∈ chunks_ s /\ chunk_ok c /\ chunk_index c = i /\ a ∈ blocks_of c.
Proof.
  intros H Hi Ha. rewrite (pi_blocks _ _ H i Hi) in Ha.
  apply list_elem_of_In, in_concat in Ha as (l & Hl & Ha). apply in_map_iff in Hl as (c & <- & Hc).
  apply list_elem_of_In, list_elem_of_filter in Hc as [E Hc]. exists c. split_and!; try done.
  - by eapply Forall_forall in Hc; [|apply (pi_chunks _ _ H)].
  - by apply list_elem_of_In.
Qed.

(** A chunk's memory is apart from everything else held. *)
Lemma chunk_held others s c :
  pool_inv others s -> c ∈ chunks_ s ->
  exists rest, held ((chunk_memory c, chunk_bytes_ c) :: rest) s /\
    (forall c', c' ∈ chunks_ s -> c' = c \/ (chunk_memory c', chunk_bytes_ c') ∈ rest) /\
    (forall b, b ∈ live_large (live_ s) -> b ∈ rest) /\
    (forall p n, others !! p = Some n -> (p, n) ∈ rest).
Proof.
  intros H Hc. apply list_elem_of_split in Hc as (l1 & l2 & E).
  exists ((chunk_self c, sizeof_Chunk) :: map_to_list others ++ concat (map chunk_allocs (l1 ++ l2)) ++
          live_large (live_ s)).
  split_and!.
  - pose proof (pi_held _ _ H) as Hh. revert Hh. apply held_proper; [|done].
    rewrite E, !map_app, !concat_app. simpl. solve_Permutation.
  - intros c' Hc'. rewrite E in Hc'. rewrite elem_of_app, elem_of_cons in Hc'.
    destruct Hc' as [Hc'|[->|Hc']]; [right|by left|right]; right; rewrite !elem_of_app; right; left;
      apply elem_of_chunk_allocs; rewrite elem_of_app; auto.
  - intros b Hb. right. rewrite !elem_of_app. auto.
  - intros p n Hp. right. rewrite !elem_of_app. left. by apply elem_of_map_to_list.
Qed.

Lemma chunks_disjoint others s c c' a :
  pool_inv others s -> c ∈ chunks_ s -> c' ∈ chunks_ s -> a ∈ blocks_of c -> a ∈ blocks_of c' -> c = c'.
Proof.
  intros H Hc Hc' Ha Ha'. destruct (chunk_held _ _ c H Hc) as (rest & Hh & Hcs & _).
  destruct (Hcs c' Hc') as [->|Hin]; [done|]. exfalso.
  pose proof (held_apart _ _ _ _ _ _ Hh Hin) as Hap. unfold apart in Hap.
  pose proof (pi_chunks _ _ H) as Hok. rewrite Forall_forall in Hok.
  pose proof (blocks_of_range c a (Hok c Hc) Ha). pose proof (blocks_of_range c' a (Hok c' Hc') Ha').
  pose proof (class_size_pos _ (proj1 (Hok c Hc))). pose proof (class_size_pos _ (proj1 (Hok c' Hc'))). lia.
Qed.

Lemma NoDup_blocks_of c : chunk_ok c -> NoDup (blocks_of c).
Proof.
  intros [Hi _]. pose proof (class_size_pos _ Hi). unfold blocks_of, chunk_blocks.
  apply NoDup_fmap_2_strong; [|apply NoDup_seqZ]. intros x y _ _ E. nia.
Qed.

(** No block is in the books twice. *)
Lemma NoDup_books others s i :
  pool_inv others s -> 0 <= i < class_count -> NoDup (free_list i s ++ live_class i (live_ s)).
Proof.
  intros H Hi. rewrite (pi_blocks _ _ H i Hi).
  pose proof (held_keys _ _ (pi_held _ _ H)) as Hnd. pose proof (pi_chunks _ _ H) as Hok.
  assert (forall c c' a, c ∈ chunks_ s -> c' ∈ chunks_ s -> a ∈ blocks_of c -> a ∈ blocks_of c' -> c = c')
    as Hdis by (intros; by eapply chunks_disjoint).
  assert (NoDup (chunks_ s)) as Hcs.
  { rewrite !fmap_app in Hnd. apply NoDup_app in Hnd as (_ & _ & Hnd). apply NoDup_app in Hnd as (Hnd & _).
    clear -Hnd. induction (chunks_ s) as [|c cs IH]; [constructor|]. simpl in Hnd.
    apply NoDup_cons in Hnd as [Hne Hnd]. apply NoDup_cons in Hnd as [_ Hnd]. constructor; [|by apply IH].
    intros Hc. apply Hne. right. apply list_elem_of_fmap. exists (chunk_memory c, chunk_bytes_ c).
    split; [done|by apply elem_of_chunk_allocs]. }
  unfold chunks_of_class. revert Hdis Hcs Hok. clear. intros Hdis Hcs Hok.
  induction (chunks_ s) as [|c cs IH]; [constructor|].
  apply NoDup_cons in Hcs as [Hc Hcs]. apply Forall_cons in Hok as [Hokc Hok].
  assert (NoDup (concat (map blocks_of (filter (fun c => chunk_index c = i) cs)))) as IH'.
  { apply IH; [|done|done]. intros c1 c2 a H1 H2. apply Hdis; by right. }
  destruct (decide (chunk_index c = i)) as [E|E];
    [rewrite filter_cons_True by done|by rewrite filter_cons_False].
  simpl. apply NoDup_app. split_and!; [by apply NoDup_blocks_of| |done].
  intros a Ha Ha'. apply list_elem_of_In, in_concat in Ha' as (l & Hl & Ha').
  apply in_map_iff in Hl as (c' & <- & Hc'). apply list_elem_of_In, list_elem_of_filter in Hc' as [_ Hc'].
  apply Hc. rewrite (Hdis c c' a); [done|left|by right|done|by apply list_elem_of_In].
Qed.

(** A large block lies in no chunk. *)
Lemma large_outside others s c a p n :
  pool_inv others s -> c ∈ chunks_ s -> a ∈ blocks_of c ->
  live_ s !! p = Some n -> largest_class < n -> apart a (class_size (chunk_index c)) p n.
Proof.
  intros H Hc Ha Hp Hn. destruct (chunk_held _ _ c H Hc) as (rest & Hh & _ & Hlarge & _).
  pose proof (held_apart _ _ _ _ p n Hh (Hlarge _ (elem_of_live_large _ _ _ Hp Hn))) as Hap.
  pose proof (pi_chunks _ _ H) as Hok. rewrite Forall_forall in Hok.
  pose proof (blocks_of_range c a (Hok c Hc) Ha). unfold apart in *. lia.
Qed.

Lemma live_small others s p n :
  pool_inv others s -> live_ s !! p = Some n -> n <= largest_class ->
  0 <= class_index n < class_count /\ n <= class_size (class_index n).
Proof.
  intros H Hp Hn. pose proof (pi_live _ _ H _ _ Hp). destruct (class_index_spec n) as (? & ? & _); [lia|done].
Qed.

Lemma free_not_live others s i a :
  pool_inv others s -> 0 <= i < class_count -> a ∈ free_list i s -> live_ s !! a = None.
Proof.
  intros H Hi Ha. destruct (live_ s !! a) as [n|] eqn:E; [exfalso|done].
  destruct (block_in_chunk _ _ i a H Hi) as (c & Hc & Hok & Hci & Hac); [by apply elem_of_app; left|].
  pose proof (class_size_pos _ (proj1 Hok)).
  destruct (Z.le_gt_cases n largest_class) as [Hn|Hn].
  - destruct (live_small _ _ _ _ H E Hn) as [Hj _].
    pose proof (elem_of_live_class _ _ _ E Hn) as Hlive.
    destruct (block_in_chunk _ _ (class_index n) a H Hj) as (c' & Hc' & _ & Hcj & Hac');
      [by apply elem_of_app; right|].
    pose proof (chunks_disjoint _ _ _ _ _ H Hc Hc' Hac Hac') as ->. rewrite Hcj in Hci. subst i.
    pose proof (NoDup_books _ _ _ H Hj) as Hnd. apply NoDup_app in Hnd as (_ & Hnd & _). by apply (Hnd a).
  - pose proof (large_outside _ _ _ _ _ _ H Hc Hac E ltac:(lia)) as Hap. unfold apart in Hap.
    assert (0 < largest_class) by done. lia.
Qed.

(** Two blocks of a chunk are a class size apart. *)
Lemma blocks_of_apart c a b :
  a ∈ blocks_of c -> b ∈ blocks_of c -> a <> b -> 0 < class_size (chunk_index c) ->
  apart a (class_size (chunk_index c)) b (class_size (chunk_index c)).
Proof.
  unfold blocks_of, chunk_blocks. intros Ha Hb Hne Hpos.
  apply list_elem_of_fmap in Ha as (x & -> & _). apply list_elem_of_fmap in Hb as (y & -> & _).
  unfold apart. assert (x <> y) by congruence.
  destruct (Z.lt_trichotomy x y) as [?|[?|?]]; [left|done|right]; nia.
Qed.

Lemma live_apart others s p n q m :
  pool_inv others s -> live_ s !! p = Some n -> live_ s !! q = Some m -> p <> q -> apart p n q m.
Proof.
  assert (forall p n, pool_inv others s -> live_ s !! p = Some n -> n <= largest_class ->
    exists c, c ∈ chunks_ s /\ chunk_ok c /\ p ∈ blocks_of c /\ n <= class_size (chunk_index c)) as Hsmall.
  { intros p' n' H Hp Hn. destruct (live_small _ _ _ _ H Hp Hn) as [Hi Hsz].
    destruct (block_in_chunk _ _ (class_index n') p' H Hi) as (c & ? & ? & Hci & ?);
      [apply elem_of_app; right; by apply elem_of_live_class|]. exists c. rewrite Hci. done. }
  intros H Hp Hq Hne.
  destruct (Z.le_gt_cases n largest_class) as [Hn|Hn], (Z.le_gt_cases m largest_class) as [Hm|Hm].
  - destruct (Hsmall p n H Hp Hn) as (c & Hc & Hok & Hpc & Hn').
    destruct (Hsmall q m H Hq Hm) as (c' & Hc' & Hok' & Hqc & Hm').
    pose proof (class_size_pos _ (proj1 Hok)).
    destruct (chunk_held _ _ c H Hc) as (rest & Hh & Hcs & _). destruct (Hcs c' Hc') as [->|Hin].
    + pose proof (blocks_of_apart c p q Hpc Hqc Hne ltac:(lia)). unfold apart in *. lia.
    + pose proof (held_apart _ _ _ _ _ _ Hh Hin) as Hap.
      pose proof (blocks_of_range _ _ Hok Hpc). pose proof (blocks_of_range _ _ Hok' Hqc). unfold apart in *. lia.
  - destruct (Hsmall p n H Hp Hn) as (c & Hc & Hok & Hpc & Hn').
    pose proof (large_outside _ _ _ _ _ _ H Hc Hpc Hq ltac:(lia)). unfold apart in *. lia.
  - destruct (Hsmall q m H Hq Hm) as (c & Hc & Hok & Hqc & Hm').
    pose proof (large_outside _ _ _ _ _ _ H Hc Hqc Hp ltac:(lia)). unfold apart in *. lia.
  - pose proof (pi_held _ _ H) as Hh. apply (h_separated _ _ Hh); [| |done]; eapply held_lookup; try done;
      rewrite !elem_of_app; right; right; by apply elem_of_live_large.
Qed.

Lemma live_positive others s p n : pool_inv others s -> live_ s !! p = Some n -> 0 < p.
Proof.
  intros H Hp. pose proof (pi_held _ _ H) as Hh. destruct (Z.le_gt_cases n largest_class) as [Hn|Hn].
  - destruct (live_small _ _ _ _ H Hp Hn) as [Hi _].
    destruct (block_in_chunk _ _ (class_index n) p H Hi) as (c & Hc & Hok & _ & Hpc);
      [apply elem_of_app; right; by apply elem_of_live_class|].
    pose proof (blocks_of_range _ _ Hok Hpc).
    destruct (h_positive _ _ Hh (chunk_memory c) (chunk_bytes_ c)); [|lia].
    eapply held_lookup; [done|]. rewrite !elem_of_app. right. left. by apply elem_of_chunk_allocs.
  - destruct (h_positive _ _ Hh p n); [|done]. eapply held_lookup; [done|].
    rewrite !elem_of_app. right. right. apply elem_of_live_large; [done|lia].
Qed.

(** ** Deallocation *)

Lemma pool_deallocate_inv others s p n :
  pool_inv others s -> live_ s !! p = Some n ->
  pool_inv others (pool_deallocate p n s) /\ live_ (pool_deallocate p n s) = delete p (live_ s) /\
  limit_ (pool_deallocate p n s) = limit_ s.
Proof.
  intros H Hp. pose proof (live_positive _ _ _ _ H Hp) as Hpos.
  pose proof (insert_delete_id _ _ _ Hp) as Elive.
  assert (delete p (live_ s) !! p = None) as Hnone by apply lookup_delete_eq.
  unfold pool_deallocate. destruct (Z.eqb_spec p 0); [lia|].
  destruct (Z.ltb_spec largest_class n) as [Hn|Hn]; (split; [|done]).
  - destruct H as [Hcl Hbl Hch Hh Hlv Hr]. constructor; simpl; try done.
    + intros i Hi. specialize (Hbl i Hi). rewrite <- Elive, live_class_insert in Hbl by done.
      rewrite decide_False in Hbl by lia. exact Hbl.
    + apply (held_same _ (mem_deallocate p n s)); [done..|]. apply mem_deallocate_held.
      revert Hh. apply held_proper; [|done]. rewrite <- Elive at 2.
      rewrite live_large_insert, decide_True by done. solve_Permutation.
    + intros q m Hq. apply lookup_delete_Some in Hq as [_ Hq]. by apply (Hlv q).
  - destruct (live_small _ _ _ _ H Hp Hn) as [Hj _]. destruct H as [Hcl Hbl Hch Hh Hlv Hr].
    constructor; simpl; try done.
    + by rewrite length_insert.
    + intros i Hi. specialize (Hbl i Hi).
      change (free_list i (set_free (class_index n) (p :: free_list (class_index n) s) s) ++
              live_class i (delete p (live_ s)) ≡ₚ concat (map blocks_of (chunks_of_class i (chunks_ s)))).
      rewrite free_list_set by done. rewrite <- Hbl. rewrite <- Elive at 2.
      rewrite live_class_insert by done.
      destruct (decide (i = class_index n)) as [->|Hne].
      * rewrite decide_True by done. solve_Permutation.
      * rewrite decide_False by (intros [_ ?]; congruence). done.
    + apply (held_same _ s); [done..|]. revert Hh. apply held_proper; [|done]. rewrite <- Elive at 2.
      rewrite live_large_insert, decide_False by (done || lia). done.
    + intros q m Hq. apply lookup_delete_Some in Hq as [_ Hq]. by apply (Hlv q).
Qed.

(** ** Allocation *)

(** What [operator new] promises: memory that overlaps no other allocation. *)
Definition upstream_ok (upstream : nat -> gmap Z Z -> Z -> option Z) : Prop :=
  forall t up n p, upstream t up n = Some p ->
    0 < p < 2 ^ 64 /\ up !! p = None /\ forall q m, up !! q = Some m -> apart p n q m.

Section alloc_facts.

Context (upstream : nat -> gmap Z Z -> Z -> option Z) (Hup : upstream_ok upstream).

(** The pool apart from the memory counters is as it was. *)
Definition same_books (s s' : Pool) : Prop :=
  limit_ s' = limit_ s /\ free_lists_ s' = free_lists_ s /\ chunks_ s' = chunks_ s /\
  reserved_ s' = reserved_ s /\ live_ s' = live_ s.

Lemma take_upstream_held allocs n s :
  held allocs s -> 0 <= n -> (limit_ s <> 0 -> total (upstream_ s) + n <= limit_ s) ->
  wp (take_upstream upstream n)
     (fun p s' => held ((p, n) :: allocs) s' /\ (p ∉ allocs.*1) /\ same_books s s' /\ 0 < p < 2 ^ 64)
     (fun e s' => e = exn_bad_alloc /\ held allocs s' /\ same_books s s') s.
Proof.
  intros H Hn Hlim. unfold wp, take_upstream.
  destruct (upstream (clock_ s) (upstream_ s) n) as [p|] eqn:E.
  2:{ split_and!; try done. by apply (held_same _ s). }
  destruct (Hup _ _ _ _ E) as (Hp & Hnone & Hap). destruct H as [Hu Hsep Hpos Hused [Hl1 Hl2]].
  assert (map_to_list (<[p := n]> (upstream_ s)) ≡ₚ (p, n) :: allocs) as Hu'.
  { by rewrite map_to_list_insert, Hu. }
  assert (total (<[p := n]> (upstream_ s)) = total (upstream_ s) + n) as Htot.
  { rewrite (total_permutation _ _ Hu'), (total_permutation _ _ Hu).
    change (n + zsum allocs.*2 = zsum allocs.*2 + n). lia. }
  split; [constructor; simpl; try done|split; [|by split]].
  - intros a x b y Ha Hb Hne. apply lookup_insert_Some in Ha, Hb.
    destruct Ha as [[<- <-]|[_ Ha]], Hb as [[<- <-]|[_ Hb]]; [done|by apply Hap| |by apply Hsep].
    destruct (Hap _ _ Ha); [by right|by left].
  - intros a x Ha. apply lookup_insert_Some in Ha as [[<- <-]|[_ Ha]]; [lia|by apply Hpos].
  - rewrite Hused, u64_add, Htot. done.
  - split; [done|]. intros Hz. rewrite Htot. by apply Hlim.
  - rewrite <- Hu. intros Hin. apply list_elem_of_fmap in Hin as ([q m] & -> & Hin).
    apply elem_of_map_to_list in Hin. simpl in *. congruence.
Qed.

Lemma over_limit_spec allocs n s :
  held allocs s -> limit_ s <> 0 -> over_limit n s = false -> total (upstream_ s) + n <= limit_ s.
Proof.
  intros H Hz Ho. pose proof (held_total _ _ H). destruct (h_limit _ _ H) as [Hl1 Hl2]. specialize (Hl2 Hz).
  unfold over_limit in Ho. rewrite (h_used _ _ H), (u64_small (total _)), u64_small in Ho by lia.
  apply Z.ltb_ge in Ho. lia.
Qed.

(** Another allocation of the rest of the program. *)
Lemma pool_inv_other others s s' p n :
  pool_inv others s -> same_books s s' ->
  held ((p, n) :: map_to_list others ++ concat (map chunk_allocs (chunks_ s)) ++ live_large (live_ s)) s' ->
  others !! p = None -> pool_inv (<[p := n]> others) s'.
Proof.
  intros [Hcl Hbl Hch Hh Hlv Hr] (E1 & E2 & E3 & E4 & E5) Hh' Hp.
  constructor; rewrite ?E2, ?E3, ?E4, ?E5; try done.
  - unfold free_list. rewrite E2. done.
  - revert Hh'. apply held_proper; [|done]. by rewrite map_to_list_insert.
Qed.

Lemma pool_inv_same others s s' :
  pool_inv others s -> same_books s s' ->
  held (map_to_list others ++ concat (map chunk_allocs (chunks_ s)) ++ live_large (live_ s)) s' ->
  pool_inv others s'.
Proof.
  intros [Hcl Hbl Hch Hh Hlv Hr] (E1 & E2 & E3 & E4 & E5) Hh'.
  constructor; rewrite ?E2, ?E3, ?E4, ?E5; try done. unfold free_list. rewrite E2. done.
Qed.

Lemma mem_allocate_inv others n s :
  pool_inv others s -> 0 <= n ->
  wp (mem_allocate upstream n)
     (fun p s' => others !! p = None /\ pool_inv (<[p := n]> others) s' /\
                  live_ s' = live_ s /\ limit_ s' = limit_ s /\ 0 < p < 2 ^ 64)
     (fun e s' => e = exn_bad_alloc /\ pool_inv others s' /\ live_ s' = live_ s /\ limit_ s' = limit_ s) s.
Proof.
  intros H Hn.
  assert (forall s1, pool_inv others s1 -> live_ s1 = live_ s -> limit_ s1 = limit_ s ->
    (limit_ s1 <> 0 -> over_limit n s1 = false) ->
    wp (take_upstream upstream n)
     (fun p s' => others !! p = None /\ pool_inv (<[p := n]> others) s' /\
                  live_ s' = live_ s /\ limit_ s' = limit_ s /\ 0 < p < 2 ^ 64)
     (fun e s' => e = exn_bad_alloc /\ pool_inv others s' /\ live_ s' = live_ s /\ limit_ s' = limit_ s) s1)
    as Htake.
  { intros s1 H1 El Elim Ho. pose proof (pi_held _ _ H1) as Hh.
    eapply wp_mono; [apply (take_upstream_held _ _ _ Hh Hn)| |].
    - intros Hz. by eapply over_limit_spec; [done|done|apply Ho].
    - intros p s' (Hh' & Hp & Hb & Hp64).
      assert (others !! p = None) as Hnone.
      { destruct (others !! p) as [m|] eqn:E; [exfalso|done]. apply Hp.
        rewrite fmap_app, elem_of_app. left. apply list_elem_of_fmap. exists (p, m).
        split; [done|by apply elem_of_map_to_list]. }
      destruct Hb as (? & ? & ? & ? & ?). split_and!; [done|by eapply pool_inv_other|congruence|congruence|lia|lia].
    - intros e s' (-> & Hh' & Hb). split_and!; [done|by eapply pool_inv_same|..];
        destruct Hb as (? & ? & ? & ? & ?); congruence. }
  unfold mem_allocate. wp_steps.
  destruct (Z.eqb_spec (limit_ s) 0) as [Ez|Ez]; simpl; [wp_steps; by apply Htake|].
  destruct (over_limit n s) eqn:Eo; wp_steps; [|by apply Htake].
  destruct (reclaim_inv _ _ H) as (Hr & El & Elim & _).
  destruct (over_limit n (reclaim s)) eqn:Eo'; wp_steps; [done|]. by apply Htake.
Qed.

Lemma mem_deallocate_inv others p n s :
  pool_inv (<[p := n]> others) s -> others !! p = None -> pool_inv others (mem_deallocate p n s).
Proof.
  intros [Hcl Hbl Hch Hh Hlv Hr] Hp. constructor; simpl; try done.
  apply mem_deallocate_held. revert Hh. apply held_proper; [|done]. by rewrite map_to_list_insert.
Qed.

Lemma chunk_size_eq i : 0 <= i < class_count -> chunk_size 64 chunk_bytes (class_size i) = chunk_bytes.
Proof.
  intros Hi. pose proof (class_size_pos i Hi). assert (largest_class = 4096) as E by done.
  cbn [chunk_size]. destruct (Z.ltb_spec chunk_bytes (class_size i * 16)); [|done].
  unfold chunk_bytes in *. lia.
Qed.

Lemma fold_left_push {A} (xs l : list A) : fold_left (fun l b => b :: l) xs l = rev xs ++ l.
Proof. revert l. induction xs as [|x xs IH]; intros l; simpl; [done|]. by rewrite IH, <- app_assoc. Qed.

(** A chunk enters the books with all its blocks free. *)
Lemma enter_chunk_inv others s self memory i :
  pool_inv (<[self := sizeof_Chunk]> (<[memory := chunk_bytes]> others)) s -> 0 <= i < class_count ->
  others !! memory = None -> <[memory := chunk_bytes]> others !! self = None ->
  pool_inv others
    (set_free i (fold_left (fun l b => b :: l) (chunk_blocks memory chunk_bytes (class_size i)) (free_list i s))
      (set_chunks (mkChunk self memory chunk_bytes i :: chunks_ s) (u64 (reserved_ s + chunk_bytes)) s)).
Proof.
  intros [Hcl Hbl Hch Hh Hlv Hr] Hi Hm Hs. rewrite fold_left_push. constructor; simpl; try done.
  - by rewrite length_insert.
  - intros j Hj.
    change (free_list j (set_free i (rev (chunk_blocks memory chunk_bytes (class_size i)) ++ free_list i s) s) ++
            live_class j (live_ s) ≡ₚ
            concat (map blocks_of (chunks_of_class j (mkChunk self memory chunk_bytes i :: chunks_ s)))).
    rewrite free_list_set by done. unfold chunks_of_class. destruct (decide (j = i)) as [->|Hne].
    + rewrite filter_cons_True by done. simpl. rewrite <- app_assoc, (Hbl i Hi), <- Permutation_rev. done.
    + rewrite filter_cons_False by (simpl; congruence). by apply Hbl.
  - by constructor.
  - apply (held_same _ s); [done..|]. revert Hh. apply held_proper; [|done].
    rewrite !map_to_list_insert by done. simpl. solve_Permutation.
  - rewrite Hr, u64_add, len_cons. f_equal. lia.
Qed.

Lemma add_chunk_inv others i s :
  pool_inv others s -> 0 <= i < class_count ->
  wp (add_chunk upstream i)
     (fun _ s' => pool_inv others s' /\ live_ s' = live_ s /\ limit_ s' = limit_ s /\ free_list i s' <> [])
     (fun e s' => e = exn_bad_alloc /\ pool_inv others s' /\ live_ s' = live_ s /\ limit_ s' = limit_ s) s.
Proof.
  intros H Hi. unfold add_chunk. rewrite chunk_size_eq by done. wp_steps.
  eapply wp_mono; [by apply (mem_allocate_inv others)| |done]. intros memory s1 (Hm & H1 & El1 & Em1 & _).
  wp_steps. eapply wp_mono; [by apply (mem_allocate_inv _ _ _ H1)| |].
  - intros self s2 (Hs & H2 & El2 & Em2 & _). wp_steps. split_and!.
    + exact (enter_chunk_inv _ _ _ _ _ H2 Hi Hm Hs).
    + simpl. congruence.
    + simpl. congruence.
    + rewrite free_list_set; [|done|done|apply (pi_classes _ _ H2)]. rewrite decide_True by done.
      rewrite fold_left_push. pose proof (class_size_pos i Hi). assert (largest_class = 4096) by done.
      intros E. apply app_nil in E as [E _]. apply (f_equal length) in E. rewrite length_rev in E.
      pose proof (length_chunk_blocks memory chunk_bytes (class_size i)) as Hl. unfold len in Hl.
      assert (1 <= chunk_bytes / class_size i) by (apply Z.div_le_lower_bound; unfold chunk_bytes; lia).
      simpl in E. rewrite E in Hl. lia.
  - intros e s2 (-> & H2 & El2 & Em2). wp_steps. split_and!; [done| |simpl; congruence..].
    by apply mem_deallocate_inv.
Qed.

(** Handing out the head of a free list. *)
Lemma take_block_inv others s size p next :
  pool_inv others s -> 0 <= size <= largest_class -> free_list (class_index size) s = p :: next ->
  live_ s !! p = None /\
  pool_inv others (set_live (<[p := size]> (live_ s)) (set_free (class_index size) next s)).
Proof.
  intros H Hsize Hfree. destruct (class_index_spec size Hsize) as (Hi & _ & _).
  assert (live_ s !! p = None) as Hp.
  { eapply free_not_live; [done|exact Hi|]. rewrite Hfree. left. }
  split; [done|]. destruct H as [Hcl Hbl Hch Hh Hlv Hr]. constructor; simpl; try done.
  - by rewrite length_insert.
  - intros j Hj. specialize (Hbl j Hj).
    change (free_list j (set_free (class_index size) next s) ++ live_class j (<[p := size]> (live_ s)) ≡ₚ
            concat (map blocks_of (chunks_of_class j (chunks_ s)))).
    rewrite free_list_set, live_class_insert by done. rewrite <- Hbl.
    destruct (decide (j = class_index size)) as [->|Hne].
    + rewrite decide_True by lia. rewrite Hfree. solve_Permutation.
    + rewrite decide_False by (intros [_ ?]; congruence). done.
  - apply (held_same _ s); [done..|]. revert Hh. apply held_proper; [|done].
    rewrite live_large_insert, decide_False by (done || lia). done.
  - intros q m Hq. apply lookup_insert_Some in Hq as [[<- <-]|[_ Hq]]; [lia|by apply (Hlv q)].
Qed.

(** Handing out a block of its own. *)
Lemma take_large_inv others s size p :
  pool_inv (<[p := size]> others) s -> others !! p = None -> largest_class < size ->
  live_ s !! p = None /\ pool_inv others (set_live (<[p := size]> (live_ s)) s).
Proof.
  intros H Hp Hsize. assert (0 < largest_class) by done.
  assert (live_ s !! p = None) as Hnone.
  { destruct (live_ s !! p) as [m|] eqn:E; [exfalso|done].
    destruct (Z.le_gt_cases m largest_class) as [Hm|Hm].
    - destruct (live_small _ _ _ _ H E Hm) as [Hi _].
      destruct (block_in_chunk _ _ (class_index m) p H Hi) as (c & Hc & Hok & _ & Hpc);
        [apply elem_of_app; right; by apply elem_of_live_class|].
      destruct (chunk_held _ _ c H Hc) as (rest & Hh & _ & _ & Ho).
      pose proof (held_apart _ _ _ _ _ _ Hh (Ho p size (lookup_insert_eq _ _ _))) as Hap.
      pose proof (blocks_of_range _ _ Hok Hpc). pose proof (class_size_pos _ (proj1 Hok)).
      unfold apart in Hap. lia.
    - pose proof (held_keys _ _ (pi_held _ _ H)) as Hnd. rewrite map_to_list_insert in Hnd by done.
      simpl in Hnd. apply NoDup_cons in Hnd as [Hnd _]. apply Hnd. rewrite !fmap_app, !elem_of_app.
      right. right. apply list_elem_of_fmap. exists (p, m). split; [done|].
      apply elem_of_live_large; [done|lia]. }
  split; [done|]. destruct H as [Hcl Hbl Hch Hh Hlv Hr]. constructor; simpl; try done.
  - intros j Hj. rewrite live_class_insert by done. rewrite decide_False by lia. by apply Hbl.
  - apply (held_same _ s); [done..|]. revert Hh. apply held_proper; [|done].
    rewrite live_large_insert, decide_True, map_to_list_insert by done. solve_Permutation.
  - intros q m Hq. apply lookup_insert_Some in Hq as [[<- <-]|[_ Hq]]; [lia|by apply (Hlv q)].
Qed.

Lemma pool_allocate_inv others size s :
  pool_inv others s -> 0 <= size ->
  wp (pool_allocate upstream size)
     (fun p s' => pool_inv others s' /\ 0 < p /\ live_ s !! p = None /\
                  live_ s' = <[p := size]> (live_ s) /\ limit_ s' = limit_ s)
     (fun e s' => e = exn_bad_alloc /\ pool_inv others s' /\ live_ s' = live_ s /\ limit_ s' = limit_ s) s.
Proof.
  intros H Hs. unfold pool_allocate. wp_steps.
  assert (forall s1 p, pool_inv others (set_live (<[p := size]> (live_ s1)) s1) -> 0 < p) as Hpos.
  { intros s1 p H1. eapply live_positive; [done|]. apply lookup_insert_eq. }
  destruct (Z.ltb_spec largest_class size) as [Hl|Hl].
  - eapply wp_mono; [by apply mem_allocate_inv| |done]. intros p s1 (Hp & H1 & El & Em & _). wp_steps.
    destruct (take_large_inv _ _ _ _ H1 Hp Hl) as [Hnone H2].
    split_and!; simpl; [done|by eapply Hpos|congruence..].
  - destruct (class_index_spec size ltac:(lia)) as (Hi & _ & _).
    assert (forall s1, pool_inv others s1 -> live_ s1 = live_ s -> limit_ s1 = limit_ s ->
      free_list (class_index size) s1 <> [] ->
      wp (let! s := get in
          match free_list (class_index size) s with
          | [] => throw exn_bad_alloc
          | block :: next => do! modify (set_free (class_index size) next) in ret block
          end)
         (fun a => wp (do! modify (fun s0 => set_live (<[a:=size]> (live_ s0)) s0) in ret a)
           (fun p s' => pool_inv others s' /\ 0 < p /\ live_ s !! p = None /\
                  live_ s' = <[p := size]> (live_ s) /\ limit_ s' = limit_ s)
           (fun e s' => e = exn_bad_alloc /\ pool_inv others s' /\ live_ s' = live_ s /\ limit_ s' = limit_ s))
         (fun e s' => e = exn_bad_alloc /\ pool_inv others s' /\ live_ s' = live_ s /\ limit_ s' = limit_ s) s1)
      as Htake.
    { intros s1 H1 El Em Hne. wp_steps.
      destruct (free_list (class_index size) s1) as [|p next] eqn:E; [done|]. wp_steps.
      destruct (take_block_inv others s1 size p next H1 (conj Hs Hl) E) as [Hnone H2].
      split_and!; simpl; [done|by eapply (Hpos (set_free _ next s1))|congruence..]. }
    wp_steps. destruct (free_list (class_index size) s) as [|p next] eqn:E.
    + eapply wp_mono; [by apply add_chunk_inv| |done]. intros u s1 (H1 & El & Em & Hne). by apply Htake.
    + wp_steps. apply Htake; [done..|]. by rewrite E.
Qed.

End alloc_facts.

(** ** The pool as an allocator of nodes *)

Section instance.

Context (upstream : nat -> gmap Z Z -> Z -> option Z) (Hup : upstream_ok upstream).
Context (container_bytes : nat -> Z) (Hcb : forall t, 0 <= container_bytes t).

Context (returned : nat -> gmap Z Z -> list Z).

(** The pool, and what else is taken from the resource: blocks of the
    database itself, and blocks of its containers. *)
Record Memory := mkMemory { mem_pool : Pool; mem_taken : gmap Z Z; mem_containers : gmap Z Z }.

Definition memory_ok (m : Memory) : Prop :=
  pool_inv (mem_taken m ∪ mem_containers m) (mem_pool m) /\ mem_taken m ##ₘ mem_containers m.

Definition on_pool {R} (c : M Pool R) : M Memory R :=
  zoom mem_pool (fun s m => mkMemory s (mem_taken m) (mem_containers m)) c.

Definition take_block (n : Z) : M Memory Z :=
  let! p := on_pool (mem_allocate upstream n) in
  do! modify (fun m => mkMemory (mem_pool m) (<[p := n]> (mem_taken m)) (mem_containers m)) in
  ret p.

Definition give_block (p n : Z) (m : Memory) : Memory :=
  mkMemory (mem_deallocate p n (mem_pool m)) (delete p (mem_taken m)) (mem_containers m).

Definition return_block (m : Memory) (p : Z) : Memory :=
  match mem_containers m !! p with
  | Some n => mkMemory (mem_deallocate p n (mem_pool m)) (mem_taken m) (delete p (mem_containers m))
  | None => m
  end.

(** A container may return any of its blocks, and may then ask for a block of
    any size. *)
Definition return_blocks (m : Memory) : Memory :=
  fold_left return_block (returned (clock_ (mem_pool m)) (mem_containers m)) m.

Definition container_use : M Memory unit :=
  let! m := get in
  let n := container_bytes (clock_ (mem_pool m)) in
  let! p := on_pool (mem_allocate upstream n) in
  do! modify (fun m => mkMemory (mem_pool m) (mem_taken m) (<[p := n]> (mem_containers m))) in
  modify return_blocks.

Definition memory_kept (m m' : Memory) : Prop :=
  memory_ok m' /\ live_ (mem_pool m') = live_ (mem_pool m) /\ mem_taken m' = mem_taken m.

Lemma delete_taken_union (t c : gmap Z Z) p n :
  t ##ₘ c -> c !! p = Some n -> t ∪ c = <[p := n]> (t ∪ delete p c) /\ (t ∪ delete p c) !! p = None.
Proof.
  intros Hd Hp. assert (t !! p = None) as Ht by (by eapply map_disjoint_Some_r). split.
  - by rewrite <- (insert_delete_id c p n Hp) at 1; rewrite <- insert_union_r.
  - apply lookup_union_None. by rewrite lookup_delete_eq.
Qed.

Lemma return_block_kept m p : memory_ok m -> memory_kept m (return_block m p).
Proof.
  intros [H Hd]. unfold return_block. destruct (mem_containers m !! p) as [n|] eqn:E; [|done].
  destruct (delete_taken_union _ _ _ _ Hd E) as [Eu En]. rewrite Eu in H. split_and!; [split|done|done]; simpl.
  - by apply mem_deallocate_inv.
  - by apply map_disjoint_delete_r.
Qed.

Lemma return_blocks_kept m : memory_ok m -> memory_kept m (return_blocks m).
Proof.
  intros H. unfold return_blocks. generalize (returned (clock_ (mem_pool m)) (mem_containers m)). intros l.
  revert m H. induction l as [|p l IH]; intros m H; simpl; [done|].
  destruct (return_block_kept m p H) as (H1 & E1 & E2). destruct (IH _ H1) as (H2 & E3 & E4).
  split_and!; [done|congruence|congruence].
Qed.

Lemma take_wp n m :
  memory_ok m -> 0 <= n ->
  wp (on_pool (mem_allocate upstream n))
     (fun p m' => (mem_taken m ∪ mem_containers m) !! p = None /\ 0 < p < 2 ^ 64 /\
                  pool_inv (<[p := n]> (mem_taken m ∪ mem_containers m)) (mem_pool m') /\
                  live_ (mem_pool m') = live_ (mem_pool m) /\
                  mem_taken m' = mem_taken m /\ mem_containers m' = mem_containers m)
     (fun e m' => e = exn_bad_alloc /\ memory_kept m m') m.
Proof.
  intros [H Hd] Hn. apply wp_zoom. eapply wp_mono; [by apply (mem_allocate_inv upstream Hup)|..]; simpl.
  - intros p s' (Hp & H' & El & _ & Hr). done.
  - intros e s' (-> & H' & El & _). done.
Qed.

(** Nothing but [std::bad_alloc] is thrown, in whatever state. *)
Lemma mem_allocate_throws n s : wp (mem_allocate upstream n) (fun _ _ => True) (fun e _ => e = exn_bad_alloc) s.
Proof.
  assert (forall s, wp (take_upstream upstream n) (fun _ _ => True) (fun e _ => e = exn_bad_alloc) s) as Htake.
  { intros s1. unfold wp, take_upstream. by destruct (upstream _ _ _). }
  unfold mem_allocate. wp_steps. destruct (negb (limit_ s =? 0) && over_limit n s); wp_steps; [|apply Htake].
  destruct (over_limit n _); wp_steps; [done|apply Htake].
Qed.

Lemma pool_allocate_throws n s : wp (pool_allocate upstream n) (fun _ _ => True) (fun e _ => e = exn_bad_alloc) s.
Proof.
  unfold pool_allocate. wp_steps. destruct (largest_class <? n).
  { eapply wp_mono; [apply mem_allocate_throws|intros; by wp_steps|done]. }
  wp_steps. set (P := fun (_ : unit) (s : Pool) => True).
  assert (wp (match free_list (class_index n) s with [] => add_chunk upstream (class_index n) | _ :: _ => ret tt end) P
    (fun e _ => e = exn_bad_alloc) s) as Hadd.
  { destruct (free_list (class_index n) s); [|done]. unfold add_chunk. wp_steps. eapply wp_mono; [apply mem_allocate_throws| |done].
    intros p s1 _. wp_steps. eapply wp_mono; [apply mem_allocate_throws|intros; by wp_steps|]. intros e s2 ->. by wp_steps. }
  eapply wp_mono; [exact Hadd| |done]. intros _ s1 _. wp_steps. destruct (free_list (class_index n) s1); by wp_steps.
Qed.

Program Definition slab_allocator : NodeAllocator Memory := {|
  al_ok := memory_ok;
  al_live m := live_ (mem_pool m);
  al_taken := mem_taken;
  al_allocate n := on_pool (pool_allocate upstream n);
  al_deallocate p n m := mkMemory (pool_deallocate p n (mem_pool m)) (mem_taken m) (mem_containers m);
  al_take := take_block;
  al_give := give_block;
  al_container := container_use;
  al_return := return_blocks;
  al_return_spec := return_blocks_kept;
  al_allocate_throws n m := wp_zoom _ _ _ _ _ m (pool_allocate_throws n (mem_pool m))
|}.
Next Obligation.
  intros n m [H Hd] Hn. apply wp_zoom. eapply wp_mono; [by apply (pool_allocate_inv upstream Hup)|..]; simpl.
  - intros p s' (? & ? & ? & ? & _). done.
  - intros e s' (? & ? & ? & _). done.
Qed.
Next Obligation.
  intros p n m [H Hd] Hp. destruct (pool_deallocate_inv _ _ _ _ H Hp) as (? & ? & _). done.
Qed.
Next Obligation.
  intros n m H Hn. unfold take_block. wp_steps. eapply wp_mono; [by apply take_wp|..].
  - intros p m' (Hnone & Hp & Hi & El & Et & Ec). wp_steps. simpl. apply lookup_union_None in Hnone as [Ht Hc].
    rewrite Et. split_and!; try done; [split|..]; simpl.
    + by rewrite Ec, <- insert_union_l.
    + rewrite Ec. apply map_disjoint_insert_l_2; [done|apply H].
    + lia.
    + lia.
  - intros e m' (-> & H' & E1 & E2). done.
Qed.
Next Obligation.
  intros p n m [H Hd] Hp. split_and!; [split|done|done]; simpl.
  - assert (mem_containers m !! p = None) as Hc by (by eapply map_disjoint_Some_l).
    apply mem_deallocate_inv; [|by apply lookup_union_None; rewrite lookup_delete_eq].
    rewrite insert_union_l, insert_delete_id by done. done.
  - by apply map_disjoint_delete_l.
Qed.
Next Obligation.
  intros m H. unfold container_use. wp_steps. eapply wp_mono; [by apply take_wp|..].
  - intros p m' (Hnone & Hp & Hi & El & Et & Ec). wp_steps. simpl. apply lookup_union_None in Hnone as [Ht Hc].
    destruct (return_blocks_kept (mkMemory (mem_pool m') (mem_taken m')
      (<[p := container_bytes (clock_ (mem_pool m))]> (mem_containers m')))) as (? & E1 & E2).
    { split; simpl; rewrite Et, Ec.
      - by rewrite <- insert_union_r.
      - apply map_disjoint_insert_r_2; [done|apply H]. }
    simpl in *. split_and!; congruence.
  - intros e m' (-> & H' & E1 & E2). done.
Qed.
Next Obligation.
  intros n m. unfold take_block. wp_steps. apply wp_zoom. eapply wp_mono; [apply mem_allocate_throws|intros; by wp_steps|done].
Qed.
Next Obligation.
  intros m. unfold container_use. wp_steps. apply wp_zoom. eapply wp_mono; [apply mem_allocate_throws|intros; by wp_steps|done].
Qed.
Next Obligation. intros m p n q k [H _] ???. by eapply live_apart. Qed.

End instance.

(** ** Histories *)

(** What the program may do with the pool and the resource; [others] is what
    its containers hold. *)
Inductive pool_step (upstream : nat -> gmap Z Z -> Z -> option Z)
    : gmap Z Z * Pool -> gmap Z Z * Pool -> Prop :=
| step_allocate others s size r s' :
    0 <= size -> pool_allocate upstream size s = (r, s') ->
    pool_step upstream (others, s) (others, s')
| step_deallocate others s p n :
    live_ s !! p = Some n -> pool_step upstream (others, s) (others, pool_deallocate p n s)
| step_take others s n r s' :
    0 <= n -> mem_allocate upstream n s = (r, s') ->
    pool_step upstream (others, s) (match r with inr p => <[p := n]> others | inl _ => others end, s')
| step_give others s p n :
    others !! p = Some n -> pool_step upstream (others, s) (delete p others, mem_deallocate p n s)
| step_reclaim others s : pool_step upstream (others, s) (others, reclaim s).

Definition pool_reachable (upstream : nat -> gmap Z Z -> Z -> option Z) (limit : Z)
    (others : gmap Z Z) (s : Pool) : Prop :=
  rtc (pool_step upstream) (∅, new_pool limit) (others, s).

Lemma reachable_inv upstream limit others s :
  upstream_ok upstream -> 0 <= limit < 2 ^ 64 -> pool_reachable upstream limit others s ->
  pool_inv others s /\ limit_ s = limit.
Proof.
  intros Hup Hl Hr. unfold pool_reachable in Hr.
  apply (rtc_ind_r (fun x => pool_inv x.1 x.2 /\ limit_ x.2 = limit) (∅, new_pool limit)) in Hr; [done| |].
  { split; [by apply new_pool_inv|done]. }
  intros x y _ Hstep [H E]. destruct Hstep as [others' s1 size r s2 Hn Ha|others' s1 p n Hp
    |others' s1 n r s2 Hn Ha|others' s1 p n Hp|others' s1]; simpl in *.
  - pose proof (wp_elim _ _ _ _ _ _ (pool_allocate_inv upstream Hup _ _ _ H Hn) Ha) as Hw.
    destruct r; [destruct Hw as (_ & ? & _ & ?)|destruct Hw as (? & _ & _ & _ & ?)]; split; congruence.
  - destruct (pool_deallocate_inv _ _ _ _ H Hp) as (? & _ & ?). split; congruence.
  - pose proof (wp_elim _ _ _ _ _ _ (mem_allocate_inv upstream Hup _ _ _ H Hn) Ha) as Hw.
    destruct r; [destruct Hw as (_ & ? & _ & ?)|destruct Hw as (_ & ? & _ & ? & _)]; split; congruence.
  - split; [|done]. apply mem_deallocate_inv; [|apply lookup_delete_eq]. by rewrite insert_delete_id.
  - destruct (reclaim_inv _ _ H) as (? & _ & ? & _). split; congruence.
Qed.

(** [operator new] in the examples: the next address above everything. *)
Definition above (b : Z * Z) (top : Z) : Z := Z.max top (b.1 + Z.max b.2 1).

Definition bump (t : nat) (up : gmap Z Z) (n : Z) : option Z :=
  let top := fold_right above 16 (map_to_list up) in if top <? 2 ^ 64 then Some top else None.

Lemma above_all l :
  16 <= fold_right above 16 l /\ forall q m, (q, m) ∈ l -> q + Z.max m 1 <= fold_right above 16 l.
Proof.
  induction l as [|[q m] l [IH1 IH2]]; simpl; [split; [lia|intros q m H; by apply elem_of_nil in H]|].
  unfold above at 1 3. simpl. split; [lia|]. intros q' m' H.
  apply elem_of_cons in H as [[= -> ->]|H]; [lia|]. specialize (IH2 _ _ H). lia.
Qed.

Lemma bump_ok : upstream_ok bump.
Proof.
  intros t up n p E. unfold bump in E. destruct (Z.ltb_spec (fold_right above 16 (map_to_list up)) (2 ^ 64)); [|done].
  injection E as <-. destruct (above_all (map_to_list up)) as [H1 H2]. split_and!; [lia|lia| |].
  - destruct (up !! _) as [m|] eqn:E; [exfalso|done]. apply elem_of_map_to_list in E.
    specialize (H2 _ _ E). lia.
  - intros q m Hq. apply elem_of_map_to_list in Hq. specialize (H2 _ _ Hq). right. lia.
Qed.

(** ** Properties *)

(** A request is served from the smallest class that holds it. *)
Theorem class_index_smallest size :
  0 <= size <= largest_class ->
  0 <= class_index size < class_count /\ size <= class_size (class_index size) /\
  forall i, 0 <= i < class_index size -> class_size i < size.
Proof. apply class_index_spec. Qed.

Lemma class_index_smallest_witness : 1025 <= class_size (class_index 1025).
Proof. apply (class_index_smallest 1025). vm_compute. split; discriminate. Defined.

(** C25: in every history of the pool and the resource, whatever the upstream
    resource refuses, live blocks never overlap, and a new block is apart from
    every live one. *)
Theorem pool_blocks_disjoint upstream limit others s :
  upstream_ok upstream -> 0 <= limit < 2 ^ 64 -> pool_reachable upstream limit others s ->
  (forall p n q m, live_ s !! p = Some n -> live_ s !! q = Some m -> p <> q -> apart p n q m) /\
  (forall size p s', 0 <= size -> pool_allocate upstream size s = (inr p, s') ->
     live_ s' = <[p := size]> (live_ s) /\
     forall q m, live_ s !! q = Some m -> apart p size q m).
Proof.
  intros Hup Hl Hr. destruct (reachable_inv _ _ _ _ Hup Hl Hr) as [H _].
  split; [intros p n q m; by eapply live_apart|]. intros size p s' Hs Ha.
  destruct (wp_elim _ _ _ _ _ _ (pool_allocate_inv upstream Hup _ _ _ H Hs) Ha) as (H' & _ & Hnone & El & _).
  split; [done|]. intros q m Hq. eapply live_apart; [exact H'|rewrite El..|].
  - apply lookup_insert_eq.
  - rewrite lookup_insert_ne; [done|congruence].
  - congruence.
Qed.

Lemma pool_blocks_disjoint_witness :
  exists p s', pool_allocate bump 100 (new_pool 0) = (inr p, s') /\ live_ s' = <[p := 100]> ∅.
Proof.
  destruct (pool_allocate bump 100 (new_pool 0)) as [[e|p] s'] eqn:E; [vm_compute in E; discriminate|].
  exists p, s'. split; [reflexivity|].
  apply (proj2 (pool_blocks_disjoint bump 0 ∅ (new_pool 0) bump_ok ltac:(lia) (rtc_refl _ _)) 100 p s');
    [lia|exact E].
Defined.

(** C26: with a limit set, the bytes in use never exceed it, in any history;
    [used()] is exactly what is held upstream. *)
Theorem memory_limit_respected upstream limit others s :
  upstream_ok upstream -> 0 < limit < 2 ^ 64 -> pool_reachable upstream limit others s ->
  used_ s = total (upstream_ s) /\ used_ s <= limit.
Proof.
  intros Hup Hl Hr. destruct (reachable_inv upstream limit others s Hup ltac:(lia) Hr) as [H E].
  pose proof (pi_held _ _ H) as Hh. pose proof (held_total _ _ Hh). destruct (h_limit _ _ Hh) as [_ Hlim].
  rewrite E in Hlim. specialize (Hlim ltac:(lia)). rewrite (h_used _ _ Hh), u64_small by lia. lia.
Qed.

Lemma memory_limit_respected_witness :
  used_ (snd (pool_allocate bump 100 (new_pool 100000))) <= 100000.
Proof.
  apply (memory_limit_respected bump 100000 ∅ (snd (pool_allocate bump 100 (new_pool 100000))) bump_ok).
  - lia.
  - apply rtc_once. destruct (pool_allocate bump 100 (new_pool 100000)) as [r s'] eqn:E.
    apply (step_allocate bump ∅ (new_pool 100000) 100 r s'); [lia|exact E].
Defined.

(** Reclaiming gives back exactly the chunks without a live block: live
    blocks stay where they are and stay backed, the counters follow, and every
    chunk that remains has a live block in it. *)
Theorem reclaim_exact upstream limit others s :
  upstream_ok upstream -> 0 <= limit < 2 ^ 64 -> pool_reachable upstream limit others s ->
  pool_inv others (reclaim s) /\ live_ (reclaim s) = live_ s /\
  (forall c, c ∈ chunks_ (reclaim s) -> has_live (live_ s) c).
Proof.
  intros Hup Hl Hr. destruct (reachable_inv _ _ _ _ Hup Hl Hr) as [H _].
  destruct (reclaim_inv _ _ H) as (? & ? & _ & Hlive). split_and!; try done. by apply Forall_forall.
Qed.

Lemma reclaim_exact_witness :
  live_ (reclaim (snd (pool_allocate bump 100 (new_pool 0)))) = live_ (snd (pool_allocate bump 100 (new_pool 0))).
Proof.
  apply (reclaim_exact bump 0 ∅ (snd (pool_allocate bump 100 (new_pool 0))) bump_ok).
  - lia.
  - apply rtc_once. destruct (pool_allocate bump 100 (new_pool 0)) as [r s'] eqn:E.
    apply (step_allocate bump ∅ (new_pool 0) 100 r s'); [lia|exact E].
Defined.
