(* ===== verification/Lru.v ===== *)
(** * Lru: the recency list

    The doubly linked list through the nodes by which [src/database.cpp]
    orders keys for eviction: [unlink_lru], [touch] and the splice of
    [grow_node].  The two link fields of all nodes are one map from the
    node's address; address 0 is the null pointer.  The list of addresses
    from [lru_head_] to [lru_tail_] is the abstract state, and every
    operation is the list operation it should be. *)

From S2P Require Import Prelude.

Record Lru := mkLru {
  lru_head_ : Z;
  lru_tail_ : Z;
  links : gmap Z (Z * Z)      (** [lru_previous] and [lru_next] of each node *)
}.

Definition links_of (L : Lru) (a : Z) : Z * Z := default (0, 0) (links L !! a).
Definition lru_previous (L : Lru) (a : Z) : Z := (links_of L a).1.
Definition lru_next (L : Lru) (a : Z) : Z := (links_of L a).2.

Definition set_previous (a p : Z) (L : Lru) : Lru :=
  mkLru (lru_head_ L) (lru_tail_ L) (<[a := (p, lru_next L a)]> (links L)).
Definition set_next (a n : Z) (L : Lru) : Lru :=
  mkLru (lru_head_ L) (lru_tail_ L) (<[a := (lru_previous L a, n)]> (links L)).
Definition set_head (a : Z) (L : Lru) : Lru := mkLru a (lru_tail_ L) (links L).
Definition set_tail (a : Z) (L : Lru) : Lru := mkLru (lru_head_ L) a (links L).

(** A pointer is not null. *)
Definition nonnull (a : Z) : bool := negb (a =? 0).

Definition unlink_lru (node : Z) (L : Lru) : Lru :=
  let L := if nonnull (lru_previous L node) then set_next (lru_previous L node) (lru_next L node) L
           else set_head (lru_next L node) L in
  let L := if nonnull (lru_next L node) then set_previous (lru_next L node) (lru_previous L node) L
           else set_tail (lru_previous L node) L in
  set_next node 0 (set_previous node 0 L).

Definition touch (node : Z) (L : Lru) : Lru :=
  if lru_head_ L =? node then L else
  let L := if nonnull (lru_previous L node) || nonnull (lru_next L node) || (lru_tail_ L =? node)
           then unlink_lru node L else L in
  let L := set_next node (lru_head_ L) L in
  let L := set_previous node 0 L in
  let L := if nonnull (lru_head_ L) then set_previous (lru_head_ L) node L else set_tail node L in
  set_head node L.

(** The part of [grow_node] that puts [fresh] in the place of [node]. *)
Definition splice (node fresh : Z) (L : Lru) : Lru :=
  let L := mkLru (lru_head_ L) (lru_tail_ L) (<[fresh := links_of L node]> (links L)) in
  let L := if nonnull (lru_previous L fresh) then set_next (lru_previous L fresh) fresh L
           else set_head fresh L in
  if nonnull (lru_next L fresh) then set_previous (lru_next L fresh) fresh L else set_tail fresh L.

(** A new node, and the end of one. *)
Definition detached (node : Z) (L : Lru) : Lru :=
  mkLru (lru_head_ L) (lru_tail_ L) (<[node := (0, 0)]> (links L)).
Definition forget (node : Z) (L : Lru) : Lru :=
  mkLru (lru_head_ L) (lru_tail_ L) (delete node (links L)).

(** ** What the list is *)

(** [l] is linked, coming from [p] and going on to [n]. *)
Fixpoint dseg (m : gmap Z (Z * Z)) (p : Z) (l : list Z) (n : Z) : Prop :=
  match l with
  | [] => True
  | a :: l => m !! a = Some (p, hd n l) /\ dseg m a l n
  end.

Definition last_or (p : Z) (l : list Z) : Z := default p (last l).

Record lru_rep (L : Lru) (l : list Z) : Prop := {
  lr_nodup : NoDup l;
  lr_nonnull : 0 ∉ l;
  lr_head : lru_head_ L = hd 0 l;
  lr_tail : lru_tail_ L = last_or 0 l;
  lr_links : dseg (links L) 0 l 0;
  (** a node outside the list has null links *)
  lr_outside : forall a, (a ∉ l) -> links_of L a = (0, 0)
}.

Lemma last_or_cons p a l : last_or p (a :: l) = last_or a l.
Proof. unfold last_or. by destruct l as [|b l _] using rev_ind; [|rewrite app_comm_cons, !last_snoc]. Qed.

Lemma last_or_app p l1 l2 : last_or p (l1 ++ l2) = last_or (last_or p l1) l2.
Proof. revert p. induction l1 as [|a l1 IH]; intros p; [done|]. by rewrite <- app_comm_cons, !last_or_cons. Qed.

Lemma last_or_snoc p l x : last_or p (l ++ [x]) = x.
Proof. unfold last_or. by rewrite last_snoc. Qed.

Lemma hd_app (n : Z) l1 l2 : hd n (l1 ++ l2) = hd (hd n l2) l1.
Proof. by destruct l1. Qed.

Lemma dseg_app m p l1 l2 n :
  dseg m p (l1 ++ l2) n <-> dseg m p l1 (hd n l2) /\ dseg m (last_or p l1) l2 n.
Proof.
  revert p. induction l1 as [|a l1 IH]; intros p; [simpl; tauto|].
  rewrite <- app_comm_cons, last_or_cons. simpl. rewrite IH, hd_app. tauto.
Qed.

(** Updates elsewhere do not matter. *)
Lemma dseg_frame m a x p l n : (a ∉ l) -> dseg m p l n -> dseg (<[a := x]> m) p l n.
Proof.
  revert p. induction l as [|b l IH]; intros p Ha; [done|]. simpl. intros [H1 H2].
  apply not_elem_of_cons in Ha as [Hne Ha]. split; [by rewrite lookup_insert_ne|by apply IH].
Qed.

Lemma dseg_delete m a p l n : (a ∉ l) -> dseg m p l n -> dseg (delete a m) p l n.
Proof.
  revert p. induction l as [|b l IH]; intros p Ha; [done|]. simpl. intros [H1 H2].
  apply not_elem_of_cons in Ha as [Hne Ha]. split; [by rewrite lookup_delete_ne|by apply IH].
Qed.

Lemma dseg_ext m m' p l n : (forall b, b ∈ l -> m' !! b = m !! b) -> dseg m p l n -> dseg m' p l n.
Proof.
  revert p. induction l as [|b l IH]; intros p E; [done|]. simpl. intros [H1 H2].
  split; [rewrite E; [done|left]|]. apply IH; [|done]. intros c Hc. apply E. by right.
Qed.

(** Setting the [next] of the last node, or the [previous] of the first. *)
Lemma dseg_set_next m p l x n n' :
  (x ∉ l) -> dseg m p (l ++ [x]) n -> dseg (<[x := (last_or p l, n')]> m) p (l ++ [x]) n'.
Proof.
  intros Hx. rewrite !dseg_app. simpl. intros (H1 & H2 & _).
  split_and!; [by apply dseg_frame|apply lookup_insert_eq|done].
Qed.

Lemma dseg_set_previous m p p' x l n :
  (x ∉ l) -> dseg m p (x :: l) n -> dseg (<[x := (p', hd n l)]> m) p' (x :: l) n.
Proof.
  intros Hx. simpl. intros [H1 H2]. split; [apply lookup_insert_eq|by apply dseg_frame].
Qed.

Lemma nonnull_true a : a <> 0 -> nonnull a = true.
Proof. unfold nonnull. destruct (Z.eqb_spec a 0); done. Qed.

Lemma rep_links L l1 a l2 :
  lru_rep L (l1 ++ a :: l2) -> links L !! a = Some (last_or 0 l1, hd 0 l2).
Proof. intros [_ _ _ _ H _]. apply dseg_app in H as [_ [H _]]. done. Qed.

(** ** Unlinking *)

(** The two halves of [unlink_lru] on the parts of the list. *)
Lemma unlink_before L l1 a n :
  NoDup (l1 ++ [a]) -> (0 ∉ l1) -> dseg (links L) 0 l1 a -> lru_head_ L = hd a l1 ->
  let L' := if nonnull (last_or 0 l1) then set_next (last_or 0 l1) n L else set_head n L in
  dseg (links L') 0 l1 n /\ lru_head_ L' = hd n l1 /\ lru_tail_ L' = lru_tail_ L /\
  (forall b, (b ∉ l1) -> links L' !! b = links L !! b).
Proof.
  intros Hnd H0 Hseg Hh. destruct l1 as [|x l1 _] using rev_ind; [done|].
  rewrite !last_or_snoc in *. cbv zeta.
  apply not_elem_of_app in H0 as [H0 Hx0]. apply not_elem_of_cons in Hx0 as [Hx0 _].
  rewrite nonnull_true by congruence. apply NoDup_app in Hnd as (Hnd & _ & _).
  apply NoDup_app in Hnd as (Hnd & Hdis & _).
  assert (x ∉ l1) as Hx by (intros Hx; apply (Hdis x Hx); left).
  pose proof Hseg as Hseg'. apply dseg_app in Hseg' as [_ [Hlx _]].
  unfold set_next, lru_previous, links_of. rewrite Hlx. cbn [links lru_head_ lru_tail_ default fst]. split_and!.
  - by apply dseg_set_next with a.
  - rewrite Hh. by destruct l1.
  - done.
  - intros b Hb. rewrite lookup_insert_ne; [done|]. intros ->. apply Hb. apply elem_of_app. right. left.
Qed.

Lemma unlink_after L l2 a p :
  NoDup l2 -> (0 ∉ l2) -> dseg (links L) a l2 0 -> lru_tail_ L = last_or a l2 ->
  let L' := if nonnull (hd 0 l2) then set_previous (hd 0 l2) p L else set_tail p L in
  dseg (links L') p l2 0 /\ lru_head_ L' = lru_head_ L /\ lru_tail_ L' = last_or p l2 /\
  (forall b, (b ∉ l2) -> links L' !! b = links L !! b).
Proof.
  intros Hnd H0 Hseg Ht. destruct l2 as [|x l2]; [done|].
  apply not_elem_of_cons in H0 as [Hx0 H0]. apply NoDup_cons in Hnd as [Hx Hnd].
  cbn [hd]. rewrite nonnull_true by congruence. cbv zeta.
  unfold set_previous, lru_next, links_of. rewrite (proj1 Hseg). cbn [links lru_head_ lru_tail_ default snd].
  split_and!; [by apply dseg_set_previous with a|done|by rewrite Ht, !last_or_cons|].
  intros b Hb. apply not_elem_of_cons in Hb as [Hb _]. by rewrite lookup_insert_ne.
Qed.

Lemma unlink_lru_rep L l1 a l2 :
  lru_rep L (l1 ++ a :: l2) -> lru_rep (unlink_lru a L) (l1 ++ l2).
Proof.
  intros H. pose proof (rep_links _ _ _ _ H) as Hla. destruct H as [Hnd H0 Hh Ht Hseg Hout].
  assert (links_of L a = (last_or 0 l1, hd 0 l2)) as Ea by (unfold links_of; by rewrite Hla).
  apply dseg_app in Hseg as [Hseg1 [_ Hseg2]]. cbn [hd] in Hseg1.
  rewrite hd_app in Hh. rewrite last_or_app, last_or_cons in Ht. cbn [hd] in Hh.
  pose proof Hnd as Hnd'. rewrite cons_middle, app_assoc in Hnd'.
  apply NoDup_app in Hnd' as (Hnd1 & Hdis & Hnd2). apply not_elem_of_app in H0 as [H01 H02].
  apply not_elem_of_cons in H02 as [Ha0 H02].
  assert ((a ∉ l1) /\ (a ∉ l2)) as [Ha1 Ha2].
  { apply NoDup_app in Hnd as (_ & Hd & Hn). apply NoDup_cons in Hn as [Hn _].
    split; [|done]. intros Hin. apply (Hd a Hin). left. }
  assert (forall b, b ∈ l2 -> (b ∉ l1)) as Hdis'.
  { intros b Hb Hb'. apply (Hdis b); [by apply elem_of_app; left|done]. }
  assert (lru_previous L a = last_or 0 l1) as Ep by (unfold lru_previous; by rewrite Ea).
  assert (lru_next L a = hd 0 l2) as En by (unfold lru_next; by rewrite Ea).
  unfold unlink_lru. rewrite Ep, En. clear Ep En.
  destruct (unlink_before L l1 a (hd 0 l2) Hnd1 H01 Hseg1 Hh) as (S1 & E1 & E2 & F1).
  set (L1 := if nonnull (last_or 0 l1) then _ else _) in *. cbv zeta.
  assert (links_of L1 a = (last_or 0 l1, hd 0 l2)) as Ea1 by (unfold links_of; by rewrite F1, Hla).
  assert (lru_previous L1 a = last_or 0 l1) as Ep by (unfold lru_previous; by rewrite Ea1).
  assert (lru_next L1 a = hd 0 l2) as En by (unfold lru_next; by rewrite Ea1).
  rewrite Ep, En. clear Ep En.
  assert (dseg (links L1) a l2 0) as Hseg2'.
  { eapply dseg_ext; [|exact Hseg2]. intros b Hb. by apply F1, Hdis'. }
  destruct (unlink_after L1 l2 a (last_or 0 l1) Hnd2 H02 Hseg2' ltac:(congruence)) as (S2 & E3 & E4 & F2).
  set (L2 := if nonnull (hd 0 l2) then _ else _) in *.
  assert (links (set_next a 0 (set_previous a 0 L2)) = <[a := (0, 0)]> (links L2)) as El.
  { unfold set_next, set_previous, lru_previous, links_of. cbn [links].
    rewrite lookup_insert_eq. cbn [default fst]. apply insert_insert_eq. }
  constructor.
  - apply NoDup_app. split_and!; [by apply NoDup_app in Hnd1 as (? & _)|intros b Hb Hb'; by apply (Hdis' b)|done].
  - by apply not_elem_of_app.
  - change (lru_head_ L2 = hd 0 (l1 ++ l2)). rewrite E3, E1, hd_app. done.
  - change (lru_tail_ L2 = last_or 0 (l1 ++ l2)). rewrite E4, last_or_app. done.
  - rewrite El. apply dseg_frame; [by apply not_elem_of_app|]. apply dseg_app. split; [|done].
    eapply dseg_ext; [|exact S1]. intros b Hb. apply F2. intros Hb'. by apply (Hdis' b).
  - intros b Hb. apply not_elem_of_app in Hb as [Hb1 Hb2]. unfold links_of. rewrite El.
    destruct (decide (b = a)) as [->|Hne]; [by rewrite lookup_insert_eq|].
    rewrite lookup_insert_ne, F2, F1 by done. apply Hout. rewrite not_elem_of_app, not_elem_of_cons. done.
Qed.

(** ** Touching *)

(** Pushing a node that is in no list on the front. *)
Lemma push_front_rep L l a :
  lru_rep L l -> (a ∉ l) -> a <> 0 ->
  let L1 := set_previous a 0 (set_next a (lru_head_ L) L) in
  let L2 := if nonnull (lru_head_ L1) then set_previous (lru_head_ L1) a L1 else set_tail a L1 in
  lru_rep (set_head a L2) (a :: l).
Proof.
  intros [Hnd H0 Hh Ht Hseg Hout] Ha Ha0 L1 L2.
  assert (links L1 = <[a := (0, hd 0 l)]> (links L)) as El.
  { unfold L1, set_next, set_previous, lru_next, lru_previous, links_of. cbn [links].
    rewrite lookup_insert_eq. cbn [default snd]. by rewrite insert_insert_eq, Hh. }
  destruct (unlink_after L1 l 0 a Hnd H0) as (S2 & E3 & E4 & F2).
  { rewrite El. by apply dseg_frame. }
  { exact Ht. }
  assert ((if nonnull (hd 0 l) then set_previous (hd 0 l) a L1 else set_tail a L1) = L2) as EL2.
  { unfold L2. change (lru_head_ L1) with (lru_head_ L). by rewrite Hh. }
  rewrite EL2 in S2, E3, E4, F2. clearbody L2.
  constructor.
  - by apply NoDup_cons.
  - apply not_elem_of_cons. done.
  - done.
  - change (lru_tail_ L2 = last_or 0 (a :: l)). by rewrite E4, last_or_cons.
  - change (links L2 !! a = Some (0, hd 0 l) /\ dseg (links L2) a l 0).
    split; [|done]. rewrite F2 by done. by rewrite El, lookup_insert_eq.
  - intros b Hb. apply not_elem_of_cons in Hb as [Hne Hb]. unfold links_of.
    change (links (set_head a L2)) with (links L2). rewrite F2, El, lookup_insert_ne by done. by apply Hout.
Qed.

(** [touch] brings a node to the front, or puts a new one there. *)
Lemma touch_rep L l a :
  lru_rep L l -> a <> 0 -> lru_rep (touch a L) (a :: filter (fun b => b <> a) l).
Proof.
  intros H Ha. unfold touch. destruct (Z.eqb_spec (lru_head_ L) a) as [E|E].
  - rewrite (lr_head _ _ H) in E. destruct l as [|b l]; [done|]. cbn in E. subst b.
    pose proof (lr_nodup _ _ H) as Hnd. apply NoDup_cons in Hnd as [Hnd _].
    rewrite filter_cons_False by auto. rewrite filter_all; [done|].
    apply Forall_forall. intros b Hb ->. done.
  - destruct (decide (a ∈ l)) as [Hin|Hin].
    + apply list_elem_of_split in Hin as (l1 & l2 & ->).
      pose proof (lr_nodup _ _ H) as Hnd. apply NoDup_app in Hnd as (_ & Hd & Hn).
      apply NoDup_cons in Hn as [Hn2 _].
      assert (a ∉ l1) as Hn1 by (intros Hin; apply (Hd a Hin); left).
      assert (filter (fun b => b <> a) (l1 ++ a :: l2) = l1 ++ l2) as ->.
      { rewrite filter_app, filter_cons_False by auto.
        rewrite !filter_all; [done| |]; apply Forall_forall; intros b Hb ->; done. }
      assert (nonnull (lru_previous L a) || nonnull (lru_next L a) || (lru_tail_ L =? a) = true) as ->.
      { pose proof (rep_links _ _ _ _ H) as Hla. unfold lru_previous, lru_next, links_of. rewrite Hla. cbn.
        destruct l1 as [|x l1 _] using rev_ind.
        - exfalso. apply E. by rewrite (lr_head _ _ H).
        - rewrite last_or_snoc, nonnull_true; [done|]. intros ->. apply (lr_nonnull _ _ H).
          rewrite !elem_of_app. left. right. left. }
      apply push_front_rep; [by apply unlink_lru_rep|by apply not_elem_of_app|done].
    + assert (filter (fun b => b <> a) l = l) as ->.
      { apply filter_all, Forall_forall. intros b Hb ->. done. }
      assert (nonnull (lru_previous L a) || nonnull (lru_next L a) || (lru_tail_ L =? a) = false) as ->.
      { unfold lru_previous, lru_next. rewrite (lr_outside _ _ H a Hin). cbn.
        apply Z.eqb_neq. rewrite (lr_tail _ _ H). intros <-. apply Hin.
        destruct l as [|x l _] using rev_ind; [done|]. rewrite last_or_snoc. apply elem_of_app. right. left. }
      by apply push_front_rep.
Qed.

(** ** Nodes that come, go and move *)

Lemma forget_rep L l a : lru_rep L l -> (a ∉ l) -> lru_rep (forget a L) l.
Proof.
  intros [Hnd H0 Hh Ht Hseg Hout] Ha. constructor; try done; [by apply dseg_delete|].
  intros b Hb. unfold links_of, forget. cbn [links].
  destruct (decide (b = a)) as [->|Hne]; [by rewrite lookup_delete_eq|].
  rewrite lookup_delete_ne by done. by apply Hout.
Qed.

Lemma detached_rep L l a : lru_rep L l -> (a ∉ l) -> lru_rep (detached a L) l.
Proof.
  intros [Hnd H0 Hh Ht Hseg Hout] Ha. constructor; try done; [by apply dseg_frame|].
  intros b Hb. unfold links_of, detached. cbn [links].
  destruct (decide (b = a)) as [->|Hne]; [by rewrite lookup_insert_eq|].
  rewrite lookup_insert_ne by done. by apply Hout.
Qed.

Lemma splice_rep L l1 a l2 fresh :
  lru_rep L (l1 ++ a :: l2) -> (fresh ∉ l1 ++ a :: l2) -> fresh <> 0 ->
  lru_rep (forget a (splice a fresh L)) (l1 ++ fresh :: l2).
Proof.
  intros H Hfresh Hf0. pose proof (rep_links _ _ _ _ H) as Hla. destruct H as [Hnd H0 Hh Ht Hseg Hout].
  assert (links_of L a = (last_or 0 l1, hd 0 l2)) as Ea by (unfold links_of; by rewrite Hla).
  apply dseg_app in Hseg as [Hseg1 [_ Hseg2]]. cbn [hd] in Hseg1.
  rewrite hd_app in Hh. rewrite last_or_app, last_or_cons in Ht. cbn [hd] in Hh.
  pose proof Hnd as Hnd'. rewrite cons_middle, app_assoc in Hnd'.
  apply NoDup_app in Hnd' as (Hnd1 & Hdis & Hnd2). apply not_elem_of_app in H0 as [H01 H02].
  apply not_elem_of_cons in H02 as [Ha0 H02].
  apply not_elem_of_app in Hfresh as [Hf1 Hf2]. apply not_elem_of_cons in Hf2 as [Hfa Hf2].
  assert ((a ∉ l1) /\ (a ∉ l2)) as [Ha1 Ha2].
  { apply NoDup_app in Hnd as (_ & Hd & Hn). apply NoDup_cons in Hn as [Hn _].
    split; [|done]. intros Hin. apply (Hd a Hin). left. }
  assert (forall b, b ∈ l2 -> (b ∉ l1)) as Hdis'.
  { intros b Hb Hb'. apply (Hdis b); [by apply elem_of_app; left|done]. }
  unfold splice. rewrite Ea. set (L0 := mkLru _ _ _).
  assert (links_of L0 fresh = (last_or 0 l1, hd 0 l2)) as Ef.
  { unfold links_of, L0. cbn [links]. by rewrite lookup_insert_eq. }
  assert (links_of L0 a = (last_or 0 l1, hd 0 l2)) as Ea0.
  { unfold links_of, L0. cbn [links]. by rewrite lookup_insert_ne, Hla. }
  assert (lru_previous L0 fresh = last_or 0 l1) as Ep by (unfold lru_previous; by rewrite Ef).
  rewrite Ep. clear Ep.
  destruct (unlink_before L0 l1 a fresh) as (S1 & E1 & E2 & F1); try done.
  { by apply dseg_frame. }
  set (L1 := if nonnull (last_or 0 l1) then _ else _) in *. cbv zeta.
  assert (lru_next L1 fresh = hd 0 l2) as En.
  { unfold lru_next, links_of. rewrite F1 by done. unfold L0. cbn [links]. by rewrite lookup_insert_eq. }
  rewrite En. clear En.
  assert (dseg (links L1) a l2 0) as Hseg2'.
  { eapply dseg_ext; [|exact Hseg2]. intros b Hb. rewrite F1 by by apply Hdis'.
    unfold L0. cbn [links]. rewrite lookup_insert_ne; [done|]. by intros ->. }
  destruct (unlink_after L1 l2 a fresh Hnd2 H02 Hseg2' (eq_trans E2 Ht)) as (S2 & E3 & E4 & F2).
  set (L2 := if nonnull (hd 0 l2) then _ else _) in *.
  assert (forall b, (b ∉ l1) -> (b ∉ l2) -> b <> fresh -> links L2 !! b = links L !! b) as Hsame.
  { intros b Hb1 Hb2 Hb. rewrite F2, F1 by done. unfold L0. cbn [links]. by rewrite lookup_insert_ne. }
  constructor.
  - apply NoDup_app. split_and!; [by apply NoDup_app in Hnd1 as (? & _)| |by apply NoDup_cons].
    intros b Hb Hb'. apply elem_of_cons in Hb' as [->|Hb']; [done|by apply (Hdis' b)].
  - apply not_elem_of_app. split; [done|]. by apply not_elem_of_cons.
  - change (lru_head_ L2 = hd 0 (l1 ++ fresh :: l2)). rewrite E3, E1, hd_app. done.
  - change (lru_tail_ L2 = last_or 0 (l1 ++ fresh :: l2)). rewrite E4, last_or_app, last_or_cons. done.
  - apply dseg_delete.
    { apply not_elem_of_app. split; [done|]. apply not_elem_of_cons. done. }
    apply dseg_app. cbn [hd]. split; [|split; [|done]].
    + eapply dseg_ext; [|exact S1]. intros b Hb. apply F2. intros Hb'. by apply (Hdis' b).
    + rewrite F2, F1 by done. unfold L0. cbn [links]. by rewrite lookup_insert_eq.
  - intros b Hb. rewrite not_elem_of_app, not_elem_of_cons in Hb. destruct Hb as (Hb1 & Hbf & Hb2).
    unfold links_of, forget. cbn [links]. destruct (decide (b = a)) as [->|Hne]; [by rewrite lookup_delete_eq|].
    rewrite lookup_delete_ne, Hsame by done. apply Hout. rewrite not_elem_of_app, not_elem_of_cons. done.
Qed.

(** ** Properties *)

(** The operations of the database on the list, with the list operation each
    of them should be. *)
Inductive lru_op :=
| lru_new (a : Z)          (** a node is created and touched *)
| lru_touch (a : Z)        (** a key is used *)
| lru_erase (a : Z)        (** a key goes away *)
| lru_move (a b : Z).      (** its node moves from [a] to [b] *)

Definition lru_run (o : lru_op) (L : Lru) : Lru :=
  match o with
  | lru_new a => touch a (detached a L)
  | lru_touch a => touch a L
  | lru_erase a => forget a (unlink_lru a L)
  | lru_move a b => forget a (splice a b L)
  end.

Definition lru_spec (o : lru_op) (l : list Z) : list Z :=
  match o with
  | lru_new a => a :: l
  | lru_touch a => a :: filter (fun b => b <> a) l
  | lru_erase a => filter (fun b => b <> a) l
  | lru_move a b => map (fun x => if x =? a then b else x) l
  end.

Definition lru_pre (o : lru_op) (l : list Z) : Prop :=
  match o with
  | lru_new a => a <> 0 /\ (a ∉ l)
  | lru_touch a => a ∈ l
  | lru_erase a => a ∈ l
  | lru_move a b => a ∈ l /\ b <> 0 /\ (b ∉ l)
  end.

(** A list around one of its elements. *)
Lemma NoDup_around (l1 l2 : list Z) a :
  NoDup (l1 ++ a :: l2) ->
  filter (fun b => b <> a) (l1 ++ a :: l2) = l1 ++ l2 /\
  forall b, map (fun x => if x =? a then b else x) (l1 ++ a :: l2) = l1 ++ b :: l2.
Proof.
  intros Hnd. apply NoDup_app in Hnd as (_ & Hd & Hn). apply NoDup_cons in Hn as [Hn2 _].
  assert (a ∉ l1) as Hn1 by (intros Hin; apply (Hd a Hin); left).
  split.
  - rewrite filter_app, filter_cons_False by auto.
    rewrite !filter_all; [done| |]; apply Forall_forall; intros b Hb ->; done.
  - assert (forall l b, (a ∉ l) -> map (fun x => if x =? a then b else x) l = l) as Hmap.
    { induction l as [|x l IH]; intros b Hx; [done|]. apply not_elem_of_cons in Hx as [Hx Hl]. simpl.
      rewrite IH by done. destruct (Z.eqb_spec x a); congruence. }
    intros b. rewrite map_app. simpl. by rewrite Z.eqb_refl, !Hmap.
Qed.

Lemma lru_run_rep o L l : lru_rep L l -> lru_pre o l -> lru_rep (lru_run o L) (lru_spec o l).
Proof.
  intros H Hpre. pose proof (lr_nodup _ _ H) as Hnd. destruct o as [a|a|a|a b]; simpl in *.
  - destruct Hpre as [Ha Hin]. assert (a :: l = a :: filter (fun b => b <> a) l) as ->.
    { f_equal. symmetry. apply filter_all, Forall_forall. intros b Hb ->. done. }
    apply touch_rep; [by apply detached_rep|done].
  - apply touch_rep; [done|]. intros ->. by apply (lr_nonnull _ _ H).
  - apply list_elem_of_split in Hpre as (l1 & l2 & ->). destruct (NoDup_around _ _ _ Hnd) as [-> _].
    apply forget_rep; [by apply unlink_lru_rep|].
    apply NoDup_app in Hnd as (_ & Hd & Hn). apply NoDup_cons in Hn as [Hn2 _].
    apply not_elem_of_app. split; [|done]. intros Hin. apply (Hd a Hin). left.
  - destruct Hpre as (Ha & Hb & Hin). apply list_elem_of_split in Ha as (l1 & l2 & ->).
    destruct (NoDup_around _ _ _ Hnd) as [_ ->]. by apply splice_rep.
Qed.

(** A sequence of operations each of which is applicable. *)
Fixpoint lru_applicable (os : list lru_op) (l : list Z) : Prop :=
  match os with
  | [] => True
  | o :: os => lru_pre o l /\ lru_applicable os (lru_spec o l)
  end.

(** C29: the pointer manipulation implements the recency list.  Whatever
    sequence of creations, uses, erasures and moves is applied to an empty
    list, the links represent exactly the list those operations should give:
    its order, its two ends, both directions, and null links outside it. *)
Theorem lru_refines_list os :
  lru_applicable os [] ->
  lru_rep (fold_left (fun L o => lru_run o L) os (mkLru 0 0 ∅))
          (fold_left (fun l o => lru_spec o l) os []).
Proof.
  assert (lru_rep (mkLru 0 0 ∅) []) as H by (constructor; try done; [constructor|apply not_elem_of_nil]).
  revert H. generalize (mkLru 0 0 ∅). generalize (@nil Z). induction os as [|o os IH]; intros l L H; [done|].
  simpl. intros [Hpre Happ]. apply IH; [|done]. by apply lru_run_rep.
Qed.

Lemma lru_refines_list_witness :
  lru_rep (fold_left (fun L o => lru_run o L)
             [lru_new 8; lru_new 16; lru_new 24; lru_touch 8; lru_move 16 32; lru_erase 24] (mkLru 0 0 ∅))
          [8; 32].
Proof.
  apply (lru_refines_list [lru_new 8; lru_new 16; lru_new 24; lru_touch 8; lru_move 16 32; lru_erase 24]).
  cbn [lru_applicable lru_pre]. split_and!; try exact I; apply (bool_decide_unpack _); vm_compute; exact I.
Defined.
