(* ===== verification/Expiry.v ===== *)
(** * Expiry: deadlines and their heap

    The deadlines of [src/database.cpp]: the map [expiries_] from a node to
    its deadline and its position, and the binary heap [expiry_heap_] of
    nodes ordered by deadline, with [heap_fix], and the parts of
    [clear_expiry], [schedule_expiry], [grow_node] and [commit_node] that
    work on them.  The abstract state is the map from nodes to deadlines; the
    heap keeps a node with the least deadline in front. *)

From S2P Require Import Prelude.
From Stdlib Require Import ZifyNat.

Record Expiries := mkExpiries {
  expiries_ : gmap Z (Z * nat);     (** deadline and index of a node *)
  expiry_heap_ : list Z;
  heap_capacity_ : nat              (** [expiry_heap_.capacity()] *)
}.

Definition set_heap (h : list Z) (X : Expiries) : Expiries :=
  mkExpiries (expiries_ X) h (heap_capacity_ X).
Definition set_map (m : gmap Z (Z * nat)) (X : Expiries) : Expiries :=
  mkExpiries m (expiry_heap_ X) (heap_capacity_ X).

(** [expiry_heap_[i]], and the deadline found for it. *)
Definition heap_at (X : Expiries) (i : nat) : Z := nth i (expiry_heap_ X) 0.
Definition deadline_at (X : Expiries) (i : nat) : Z :=
  (default (0, O) (expiries_ X !! heap_at X i)).1.

Definition less (X : Expiries) (a b : nat) : bool := deadline_at X a <? deadline_at X b.

Definition set_index (node : Z) (i : nat) (X : Expiries) : Expiries :=
  set_map (alter (fun e => (e.1, i)) node (expiries_ X)) X.

Definition heap_swap (a b : nat) (X : Expiries) : Expiries :=
  let x := heap_at X a in
  let y := heap_at X b in
  let X := set_heap (<[b := x]> (<[a := y]> (expiry_heap_ X))) X in
  let X := set_index (heap_at X a) a X in
  set_index (heap_at X b) b X.

Definition parent (i : nat) : nat := ((i - 1) / 2)%nat.

(** The two loops of [heap_fix]; the index falls in the first and rises in
    the second, so the size of the heap bounds both. *)
Fixpoint sift_up (fuel index : nat) (X : Expiries) : nat * Expiries :=
  match fuel with
  | O => (index, X)
  | S fuel =>
      if negb (index =? 0)%nat && less X index (parent index) then
        sift_up fuel (parent index) (heap_swap index (parent index) X)
      else (index, X)
  end.

Fixpoint sift_down (fuel index : nat) (X : Expiries) : Expiries :=
  match fuel with
  | O => X
  | S fuel =>
      let size := length (expiry_heap_ X) in
      if (index * 2 + 1 <? size)%nat then
        let child := (index * 2 + 1)%nat in
        let child := if (child + 1 <? size)%nat && less X (child + 1) child then (child + 1)%nat else child in
        if negb (less X child index) then X else
        sift_down fuel child (heap_swap child index X)
      else X
  end.

Definition heap_fix (index : nat) (X : Expiries) : Expiries :=
  let '(index, X) := sift_up (length (expiry_heap_ X)) index X in
  sift_down (length (expiry_heap_ X)) index X.

(** [clear_expiry] on the map and the heap; [false] when the node had no
    deadline. *)
Definition clear_expiry (node : Z) (X : Expiries) : bool * Expiries :=
  match expiries_ X !! node with
  | None => (false, X)
  | Some (_, index) =>
      let last := nth (length (expiry_heap_ X) - 1) (expiry_heap_ X) 0 in
      let X := set_heap (take (length (expiry_heap_ X) - 1) (expiry_heap_ X)) X in
      let X := set_map (delete node (expiries_ X)) X in
      (true,
       if (index <? length (expiry_heap_ X))%nat then
         let X := set_heap (<[index := last]> (expiry_heap_ X)) X in
         heap_fix index (set_index last index X)
       else X)
  end.

(** Whether scheduling [node] has to grow the heap's storage. *)
Definition must_reserve (node : Z) (X : Expiries) : bool :=
  match expiries_ X !! node with
  | None => (length (expiry_heap_ X) =? heap_capacity_ X)%nat
  | Some _ => false
  end.

Definition reserve_heap (X : Expiries) : Expiries :=
  mkExpiries (expiries_ X) (expiry_heap_ X) (Nat.max 16 (length (expiry_heap_ X) * 2)).

(** [schedule_expiry] once its memory is there. *)
Definition schedule_expiry (node deadline : Z) (X : Expiries) : Expiries :=
  match expiries_ X !! node with
  | None =>
      let index := length (expiry_heap_ X) in
      let X := set_map (<[node := (deadline, index)]> (expiries_ X)) X in
      let X := set_heap (expiry_heap_ X ++ [node]) X in
      heap_fix index X
  | Some (_, index) =>
      heap_fix index (set_map (<[node := (deadline, index)]> (expiries_ X)) X)
  end.

(** [grow_node], [commit_node]: the entry of [node] becomes that of [fresh]. *)
Definition move_expiry (node fresh : Z) (X : Expiries) : Expiries :=
  match expiries_ X !! node with
  | None => X
  | Some (deadline, index) =>
      let X := set_heap (<[index := fresh]> (expiry_heap_ X)) X in
      set_map (<[fresh := (deadline, index)]> (delete node (expiries_ X))) X
  end.

(** ** Heap order, on the deadlines by position *)

#[local] Ltac Zify.zify_post_hook ::= Z.to_euclidean_division_equations.

Definition heap_ordered (n : nat) (D : nat -> Z) : Prop :=
  forall j, (0 < j < n)%nat -> D (parent j) <= D j.

(** [i] is no smaller than it should be for its grandchildren's sake. *)
Definition bridges (n : nat) (D : nat -> Z) (i : nat) : Prop :=
  forall c, (0 < i)%nat -> (0 < c < n)%nat -> parent c = i -> D (parent i) <= D c.

(** In order but for the pairs [i] is in; but for those below it. *)
Definition ordered_around (n : nat) (D : nat -> Z) (i : nat) : Prop :=
  (forall j, (0 < j < n)%nat -> j <> i -> parent j <> i -> D (parent j) <= D j) /\ bridges n D i.
Definition ordered_above (n : nat) (D : nat -> Z) (i : nat) : Prop :=
  (forall j, (0 < j < n)%nat -> parent j <> i -> D (parent j) <= D j) /\ bridges n D i.

Definition swapped (D D' : nat -> Z) (a b : nat) : Prop :=
  D' a = D b /\ D' b = D a /\ forall j, j <> a -> j <> b -> D' j = D j.

Lemma parent_lt i : (0 < i)%nat -> (parent i < i)%nat.
Proof. unfold parent. lia. Qed.

Lemma children_of i c : (0 < c)%nat -> parent c = i -> (c = i * 2 + 1 \/ c = i * 2 + 2)%nat.
Proof. unfold parent. lia. Qed.

Lemma parent_children i : parent (i * 2 + 1) = i /\ parent (i * 2 + 2) = i.
Proof. unfold parent. lia. Qed.

Lemma up_step n D D' i :
  ordered_around n D i -> (0 < i < n)%nat -> D i < D (parent i) -> swapped D D' i (parent i) ->
  ordered_around n D' (parent i).
Proof.
  intros [Ho Hb] Hi Hlt (E1 & E2 & E3). pose proof (parent_lt i ltac:(lia)) as Hp. split.
  - intros j Hj Hne Hpj. destruct (decide (parent j = i)) as [Hc|Hc].
    + rewrite Hc, E1, E3; [by apply Hb; lia| |done]. intros ->. pose proof (parent_lt i). lia.
    + rewrite (E3 j) by (done || intros ->; done). rewrite E3 by done. apply Ho; [done| |done].
      intros ->. done.
  - intros c Hp0 Hc Epc. pose proof (parent_lt (parent i) ltac:(lia)).
    rewrite (E3 (parent (parent i))) by lia.
    assert (D (parent (parent i)) <= D (parent i)) as Hpp by (apply Ho; [lia|lia|lia]).
    destruct (decide (c = i)) as [->|Hne]; [by rewrite E1|].
    pose proof (parent_lt c ltac:(lia)). rewrite E3 by lia.
    assert (D (parent c) <= D c) by (apply Ho; [lia|done|lia]). rewrite Epc in *. lia.
Qed.

Lemma up_done n D i :
  ordered_around n D i -> (i = 0%nat \/ D (parent i) <= D i) -> ordered_above n D i.
Proof.
  intros [Ho Hb] Hi. split; [|done]. intros j Hj Hp. destruct (decide (j = i)) as [->|Hne].
  - destruct Hi; [lia|done].
  - by apply Ho.
Qed.

Lemma down_step n D D' i c :
  ordered_above n D i -> (0 < c < n)%nat -> parent c = i -> D c < D i ->
  (forall k, (0 < k < n)%nat -> parent k = i -> D c <= D k) -> swapped D D' c i ->
  ordered_above n D' c.
Proof.
  intros [Ho Hb] Hc Hpc Hlt Hmin (E1 & E2 & E3). pose proof (parent_lt c ltac:(lia)) as Hic. split.
  - intros j Hj Hp. destruct (decide (parent j = i)) as [Hji|Hji].
    + rewrite Hji, E2. destruct (decide (j = c)) as [->|Hne]; [rewrite E1; lia|].
      pose proof (parent_lt j ltac:(lia)). rewrite E3 by lia. by apply Hmin.
    + rewrite (E3 (parent j)) by (done || lia). destruct (decide (j = i)) as [->|Hne].
      * rewrite E2. apply Hb; lia.
      * rewrite E3 by (done || intros ->; done). by apply Ho.
  - intros k _ Hk Hpk. pose proof (parent_lt k ltac:(lia)). rewrite Hpc, E2, E3 by lia.
    rewrite <- Hpk. apply Ho; [done|lia].
Qed.

Lemma down_done n D i :
  ordered_above n D i -> (forall k, (0 < k < n)%nat -> parent k = i -> D i <= D k) -> heap_ordered n D.
Proof.
  intros [Ho _] Hd j Hj. destruct (decide (parent j = i)) as [E|E]; [rewrite E; by apply Hd|by apply Ho].
Qed.

(** ** Positions *)

(** The map and the heap point at each other. *)
Record exp_wf (X : Expiries) : Prop := {
  ew_heap : forall i a, expiry_heap_ X !! i = Some a -> exists d, expiries_ X !! a = Some (d, i);
  ew_map : forall a d i, expiries_ X !! a = Some (d, i) -> expiry_heap_ X !! i = Some a;
  ew_null : expiries_ X !! 0 = None
}.

(** The deadlines, which is all the rest of the database sees. *)
Definition deadlines (X : Expiries) : gmap Z Z := fst <$> expiries_ X.

Lemma heap_at_lookup X i a : expiry_heap_ X !! i = Some a -> heap_at X i = a.
Proof. intros H. unfold heap_at. by rewrite nth_lookup, H. Qed.

Lemma heap_at_lt X i : (i < length (expiry_heap_ X))%nat -> expiry_heap_ X !! i = Some (heap_at X i).
Proof.
  intros H. destruct (lookup_lt_is_Some_2 _ _ H) as [a Ha]. by rewrite (heap_at_lookup _ _ _ Ha).
Qed.

Lemma deadline_at_lookup X i a d :
  exp_wf X -> expiry_heap_ X !! i = Some a -> deadlines X !! a = Some d -> deadline_at X i = d.
Proof.
  intros H Hi Hd. unfold deadline_at, deadlines in *. rewrite (heap_at_lookup _ _ _ Hi).
  rewrite lookup_fmap in Hd. destruct (expiries_ X !! a) as [[]|]; [|done]. by injection Hd.
Qed.

(** Same nodes at the same deadlines, in a heap of the same size. *)
Definition rearranged (X X' : Expiries) : Prop :=
  deadlines X' = deadlines X /\ length (expiry_heap_ X') = length (expiry_heap_ X) /\
  heap_capacity_ X' = heap_capacity_ X.

Lemma swap_spec X a b :
  exp_wf X -> (a < length (expiry_heap_ X))%nat -> (b < length (expiry_heap_ X))%nat -> a <> b ->
  exp_wf (heap_swap a b X) /\ rearranged X (heap_swap a b X) /\
  swapped (deadline_at X) (deadline_at (heap_swap a b X)) a b.
Proof.
  intros H Ha Hb Hne. pose proof (heap_at_lt X a Ha) as Hla. pose proof (heap_at_lt X b Hb) as Hlb.
  set (x := heap_at X a) in *. set (y := heap_at X b) in *.
  destruct (ew_heap _ H _ _ Hla) as [dx Hx]. destruct (ew_heap _ H _ _ Hlb) as [dy Hy].
  assert (x <> y) as Hxy by (intros E; rewrite E in Hx; congruence).
  assert (x <> 0 /\ y <> 0) as [Hx0 Hy0].
  { pose proof (ew_null _ H). split; intros E; rewrite E in *; congruence. }
  set (h := <[b := x]> (<[a := y]> (expiry_heap_ X))).
  assert (h !! a = Some y) as Hha.
  { unfold h. rewrite list_lookup_insert_ne, list_lookup_insert_eq by done. done. }
  assert (h !! b = Some x) as Hhb.
  { unfold h. rewrite list_lookup_insert_eq; [done|]. by rewrite length_insert. }
  assert (forall j, j <> a -> j <> b -> h !! j = expiry_heap_ X !! j) as Hho.
  { intros j Hja Hjb. unfold h. by rewrite !list_lookup_insert_ne. }
  set (m := alter (fun e : Z * nat => (e.1, b)) x (alter (fun e : Z * nat => (e.1, a)) y (expiries_ X))).
  assert (heap_swap a b X = mkExpiries m h (heap_capacity_ X)) as E.
  { unfold heap_swap. fold x y h. cbv zeta. rewrite (heap_at_lookup (set_heap h X) a y Hha).
    rewrite (heap_at_lookup (set_index y a (set_heap h X)) b x Hhb). done. }
  assert (m !! x = Some (dx, b)) as Hmx.
  { unfold m. rewrite lookup_alter_eq, lookup_alter_ne, Hx by done. done. }
  assert (m !! y = Some (dy, a)) as Hmy.
  { unfold m. rewrite lookup_alter_ne, lookup_alter_eq, Hy by done. done. }
  assert (forall z, z <> x -> z <> y -> m !! z = expiries_ X !! z) as Hmo.
  { intros z Hzx Hzy. unfold m. by rewrite !lookup_alter_ne. }
  clearbody x y. rewrite E. unfold rearranged, swapped. split_and!.
  - constructor; cbn [expiries_ expiry_heap_].
    + intros i z Hi. destruct (decide (i = a)) as [->|Hia]; [|destruct (decide (i = b)) as [->|Hib]].
      * rewrite Hha in Hi. injection Hi as <-. by exists dy.
      * rewrite Hhb in Hi. injection Hi as <-. by exists dx.
      * rewrite Hho in Hi by done. destruct (ew_heap _ H _ _ Hi) as [d Hd]. exists d.
        rewrite Hmo; [done|intros ->; congruence..].
    + intros z d i Hz. destruct (decide (z = x)) as [->|Hzx]; [|destruct (decide (z = y)) as [->|Hzy]].
      * rewrite Hmx in Hz. by injection Hz as <- <-.
      * rewrite Hmy in Hz. by injection Hz as <- <-.
      * rewrite Hmo in Hz by done. pose proof (ew_map _ H _ _ _ Hz) as Hi.
        rewrite Hho; [done|intros ->; congruence..].
    + rewrite Hmo; [apply H|congruence..].
  - apply map_eq. intros z. unfold deadlines. cbn [expiries_]. rewrite !lookup_fmap.
    destruct (decide (z = x)) as [->|Hzx]; [by rewrite Hmx, Hx|].
    destruct (decide (z = y)) as [->|Hzy]; [by rewrite Hmy, Hy|]. by rewrite Hmo.
  - cbn [expiry_heap_]. unfold h. by rewrite !length_insert.
  - done.
  - unfold deadline_at, heap_at. cbn [expiry_heap_ expiries_]. rewrite !nth_lookup, Hha, Hlb. cbn [from_option id].
    by rewrite Hmy, Hy.
  - unfold deadline_at, heap_at. cbn [expiry_heap_ expiries_]. rewrite !nth_lookup, Hhb, Hla. cbn [from_option id].
    by rewrite Hmx, Hx.
  - intros j Hja Hjb. unfold deadline_at, heap_at. cbn [expiry_heap_ expiries_]. rewrite !nth_lookup, Hho by done.
    destruct (expiry_heap_ X !! j) as [z|] eqn:Hj; cbn [from_option id].
    + rewrite Hmo; [done|intros ->..]; destruct (ew_heap _ H _ _ Hj); congruence.
    + rewrite Hmo; [done|congruence..].
Qed.

(** ** The loops *)

Lemma rearranged_refl X : rearranged X X.
Proof. done. Qed.

Lemma rearranged_trans X Y Z : rearranged X Y -> rearranged Y Z -> rearranged X Z.
Proof. intros (? & ? & ?) (? & ? & ?). unfold rearranged. split_and!; congruence. Qed.

Lemma sift_up_spec fuel i X :
  exp_wf X -> (i < length (expiry_heap_ X))%nat -> (i < fuel)%nat ->
  ordered_around (length (expiry_heap_ X)) (deadline_at X) i ->
  let '(i', X') := sift_up fuel i X in
  exp_wf X' /\ rearranged X X' /\ (i' < length (expiry_heap_ X'))%nat /\
  ordered_above (length (expiry_heap_ X')) (deadline_at X') i'.
Proof.
  revert i X. induction fuel as [|fuel IH]; intros i X Hw Hi Hf Ho; [lia|]. cbn [sift_up].
  destruct (Nat.eqb_spec i 0) as [Hz|Hz]; simpl.
  { split_and!; try done. apply up_done; [done|by left]. }
  unfold less. destruct (Z.ltb_spec (deadline_at X i) (deadline_at X (parent i))) as [Hlt|Hge].
  2:{ split_and!; try done. apply up_done; [done|by right]. }
  pose proof (parent_lt i ltac:(lia)) as Hp.
  destruct (swap_spec X i (parent i)) as (Hw' & Hr & Hs); [done|lia|lia|lia|].
  assert (length (expiry_heap_ (heap_swap i (parent i) X)) = length (expiry_heap_ X)) as El by apply Hr.
  specialize (IH (parent i) (heap_swap i (parent i) X) Hw').
  destruct (sift_up fuel (parent i) _) as [i' X']. rewrite El in IH.
  destruct IH as (? & Hr' & ? & ?); [lia|lia|by eapply up_step; [done|lia|..]|].
  split_and!; try done. by eapply rearranged_trans.
Qed.

Lemma sift_down_spec fuel i X :
  exp_wf X -> (i < length (expiry_heap_ X))%nat -> (length (expiry_heap_ X) <= fuel + i)%nat ->
  ordered_above (length (expiry_heap_ X)) (deadline_at X) i ->
  exp_wf (sift_down fuel i X) /\ rearranged X (sift_down fuel i X) /\
  heap_ordered (length (expiry_heap_ X)) (deadline_at (sift_down fuel i X)).
Proof.
  revert i X. induction fuel as [|fuel IH]; intros i X Hw Hi Hf Ho; [lia|]. cbn [sift_down].
  set (n := length (expiry_heap_ X)) in *. set (D := deadline_at X) in *.
  destruct (Nat.ltb_spec (i * 2 + 1) n) as [Hc|Hc].
  2:{ split_and!; try done. eapply down_done; [done|]. intros k Hk Hpk.
      destruct (children_of i k ltac:(lia) Hpk); lia. }
  set (c := if (i * 2 + 1 + 1 <? n)%nat && less X (i * 2 + 1 + 1) (i * 2 + 1) then _ else _).
  assert ((0 < c < n)%nat /\ parent c = i /\ (i < c)%nat /\
          forall k, (0 < k < n)%nat -> parent k = i -> D c <= D k) as (Hcn & Hpc & Hic & Hmin).
  { destruct (parent_children i) as [P1 P2]. replace (i * 2 + 2)%nat with (i * 2 + 1 + 1)%nat in P2 by lia.
    unfold c, less. fold D. destruct (Nat.ltb_spec (i * 2 + 1 + 1) n) as [H2|H2]; simpl andb; cbn iota.
    - destruct (Z.ltb_spec (D (i * 2 + 1 + 1)%nat) (D (i * 2 + 1)%nat)).
      + split_and!; [lia|lia|done|lia|]. intros k Hk Hpk.
        destruct (children_of i k ltac:(lia) Hpk) as [->| ->]; [lia|].
        replace (i * 2 + 2)%nat with (i * 2 + 1 + 1)%nat by lia. lia.
      + split_and!; [lia|lia|done|lia|]. intros k Hk Hpk.
        destruct (children_of i k ltac:(lia) Hpk) as [->| ->]; [lia|].
        replace (i * 2 + 2)%nat with (i * 2 + 1 + 1)%nat by lia. lia.
    - split_and!; [lia|lia|done|lia|]. intros k Hk Hpk. destruct (children_of i k ltac:(lia) Hpk) as [->| ->]; [apply Z.le_refl|lia]. }
  clearbody c. unfold less. fold D. destruct (Z.ltb_spec (D c) (D i)) as [Hlt|Hge]; simpl.
  2:{ split_and!; try done. eapply down_done; [done|]. intros k Hk Hpk. specialize (Hmin k Hk Hpk).
      change (D i <= D k). lia. }
  destruct (swap_spec X c i) as (Hw' & Hr & Hs); [done|fold n; lia|fold n; lia|lia|].
  assert (length (expiry_heap_ (heap_swap c i X)) = n) as El by apply Hr.
  destruct (IH c (heap_swap c i X) Hw') as (? & Hr' & Hh); rewrite ?El; [lia|lia|by eapply down_step; [..|exact Hs]|].
  split_and!; [done|by eapply rearranged_trans|]. by rewrite El in Hh.
Qed.

(** A heap in order, whose positions are right. *)
Definition exp_ok (X : Expiries) : Prop :=
  exp_wf X /\ heap_ordered (length (expiry_heap_ X)) (deadline_at X).

Lemma heap_fix_spec i X :
  exp_wf X -> (i < length (expiry_heap_ X))%nat ->
  ordered_around (length (expiry_heap_ X)) (deadline_at X) i ->
  exp_ok (heap_fix i X) /\ rearranged X (heap_fix i X).
Proof.
  intros Hw Hi Ho. unfold heap_fix.
  pose proof (sift_up_spec (length (expiry_heap_ X)) i X Hw Hi Hi Ho) as Hup.
  destruct (sift_up _ i X) as [i' X']. destruct Hup as (Hw' & Hr & Hi' & Ho').
  destruct (sift_down_spec (length (expiry_heap_ X')) i' X' Hw' Hi' ltac:(lia) Ho') as (? & Hr' & Hh).
  split; [|by eapply rearranged_trans]. split; [done|].
  by assert (length (expiry_heap_ (sift_down (length (expiry_heap_ X')) i' X')) = length (expiry_heap_ X')) as -> by apply Hr'.
Qed.

(** Changing one deadline disturbs the order around its position only. *)
Lemma ordered_around_change n D D' i :
  heap_ordered n D -> (forall j, (j < n)%nat -> j <> i -> D' j = D j) -> ordered_around n D' i.
Proof.
  intros Ho E. split.
  - intros j Hj Hne Hp. pose proof (parent_lt j ltac:(lia)). rewrite !E by (done || lia). by apply Ho.
  - intros c Hi Hc Hpc. pose proof (parent_lt c ltac:(lia)). pose proof (parent_lt i ltac:(lia)).
    rewrite !E by lia. pose proof (Ho c ltac:(lia)). pose proof (Ho i ltac:(lia)). rewrite Hpc in *. lia.
Qed.

(** ** The operations *)

Lemma deadlines_lookup X a : deadlines X !! a = fst <$> expiries_ X !! a.
Proof. apply lookup_fmap. Qed.

Lemma deadline_at_eq X i a d k :
  expiry_heap_ X !! i = Some a -> expiries_ X !! a = Some (d, k) -> deadline_at X i = d.
Proof. intros Hi Ha. unfold deadline_at. by rewrite (heap_at_lookup _ _ _ Hi), Ha. Qed.

Lemma schedule_spec node d X :
  exp_ok X -> node <> 0 ->
  exp_ok (schedule_expiry node d X) /\
  deadlines (schedule_expiry node d X) = <[node := d]> (deadlines X).
Proof.
  intros [Hw Ho] Hn. unfold schedule_expiry.
  destruct (expiries_ X !! node) as [[d0 i]|] eqn:E.
  - set (X1 := set_map _ X). pose proof (ew_map _ Hw _ _ _ E) as Hi.
    assert (deadlines X1 = <[node := d]> (deadlines X)) as Ed.
    { unfold X1, deadlines, set_map. cbn [expiries_]. by rewrite fmap_insert. }
    assert (exp_wf X1) as Hw1.
    { destruct Hw as [W1 W2 W3]. constructor; unfold X1, set_map; cbn [expiries_ expiry_heap_].
      - intros j a Hj. destruct (decide (a = node)) as [->|Hne].
        + exists d. rewrite lookup_insert_eq. destruct (W1 _ _ Hj). congruence.
        + rewrite lookup_insert_ne by done. by apply W1.
      - intros a d' j Ha. apply lookup_insert_Some in Ha as [[<- [= <- <-]]|[_ Ha]]; [done|by eapply W2].
      - by rewrite lookup_insert_ne. }
    destruct (heap_fix_spec i X1 Hw1) as [Hok (-> & _)]; [by eapply lookup_lt_Some| |by rewrite Ed].
    eapply ordered_around_change; [exact Ho|]. intros j Hj Hne.
    pose proof (heap_at_lt X j Hj) as Hl. destruct (ew_heap _ Hw _ _ Hl) as [dj Hdj].
    assert (heap_at X j <> node) as Hnn by (intros Hx; rewrite Hx in Hdj; congruence).
    rewrite (deadline_at_eq X j _ dj j Hl Hdj). eapply (deadline_at_eq X1 j _ dj j Hl).
    unfold X1, set_map. cbn [expiries_]. by rewrite lookup_insert_ne.
  - set (n := length (expiry_heap_ X)). set (X1 := set_heap _ _).
    assert (deadlines X1 = <[node := d]> (deadlines X)) as Ed.
    { unfold X1, deadlines, set_map, set_heap. cbn [expiries_]. by rewrite fmap_insert. }
    assert (expiry_heap_ X1 = expiry_heap_ X ++ [node]) as Eh by done.
    assert (expiries_ X1 = <[node := (d, n)]> (expiries_ X)) as Em by done.
    assert (exp_wf X1) as Hw1.
    { destruct Hw as [W1 W2 W3]. constructor; rewrite ?Eh, ?Em.
      - intros j a Hj. apply lookup_snoc_Some in Hj as [[Hj Hja]|[-> ->]].
        + destruct (W1 _ _ Hja) as [dj Hdj]. exists dj. rewrite lookup_insert_ne; [done|congruence].
        + exists d. by rewrite lookup_insert_eq.
      - intros a d' j Ha. apply lookup_snoc_Some.
        apply lookup_insert_Some in Ha as [[<- [= <- <-]]|[_ Ha]]; [by right|left].
        pose proof (W2 _ _ _ Ha) as Hj. split; [by eapply lookup_lt_Some|done].
      - by rewrite lookup_insert_ne. }
    assert (length (expiry_heap_ X1) = S n) as El by (rewrite Eh, length_app; simpl; lia).
    destruct (heap_fix_spec n X1 Hw1) as [Hok (-> & _)]; [lia| |by rewrite Ed].
    rewrite El. split.
    + intros j Hj Hne Hp. pose proof (parent_lt j ltac:(lia)).
      assert (forall k, (k < n)%nat -> deadline_at X1 k = deadline_at X k) as Hk.
      { intros k Hk. pose proof (heap_at_lt X k Hk) as Hl. destruct (ew_heap _ Hw _ _ Hl) as [dk Hdk].
        rewrite (deadline_at_eq X k _ dk k Hl Hdk). eapply (deadline_at_eq X1 k _ dk k).
        - rewrite Eh. by apply lookup_app_l_Some.
        - rewrite Em, lookup_insert_ne; [done|congruence]. }
      rewrite !Hk by lia. apply Ho. lia.
    + intros c Hi Hc Hpc. pose proof (parent_lt c ltac:(lia)). lia.
Qed.

Lemma move_spec node fresh X :
  exp_ok X -> fresh <> 0 -> deadlines X !! fresh = None ->
  exp_ok (move_expiry node fresh X) /\
  deadlines (move_expiry node fresh X) =
    match deadlines X !! node with
    | Some d => <[fresh := d]> (delete node (deadlines X))
    | None => deadlines X
    end.
Proof.
  intros [Hw Ho] Hf Hfresh. unfold move_expiry. rewrite deadlines_lookup.
  destruct (expiries_ X !! node) as [[d i]|] eqn:E; [|done]. cbn [fmap option_fmap option_map fst].
  rewrite deadlines_lookup in Hfresh. assert (expiries_ X !! fresh = None) as Hf'.
  { destruct (expiries_ X !! fresh); [done|done]. }
  pose proof (ew_map _ Hw _ _ _ E) as Hi. pose proof (lookup_lt_Some _ _ _ Hi) as Hlt.
  assert (node <> fresh) as Hne by (intros ->; congruence).
  set (X1 := set_map _ _).
  assert (expiry_heap_ X1 = <[i := fresh]> (expiry_heap_ X)) as Eh by done.
  assert (expiries_ X1 = <[fresh := (d, i)]> (delete node (expiries_ X))) as Em by done.
  assert (forall j a, expiry_heap_ X !! j = Some a -> j <> i -> a <> node /\ a <> fresh) as Hother.
  { intros j a Hj Hji. destruct (ew_heap _ Hw _ _ Hj) as [dj Hdj]. split; congruence. }
  split; [split|].
  - destruct Hw as [W1 W2 W3]. constructor; rewrite ?Eh, ?Em.
    + intros j a Hj. destruct (decide (j = i)) as [->|Hji].
      * rewrite list_lookup_insert_eq in Hj by done. injection Hj as <-. exists d. by rewrite lookup_insert_eq.
      * rewrite list_lookup_insert_ne in Hj by done. destruct (Hother _ _ Hj Hji).
        rewrite lookup_insert_ne, lookup_delete_ne by done. by apply W1.
    + intros a d' j Ha. apply lookup_insert_Some in Ha as [[<- [= <- <-]]|[Hna Ha]].
      * by rewrite list_lookup_insert_eq.
      * apply lookup_delete_Some in Ha as [Hna' Ha]. pose proof (W2 _ _ _ Ha) as Hj.
        rewrite list_lookup_insert_ne; [done|congruence].
    + rewrite lookup_insert_ne by done. by rewrite lookup_delete_None; right.
  - rewrite Eh, length_insert. intros j Hj.
    assert (forall k, (k < length (expiry_heap_ X))%nat -> deadline_at X1 k = deadline_at X k) as Hk.
    { intros k Hk. pose proof (heap_at_lt X k Hk) as Hl. destruct (ew_heap _ Hw _ _ Hl) as [dk Hdk].
      rewrite (deadline_at_eq X k _ dk k Hl Hdk). destruct (decide (k = i)) as [->|Hki].
      - eapply (deadline_at_eq X1 i fresh dk i); [by rewrite Eh, list_lookup_insert_eq|].
        rewrite Em, lookup_insert_eq. congruence.
      - destruct (Hother _ _ Hl Hki). eapply (deadline_at_eq X1 k _ dk k).
        + rewrite Eh, list_lookup_insert_ne by done. done.
        + by rewrite Em, lookup_insert_ne, lookup_delete_ne. }
    pose proof (parent_lt j ltac:(lia)). rewrite !Hk by lia. by apply Ho.
  - transitivity (fst <$> <[fresh := (d, i)]> (delete node (expiries_ X))); [done|].
    by rewrite fmap_insert, fmap_delete.
Qed.

(** The front of the heap has the least deadline. *)
Lemma front_least X a h :
  exp_ok X -> expiry_heap_ X = a :: h ->
  exists d, deadlines X !! a = Some d /\ forall b d', deadlines X !! b = Some d' -> d <= d'.
Proof.
  intros [Hw Ho] Eh. assert (expiry_heap_ X !! 0%nat = Some a) as H0 by (by rewrite Eh).
  destruct (ew_heap _ Hw _ _ H0) as [d Hd]. exists d. split; [by rewrite deadlines_lookup, Hd|].
  assert (forall i, (i < length (expiry_heap_ X))%nat -> deadline_at X 0 <= deadline_at X i) as Hmin.
  { induction i as [i IH] using lt_wf_ind. intros Hi. destruct (decide (i = 0)%nat) as [->|Hne]; [lia|].
    pose proof (parent_lt i ltac:(lia)). specialize (IH (parent i) ltac:(lia) ltac:(lia)).
    specialize (Ho i ltac:(lia)). lia. }
  intros b d' Hb. rewrite deadlines_lookup in Hb. destruct (expiries_ X !! b) as [[db j]|] eqn:E; [|done].
  injection Hb as <-. pose proof (ew_map _ Hw _ _ _ E) as Hj. specialize (Hmin j (lookup_lt_Some _ _ _ Hj)).
  rewrite (deadline_at_eq _ _ _ _ _ H0 Hd), (deadline_at_eq _ _ _ _ _ Hj E) in Hmin. done.
Qed.

Lemma heap_ordered_prefix n m D : heap_ordered n D -> (m <= n)%nat -> heap_ordered m D.
Proof. intros H Hm j Hj. apply H. lia. Qed.

Section clearing.

(** One that is in the heap at [i], of which the last place is [n]. *)
Context (X : Expiries) (node d : Z) (i : nat).
Hypothesis Hw : exp_wf X.
Hypothesis Ho : heap_ordered (length (expiry_heap_ X)) (deadline_at X).
Hypothesis E : expiries_ X !! node = Some (d, i).

Let n := (length (expiry_heap_ X) - 1)%nat.
Let X1 := set_map (delete node (expiries_ X)) (set_heap (take n (expiry_heap_ X)) X).

Lemma cleared_other k a : expiry_heap_ X !! k = Some a -> k <> i -> a <> node.
Proof. intros Hk Hki ->. destruct (ew_heap _ Hw _ _ Hk). congruence. Qed.

Lemma cleared_deadlines : deadlines X1 = delete node (deadlines X).
Proof. unfold deadlines, X1. cbn [expiries_ set_map]. by rewrite fmap_delete. Qed.

Lemma clear_last : i = n -> exp_ok X1.
Proof.
  intros Hin. pose proof (lookup_lt_Some _ _ _ (ew_map _ Hw _ _ _ E)) as Hlt. fold n in Hlt.
  split; [destruct Hw as [W1 W2 W3]; constructor; unfold X1; cbn [expiries_ expiry_heap_ set_map set_heap]|].
  - intros k a Hk. apply lookup_take_Some in Hk as [Hk Hkn]. pose proof (cleared_other _ _ Hk ltac:(lia)).
    destruct (W1 _ _ Hk) as [dk Hdk]. exists dk. by rewrite lookup_delete_ne.
  - intros a d' k Ha. apply lookup_delete_Some in Ha as [Hna Ha]. pose proof (W2 _ _ _ Ha) as Hk.
    apply lookup_take_Some. split; [done|]. pose proof (lookup_lt_Some _ _ _ Hk). pose proof (W2 _ _ _ E).
    destruct (decide (k = n)) as [->|]; [congruence|unfold n in *; lia].
  - rewrite lookup_delete_None. by right.
  - assert (length (expiry_heap_ X1) = n) as -> by (unfold X1; cbn; rewrite length_take; unfold n; lia). intros k Hk.
    assert (forall j, (j < n)%nat -> deadline_at X1 j = deadline_at X j) as Hj.
    { intros j Hj. pose proof (heap_at_lt X j ltac:(unfold n in *; lia)) as Hl. destruct (ew_heap _ Hw _ _ Hl) as [dj Hdj].
      rewrite (deadline_at_eq X j _ dj j Hl Hdj). eapply (deadline_at_eq X1 j _ dj j); unfold X1; cbn [expiries_ expiry_heap_ set_map set_heap].
      - by rewrite lookup_take_lt.
      - rewrite lookup_delete_ne; [done|]. pose proof (cleared_other _ _ Hl ltac:(lia)). congruence. }
    pose proof (parent_lt k ltac:(lia)). rewrite !Hj by lia. apply Ho. unfold n in *. lia.
Qed.

(** The last one moves into the gap. *)
Context (last dl : Z).
Hypothesis Hin : (i < n)%nat.
Hypothesis Hlast : expiry_heap_ X !! n = Some last.
Hypothesis Hdl : expiries_ X !! last = Some (dl, n).

Let X2 := set_index last i (set_heap (<[i := last]> (expiry_heap_ X1)) X1).

Lemma clear_moved_deadlines : deadlines X2 = delete node (deadlines X).
Proof.
  rewrite <- cleared_deadlines. apply map_eq. intros a. rewrite !deadlines_lookup. unfold X2, X1. cbn [expiries_ set_index set_map set_heap].
  destruct (decide (a = last)) as [->|Hne]; [rewrite lookup_alter_eq|by rewrite lookup_alter_ne].
  by destruct (delete node (expiries_ X) !! last) as [[]|].
Qed.

Lemma clear_moved_wf : exp_wf X2.
Proof.
  assert (last <> node) as Hln by (apply (cleared_other n); [done|lia]). assert (n < length (expiry_heap_ X))%nat as Hn by by eapply lookup_lt_Some.
  pose proof (ew_map _ Hw _ _ _ E) as Hi. destruct Hw as [W1 W2 W3].
  constructor; unfold X2, X1; cbn [expiries_ expiry_heap_ set_index set_map set_heap].
  - intros k a Hk. destruct (decide (k = i)) as [->|Hki].
    + rewrite list_lookup_insert_eq in Hk by (rewrite length_take; lia). injection Hk as <-.
      exists dl. by rewrite lookup_alter_eq, lookup_delete_ne, Hdl.
    + rewrite list_lookup_insert_ne in Hk by done. apply lookup_take_Some in Hk as [Hk Hkn].
      destruct (W1 _ _ Hk) as [dk Hdk]. exists dk. pose proof (cleared_other _ _ Hk Hki).
      rewrite lookup_alter_ne, lookup_delete_ne; [done|congruence|]. intros <-. rewrite Hdl in Hdk. injection Hdk as _ <-. lia.
  - intros a d' k Ha. destruct (decide (a = last)) as [->|Hne].
    + rewrite lookup_alter_eq, lookup_delete_ne, Hdl in Ha by done. injection Ha as <- <-.
      rewrite list_lookup_insert_eq; [done|]. rewrite length_take. lia.
    + rewrite lookup_alter_ne in Ha by done. apply lookup_delete_Some in Ha as [Hna Ha].
      pose proof (W2 _ _ _ Ha) as Hk. rewrite list_lookup_insert_ne by congruence.
      apply lookup_take_Some. split; [done|]. pose proof (lookup_lt_Some _ _ _ Hk).
      destruct (decide (k = n)) as [->|]; [congruence|unfold n in *; lia].
  - rewrite lookup_alter_ne by (intros ->; congruence). rewrite lookup_delete_None. by right.
Qed.

Lemma clear_moved_around : ordered_around (length (expiry_heap_ X2)) (deadline_at X2) i.
Proof.
  unfold X2, X1. cbn [expiry_heap_ set_index set_map set_heap]. fold X1. fold X2.
  assert (n < length (expiry_heap_ X))%nat as Hn by by eapply lookup_lt_Some. rewrite length_insert, length_take, Nat.min_l by lia.
  eapply ordered_around_change; [eapply heap_ordered_prefix; [exact Ho|lia]|].
  intros k Hk Hki. pose proof (heap_at_lt X k ltac:(lia)) as Hl. destruct (ew_heap _ Hw _ _ Hl) as [dk Hdk].
  rewrite (deadline_at_eq X k _ dk k Hl Hdk). eapply (deadline_at_eq X2 k _ dk k); unfold X2, X1; cbn [expiries_ expiry_heap_ set_index set_map set_heap].
  - rewrite list_lookup_insert_ne by done. by rewrite lookup_take_lt.
  - pose proof (cleared_other _ _ Hl Hki). rewrite lookup_alter_ne, lookup_delete_ne; [done|congruence|].
    intros Hx. rewrite <- Hx, Hdl in Hdk. injection Hdk as _ <-. lia.
Qed.

End clearing.

Lemma clear_spec node X :
  exp_ok X ->
  let '(found, X') := clear_expiry node X in
  exp_ok X' /\ deadlines X' = delete node (deadlines X) /\
  found = bool_decide (is_Some (deadlines X !! node)).
Proof.
  intros [Hw Ho]. unfold clear_expiry. rewrite deadlines_lookup.
  destruct (expiries_ X !! node) as [[d i]|] eqn:E; cbn [fmap option_fmap option_map fst].
  2:{ split_and!; [done| |by rewrite bool_decide_eq_false_2; [|intros [? ?]]].
      symmetry. apply delete_id. by rewrite deadlines_lookup, E. }
  rewrite (bool_decide_eq_true_2 (is_Some (Some d))) by done.
  pose proof (lookup_lt_Some _ _ _ (ew_map _ Hw _ _ _ E)) as Hlt. cbn [expiry_heap_ expiries_ set_map set_heap]. rewrite length_take, Nat.min_l by lia.
  destruct (Nat.ltb_spec i (length (expiry_heap_ X) - 1)) as [Hin|Hin].
  - destruct (lookup_lt_is_Some_2 (expiry_heap_ X) (length (expiry_heap_ X) - 1) ltac:(lia)) as [last Hlast].
    assert (nth (length (expiry_heap_ X) - 1) (expiry_heap_ X) 0 = last) as -> by (by rewrite nth_lookup, Hlast).
    destruct (ew_heap _ Hw _ _ Hlast) as [dl Hdl].
    destruct (heap_fix_spec i _ (clear_moved_wf X node d i Hw E last dl Hin Hlast Hdl)) as [Hok (Ed & _)].
    + cbn. rewrite length_insert, length_take. lia.
    + by apply (clear_moved_around X node d i Hw Ho E last dl Hin Hlast Hdl).
    + split; [exact Hok|]. split; [|done]. etrans; [exact Ed|]. by apply clear_moved_deadlines.
  - split; [by apply (clear_last X node d i Hw Ho E); lia|]. split; [|done]. apply cleared_deadlines.
Qed.

Lemma size_deadlines X : exp_wf X -> size (deadlines X) = length (expiry_heap_ X).
Proof.
  intros [W1 W2 W3].
  assert (NoDup (expiry_heap_ X)) as Hnd.
  { apply NoDup_alt. intros i j a Hi Hj. destruct (W1 _ _ Hi), (W1 _ _ Hj). congruence. }
  assert (dom (deadlines X) = list_to_set (expiry_heap_ X) :> gset Z) as Hd.
  { apply set_eq. intros a. unfold deadlines. rewrite dom_fmap, elem_of_dom, elem_of_list_to_set. split.
    - intros [[d i] Ha]. apply list_elem_of_lookup. exists i. by eapply W2.
    - intros Ha. apply list_elem_of_lookup in Ha as [i Hi]. destruct (W1 _ _ Hi) as [d Hd]. by eexists. }
  rewrite <- size_dom, Hd. by apply size_list_to_set.
Qed.

(** ** Properties *)

(** What the database does with deadlines. *)
Inductive expiry_op :=
| exp_schedule (node deadline : Z)
| exp_clear (node : Z)
| exp_move (node fresh : Z).

Definition expiry_run (o : expiry_op) (X : Expiries) : Expiries :=
  match o with
  | exp_schedule node d => schedule_expiry node d X
  | exp_clear node => (clear_expiry node X).2
  | exp_move node fresh => move_expiry node fresh X
  end.

Definition expiry_apply (o : expiry_op) (m : gmap Z Z) : gmap Z Z :=
  match o with
  | exp_schedule node d => <[node := d]> m
  | exp_clear node => delete node m
  | exp_move node fresh =>
      match m !! node with Some d => <[fresh := d]> (delete node m) | None => m end
  end.

Definition expiry_pre (o : expiry_op) (m : gmap Z Z) : Prop :=
  match o with
  | exp_schedule node _ => node <> 0
  | exp_clear _ => True
  | exp_move _ fresh => fresh <> 0 /\ m !! fresh = None
  end.

Fixpoint expiry_applicable (os : list expiry_op) (m : gmap Z Z) : Prop :=
  match os with
  | [] => True
  | o :: os => expiry_pre o m /\ expiry_applicable os (expiry_apply o m)
  end.

Lemma expiry_run_spec o X :
  exp_ok X -> expiry_pre o (deadlines X) ->
  exp_ok (expiry_run o X) /\ deadlines (expiry_run o X) = expiry_apply o (deadlines X).
Proof.
  intros H Hpre. destruct o as [node d|node|node fresh]; simpl in *.
  - by apply schedule_spec.
  - pose proof (clear_spec node X H) as Hc. destruct (clear_expiry node X). by destruct Hc as (? & ? & _).
  - destruct Hpre. by apply move_spec.
Qed.

Definition no_expiries : Expiries := mkExpiries ∅ [] 0.

Lemma no_expiries_ok : exp_ok no_expiries.
Proof. split; [by constructor|]. intros j Hj. simpl in Hj. lia. Qed.

(** C28: the heap with its index map implements a map of deadlines with its
    minimum.  After any sequence of schedulings, clearings and moves the
    deadlines are those the map operations give, every node of the heap is
    indexed where it is, the heap has one entry per deadline, and its front
    has the least deadline of all. *)
Theorem expiry_heap_refines_map os X :
  expiry_applicable os ∅ -> fold_left (fun X o => expiry_run o X) os no_expiries = X ->
  deadlines X = fold_left (fun m o => expiry_apply o m) os ∅ /\ exp_wf X /\
  length (expiry_heap_ X) = size (deadlines X) /\
  forall a h, expiry_heap_ X = a :: h ->
    exists d, deadlines X !! a = Some d /\ forall b d', deadlines X !! b = Some d' -> d <= d'.
Proof.
  intros Happ <-.
  assert (exp_ok (fold_left (fun X o => expiry_run o X) os no_expiries) /\
    deadlines (fold_left (fun X o => expiry_run o X) os no_expiries) =
      fold_left (fun m o => expiry_apply o m) os ∅) as [Hok Hd].
  { change (∅ : gmap Z Z) with (deadlines no_expiries) in *. revert Happ. pose proof no_expiries_ok as H.
    revert H. generalize no_expiries. induction os as [|o os IH]; intros X H; [done|]. simpl.
    intros [Hpre Happ]. destruct (expiry_run_spec o X H Hpre) as [H' E]. rewrite <- E in *. by apply IH. }
  split_and!; [done|apply Hok|symmetry; apply size_deadlines, Hok|]. intros a h E. by eapply front_least.
Qed.

Lemma expiry_heap_refines_map_witness :
  exists h, expiry_heap_ (fold_left (fun X o => expiry_run o X)
    [exp_schedule 8 50; exp_schedule 16 20; exp_schedule 24 70; exp_schedule 32 10; exp_clear 32;
     exp_move 16 40; exp_schedule 24 5] no_expiries) = 24 :: h.
Proof.
  destruct (expiry_heap_refines_map [exp_schedule 8 50; exp_schedule 16 20; exp_schedule 24 70;
    exp_schedule 32 10; exp_clear 32; exp_move 16 40; exp_schedule 24 5] _
    ltac:(repeat split; (discriminate || reflexivity)) eq_refl) as (_ & _ & _ & H).
  eexists. vm_compute. reflexivity.
Defined.
