(* ===== verification/Buckets.v ===== *)
(** * Buckets: the hash index of the keyspace

    The chained hash table of [src/database.cpp]: [hash_key], [find_node],
    [link], [unlink], the relinking of [grow_node], [rehash] and
    [maybe_rehash].  The [next] field of all nodes is one map from the
    node's address (0 is the null pointer); which key a node has is an
    argument.  The abstract state is the chain of each bucket. *)

From S2P Require Import Prelude Lru.

(** ** The hash *)

Definition fnv_step (hash : Z) (c : byte) : Z := u64 (Z.lxor hash (b2z c) * 1099511628211).

Definition hash_key (key : bytes) : Z :=
  let hash := fold_left fnv_step key 14695981039346656037 in
  u32 (Z.lxor hash (Z.shiftr hash 32)).

(** ** State and operations *)

Record Index := mkIndex {
  buckets_ : list Z;
  next_ : gmap Z Z
}.

Definition initial_bucket_count : nat := 16.
Definition new_index : Index := mkIndex (replicate initial_bucket_count 0) ∅.

Definition next_of (I : Index) (a : Z) : Z := default 0 (next_ I !! a).
Definition bucket_at (I : Index) (i : nat) : Z := nth i (buckets_ I) 0.

(** [hash & (buckets_.size() - 1)]. *)
Definition bucket_index (key : bytes) (count : nat) : nat :=
  Z.to_nat (Z.land (hash_key key) (Z.of_nat count - 1)).

Definition set_bucket (i : nat) (a : Z) (I : Index) : Index := mkIndex (<[i := a]> (buckets_ I)) (next_ I).
Definition set_next_of (a n : Z) (I : Index) : Index := mkIndex (buckets_ I) (<[a := n]> (next_ I)).
Definition forget_next (a : Z) (I : Index) : Index := mkIndex (buckets_ I) (delete a (next_ I)).

(** Fuel for walking a chain: no chain has more nodes than there are. *)
Definition chain_fuel (I : Index) : nat := S (size (next_ I)).

Section ops.

Variable key_of : Z -> bytes.

Fixpoint find_in_chain (fuel : nat) (I : Index) (key : bytes) (node : Z) : Z :=
  match fuel with
  | O => 0
  | S fuel =>
      if node =? 0 then 0 else
      if negb (len (key_of node) =? len key) then find_in_chain fuel I key (next_of I node) else
      if bytes_eqb (key_of node) key then node else find_in_chain fuel I key (next_of I node)
  end.

Definition find_node (key : bytes) (I : Index) : Z :=
  find_in_chain (chain_fuel I) I key (bucket_at I (bucket_index key (length (buckets_ I)))).

Definition link (node : Z) (I : Index) : Index :=
  let index := bucket_index (key_of node) (length (buckets_ I)) in
  set_bucket index node (set_next_of node (bucket_at I index) I).

(** The node whose [next] is [node], from [cursor] on. *)
Fixpoint find_before (fuel : nat) (I : Index) (node cursor : Z) : Z :=
  match fuel with
  | O => 0
  | S fuel => if next_of I cursor =? node then cursor else find_before fuel I node (next_of I cursor)
  end.

(** Make what points at [node] (its bucket or the node before it) point at
    [to].  In [unlink] that is the node after it, in [grow_node] the copy. *)
Definition redirect (node to : Z) (I : Index) : Index :=
  let index := bucket_index (key_of node) (length (buckets_ I)) in
  if bucket_at I index =? node then set_bucket index to I
  else set_next_of (find_before (chain_fuel I) I node (bucket_at I index)) to I.

Definition unlink (node : Z) (I : Index) : Index := redirect node (next_of I node) I.

(** [grow_node]: [fresh] takes the place of [node]. *)
Definition relink (node fresh : Z) (I : Index) : Index :=
  redirect node fresh (set_next_of fresh (next_of I node) I).

(** The inner loop of [rehash], from [node] on. *)
Fixpoint rehash_chain (fuel : nat) (node : Z) (I : Index) : Index :=
  match fuel with
  | O => I
  | S fuel =>
      if node =? 0 then I else
      let next := next_of I node in
      rehash_chain fuel next (link node I)
  end.

Definition rehash (new_bucket_count : nat) (I : Index) : Index :=
  fold_left (fun J node => rehash_chain (chain_fuel I) node J) (buckets_ I)
            (mkIndex (replicate new_bucket_count 0) (next_ I)).

(** Whether [maybe_rehash] doubles the table. *)
Definition must_rehash (key_total : Z) (I : Index) : bool :=
  negb (key_total + 1 <=? len (buckets_ I)) && negb (2 ^ 31 <=? len (buckets_ I)).

End ops.

(** ** What the index is *)

(** The nodes [l] follow each other from [s] on, and lead to [t]. *)
Fixpoint cpath (m : gmap Z Z) (s : Z) (l : list Z) (t : Z) : Prop :=
  match l with
  | [] => s = t
  | b :: l => s = b /\ b <> 0 /\ exists n, m !! b = Some n /\ cpath m n l t
  end.

Record index_rep (key_of : Z -> bytes) (I : Index) (chains : list (list Z)) : Prop := {
  ir_length : length chains = length (buckets_ I);
  ir_power : exists k, length (buckets_ I) = (2 ^ k)%nat;
  ir_chain : forall i c, chains !! i = Some c -> cpath (next_ I) (bucket_at I i) c 0;
  ir_nodup : NoDup (concat chains);
  ir_bucket : forall i c a, chains !! i = Some c -> a ∈ c -> bucket_index (key_of a) (length (buckets_ I)) = i
}.

Lemma bucket_index_lt key count k : count = (2 ^ k)%nat -> (bucket_index key count < count)%nat.
Proof.
  intros ->. unfold bucket_index.
  assert (Z.of_nat (2 ^ k) - 1 = Z.ones (Z.of_nat k)) as ->.
  { rewrite Z.ones_equiv, Nat2Z.inj_pow. lia. }
  rewrite Z.land_ones by lia.
  assert (0 <= hash_key key mod 2 ^ Z.of_nat k < 2 ^ Z.of_nat k) as H.
  { apply Z.mod_pos_bound, Z.pow_pos_nonneg; lia. }
  apply Nat2Z.inj_lt. rewrite Z2Nat.id, Nat2Z.inj_pow by lia. apply H.
Qed.

Lemma cpath_app m s l1 l2 t : cpath m s (l1 ++ l2) t <-> exists u, cpath m s l1 u /\ cpath m u l2 t.
Proof.
  revert s. induction l1 as [|b l1 IH]; intros s; simpl.
  - split; [intros H; by exists s|by intros (u & -> & H)].
  - split.
    + intros (-> & Hb & n & Hn & H). apply IH in H as (u & H1 & H2). exists u. eauto 10.
    + intros (u & (-> & Hb & n & Hn & H1) & H2). split_and!; [done|done|]. exists n. split; [done|].
      apply IH. eauto.
Qed.

Lemma cpath_ext m m' s l t : (forall b, b ∈ l -> m' !! b = m !! b) -> cpath m s l t -> cpath m' s l t.
Proof.
  revert s. induction l as [|b l IH]; intros s E; [done|]. simpl. intros (-> & Hb & n & Hn & H).
  split_and!; [done|done|]. exists n. split; [rewrite E; [done|left]|].
  apply IH; [|done]. intros c Hc. apply E. by right.
Qed.

Lemma cpath_frame m a x s l t : (a ∉ l) -> cpath m s l t -> cpath (<[a := x]> m) s l t.
Proof. intros Ha. apply cpath_ext. intros b Hb. rewrite lookup_insert_ne; [done|]. by intros ->. Qed.

Lemma cpath_delete m a s l t : (a ∉ l) -> cpath m s l t -> cpath (delete a m) s l t.
Proof. intros Ha. apply cpath_ext. intros b Hb. rewrite lookup_delete_ne; [done|]. by intros ->. Qed.

Lemma cpath_nonnull m s l t : cpath m s l t -> 0 ∉ l.
Proof.
  revert s. induction l as [|b l IH]; intros s; [intros; apply not_elem_of_nil|].
  intros (_ & Hb & n & _ & H). apply not_elem_of_cons. split; [done|by eapply IH].
Qed.

(** The last node of a path leads elsewhere. *)
Lemma cpath_set_last m s l p t t' :
  (p ∉ l) -> cpath m s (l ++ [p]) t -> cpath (<[p := t']> m) s (l ++ [p]) t'.
Proof.
  intros Hp. rewrite !cpath_app. intros (u & H1 & -> & Hp0 & n & Hn & _). exists p.
  split; [by apply cpath_frame|]. split_and!; [done|done|]. exists t'. by rewrite lookup_insert_eq.
Qed.

(** A chain is no longer than the map. *)
Lemma cpath_size m s l t : cpath m s l t -> NoDup l -> (length l <= size m)%nat.
Proof.
  intros H Hnd. rewrite <- (size_list_to_set (C := gset Z) l Hnd), <- size_dom.
  apply subseteq_size. intros a Ha. apply elem_of_list_to_set in Ha. apply elem_of_dom.
  clear Hnd. revert s H. induction l as [|b l IH]; intros s; [by apply elem_of_nil in Ha|].
  intros (_ & _ & n & Hn & H). apply elem_of_cons in Ha as [->|Ha]; [by eexists|by eapply IH].
Qed.

(** ** Looking up *)

Lemma find_in_chain_spec key_of fuel I key s l :
  cpath (next_ I) s l 0 -> (length l < fuel)%nat ->
  find_in_chain key_of fuel I key s = hd 0 (filter (fun a => key_of a = key) l).
Proof.
  revert s fuel. induction l as [|b l IH]; intros s fuel H Hf; destruct fuel as [|fuel]; try (simpl in Hf; lia).
  - simpl in H. subst s. done.
  - destruct H as (-> & Hb & n & Hn & H). cbn [find_in_chain]. destruct (Z.eqb_spec b 0); [done|].
    assert (next_of I b = n) as -> by (unfold next_of; by rewrite Hn).
    assert (find_in_chain key_of fuel I key n = hd 0 (filter (fun a => key_of a = key) l)) as ->.
    { apply IH; [done|simpl in Hf; lia]. }
    destruct (decide (key_of b = key)) as [E|E].
    + rewrite filter_cons_True by done. rewrite E, Z.eqb_refl. simpl.
      by assert (bytes_eqb key key = true) as -> by (apply bool_decide_eq_true; done).
    + rewrite filter_cons_False by done. destruct (negb _); [done|].
      destruct (bytes_eqb (key_of b) key) eqn:Eb; [|done]. exfalso. apply E.
      by apply bool_decide_eq_true in Eb.
Qed.

Lemma NoDup_concat_lookup (chains : list (list Z)) i c : NoDup (concat chains) -> chains !! i = Some c -> NoDup c.
Proof.
  revert i. induction chains as [|d chains IH]; intros i Hnd Hi; [done|]. simpl in Hnd.
  apply NoDup_app in Hnd as (Hd & _ & Hnd). destruct i as [|i]; [by injection Hi as <-|by eapply IH].
Qed.

Lemma elem_of_concat_lookup (chains : list (list Z)) i c a : chains !! i = Some c -> a ∈ c -> a ∈ concat chains.
Proof.
  intros Hi Ha. apply list_elem_of_In, in_concat. exists c.
  split; apply list_elem_of_In; [|done]. by eapply list_elem_of_lookup_2.
Qed.

Lemma elem_of_concat_inv (chains : list (list Z)) a : a ∈ concat chains -> exists i c, chains !! i = Some c /\ a ∈ c.
Proof.
  intros Ha. apply list_elem_of_In, in_concat in Ha as (c & Hc & Ha). apply list_elem_of_In in Hc, Ha.
  apply list_elem_of_lookup in Hc as [i Hi]. eauto.
Qed.

Section index_facts.

Context (key_of : Z -> bytes).

Lemma bucket_chain I chains k :
  index_rep key_of I chains ->
  exists c, chains !! bucket_index k (length (buckets_ I)) = Some c /\
    cpath (next_ I) (bucket_at I (bucket_index k (length (buckets_ I)))) c 0 /\ NoDup c /\
    (length c < chain_fuel I)%nat.
Proof.
  intros H. destruct (ir_power _ _ _ H) as [p Hp]. pose proof (bucket_index_lt k _ p Hp) as Hlt.
  rewrite <- (ir_length _ _ _ H) in Hlt at 2. destruct (lookup_lt_is_Some_2 _ _ Hlt) as [c Hc].
  pose proof (ir_chain _ _ _ H _ _ Hc) as Hpath. pose proof (NoDup_concat_lookup _ _ _ (ir_nodup _ _ _ H) Hc) as Hnd.
  exists c. split_and!; try done. pose proof (cpath_size _ _ _ _ Hpath Hnd). unfold chain_fuel. lia.
Qed.

(** [find_node] finds the node with the key, if there is one. *)
Lemma find_node_spec I chains k :
  index_rep key_of I chains ->
  (find_node key_of k I = 0 /\ forall a, a ∈ concat chains -> key_of a <> k) \/
  (find_node key_of k I ∈ concat chains /\ find_node key_of k I <> 0 /\ key_of (find_node key_of k I) = k).
Proof.
  intros H. destruct (bucket_chain I chains k H) as (c & Hc & Hpath & Hnd & Hfuel).
  unfold find_node. rewrite (find_in_chain_spec _ _ _ _ _ _ Hpath Hfuel).
  destruct (filter (fun a => key_of a = k) c) as [|a l] eqn:Ef.
  - left. split; [done|]. intros a Ha Hk. apply elem_of_concat_inv in Ha as (i & d & Hd & Ha).
    pose proof (ir_bucket _ _ _ H _ _ _ Hd Ha) as Hi. rewrite Hk in Hi. subst i.
    rewrite Hc in Hd. injection Hd as <-.
    assert (a ∈ filter (fun a => key_of a = k) c) as Hin by (by apply list_elem_of_filter).
    rewrite Ef in Hin. by apply elem_of_nil in Hin.
  - right. assert (a ∈ filter (fun a => key_of a = k) c) as Hin by (rewrite Ef; left).
    apply list_elem_of_filter in Hin as [Hk Hin]. simpl. split_and!; [by eapply elem_of_concat_lookup| |done].
    intros ->. by apply (cpath_nonnull _ _ _ _ Hpath).
Qed.

(** ** Linking *)

Lemma bucket_at_set I i j a :
  (i < length (buckets_ I))%nat -> bucket_at (set_bucket i a I) j = if decide (j = i) then a else bucket_at I j.
Proof.
  intros Hi. unfold bucket_at, set_bucket. cbn [buckets_]. rewrite !nth_lookup.
  destruct (decide (j = i)) as [->|Hne]; [by rewrite list_lookup_insert_eq|by rewrite list_lookup_insert_ne].
Qed.

(** Replacing one chain. *)
Lemma concat_insert (chains : list (list Z)) i c c' :
  chains !! i = Some c -> exists l, concat chains ≡ₚ c ++ l /\ concat (<[i := c']> chains) ≡ₚ c' ++ l.
Proof.
  intros Hi. exists (concat (take i chains) ++ concat (drop (S i) chains)).
  rewrite insert_take_drop by (by eapply lookup_lt_Some). rewrite <- (take_drop_middle _ _ _ Hi) at 1.
  rewrite !concat_app. simpl. split; solve_Permutation.
Qed.

Lemma replace_chain_rep I I' chains i c c' :
  index_rep key_of I chains -> chains !! i = Some c ->
  length (buckets_ I') = length (buckets_ I) ->
  cpath (next_ I') (bucket_at I' i) c' 0 ->
  (forall j d, j <> i -> chains !! j = Some d -> cpath (next_ I') (bucket_at I' j) d 0) ->
  NoDup (concat (<[i := c']> chains)) ->
  (forall a, a ∈ c' -> bucket_index (key_of a) (length (buckets_ I)) = i) ->
  index_rep key_of I' (<[i := c']> chains).
Proof.
  intros [H1 H2 H3 H4 H5] Hi Hl Hpath Hothers Hnd Hb. pose proof (lookup_lt_Some _ _ _ Hi) as Hlt.
  constructor; rewrite ?Hl; try done.
  - by rewrite length_insert.
  - intros j d Hj. apply list_lookup_insert_Some in Hj as [(-> & <- & _)|(Hne & Hj)]; [done|by apply Hothers].
  - intros j d a Hj Ha. apply list_lookup_insert_Some in Hj as [(-> & <- & _)|(Hne & Hj)]; [by apply Hb|by eapply H5].
Qed.

Lemma link_rep I chains a :
  index_rep key_of I chains -> (a ∉ concat chains) -> a <> 0 ->
  exists c, let i := bucket_index (key_of a) (length (buckets_ I)) in
    chains !! i = Some c /\ index_rep key_of (link key_of a I) (<[i := a :: c]> chains) /\
    concat (<[i := a :: c]> chains) ≡ₚ a :: concat chains.
Proof.
  intros H Ha Ha0. destruct (bucket_chain I chains (key_of a) H) as (c & Hc & Hpath & Hnd & _).
  exists c. cbv zeta. set (i := bucket_index (key_of a) (length (buckets_ I))) in *.
  pose proof (lookup_lt_Some _ _ _ Hc) as Hlt. rewrite (ir_length _ _ _ H) in Hlt.
  destruct (concat_insert chains i c (a :: c) Hc) as (l & E1 & E2).
  assert (concat (<[i := a :: c]> chains) ≡ₚ a :: concat chains) as Eperm by (by rewrite E2, E1).
  assert (a ∉ c) as Hac by (intros Hin; apply Ha; by eapply elem_of_concat_lookup).
  split_and!; [done| |done].
  apply (replace_chain_rep I _ chains i c); try done.
  - unfold link. fold i. cbn [buckets_ set_bucket]. by rewrite length_insert.
  - unfold link. fold i. rewrite bucket_at_set, decide_True by done. cbn [next_ set_bucket set_next_of].
    split_and!; [done|done|]. exists (bucket_at I i). rewrite lookup_insert_eq. split; [done|by apply cpath_frame].
  - intros j d Hne Hj. unfold link. fold i. rewrite bucket_at_set, decide_False by done.
    cbn [next_ set_bucket set_next_of]. apply cpath_frame; [|by apply (ir_chain _ _ _ H)].
    intros Hin. apply Ha. by eapply elem_of_concat_lookup.
  - rewrite Eperm. apply NoDup_cons. split; [done|apply (ir_nodup _ _ _ H)].
  - intros b Hb. apply elem_of_cons in Hb as [->|Hb]; [done|]. by eapply (ir_bucket _ _ _ H).
Qed.

(** ** Unlinking and replacing *)

Lemma find_before_spec fuel I node s l p :
  cpath (next_ I) s (l ++ [p]) node -> (node ∉ l ++ [p]) -> (length l < fuel)%nat ->
  find_before fuel I node s = p.
Proof.
  revert s fuel. induction l as [|b l IH]; intros s fuel H Hn Hf; destruct fuel as [|fuel]; try (simpl in Hf; lia).
  - destruct H as (-> & Hp & n & Hnx & <-). cbn [find_before]. unfold next_of. rewrite Hnx. cbn. by rewrite Z.eqb_refl.
  - destruct H as (-> & Hb & n & Hnx & H). cbn [find_before].
    assert (next_of I b = n) as -> by (unfold next_of; by rewrite Hnx).
    apply not_elem_of_cons in Hn as [_ Hn].
    assert (n <> node) as Hne.
    { intros ->. apply Hn. destruct l as [|c l]; simpl in H; destruct H as [-> _]; left. }
    destruct (Z.eqb_spec n node); [done|]. apply IH; [done|done|simpl in Hf; lia].
Qed.

(** The chain from [to] on takes the place of the chain from [node] on. *)
Lemma redirect_path I chains node to c1 c2 rest :
  index_rep key_of I chains ->
  let i := bucket_index (key_of node) (length (buckets_ I)) in
  chains !! i = Some (c1 ++ node :: c2) -> (forall a, a ∈ c1 -> a ∉ rest) ->
  cpath (next_ I) to rest 0 ->
  let I' := redirect key_of node to I in
  cpath (next_ I') (bucket_at I' i) (c1 ++ rest) 0 /\ length (buckets_ I') = length (buckets_ I) /\
  (forall j, j <> i -> bucket_at I' j = bucket_at I j) /\
  (forall a, (a ∉ c1) -> next_ I' !! a = next_ I !! a).
Proof.
  intros H i Hc Hdis Hto I'. pose proof (lookup_lt_Some _ _ _ Hc) as Hlt. rewrite (ir_length _ _ _ H) in Hlt.
  pose proof (ir_chain _ _ _ H _ _ Hc) as Hpath. pose proof (NoDup_concat_lookup _ _ _ (ir_nodup _ _ _ H) Hc) as Hnd.
  pose proof (cpath_size _ _ _ _ Hpath Hnd) as Hsize. rewrite length_app in Hsize. simpl in Hsize.
  apply cpath_app in Hpath as (u & H1 & Hu & Hn0 & n & Hnx & H2). subst u.
  apply NoDup_app in Hnd as (Hnd1 & Hd & Hnd2).
  assert (node ∉ c1) as Hnc by (intros Hin; apply (Hd node Hin); left).
  unfold I', redirect. fold i. destruct c1 as [|p c1 _] using rev_ind.
  - simpl in H1. rewrite H1, Z.eqb_refl. rewrite bucket_at_set, decide_True by done. split_and!; try done.
    + cbn [buckets_ set_bucket]. by rewrite length_insert.
    + intros j Hj. by rewrite bucket_at_set, decide_False.
  - assert (bucket_at I i <> node) as Hne.
    { intros E. rewrite E in H1. apply Hnc. destruct c1 as [|b c1]; simpl in H1; destruct H1 as [-> _]; left. }
    destruct (Z.eqb_spec (bucket_at I i) node); [done|].
    rewrite length_app in Hsize. simpl in Hsize.
    rewrite (find_before_spec _ _ _ _ c1 p H1) by (done || unfold chain_fuel; lia).
    apply NoDup_app in Hnd1 as (_ & Hd1 & _).
    assert (p ∉ c1) as Hp by (intros Hin; apply (Hd1 p Hin); left).
    unfold set_next_of. cbn [next_ buckets_]. split_and!; try done.
    + apply cpath_app. exists to. split; [by eapply cpath_set_last|]. apply cpath_frame; [|done].
      apply Hdis. apply elem_of_app. right. left.
    + intros a Ha. apply not_elem_of_app in Ha as [_ Ha]. apply not_elem_of_cons in Ha as [Ha _].
      by rewrite lookup_insert_ne.
Qed.

(** A node of the index is in the chain of its key's bucket. *)
Lemma node_chain I chains node :
  index_rep key_of I chains -> node ∈ concat chains ->
  exists c1 c2, chains !! bucket_index (key_of node) (length (buckets_ I)) = Some (c1 ++ node :: c2).
Proof.
  intros H Hin. apply elem_of_concat_inv in Hin as (i & c & Hi & Hin).
  rewrite (ir_bucket _ _ _ H _ _ _ Hi Hin), Hi. apply list_elem_of_split in Hin as (c1 & c2 & ->). eauto.
Qed.

(** The chains other than [i] do not meet chain [i]. *)
Lemma other_chain I chains i j c d a :
  index_rep key_of I chains -> chains !! i = Some c -> chains !! j = Some d -> j <> i -> a ∈ c -> a ∉ d.
Proof.
  intros H Hi Hj Hne Ha Had. apply Hne.
  rewrite <- (ir_bucket _ _ _ H _ _ _ Hi Ha). symmetry. by apply (ir_bucket _ _ _ H _ _ _ Hj).
Qed.

Lemma forget_next_rep I chains a :
  index_rep key_of I chains -> (a ∉ concat chains) -> index_rep key_of (forget_next a I) chains.
Proof.
  intros [H1 H2 H3 H4 H5] Ha. constructor; try done. intros i c Hi. apply cpath_delete; [|by apply H3].
  intros Hin. apply Ha. by eapply elem_of_concat_lookup.
Qed.

Lemma set_next_rep I chains a n :
  index_rep key_of I chains -> (a ∉ concat chains) -> index_rep key_of (set_next_of a n I) chains.
Proof.
  intros [H1 H2 H3 H4 H5] Ha. constructor; try done. intros i c Hi. apply cpath_frame; [|by apply H3].
  intros Hin. apply Ha. by eapply elem_of_concat_lookup.
Qed.

Lemma NoDup_middle (c1 c2 : list Z) a : NoDup (c1 ++ a :: c2) -> (a ∉ c1) /\ (a ∉ c2) /\ forall b, b ∈ c1 -> b ∉ c2.
Proof.
  intros H. apply NoDup_app in H as (_ & Hd & H). apply NoDup_cons in H as [Ha _]. split_and!; [|done|].
  - intros Hin. apply (Hd a Hin). left.
  - intros b Hb Hb'. apply (Hd b Hb). by right.
Qed.

Lemma unlink_rep I chains node :
  index_rep key_of I chains -> node ∈ concat chains ->
  exists chains', index_rep key_of (unlink key_of node I) chains' /\
    node :: concat chains' ≡ₚ concat chains.
Proof.
  intros H Hin. destruct (node_chain I chains node H Hin) as (c1 & c2 & Hc).
  set (i := bucket_index (key_of node) (length (buckets_ I))) in *.
  pose proof (NoDup_concat_lookup _ _ _ (ir_nodup _ _ _ H) Hc) as Hnd.
  destruct (NoDup_middle _ _ _ Hnd) as (Hn1 & Hn2 & Hd).
  pose proof (ir_chain _ _ _ H _ _ Hc) as Hpath. apply cpath_app in Hpath as (u & _ & _ & _ & n & Hnx & H2).
  destruct (redirect_path I chains node (next_of I node) c1 c2 c2 H Hc Hd) as (P1 & P2 & P3 & P4).
  { unfold next_of. by rewrite Hnx. }
  fold i in P1, P3. destruct (concat_insert chains i _ (c1 ++ c2) Hc) as (l & E1 & E2).
  assert (node :: concat (<[i := c1 ++ c2]> chains) ≡ₚ concat chains) as Eperm.
  { rewrite E1, E2. solve_Permutation. }
  assert (NoDup (node :: concat (<[i := c1 ++ c2]> chains))) as Hnd'.
  { rewrite Eperm. apply (ir_nodup _ _ _ H). }
  apply NoDup_cons in Hnd' as [Hout Hnd'].
  exists (<[i := c1 ++ c2]> chains). split; [|done].
  apply (replace_chain_rep I _ chains i (c1 ++ node :: c2)); try done.
  - intros j d Hne Hj. unfold unlink. rewrite P3 by done. eapply cpath_ext; [|by apply (ir_chain _ _ _ H)].
    intros b Hb. apply P4. intros Hb'. eapply (other_chain I chains i j _ d b); [done..| |done].
    apply elem_of_app. by left.
  - intros a Ha. eapply (ir_bucket _ _ _ H); [done|]. rewrite elem_of_app in *. rewrite elem_of_cons. tauto.
Qed.

Lemma relink_rep I chains node fresh :
  index_rep key_of I chains -> node ∈ concat chains -> (fresh ∉ concat chains) -> fresh <> 0 ->
  key_of fresh = key_of node ->
  exists chains' l, index_rep key_of (relink key_of node fresh I) chains' /\
    concat chains ≡ₚ node :: l /\ concat chains' ≡ₚ fresh :: l.
Proof.
  intros H Hin Hfresh Hf0 Hkey. destruct (node_chain I chains node H Hin) as (c1 & c2 & Hc).
  set (i := bucket_index (key_of node) (length (buckets_ I))) in *.
  pose proof (NoDup_concat_lookup _ _ _ (ir_nodup _ _ _ H) Hc) as Hnd.
  destruct (NoDup_middle _ _ _ Hnd) as (Hn1 & Hn2 & Hd).
  pose proof (ir_chain _ _ _ H _ _ Hc) as Hpath. apply cpath_app in Hpath as (u & _ & _ & _ & n & Hnx & H2).
  assert (forall a, a ∈ c1 ++ node :: c2 -> a <> fresh) as Hff.
  { intros a Ha ->. apply Hfresh. by eapply elem_of_concat_lookup. }
  set (I0 := set_next_of fresh (next_of I node) I).
  assert (index_rep key_of I0 chains) as H0 by by apply set_next_rep.
  destruct (redirect_path I0 chains node fresh c1 c2 (fresh :: c2) H0 Hc) as (P1 & P2 & P3 & P4).
  { intros a Ha. apply not_elem_of_cons. split; [|by apply Hd]. apply Hff, elem_of_app. by left. }
  { split_and!; [done|done|]. exists n. unfold I0, set_next_of, next_of. cbn [next_].
    rewrite lookup_insert_eq, Hnx. split; [done|]. apply cpath_frame; [|done].
    intros Hin'. apply (Hff fresh); [|done]. apply elem_of_app. right. by right. }
  fold i in P1, P3. destruct (concat_insert chains i _ (c1 ++ fresh :: c2) Hc) as (l & E1 & E2).
  exists (<[i := c1 ++ fresh :: c2]> chains), (c1 ++ c2 ++ l).
  assert (concat chains ≡ₚ node :: c1 ++ c2 ++ l) as Ep1 by (rewrite E1; solve_Permutation).
  assert (concat (<[i := c1 ++ fresh :: c2]> chains) ≡ₚ fresh :: c1 ++ c2 ++ l) as Ep2 by (rewrite E2; solve_Permutation).
  split_and!; try done.
  assert (NoDup (node :: c1 ++ c2 ++ l) /\ (fresh ∉ node :: c1 ++ c2 ++ l)) as [Hndall Hfall].
  { rewrite <- Ep1. split; [apply (ir_nodup _ _ _ H)|done]. }
  apply NoDup_cons in Hndall as [Hnl Hndl]. apply not_elem_of_cons in Hfall as [Hfn Hfl].
  apply (replace_chain_rep I0 _ chains i (c1 ++ node :: c2)); try done.
  - intros j d Hne Hj. unfold relink. fold I0. rewrite P3 by done.
    eapply cpath_ext; [|by apply (ir_chain _ _ _ H0)].
    intros b Hb. apply P4. intros Hb'. eapply (other_chain I chains i j _ d b); [done..| |done].
    apply elem_of_app. by left.
  - rewrite Ep2. by apply NoDup_cons.
  - intros a Ha. rewrite elem_of_app, elem_of_cons in Ha. destruct Ha as [Ha|[->|Ha]].
    + eapply (ir_bucket _ _ _ H0); [done|]. apply elem_of_app. by left.
    + by rewrite Hkey.
    + eapply (ir_bucket _ _ _ H0); [done|]. apply elem_of_app. right. by right.
Qed.

(** ** Rehashing *)

Lemma rehash_chain_rep fuel J chains node c :
  index_rep key_of J chains -> cpath (next_ J) node c 0 -> NoDup c ->
  (forall a, a ∈ c -> a ∉ concat chains) -> (length c < fuel)%nat ->
  exists chains', index_rep key_of (rehash_chain key_of fuel node J) chains' /\
    concat chains' ≡ₚ c ++ concat chains /\
    forall b, (b ∉ c) -> next_ (rehash_chain key_of fuel node J) !! b = next_ J !! b.
Proof.
  revert J chains node fuel. induction c as [|a c IH]; intros J chains node fuel H Hp Hnd Hdis Hf;
    destruct fuel as [|fuel]; try (simpl in Hf; lia).
  - simpl in Hp. subst node. exists chains. done.
  - destruct Hp as (-> & Ha0 & n & Hn & Hp). apply NoDup_cons in Hnd as [Ha Hnd].
    cbn [rehash_chain]. destruct (Z.eqb_spec a 0); [done|].
    assert (next_of J a = n) as -> by (unfold next_of; by rewrite Hn).
    destruct (link_rep J chains a H) as (d & Hd & H' & Eperm); [apply Hdis; left|done|].
    assert (forall b, b <> a -> next_ (link key_of a J) !! b = next_ J !! b) as Hsame.
    { intros b Hb. unfold link. cbn [next_ set_bucket set_next_of]. by rewrite lookup_insert_ne. }
    destruct (IH (link key_of a J) _ n fuel H') as (chains' & H2 & E2 & F2); [| |..].
    + eapply cpath_ext; [|exact Hp]. intros b Hb. apply Hsame. intros ->. done.
    + done.
    + intros b Hb. rewrite Eperm. apply not_elem_of_cons. split; [intros ->; done|]. apply Hdis. by right.
    + simpl in Hf. lia.
    + exists chains'. split_and!; [done| |].
      * rewrite E2, Eperm. simpl. solve_Permutation.
      * intros b Hb. apply not_elem_of_cons in Hb as [Hba Hbc]. rewrite F2 by done. by apply Hsame.
Qed.

Lemma rehash_loop_rep fuel bs cs J chains :
  index_rep key_of J chains -> Forall2 (fun b c => cpath (next_ J) b c 0) bs cs ->
  NoDup (concat cs ++ concat chains) -> Forall (fun c => length c < fuel)%nat cs ->
  exists chains', index_rep key_of (fold_left (fun J node => rehash_chain key_of fuel node J) bs J) chains' /\
    concat chains' ≡ₚ concat cs ++ concat chains.
Proof.
  intros H Hbs. revert J chains H Hbs. revert bs. induction cs as [|c cs IH]; intros bs J chains H Hbs Hnd Hf.
  - apply Forall2_nil_inv_r in Hbs as ->. exists chains. done.
  - apply Forall2_cons_inv_r in Hbs as (b & bs' & Hb & Hbs & ->). apply Forall_cons in Hf as [Hf Hfs].
    simpl in Hnd. rewrite <- app_assoc in Hnd. apply NoDup_app in Hnd as (Hndc & Hdc & Hnd).
    destruct (rehash_chain_rep fuel J chains b c H Hb Hndc) as (chains1 & H1 & E1 & F1); [|done|].
    { intros a Ha Hin. apply (Hdc a Ha). apply elem_of_app. by right. }
    destruct (IH bs' (rehash_chain key_of fuel b J) chains1 H1) as (chains' & H' & E'); [| |done|].
    + clear -Hbs F1 Hdc. induction Hbs as [|b' c' bs' cs' Hb' _ IH]; constructor.
      * eapply cpath_ext; [|exact Hb']. intros x Hx. apply F1. intros Hxc. apply (Hdc x Hxc). simpl.
        rewrite !elem_of_app. auto.
      * apply IH. intros x Hxc Hin. apply (Hdc x Hxc). simpl. rewrite !elem_of_app in *. tauto.
    + rewrite E1. apply NoDup_app in Hnd as (Hn1 & Hd1 & Hn2).
      rewrite Permutation_app_comm, <- app_assoc. apply NoDup_app. split_and!; [done| |].
      * intros x Hx Hin. apply (Hdc x Hx). rewrite elem_of_app in *. tauto.
      * rewrite Permutation_app_comm. apply NoDup_app. done.
    + exists chains'. split; [done|]. rewrite E', E1. simpl. solve_Permutation.
Qed.

Lemma empty_index_rep count k m :
  count = (2 ^ k)%nat -> index_rep key_of (mkIndex (replicate count 0) m) (replicate count []).
Proof.
  intros Hk. constructor; cbn [buckets_ next_].
  - by rewrite !length_replicate.
  - exists k. by rewrite length_replicate.
  - intros i c Hi. apply lookup_replicate in Hi as [-> Hi]. unfold bucket_at. cbn [buckets_].
    by rewrite nth_lookup, lookup_replicate_2.
  - clear. induction count; [constructor|done].
  - intros i c a Hi Ha. apply lookup_replicate in Hi as [-> Hi]. by apply elem_of_nil in Ha.
Qed.

Lemma concat_replicate_nil count : concat (replicate count (@nil Z)) = [].
Proof. by induction count. Qed.

Lemma rehash_chain_length fuel node J :
  length (buckets_ (rehash_chain key_of fuel node J)) = length (buckets_ J).
Proof.
  revert node J. induction fuel as [|fuel IH]; intros node J; [done|]. cbn [rehash_chain].
  destruct (node =? 0); [done|]. rewrite IH. unfold link. cbn [buckets_ set_bucket set_next_of]. apply length_insert.
Qed.

Lemma rehash_loop_length fuel bs J :
  length (buckets_ (fold_left (fun J node => rehash_chain key_of fuel node J) bs J)) = length (buckets_ J).
Proof.
  revert J. induction bs as [|b bs IH]; intros J; [done|]. simpl. by rewrite IH, rehash_chain_length.
Qed.

Lemma rehash_rep I chains count k :
  index_rep key_of I chains -> count = (2 ^ k)%nat ->
  exists chains', index_rep key_of (rehash key_of count I) chains' /\ concat chains' ≡ₚ concat chains /\
    length (buckets_ (rehash key_of count I)) = count.
Proof.
  intros H Hk. unfold rehash.
  destruct (rehash_loop_rep (chain_fuel I) (buckets_ I) chains (mkIndex (replicate count 0) (next_ I))
    (replicate count []) (empty_index_rep count k (next_ I) Hk)) as (chains' & H' & E).
  - apply Forall2_same_length_lookup. split; [symmetry; apply (ir_length _ _ _ H)|].
    intros i b c Hb Hc. pose proof (ir_chain _ _ _ H _ _ Hc) as Hp. unfold bucket_at in Hp.
    by rewrite nth_lookup, Hb in Hp.
  - rewrite concat_replicate_nil, app_nil_r. apply (ir_nodup _ _ _ H).
  - apply Forall_forall. intros c Hc. apply list_elem_of_lookup in Hc as [i Hi].
    pose proof (cpath_size _ _ _ _ (ir_chain _ _ _ H _ _ Hi) (NoDup_concat_lookup _ _ _ (ir_nodup _ _ _ H) Hi)).
    unfold chain_fuel. lia.
  - rewrite concat_replicate_nil, app_nil_r in E. exists chains'. split_and!; [done|done|].
    rewrite rehash_loop_length. apply length_replicate.
Qed.

(** ** The index as a map from keys to nodes *)

Definition index_ok (I : Index) (m : gmap bytes Z) : Prop :=
  exists chains, index_rep key_of I chains /\
    (forall a, a ∈ concat chains <-> m !! key_of a = Some a) /\
    (forall k a, m !! k = Some a -> key_of a = k).

Lemma index_ok_find I m k : index_ok I m -> find_node key_of k I = default 0 (m !! k).
Proof.
  intros (chains & H & Hin & Hk). destruct (find_node_spec I chains k H) as [[-> Hno]|(Hmem & Hne & Hkey)].
  - destruct (m !! k) as [a|] eqn:E; [|done]. exfalso. pose proof (Hk _ _ E) as Ek.
    apply (Hno a); [|done]. apply Hin. by rewrite Ek.
  - apply Hin in Hmem. rewrite Hkey in Hmem. by rewrite Hmem.
Qed.

Lemma index_ok_nonnull I m k a : index_ok I m -> m !! k = Some a -> a <> 0.
Proof.
  intros (chains & H & Hin & Hk) E ->. pose proof (Hk _ _ E) as Ek. rewrite <- Ek in E.
  apply Hin, elem_of_concat_inv in E as (i & c & Hi & Hc).
  by apply (cpath_nonnull _ _ _ _ (ir_chain _ _ _ H _ _ Hi)).
Qed.

(** The [next] of a node that is in no chain does not matter. *)
Lemma index_ok_outside I m a :
  index_ok I m -> m !! key_of a <> Some a ->
  index_ok (forget_next a I) m /\ forall n, index_ok (set_next_of a n I) m.
Proof.
  intros (chains & H & Hin & Hk) Ha. assert (a ∉ concat chains) as Ha' by (by rewrite Hin). split.
  - exists chains. split; [by apply forget_next_rep|done].
  - intros n. exists chains. split; [by apply set_next_rep|done].
Qed.

Lemma index_ok_link I m a :
  index_ok I m -> a <> 0 -> m !! key_of a = None -> index_ok (link key_of a I) (<[key_of a := a]> m).
Proof.
  intros (chains & H & Hin & Hk) Ha Hm.
  destruct (link_rep I chains a H) as (c & _ & H' & E); [rewrite Hin; congruence|done|].
  eexists. split; [exact H'|]. split.
  - intros b. rewrite E, elem_of_cons, Hin. split.
    + intros [->|Hb]; [by rewrite lookup_insert_eq|]. rewrite lookup_insert_ne; [done|congruence].
    + intros Hb. apply lookup_insert_Some in Hb as [[_ ->]|[_ Hb]]; auto.
  - intros k b Hb. apply lookup_insert_Some in Hb as [[<- <-]|[_ Hb]]; [done|by apply Hk].
Qed.

Lemma index_ok_unlink I m a :
  index_ok I m -> m !! key_of a = Some a ->
  index_ok (unlink key_of a I) (delete (key_of a) m).
Proof.
  intros (chains & H & Hin & Hk) Hm.
  destruct (unlink_rep I chains a H) as (chains' & H' & E); [by apply Hin|].
  exists chains'. split; [exact H'|]. pose proof (ir_nodup _ _ _ H) as Hnd. rewrite <- E in Hnd.
  apply NoDup_cons in Hnd as [Ha _]. split.
  - intros b. split.
    + intros Hb. assert (b ∈ concat chains) as Hb' by (rewrite <- E; by right). apply Hin in Hb'.
      rewrite lookup_delete_ne; [done|]. intros Ek. rewrite Ek in Hm. congruence.
    + intros Hb. apply lookup_delete_Some in Hb as [Hne Hb]. apply Hin in Hb. rewrite <- E in Hb.
      apply elem_of_cons in Hb as [->|Hb]; [done|done].
  - intros k b Hb. apply lookup_delete_Some in Hb as [_ Hb]. by apply Hk.
Qed.

Lemma index_ok_relink I m a b :
  index_ok I m -> m !! key_of a = Some a -> key_of b = key_of a -> b <> a -> b <> 0 ->
  index_ok (relink key_of a b I) (<[key_of a := b]> m).
Proof.
  intros (chains & H & Hin & Hk) Hm Hkb Hba Hb0.
  destruct (relink_rep I chains a b H) as (chains' & l & H' & E1 & E2);
    [by apply Hin|rewrite Hin, Hkb; congruence|done|done|].
  exists chains'. split; [exact H'|]. pose proof (ir_nodup _ _ _ H) as Hnd. rewrite E1 in Hnd.
  apply NoDup_cons in Hnd as [Ha _]. split.
  - intros x. rewrite E2, elem_of_cons. split.
    + intros [->|Hx]; [by rewrite Hkb, lookup_insert_eq|].
      assert (x ∈ concat chains) as Hx' by (rewrite E1; by right). apply Hin in Hx'.
      rewrite lookup_insert_ne; [done|]. intros Ek. rewrite <- Ek in Hx'. congruence.
    + intros Hx. apply lookup_insert_Some in Hx as [[_ ->]|[Hne Hx]]; [by left|].
      apply Hin in Hx. rewrite E1, elem_of_cons in Hx. destruct Hx as [->|Hx]; [done|by right].
  - intros k x Hx. apply lookup_insert_Some in Hx as [[<- <-]|[_ Hx]]; [done|by apply Hk].
Qed.

Lemma index_ok_rehash I m count k :
  index_ok I m -> count = (2 ^ k)%nat -> index_ok (rehash key_of count I) m.
Proof.
  intros (chains & H & Hin & Hk) Hc. destruct (rehash_rep I chains count k H Hc) as (chains' & H' & E & _).
  exists chains'. split; [done|]. split; [|done]. intros a. by rewrite E.
Qed.

End index_facts.

(** Only the keys of the nodes in the table matter. *)
Lemma index_ok_ext key_of key_of' I m :
  index_ok key_of I m -> (forall k a, m !! k = Some a -> key_of' a = k) -> index_ok key_of' I m.
Proof.
  intros (chains & [H1 H2 H3 H4 H5] & Hin & Hk) He.
  assert (forall a, a ∈ concat chains -> key_of' a = key_of a) as Hext by (intros a Ha; by apply He, Hin).
  exists chains. split_and!; [constructor; try done| |done].
  - intros i c a Hi Ha. rewrite Hext by (by eapply elem_of_concat_lookup). by eapply H5.
  - intros a. rewrite Hin. split; intros Ha.
    + by rewrite Hext by (by apply Hin).
    + by rewrite (Hk _ _ Ha).
Qed.

Lemma new_index_ok key_of : index_ok key_of new_index ∅.
Proof.
  exists (replicate initial_bucket_count []). split; [by apply (empty_index_rep key_of 16 4)|].
  rewrite concat_replicate_nil. split; [|done]. intros a. split; intros H; [by apply elem_of_nil in H|done].
Qed.

(** ** Properties *)

Inductive index_op :=
| idx_link (node : Z)
| idx_unlink (node : Z)
| idx_relink (node fresh : Z)
| idx_grow.

Definition index_run (key_of : Z -> bytes) (o : index_op) (I : Index) : Index :=
  match o with
  | idx_link a => link key_of a I
  | idx_unlink a => forget_next a (unlink key_of a I)
  | idx_relink a b => forget_next a (relink key_of a b I)
  | idx_grow => rehash key_of (length (buckets_ I) * 2) I
  end.

Definition index_apply (key_of : Z -> bytes) (o : index_op) (m : gmap bytes Z) : gmap bytes Z :=
  match o with
  | idx_link a => <[key_of a := a]> m
  | idx_unlink a => delete (key_of a) m
  | idx_relink a b => <[key_of a := b]> m
  | idx_grow => m
  end.

Definition index_pre (key_of : Z -> bytes) (o : index_op) (m : gmap bytes Z) : Prop :=
  match o with
  | idx_link a => a <> 0 /\ m !! key_of a = None
  | idx_unlink a => m !! key_of a = Some a
  | idx_relink a b => m !! key_of a = Some a /\ key_of b = key_of a /\ b <> a /\ b <> 0
  | idx_grow => True
  end.

Fixpoint index_applicable (key_of : Z -> bytes) (os : list index_op) (m : gmap bytes Z) : Prop :=
  match os with
  | [] => True
  | o :: os => index_pre key_of o m /\ index_applicable key_of os (index_apply key_of o m)
  end.

Lemma index_run_ok key_of o I m :
  index_ok key_of I m -> index_pre key_of o m -> index_ok key_of (index_run key_of o I) (index_apply key_of o m).
Proof.
  intros H Hpre. destruct o as [a|a|a b|]; simpl in *.
  - destruct Hpre. by apply index_ok_link.
  - apply index_ok_outside; [by apply index_ok_unlink|]. by rewrite lookup_delete_eq.
  - destruct Hpre as (? & ? & ? & ?). apply index_ok_outside; [by apply index_ok_relink|].
    rewrite lookup_insert_eq. congruence.
  - destruct H as (chains & H & ?). destruct (ir_power _ _ _ H) as [k Hk].
    apply (index_ok_rehash key_of I m _ (S k)); [by exists chains|]. simpl. lia.
Qed.

(** C27: the chained table implements the map from keys to nodes.  Whatever
    nodes are linked, unlinked or replaced by a copy, and whenever the table
    doubles, [find_node] returns the node with the key, and null if there is
    none. *)
Theorem index_refines_map key_of os I k :
  index_applicable key_of os ∅ -> fold_left (fun I o => index_run key_of o I) os new_index = I ->
  find_node key_of k I = default 0 (fold_left (fun m o => index_apply key_of o m) os ∅ !! k).
Proof.
  intros Happ <-. apply index_ok_find.
  pose proof (new_index_ok key_of) as H. revert H Happ. generalize new_index.
  generalize (∅ : gmap bytes Z). induction os as [|o os IH]; intros m I H; [done|]. simpl.
  intros [Hpre Happ]. apply IH; [|done]. by apply index_run_ok.
Qed.

Lemma index_refines_map_witness :
  find_node (fun a => if a =? 24 then of_str "b" else of_str "a") (of_str "a")
    (fold_left (fun I o => index_run (fun a => if a =? 24 then of_str "b" else of_str "a") o I)
       [idx_link 8; idx_link 24; idx_grow; idx_relink 8 16; idx_unlink 24] new_index) = 16.
Proof.
  rewrite (index_refines_map (fun a => if a =? 24 then of_str "b" else of_str "a")
    [idx_link 8; idx_link 24; idx_grow; idx_relink 8 16; idx_unlink 24] _ (of_str "a")
    ltac:(repeat split; (discriminate || reflexivity)) eq_refl).
  vm_compute. reflexivity.
Defined.
