(* ===== verification/Node.v ===== *)
(** * Node: the layout of a key's memory block

    A node of [src/database.hpp] is one block: a 32-byte header, the key
    padded to eight bytes, the exact block size when the block is larger than
    every slab class, and the body.  [key_meta] packs the key's length, the
    type, the flags and the size class.  The header's pointers are in [Lru]
    and [Buckets]; what remains is here: the accessors on the packed words
    and on the bytes, and that they read back what was written. *)

From S2P Require Import Prelude Errors Slab.

(** ** Types *)

Inductive NodeType :=
| type_string | type_integer | type_list | type_hash
| type_other (code : Z).     (** a code that is no enumerator *)

#[global] Instance NodeType_eq_dec : EqDecision NodeType.
Proof. solve_decision. Defined.

Definition type_code (t : NodeType) : Z :=
  match t with
  | type_string => 0 | type_integer => 1 | type_list => 2 | type_hash => 3 | type_other c => c
  end.

Definition type_of_code (c : Z) : NodeType :=
  match c with
  | 0 => type_string | 1 => type_integer | 2 => type_list | 3 => type_hash | c => type_other c
  end.

(** The block after its 32 header bytes, and the two words of the header
    that are not pointers. *)
Record Node := mkNode {
  key_meta : Z;
  count : Z;
  block : bytes
}.

Definition set_meta (m : Z) (n : Node) : Node := mkNode m (count n) (block n).
Definition set_count (c : Z) (n : Node) : Node := mkNode (key_meta n) c (block n).
Definition set_block (b : bytes) (n : Node) : Node := mkNode (key_meta n) (count n) b.

Definition sizeof_Node : Z := 32.
Definition key_length_mask : Z := 2097151.
Definition flag_hash_promoted : Z := 1.
Definition flag_has_ttl : Z := 2.
Definition hash_packed_limit : Z := 128.
Definition hash_packed_byte_limit : Z := 4096.
Definition oversized_class : Z := 63.
Definition max_key_length : Z := 2097151.

(** [~x] on 32 bits. *)
Definition complement32 (x : Z) : Z := Z.lxor x uint32_max.

Definition key_stride (key_length : Z) : Z := Z.land (u32 (key_length + 7)) (complement32 7).

(** ** The packed word *)

Definition make_key_meta (key_length : Z) (type : NodeType) (flags size_class : Z) : Z :=
  Z.lor (Z.lor (Z.lor (Z.land (u32 key_length) key_length_mask)
                      (u32 (Z.shiftl (type_code type) 21)))
               (u32 (Z.shiftl flags 24)))
        (u32 (Z.shiftl size_class 26)).

Definition node_key_length (n : Node) : Z := Z.land (key_meta n) key_length_mask.
Definition node_type (n : Node) : NodeType := type_of_code (Z.land (Z.shiftr (key_meta n) 21) 7).
Definition node_flags (n : Node) : Z := Z.land (Z.shiftr (key_meta n) 24) 3.
Definition node_size_class (n : Node) : Z := Z.land (Z.shiftr (key_meta n) 26) 63.

Definition set_type (type : NodeType) (n : Node) : Node :=
  set_meta (Z.lor (Z.land (key_meta n) (complement32 (Z.shiftl 7 21))) (Z.shiftl (type_code type) 21)) n.
Definition set_flags (flags : Z) (n : Node) : Node :=
  set_meta (Z.lor (Z.land (key_meta n) (complement32 (Z.shiftl 3 24))) (Z.shiftl (Z.land flags 3) 24)) n.

(** ** The bytes *)

(** [n] bytes at an offset, and storing bytes there. *)
Definition read_at (off n : Z) (b : bytes) : bytes := take (Z.to_nat n) (drop (Z.to_nat off) b).
Definition write_at (off : Z) (data b : bytes) : bytes :=
  take (Z.to_nat off) b ++ data ++ drop (Z.to_nat off + length data) b.

(** Offsets in [block] are those in the node less the header. *)
Definition node_key (n : Node) : bytes := read_at 0 (node_key_length n) (block n).

Definition node_block_size (n : Node) : Z :=
  if node_size_class n =? oversized_class
  then le_value (read_at (key_stride (node_key_length n)) 4 (block n))
  else class_size (node_size_class n).

Definition payload_offset (n : Node) : Z :=
  u32 (u32 (sizeof_Node + key_stride (node_key_length n)) +
       (if node_size_class n =? oversized_class then 8 else 0)).

Definition node_body (n : Node) : bytes := drop (Z.to_nat (payload_offset n - sizeof_Node)) (block n).
Definition write_body (off : Z) (data : bytes) (n : Node) : Node :=
  set_block (write_at (payload_offset n - sizeof_Node + off) data (block n)) n.

Definition node_body_capacity (n : Node) : Z := u32 (node_block_size n - payload_offset n).

Definition string_value (n : Node) : bytes := read_at 0 (count n) (node_body n).
Definition integer_value (n : Node) : Z := i64 (le_value (read_at 0 8 (node_body n))).
Definition set_integer_value (value : Z) (n : Node) : Node := write_body 0 (le_bytes 8 (u64 value)) n.

Definition hash_count (n : Node) : Z := Z.land (count n) 65535.
Definition set_hash_count (c : Z) (n : Node) : Node :=
  set_count (Z.lor (Z.land (count n) 4294901760) (Z.land c 65535)) n.
Definition hash_used (n : Node) : Z := Z.shiftr (count n) 16.
Definition set_hash_used (used : Z) (n : Node) : Node :=
  set_count (Z.lor (Z.land (count n) 65535) (u32 (Z.shiftl used 16))) n.

(** [ListBody]: two words at the start of the body, then the run. *)
Definition list_head (n : Node) : Z := le_value (read_at 0 4 (node_body n)).
Definition list_used (n : Node) : Z := le_value (read_at 4 4 (node_body n)).
Definition set_list_head (v : Z) (n : Node) : Node := write_body 0 (le_bytes 4 v) n.
Definition set_list_used (v : Z) (n : Node) : Node := write_body 4 (le_bytes 4 v) n.
Definition sizeof_ListBody : Z := 8.
Definition list_run (n : Node) : bytes := drop 8 (node_body n).
Definition write_run (off : Z) (data : bytes) (n : Node) : Node := write_body (sizeof_ListBody + off) data n.

Definition list_run_capacity (n : Node) : Z :=
  let body := node_body_capacity n in
  if sizeof_ListBody <? body then body - sizeof_ListBody else 0.

(** The table a promoted hash points to. *)
Definition promoted_hash (n : Node) : Z := le_value (read_at 0 8 (node_body n)).
Definition set_promoted_hash (table : Z) (n : Node) : Node := write_body 0 (le_bytes 8 table) n.

(** ** Sizes *)

(** The class and the block size for a body of [body_capacity] bytes, as in
    [create_node] and [grow_node]; [None] is [std::bad_alloc]. *)
Definition block_layout (key_length body_capacity : Z) : option (Z * Z) :=
  let requested := sizeof_Node + key_stride key_length + body_capacity in
  let '(size_class, requested) :=
    if requested <=? largest_class
    then (class_index requested, class_size (class_index requested))
    else (oversized_class, requested + 8) in
  if uint32_max <? requested then None else Some (size_class, requested).

(** The block as [create_node] fills it in, over what the memory held. *)
Definition init_block (key : bytes) (size_class size : Z) (raw : bytes) : bytes :=
  let b := write_at 0 key raw in
  if size_class =? oversized_class then write_at (key_stride (len key)) (le_bytes 4 (u32 size)) b else b.

Definition grown_capacity (required current : Z) : Z :=
  let capacity := Z.max required 32 in
  let capacity :=
    if current =? 0 then capacity else
    let doubled := u32 (current * 2) in if capacity <? doubled then doubled else capacity in
  if capacity <? required then required else capacity.

(** ** Fields of a word *)

Definition field (m pos width : Z) : Z := Z.land (Z.shiftr m pos) (Z.ones width).
Definition put_field (m pos width v : Z) : Z :=
  Z.lor (Z.land m (complement32 (Z.shiftl (Z.ones width) pos))) (Z.shiftl (Z.land v (Z.ones width)) pos).

Lemma testbit_ones w i : 0 <= w -> 0 <= i -> Z.testbit (Z.ones w) i = (i <? w).
Proof.
  intros Hw Hi. destruct (Z.ltb_spec i w); [by rewrite Z.ones_spec_low by lia|by rewrite Z.ones_spec_high by lia].
Qed.

Lemma testbit_complement32 x i : 0 <= i < 32 -> Z.testbit (complement32 x) i = negb (Z.testbit x i).
Proof.
  intros Hi. unfold complement32. rewrite Z.lxor_spec. change uint32_max with (Z.ones 32).
  rewrite testbit_ones by lia. destruct (Z.ltb_spec i 32); [|lia]. apply xorb_true_r.
Qed.

Lemma testbit_field m p w i : 0 <= p -> 0 <= w -> 0 <= i ->
  Z.testbit (field m p w) i = Z.testbit m (i + p) && (i <? w).
Proof. intros. unfold field. by rewrite Z.land_spec, Z.shiftr_spec, testbit_ones. Qed.

Lemma testbit_put m p w v i : 0 <= p -> 0 <= w -> 0 <= i < 32 ->
  Z.testbit (put_field m p w v) i =
  if (p <=? i) && (i <? p + w) then Z.testbit v (i - p) else Z.testbit m i.
Proof.
  intros Hp Hw Hi. unfold put_field.
  rewrite Z.lor_spec, Z.land_spec, testbit_complement32, !Z.shiftl_spec by lia.
  destruct (Z.leb_spec p i); simpl.
  - rewrite Z.land_spec, !testbit_ones by lia.
    destruct (Z.ltb_spec (i - p) w), (Z.ltb_spec i (p + w)); try lia; simpl;
      rewrite ?andb_false_r, ?andb_true_r, ?orb_false_r; done.
  - rewrite !(Z.testbit_neg_r _ (i - p)) by lia. by rewrite andb_true_r, orb_false_r.
Qed.

(** A field reads back what was put in it, and the others are as before. *)
Lemma field_put_same m p w v : 0 <= p -> 0 <= w -> p + w <= 32 -> 0 <= v < 2 ^ w -> field (put_field m p w v) p w = v.
Proof.
  intros Hp Hw Hpw Hv. apply Z.bits_inj'. intros i Hi. rewrite testbit_field by lia.
  destruct (Z.ltb_spec i w).
  - rewrite testbit_put by lia. destruct (Z.leb_spec p (i + p)), (Z.ltb_spec (i + p) (p + w)); try lia.
    rewrite andb_true_r. f_equal. lia.
  - rewrite andb_false_r. symmetry. destruct (decide (v = 0)) as [->|Hv0]; [apply Z.testbit_0_l|].
    apply Z.bits_above_log2; [lia|]. assert (Z.log2 v < w) by (apply Z.log2_lt_pow2; lia). lia.
Qed.

Lemma field_put_other m p w v q u :
  0 <= p -> 0 <= w -> 0 <= q -> 0 <= u -> q + u <= 32 -> q + u <= p \/ p + w <= q ->
  field (put_field m p w v) q u = field m q u.
Proof.
  intros Hp Hw Hq Hu Hqu Hdis. apply Z.bits_inj'. intros i Hi. rewrite !testbit_field by lia.
  destruct (Z.ltb_spec i u); [|by rewrite !andb_false_r]. rewrite testbit_put by lia.
  destruct (Z.leb_spec p (i + q)), (Z.ltb_spec (i + q) (p + w)); try lia; done.
Qed.

Lemma put_field_range m p w v : 0 <= m < 2 ^ 32 -> 0 <= p -> 0 <= w -> p + w <= 32 -> 0 <= put_field m p w v < 2 ^ 32.
Proof.
  intros Hm Hp Hw Hpw.
  assert (put_field m p w v = Z.land (put_field m p w v) (Z.ones 32)) as ->.
  { apply Z.bits_inj'. intros i Hi. rewrite Z.land_spec, testbit_ones by lia.
    destruct (Z.ltb_spec i 32); [by rewrite andb_true_r|]. rewrite andb_false_r. unfold put_field.
    rewrite Z.lor_spec, Z.land_spec, Z.shiftl_spec, Z.land_spec, testbit_ones by lia.
    destruct (Z.ltb_spec (i - p) w); [lia|]. rewrite andb_false_r, orb_false_r.
    destruct (decide (m = 0)) as [->|]; [by rewrite Z.testbit_0_l|].
    rewrite (Z.bits_above_log2 m); [done|lia|]. assert (Z.log2 m < 32) by (apply Z.log2_lt_pow2; lia). lia. }
  rewrite Z.land_ones by lia. apply Z.mod_pos_bound. lia.
Qed.

(** Putting a field above all the bits there are. *)
Lemma put_fresh m p w v :
  0 <= p -> 0 <= w -> p + w <= 32 -> 0 <= m < 2 ^ p -> 0 <= v < 2 ^ w ->
  put_field m p w v = Z.lor m (Z.shiftl v p) /\ 0 <= put_field m p w v < 2 ^ (p + w).
Proof.
  intros Hp Hw Hpw Hm Hv.
  assert (put_field m p w v = Z.lor m (Z.shiftl v p)) as E.
  { unfold put_field. rewrite Z.land_ones, Z.mod_small by lia. f_equal.
    apply Z.bits_inj'. intros i Hi. rewrite Z.land_spec. destruct (Z.ltb_spec i p).
    - rewrite testbit_complement32, Z.shiftl_spec, (Z.testbit_neg_r _ (i - p)) by lia. by rewrite andb_true_r.
    - assert (Z.testbit m i = false) as ->; [|done].
      destruct (decide (m = 0)) as [->|]; [apply Z.testbit_0_l|].
      apply Z.bits_above_log2; [lia|]. assert (Z.log2 m < p) by (apply Z.log2_lt_pow2; lia). lia. }
  split; [done|]. rewrite E, lor_shiftl_add, Z.pow_add_r by lia. nia.
Qed.

(** [make_key_meta] puts its four fields in an empty word. *)
Lemma make_key_meta_put key_length type flags size_class :
  0 <= key_length <= max_key_length -> 0 <= type_code type < 8 -> 0 <= flags < 4 -> 0 <= size_class < 64 ->
  make_key_meta key_length type flags size_class =
  put_field (put_field (put_field (put_field 0 0 21 key_length) 21 3 (type_code type)) 24 2 flags) 26 6 size_class.
Proof.
  intros Hk Ht Hf Hs. unfold max_key_length in *.
  destruct (put_fresh 0 0 21 key_length) as [E1 B1]; [lia..|]. change (0 + 21) with 21 in B1.
  destruct (put_fresh (put_field 0 0 21 key_length) 21 3 (type_code type)) as [E2 B2]; [lia..|].
  change (21 + 3) with 24 in B2.
  destruct (put_fresh (put_field (put_field 0 0 21 key_length) 21 3 (type_code type)) 24 2 flags) as [E3 B3]; [lia..|].
  change (24 + 2) with 26 in B3.
  destruct (put_fresh (put_field (put_field (put_field 0 0 21 key_length) 21 3 (type_code type)) 24 2 flags)
              26 6 size_class) as [E4 _]; [lia..|].
  rewrite E4, E3, E2, E1, Z.shiftl_0_r, Z.lor_0_l. unfold make_key_meta.
  rewrite !(u32_small (Z.shiftl _ _)) by (rewrite Z.shiftl_mul_pow2 by lia; lia).
  rewrite u32_small by lia. change key_length_mask with (Z.ones 21). rewrite Z.land_ones, Z.mod_small by lia. done.
Qed.

(** ** The accessors *)

Definition real_type (t : NodeType) : Prop := match t with type_other _ => False | _ => True end.

Lemma real_type_code t : real_type t -> 0 <= type_code t < 4.
Proof. by destruct t. Qed.

Lemma type_of_type_code t : real_type t -> type_of_code (type_code t) = t.
Proof. by destruct t. Qed.

Lemma meta_fields n :
  node_key_length n = field (key_meta n) 0 21 /\ node_type n = type_of_code (field (key_meta n) 21 3) /\
  node_flags n = field (key_meta n) 24 2 /\ node_size_class n = field (key_meta n) 26 6.
Proof. unfold field. rewrite Z.shiftr_0_r. done. Qed.

(** What the four accessors return for a node. *)
Definition meta_is (n : Node) (key_length : Z) (type : NodeType) (flags size_class : Z) : Prop :=
  node_key_length n = key_length /\ node_type n = type /\ node_flags n = flags /\ node_size_class n = size_class.

Lemma make_key_meta_is key_length type flags size_class c b :
  0 <= key_length <= max_key_length -> real_type type -> 0 <= flags < 4 -> 0 <= size_class < 64 ->
  meta_is (mkNode (make_key_meta key_length type flags size_class) c b) key_length type flags size_class /\
  0 <= make_key_meta key_length type flags size_class < 2 ^ 32.
Proof.
  intros Hk Ht Hf Hs. pose proof (real_type_code _ Ht) as Hc.
  rewrite make_key_meta_put by lia. unfold max_key_length in *. split; [|repeat apply put_field_range; lia].
  unfold meta_is. destruct (meta_fields (mkNode (put_field (put_field (put_field (put_field 0 0 21 key_length)
    21 3 (type_code type)) 24 2 flags) 26 6 size_class) c b)) as (-> & -> & -> & ->). cbn [key_meta].
  split_and!; rewrite ?field_put_other by lia; rewrite field_put_same by lia; try done.
  by apply type_of_type_code.
Qed.

Lemma set_flags_put n flags :
  key_meta (set_flags flags n) = put_field (key_meta n) 24 2 flags.
Proof. done. Qed.

Lemma set_type_put n type :
  real_type type -> key_meta (set_type type n) = put_field (key_meta n) 21 3 (type_code type).
Proof. intros Ht. unfold put_field. by destruct type. Qed.

Lemma set_flags_is n kl t f sc flags :
  meta_is n kl t f sc -> 0 <= flags < 4 -> meta_is (set_flags flags n) kl t flags sc.
Proof.
  intros (<- & <- & _ & <-) Hf. unfold meta_is.
  destruct (meta_fields (set_flags flags n)) as (-> & -> & -> & ->). rewrite set_flags_put.
  destruct (meta_fields n) as (-> & -> & _ & ->).
  split_and!; rewrite ?field_put_other, ?field_put_same by lia; done.
Qed.

Lemma set_type_is n kl t f sc type :
  meta_is n kl t f sc -> real_type type -> meta_is (set_type type n) kl type f sc.
Proof.
  intros (<- & _ & <- & <-) Ht. unfold meta_is. pose proof (real_type_code _ Ht).
  destruct (meta_fields (set_type type n)) as (-> & -> & -> & ->). rewrite set_type_put by done.
  destruct (meta_fields n) as (-> & _ & -> & ->).
  split_and!; rewrite ?field_put_other, ?field_put_same by lia; try done. by apply type_of_type_code.
Qed.

Lemma meta_range n : 0 <= node_key_length n <= max_key_length /\ 0 <= node_flags n < 4 /\ 0 <= node_size_class n < 64.
Proof.
  unfold node_key_length, node_flags, node_size_class, max_key_length.
  change key_length_mask with (Z.ones 21). change 3 with (Z.ones 2). change 63 with (Z.ones 6).
  rewrite !Z.land_ones by lia.
  pose proof (Z.mod_pos_bound (key_meta n) (2 ^ 21)). pose proof (Z.mod_pos_bound (Z.shiftr (key_meta n) 24) (2 ^ 2)).
  pose proof (Z.mod_pos_bound (Z.shiftr (key_meta n) 26) (2 ^ 6)). lia.
Qed.

(** The two halves of a hash's count. *)
Lemma hash_halves n :
  hash_count n = field (count n) 0 16 /\ (0 <= count n < 2 ^ 32 -> hash_used n = field (count n) 16 16).
Proof.
  unfold hash_count, hash_used, field. rewrite Z.shiftr_0_r. split; [done|]. intros Hc.
  rewrite Z.land_ones by lia. rewrite Z.mod_small; [done|]. rewrite Z.shiftr_div_pow2 by lia.
  split; [apply Z.div_pos; lia|apply Z.div_lt_upper_bound; lia].
Qed.

(** ** Reading and writing bytes *)

Lemma lookup_read_at off n b (i : nat) :
  0 <= off -> read_at off n b !! i = if decide (Z.of_nat i < n) then b !! (Z.to_nat off + i)%nat else None.
Proof.
  intros Ho. unfold read_at. rewrite lookup_take. destruct (decide (Z.of_nat i < n)).
  - rewrite decide_True by lia. by rewrite lookup_drop.
  - by rewrite decide_False by lia.
Qed.

Lemma lookup_write_at off d b (i : nat) :
  0 <= off -> off + len d <= len b ->
  write_at off d b !! i =
  if decide (off <= Z.of_nat i < off + len d) then d !! (i - Z.to_nat off)%nat else b !! i.
Proof.
  intros Ho Hl. unfold write_at, len in *.
  assert (length (take (Z.to_nat off) b) = Z.to_nat off) as El by (rewrite length_take; lia).
  destruct (decide (off <= Z.of_nat i < off + Z.of_nat (length d))).
  - rewrite lookup_app_r, lookup_app_l by lia. by rewrite El.
  - destruct (Z.lt_ge_cases (Z.of_nat i) off).
    + rewrite lookup_app_l, lookup_take_lt by lia. done.
    + rewrite lookup_app_r, lookup_app_r, lookup_drop by lia. f_equal. lia.
Qed.

Lemma len_write_at off d b : 0 <= off -> off + len d <= len b -> len (write_at off d b) = len b.
Proof.
  intros Ho Hl. unfold write_at, len in *. rewrite !length_app, length_take, length_drop. lia.
Qed.

Lemma len_read_at off n b : 0 <= off -> 0 <= n -> off + n <= len b -> len (read_at off n b) = n.
Proof. intros Ho Hn Hl. unfold read_at, len in *. rewrite length_take, length_drop. lia. Qed.

Lemma read_write_same off d b :
  0 <= off -> off + len d <= len b -> read_at off (len d) (write_at off d b) = d.
Proof.
  intros Ho Hl. apply list_eq. intros i. rewrite lookup_read_at by done.
  destruct (decide (Z.of_nat i < len d)).
  - rewrite lookup_write_at, decide_True by lia. f_equal. lia.
  - symmetry. apply lookup_ge_None. unfold len in *. lia.
Qed.

Lemma read_write_other off d b off' n :
  0 <= off -> off + len d <= len b -> 0 <= off' -> off' + n <= off \/ off + len d <= off' ->
  read_at off' n (write_at off d b) = read_at off' n b.
Proof.
  intros Ho Hl Ho' Hd. apply list_eq. intros i. rewrite !lookup_read_at by done.
  destruct (decide (Z.of_nat i < n)); [|done]. rewrite lookup_write_at, decide_False by lia. done.
Qed.

Lemma read_at_drop off k n b :
  0 <= off -> 0 <= k -> read_at off n (drop (Z.to_nat k) b) = read_at (k + off) n b.
Proof. intros. unfold read_at. rewrite drop_drop. do 2 f_equal. lia. Qed.

Lemma drop_write_at k off d b :
  0 <= k -> 0 <= off -> k + off + len d <= len b ->
  drop (Z.to_nat k) (write_at (k + off) d b) = write_at off d (drop (Z.to_nat k) b).
Proof.
  intros Hk Ho Hl. apply list_eq. intros i. rewrite lookup_drop.
  assert (len (drop (Z.to_nat k) b) = len b - k) as El.
  { unfold len in *. rewrite length_drop. lia. }
  rewrite !lookup_write_at by lia. destruct (decide (k + off <= Z.of_nat (Z.to_nat k + i) < k + off + len d)).
  - rewrite decide_True by lia. f_equal. lia.
  - rewrite decide_False by lia. by rewrite lookup_drop.
Qed.

Lemma read_at_all b : read_at 0 (len b) b = b.
Proof. unfold read_at, len. rewrite Nat2Z.id. apply firstn_all. Qed.

Lemma read_at_prefix a b n : n = len a -> read_at 0 n (a ++ b) = a.
Proof. intros ->. unfold read_at, len. rewrite Nat2Z.id. apply take_app_length. Qed.

(** ** Well-formed nodes *)

(** Where the body starts in [block]. *)
Definition body_offset (n : Node) : Z :=
  key_stride (node_key_length n) + (if node_size_class n =? oversized_class then 8 else 0).

Record node_wf (n : Node) : Prop := {
  nw_meta : 0 <= key_meta n < 2 ^ 32;
  nw_count : 0 <= count n < 2 ^ 32;
  nw_type : real_type (node_type n);
  nw_class : 0 <= node_size_class n < class_count \/ node_size_class n = oversized_class;
  nw_size : node_block_size n = sizeof_Node + len (block n);
  nw_max : node_block_size n <= uint32_max;
  nw_fits : body_offset n <= len (block n)
}.

Lemma key_stride_spec k : 0 <= k <= max_key_length -> k <= key_stride k < k + 8 /\ key_stride k mod 8 = 0.
Proof.
  intros Hk. unfold key_stride, max_key_length in *. rewrite u32_small by lia.
  assert (Z.land (k + 7) (complement32 7) = (k + 7) / 8 * 8) as ->.
  { assert (Z.land (k + 7) (complement32 7) = Z.shiftl (Z.shiftr (k + 7) 3) 3) as ->.
    - apply Z.bits_inj'. intros i Hi. rewrite Z.land_spec, Z.shiftl_spec by lia.
      destruct (Z.ltb_spec i 3).
      + rewrite (Z.testbit_neg_r _ (i - 3)) by lia. rewrite testbit_complement32 by lia.
        change 7 with (Z.ones 3) at 2. rewrite testbit_ones by lia.
        destruct (Z.ltb_spec i 3); [|lia]. apply andb_false_r.
      + rewrite Z.shiftr_spec by lia. replace (i - 3 + 3) with i by lia. destruct (Z.ltb_spec i 32).
        * rewrite testbit_complement32 by lia. change 7 with (Z.ones 3) at 2. rewrite testbit_ones by lia.
          destruct (Z.ltb_spec i 3); [lia|]. apply andb_true_r.
        * rewrite (Z.bits_above_log2 (k + 7)); [done|lia|].
          assert (Z.log2 (k + 7) < 32) by (apply Z.log2_lt_pow2; lia). lia.
    - rewrite Z.shiftl_mul_pow2, Z.shiftr_div_pow2 by lia. done. }
  pose proof (Z.div_mod (k + 7) 8 ltac:(lia)). pose proof (Z.mod_pos_bound (k + 7) 8 ltac:(lia)).
  split; [lia|]. apply Z_mod_mult.
Qed.

Lemma body_offset_bounds n :
  node_key_length n <= body_offset n < node_key_length n + 16 /\ 0 <= node_key_length n <= max_key_length.
Proof.
  destruct (meta_range n) as (Hk & _). destruct (key_stride_spec _ Hk). unfold body_offset.
  destruct (node_size_class n =? oversized_class); lia.
Qed.

Lemma payload_offset_eq n : payload_offset n = sizeof_Node + body_offset n.
Proof.
  destruct (meta_range n) as (Hk & _). destruct (key_stride_spec _ Hk) as [Hs _].
  unfold payload_offset, body_offset, max_key_length, sizeof_Node in *.
  rewrite (u32_small (32 + _)) by lia.
  destruct (node_size_class n =? oversized_class); rewrite u32_small; lia.
Qed.

Lemma node_body_eq n : node_body n = drop (Z.to_nat (body_offset n)) (block n).
Proof. unfold node_body. rewrite payload_offset_eq. do 2 f_equal. lia. Qed.

Lemma capacity_eq n : node_wf n -> node_body_capacity n = len (node_body n) /\ 0 <= node_body_capacity n <= uint32_max.
Proof.
  intros [_ _ _ _ Hs Hm Hf]. pose proof (body_offset_bounds n). unfold node_body_capacity.
  rewrite node_body_eq, payload_offset_eq, Hs. unfold uint32_max, sizeof_Node in *.
  assert (len (drop (Z.to_nat (body_offset n)) (block n)) = len (block n) - body_offset n) as ->.
  { unfold len in *. rewrite length_drop. lia. }
  rewrite u32_small by lia. lia.
Qed.

Lemma len_node_key n : node_wf n -> len (node_key n) = node_key_length n.
Proof.
  intros H. pose proof (body_offset_bounds n). pose proof (nw_fits _ H). apply len_read_at; lia.
Qed.

(** Changing the body, within its capacity. *)
Lemma write_body_spec off d n :
  node_wf n -> 0 <= off -> off + len d <= node_body_capacity n ->
  node_wf (write_body off d n) /\ node_key (write_body off d n) = node_key n /\
  node_body (write_body off d n) = write_at off d (node_body n) /\
  node_block_size (write_body off d n) = node_block_size n.
Proof.
  intros H Ho Hd. destruct (capacity_eq n H) as [Hc _]. pose proof (body_offset_bounds n) as [Hb _].
  pose proof (meta_range n) as (Hk & _ & _). pose proof (nw_fits _ H) as Hf.
  assert (len (node_body n) = len (block n) - body_offset n) as El.
  { rewrite node_body_eq. unfold len in *. rewrite length_drop. lia. }
  assert (payload_offset n - sizeof_Node + off = body_offset n + off) as Eo by (rewrite payload_offset_eq; lia).
  set (n' := write_body off d n).
  assert (block n' = write_at (body_offset n + off) d (block n)) as Eb by (unfold n', write_body; by rewrite Eo).
  assert (len (block n') = len (block n)) as Elb by (rewrite Eb; apply len_write_at; lia).
  assert (node_block_size n' = node_block_size n) as Es.
  { unfold node_block_size. change (node_size_class n') with (node_size_class n).
    change (node_key_length n') with (node_key_length n).
    destruct (node_size_class n =? oversized_class) eqn:E; [|done]. f_equal. rewrite Eb.
    destruct (key_stride_spec _ Hk) as [Hs _].
    apply read_write_other; [lia|lia|lia|]. left. unfold body_offset. rewrite E. lia. }
  split_and!; [|..].
  - destruct H as [H1 H2 H3 H4 H5 H6 H7].
    constructor; [exact H1|exact H2|exact H3|exact H4| | |]; rewrite ?Es, ?Elb; [exact H5|exact H6|exact H7].
  - unfold node_key. change (node_key_length n') with (node_key_length n). rewrite Eb.
    apply read_write_other; lia.
  - rewrite !node_body_eq. change (body_offset n') with (body_offset n). rewrite Eb.
    apply drop_write_at; lia.
  - done.
Qed.

Lemma set_count_wf c n : node_wf n -> 0 <= c < 2 ^ 32 -> node_wf (set_count c n).
Proof. intros [H1 H2 H3 H4 H5 H6 H7] Hc. constructor; assumption. Qed.

(** Nodes that differ in type, flags or count have the same bytes. *)
Definition same_shape (n n' : Node) : Prop :=
  node_key_length n' = node_key_length n /\ node_size_class n' = node_size_class n /\ block n' = block n.

Lemma same_shape_views n n' :
  same_shape n n' ->
  node_key n' = node_key n /\ node_body n' = node_body n /\ node_block_size n' = node_block_size n /\
  node_body_capacity n' = node_body_capacity n.
Proof.
  intros (E1 & E2 & E3). unfold node_key, node_body, node_body_capacity, node_block_size, payload_offset.
  rewrite E1, E2, E3. done.
Qed.

Lemma set_flags_wf flags n : node_wf n -> 0 <= flags < 4 -> node_wf (set_flags flags n) /\ same_shape n (set_flags flags n).
Proof.
  intros H Hf. destruct (set_flags_is n _ _ _ _ flags (conj eq_refl (conj eq_refl (conj eq_refl eq_refl))) Hf)
    as (E1 & E2 & E3 & E4).
  assert (same_shape n (set_flags flags n)) as Hs by done. split; [|done].
  destruct (same_shape_views _ _ Hs) as (_ & _ & Eb & _). destruct H as [H1 H2 H3 H4 H5 H6 H7].
  constructor; rewrite ?Eb, ?E2, ?E4; try assumption.
  - rewrite set_flags_put. apply put_field_range; lia.
  - unfold body_offset in *. by rewrite E1, E4.
Qed.

Lemma set_type_wf type n : node_wf n -> real_type type -> node_wf (set_type type n) /\ same_shape n (set_type type n).
Proof.
  intros H Ht. destruct (set_type_is n _ _ _ _ type (conj eq_refl (conj eq_refl (conj eq_refl eq_refl))) Ht)
    as (E1 & E2 & E3 & E4).
  assert (same_shape n (set_type type n)) as Hs by done. split; [|done].
  destruct (same_shape_views _ _ Hs) as (_ & _ & Eb & _). destruct H as [H1 H2 H3 H4 H5 H6 H7].
  constructor; rewrite ?Eb, ?E2, ?E4; try assumption.
  - rewrite set_type_put by done. apply put_field_range; lia.
  - unfold body_offset in *. by rewrite E1, E4.
Qed.

(** ** New nodes *)

(** Sizes of a block: it holds the header, the key and the body asked for,
    and it is what [node_block_size] will say. *)
Lemma block_layout_spec kl cap size_class size :
  0 <= kl <= max_key_length -> 0 <= cap -> block_layout kl cap = Some (size_class, size) ->
  0 <= size <= uint32_max /\
  (0 <= size_class < class_count /\ size = class_size size_class /\ sizeof_Node + key_stride kl + cap <= size \/
   size_class = oversized_class /\ size = sizeof_Node + key_stride kl + cap + 8).
Proof.
  intros Hk Hc E. destruct (key_stride_spec kl Hk) as [Hs _]. unfold block_layout in E.
  destruct (Z.leb_spec (sizeof_Node + key_stride kl + cap) largest_class) as [Hl|Hl].
  - unfold sizeof_Node in *. destruct (class_index_spec (32 + key_stride kl + cap)) as (Hi & Hfit & _); [lia|].
    pose proof (class_size_pos _ Hi). destruct (uint32_max <? _) eqn:Em; [done|]. injection E as <- <-.
    apply Z.ltb_ge in Em. split; [lia|]. left. done.
  - destruct (uint32_max <? _) eqn:Em; [done|]. injection E as <- <-. apply Z.ltb_ge in Em.
    unfold sizeof_Node in *. split; [lia|]. by right.
Qed.

Lemma init_block_spec key size_class size cap type flags raw :
  len key <= max_key_length -> 0 <= cap -> block_layout (len key) cap = Some (size_class, size) ->
  real_type type -> 0 <= flags < 4 -> len raw = size - sizeof_Node ->
  let n := mkNode (make_key_meta (len key) type flags size_class) 0 (init_block key size_class size raw) in
  node_wf n /\ node_key n = key /\ node_block_size n = size /\ cap <= node_body_capacity n <= Z.max cap largest_class /\
  node_type n = type /\ node_flags n = flags.
Proof.
  intros Hk Hc Hl Ht Hf Hraw n. pose proof (len_nonneg key) as Hk0.
  destruct (block_layout_spec (len key) cap size_class size ltac:(lia) Hc Hl) as (Hsz & Hcls).
  destruct (key_stride_spec (len key) ltac:(lia)) as [Hs _].
  assert (0 <= size_class < 64) as Hsc.
  { unfold class_count, oversized_class in *. destruct Hcls as [[? _]|[-> _]]; lia. }
  destruct (make_key_meta_is (len key) type flags size_class 0 (init_block key size_class size raw)
    ltac:(lia) Ht Hf Hsc) as ((E1 & E2 & E3 & E4) & Hm). fold n in E1, E2, E3, E4.
  unfold sizeof_Node, uint32_max in *.
  assert (len key <= len raw) as Hkr by (destruct Hcls as [(_ & _ & ?)|(_ & ?)]; lia).
  assert (len (write_at 0 key raw) = len raw) as El by (apply len_write_at; lia).
  assert (len (le_bytes 4 (u32 size)) = 4) as E8 by (unfold len; by rewrite length_le_bytes).
  assert (len (block n) = len raw /\ node_key n = key /\ node_block_size n = size) as (Elb & Ekey & Esize).
  { unfold node_key, node_block_size. rewrite E1, E4. cbn [block n]. unfold init_block.
    destruct Hcls as [(Hi & -> & Hfit)|(-> & ->)].
    - destruct (Z.eqb_spec size_class oversized_class) as [->|_];
        [unfold oversized_class, class_count in Hi; lia|].
      split_and!; [done| |done]. by apply read_write_same.
    - rewrite Z.eqb_refl. split_and!.
      + rewrite len_write_at; lia.
      + rewrite read_write_other by lia. by apply read_write_same.
      + rewrite <- E8 at 1. rewrite read_write_same by lia. rewrite le_value_bytes.
        change (256 ^ Z.of_nat 4) with (2 ^ 32). rewrite Z.mod_small by apply u32_range. apply u32_small. lia. }
  assert (body_offset n = key_stride (len key) + (if size_class =? oversized_class then 8 else 0)) as Eo.
  { unfold body_offset. by rewrite E1, E4. }
  assert (body_offset n + cap <= len (block n) <= body_offset n + Z.max cap largest_class) as Hfit.
  { rewrite Eo, Elb. destruct Hcls as [(Hi & -> & Hfit)|(-> & E)]; [|rewrite Z.eqb_refl; lia].
    pose proof (class_size_pos _ Hi).
    destruct (Z.eqb_spec size_class oversized_class) as [->|_]; [unfold oversized_class, class_count in Hi; lia|lia]. }
  assert (node_wf n) as Hwf.
  { constructor; rewrite ?E2, ?E4, ?Esize, ?Elb; try assumption; try (cbn; lia); unfold sizeof_Node, uint32_max; lia. }
  assert (node_body_capacity n = len (block n) - body_offset n) as Ecap.
  { destruct (capacity_eq n Hwf) as [-> _]. rewrite node_body_eq. pose proof (body_offset_bounds n).
    unfold len in *. rewrite length_drop. lia. }
  conjuncts; lia.
Qed.

(** ** Properties *)

(** A new node reads back what it was made from: the key, the type and
    the flags; its size is the block's, and its body holds what was asked
    for. *)
Theorem new_node_layout key size_class size cap type flags raw :
  len key <= max_key_length -> 0 <= cap -> block_layout (len key) cap = Some (size_class, size) ->
  real_type type -> 0 <= flags < 4 -> len raw = size - sizeof_Node ->
  let n := mkNode (make_key_meta (len key) type flags size_class) 0 (init_block key size_class size raw) in
  node_wf n /\ node_key n = key /\ node_block_size n = size /\ cap <= node_body_capacity n <= Z.max cap largest_class /\
  node_type n = type /\ node_flags n = flags.
Proof. apply init_block_spec. Qed.

Lemma new_node_layout_witness :
  node_key (mkNode (make_key_meta 3 type_list 0 6) 0 (init_block (of_str "key") 6 56 (replicate 24 Byte.xff)))
  = of_str "key".
Proof.
  apply (new_node_layout (of_str "key") 6 56 16 type_list 0 (replicate 24 Byte.xff));
    vm_compute; repeat split; discriminate || reflexivity.
Defined.

(** Growing a body gives room for what is required and at least twice
    what there was, unless doubling would overflow 32 bits. *)
Theorem grown_capacity_bounds required current :
  0 <= required <= uint32_max -> 0 <= current <= uint32_max ->
  required <= grown_capacity required current <= uint32_max /\
  (current * 2 <= uint32_max -> current * 2 <= grown_capacity required current).
Proof.
  intros Hr Hc. unfold grown_capacity, uint32_max in *.
  destruct (Z.eqb_spec current 0) as [->|Hne].
  - destruct (Z.ltb_spec (Z.max required 32) required); lia.
  - pose proof (u32_range (current * 2)).
    assert (current * 2 <= 2 ^ 32 - 1 -> u32 (current * 2) = current * 2) by (intros; apply u32_small; lia).
    destruct (Z.ltb_spec (Z.max required 32) (u32 (current * 2)));
      match goal with |- context [?a <? ?b] => destruct (Z.ltb_spec a b) end; lia.
Qed.

Lemma grown_capacity_bounds_witness : 300 <= grown_capacity 40 150.
Proof. apply (grown_capacity_bounds 40 150); unfold uint32_max; lia. Defined.
