(* ===== verification/Store.v ===== *)
(** * Store: the keyspace in memory

    The state of the class [Database] of [src/database.cpp] and the functions
    that change it a node at a time: [create_node], [destroy], [link] through
    [erase_node], [commit_node], [insert_node], [grow_node], [maybe_rehash],
    the expiry schedule, [clear_keyspace] and the lookups [find_active] and
    [find_writable].  A node's bytes are in [heap_]; its [next] is in
    [index_], its links are in [lru_], its deadline is in [exp_], each with
    the component that owns the field.  [noexcept] members are functions on
    the state; members that may throw are in the effect monad. *)

From S2P Require Import Prelude Errors Effects Pack WalCodec Wal Allocator Slab Lru Expiry Buckets Node.

(** ** The platform *)

(** [unordered_map] from field to value; its order of iteration is not fixed. *)
Abbreviation HashTable := (gmap bytes Value).

(** What the operating system and the library decide: the bytes in a new
    block, the clocks, read for the [t]-th time, and the order of a table. *)
Class Platform (A : Type) := {
  junk : A -> Z -> Z -> bytes;
  steady_at : nat -> Z;
  wall_at : nat -> Z;
  table_order : nat -> HashTable -> list (bytes * Value);
  junk_len a p n : 0 <= n -> len (junk a p n) = n;
  steady_range t : 0 <= steady_at t < 2 ^ 62;
  wall_range t : 0 <= wall_at t < 2 ^ 62;
  steady_mono t u : (t <= u)%nat -> steady_at t <= steady_at u;
  table_order_perm t m : table_order t m ≡ₚ map_to_list m
}.

(** ** State *)

Record Database (A : Type) := mkDatabase {
  heap_ : gmap Z Node;   (** the nodes in memory, by address *)
  tables_ : gmap Z HashTable;   (** the tables of promoted hashes, by address *)
  alloc_ : A;   (** [memory_] and [pool_] *)
  index_ : Index;   (** [buckets_], and [next] of the nodes *)
  lru_ : Lru;   (** [lru_head_], [lru_tail_], and the links of the nodes *)
  exp_ : Expiries;   (** [expiries_] and [expiry_heap_] *)
  key_total_ : Z;
  max_keys_ : Z;
  tracked_bytes_ : Z;
  ttl_key_count_ : Z;
  evictions_ : Z;
  expired_keys_ : Z;
  sequence_ : Z;
  key_hint_ : Z;
  ttl_hint_ : bool;
  wal_ : option Wal;
  replaying_ : bool;
  time_ : nat   (** how often a clock was read *)
}.

Arguments mkDatabase {A}.
Arguments heap_ {A}.
Arguments tables_ {A}.
Arguments alloc_ {A}.
Arguments index_ {A}.
Arguments lru_ {A}.
Arguments exp_ {A}.
Arguments key_total_ {A}.
Arguments max_keys_ {A}.
Arguments tracked_bytes_ {A}.
Arguments ttl_key_count_ {A}.
Arguments evictions_ {A}.
Arguments expired_keys_ {A}.
Arguments sequence_ {A}.
Arguments key_hint_ {A}.
Arguments ttl_hint_ {A}.
Arguments wal_ {A}.
Arguments replaying_ {A}.
Arguments time_ {A}.

Section setters.
Context {A : Type}.

Definition put_heap (v : gmap Z Node) (db : Database A) : Database A :=
  mkDatabase v (tables_ db) (alloc_ db) (index_ db) (lru_ db) (exp_ db) (key_total_ db) (max_keys_ db)
    (tracked_bytes_ db) (ttl_key_count_ db) (evictions_ db) (expired_keys_ db) (sequence_ db) (key_hint_ db)
    (ttl_hint_ db) (wal_ db) (replaying_ db) (time_ db).
Definition put_tables (v : gmap Z HashTable) (db : Database A) : Database A :=
  mkDatabase (heap_ db) v (alloc_ db) (index_ db) (lru_ db) (exp_ db) (key_total_ db) (max_keys_ db)
    (tracked_bytes_ db) (ttl_key_count_ db) (evictions_ db) (expired_keys_ db) (sequence_ db) (key_hint_ db)
    (ttl_hint_ db) (wal_ db) (replaying_ db) (time_ db).
Definition put_alloc (v : A) (db : Database A) : Database A :=
  mkDatabase (heap_ db) (tables_ db) v (index_ db) (lru_ db) (exp_ db) (key_total_ db) (max_keys_ db)
    (tracked_bytes_ db) (ttl_key_count_ db) (evictions_ db) (expired_keys_ db) (sequence_ db) (key_hint_ db)
    (ttl_hint_ db) (wal_ db) (replaying_ db) (time_ db).
Definition put_index (v : Index) (db : Database A) : Database A :=
  mkDatabase (heap_ db) (tables_ db) (alloc_ db) v (lru_ db) (exp_ db) (key_total_ db) (max_keys_ db)
    (tracked_bytes_ db) (ttl_key_count_ db) (evictions_ db) (expired_keys_ db) (sequence_ db) (key_hint_ db)
    (ttl_hint_ db) (wal_ db) (replaying_ db) (time_ db).
Definition put_lru (v : Lru) (db : Database A) : Database A :=
  mkDatabase (heap_ db) (tables_ db) (alloc_ db) (index_ db) v (exp_ db) (key_total_ db) (max_keys_ db)
    (tracked_bytes_ db) (ttl_key_count_ db) (evictions_ db) (expired_keys_ db) (sequence_ db) (key_hint_ db)
    (ttl_hint_ db) (wal_ db) (replaying_ db) (time_ db).
Definition put_exp (v : Expiries) (db : Database A) : Database A :=
  mkDatabase (heap_ db) (tables_ db) (alloc_ db) (index_ db) (lru_ db) v (key_total_ db) (max_keys_ db)
    (tracked_bytes_ db) (ttl_key_count_ db) (evictions_ db) (expired_keys_ db) (sequence_ db) (key_hint_ db)
    (ttl_hint_ db) (wal_ db) (replaying_ db) (time_ db).
Definition put_key_total (v : Z) (db : Database A) : Database A :=
  mkDatabase (heap_ db) (tables_ db) (alloc_ db) (index_ db) (lru_ db) (exp_ db) v (max_keys_ db)
    (tracked_bytes_ db) (ttl_key_count_ db) (evictions_ db) (expired_keys_ db) (sequence_ db) (key_hint_ db)
    (ttl_hint_ db) (wal_ db) (replaying_ db) (time_ db).
Definition put_tracked (v : Z) (db : Database A) : Database A :=
  mkDatabase (heap_ db) (tables_ db) (alloc_ db) (index_ db) (lru_ db) (exp_ db) (key_total_ db)
    (max_keys_ db) v (ttl_key_count_ db) (evictions_ db) (expired_keys_ db) (sequence_ db) (key_hint_ db)
    (ttl_hint_ db) (wal_ db) (replaying_ db) (time_ db).
Definition put_ttl_count (v : Z) (db : Database A) : Database A :=
  mkDatabase (heap_ db) (tables_ db) (alloc_ db) (index_ db) (lru_ db) (exp_ db) (key_total_ db)
    (max_keys_ db) (tracked_bytes_ db) v (evictions_ db) (expired_keys_ db) (sequence_ db) (key_hint_ db)
    (ttl_hint_ db) (wal_ db) (replaying_ db) (time_ db).
Definition put_evictions (v : Z) (db : Database A) : Database A :=
  mkDatabase (heap_ db) (tables_ db) (alloc_ db) (index_ db) (lru_ db) (exp_ db) (key_total_ db)
    (max_keys_ db) (tracked_bytes_ db) (ttl_key_count_ db) v (expired_keys_ db) (sequence_ db)
    (key_hint_ db) (ttl_hint_ db) (wal_ db) (replaying_ db) (time_ db).
Definition put_expired_keys (v : Z) (db : Database A) : Database A :=
  mkDatabase (heap_ db) (tables_ db) (alloc_ db) (index_ db) (lru_ db) (exp_ db) (key_total_ db)
    (max_keys_ db) (tracked_bytes_ db) (ttl_key_count_ db) (evictions_ db) v (sequence_ db) (key_hint_ db)
    (ttl_hint_ db) (wal_ db) (replaying_ db) (time_ db).
Definition put_sequence (v : Z) (db : Database A) : Database A :=
  mkDatabase (heap_ db) (tables_ db) (alloc_ db) (index_ db) (lru_ db) (exp_ db) (key_total_ db)
    (max_keys_ db) (tracked_bytes_ db) (ttl_key_count_ db) (evictions_ db) (expired_keys_ db) v
    (key_hint_ db) (ttl_hint_ db) (wal_ db) (replaying_ db) (time_ db).
Definition put_key_hint (v : Z) (db : Database A) : Database A :=
  mkDatabase (heap_ db) (tables_ db) (alloc_ db) (index_ db) (lru_ db) (exp_ db) (key_total_ db)
    (max_keys_ db) (tracked_bytes_ db) (ttl_key_count_ db) (evictions_ db) (expired_keys_ db) (sequence_ db)
    v (ttl_hint_ db) (wal_ db) (replaying_ db) (time_ db).
Definition put_ttl_hint (v : bool) (db : Database A) : Database A :=
  mkDatabase (heap_ db) (tables_ db) (alloc_ db) (index_ db) (lru_ db) (exp_ db) (key_total_ db)
    (max_keys_ db) (tracked_bytes_ db) (ttl_key_count_ db) (evictions_ db) (expired_keys_ db) (sequence_ db)
    (key_hint_ db) v (wal_ db) (replaying_ db) (time_ db).
Definition put_wal (v : option Wal) (db : Database A) : Database A :=
  mkDatabase (heap_ db) (tables_ db) (alloc_ db) (index_ db) (lru_ db) (exp_ db) (key_total_ db)
    (max_keys_ db) (tracked_bytes_ db) (ttl_key_count_ db) (evictions_ db) (expired_keys_ db) (sequence_ db)
    (key_hint_ db) (ttl_hint_ db) v (replaying_ db) (time_ db).
Definition put_replaying (v : bool) (db : Database A) : Database A :=
  mkDatabase (heap_ db) (tables_ db) (alloc_ db) (index_ db) (lru_ db) (exp_ db) (key_total_ db)
    (max_keys_ db) (tracked_bytes_ db) (ttl_key_count_ db) (evictions_ db) (expired_keys_ db) (sequence_ db)
    (key_hint_ db) (ttl_hint_ db) (wal_ db) v (time_ db).
Definition put_time (v : nat) (db : Database A) : Database A :=
  mkDatabase (heap_ db) (tables_ db) (alloc_ db) (index_ db) (lru_ db) (exp_ db) (key_total_ db)
    (max_keys_ db) (tracked_bytes_ db) (ttl_key_count_ db) (evictions_ db) (expired_keys_ db) (sequence_ db)
    (key_hint_ db) (ttl_hint_ db) (wal_ db) (replaying_ db) v.

End setters.

(** ** Operations *)

Section ops.

Context {A : Type} `{NodeAllocator A} `{!Platform A}.

(** The node at an address. *)
Definition null_node : Node := mkNode 0 0 [].
Definition node_at (db : Database A) (a : Z) : Node := default null_node (heap_ db !! a).
Definition key_at (db : Database A) (a : Z) : bytes := node_key (node_at db a).
Definition change_node (a : Z) (f : Node -> Node) (db : Database A) : Database A :=
  put_heap (alter f a (heap_ db)) db.

(** A member call on [memory_] or [pool_]. *)
Definition on_alloc {R} (m : M A R) : M (Database A) R := zoom alloc_ put_alloc m.

Definition bump_sequence (db : Database A) : Database A := put_sequence (u64 (sequence_ db + 1)) db.
Definition set_key_total (n : Z) (db : Database A) : Database A := put_key_hint n (put_key_total n db).

Definition has_flag (flag : Z) (n : Node) : bool := negb (Z.land (node_flags n) flag =? 0).
Definition is_promoted (n : Node) : bool :=
  bool_decide (node_type n = type_hash) && has_flag flag_hash_promoted n.

(** [sizeof(HashTable)]. *)
Definition sizeof_HashTable : Z := 64.

(** [HashDelete]. *)
Definition delete_table (t : Z) (db : Database A) : Database A :=
  put_alloc (al_give t sizeof_HashTable (al_return (alloc_ db))) (put_tables (delete t (tables_ db)) db).

Definition now_ms : M (Database A) Z := fun db =>
  (inr (steady_at (time_ db)), put_time (S (time_ db)) db).
Definition current_unix_ms : M (Database A) Z := fun db =>
  (inr (wall_at (time_ db)), put_time (S (time_ db)) db).

Definition log (op : WalOp) (args : list bytes) : M (Database A) unit := fun db =>
  match wal_ db with
  | Some w =>
      if replaying_ db then ret tt db else
      let '(r, w) := append op args w in (r, put_wal (Some w) db)
  | None => ret tt db
  end.

(** A call on [wal_], when there is one. *)
Definition on_wal_ (m : M Wal unit) : M (Database A) unit := fun db =>
  match wal_ db with
  | Some w => let '(r, w) := m w in (r, put_wal (Some w) db)
  | None => ret tt db
  end.
Definition begin_wal_batch : M (Database A) unit := on_wal_ begin_batch.
Definition end_wal_batch : M (Database A) unit := on_wal_ end_batch.
Definition flush_wal : M (Database A) unit := on_wal_ flush.

(** [wal_->reserve_record], when records are written. *)
Definition reserve_log (n : Z) : M (Database A) unit :=
  let! db := Effects.get in
  if replaying_ db then ret tt else on_wal_ (reserve_record n).

Definition find_node (key : bytes) (db : Database A) : Z := Buckets.find_node (key_at db) key (index_ db).
Definition touch (node : Z) (db : Database A) : Database A := put_lru (Lru.touch node (lru_ db)) db.
Definition unlink_lru (node : Z) (db : Database A) : Database A := put_lru (Lru.unlink_lru node (lru_ db)) db.
Definition link (node : Z) (db : Database A) : Database A := put_index (Buckets.link (key_at db) node (index_ db)) db.
Definition unlink (node : Z) (db : Database A) : Database A :=
  put_index (Buckets.unlink (key_at db) node (index_ db)) db.

Definition clear_expiry (node : Z) (db : Database A) : Database A :=
  let '(found, X) := Expiry.clear_expiry node (exp_ db) in
  if found then
    let db := put_exp X db in
    let db := change_node node (fun n => set_flags (Z.land (node_flags n) (Z.lnot flag_has_ttl)) n) db in
    let size := len (expiry_heap_ (exp_ db)) in
    put_ttl_hint (negb (size =? 0)) (put_ttl_count size db)
  else db.

Definition schedule_expiry (node deadline : Z) : M (Database A) unit :=
  let! db := get in
  do! when (bool_decide (expiries_ (exp_ db) !! node = None))
        (do! when (must_reserve node (exp_ db))
               (do! on_alloc al_container in modify (fun db => put_exp (reserve_heap (exp_ db)) db)) in
         on_alloc al_container) in
  do! modify (fun db => put_exp (Expiry.schedule_expiry node deadline (exp_ db)) db) in
  do! modify (change_node node (fun n => set_flags (Z.lor (node_flags n) flag_has_ttl) n)) in
  modify (fun db => put_ttl_hint true (put_ttl_count (len (expiry_heap_ (exp_ db))) db)).

(** The end of a node: its memory and the fields in it are gone. *)
Definition free_node (node block : Z) (db : Database A) : Database A :=
  let db := put_alloc (al_deallocate node block (alloc_ db)) db in
  let db := put_heap (delete node (heap_ db)) db in
  let db := put_index (forget_next node (index_ db)) db in
  put_lru (forget node (lru_ db)) db.

Definition destroy (node : Z) (db : Database A) : Database A :=
  let n := node_at db node in
  let db := if is_promoted n then delete_table (promoted_hash n) db else db in
  let block := node_block_size n in
  let db := put_tracked (u64 (tracked_bytes_ db - block)) db in
  free_node node block db.

Definition erase_node (node : Z) (db : Database A) : Database A :=
  let db := clear_expiry node db in
  let db := unlink_lru node db in
  let db := unlink node db in
  let db := set_key_total (u64 (key_total_ db - 1)) db in
  let db := destroy node db in
  bump_sequence db.

(** A node that is not the keyspace's yet enters it. *)
Definition attach (node : Z) (db : Database A) : Database A :=
  bump_sequence (set_key_total (u64 (key_total_ db + 1)) (touch node (link node db))).

(** The deadline of the old node passes to the new one.  [old] is the null
    pointer when there is no such node. *)
Definition carry_ttl (old fresh : Z) (keep_ttl : bool) (db : Database A) : Database A :=
  if nonnull old && keep_ttl && has_flag flag_has_ttl (node_at db old) then
    let db := put_exp (move_expiry old fresh (exp_ db)) db in
    change_node fresh (fun n => set_flags (Z.lor (node_flags n) flag_has_ttl) n) db
  else db.

Definition commit_node (old fresh : Z) (keep_ttl : bool) (db : Database A) : Database A :=
  let db := carry_ttl old fresh keep_ttl db in
  let db := if nonnull old then erase_node old db else db in
  attach fresh db.

(** A block with a node in it: the words of the header that are null at first. *)
Definition place_node (node : Z) (n : Node) (db : Database A) : Database A :=
  let db := put_heap (<[node := n]> (heap_ db)) db in
  let db := put_index (set_next_of node 0 (index_ db)) db in
  put_lru (detached node (lru_ db)) db.

Definition create_node (key : bytes) (type : NodeType) (body_capacity : Z) : M (Database A) Z :=
  match block_layout (len key) body_capacity with
  | None => throw exn_bad_alloc
  | Some (size_class, block) =>
      let! node := on_alloc (al_allocate block) in
      let! db := get in
      let raw := junk (alloc_ db) node (block - sizeof_Node) in
      let n := mkNode (make_key_meta (len key) type 0 size_class) 0 (init_block key size_class block raw) in
      do! modify (place_node node n) in
      do! modify (fun db => put_tracked (u64 (tracked_bytes_ db + block)) db) in
      ret node
  end.

Definition maybe_rehash : M (Database A) unit :=
  let! db := get in
  if must_rehash (key_total_ db) (index_ db) then
    do! on_alloc al_container in
    do! modify (fun db => put_index (rehash (key_at db) (length (buckets_ (index_ db)) * 2) (index_ db)) db) in
    modify (fun db => put_alloc (al_return (alloc_ db)) db)
  else ret tt.

Definition insert_node (key : bytes) (type : NodeType) (body_capacity : Z) : M (Database A) Z :=
  do! maybe_rehash in
  let! node := create_node key type body_capacity in
  do! modify (attach node) in
  ret node.

(** The copy [grow_node] makes, in a block that held [raw]. *)
Definition copy_node (n : Node) (size_class block : Z) (raw : bytes) : Node :=
  let fresh := mkNode (make_key_meta (node_key_length n) (node_type n) (node_flags n) size_class) (count n)
                 (init_block (node_key n) size_class block raw) in
  let copy := Z.min (node_body_capacity n) (node_body_capacity fresh) in
  if copy =? 0 then fresh else write_body 0 (read_at 0 copy (node_body n)) fresh.

Definition grow_node (node new_body_capacity : Z) : M (Database A) Z :=
  let! db := get in
  let n := node_at db node in
  match block_layout (node_key_length n) new_body_capacity with
  | None => throw exn_bad_alloc
  | Some (size_class, block) =>
      let! fresh := on_alloc (al_allocate block) in
      do! modify (fun db =>
            let m := copy_node n size_class block (junk (alloc_ db) fresh (block - sizeof_Node)) in
            put_heap (<[fresh := m]> (heap_ db)) db) in
      do! modify (fun db => put_lru (splice node fresh (lru_ db)) db) in
      do! when (has_flag flag_has_ttl n) (modify (fun db => put_exp (move_expiry node fresh (exp_ db)) db)) in
      do! modify (fun db => put_index (relink (key_at db) node fresh (index_ db)) db) in
      do! modify (fun db => put_tracked (u64 (tracked_bytes_ db - node_block_size n)) db) in
      do! modify (fun db => put_tracked (u64 (tracked_bytes_ db + block)) db) in
      do! modify (free_node node (node_block_size n)) in
      do! modify bump_sequence in
      ret fresh
  end.

(** The chain of one bucket, for [clear_keyspace]. *)
Fixpoint destroy_chain (fuel : nat) (node : Z) (db : Database A) : Database A :=
  match fuel with
  | O => db
  | S fuel =>
      if node =? 0 then db else
      let next := next_of (index_ db) node in
      destroy_chain fuel next (destroy node db)
  end.

Definition clear_keyspace (db : Database A) : Database A :=
  let fuel := chain_fuel (index_ db) in
  let db := fold_left (fun db i =>
      let db := destroy_chain fuel (bucket_at (index_ db) i) db in
      put_index (set_bucket i 0 (index_ db)) db) (seq 0 (length (buckets_ (index_ db)))) db in
  let db := put_lru (mkLru 0 0 (links (lru_ db))) db in
  let db := put_ttl_count 0 (put_key_total 0 db) in
  let db := put_exp (mkExpiries ∅ [] (heap_capacity_ (exp_ db))) db in
  let db := put_alloc (al_return (alloc_ db)) db in
  let db := put_ttl_hint false (put_key_hint 0 db) in
  bump_sequence db.

(** [Database::Database], over [memory_] and [pool_]: the vector of buckets is
    the only memory asked for. *)
Definition new_database (memory : A) (max_keys : Z) : (exn + Database A) * A :=
  match al_container memory with
  | (inl e, a) => (inl e, a)
  | (inr _, a) =>
      (inr (mkDatabase ∅ ∅ a new_index (mkLru 0 0 ∅) (mkExpiries ∅ [] 0) 0 (if max_keys =? 0 then 1 else max_keys)
              0 0 0 0 0 0 false None false 0), a)
  end.

(** [expiries_.find(node)], its deadline. *)
Definition deadline_of (node : Z) (db : Database A) : option Z := fst <$> expiries_ (exp_ db) !! node.

Definition find_active (key : bytes) : M (Database A) Z :=
  let! node := gets (find_node key) in
  if node =? 0 then ret 0 else
  let! db := get in
  let! gone :=
    (if has_flag flag_has_ttl (node_at db node) then
       match deadline_of node db with
       | Some deadline => let! now := now_ms in ret ((deadline <=? now) && negb (replaying_ db))
       | None => ret false
       end
     else ret false) in
  if (gone : bool) then ret 0 else
  do! modify (touch node) in ret node.

Definition find_writable (key : bytes) : M (Database A) Z :=
  if max_key_length <? len key then throw (exn_error request_too_large) else
  let! node := gets (find_node key) in
  let! db := get in
  let! gone :=
    (if nonnull node && negb (replaying_ db) && has_flag flag_has_ttl (node_at db node) then
       match deadline_of node db with
       | Some deadline => let! now := now_ms in ret (deadline <=? now)
       | None => ret false
       end
     else ret false) in
  if (gone : bool) then
    do! log op_del [key] in
    do! modify (erase_node node) in
    do! modify (fun db => put_expired_keys (u64 (expired_keys_ db + 1)) db) in
    ret 0
  else
    do! when (nonnull node) (modify (touch node)) in
    ret node.

End ops.
