(* ===== verification/Keyspace.v ===== *)
(** * Keyspace: what the store holds

    The invariant of the database's memory and the effect of each function of
    [Store] on it.  [store_inv db idx order pend loose] says that the state is
    well formed: [idx] maps each key to its node, [order] lists the nodes from
    the most to the least recently used, [pend] are nodes not yet committed
    and [loose] are tables not yet owned by a node.  Every node is well
    formed, marked when it has a deadline, and known to the allocator with
    its size; every table has one owner; the counters are right. *)

From S2P Require Import Prelude Errors Effects Pack WalCodec Wal Allocator Slab Lru Expiry Buckets Node Store.

(** The table of a promoted hash. *)
Definition table_of (n : Node) : option Z := if is_promoted n then Some (promoted_hash n) else None.

(** The parts of a node the rest of the store depends on, its marks apart. *)
Definition same_face (n n' : Node) : Prop :=
  node_key n' = node_key n /\ node_block_size n' = node_block_size n /\ table_of n' = table_of n.

(** What a change of flags keeps. *)
Lemma set_flags_keeps n f :
  node_wf n -> 0 <= f < 4 -> Z.testbit f 0 = Z.testbit (node_flags n) 0 ->
  let n' := set_flags f n in
  node_wf n' /\ same_face n n' /\ same_shape n n' /\ node_flags n' = f /\
  has_flag flag_hash_promoted n' = has_flag flag_hash_promoted n /\ node_type n' = node_type n /\ count n' = count n.
Proof.
  intros Hw Hf Hb n'. destruct (set_flags_wf f n Hw Hf) as [Hw' Hs]. fold n' in Hw', Hs.
  destruct (set_flags_is n _ _ _ _ f (conj eq_refl (conj eq_refl (conj eq_refl eq_refl))) Hf) as (E1 & E2 & E3 & E4).
  fold n' in E1, E2, E3, E4. destruct (same_shape_views _ _ Hs) as (Ek & Eb & Es & _).
  assert (has_flag flag_hash_promoted n' = has_flag flag_hash_promoted n) as Hp.
  { unfold has_flag, flag_hash_promoted. rewrite E3. change 1 with (Z.ones 1). rewrite !Z.land_ones by lia.
    change (2 ^ 1) with 2. rewrite <- !Z.bit0_mod, Hb. done. }
  assert (table_of n' = table_of n) as Et.
  { unfold table_of, is_promoted, promoted_hash. by rewrite Hp, E2, Eb. }
  split_and!; try assumption; [by split_and!|done].
Qed.

Lemma flag_cases n : node_flags n = 0 \/ node_flags n = 1 \/ node_flags n = 2 \/ node_flags n = 3.
Proof. destruct (meta_range n) as (_ & Hf & _). lia. Qed.

(** Clearing and setting the mark of a deadline. *)
Lemma clear_mark n :
  node_wf n -> let n' := set_flags (Z.land (node_flags n) (Z.lnot flag_has_ttl)) n in
  node_wf n' /\ same_face n n' /\ same_shape n n' /\ has_flag flag_has_ttl n' = false /\
  has_flag flag_hash_promoted n' = has_flag flag_hash_promoted n /\ node_type n' = node_type n /\ count n' = count n.
Proof.
  intros Hw n'. set (f := Z.land (node_flags n) (Z.lnot flag_has_ttl)) in *.
  assert (0 <= f < 4 /\ Z.testbit f 0 = Z.testbit (node_flags n) 0 /\ Z.land f flag_has_ttl = 0) as (Hf & Hb & H0).
  { unfold f. destruct (flag_cases n) as [->|[->|[->| ->]]]; vm_compute; repeat split; discriminate. }
  destruct (set_flags_keeps n f Hw Hf Hb) as (? & ? & ? & E & ? & ? & ?). split_and!; try done.
  unfold n', has_flag. by rewrite E, H0.
Qed.

Lemma set_mark n :
  node_wf n -> let n' := set_flags (Z.lor (node_flags n) flag_has_ttl) n in
  node_wf n' /\ same_face n n' /\ same_shape n n' /\ has_flag flag_has_ttl n' = true /\
  has_flag flag_hash_promoted n' = has_flag flag_hash_promoted n /\ node_type n' = node_type n /\ count n' = count n.
Proof.
  intros Hw n'. set (f := Z.lor (node_flags n) flag_has_ttl) in *.
  assert (0 <= f < 4 /\ Z.testbit f 0 = Z.testbit (node_flags n) 0 /\ Z.land f flag_has_ttl = 2) as (Hf & Hb & H0).
  { unfold f. destruct (flag_cases n) as [->|[->|[->| ->]]]; vm_compute; repeat split; discriminate. }
  destruct (set_flags_keeps n f Hw Hf Hb) as (? & ? & ? & E & ? & ? & ?). split_and!; try done.
  unfold n', has_flag. by rewrite E, H0.
Qed.

(** A node of which only the marks of flags the contents do not use changed. *)
Definition remarked (n n' : Node) : Prop :=
  same_face n n' /\ same_shape n n' /\ has_flag flag_hash_promoted n' = has_flag flag_hash_promoted n /\
  node_type n' = node_type n /\ count n' = count n.

Lemma remarked_refl n : remarked n n.
Proof. repeat split. Qed.

Section inv.

Context {A : Type} `{NodeAllocator A}.

Record store_core (db : Database A) (idx : gmap bytes Z) (order : list Z) (pend loose : gset Z) : Prop := {
  si_index : index_ok (key_at db) (index_ db) idx;
  si_lru : lru_rep (lru_ db) order;
  si_order a : a ∈ order <-> idx !! key_at db a = Some a;
  si_nodes a : is_Some (heap_ db !! a) <-> a ∈ order \/ a ∈ pend;
  si_pend a : a ∈ pend -> (a ∉ order) /\ a <> 0;
  si_wf a n : heap_ db !! a = Some n -> node_wf n;
  si_alloc : al_ok (alloc_ db);
  si_live : al_live (alloc_ db) = node_block_size <$> heap_ db;
  si_taken : al_taken (alloc_ db) = (fun _ => sizeof_HashTable) <$> tables_ db;
  si_table a n t : heap_ db !! a = Some n -> table_of n = Some t -> is_Some (tables_ db !! t) /\ (t ∉ loose);
  si_owner a b n m t : heap_ db !! a = Some n -> heap_ db !! b = Some m ->
    table_of n = Some t -> table_of m = Some t -> a = b;
  si_owned t : is_Some (tables_ db !! t) <->
    t ∈ loose \/ exists a n, heap_ db !! a = Some n /\ table_of n = Some t;
  si_total : key_total_ db = u64 (len order);
  si_hint : key_hint_ db = key_total_ db;
  si_tracked : tracked_bytes_ db = u64 (total (al_live (alloc_ db)))
}.

(** Deadlines belong to nodes in the list, which are marked. *)
Record store_expiry (db : Database A) (order : list Z) : Prop := {
  si_exp : exp_ok (exp_ db);
  si_flag a n : heap_ db !! a = Some n ->
    has_flag flag_has_ttl n = bool_decide (is_Some (deadlines (exp_ db) !! a));
  si_deadlines a : is_Some (deadlines (exp_ db) !! a) -> a ∈ order;
  si_ttl_count : ttl_key_count_ db = len (expiry_heap_ (exp_ db));
  si_ttl_hint : ttl_hint_ db = negb (len (expiry_heap_ (exp_ db)) =? 0)
}.

Definition store_inv (db : Database A) (idx : gmap bytes Z) (order : list Z) (pend loose : gset Z) : Prop :=
  store_core db idx order pend loose /\ store_expiry db order.

(** ** Lookups *)

Lemma node_at_lookup (db : Database A) a n : heap_ db !! a = Some n -> node_at db a = n.
Proof. intros E. unfold node_at. by rewrite E. Qed.

Lemma key_at_lookup (db : Database A) a n : heap_ db !! a = Some n -> key_at db a = node_key n.
Proof. intros E. unfold key_at. by rewrite (node_at_lookup _ _ _ E). Qed.

Section facts.

Context (db : Database A) (idx : gmap bytes Z) (order : list Z) (pend loose : gset Z).
Context (HI : store_core db idx order pend loose).

Lemma find_node_eq k : find_node k db = default 0 (idx !! k).
Proof. unfold find_node. apply index_ok_find, HI. Qed.

Lemma idx_key k a : idx !! k = Some a -> key_at db a = k.
Proof. destruct (si_index _ _ _ _ _ HI) as (? & _ & _ & Hk). apply Hk. Qed.

Lemma idx_order k a : idx !! k = Some a -> a ∈ order.
Proof. intros E. apply (si_order _ _ _ _ _ HI). by rewrite (idx_key _ _ E). Qed.

Lemma order_node a : a ∈ order -> exists n, heap_ db !! a = Some n.
Proof. intros Ha. apply (si_nodes _ _ _ _ _ HI). by left. Qed.

Lemma idx_node k a : idx !! k = Some a -> exists n, heap_ db !! a = Some n /\ node_key n = k /\ a <> 0.
Proof.
  intros E. destruct (order_node a (idx_order _ _ E)) as [n En]. exists n. split_and!; [done| |].
  - by rewrite <- (key_at_lookup _ _ _ En), (idx_key _ _ E).
  - by eapply index_ok_nonnull; [apply HI|].
Qed.

Lemma order_nonnull a : a ∈ order -> a <> 0.
Proof. intros Ha ->. by apply (lr_nonnull _ _ (si_lru _ _ _ _ _ HI)). Qed.

Lemma order_heap a : a ∈ order -> heap_ db !! a = Some (node_at db a).
Proof. intros Ha. destruct (order_node a Ha) as [n En]. by rewrite (node_at_lookup _ _ _ En). Qed.

Lemma fresh_address p : al_live (alloc_ db) !! p = None -> heap_ db !! p = None /\ (p ∉ order) /\ (p ∉ pend).
Proof.
  rewrite (si_live _ _ _ _ _ HI), lookup_fmap, fmap_None. intros E. split; [done|].
  pose proof (si_nodes _ _ _ _ _ HI p) as Hn. rewrite E in Hn. split; intros Hp.
  - destruct (proj2 Hn (or_introl Hp)). done.
  - destruct (proj2 Hn (or_intror Hp)). done.
Qed.

(** ** Recency *)

Lemma touch_core a :
  a ∈ order -> store_core (touch a db) idx (a :: filter (fun b => b <> a) order) pend loose.
Proof.
  intros Ha. pose proof (order_nonnull a Ha) as Ha0.
  assert (forall b, b ∈ a :: filter (fun b => b <> a) order <-> b ∈ order) as Hin.
  { intros b. rewrite elem_of_cons, list_elem_of_filter. destruct (decide (b = a)) as [->|]; intuition congruence. }
  assert (len (a :: filter (fun b => b <> a) order) = len order) as El.
  { unfold len. f_equal. apply Permutation_length. apply NoDup_Permutation; [|apply (lr_nodup _ _ (si_lru _ _ _ _ _ HI))|done].
    apply NoDup_cons. split; [rewrite list_elem_of_filter; by intros [[] _]|].
    apply NoDup_filter, (lr_nodup _ _ (si_lru _ _ _ _ _ HI)). }
  destruct HI. constructor; simpl; try assumption.
  - by apply touch_rep.
  - intros b. rewrite Hin. apply si_order0.
  - intros b. rewrite Hin. apply si_nodes0.
  - intros b. rewrite Hin. apply si_pend0.
  - by rewrite El.
Qed.

(** ** Changing a node in place *)

Lemma replace_keys a n n' (db' : Database A) :
  heap_ db !! a = Some n -> node_key n' = node_key n -> heap_ db' = <[a := n']> (heap_ db) ->
  forall b, key_at db' b = key_at db b.
Proof.
  intros Ea Ek Eh b. unfold key_at, node_at. rewrite Eh.
  destruct (decide (b = a)) as [->|Hne]; [by rewrite lookup_insert_eq, Ea|by rewrite lookup_insert_ne].
Qed.

(** A node may change if its face stays. *)
Lemma replace_node_core a n n' :
  heap_ db !! a = Some n -> node_wf n' -> same_face n n' ->
  store_core (put_heap (<[a := n']> (heap_ db)) db) idx order pend loose.
Proof.
  intros Ea Hw (Ek & Es & Et). set (db' := put_heap _ db).
  assert (forall b, key_at db' b = key_at db b) as Hkey by (by eapply replace_keys).
  assert (node_block_size <$> <[a := n']> (heap_ db) = node_block_size <$> heap_ db) as Esz.
  { rewrite fmap_insert, Es. apply insert_id. by rewrite lookup_fmap, Ea. }
  assert (forall b m, <[a := n']> (heap_ db) !! b = Some m ->
    exists m0, heap_ db !! b = Some m0 /\ table_of m = table_of m0) as Hold.
  { intros b m E. apply lookup_insert_Some in E as [[<- <-]|[Hne E]]; [by exists n|]. exists m. done. }
  destruct HI. constructor; simpl; try assumption.
  - eapply index_ok_ext; [done|]. intros k b Hb. rewrite Hkey. by apply idx_key.
  - intros b. rewrite Hkey. apply si_order0.
  - intros b. rewrite <- si_nodes0. destruct (decide (b = a)) as [->|Hne];
      [by rewrite lookup_insert_eq, Ea|by rewrite lookup_insert_ne].
  - intros b m E. apply lookup_insert_Some in E as [[<- <-]|[Hne E]]; [done|by eapply si_wf0].
  - by rewrite Esz.
  - intros b m t E. destruct (Hold _ _ E) as (m0 & E0 & ->). by apply (si_table0 b).
  - intros b c m k t E1 E2. destruct (Hold _ _ E1) as (m0 & E3 & ->). destruct (Hold _ _ E2) as (k0 & E4 & ->).
    by apply (si_owner0 b c m0 k0).
  - intros t. rewrite si_owned0. f_equiv. split.
    + intros (b & m & E & E'). destruct (decide (b = a)) as [->|Hne].
      * exists a, n'. rewrite lookup_insert_eq, Et. split; [done|congruence].
      * exists b, m. by rewrite lookup_insert_ne.
    + intros (b & m & E & E'). destruct (Hold _ _ E) as (m0 & E0 & E1). exists b, m0. split; [done|congruence].
Qed.

(** Fields the invariant does not read. *)
Lemma core_frame (db' : Database A) :
  heap_ db' = heap_ db -> tables_ db' = tables_ db -> alloc_ db' = alloc_ db -> index_ db' = index_ db ->
  lru_ db' = lru_ db -> key_total_ db' = key_total_ db -> key_hint_ db' = key_hint_ db ->
  tracked_bytes_ db' = tracked_bytes_ db -> store_core db' idx order pend loose.
Proof.
  intros E1 E2 E3 E4 E5 E6 E7 E8. destruct HI.
  assert (forall b, key_at db' b = key_at db b) as Hk by (intros b; unfold key_at, node_at; by rewrite E1).
  constructor; rewrite ?E1, ?E2, ?E3, ?E4, ?E5, ?E6, ?E7, ?E8; try assumption.
  - eapply index_ok_ext; [done|]. intros k b Hb. rewrite Hk. by apply idx_key.
  - intros b. rewrite Hk. apply si_order0.
Qed.

(** The allocator moves on, with the same blocks. *)
Lemma alloc_kept_core a' :
  al_ok a' -> al_live a' = al_live (alloc_ db) -> al_taken a' = al_taken (alloc_ db) ->
  store_core (put_alloc a' db) idx order pend loose.
Proof.
  intros Hok El Et. destruct HI. constructor; simpl; try assumption; rewrite ?El, ?Et; assumption.
Qed.

(** ** The end of a node *)

Lemma len_order_filter a : a ∈ order -> len order = len (filter (fun b => b <> a) order) + 1.
Proof.
  intros Ha. pose proof (lr_nodup _ _ (si_lru _ _ _ _ _ HI)) as Hnd.
  apply list_elem_of_split in Ha as (l1 & l2 & ->). destruct (NoDup_around _ _ _ Hnd) as [-> _].
  rewrite !len_app, len_cons. lia.
Qed.

(** Taken out of the list and the index, a node is only memory. *)
Lemma detach_core a :
  a ∈ order ->
  store_core (set_key_total (u64 (key_total_ db - 1)) (unlink a (unlink_lru a db)))
    (delete (key_at db a) idx) (filter (fun b => b <> a) order) ({[a]} ∪ pend) loose.
Proof.
  intros Ha. pose proof (order_nonnull a Ha) as Ha0. pose proof (len_order_filter a Ha) as El.
  pose proof (lr_nodup _ _ (si_lru _ _ _ _ _ HI)) as Hnd. pose proof (proj1 (si_order _ _ _ _ _ HI a) Ha) as Hi.
  assert (forall b, b ∈ filter (fun b => b <> a) order <-> b <> a /\ b ∈ order) as Hin
    by (intros b; by rewrite list_elem_of_filter).
  destruct HI. constructor; simpl; try assumption.
  - by apply index_ok_unlink.
  - apply list_elem_of_split in Ha as (l1 & l2 & ->). destruct (NoDup_around _ _ _ Hnd) as [-> _].
    by apply unlink_lru_rep.
  - intros b. rewrite Hin, si_order0. change (key_at _ b) with (key_at db b). split.
    + intros [Hne Hb]. rewrite lookup_delete_ne; [done|]. intros E. rewrite E in Hi. congruence.
    + intros Hb. apply lookup_delete_Some in Hb as [Hne Hb]. split; [|done]. by intros ->.
  - intros b. rewrite Hin, elem_of_union, elem_of_singleton, si_nodes0.
    destruct (decide (b = a)) as [->|]; intuition congruence.
  - intros b. rewrite Hin, elem_of_union, elem_of_singleton. intros [->|Hb]; [split; [by intros []|done]|].
    destruct (si_pend0 b Hb). split; [by intros []|done].
  - rewrite si_total0, El, u64_sub. f_equal. lia.
  - reflexivity.
Qed.

Lemma total_insert (m : gmap Z Z) p n : m !! p = None -> total (<[p := n]> m) = total m + n.
Proof.
  intros E. unfold total. rewrite map_to_list_insert by done.
  change (n + zsum (map_to_list m).*2 = zsum (map_to_list m).*2 + n). lia.
Qed.

Lemma total_delete (m : gmap Z Z) p n : m !! p = Some n -> total (delete p m) = total m - n.
Proof.
  intros E. rewrite <- (insert_delete_id m p n E) at 2. rewrite total_insert by apply lookup_delete_eq. lia.
Qed.

(** What [destroy] does to the tables and the allocator. *)
Lemma destroy_memory a n :
  a ∈ pend -> heap_ db !! a = Some n ->
  let db' := destroy a db in
  al_ok (alloc_ db') /\ al_live (alloc_ db') = delete a (al_live (alloc_ db)) /\
  tables_ db' = from_option (fun t => delete t (tables_ db)) (tables_ db) (table_of n) /\
  al_taken (alloc_ db') = (fun _ => sizeof_HashTable) <$> tables_ db'.
Proof.
  intros Ha Ea db'. unfold db', destroy. rewrite (node_at_lookup _ _ _ Ea).
  assert (al_live (alloc_ db) !! a = Some (node_block_size n)) as Elive.
  { by rewrite (si_live _ _ _ _ _ HI), lookup_fmap, Ea. }
  pose proof (si_table _ _ _ _ _ HI a n) as Ht. unfold table_of in *.
  destruct (is_promoted n); cbn [from_option].
  - destruct (Ht _ Ea eq_refl) as [[m Em] _].
    destruct (al_return_spec _ (si_alloc _ _ _ _ _ HI)) as (Hr & Erl & Ert).
    destruct (al_give_spec (promoted_hash n) sizeof_HashTable _ Hr) as (Hg & Egt & Egl).
    { by rewrite Ert, (si_taken _ _ _ _ _ HI), lookup_fmap, Em. }
    destruct (al_deallocate_spec a (node_block_size n) _ Hg) as (Hd & Edl & Edt); [congruence|].
    simpl. rewrite Edl, Edt, Egt, Egl, Erl, Ert, (si_taken _ _ _ _ _ HI), fmap_delete. conjuncts; reflexivity.
  - destruct (al_deallocate_spec _ _ _ (si_alloc _ _ _ _ _ HI) Elive) as (Hok & El & Etk).
    simpl. rewrite El, Etk, (si_taken _ _ _ _ _ HI). conjuncts; reflexivity.
Qed.

Lemma destroy_fields a :
  let db' := destroy a db in
  heap_ db' = delete a (heap_ db) /\ index_ db' = forget_next a (index_ db) /\ lru_ db' = forget a (lru_ db) /\
  exp_ db' = exp_ db /\ key_total_ db' = key_total_ db /\ key_hint_ db' = key_hint_ db /\
  ttl_key_count_ db' = ttl_key_count_ db /\ ttl_hint_ db' = ttl_hint_ db /\
  tracked_bytes_ db' = u64 (tracked_bytes_ db - node_block_size (node_at db a)).
Proof. unfold destroy. destruct (is_promoted _); conjuncts; reflexivity. Qed.

(** A node that is only memory goes, and its table with it. *)
Lemma destroy_core a n :
  a ∈ pend -> heap_ db !! a = Some n -> store_core (destroy a db) idx order (pend ∖ {[a]}) loose.
Proof.
  intros Ha Ea. destruct (si_pend _ _ _ _ _ HI a Ha) as [Hao Ha0].
  destruct (destroy_memory a n Ha Ea) as (Hok & El & Etb & Etk).
  destruct (destroy_fields a) as (Eh & Ei & Elr & Ee & Ekt & Ekh & Ett & Eth & Etr).
  set (db' := destroy a db) in *.
  assert (forall k b, idx !! k = Some b -> b <> a) as Hidx.
  { intros k b Hb ->. by apply Hao, (idx_order k). }
  assert (forall b, b <> a -> key_at db' b = key_at db b) as Hk.
  { intros b Hne. unfold key_at, node_at. by rewrite Eh, lookup_delete_ne. }
  assert (forall b m, delete a (heap_ db) !! b = Some m -> b <> a /\ heap_ db !! b = Some m) as Hold.
  { intros b m E. apply lookup_delete_Some in E as [Hne E]. done. }
  assert (forall t, is_Some (tables_ db' !! t) <-> is_Some (tables_ db !! t) /\ table_of n <> Some t) as Htab.
  { intros t. rewrite Etb. destruct (table_of n) as [u|]; cbn [from_option]; [|split; [done|by intros []]].
    destruct (decide (t = u)) as [->|Hne].
    - rewrite lookup_delete_eq. split; [by intros []|]. intros []. done.
    - rewrite lookup_delete_ne by done. split; [intros ?; split; congruence|by intros []]. }
  destruct HI. constructor; rewrite ?Eh, ?Ei, ?Elr, ?Ee, ?Ekt, ?Ekh, ?Ett, ?Eth, ?El; try assumption.
  - eapply index_ok_ext; [apply index_ok_outside; [done|intros E; by apply (Hidx _ _ E)]|].
    intros k b Hb. rewrite Hk by (by eapply Hidx). by apply idx_key.
  - by apply forget_rep.
  - intros b. destruct (decide (b = a)) as [->|Hne]; [|rewrite Hk by done; apply si_order0].
    split; [done|]. intros E. by apply Hidx in E.
  - intros b. rewrite elem_of_difference, elem_of_singleton. destruct (decide (b = a)) as [->|Hne].
    + rewrite lookup_delete_eq. split; [by intros []|]. intros [?|[_ []]]; done.
    + rewrite lookup_delete_ne, si_nodes0 by done. intuition congruence.
  - intros b Hb. apply elem_of_difference in Hb as [Hb _]. by apply si_pend0.
  - intros b m E. apply Hold in E as [_ E]. by eapply si_wf0.
  - by rewrite si_live0, fmap_delete.
  - intros b m t E Et. apply Hold in E as [Hne E]. destruct (si_table0 b m t E Et) as [Hs Hl]. split; [|done].
    apply Htab. split; [done|]. intros Etn. apply Hne. by eapply si_owner0.
  - intros b c m k t E1 E2. apply Hold in E1 as [_ E1]. apply Hold in E2 as [_ E2]. by apply (si_owner0 b c m k).
  - intros t. rewrite Htab, si_owned0. split.
    + intros [[Hl|(b & m & E & E')] Hne]; [by left|]. right. exists b, m. rewrite lookup_delete_ne; [done|].
      intros <-. congruence.
    + intros [Hl|(b & m & E & E')].
      * split; [by left|]. intros Etn. by destruct (si_table0 a n t Ea Etn).
      * apply Hold in E as [Hne E]. split; [right; by exists b, m|]. intros Etn. apply Hne. by eapply si_owner0.
  - rewrite Etr, (node_at_lookup _ _ _ Ea), si_tracked0.
    rewrite (total_delete _ _ (node_block_size n)) by (by rewrite si_live0, lookup_fmap, Ea). apply u64_sub.
Qed.

(** ** New nodes *)

Lemma pend_node a : a ∈ pend -> exists n, heap_ db !! a = Some n.
Proof. intros Ha. apply (si_nodes _ _ _ _ _ HI). by right. Qed.

(** A block becomes a node. *)
Lemma place_core p n alloc' :
  al_ok alloc' -> p <> 0 -> al_live (alloc_ db) !! p = None ->
  al_live alloc' = <[p := node_block_size n]> (al_live (alloc_ db)) -> al_taken alloc' = al_taken (alloc_ db) ->
  node_wf n -> table_of n = None ->
  store_core (put_tracked (u64 (tracked_bytes_ db + node_block_size n)) (place_node p n (put_alloc alloc' db)))
    idx order ({[p]} ∪ pend) loose.
Proof.
  intros Hok Hp Hnone El Etk Hw Et. destruct (fresh_address p Hnone) as (Ep & Hpo & Hpp).
  set (db' := put_tracked _ _).
  assert (forall k b, idx !! k = Some b -> b <> p) as Hidx by (intros k b Hb ->; by apply Hpo, (idx_order k)).
  assert (forall b, b <> p -> key_at db' b = key_at db b) as Hk.
  { intros b Hne. unfold key_at, node_at. simpl. by rewrite lookup_insert_ne. }
  assert (forall b m, <[p := n]> (heap_ db) !! b = Some m ->
    b = p /\ m = n \/ b <> p /\ heap_ db !! b = Some m) as Hold.
  { intros b m E. apply lookup_insert_Some in E as [[<- <-]|[Hne E]]; auto. }
  destruct HI. constructor; simpl; rewrite ?El, ?Etk; try assumption.
  - eapply index_ok_ext; [apply index_ok_outside; [done|intros E; by apply (Hidx _ _ E)]|].
    intros k b Hb. rewrite Hk by (by eapply Hidx). by apply idx_key.
  - by apply detached_rep.
  - intros b. destruct (decide (b = p)) as [->|Hne]; [|rewrite Hk by done; apply si_order0].
    split; [done|]. intros E. by apply Hidx in E.
  - intros b. rewrite elem_of_union, elem_of_singleton. destruct (decide (b = p)) as [->|Hne].
    + rewrite lookup_insert_eq. split; [auto|by eexists].
    + rewrite lookup_insert_ne, si_nodes0 by done. intuition congruence.
  - intros b. rewrite elem_of_union, elem_of_singleton. intros [->|Hb]; [done|by apply si_pend0].
  - intros b m E. apply Hold in E as [[-> ->]|[_ E]]; [done|by eapply si_wf0].
  - by rewrite si_live0, fmap_insert.
  - intros b m t E Em. apply Hold in E as [[-> ->]|[_ E]]; [congruence|]. by apply (si_table0 b m).
  - intros b c m k t E1 E2 F1 F2. apply Hold in E1 as [[-> ->]|[_ E1]]; [congruence|].
    apply Hold in E2 as [[-> ->]|[_ E2]]; [congruence|]. by eapply si_owner0.
  - intros t. rewrite si_owned0. f_equiv. split.
    + intros (b & m & E & E'). exists b, m. rewrite lookup_insert_ne; [done|]. intros <-. congruence.
    + intros (b & m & E & E'). apply Hold in E as [[-> ->]|[_ E]]; [congruence|]. by exists b, m.
  - rewrite si_tracked0, u64_add, total_insert by done. done.
Qed.

(** A node enters the index and the list. *)
Lemma attach_core a :
  a ∈ pend -> idx !! key_at db a = None ->
  store_core (set_key_total (u64 (key_total_ db + 1)) (touch a (link a db)))
    (<[key_at db a := a]> idx) (a :: order) (pend ∖ {[a]}) loose.
Proof.
  intros Ha Hi. destruct (si_pend _ _ _ _ _ HI a Ha) as [Hao Ha0].
  destruct HI. constructor; simpl; try assumption.
  - by apply index_ok_link.
  - assert (a :: order = a :: filter (fun b => b <> a) order) as ->.
    { f_equal. symmetry. apply filter_all, Forall_forall. by intros b Hb ->. }
    by apply touch_rep.
  - intros b. change (key_at _ b) with (key_at db b). rewrite elem_of_cons, si_order0. split.
    + intros [->|Hb]; [by rewrite lookup_insert_eq|]. rewrite lookup_insert_ne; [done|]. congruence.
    + intros Hb. apply lookup_insert_Some in Hb as [[_ ->]|[_ Hb]]; auto.
  - intros b. rewrite elem_of_cons, elem_of_difference, elem_of_singleton, si_nodes0.
    destruct (decide (b = a)) as [->|]; intuition congruence.
  - intros b. rewrite elem_of_cons, elem_of_difference, elem_of_singleton. intros [Hb Hne].
    destruct (si_pend0 b Hb). intuition congruence.
  - rewrite si_total0, len_cons, u64_add. f_equal. lia.
  - reflexivity.
Qed.

Lemma rehash_core :
  store_core (put_index (rehash (key_at db) (length (buckets_ (index_ db)) * 2) (index_ db)) db) idx order pend loose.
Proof.
  destruct HI. constructor; simpl; try assumption.
  destruct si_index0 as (chains & Hr & Hc). destruct (ir_power _ _ _ Hr) as [k Hk].
  apply (index_ok_rehash _ _ _ _ (S k)); [by exists chains|]. simpl. lia.
Qed.

(** A copy takes the place of a node. *)
Definition replaced (a fresh : Z) (l : list Z) : list Z := (fun b => if b =? a then fresh else b) <$> l.

Lemma replaced_around (l1 l2 : list Z) a fresh :
  NoDup (l1 ++ a :: l2) -> replaced a fresh (l1 ++ a :: l2) = l1 ++ fresh :: l2.
Proof.
  intros Hnd. destruct (NoDup_around _ _ _ Hnd) as [_ E]. apply E.
Qed.

Lemma elem_of_replaced a fresh b :
  a ∈ order -> (fresh ∉ order) -> b ∈ replaced a fresh order <-> b = fresh \/ b <> a /\ b ∈ order.
Proof.
  intros Ha Hf. unfold replaced. rewrite list_elem_of_fmap. split.
  - intros (c & -> & Hc). destruct (Z.eqb_spec c a) as [->|Hne]; auto.
  - intros [->|[Hne Hb]].
    + exists a. by rewrite Z.eqb_refl.
    + exists b. split; [|done]. by destruct (Z.eqb_spec b a).
Qed.

Section growing.

(** The node at [a] gives way to [m] at [fresh]. *)
Context (db' : Database A) (a : Z) (n : Node) (fresh : Z) (m : Node).
Hypothesis Ha : a ∈ order.
Hypothesis Ea : heap_ db !! a = Some n.
Hypothesis Hnone : al_live (alloc_ db) !! fresh = None.
Hypothesis Hf0 : fresh <> 0.
Hypothesis Ek : node_key m = node_key n.
Hypothesis Eh : heap_ db' = delete a (<[fresh := m]> (heap_ db)).

Let db1 := put_heap (<[fresh := m]> (heap_ db)) db.

Lemma grown_keys :
  fresh <> a /\ key_at db a = node_key n /\ key_at db1 fresh = node_key n /\ key_at db' fresh = node_key n /\
  (forall b, b <> fresh -> key_at db1 b = key_at db b) /\
  (forall b, b <> fresh -> b <> a -> key_at db' b = key_at db b).
Proof.
  destruct (fresh_address fresh Hnone) as (Ef & _). assert (fresh <> a) as Hfa by congruence.
  split_and!; [done|by apply key_at_lookup|..].
  - unfold key_at, node_at. simpl. by rewrite lookup_insert_eq.
  - unfold key_at, node_at. rewrite Eh. by rewrite lookup_delete_ne, lookup_insert_eq.
  - intros b Hne. unfold key_at, node_at. simpl. by rewrite lookup_insert_ne.
  - intros b H1 H2. unfold key_at, node_at. by rewrite Eh, lookup_delete_ne, lookup_insert_ne.
Qed.

Lemma grown_index :
  index_ok (key_at db') (forget_next a (relink (key_at db1) a fresh (index_ db))) (<[node_key n := fresh]> idx).
Proof.
  destruct grown_keys as (Hfa & Eka & Hkf1 & Hkf' & Hk1 & Hk'). destruct (fresh_address fresh Hnone) as (_ & Hfo & _).
  pose proof (proj1 (si_order _ _ _ _ _ HI a) Ha) as Hi. rewrite Eka in Hi.
  assert (forall k b, idx !! k = Some b -> b <> fresh) as Hidx by (intros k b Hb ->; by apply Hfo, (idx_order k)).
  assert (index_ok (key_at db1) (index_ db) idx) as Hix1.
  { eapply index_ok_ext; [apply HI|]. intros k b Hb. rewrite Hk1 by (by eapply Hidx). by apply idx_key. }
  assert (key_at db1 a = node_key n) as Hka1 by (by rewrite Hk1, Eka by congruence).
  assert (index_ok (key_at db1) (relink (key_at db1) a fresh (index_ db)) (<[node_key n := fresh]> idx)) as Hix2.
  { rewrite <- Hka1. apply index_ok_relink; [done|by rewrite Hka1|by rewrite Hka1|done|done]. }
  eapply index_ok_ext; [apply index_ok_outside; [exact Hix2|rewrite Hka1, lookup_insert_eq; congruence]|].
  intros k b Hb. apply lookup_insert_Some in Hb as [[<- <-]|[Hne Hb]]; [done|].
  pose proof (Hidx _ _ Hb). rewrite Hk'; [by apply idx_key|done|]. intros ->. apply idx_key in Hb. congruence.
Qed.

Lemma grown_order b : b ∈ replaced a fresh order <-> <[node_key n := fresh]> idx !! key_at db' b = Some b.
Proof.
  destruct grown_keys as (Hfa & Eka & _ & Hkf' & _ & Hk'). destruct (fresh_address fresh Hnone) as (_ & Hfo & _).
  rewrite elem_of_replaced by done. destruct (decide (b = fresh)) as [->|Hbf].
  { rewrite Hkf', lookup_insert_eq. split; auto. }
  pose proof (proj1 (si_order _ _ _ _ _ HI a) Ha) as Hi. rewrite Eka in Hi. destruct (decide (b = a)) as [->|Hba].
  - split; [intros [?|[[] _]]; congruence|]. intros E. apply lookup_insert_Some in E as [[_ ?]|[Hne E]]; [congruence|].
    exfalso. apply Hne. rewrite <- Eka. by apply idx_key in E as ->.
  - rewrite Hk' by done. rewrite (si_order _ _ _ _ _ HI b). destruct (decide (key_at db b = node_key n)) as [Eb|Eb].
    + rewrite Eb, lookup_insert_eq. split; [|intros ?; congruence]. intros [?|[_ E]]; congruence.
    + rewrite lookup_insert_ne by done. intuition congruence.
Qed.

Lemma grown_old b k :
  heap_ db' !! b = Some k -> b = fresh /\ k = m \/ b <> fresh /\ b <> a /\ heap_ db !! b = Some k.
Proof.
  intros E. rewrite Eh in E. apply lookup_delete_Some in E as [Hne E].
  apply lookup_insert_Some in E as [[<- <-]|[Hne' E]]; auto.
Qed.

End growing.

Lemma grow_core (db' : Database A) a n fresh m :
  a ∈ order -> heap_ db !! a = Some n -> al_live (alloc_ db) !! fresh = None -> fresh <> 0 ->
  node_wf m -> node_key m = node_key n -> table_of n = None -> table_of m = None ->
  heap_ db' = delete a (<[fresh := m]> (heap_ db)) -> tables_ db' = tables_ db ->
  index_ db' = forget_next a (relink (key_at (put_heap (<[fresh := m]> (heap_ db)) db)) a fresh (index_ db)) ->
  lru_ db' = forget a (splice a fresh (lru_ db)) ->
  al_ok (alloc_ db') -> al_live (alloc_ db') = delete a (<[fresh := node_block_size m]> (al_live (alloc_ db))) ->
  al_taken (alloc_ db') = al_taken (alloc_ db) ->
  key_total_ db' = key_total_ db -> key_hint_ db' = key_hint_ db ->
  tracked_bytes_ db' = u64 (u64 (tracked_bytes_ db - node_block_size n) + node_block_size m) ->
  store_core db' (<[node_key n := fresh]> idx) (replaced a fresh order) pend loose.
Proof.
  intros Ha Ea Hnone Hf0 Hw Ek En Em Eh Etb Ei El Hok Elv Etk Ekt Ekh Etr.
  destruct (fresh_address fresh Hnone) as (Ef & Hfo & Hfp). assert (fresh <> a) as Hfa by congruence.
  pose proof (grown_index db' a n fresh m Ha Ea Hnone Hf0 Ek Eh) as Hix.
  pose proof (grown_order db' a n fresh m Ha Ea Hnone Ek Eh) as Hord. pose proof (grown_old db' a fresh m Eh) as Hold.
  destruct HI. constructor; rewrite ?Ei, ?El, ?Ekt, ?Ekh, ?Elv, ?Etk, ?Etb; try assumption.
  - pose proof (lr_nodup _ _ si_lru0) as Hnd. apply list_elem_of_split in Ha as (l1 & l2 & ->).
    rewrite replaced_around by done. by apply splice_rep.
  - intros b. rewrite elem_of_replaced by done. rewrite Eh. destruct (decide (b = a)) as [->|Hba].
    + rewrite lookup_delete_eq. split; [by intros []|]. intros [[?|[[] _]]|Hb]; [congruence|done|].
      by destruct (si_pend0 a Hb).
    + rewrite lookup_delete_ne by done. destruct (decide (b = fresh)) as [->|Hbf].
      * rewrite lookup_insert_eq. split; [auto|by eexists].
      * rewrite lookup_insert_ne, si_nodes0 by done. intuition congruence.
  - intros b Hb. destruct (si_pend0 b Hb) as [Hbo Hb0]. rewrite elem_of_replaced by done. split; [|done].
    intros [->|[_ Hb']]; done.
  - intros b k E. apply Hold in E as [[_ ->]|(_ & _ & E)]; [done|by eapply si_wf0].
  - by rewrite si_live0, Eh, fmap_delete, fmap_insert.
  - intros b k t E Et. apply Hold in E as [[_ ->]|(_ & _ & E)]; [congruence|]. by apply (si_table0 b k).
  - intros b c k j t E1 E2 F1 F2. apply Hold in E1 as [[_ ->]|(_ & _ & E1)]; [congruence|].
    apply Hold in E2 as [[_ ->]|(_ & _ & E2)]; [congruence|]. by eapply si_owner0.
  - intros t. rewrite si_owned0. f_equiv. split.
    + intros (b & k & E & E'). exists b, k. rewrite Eh, lookup_delete_ne, lookup_insert_ne; [done|congruence|congruence].
    + intros (b & k & E & E'). apply Hold in E as [[_ ->]|(_ & _ & E)]; [congruence|]. by exists b, k.
  - rewrite si_total0. unfold replaced, len. by rewrite length_fmap.
  - rewrite Etr, si_tracked0, u64_sub, u64_add.
    rewrite (total_delete _ _ (node_block_size n))
      by (by rewrite lookup_insert_ne, si_live0, lookup_fmap, Ea by done).
    rewrite total_insert by done. f_equal. lia.
Qed.

(** ** Tables *)

Lemma new_table_core t T alloc' :
  al_ok alloc' -> al_taken (alloc_ db) !! t = None -> al_taken alloc' = <[t := sizeof_HashTable]> (al_taken (alloc_ db)) ->
  al_live alloc' = al_live (alloc_ db) ->
  store_core (put_tables (<[t := T]> (tables_ db)) (put_alloc alloc' db)) idx order pend ({[t]} ∪ loose).
Proof.
  intros Hok Hnone Etk El. rewrite (si_taken _ _ _ _ _ HI), lookup_fmap, fmap_None in Hnone.
  destruct HI. constructor; simpl; rewrite ?El; try assumption.
  - by rewrite Etk, si_taken0, fmap_insert.
  - intros a n u Ea Eu. destruct (si_table0 a n u Ea Eu) as [Hs Hl].
    assert (u <> t) by (intros ->; rewrite Hnone in Hs; by destruct Hs).
    rewrite lookup_insert_ne, elem_of_union, elem_of_singleton by done. split; [done|]. intuition.
  - intros u. rewrite elem_of_union, elem_of_singleton. destruct (decide (u = t)) as [->|Hne].
    + rewrite lookup_insert_eq. split; [auto|by eexists].
    + rewrite lookup_insert_ne, si_owned0 by done. intuition congruence.
Qed.

Lemma change_table_core t T f :
  tables_ db !! t = Some T -> store_core (put_tables (<[t := f T]> (tables_ db)) db) idx order pend loose.
Proof.
  intros Et. assert (forall u, is_Some (<[t := f T]> (tables_ db) !! u) <-> is_Some (tables_ db !! u)) as Hs.
  { intros u. destruct (decide (u = t)) as [->|Hne]; [by rewrite lookup_insert_eq, Et|by rewrite lookup_insert_ne]. }
  destruct HI. constructor; simpl; try assumption.
  - rewrite si_taken0, fmap_insert. symmetry. apply insert_id. by rewrite lookup_fmap, Et.
  - intros a n u. rewrite Hs. apply si_table0.
  - intros u. rewrite Hs. apply si_owned0.
Qed.

Lemma drop_table_core t :
  t ∈ loose -> store_core (delete_table t db) idx order pend (loose ∖ {[t]}).
Proof.
  intros Ht. destruct (proj2 (si_owned _ _ _ _ _ HI t) (or_introl Ht)) as [T ET].
  destruct (al_return_spec _ (si_alloc _ _ _ _ _ HI)) as (Hr & Erl & Ert).
  destruct (al_give_spec t sizeof_HashTable _ Hr) as (Hg & Egt & Egl).
  { by rewrite Ert, (si_taken _ _ _ _ _ HI), lookup_fmap, ET. }
  destruct HI. constructor; simpl; rewrite ?Egt, ?Egl, ?Erl, ?Ert; try assumption.
  - by rewrite si_taken0, fmap_delete.
  - intros a n u Ea Eu. destruct (si_table0 a n u Ea Eu) as [Hs Hl].
    assert (u <> t) by (by intros ->). rewrite lookup_delete_ne, elem_of_difference by done. intuition.
  - intros u. rewrite elem_of_difference, elem_of_singleton. destruct (decide (u = t)) as [->|Hne].
    + rewrite lookup_delete_eq. split; [by intros []|]. intros [[_ []]|(a & n & Ea & Eu)]; [done|].
      by destruct (si_table0 a n t Ea Eu).
    + rewrite lookup_delete_ne, si_owned0 by done. intuition.
Qed.

(** A node takes over a table. *)
Lemma adopt_core a n n' t :
  heap_ db !! a = Some n -> table_of n = None -> node_wf n' -> node_key n' = node_key n ->
  node_block_size n' = node_block_size n -> table_of n' = Some t -> t ∈ loose ->
  store_core (put_heap (<[a := n']> (heap_ db)) db) idx order pend (loose ∖ {[t]}).
Proof.
  intros Ea Etn Hw Ek Es Et Ht. set (db' := put_heap _ db).
  assert (forall b, key_at db' b = key_at db b) as Hkey by (by eapply replace_keys).
  assert (forall b m, <[a := n']> (heap_ db) !! b = Some m -> b = a /\ m = n' \/ b <> a /\ heap_ db !! b = Some m) as Hold.
  { intros b m E. apply lookup_insert_Some in E as [[<- <-]|[Hne E]]; auto. }
  destruct HI. constructor; simpl; try assumption.
  - eapply index_ok_ext; [done|]. intros k b Hb. rewrite Hkey. by apply idx_key.
  - intros b. rewrite Hkey. apply si_order0.
  - intros b. rewrite <- si_nodes0. destruct (decide (b = a)) as [->|Hne];
      [by rewrite lookup_insert_eq, Ea|by rewrite lookup_insert_ne].
  - intros b m E. apply Hold in E as [[_ ->]|[_ E]]; [done|by eapply si_wf0].
  - rewrite fmap_insert, Es, insert_id; [done|]. by rewrite lookup_fmap, Ea.
  - intros b m u E Eu. rewrite elem_of_difference, elem_of_singleton. apply Hold in E as [[_ ->]|[_ E]].
    + assert (u = t) as -> by congruence. split; [apply si_owned0; by left|]. intuition.
    + destruct (si_table0 b m u E Eu). intuition.
  - intros b c m k u E1 E2 F1 F2. apply Hold in E1 as [[-> ->]|[N1 E1]], E2 as [[-> ->]|[N2 E2]]; [done|..|by eapply si_owner0].
    + destruct (si_table0 c k u E2 F2) as [_ []]. congruence.
    + destruct (si_table0 b m u E1 F1) as [_ []]. congruence.
  - intros u. rewrite si_owned0, elem_of_difference, elem_of_singleton. split.
    + intros [Hu|(b & m & E & Eu)].
      * destruct (decide (u = t)) as [->|]; [|auto]. right. exists a, n'. by rewrite lookup_insert_eq.
      * right. exists b, m. rewrite lookup_insert_ne; [done|]. intros <-. congruence.
    + intros [[Hu _]|(b & m & E & Eu)]; [by left|]. apply Hold in E as [[_ ->]|[_ E]].
      * left. congruence.
      * right. by exists b, m.
Qed.

End facts.

(** ** The whole invariant *)

Lemma expiry_frame (db db' : Database A) order order' :
  store_expiry db order ->
  exp_ db' = exp_ db -> ttl_key_count_ db' = ttl_key_count_ db -> ttl_hint_ db' = ttl_hint_ db ->
  (forall a n, heap_ db' !! a = Some n ->
     has_flag flag_has_ttl n = bool_decide (is_Some (deadlines (exp_ db) !! a))) ->
  (forall a, a ∈ order -> is_Some (deadlines (exp_ db) !! a) -> a ∈ order') ->
  store_expiry db' order'.
Proof.
  intros [H1 H2 H3 H4 H5] E1 E2 E3 Hf Ho. constructor; rewrite ?E1, ?E2, ?E3; try assumption. auto.
Qed.

Lemma inv_no_deadline (db : Database A) idx order pend loose a :
  store_inv db idx order pend loose -> (a ∉ order) -> deadlines (exp_ db) !! a = None.
Proof.
  intros [_ He] Ha. destruct (deadlines (exp_ db) !! a) eqn:E; [exfalso|done].
  apply Ha, (si_deadlines _ _ He). by rewrite E.
Qed.

Lemma touch_inv (db : Database A) idx order pend loose a :
  store_inv db idx order pend loose -> a ∈ order ->
  store_inv (touch a db) idx (a :: filter (fun b => b <> a) order) pend loose.
Proof.
  intros [Hc He] Ha. split; [by apply touch_core|]. eapply expiry_frame; [exact He|reflexivity..|apply He|].
  intros b Hb _. rewrite elem_of_cons, list_elem_of_filter. destruct (decide (b = a)); auto.
Qed.

(** Bookkeeping that neither part reads. *)
Lemma inv_frame (db db' : Database A) idx order pend loose :
  store_inv db idx order pend loose ->
  heap_ db' = heap_ db -> tables_ db' = tables_ db -> alloc_ db' = alloc_ db -> index_ db' = index_ db ->
  lru_ db' = lru_ db -> exp_ db' = exp_ db -> key_total_ db' = key_total_ db -> key_hint_ db' = key_hint_ db ->
  ttl_key_count_ db' = ttl_key_count_ db -> ttl_hint_ db' = ttl_hint_ db -> tracked_bytes_ db' = tracked_bytes_ db ->
  store_inv db' idx order pend loose.
Proof.
  intros [Hc He] E1 E2 E3 E4 E5 E6 E7 E8 E9 E10 E11. split; [by apply (core_frame db)|].
  eapply expiry_frame; [exact He|assumption..| |auto]. rewrite E1. apply He.
Qed.

Lemma alloc_kept_inv (db : Database A) idx order pend loose a' :
  store_inv db idx order pend loose ->
  al_ok a' -> al_live a' = al_live (alloc_ db) -> al_taken a' = al_taken (alloc_ db) ->
  store_inv (put_alloc a' db) idx order pend loose.
Proof.
  intros [Hc He] H1 H2 H3. split; [by apply alloc_kept_core|]. eapply expiry_frame; [exact He|reflexivity..|apply He|auto].
Qed.

Lemma alter_insert {B} (m : gmap Z B) a n f : m !! a = Some n -> alter f a m = <[a := f n]> m.
Proof.
  intros Ea. apply map_eq. intros b. destruct (decide (b = a)) as [->|Hne];
    [by rewrite lookup_alter_eq, Ea, lookup_insert_eq|by rewrite lookup_alter_ne, lookup_insert_ne].
Qed.

Lemma change_node_inv (db : Database A) idx order pend loose a n f :
  store_inv db idx order pend loose -> heap_ db !! a = Some n -> node_wf (f n) -> same_face n (f n) ->
  has_flag flag_has_ttl (f n) = has_flag flag_has_ttl n ->
  store_inv (change_node a f db) idx order pend loose.
Proof.
  intros [Hc He] Ea Hw Hs Hf. unfold change_node. rewrite (alter_insert _ _ _ _ Ea).
  split; [by eapply replace_node_core|]. eapply expiry_frame; [exact He|reflexivity..| |auto].
  simpl. intros b m E. apply lookup_insert_Some in E as [[<- <-]|[_ E]]; [|by apply He].
  rewrite Hf. by apply He.
Qed.

(** ** Deadlines *)

(** A node and its deadline change together. *)
Lemma set_deadline_inv (db db' : Database A) idx order pend loose a n n' :
  store_inv db idx order pend loose -> heap_ db !! a = Some n -> node_wf n' -> same_face n n' ->
  heap_ db' = <[a := n']> (heap_ db) -> tables_ db' = tables_ db -> alloc_ db' = alloc_ db ->
  index_ db' = index_ db -> lru_ db' = lru_ db -> key_total_ db' = key_total_ db -> key_hint_ db' = key_hint_ db ->
  tracked_bytes_ db' = tracked_bytes_ db ->
  exp_ok (exp_ db') -> (forall b, b <> a -> deadlines (exp_ db') !! b = deadlines (exp_ db) !! b) ->
  has_flag flag_has_ttl n' = bool_decide (is_Some (deadlines (exp_ db') !! a)) ->
  (is_Some (deadlines (exp_ db') !! a) -> a ∈ order) ->
  ttl_key_count_ db' = len (expiry_heap_ (exp_ db')) -> ttl_hint_ db' = negb (len (expiry_heap_ (exp_ db')) =? 0) ->
  store_inv db' idx order pend loose.
Proof.
  intros [Hc He] Ea Hw Hs E1 E2 E3 E4 E5 E6 E7 E8 HX Hd Hf Ho Et Eth. split.
  - eapply core_frame; [by eapply (replace_node_core db)|assumption..].
  - constructor; try assumption.
    + rewrite E1. intros b m E. apply lookup_insert_Some in E as [[<- <-]|[Hne E]]; [done|].
      rewrite Hd by done. by apply He.
    + intros b Hb. destruct (decide (b = a)) as [->|Hne]; [by apply Ho|]. rewrite Hd in Hb by done. by apply He.
Qed.

Lemma clear_expiry_spec (db : Database A) idx order pend loose a n :
  store_inv db idx order pend loose -> heap_ db !! a = Some n ->
  exists n', store_inv (clear_expiry a db) idx order pend loose /\
    heap_ (clear_expiry a db) = <[a := n']> (heap_ db) /\ remarked n n' /\
    deadlines (exp_ (clear_expiry a db)) = delete a (deadlines (exp_ db)) /\
    (deadlines (exp_ db) !! a = None -> clear_expiry a db = db).
Proof.
  intros HI Ea. pose proof HI as [Hc He]. pose proof (si_wf _ _ _ _ _ Hc _ _ Ea) as Hw.
  pose proof (clear_spec a (exp_ db) (si_exp _ _ He)) as Hcl. unfold clear_expiry.
  destruct (Expiry.clear_expiry a (exp_ db)) as [found X]. destruct Hcl as (HX & Ed & ->).
  destruct (decide (is_Some (deadlines (exp_ db) !! a))) as [Hs|Hs].
  - rewrite bool_decide_true by done. destruct (clear_mark n Hw) as (Hw' & Hf & Hsh & Hm & Hp & Ht & Hcn).
    set (n' := set_flags (Z.land (node_flags n) (Z.lnot flag_has_ttl)) n) in *. exists n'.
    unfold change_node. simpl. rewrite (alter_insert _ _ _ _ Ea). fold n'.
    conjuncts; [|reflexivity|by conjuncts|intros E; rewrite E in Hs; by destruct Hs].
    eapply set_deadline_inv; try done; simpl; rewrite ?Ed, ?lookup_delete_eq.
    + intros b Hne. by rewrite lookup_delete_ne.
    + by rewrite Hm, bool_decide_false by (by intros []).
    + by intros [].
  - rewrite bool_decide_false by done. exists n. apply eq_None_not_Some in Hs.
    conjuncts; [by rewrite insert_id|apply remarked_refl|by rewrite delete_id|done].
Qed.

End inv.
