(* ===== verification/StoreSpec.v ===== *)
(** * StoreSpec: the effect of the store's functions

    One specification per function of [Store] that creates, moves or ends a
    node: what it does to the index, the recency list, the deadlines and the
    memory, given the invariant of [Keyspace]; for those that may throw, also
    that a throw leaves the keyspace alone. *)

From S2P Require Import Prelude Errors Effects Pack WalCodec Wal Allocator Slab Lru Expiry Buckets Node Store Keyspace.

Section spec.

Context {A : Type} `{NodeAllocator A} `{!Platform A}.

(** The fields that are not the keyspace's. *)
Definition env (db : Database A) := (wal_ db, replaying_ db, time_ db, max_keys_ db, evictions_ db, expired_keys_ db).

(** The tables left when a node goes. *)
Definition without_table (n : Node) (tables : gmap Z HashTable) : gmap Z HashTable :=
  from_option (fun t => delete t tables) tables (table_of n).

Lemma add_remove (a : Z) (X : gset Z) : (a ∉ X) -> ({[a]} ∪ X) ∖ {[a]} = X.
Proof. clear. set_solver. Qed.

Lemma bump_inv (db : Database A) idx order pend loose :
  store_inv db idx order pend loose -> store_inv (bump_sequence db) idx order pend loose.
Proof. intros HI. eapply inv_frame; [exact HI|reflexivity..]. Qed.

(** ** The end of a node *)

Lemma clear_expiry_env a (db : Database A) :
  env (clear_expiry a db) = env db /\ tables_ (clear_expiry a db) = tables_ db /\
  key_total_ (clear_expiry a db) = key_total_ db.
Proof. unfold clear_expiry. destruct (Expiry.clear_expiry a (exp_ db)) as [[] X]; conjuncts; reflexivity. Qed.

Lemma destroy_env a (db : Database A) : env (destroy a db) = env db.
Proof. unfold destroy. destruct (is_promoted _); reflexivity. Qed.

Lemma destroy_spec (db : Database A) idx order pend loose a n :
  store_inv db idx order pend loose -> a ∈ pend -> heap_ db !! a = Some n ->
  let db' := destroy a db in
  store_inv db' idx order (pend ∖ {[a]}) loose /\ heap_ db' = delete a (heap_ db) /\
  tables_ db' = without_table n (tables_ db) /\ exp_ db' = exp_ db /\ env db' = env db.
Proof.
  intros [Hc He] Ha Ea db'. destruct (destroy_fields db a) as (Eh & _ & _ & Ee & _ & _ & Et & Eth & _).
  destruct (destroy_memory db _ _ _ _ Hc a n Ha Ea) as (_ & _ & Etb & _).
  conjuncts; [|by apply destroy_env]. split; [by eapply destroy_core|].
  eapply expiry_frame; [exact He|assumption..| |auto]. unfold db'. rewrite Eh.
  intros b m E. apply lookup_delete_Some in E as [_ E]. by apply He.
Qed.

(** [erase_node] after the deadline is gone. *)
Definition retire (a : Z) (db : Database A) : Database A :=
  let db := set_key_total (u64 (key_total_ db - 1)) (unlink a (unlink_lru a db)) in
  bump_sequence (destroy a db).

Lemma erase_retire a (db : Database A) : erase_node a db = retire a (clear_expiry a db).
Proof. reflexivity. Qed.

(** Same deadlines, and the same counts of them. *)
Definition same_expiry (db db' : Database A) : Prop :=
  exp_ db' = exp_ db /\ ttl_key_count_ db' = ttl_key_count_ db /\ ttl_hint_ db' = ttl_hint_ db.

Lemma retire_core (db : Database A) idx order pend loose a n :
  store_core db idx order pend loose -> a ∈ order -> heap_ db !! a = Some n ->
  store_core (retire a db) (delete (node_key n) idx) (filter (fun b => b <> a) order) pend loose /\
  heap_ (retire a db) = delete a (heap_ db) /\ tables_ (retire a db) = without_table n (tables_ db) /\
  same_expiry db (retire a db) /\ env (retire a db) = env db.
Proof.
  intros Hc Ha Ea. pose proof (detach_core db _ _ _ _ Hc a Ha) as Hc2.
  rewrite (key_at_lookup _ _ _ Ea) in Hc2. unfold retire.
  assert (a ∉ pend) as Hap by (intros Hp; by destruct (si_pend _ _ _ _ _ Hc a Hp)).
  set (db2 := set_key_total _ (unlink a (unlink_lru a db))) in *.
  assert (heap_ db2 = heap_ db /\ tables_ db2 = tables_ db /\ same_expiry db db2 /\ env db2 = env db)
    as (Eh & Et & (Ee & Etc & Eth) & Ev) by (conjuncts; repeat split).
  clearbody db2. rewrite <- Eh in Ea.
  assert (a ∈ ({[a]} ∪ pend)) as Ha2 by (apply elem_of_union_l, elem_of_singleton_2; reflexivity).
  destruct (destroy_fields db2 a) as (Eh3 & _ & _ & Ee3 & _ & _ & Etc3 & Eth3 & _).
  destruct (destroy_memory db2 _ _ _ _ Hc2 a n Ha2 Ea) as (_ & _ & Et3 & _).
  pose proof (destroy_core db2 _ _ _ _ Hc2 a n Ha2 Ea) as Hc3. pose proof (destroy_env a db2) as Ev3.
  rewrite add_remove in Hc3 by done. fold (without_table n (tables_ db2)) in Et3.
  generalize dependent (destroy a db2). intros db3 Eh3 Ee3 Etc3 Eth3 Et3 Hc3 Ev3. conjuncts.
  - eapply core_frame; [exact Hc3|reflexivity..].
  - simpl. congruence.
  - simpl. congruence.
  - split_and!; simpl; congruence.
  - change (env db3 = env db). congruence.
Qed.

Lemma erase_spec (db : Database A) idx order pend loose a n :
  store_inv db idx order pend loose -> a ∈ order -> heap_ db !! a = Some n ->
  let db' := erase_node a db in
  store_inv db' (delete (node_key n) idx) (filter (fun b => b <> a) order) pend loose /\
  heap_ db' = delete a (heap_ db) /\ tables_ db' = without_table n (tables_ db) /\
  deadlines (exp_ db') = delete a (deadlines (exp_ db)) /\ env db' = env db.
Proof.
  intros HI Ha Ea. destruct (clear_expiry_spec db _ _ _ _ a n HI Ea) as (n1 & HI1 & Eh1 & Hr & Ed & _).
  destruct (clear_expiry_env a db) as (Ev1 & Et1 & Ek1). pose proof Hr as ((Ekey & _ & Etab) & _).
  rewrite erase_retire. generalize dependent (clear_expiry a db). intros db1 HI1 Eh1 Ed Ev1 Et1 Ek1.
  destruct HI1 as [Hc1 He1]. assert (heap_ db1 !! a = Some n1) as Ea1 by (by rewrite Eh1, lookup_insert_eq).
  destruct (retire_core db1 _ _ _ _ a n1 Hc1 Ha Ea1) as (Hc2 & Eh2 & Et2 & (Ee2 & Etc2 & Eth2) & Ev2).
  unfold without_table in *. rewrite Ekey in Hc2. rewrite Etab, Et1 in Et2.
  generalize dependent (retire a db1). intros db2 Hc2 Eh2 Et2 Ee2 Etc2 Eth2 Ev2.
  conjuncts; [|rewrite Eh2, Eh1; apply delete_insert_eq|congruence|congruence].
  split; [done|]. eapply expiry_frame; [exact He1|assumption..| |].
  - rewrite Eh2. intros b m E. apply lookup_delete_Some in E as [_ E]. by apply He1.
  - intros b Hb Hs. apply list_elem_of_filter. split; [|done]. intros ->. rewrite Ed, lookup_delete_eq in Hs. by destruct Hs.
Qed.

(** ** New nodes *)

Lemma on_alloc_wp {R} (m : M A R) (Q : R -> Database A -> Prop) E db :
  wp m (fun r a' => Q r (put_alloc a' db)) (fun e a' => E e (put_alloc a' db)) (alloc_ db) ->
  wp (on_alloc m) Q E db.
Proof. intros Hm. by apply wp_zoom. Qed.

(** The keyspace's data, and everything outside, are as they were. *)
Definition same_data (db db' : Database A) : Prop :=
  heap_ db' = heap_ db /\ tables_ db' = tables_ db /\ exp_ db' = exp_ db /\ env db' = env db.

Definition new_node (n : Node) (key : bytes) (type : NodeType) (cap : Z) : Prop :=
  node_wf n /\ node_key n = key /\ node_type n = type /\ node_flags n = 0 /\ count n = 0 /\
  cap <= node_body_capacity n <= Z.max cap largest_class.

Lemma new_node_plain n key type cap : new_node n key type cap -> has_flag flag_has_ttl n = false /\ table_of n = None.
Proof.
  intros (_ & _ & _ & Ef & _). unfold table_of, is_promoted, has_flag. rewrite Ef. split; [done|].
  change (negb (Z.land 0 flag_hash_promoted =? 0)) with false. by rewrite andb_false_r.
Qed.

Lemma create_node_wp (db : Database A) idx order pend loose key type cap Q E :
  store_inv db idx order pend loose -> len key <= max_key_length -> 0 <= cap -> real_type type ->
  (forall p n db', store_inv db' idx order ({[p]} ∪ pend) loose -> heap_ db !! p = None -> (p ∉ pend) -> p <> 0 ->
     heap_ db' = <[p := n]> (heap_ db) -> new_node n key type cap -> tables_ db' = tables_ db ->
     exp_ db' = exp_ db -> env db' = env db -> Q p db') ->
  (forall db', store_inv db' idx order pend loose -> same_data db db' -> E exn_bad_alloc db') ->
  wp (create_node key type cap) Q E db.
Proof.
  intros HI Hk Hcap Ht HQ HE. unfold create_node.
  destruct (block_layout (len key) cap) as [[size_class block]|] eqn:El.
  2:{ wp_steps. apply HE; [done|]. by split_and!. }
  pose proof (len_nonneg key) as Hk0.
  destruct (block_layout_spec (len key) cap size_class block ltac:(lia) Hcap El) as (Hb & Hcls).
  assert (sizeof_Node <= block) as Hb32.
  { destruct (key_stride_spec (len key) ltac:(lia)) as [Hs _]. unfold sizeof_Node in *.
    destruct Hcls as [(_ & _ & ?)|(_ & ?)]; lia. }
  pose proof HI as [Hc He]. wp_steps. apply on_alloc_wp.
  eapply wp_mono; [apply (al_allocate_spec block _ (si_alloc _ _ _ _ _ Hc)); lia|..].
  - intros p a' (Hok & Hp & Hnone & Elive & Etk). wp_steps. cbn [alloc_ put_alloc].
    pose proof (init_block_spec key size_class block cap type 0 (junk a' p (block - sizeof_Node)) Hk Hcap El Ht
      ltac:(lia) (junk_len a' p (block - sizeof_Node) ltac:(lia))) as (Hw & Hkey & Hsize & (Hc' & Hc'') & Hty & Hfl).
    set (n := mkNode _ _ _) in *. assert (count n = 0) as Hcnt by reflexivity. clearbody n.
    assert (new_node n key type cap) as Hn by (by conjuncts). destruct (new_node_plain _ _ _ _ Hn) as [Hm Htab].
    destruct (fresh_address db _ _ _ _ Hc p Hnone) as (Ep & Hpo & Hpp).
    rewrite <- Hsize in Elive. assert (p <> 0) as Hp0 by lia.
    pose proof (place_core db _ _ _ _ Hc p n a' Hok Hp0 Hnone Elive Etk Hw Htab) as Hc2. rewrite Hsize in Hc2.
    apply (HQ p n); try done. split; [exact Hc2|]. eapply expiry_frame; [exact He|reflexivity..| |auto].
    simpl. intros b m Eb. apply lookup_insert_Some in Eb as [[<- <-]|[_ Eb]]; [|by apply He].
    rewrite Hm, (inv_no_deadline db _ _ _ _ p HI Hpo). by rewrite bool_decide_false by (by intros []).
  - intros e a' (-> & Hok & Elive & Etk). apply HE; [by apply alloc_kept_inv|]. by split_and!.
Qed.

Lemma attach_spec (db : Database A) idx order pend loose a n :
  store_core db idx order pend loose -> a ∈ pend -> heap_ db !! a = Some n -> idx !! node_key n = None ->
  store_core (attach a db) (<[node_key n := a]> idx) (a :: order) (pend ∖ {[a]}) loose /\
  heap_ (attach a db) = heap_ db /\ tables_ (attach a db) = tables_ db /\ same_expiry db (attach a db) /\
  env (attach a db) = env db.
Proof.
  intros Hc Ha Ea Hi. pose proof (attach_core db _ _ _ _ Hc a Ha) as Hc2. rewrite (key_at_lookup _ _ _ Ea) in Hc2.
  specialize (Hc2 Hi). unfold attach.
  conjuncts; [|reflexivity|reflexivity|by split_and!|reflexivity]. eapply core_frame; [exact Hc2|reflexivity..].
Qed.

Lemma order_drop0 (l : list Z) : (0 ∉ l) -> filter (fun b => b <> 0) l = l.
Proof. intros H0. apply filter_all, Forall_forall. by intros b Hb ->. Qed.

(** What becomes of the deadline. *)
Definition carried (old fresh : Z) (keep_ttl : bool) (D : gmap Z Z) : gmap Z Z :=
  match (if keep_ttl then D !! old else None) with
  | Some d => <[fresh := d]> (delete old D)
  | None => delete old D
  end.

(** The outcome of [commit_node]. *)
Definition committed (db db' : Database A) (idx : gmap bytes Z) (order : list Z) (pend loose : gset Z)
    (old fresh : Z) (keep_ttl : bool) (n : Node) : Prop :=
  store_inv db' (<[node_key n := fresh]> idx) (fresh :: filter (fun b => b <> old) order) (pend ∖ {[fresh]}) loose /\
  (exists n', heap_ db' = <[fresh := n']> (delete old (heap_ db)) /\ remarked n n') /\
  tables_ db' = from_option (fun m => without_table m (tables_ db)) (tables_ db) (heap_ db !! old) /\
  deadlines (exp_ db') = carried old fresh keep_ttl (deadlines (exp_ db)) /\ env db' = env db.

Lemma commit_first (db : Database A) idx order pend loose fresh keep_ttl n :
  store_inv db idx order pend loose -> fresh ∈ pend -> heap_ db !! fresh = Some n -> idx !! node_key n = None ->
  committed db (commit_node 0 fresh keep_ttl db) idx order pend loose 0 fresh keep_ttl n.
Proof.
  intros HI Hf Ef Hi. pose proof HI as [Hc He].
  destruct (attach_spec db _ _ _ _ fresh n Hc Hf Ef Hi) as (Hc2 & Eh & Et & (Ee & Etc & Eth) & Ev).
  change (commit_node 0 fresh keep_ttl db) with (attach fresh db).
  generalize dependent (attach fresh db). intros db2 Hc2 Eh Et Ee Etc Eth Ev.
  assert (0 ∉ order) as H0 by apply (si_lru _ _ _ _ _ Hc).
  assert (heap_ db !! 0 = None) as Eh0.
  { destruct (heap_ db !! 0) eqn:E; [exfalso|done]. destruct (proj1 (si_nodes _ _ _ _ _ Hc 0)) as [?|Hp]; [by rewrite E|done|].
    by destruct (si_pend _ _ _ _ _ Hc 0 Hp). }
  pose proof (inv_no_deadline _ _ _ _ _ 0 HI H0) as Ed0. unfold committed.
  rewrite order_drop0 by done. conjuncts.
  - split; [done|]. eapply expiry_frame; [exact He|assumption..|rewrite Eh; apply He|]. intros b Hb _. by right.
  - exists n. split; [|apply remarked_refl]. rewrite delete_id, insert_id by done. done.
  - by rewrite Eh0.
  - unfold carried. rewrite Ed0, Ee. destruct keep_ttl; by rewrite delete_id.
Qed.

Lemma commit_over (db : Database A) idx order pend loose old fresh keep_ttl n m :
  store_inv db idx order pend loose -> fresh ∈ pend -> heap_ db !! fresh = Some n -> idx !! node_key n = Some old ->
  heap_ db !! old = Some m -> keep_ttl && has_flag flag_has_ttl m = false ->
  committed db (commit_node old fresh keep_ttl db) idx order pend loose old fresh keep_ttl n.
Proof.
  intros HI Hf Ef Hi Eo Hk. pose proof HI as [Hc He]. destruct (idx_node db _ _ _ _ Hc _ _ Hi) as (m' & Eo' & Ekm & Ho0).
  assert (m' = m) as -> by congruence. pose proof (idx_order db _ _ _ _ Hc _ _ Hi) as Ho.
  unfold commit_node, carry_ttl. rewrite (node_at_lookup _ _ _ Eo), nonnull_true by done.
  cbn [andb]. rewrite Hk.
  destruct (erase_spec db _ _ _ _ old m HI Ho Eo) as ([Hc1 He1] & Eh1 & Et1 & Ed1 & Ev1).
  generalize dependent (erase_node old db). intros db1 Hc1 He1 Eh1 Et1 Ed1 Ev1. rewrite Ekm in Hc1.
  assert (fresh <> old) as Hne by (intros ->; by destruct (si_pend _ _ _ _ _ Hc old Hf)).
  destruct (attach_spec db1 _ _ _ _ fresh n Hc1 Hf) as (Hc2 & Eh2 & Et2 & (Ee2 & Etc2 & Eth2) & Ev2).
  { by rewrite Eh1, lookup_delete_ne. }
  { apply lookup_delete_eq. }
  generalize dependent (attach fresh db1). intros db2 Hc2 Eh2 Et2 Ee2 Etc2 Eth2 Ev2.
  rewrite insert_delete_eq in Hc2. unfold committed. conjuncts.
  - split; [done|]. eapply expiry_frame; [exact He1|assumption..|rewrite Eh2; apply He1|]. intros b Hb _. by right.
  - exists n. split; [|apply remarked_refl]. rewrite Eh2, Eh1, insert_id; [done|]. by rewrite lookup_delete_ne.
  - by rewrite Eo, Et2, Et1.
  - rewrite Ee2, Ed1. unfold carried. destruct keep_ttl; [|done]. simpl in Hk.
    pose proof (si_flag _ _ He old m Eo) as Hfl. rewrite Hk in Hfl. symmetry in Hfl.
    apply bool_decide_eq_false, eq_None_not_Some in Hfl. by rewrite Hfl.
  - congruence.
Qed.

Lemma clear_expiry_none a (db : Database A) : deadlines (exp_ db) !! a = None -> clear_expiry a db = db.
Proof.
  rewrite deadlines_lookup. intros E. unfold clear_expiry, Expiry.clear_expiry.
  by destruct (expiries_ (exp_ db) !! a) as [[]|].
Qed.

Lemma carry_ttl_core (db : Database A) idx order pend loose old fresh n m d :
  store_inv db idx order pend loose -> fresh ∈ pend -> heap_ db !! fresh = Some n -> old <> 0 ->
  heap_ db !! old = Some m -> deadlines (exp_ db) !! old = Some d ->
  exists n' X, store_core (carry_ttl old fresh true db) idx order pend loose /\
    heap_ (carry_ttl old fresh true db) = <[fresh := n']> (heap_ db) /\ remarked n n' /\
    has_flag flag_has_ttl n' = true /\ exp_ (carry_ttl old fresh true db) = X /\ exp_ok X /\
    deadlines X = <[fresh := d]> (delete old (deadlines (exp_ db))) /\
    length (expiry_heap_ X) = length (expiry_heap_ (exp_ db)) /\
    tables_ (carry_ttl old fresh true db) = tables_ db /\ env (carry_ttl old fresh true db) = env db /\
    ttl_key_count_ (carry_ttl old fresh true db) = ttl_key_count_ db /\
    ttl_hint_ (carry_ttl old fresh true db) = ttl_hint_ db.
Proof.
  intros HI Hf Ef Ho0 Eo Ed. pose proof HI as [Hc He]. destruct (si_pend _ _ _ _ _ Hc fresh Hf) as [Hfo Hf0].
  pose proof (inv_no_deadline _ _ _ _ _ fresh HI Hfo) as Edf.
  destruct (set_mark n (si_wf _ _ _ _ _ Hc _ _ Ef)) as (Hw' & Hface & Hsh & Hm & Hp & Ht & Hcn).
  set (n' := set_flags (Z.lor (node_flags n) flag_has_ttl) n) in *.
  assert (has_flag flag_has_ttl m = true) as Hfm.
  { rewrite (si_flag _ _ He old m Eo), Ed. by apply bool_decide_true. }
  unfold carry_ttl. rewrite (node_at_lookup _ _ _ Eo), Hfm, nonnull_true by done. cbn [andb]. cbv zeta.
  exists n', (move_expiry old fresh (exp_ db)). unfold change_node. cbn [heap_ put_exp].
  rewrite (alter_insert _ _ _ _ Ef). fold n'.
  destruct (move_spec old fresh (exp_ db) (si_exp _ _ He) Hf0 Edf) as [HX EX]. rewrite Ed in EX.
  conjuncts; try reflexivity.
  - eapply core_frame; [exact (replace_node_core db _ _ _ _ Hc fresh n n' Ef Hw' Hface)|reflexivity..].
  - by conjuncts.
  - unfold move_expiry. rewrite deadlines_lookup in Ed. destruct (expiries_ (exp_ db) !! old) as [[d' i]|]; [|done].
    cbn [expiry_heap_ set_map set_heap]. apply length_insert.
Qed.

Lemma commit_moved (db : Database A) idx order pend loose old fresh n m d :
  store_inv db idx order pend loose -> fresh ∈ pend -> heap_ db !! fresh = Some n -> idx !! node_key n = Some old ->
  heap_ db !! old = Some m -> deadlines (exp_ db) !! old = Some d ->
  committed db (commit_node old fresh true db) idx order pend loose old fresh true n.
Proof.
  intros HI Hf Ef Hi Eo Ed. pose proof HI as [Hc He]. destruct (idx_node db _ _ _ _ Hc _ _ Hi) as (m' & Eo' & Ekm & Ho0).
  assert (m' = m) as -> by congruence. pose proof (idx_order db _ _ _ _ Hc _ _ Hi) as Ho.
  assert (fresh <> old) as Hne by (intros ->; by destruct (si_pend _ _ _ _ _ Hc old Hf)).
  destruct (carry_ttl_core db _ _ _ _ old fresh n m d HI Hf Ef Ho0 Eo Ed)
    as (n' & X & Hc1 & Eh1 & Hr & Hm & Ee1 & HX & EX & ElX & Et1 & Ev1 & Etc1 & Eth1).
  unfold commit_node. generalize dependent (carry_ttl old fresh true db). intros db1 Hc1 Eh1 Ee1 Et1 Ev1 Etc1 Eth1.
  rewrite nonnull_true by done. rewrite erase_retire, clear_expiry_none
    by (by rewrite Ee1, EX, lookup_insert_ne, lookup_delete_eq).
  destruct (retire_core db1 _ _ _ _ old m Hc1 Ho) as (Hc2 & Eh2 & Et2 & (Ee2 & Etc2 & Eth2) & Ev2).
  { by rewrite Eh1, lookup_insert_ne. }
  generalize dependent (retire old db1). intros db2 Hc2 Eh2 Et2 Ee2 Etc2 Eth2 Ev2. rewrite Ekm in Hc2.
  pose proof Hr as ((Ekn & _) & _).
  destruct (attach_spec db2 _ _ _ _ fresh n' Hc2 Hf) as (Hc3 & Eh3 & Et3 & (Ee3 & Etc3 & Eth3) & Ev3).
  { by rewrite Eh2, Eh1, lookup_delete_ne, lookup_insert_eq. }
  { rewrite Ekn. apply lookup_delete_eq. }
  generalize dependent (attach fresh db2). intros db3 Hc3 Eh3 Et3 Ee3 Etc3 Eth3 Ev3.
  rewrite Ekn, insert_delete_eq in Hc3.
  assert (heap_ db3 = <[fresh := n']> (delete old (heap_ db))) as Eh.
  { rewrite Eh3, Eh2, Eh1. by rewrite delete_insert_ne. }
  unfold committed. conjuncts.
  - split; [done|]. constructor; rewrite ?Ee3, ?Ee2, ?Ee1, ?EX; try assumption.
    + rewrite Eh. intros b k E. apply lookup_insert_Some in E as [[<- <-]|[Hb E]].
      * by rewrite lookup_insert_eq, Hm.
      * apply lookup_delete_Some in E as [Hbo E]. rewrite lookup_insert_ne, lookup_delete_ne by done. by apply He.
    + intros b Hb. destruct (decide (b = fresh)) as [->|Hbf]; [left|]. rewrite lookup_insert_ne in Hb by done.
      destruct (decide (b = old)) as [->|Hbo]; [rewrite lookup_delete_eq in Hb; by destruct Hb|].
      rewrite lookup_delete_ne in Hb by done. right. apply list_elem_of_filter. split; [done|]. by apply He.
    + rewrite Etc3, Etc2, Etc1, (si_ttl_count _ _ He). unfold len. by rewrite ElX.
    + rewrite Eth3, Eth2, Eth1, (si_ttl_hint _ _ He). unfold len. by rewrite ElX.
  - by exists n'.
  - rewrite Eo, Et3, Et2, Et1. done.
  - unfold carried. by rewrite Ed, Ee3, Ee2, Ee1, EX.
  - congruence.
Qed.

(** [commit_node]: the new node takes the key, in front of the list. *)
Lemma commit_spec (db : Database A) idx order pend loose old fresh keep_ttl n :
  store_inv db idx order pend loose -> fresh ∈ pend -> heap_ db !! fresh = Some n ->
  old = default 0 (idx !! node_key n) ->
  committed db (commit_node old fresh keep_ttl db) idx order pend loose old fresh keep_ttl n.
Proof.
  intros HI Hf Ef Eold. pose proof HI as [Hc He]. destruct (idx !! node_key n) as [o|] eqn:Hi; cbn in Eold; subst old.
  - destruct (idx_node db _ _ _ _ Hc _ _ Hi) as (m & Eo & _ & _).
    destruct (keep_ttl && has_flag flag_has_ttl m) eqn:Hk; [|by eapply commit_over].
    apply andb_true_iff in Hk as [-> Hm]. rewrite (si_flag _ _ He _ _ Eo) in Hm.
    apply bool_decide_eq_true in Hm as [d Ed]. by eapply commit_moved.
  - by apply commit_first.
Qed.

(** ** Rehashing *)

Lemma maybe_rehash_wp (db : Database A) idx order pend loose Q E :
  store_inv db idx order pend loose ->
  (forall db', store_inv db' idx order pend loose -> same_data db db' -> Q tt db') ->
  (forall db', store_inv db' idx order pend loose -> same_data db db' -> E exn_bad_alloc db') ->
  wp maybe_rehash Q E db.
Proof.
  intros HI HQ HE. unfold maybe_rehash. wp_steps. destruct (must_rehash _ _); wp_steps; [|apply HQ; [done|by split_and!]].
  pose proof HI as [Hc He]. apply on_alloc_wp. eapply wp_mono; [apply (al_container_spec _ (si_alloc _ _ _ _ _ Hc))|..].
  - intros u a' (Hok & El & Et). wp_steps. pose proof (alloc_kept_inv _ _ _ _ _ a' HI Hok El Et) as [Hc1 He1].
    set (db1 := put_alloc a' db) in *. assert (same_data db db1) as (S1 & S2 & S3 & S4) by (by split_and!).
    clearbody db1. pose proof (rehash_core db1 _ _ _ _ Hc1) as Hc2.
    assert (store_inv (put_index (rehash (key_at db1) (length (buckets_ (index_ db1)) * 2) (index_ db1)) db1)
      idx order pend loose) as HI2.
    { split; [done|]. eapply expiry_frame; [exact He1|reflexivity..|apply He1|auto]. }
    destruct (al_return_spec _ (si_alloc _ _ _ _ _ Hc1)) as (Hok2 & El2 & Et2).
    apply HQ; [by apply alloc_kept_inv|]. by split_and!.
  - intros e a' (-> & Hok & El & Et). apply HE; [by apply alloc_kept_inv|]. by split_and!.
Qed.

(** ** Deadlines *)

Lemma reserve_heap_ok X : exp_ok X -> exp_ok (reserve_heap X).
Proof. intros [[H1 H2 H3] Ho]. split; [constructor; assumption|exact Ho]. Qed.

(** More room in the heap is no change. *)
Lemma reserve_inv (db : Database A) idx order pend loose :
  store_inv db idx order pend loose -> store_inv (put_exp (reserve_heap (exp_ db)) db) idx order pend loose.
Proof.
  intros [Hc [H1 H2 H3 H4 H5]]. split; [eapply core_frame; [exact Hc|reflexivity..]|].
  constructor; try assumption. by apply reserve_heap_ok.
Qed.

(** The memory [schedule_expiry] asks for. *)
Definition schedule_memory (node : Z) (db : Database A) : M (Database A) unit :=
  when (bool_decide (expiries_ (exp_ db) !! node = None))
    (do! when (must_reserve node (exp_ db))
           (do! on_alloc al_container in modify (fun db => put_exp (reserve_heap (exp_ db)) db)) in
     on_alloc al_container).

Definition same_deadlines (db db' : Database A) : Prop :=
  heap_ db' = heap_ db /\ tables_ db' = tables_ db /\ deadlines (exp_ db') = deadlines (exp_ db) /\ env db' = env db.

Lemma container_wp (db : Database A) idx order pend loose Q E :
  store_inv db idx order pend loose ->
  (forall a', store_inv (put_alloc a' db) idx order pend loose ->
     Q tt (put_alloc a' db) /\ E exn_bad_alloc (put_alloc a' db)) ->
  wp (on_alloc al_container) Q E db.
Proof.
  intros HI HQ. pose proof HI as [Hc He]. apply on_alloc_wp.
  eapply wp_mono; [apply (al_container_spec _ (si_alloc _ _ _ _ _ Hc))|..].
  - intros [] a' (Hok & El & Et). by apply HQ, alloc_kept_inv.
  - intros e a' (-> & Hok & El & Et). by apply HQ, alloc_kept_inv.
Qed.

Lemma schedule_memory_wp (db : Database A) idx order pend loose node Q E :
  store_inv db idx order pend loose ->
  (forall db', store_inv db' idx order pend loose -> same_deadlines db db' ->
     Q tt db' /\ (deadlines (exp_ db) !! node = None -> E exn_bad_alloc db')) ->
  wp (schedule_memory node db) Q E db.
Proof.
  intros HI HQ. apply wp_when; intros Hb; [|apply HQ; [done|by split_and!]].
  apply bool_decide_eq_true in Hb. assert (deadlines (exp_ db) !! node = None) as Hd by (by rewrite deadlines_lookup, Hb).
  wp_steps. apply wp_when; intros _.
  - wp_steps. eapply container_wp; [exact HI|]. intros a1 HI1. split; [|apply HQ; [done|by split_and!|done]].
    wp_steps. pose proof (reserve_inv _ _ _ _ _ HI1) as HI2. eapply container_wp; [exact HI2|].
    intros a2 HI3. split; apply HQ; try done; by split_and!.
  - eapply container_wp; [exact HI|]. intros a1 HI1. split; apply HQ; try done; by split_and!.
Qed.

Lemma schedule_expiry_wp (db : Database A) idx order pend loose a n d Q E :
  store_inv db idx order pend loose -> a ∈ order -> heap_ db !! a = Some n ->
  (forall n' db', store_inv db' idx order pend loose -> heap_ db' = <[a := n']> (heap_ db) -> remarked n n' ->
     deadlines (exp_ db') = <[a := d]> (deadlines (exp_ db)) -> tables_ db' = tables_ db -> env db' = env db -> Q tt db') ->
  (forall db', store_inv db' idx order pend loose -> same_deadlines db db' -> deadlines (exp_ db) !! a = None ->
     E exn_bad_alloc db') ->
  wp (schedule_expiry a d) Q E db.
Proof.
  intros HI Ha Ea HQ HE. unfold schedule_expiry. wp_step. wp_step. cbv beta.
  change (when _ _) with (schedule_memory a db). wp_step.
  eapply schedule_memory_wp; [exact HI|]. intros db1 HI1 (Eh1 & Et1 & Ed1 & Ev1).
  split; [|intros Hn; apply HE; [done|by split_and!|done]]. wp_steps. pose proof HI1 as [Hc1 He1].
  assert (heap_ db1 !! a = Some n) as Ea1 by congruence. pose proof (order_nonnull _ _ _ _ _ Hc1 a Ha) as Ha0.
  destruct (schedule_spec a d (exp_ db1) (si_exp _ _ He1) Ha0) as [HX EX].
  destruct (set_mark n (si_wf _ _ _ _ _ Hc1 _ _ Ea1)) as (Hw & Hf & Hsh & Hm & Hp & Ht & Hcn).
  set (n' := set_flags (Z.lor (node_flags n) flag_has_ttl) n) in *. unfold change_node. cbn [heap_ put_exp exp_ put_heap].
  rewrite (alter_insert _ _ _ _ Ea1). fold n'.
  generalize dependent (Expiry.schedule_expiry a d (exp_ db1)). intros X HX EX. set (db2 := put_ttl_hint _ _).
  assert (0 < len (expiry_heap_ X)) as Hpos.
  { pose proof (size_deadlines X (proj1 HX)) as Es. unfold len. rewrite <- Es, EX.
    assert (size (<[a := d]> (deadlines (exp_ db1))) <> 0%nat) as Hne; [|lia].
    rewrite map_size_ne_0_lookup. exists a. by rewrite lookup_insert_eq. }
  assert (deadlines (exp_ db2) = <[a := d]> (deadlines (exp_ db1))) as EX2 by exact EX.
  assert (ttl_hint_ db2 = negb (len (expiry_heap_ X) =? 0)) as Eth.
  { destruct (Z.eqb_spec (len (expiry_heap_ X)) 0); [lia|reflexivity]. }
  apply (HQ n').
  - refine (set_deadline_inv db1 db2 _ _ _ _ a n n' HI1 Ea1 Hw Hf eq_refl eq_refl eq_refl eq_refl eq_refl eq_refl
      eq_refl eq_refl HX _ _ (fun _ => Ha) eq_refl Eth).
    + intros b Hb. by rewrite EX2, lookup_insert_ne.
    + by rewrite EX2, lookup_insert_eq, Hm.
  - cbn. congruence.
  - by conjuncts.
  - congruence.
  - exact Et1.
  - exact Ev1.
Qed.

(** ** Copies *)

(** What [grow_node] makes of a node. *)
Definition grown (n m : Node) (cap : Z) : Prop :=
  node_wf m /\ node_key m = node_key n /\ node_type m = node_type n /\ node_flags m = node_flags n /\
  count m = count n /\ cap <= node_body_capacity m <= Z.max cap largest_class /\
  let k := Z.min (node_body_capacity n) (node_body_capacity m) in
  read_at 0 k (node_body m) = read_at 0 k (node_body n).

Lemma copy_node_spec n size_class block cap raw :
  node_wf n -> 0 <= cap -> block_layout (node_key_length n) cap = Some (size_class, block) ->
  len raw = block - sizeof_Node ->
  grown n (copy_node n size_class block raw) cap /\ node_block_size (copy_node n size_class block raw) = block.
Proof.
  intros Hw Hcap El Hraw. pose proof (len_node_key n Hw) as Ek. destruct (meta_range n) as (Hk & Hf & _).
  rewrite <- Ek in El, Hk.
  destruct (init_block_spec (node_key n) size_class block cap (node_type n) (node_flags n) raw
    ltac:(lia) Hcap El (nw_type _ Hw) Hf Hraw) as (Hw0 & Hkey & Hsize & (Hc & Hc') & Ht & Hfl).
  unfold copy_node. rewrite <- Ek.
  set (m0 := mkNode _ 0 _) in Hw0, Hkey, Hsize, Hc, Hc', Ht, Hfl. set (m := mkNode _ (count n) _).
  assert (node_wf m) as Hwm by (change m with (set_count (count n) m0); apply set_count_wf; [done|apply Hw]).
  assert (node_key m = node_key n /\ node_block_size m = block /\ cap <= node_body_capacity m <= Z.max cap largest_class /\
    node_type m = node_type n /\ node_flags m = node_flags n /\ count m = count n) as (E1 & E2 & (E3 & E3') & E4 & E5 & E6)
    by (conjuncts; reflexivity).
  clearbody m. clear m0 Hw0 Hkey Hsize Hc Hc' Ht Hfl.
  destruct (capacity_eq n Hw) as [Ecn Hcn]. destruct (capacity_eq m Hwm) as [Ecm Hcm].
  destruct (Z.eqb_spec (Z.min (node_body_capacity n) (node_body_capacity m)) 0) as [Ez|Ez].
  - split; [|done]. unfold grown. rewrite Ez. by conjuncts.
  - set (k := Z.min (node_body_capacity n) (node_body_capacity m)) in *.
    assert (len (read_at 0 k (node_body n)) = k) as Elk by (apply len_read_at; lia).
    destruct (write_body_spec 0 (read_at 0 k (node_body n)) m Hwm ltac:(lia) ltac:(lia)) as (Hw' & Hk' & Hb' & Hs').
    assert (node_body_capacity (write_body 0 (read_at 0 k (node_body n)) m) = node_body_capacity m) as Ec'.
    { destruct (capacity_eq _ Hw') as [-> _]. rewrite Hb', len_write_at by lia. done. }
    split; [|congruence]. unfold grown. rewrite Ec', Hb'. fold k. conjuncts; [congruence|].
    rewrite <- Elk at 1. apply read_write_same; lia.
Qed.

Lemma same_promoted n m : node_type m = node_type n -> node_flags m = node_flags n -> is_promoted m = is_promoted n.
Proof. intros E1 E2. unfold is_promoted, has_flag. by rewrite E1, E2. Qed.

Lemma moved_deadlines (db : Database A) idx order pend loose a n p :
  store_inv db idx order pend loose -> heap_ db !! a = Some n -> p <> 0 -> deadlines (exp_ db) !! p = None ->
  let X := if has_flag flag_has_ttl n then move_expiry a p (exp_ db) else exp_ db in
  exp_ok X /\ deadlines X = carried a p true (deadlines (exp_ db)) /\
  length (expiry_heap_ X) = length (expiry_heap_ (exp_ db)).
Proof.
  intros [Hc He] Ea Hp Hd. rewrite (si_flag _ _ He a n Ea). unfold carried.
  destruct (deadlines (exp_ db) !! a) as [d|] eqn:Eda.
  - rewrite bool_decide_true by (by eexists). destruct (move_spec a p (exp_ db) (si_exp _ _ He) Hp Hd) as [HX EX].
    rewrite Eda in EX. conjuncts. rewrite deadlines_lookup in Eda. unfold move_expiry.
    destruct (expiries_ (exp_ db) !! a) as [[d' i]|]; [|done]. cbn [expiry_heap_ set_map set_heap]. apply length_insert.
  - rewrite bool_decide_false by (by intros []). rewrite delete_id by done. conjuncts; [apply He|done|done].
Qed.

Lemma carried_lookup a p keep D b :
  p <> a -> D !! p = None ->
  carried a p keep D !! b =
  if decide (b = p) then (if keep then D !! a else None) else if decide (b = a) then None else D !! b.
Proof.
  intros Hne Hp. unfold carried. destruct (if keep then D !! a else None) as [d|] eqn:Ea.
  - destruct (decide (b = p)) as [->|Hb]; [by rewrite lookup_insert_eq|]. rewrite lookup_insert_ne by done.
    destruct (decide (b = a)) as [->|Hba]; [by rewrite lookup_delete_eq|by rewrite lookup_delete_ne].
  - destruct (decide (b = p)) as [->|Hb]; [by rewrite lookup_delete_ne|].
    destruct (decide (b = a)) as [->|Hba]; [by rewrite lookup_delete_eq|by rewrite lookup_delete_ne].
Qed.

Lemma moved_expiry (db db' : Database A) idx order pend loose a n p m :
  store_inv db idx order pend loose -> a ∈ order -> heap_ db !! a = Some n -> p <> a -> (p ∉ order) ->
  node_flags m = node_flags n -> heap_ db' = delete a (<[p := m]> (heap_ db)) ->
  exp_ok (exp_ db') -> deadlines (exp_ db') = carried a p true (deadlines (exp_ db)) ->
  length (expiry_heap_ (exp_ db')) = length (expiry_heap_ (exp_ db)) ->
  ttl_key_count_ db' = ttl_key_count_ db -> ttl_hint_ db' = ttl_hint_ db -> store_expiry db' (replaced a p order).
Proof.
  intros HI Ha Ea Hpa Hpo Ef Eh HX EX ElX Etc Eth. pose proof HI as [Hc He].
  pose proof (inv_no_deadline _ _ _ _ _ p HI Hpo) as Edp.
  constructor; rewrite ?EX, ?Etc, ?Eth; try assumption.
  - intros b k E. rewrite Eh in E. apply lookup_delete_Some in E as [Hba E]. rewrite carried_lookup by done.
    apply lookup_insert_Some in E as [[<- <-]|[Hbp E]].
    + rewrite decide_True by done. unfold has_flag. rewrite Ef. by apply He.
    + rewrite !decide_False by congruence. by apply He.
  - intros b. rewrite carried_lookup by done. rewrite elem_of_replaced by done.
    destruct (decide (b = p)) as [->|]; [auto|]. destruct (decide (b = a)) as [->|]; [by intros []|].
    intros Hb. right. split; [done|]. by apply He.
  - rewrite (si_ttl_count _ _ He). unfold len. by rewrite ElX.
  - rewrite (si_ttl_hint _ _ He). unfold len. by rewrite ElX.
Qed.

Lemma grow_node_wp (db : Database A) idx order pend loose a n cap Q E :
  store_inv db idx order pend loose -> a ∈ order -> heap_ db !! a = Some n -> table_of n = None -> 0 <= cap ->
  (forall p m db', store_inv db' (<[node_key n := p]> idx) (replaced a p order) pend loose ->
     heap_ db !! p = None -> p <> a -> p <> 0 ->
     heap_ db' = delete a (<[p := m]> (heap_ db)) -> grown n m cap ->
     deadlines (exp_ db') = carried a p true (deadlines (exp_ db)) -> tables_ db' = tables_ db -> env db' = env db ->
     Q p db') ->
  (forall db', store_inv db' idx order pend loose -> same_data db db' -> E exn_bad_alloc db') ->
  wp (grow_node a cap) Q E db.
Proof.
  intros HI Ha Ea Htab Hcap HQ HE. unfold grow_node. wp_steps. rewrite (node_at_lookup _ _ _ Ea).
  pose proof HI as [Hc He]. pose proof (si_wf _ _ _ _ _ Hc _ _ Ea) as Hw.
  destruct (block_layout (node_key_length n) cap) as [[size_class block]|] eqn:El.
  2:{ wp_steps. apply HE; [done|]. by split_and!. }
  destruct (meta_range n) as (Hk & _ & _).
  destruct (block_layout_spec (node_key_length n) cap size_class block Hk Hcap El) as (Hb & Hcls).
  assert (sizeof_Node <= block) as Hb32.
  { destruct (key_stride_spec _ Hk) as [Hs _]. unfold sizeof_Node in *. destruct Hcls as [(_ & _ & ?)|(_ & ?)]; lia. }
  wp_steps. apply on_alloc_wp. eapply wp_mono; [apply (al_allocate_spec block _ (si_alloc _ _ _ _ _ Hc)); lia|..].
  2:{ intros e a' (-> & Hok & Elive & Etk). apply HE; [by apply alloc_kept_inv|]. by split_and!. }
  intros p a' (Hok & Hp & Hnone & Elive & Etk). wp_steps. cbn [alloc_ put_alloc].
  destruct (copy_node_spec n size_class block cap (junk a' p (block - sizeof_Node)) Hw Hcap El
    (junk_len a' p (block - sizeof_Node) ltac:(lia))) as [Hg Hsize].
  generalize dependent (copy_node n size_class block (junk a' p (block - sizeof_Node))). intros m Hg Hsize.
  rewrite <- Hsize in Elive. clear El Hcls Hb Hb32.
  destruct (fresh_address db _ _ _ _ Hc p Hnone) as (Ep & Hpo & Hpp). assert (p <> a) as Hpa by congruence.
  assert (deadlines (exp_ db) !! p = None) as Edp by (by eapply inv_no_deadline).
  assert (al_live a' !! a = Some (node_block_size n)) as Elva.
  { rewrite Elive, lookup_insert_ne, (si_live _ _ _ _ _ Hc), lookup_fmap, Ea by done. done. }
  destruct (al_deallocate_spec _ _ _ Hok Elva) as (Hok2 & Elv2 & Etk2). rewrite Elive in Elv2. rewrite Etk in Etk2.
  apply wp_when_modify. wp_steps.
  destruct (moved_deadlines db _ _ _ _ a n p HI Ea ltac:(lia) Edp) as (HX & EX & ElX).
  assert (forall db0 : Database A, (if has_flag flag_has_ttl n then put_exp (move_expiry a p (exp_ db0)) db0 else db0) =
    put_exp (if has_flag flag_has_ttl n then move_expiry a p (exp_ db0) else exp_ db0) db0) as Eif.
  { intros db0. destruct (has_flag flag_has_ttl n); [done|]. by destruct db0. }
  rewrite Eif. cbn [exp_ put_lru put_heap put_alloc].
  generalize dependent (if has_flag flag_has_ttl n then move_expiry a p (exp_ db) else exp_ db).
  intros X HX EX ElX. set (db' := bump_sequence _). destruct Hg as (Hwm & Ekm & Etm & Efm & Ecm & Hcm & Hbm).
  assert (table_of m = None) as Htabm.
  { unfold table_of in *. rewrite (same_promoted n m) by done. by destruct (is_promoted n). }
  apply (HQ p m db'); [|done|done|lia|reflexivity|by conjuncts|exact EX|reflexivity|reflexivity]. split.
  - refine (grow_core db _ _ _ _ Hc db' a n p m Ha Ea Hnone _ Hwm Ekm Htab Htabm eq_refl eq_refl eq_refl eq_refl
      Hok2 Elv2 Etk2 eq_refl eq_refl _); [lia|]. cbn. by rewrite Hsize.
  - exact (moved_expiry db db' _ _ _ _ a n p m HI Ha Ea Hpa Hpo Efm eq_refl HX EX ElX eq_refl eq_refl).
Qed.

End spec.
