(* ===== verification/Contents.v ===== *)
(** * Contents: the keyspace as a map

    What a node holds as an abstract value, and the whole database as a map
    from keys to values with deadlines, together with the order of use.
    [db_ok db K R] says that the memory of [db] represents the keyspace [K],
    most recently used keys first in [R].  [logged rs db] says that the log
    holds the records [rs].  The lookups and the log are specified in these
    terms; the commands are in the files that follow. *)

From S2P Require Import Prelude Errors Effects Pack WalCodec Wal Allocator Slab Lru Expiry Buckets Node Store Keyspace StoreSpec.

(** ** Values *)

Inductive dvalue :=
| DString (s : bytes)
| DInt (z : Z)
| DList (l : list Value)
| DHash (h : gmap bytes Value).

Abbreviation entry := (dvalue * option Z)%type.

Abbreviation Keyspace := (gmap bytes entry).

(** The bytes of a list's elements, and of a packed hash's pairs. *)
Definition encode_run (l : list Value) : bytes := concat (map (fun v => write_element (input_from v) true) l).
Definition encode_pair (p : bytes * Value) : bytes := encode_body_text p.1 ++ write_element (input_from p.2) false.
Definition encode_pairs (l : list (bytes * Value)) : bytes := concat (map encode_pair l).

Definition list_limit : Z := 64 * 1024 * 1024.

(** No command asks for a larger body. *)
Definition body_limit : Z := 2 ^ 28.

Record list_rep (n : Node) (l : list Value) : Prop := {
  lp_body : sizeof_ListBody <= node_body_capacity n <= body_limit;
  lp_room : list_head n + list_used n <= list_run_capacity n;
  lp_run : read_at (sizeof_ListBody + list_head n) (list_used n) (node_body n) = encode_run l;
  lp_used : list_used n = len (encode_run l) /\ list_used n <= list_limit;
  lp_count : count n = len l;
  lp_values : Forall encodable l
}.

Record packed_rep (n : Node) (l : list (bytes * Value)) : Prop := {
  pk_room : hash_used n <= node_body_capacity n;
  pk_body : read_at 0 (hash_used n) (node_body n) = encode_pairs l;
  pk_used : hash_used n = len (encode_pairs l) /\ hash_used n <= hash_packed_byte_limit;
  pk_count : hash_count n = len l /\ len l <= hash_packed_limit;
  pk_fields : NoDup l.*1;
  pk_values : Forall (fun p => len p.1 <= uint32_max /\ encodable p.2) l
}.

(** A node holds a value. *)
Definition holds (tables : gmap Z HashTable) (n : Node) (v : dvalue) : Prop :=
  match v with
  | DString s => node_type n = type_string /\ count n = len s /\ len s <= node_body_capacity n /\ string_value n = s
  | DInt z => node_type n = type_integer /\ 8 <= node_body_capacity n /\ integer_value n = z
  | DList l => node_type n = type_list /\ list_rep n l
  | DHash h => node_type n = type_hash /\
      if has_flag flag_hash_promoted n
      then tables !! promoted_hash n = Some h /\ 8 <= node_body_capacity n /\
           map_Forall (fun f v => len f <= uint32_max /\ encodable v) h
      else exists l, packed_rep n l /\ h = list_to_map l
  end.

Lemma holds_tables T T' n v :
  (forall t, table_of n = Some t -> T' !! t = T !! t) -> holds T n v -> holds T' n v.
Proof.
  intros HT. destruct v as [s|z|l|h]; cbn [holds]; try exact (fun H => H).
  intros (Et & Hh). conjuncts.
  unfold table_of, is_promoted in HT. rewrite Et, bool_decide_true in HT by done. cbn [andb] in HT.
  destruct (has_flag flag_hash_promoted n); [|exact Hh]. rewrite HT; [exact Hh|reflexivity].
Qed.

(** Values are read through the body, the count, the type and one flag. *)
Lemma holds_remarked T n n' v : remarked n n' -> holds T n v -> holds T n' v.
Proof.
  intros (_ & Hs & Hp & Et & Ec). destruct (same_shape_views _ _ Hs) as (_ & Eb & _ & Ecap).
  assert (list_run_capacity n' = list_run_capacity n) as Erc by (unfold list_run_capacity; by rewrite Ecap).
  destruct v as [s|z|l|h]; cbn [holds]; unfold string_value, integer_value, promoted_hash;
    rewrite ?Hp, ?Et, ?Ec, ?Eb, ?Ecap.
  - exact (fun H => H).
  - exact (fun H => H).
  - intros (? & [H1 H2 H3 H4 H5 H6]). conjuncts. constructor; unfold list_head, list_used in *; rewrite ?Eb, ?Ecap, ?Ec, ?Erc; assumption.
  - intros (? & Hh). conjuncts. destruct (has_flag flag_hash_promoted n); [exact Hh|].
    destruct Hh as (l & [H1 H2 H3 H4 H5 H6] & Hh). exists l. split; [|done].
    constructor; unfold hash_used, hash_count in *; rewrite ?Eb, ?Ecap, ?Ec; assumption.
Qed.

(** The type tells the kind of value. *)
Lemma holds_type T n v : holds T n v ->
  node_type n = match v with DString _ => type_string | DInt _ => type_integer | DList _ => type_list | DHash _ => type_hash end.
Proof. destruct v; by intros (? & _). Qed.

Lemma read_at_within off k c b : 0 <= off -> 0 <= c -> off + k <= c -> read_at off k (read_at 0 c b) = read_at off k b.
Proof.
  intros Ho Hc Hk. unfold read_at. cbn [Z.to_nat drop]. rewrite skipn_firstn_comm, take_take. f_equal. lia.
Qed.

(** So a copy into a larger block holds the same value. *)
Lemma grown_read n m cap off k :
  node_wf n -> node_body_capacity n <= cap -> grown n m cap -> 0 <= off -> off + k <= node_body_capacity n ->
  read_at off k (node_body m) = read_at off k (node_body n).
Proof.
  intros Hw Hcap (_ & _ & _ & _ & _ & Hm & E) Ho Hk. destruct (capacity_eq n Hw) as [_ Hc].
  rewrite Z.min_l in E by lia. rewrite <- (read_at_within off k (node_body_capacity n)) by lia. rewrite E.
  by apply read_at_within; lia.
Qed.

Lemma list_words n : 0 <= list_head n < 2 ^ 32 /\ 0 <= list_used n < 2 ^ 32.
Proof.
  assert (forall off, 0 <= le_value (read_at off 4 (node_body n)) < 2 ^ 32) as Hr; [|split; apply Hr].
  intros off. pose proof (le_value_range (read_at off 4 (node_body n))) as Hv.
  assert (len (read_at off 4 (node_body n)) <= 4) as Hl by (unfold len, read_at; rewrite length_take; lia).
  assert (256 ^ len (read_at off 4 (node_body n)) <= 256 ^ 4) by (apply Z.pow_le_mono_r; lia).
  change (2 ^ 32) with (256 ^ 4). lia.
Qed.

Lemma class_below_limit : largest_class <= body_limit.
Proof. vm_compute. discriminate. Qed.

Lemma holds_grown T n m cap v :
  node_wf n -> node_body_capacity n <= cap <= body_limit -> table_of n = None -> grown n m cap -> holds T n v -> holds T m v.
Proof.
  intros Hw Hcap Htab Hg. pose proof (grown_read n m cap) as Hread. pose proof Hg as (Hwm & _ & Et & Ef & Ec & Hm & _).
  destruct (capacity_eq n Hw) as [_ Hcn]. pose proof (nw_count _ Hw) as Hct.
  destruct v as [s|z|l|h]; cbn [holds]; unfold string_value, integer_value; rewrite Et.
  - intros (? & E1 & Hs & Es). rewrite Ec, Hread by (try done; lia). conjuncts. lia.
  - intros (? & Hc & Ez). rewrite Hread by (try done; lia). conjuncts. lia.
  - intros (? & [H1 H2 H3 H4 H5 H6]). conjuncts. destruct (list_words n) as [Hh Hu]. pose proof class_below_limit.
    assert (list_run_capacity n = node_body_capacity n - 8 /\ list_run_capacity n <= list_run_capacity m) as [Er Erm].
    { unfold list_run_capacity, sizeof_ListBody in *. zcases; lia. }
    unfold sizeof_ListBody in *.
    assert (list_head m = list_head n /\ list_used m = list_used n) as [E1 E2].
    { unfold list_head, list_used. rewrite !Hread by (try done; lia). done. }
    constructor; rewrite ?E1, ?E2, ?Ec; unfold sizeof_ListBody in *; try done; try lia.
    rewrite Hread by (try done; lia). exact H3.
  - intros (Eh & Hh). conjuncts. unfold table_of, is_promoted in Htab. rewrite Eh, bool_decide_true in Htab by done.
    cbn [andb] in Htab. unfold has_flag in *. rewrite Ef.
    destruct (negb (Z.land (node_flags n) flag_hash_promoted =? 0)); [done|].
    destruct Hh as (l & [H1 H2 H3 H4 H5 H6] & El). exists l. split; [|done].
    assert (hash_used m = hash_used n /\ hash_count m = hash_count n) as [E1 E2] by (unfold hash_used, hash_count; by rewrite Ec).
    constructor; rewrite ?E1, ?E2; try done; try lia. rewrite Hread by (try done; lia). exact H2.
Qed.

Section contents.

Context {A : Type} `{NodeAllocator A} `{!Platform A}.

(** ** The keyspace of a database *)

Definition entry_at (db : Database A) (a : Z) (e : entry) : Prop :=
  exists n, heap_ db !! a = Some n /\ holds (tables_ db) n e.1 /\ e.2 = deadlines (exp_ db) !! a.

Definition represents (db : Database A) (idx : gmap bytes Z) (K : Keyspace) : Prop :=
  forall k, match idx !! k with
            | None => K !! k = None
            | Some a => exists e, K !! k = Some e /\ entry_at db a e
            end.

(** An entry depends on its node, the node's table and its deadline. *)
Lemma entry_frame (db db' : Database A) a e :
  entry_at db a e -> heap_ db' !! a = heap_ db !! a -> deadlines (exp_ db') !! a = deadlines (exp_ db) !! a ->
  (forall n t, heap_ db !! a = Some n -> table_of n = Some t -> tables_ db' !! t = tables_ db !! t) ->
  entry_at db' a e.
Proof.
  intros (n & Ea & Hn & Ed) Eh Ed' Ht. exists n. conjuncts; [congruence| |congruence].
  eapply holds_tables; [|exact Hn]. intros t. by apply Ht.
Qed.

(** A change at one key. *)
Lemma represents_at (db db' : Database A) idx idx' K K' key :
  represents db idx K ->
  (forall k, k <> key -> idx' !! k = idx !! k) -> (forall k, k <> key -> K' !! k = K !! k) ->
  (forall k a e, k <> key -> idx !! k = Some a -> entry_at db a e -> entry_at db' a e) ->
  match idx' !! key with
  | None => K' !! key = None
  | Some a => exists e, K' !! key = Some e /\ entry_at db' a e
  end ->
  represents db' idx' K'.
Proof.
  intros HR Hi HK He Hkey k. destruct (decide (k = key)) as [->|Hne]; [done|].
  rewrite Hi, HK by done. specialize (HR k). destruct (idx !! k) as [a|] eqn:E; [|done].
  destruct HR as (e & Ek & Hea). exists e. split; [done|]. by eapply He.
Qed.

Lemma represents_same (db db' : Database A) idx K :
  represents db idx K -> heap_ db' = heap_ db -> tables_ db' = tables_ db ->
  deadlines (exp_ db') = deadlines (exp_ db) -> represents db' idx K.
Proof.
  intros HR E1 E2 E3 k. specialize (HR k). destruct (idx !! k) as [a|]; [|done].
  destruct HR as (e & Ek & Hea). exists e. split; [done|]. eapply entry_frame; [done|congruence..].
Qed.

Lemma represents_lookup (db : Database A) idx K k a :
  represents db idx K -> idx !! k = Some a -> exists e, K !! k = Some e /\ entry_at db a e.
Proof. intros HR E. specialize (HR k). by rewrite E in HR. Qed.

Lemma represents_none (db : Database A) idx K k : represents db idx K -> K !! k = None <-> idx !! k = None.
Proof.
  intros HR. specialize (HR k). destruct (idx !! k) as [a|]; [|done].
  destruct HR as (e & -> & _). done.
Qed.

(** Different keys have different nodes. *)
Lemma other_node (db : Database A) idx order pend loose k k' a b :
  store_core db idx order pend loose -> idx !! k = Some a -> idx !! k' = Some b -> k <> k' -> a <> b.
Proof. intros Hc E1 E2 Hne ->. apply Hne. rewrite <- (idx_key _ _ _ _ _ Hc _ _ E1). by apply (idx_key _ _ _ _ _ Hc). Qed.

(** Taking a node away leaves the other entries. *)
Lemma entry_without (db db' : Database A) idx order pend loose a n b e :
  store_core db idx order pend loose -> heap_ db !! a = Some n -> b <> a -> entry_at db b e ->
  heap_ db' !! b = heap_ db !! b -> tables_ db' = without_table n (tables_ db) ->
  deadlines (exp_ db') !! b = deadlines (exp_ db) !! b -> entry_at db' b e.
Proof.
  intros Hc Ea Hne He Eh Et Ed. eapply entry_frame; [done..|]. intros m t Em Etm. rewrite Et. unfold without_table.
  destruct (table_of n) as [u|] eqn:Eu; [|done]. cbn [from_option]. rewrite lookup_delete_ne; [done|].
  intros ->. apply Hne. by apply (si_owner _ _ _ _ _ Hc b a m n t).
Qed.

(** ** The log *)

Definition logged (rs : list (WalOp * list bytes)) (db : Database A) : Prop :=
  match wal_ db with Some w => wal_inv rs w | None => True end.

Definition log_failed (db : Database A) : bool := match wal_ db with Some w => failed_ w | None => false end.

(** Whether a change is written to the log, and the records it then is. *)
Definition logging (db : Database A) : bool :=
  match wal_ db with Some _ => negb (replaying_ db) | None => false end.
Definition recs (db : Database A) (l : list (WalOp * list bytes)) : list (WalOp * list bytes) :=
  if logging db then l else [].

(** After a failed write the log has what it had, unless the log has failed
    for good: then it may have some of the records [c] that were to be
    written. *)
Definition refused (rs c : list (WalOp * list bytes)) (db : Database A) : Prop :=
  exists extra, logged (rs ++ extra) db /\ (log_failed db = false -> extra = []) /\ extra `prefix_of` c.

(** The log as calls leave it. *)
Definition log_moves (db db' : Database A) : Prop :=
  match wal_ db, wal_ db' with Some w, Some w' => moves w w' | None, None => True | _, _ => False end.

(** A call goes on: time passes, the log may get longer or fail for good, and
    nothing else outside the keyspace changes. *)
Definition after (db db' : Database A) : Prop :=
  replaying_ db' = replaying_ db /\ (time_ db <= time_ db')%nat /\ logging db' = logging db /\
  max_keys_ db' = max_keys_ db /\ log_moves db db'.

Lemma log_moves_same db db' : wal_ db' = wal_ db -> log_moves db db'.
Proof. intros E. unfold log_moves. rewrite E. destruct (wal_ db); [apply moves_refl|done]. Qed.

Lemma after_refl db : after db db.
Proof. split_and!; try done. by apply log_moves_same. Qed.

Lemma after_trans db1 db2 db3 : after db1 db2 -> after db2 db3 -> after db1 db3.
Proof.
  intros (E1 & T1 & L1 & M1 & F1) (E2 & T2 & L2 & M2 & F2). split_and!; [congruence|lia|congruence|congruence|].
  unfold log_moves in *. destruct (wal_ db1), (wal_ db2), (wal_ db3); try done. by eapply moves_trans.
Qed.

Lemma after_same db db' :
  wal_ db' = wal_ db -> replaying_ db' = replaying_ db -> time_ db' = time_ db -> max_keys_ db' = max_keys_ db -> after db db'.
Proof.
  intros E1 E2 E3 E4. split_and!; try done; [by rewrite E3|unfold logging; by rewrite E1, E2|by apply log_moves_same].
Qed.

Lemma env_after db db' : env db' = env db -> after db db'.
Proof. intros [= E1 E2 E3 E4 E5 E6]. by apply after_same. Qed.

Lemma env_logged rs db db' : env db' = env db -> logged rs db -> logged rs db'.
Proof. intros [= E1 E2 E3 E4 E5 E6]. unfold logged. by rewrite E1. Qed.

Lemma logged_refused rs c db : logged rs db -> refused rs c db.
Proof. intros Hl. exists []. rewrite app_nil_r. split; [exact Hl|]. split; [done|apply prefix_nil]. Qed.

Lemma refused_more rs c c' db : c `prefix_of` c' -> refused rs c db -> refused rs c' db.
Proof. intros Hc (extra & Hl & Hx & Hp). exists extra. split; [exact Hl|]. split; [exact Hx|by etrans]. Qed.

Lemma after_recs db db' l : after db db' -> recs db' l = recs db l.
Proof. intros (_ & _ & E & _). unfold recs. by rewrite E. Qed.

Lemma recs_nil db : recs db [] = [].
Proof. unfold recs. by destruct (logging db). Qed.
Lemma recs_app db l1 l2 : recs db (l1 ++ l2) = recs db l1 ++ recs db l2.
Proof. unfold recs. by destruct (logging db). Qed.
Lemma recs_cons db r l : recs db (r :: l) = recs db [r] ++ recs db l.
Proof. exact (recs_app db [r] l). Qed.

Lemma after_time (db : Database A) t : (time_ db <= t)%nat -> after db (put_time t db).
Proof. intros Ht. split; [reflexivity|]. split; [exact Ht|]. split; [reflexivity|]. split; [reflexivity|by apply log_moves_same]. Qed.

(** A call on the log is one. *)
Lemma after_wal (db : Database A) w w' :
  wal_ db = Some w -> moves w w' -> after db (put_wal (Some w') db).
Proof.
  intros Ew Hf. unfold after, logging, log_moves. cbn [wal_ put_wal replaying_ time_ max_keys_]. rewrite Ew. by split_and!.
Qed.

Lemma log_wp db rs op args Q E :
  logged rs db -> real_op op ->
  (forall w, let db' := put_wal w db in logged (rs ++ recs db [(op, args)]) db' -> after db db' -> Q tt db') ->
  (forall e w, let db' := put_wal w db in refused rs (recs db [(op, args)]) db' -> after db db' -> E e db') ->
  wp (log op args) Q E db.
Proof.
  intros Hl Hop HQ HE. unfold wp, log, logged, recs, logging in *. destruct (wal_ db) as [w|] eqn:Ew.
  - destruct (replaying_ db) eqn:Er; cbn [negb] in *.
    + specialize (HQ (Some w)). cbn in HQ. rewrite app_nil_r in HQ.
      assert (put_wal (Some w) db = db) as E0 by (rewrite <- Ew; by destruct db). rewrite E0 in HQ. apply HQ; [done|apply after_refl].
    + pose proof (append_inv rs w op args Hop Hl) as Ha. pose proof (call_moves rs w (c_append op args) Hop Hl) as Hm.
      unfold wp in Ha, Hm. cbn [run_call] in Hm. destruct (append op args w) as [[e|[]] w'].
      * destruct Ha as ((rs' & Hrs & Hi & Hf & _) & _). apply HE; [|by apply (after_wal db w w' Ew)].
        exists rs'. split; [exact Hi|]. split; [intros Hnf; by apply Hf|]. destruct Hrs as [-> | ->]; [apply prefix_nil|done].
      * destruct Ha as (Hi & _). apply HQ; [exact Hi|by apply (after_wal db w w' Ew)].
  - specialize (HQ None). cbn in HQ. assert (put_wal None db = db) as E0 by (rewrite <- Ew; by destruct db).
    rewrite E0 in HQ. apply HQ; [done|apply after_refl].
Qed.

(** ** Order of use *)

Definition recency (db : Database A) (order : list Z) : list bytes := key_at db <$> order.

(** The other keys, in order. *)
Definition others (key : bytes) (R : list bytes) : list bytes := filter (fun k => k <> key) R.

Definition db_ok (db : Database A) (K : Keyspace) (R : list bytes) : Prop :=
  exists idx order, store_inv db idx order ∅ ∅ /\ represents db idx K /\ R = recency db order.

Lemma recency_others (db : Database A) idx order pend loose key a :
  store_core db idx order pend loose -> idx !! key = Some a ->
  recency db (filter (fun b => b <> a) order) = others key (recency db order).
Proof.
  intros Hc Hi. pose proof (idx_key _ _ _ _ _ Hc _ _ Hi) as Hk.
  assert (forall b, b ∈ order -> b <> a <-> key_at db b <> key) as Hiff.
  { intros b Hb. apply (si_order _ _ _ _ _ Hc) in Hb. split; intros Hne E; apply Hne; [|by subst].
    rewrite E in Hb. congruence. }
  unfold recency, others. clear Hi Hc. induction order as [|b order IH]; [done|]. rewrite fmap_cons.
  assert (forall c, c ∈ order -> c <> a <-> key_at db c <> key) as Hiff' by (intros c Hc; apply Hiff; by right).
  specialize (IH Hiff'). destruct (decide (b = a)) as [->|Hb].
  - rewrite filter_cons_False by congruence. rewrite filter_cons_False by congruence. done.
  - rewrite filter_cons_True by done. rewrite filter_cons_True by (apply Hiff; [left|done]). by rewrite fmap_cons, IH.
Qed.

Lemma recency_absent (db : Database A) idx order pend loose key :
  store_core db idx order pend loose -> idx !! key = None -> others key (recency db order) = recency db order.
Proof.
  intros Hc Hi. apply filter_all, Forall_forall. intros k Hk ->. apply list_elem_of_fmap in Hk as (b & -> & Hb).
  apply (si_order _ _ _ _ _ Hc) in Hb. congruence.
Qed.

Lemma recency_ext (db db' : Database A) order :
  (forall b, b ∈ order -> key_at db' b = key_at db b) -> recency db' order = recency db order.
Proof. intros Hext. apply list_fmap_ext. intros i b Hb. apply Hext. by eapply list_elem_of_lookup_2. Qed.

Lemma touch_ok (db : Database A) idx order K key a :
  store_inv db idx order ∅ ∅ -> represents db idx K -> idx !! key = Some a ->
  let order' := a :: filter (fun b => b <> a) order in
  store_inv (touch a db) idx order' ∅ ∅ /\ represents (touch a db) idx K /\
  recency (touch a db) order' = key :: others key (recency db order).
Proof.
  intros HI HR Hi order'. pose proof HI as [Hc _]. pose proof (idx_order _ _ _ _ _ Hc _ _ Hi) as Ho. conjuncts.
  - by apply touch_inv.
  - change (recency db order' = key :: others key (recency db order)). unfold order', recency. rewrite fmap_cons.
    rewrite (idx_key _ _ _ _ _ Hc _ _ Hi). f_equal. by eapply recency_others.
Qed.

Lemma erase_ok (db : Database A) idx order K key a :
  store_inv db idx order ∅ ∅ -> represents db idx K -> idx !! key = Some a ->
  let order' := filter (fun b => b <> a) order in
  store_inv (erase_node a db) (delete key idx) order' ∅ ∅ /\
  represents (erase_node a db) (delete key idx) (delete key K) /\
  recency (erase_node a db) order' = others key (recency db order) /\ env (erase_node a db) = env db.
Proof.
  intros HI HR Hi order'. pose proof HI as [Hc _]. pose proof (idx_order _ _ _ _ _ Hc _ _ Hi) as Ho.
  destruct (idx_node _ _ _ _ _ Hc _ _ Hi) as (n & Ea & Ek & Ha0).
  destruct (erase_spec db _ _ _ _ a n HI Ho Ea) as (HI' & Eh & Et & Ed & Ev). rewrite Ek in HI'.
  generalize dependent (erase_node a db). intros db' HI' Eh Et Ed Ev. conjuncts.
  - apply (represents_at db db' idx (delete key idx) K (delete key K) key HR).
    + intros k Hk. by rewrite lookup_delete_ne.
    + intros k Hk. by rewrite lookup_delete_ne.
    + intros k b e Hk Hb Hbe. assert (b <> a) as Hba by (by eapply (other_node db _ _ _ _ k key)).
      apply (entry_without db db' idx order ∅ ∅ a n b e Hc Ea Hba Hbe);
        [by rewrite Eh, lookup_delete_ne|exact Et|by rewrite Ed, lookup_delete_ne].
    + by rewrite !lookup_delete_eq.
  - rewrite <- (recency_others db _ _ _ _ key a Hc Hi). apply recency_ext. intros b Hb.
    apply list_elem_of_filter in Hb as [Hb _]. unfold key_at, node_at. by rewrite Eh, lookup_delete_ne.
Qed.

(** ** Lookups *)

Definition expired_at (now : Z) (e : entry) : bool := match e.2 with Some d => d <=? now | None => false end.

(** Whether a call made now finds that the key's deadline has passed; nothing
    expires while the log is replayed. *)
Definition gone (db : Database A) (K : Keyspace) (key : bytes) : bool :=
  match K !! key with
  | Some e => expired_at (steady_at (time_ db)) e && negb (replaying_ db)
  | None => false
  end.

(** The entry a reader sees, and the keyspace and records of a writer once it
    has removed an entry past its deadline. *)
Definition seen (db : Database A) (K : Keyspace) (key : bytes) : option entry :=
  if gone db K key then None else K !! key.
Definition purged (db : Database A) (K : Keyspace) (key : bytes) : Keyspace :=
  if gone db K key then delete key K else K.
Definition purge_records (db : Database A) (K : Keyspace) (key : bytes) : list (WalOp * list bytes) :=
  if gone db K key then [(op_del, [key])] else [].

Lemma put_time_inv (db : Database A) idx order pend loose t :
  store_inv db idx order pend loose -> store_inv (put_time t db) idx order pend loose.
Proof. intros HI. eapply inv_frame; [exact HI|reflexivity..]. Qed.

(** What the flag and the map of deadlines tell about an entry. *)
Lemma entry_deadline (db : Database A) idx order pend loose a e n :
  store_inv db idx order pend loose -> entry_at db a e -> heap_ db !! a = Some n ->
  (if has_flag flag_has_ttl n then deadline_of a db else None) = e.2.
Proof.
  intros [_ He] (n' & Ea & _ & ->) En. assert (n' = n) as -> by congruence.
  rewrite (si_flag _ _ He a n En). unfold deadline_of. rewrite <- deadlines_lookup.
  destruct (deadlines (exp_ db) !! a); [by rewrite bool_decide_true by (by eexists)|by rewrite bool_decide_false by (by intros [])].
Qed.

Lemma now_wp Q E (db : Database A) :
  Q (steady_at (time_ db)) (put_time (S (time_ db)) db) -> wp now_ms Q E db.
Proof. done. Qed.

Lemma put_time_same (db : Database A) : put_time (time_ db) db = db.
Proof. by destruct db. Qed.

Lemma find_active_wp (db : Database A) idx order K key Q E :
  store_inv db idx order ∅ ∅ -> represents db idx K ->
  (forall t, (time_ db <= t)%nat -> seen db K key = None -> Q 0 (put_time t db)) ->
  (forall t a e, (time_ db <= t)%nat -> idx !! key = Some a -> a ∈ order -> seen db K key = Some e -> entry_at db a e ->
     Q a (touch a (put_time t db))) ->
  wp (find_active key) Q E db.
Proof.
  intros HI HR HQ0 HQ. pose proof HI as [Hc _]. unfold find_active. wp_steps.
  rewrite (find_node_eq db _ _ _ _ Hc). unfold seen, gone in *. pose proof (HR key) as HRk.
  destruct (idx !! key) as [a|] eqn:Ei; cbn [from_option id] in *.
  2:{ rewrite HRk in *. change (0 =? 0) with true. cbn iota. wp_steps. rewrite <- (put_time_same db). by apply HQ0. }
  destruct HRk as (e & Ek & Hea). rewrite Ek in *. destruct (idx_node db _ _ _ _ Hc _ _ Ei) as (n & Ea & _ & Ha0).
  pose proof (idx_order db _ _ _ _ Hc _ _ Ei) as Ho.
  destruct (Z.eqb_spec a 0) as [?|_]; [done|]. wp_steps. rewrite (node_at_lookup _ _ _ Ea).
  pose proof (entry_deadline _ _ _ _ _ a e n HI Hea Ea) as Hd. unfold expired_at in *.
  assert (e.2 = None -> Q a (touch a db)) as Hnone.
  { intros E2. rewrite E2 in HQ. rewrite <- (put_time_same db). by eapply HQ. }
  destruct (has_flag flag_has_ttl n); [|wp_steps; apply Hnone; done].
  destruct (deadline_of a db) as [d|]; [|wp_steps; apply Hnone; done]. rewrite <- Hd in *.
  unfold wp. cbn [bind now_ms]. destruct ((d <=? steady_at (time_ db)) && negb (replaying_ db)).
  - apply HQ0; [lia|done].
  - apply (HQ _ a e); [lia|done..].
Qed.

(** ** The lookup of the commands that write *)

(** The keyspace a write of [ops] was refused on: the key may have been found
    past its deadline, and removed, before the refusal. *)
Definition kept (db : Database A) (K : Keyspace) (rs ops : list (WalOp * list bytes)) (key : bytes) (db' : Database A) : Prop :=
  exists K' R' rs' c, db_ok db' K' R' /\ refused rs' c db' /\ after db db' /\
    (K' = K /\ rs' = rs /\ (c = [] \/ len key <= max_key_length /\ c = recs db (purge_records db K key ++ ops)) \/
     len key <= max_key_length /\ K' = purged db K key /\ rs' = rs ++ recs db (purge_records db K key) /\ c = recs db ops).

(** Where a writer stands once it has looked up its key. *)
Record found (db : Database A) (K : Keyspace) (R : list bytes) (rs : list (WalOp * list bytes)) (key : bytes)
    (a : Z) (db' : Database A) (idx : gmap bytes Z) (order : list Z) : Prop := {
  fd_inv : store_inv db' idx order ∅ ∅;
  fd_rep : represents db' idx (purged db K key);
  fd_node : a = default 0 (idx !! key);
  fd_recency : recency db' order = (if decide (is_Some (idx !! key)) then [key] else []) ++ others key R;
  fd_logged : logged (rs ++ recs db (purge_records db K key)) db';
  fd_after : after db db'
}.

Lemma find_writable_wp (db : Database A) idx order K rs key Q E :
  store_inv db idx order ∅ ∅ -> represents db idx K -> logged rs db ->
  (max_key_length < len key -> E (exn_error request_too_large) db) ->
  (forall a db' idx' order', len key <= max_key_length ->
     found db K (recency db order) rs key a db' idx' order' -> Q a db') ->
  (forall e db', (forall ops, kept db K rs ops key db') -> E e db') ->
  wp (find_writable key) Q E db.
Proof.
  intros HI HR Hl HE0 HQ HE. pose proof HI as [Hc _]. unfold find_writable.
  destruct (Z.ltb_spec max_key_length (len key)) as [Hk|Hk]; [wp_steps; by apply HE0|]. wp_steps.
  rewrite (find_node_eq db _ _ _ _ Hc). pose proof (HR key) as HRk.
  destruct (idx !! key) as [a|] eqn:Ei; cbn [from_option id] in *.
  2:{ change (nonnull 0) with false. cbn [andb]. wp_steps. cbn [when]. wp_steps. apply (HQ 0 db idx order Hk).
      assert (gone db K key = false) as Hg by (unfold gone; by rewrite HRk).
      constructor; unfold purged, purge_records; rewrite ?Hg, ?Ei; try done.
      - rewrite decide_False by (by intros []). by rewrite (recency_absent db _ _ _ _ key Hc Ei).
      - unfold recs. destruct (logging db); by rewrite app_nil_r.
      - apply after_refl. }
  destruct HRk as (e & Ek & Hea). destruct (idx_node db _ _ _ _ Hc _ _ Ei) as (n & Ea & _ & Ha0).
  assert (forall t, (time_ db <= t)%nat -> gone db K key = false -> Q a (touch a (put_time t db))) as Htouch.
  { intros t Ht Hg. destruct (touch_ok (put_time t db) idx order K key a) as (HI' & HR' & Erec); [by apply put_time_inv|done|done|].
    eapply (HQ a); [done|]. constructor; [exact HI'|..]; unfold purged, purge_records; rewrite ?Hg, ?Ei; try done.
    - unfold recs. destruct (logging db); by rewrite app_nil_r.
    - eapply after_trans; [by apply (after_time db t)|by apply env_after]. }
  wp_steps. rewrite nonnull_true, (node_at_lookup _ _ _ Ea) by done. cbn [andb when].
  pose proof (entry_deadline _ _ _ _ _ a e n HI Hea Ea) as Hd.
  unfold gone, expired_at in Htouch. rewrite Ek in Htouch. destruct (replaying_ db) eqn:Er; cbn [negb andb] in *.
  { wp_steps. rewrite <- (put_time_same db). apply Htouch; [done|apply andb_false_r]. }
  destruct (has_flag flag_has_ttl n);
    [|wp_steps; rewrite <- (put_time_same db); apply Htouch; [done|by rewrite <- Hd]].
  destruct (deadline_of a db) as [d|];
    [|wp_steps; rewrite <- (put_time_same db); apply Htouch; [done|by rewrite <- Hd]].
  rewrite <- Hd, andb_true_r in Htouch.
  wp_steps. apply now_wp. wp_steps. destruct (d <=? steady_at (time_ db)) eqn:Hexp; [|wp_steps; apply Htouch; [lia|done]].
  assert (gone db K key = true) as Hg by (unfold gone, expired_at; by rewrite Ek, <- Hd, Hexp, Er).
  clear Htouch Hd. set (db1 := put_time (S (time_ db)) db).
  assert (store_inv db1 idx order ∅ ∅) as HI1 by (by apply put_time_inv).
  assert (represents db1 idx K /\ logged rs db1 /\ after db db1 /\ recency db1 order = recency db order /\
    forall l, recs db1 l = recs db l) as (HR1 & Hl1 & Haf1 & Erec1 & Hrecs1).
  { conjuncts; try reflexivity. apply after_time, Nat.le_succ_diag_r. }
  clearbody db1. wp_steps. apply (log_wp _ rs); [done|done|..].
  - intros w db2 Hl2 Haf2. destruct (erase_ok db2 idx order K key a) as (HI3 & HR3 & Erec3 & Ev3);
      [by eapply inv_frame|by eapply represents_same|done|].
    wp_steps. generalize dependent (erase_node a db2). intros db3 HI3 HR3 Erec3 Ev3.
    eapply (HQ 0); [done|].
    constructor; [eapply inv_frame; [exact HI3|reflexivity..]|..]; unfold purged, purge_records; rewrite ?Hg.
    + exact HR3.
    + by rewrite lookup_delete_eq.
    + rewrite decide_False by (rewrite lookup_delete_eq; by intros []). cbn [app]. rewrite <- Erec1. exact Erec3.
    + apply (env_logged _ _ db3) in Hl2; [|done]. rewrite Hrecs1 in Hl2. exact Hl2.
    + apply (after_trans _ _ _ Haf1), (after_trans _ _ _ Haf2), (after_trans _ db3); [by apply env_after|by apply after_same].
  - intros e' w db2 Hr2 Haf2. apply HE. intros ops. exists K, (recency db2 order), rs, (recs db (purge_records db K key ++ ops)).
    conjuncts; [| |by eapply after_trans|left; auto].
    { exists idx, order. conjuncts; [by eapply inv_frame|reflexivity]. }
    eapply refused_more; [|exact Hr2]. unfold purge_records. rewrite Hg, Hrecs1, recs_app. by apply prefix_app_r.
Qed.

(** A new database is empty. *)
Lemma new_database_ok (memory : A) max_keys db a' :
  al_ok memory -> al_live memory = ∅ -> al_taken memory = ∅ -> new_database memory max_keys = (inr db, a') ->
  db_ok db ∅ [] /\ wal_ db = None /\ replaying_ db = false.
Proof.
  intros Hok El Et E. unfold new_database in E. pose proof (al_container_spec memory Hok) as Hc. unfold wp in Hc.
  destruct (al_container memory) as [[e|[]] a]; [done|]. destruct Hc as (Hok' & El' & Et'). injection E as <- <-.
  split; [|done]. exists ∅, []. split; [|split; [intros k; by rewrite lookup_empty|reflexivity]]. split.
  - constructor; cbn [index_ lru_ heap_ alloc_ tables_ key_total_ key_hint_ tracked_bytes_]; try done.
    + apply new_index_ok.
    + constructor; try done; [constructor|apply not_elem_of_nil].
    + intros b. rewrite lookup_empty. split; [intros Hb; by apply elem_of_nil in Hb|done].
    + intros b. rewrite lookup_empty. split; [by intros []|]. intros [Hb|Hb]; [by apply elem_of_nil in Hb|by apply elem_of_empty in Hb].
    + by rewrite El', El, fmap_empty.
    + by rewrite Et', Et, fmap_empty.
    + intros t. rewrite lookup_empty. split; [by intros []|]. intros [Ht|(b & n & Hb & _)]; [by apply elem_of_empty in Ht|done].
    + by rewrite El', El.
  - constructor; cbn [exp_ heap_ ttl_key_count_ ttl_hint_]; try done. by intros b [].
Qed.

End contents.
