(* ===== verification/Edits.v ===== *)
(** * Edits: changes to a node's bytes, count and type

    Commands change a node by a few stores into its body and its header.
    [edited n n' b c t] says what is left of [n] in [n'] after such stores;
    the lemmas follow them one at a time, and the node then holds what its
    body, count and type say. *)

From S2P Require Import Prelude Errors Pack Slab Node Store Keyspace Contents.

Record edited (n n' : Node) (b : bytes) (c : Z) (t : NodeType) : Prop := {
  ed_wf : node_wf n';
  ed_key : node_key n' = node_key n;
  ed_size : node_block_size n' = node_block_size n;
  ed_flags : node_flags n' = node_flags n;
  ed_capacity : node_body_capacity n' = node_body_capacity n;
  ed_body : node_body n' = b;
  ed_count : count n' = c;
  ed_type : node_type n' = t
}.

Lemma edited_refl n : node_wf n -> edited n n (node_body n) (count n) (node_type n).
Proof. by constructor. Qed.

Lemma edited_write n n' b c t off d :
  edited n n' b c t -> 0 <= off -> off + len d <= node_body_capacity n ->
  edited n (write_body off d n') (write_at off d b) c t.
Proof.
  intros [Hw Ek Es Ef Ec Eb Ect Et] Ho Hd. rewrite <- Ec in Hd.
  destruct (write_body_spec off d n' Hw Ho Hd) as (Hw' & Ek' & Eb' & Es').
  constructor; [exact Hw'|congruence|congruence|exact Ef| |congruence|exact Ect|exact Et].
  rewrite <- Ec. unfold node_body_capacity. by rewrite Es'.
Qed.

Lemma edited_count n n' b c t c' : edited n n' b c t -> 0 <= c' < 2 ^ 32 -> edited n (set_count c' n') b c' t.
Proof.
  intros [Hw Ek Es Ef Ec Eb Ect Et] Hc. constructor; [by apply set_count_wf|exact Ek|exact Es|exact Ef|exact Ec|exact Eb|done|exact Et].
Qed.

Lemma edited_set_type n n' b c t t' : edited n n' b c t -> real_type t' -> edited n (set_type t' n') b c t'.
Proof.
  intros [Hw Ek Es Ef Ec Eb Ect Et] Ht. destruct (set_type_wf t' n' Hw Ht) as [Hw' Hs].
  destruct (same_shape_views _ _ Hs) as (Ek' & Eb' & Es' & Ec').
  destruct (set_type_is n' _ _ _ _ t' (conj eq_refl (conj eq_refl (conj eq_refl eq_refl))) Ht) as (_ & E2 & E3 & _).
  constructor; [exact Hw'|congruence..|done|exact E2].
Qed.

(** The rest of the store sees no difference, unless a promoted hash is
    involved. *)
Lemma edited_face n n' b c t :
  edited n n' b c t -> table_of n = None -> t <> type_hash \/ has_flag flag_hash_promoted n = false ->
  node_wf n' /\ same_face n n' /\ has_flag flag_has_ttl n' = has_flag flag_has_ttl n.
Proof.
  intros [Hw Ek Es Ef Ec Eb Ect Et] Hn Ht. split; [exact Hw|]. split; [|unfold has_flag; by rewrite Ef].
  split; [exact Ek|]. split; [exact Es|]. rewrite Hn. unfold table_of, is_promoted. rewrite Et.
  destruct Ht as [Ht|Ht]; [by rewrite bool_decide_false by done|].
  unfold has_flag in *. rewrite Ef, Ht. by rewrite andb_false_r.
Qed.

Lemma edited_string T n n' b s :
  edited n n' b (len s) type_string -> len s <= node_body_capacity n -> read_at 0 (len s) b = s -> holds T n' (DString s).
Proof.
  intros [Hw Ek Es Ef Ec Eb Ect Et] Hl Hr. cbn. split; [exact Et|]. split; [exact Ect|]. split; [lia|].
  unfold string_value. by rewrite Ect, Eb.
Qed.

Lemma edited_integer T n n' b c z :
  edited n n' (write_at 0 (le_bytes 8 (u64 z)) b) c type_integer -> 8 <= node_body_capacity n ->
  len b = node_body_capacity n -> is_int64 z -> holds T n' (DInt z).
Proof.
  intros [Hw Ek Es Ef Ec Eb Ect Et] Hl Hb Hz. cbn. split; [exact Et|]. split; [lia|].
  assert (len (le_bytes 8 (u64 z)) = 8) as E8 by (unfold len; by rewrite length_le_bytes).
  unfold integer_value. rewrite Eb. rewrite <- E8 at 1. rewrite read_write_same by lia. rewrite le_value_bytes.
  change (256 ^ Z.of_nat 8) with (2 ^ 64). rewrite Z.mod_small by apply u64_range. by apply i64_u64.
Qed.

(** ** Lists *)

Lemma read_at_app off a k b :
  0 <= off -> 0 <= a -> 0 <= k -> off + a + k <= len b -> read_at off (a + k) b = read_at off a b ++ read_at (off + a) k b.
Proof.
  intros Ho Ha Hk Hl. unfold read_at, len in *.
  rewrite <- (take_drop (Z.to_nat a) (take (Z.to_nat (a + k)) (drop (Z.to_nat off) b))).
  rewrite take_take, skipn_firstn_comm, drop_drop. f_equal; [f_equal; lia|]. do 2 f_equal; lia.
Qed.

Lemma read_at_0 off b : read_at off 0 b = [].
Proof. done. Qed.

(** The two words of a list's body. *)
Definition words (b : bytes) (head used : Z) : Prop :=
  le_value (read_at 0 4 b) = head /\ le_value (read_at 4 4 b) = used.

Lemma words_of n : words (node_body n) (list_head n) (list_used n).
Proof. done. Qed.

Lemma edited_words n n' b c t h u : edited n n' b c t -> words b h u -> list_head n' = h /\ list_used n' = u.
Proof. intros He [Hh Hu]. unfold list_head, list_used. by rewrite (ed_body _ _ _ _ _ He). Qed.

Lemma len_word v : len (le_bytes 4 v) = 4.
Proof. unfold len. by rewrite length_le_bytes. Qed.

Lemma word_value v : 0 <= v < 2 ^ 32 -> le_value (le_bytes 4 v) = v.
Proof. intros Hv. rewrite le_value_bytes. by apply Z.mod_small. Qed.

Lemma words_head b h u h' : words b h u -> 8 <= len b -> 0 <= h' < 2 ^ 32 -> words (write_at 0 (le_bytes 4 h') b) h' u.
Proof.
  intros [_ Hu] Hb Hh. pose proof (len_word h') as El. split.
  - rewrite <- El at 1. rewrite read_write_same by lia. by apply word_value.
  - by rewrite read_write_other by lia.
Qed.

Lemma words_used b h u u' : words b h u -> 8 <= len b -> 0 <= u' < 2 ^ 32 -> words (write_at 4 (le_bytes 4 u') b) h u'.
Proof.
  intros [Hh _] Hb Hu. pose proof (len_word u') as El. split.
  - by rewrite read_write_other by lia.
  - rewrite <- El at 2. rewrite read_write_same by lia. by apply word_value.
Qed.

Lemma words_run b h u off d : words b h u -> 8 <= off -> off + len d <= len b -> words (write_at off d b) h u.
Proof. intros [Hh Hu] Ho Hd. pose proof (len_nonneg d). split; by rewrite read_write_other by lia. Qed.

Lemma run_word b off k i v : 8 <= off -> 0 <= i -> i + 4 <= 8 -> 8 <= len b -> read_at off k (write_at i (le_bytes 4 v) b) = read_at off k b.
Proof. intros Ho Hi Hi' Hb. pose proof (len_word v). apply read_write_other; lia. Qed.

Lemma edited_head n n' b c t h' :
  edited n n' b c t -> 8 <= node_body_capacity n -> edited n (set_list_head h' n') (write_at 0 (le_bytes 4 h') b) c t.
Proof. intros He Hc. apply edited_write; [exact He|lia|]. rewrite len_word. lia. Qed.

Lemma edited_used n n' b c t u' :
  edited n n' b c t -> 8 <= node_body_capacity n -> edited n (set_list_used u' n') (write_at 4 (le_bytes 4 u') b) c t.
Proof. intros He Hc. apply edited_write; [exact He|lia|]. rewrite len_word. lia. Qed.

Lemma edited_run n n' b c t off d :
  edited n n' b c t -> 0 <= off -> 8 + off + len d <= node_body_capacity n ->
  edited n (write_run off d n') (write_at (8 + off) d b) c t.
Proof. intros He Ho Hd. apply edited_write; [exact He|unfold sizeof_ListBody; lia|]. unfold sizeof_ListBody. lia. Qed.

(** A list's node in numbers. *)
Record list_node (n : Node) (l : list Value) (head used : Z) : Prop := {
  ln_words : words (node_body n) head used;
  ln_len : len (node_body n) = node_body_capacity n;
  ln_bounds : 8 <= node_body_capacity n <= body_limit;
  ln_head : 0 <= head;
  ln_used : used = len (encode_run l);
  ln_limit : used <= list_limit;
  ln_room : 8 + head + used <= node_body_capacity n;
  ln_run : read_at (8 + head) used (node_body n) = encode_run l;
  ln_count : count n = len l;
  ln_values : Forall encodable l;
  ln_type : node_type n = type_list
}.

Lemma run_capacity n : 8 <= node_body_capacity n -> list_run_capacity n = node_body_capacity n - 8.
Proof. intros Hc. unfold list_run_capacity, sizeof_ListBody. zcases; lia. Qed.

Lemma list_node_of T n l : node_wf n -> holds T n (DList l) -> list_node n l (list_head n) (list_used n).
Proof.
  intros Hw (Et & [H1 H2 H3 [H4 H4'] H5 H6]). unfold sizeof_ListBody in *. destruct (capacity_eq n Hw) as [Hc _].
  destruct (list_words n) as [Hh Hu]. rewrite run_capacity in H2 by lia.
  constructor; first [done|lia|by symmetry].
Qed.

Lemma list_node_holds T n n' b l h u :
  edited n n' b (len l) type_list -> 8 <= node_body_capacity n <= body_limit -> len b = node_body_capacity n ->
  words b h u -> 0 <= h -> u = len (encode_run l) -> u <= list_limit -> 8 + h + u <= node_body_capacity n ->
  read_at (8 + h) u b = encode_run l -> Forall encodable l -> holds T n' (DList l).
Proof.
  intros He Hc Hb Hw Hh Hu Hl Hr Hrun Hv. destruct (edited_words _ _ _ _ _ _ _ He Hw) as [Eh Eu].
  destruct He as [Hwf _ _ _ Ec Eb Ect Et]. split; [exact Et|].
  constructor; rewrite ?Eh, ?Eu, ?Ec, ?Eb; try done; rewrite ?run_capacity; unfold sizeof_ListBody; lia.
Qed.

(** The size of the run bounds the number of elements. *)
Lemma encode_run_app l1 l2 : encode_run (l1 ++ l2) = encode_run l1 ++ encode_run l2.
Proof. unfold encode_run. by rewrite map_app, concat_app. Qed.

Lemma encode_run_cons v l : encode_run (v :: l) = write_element (input_from v) true ++ encode_run l.
Proof. done. Qed.

Lemma len_encode_run l : Forall encodable l -> len l <= len (encode_run l).
Proof.
  induction 1 as [|v l Hv _ IH]; [done|]. rewrite encode_run_cons, len_cons, len_app.
  assert (encodable (input_value (input_from v))) as Hv' by (by rewrite input_value_from).
  pose proof (body_bounds (input_from v) Hv'). rewrite write_element_backlen, len_app.
  pose proof (len_nonneg (encode_backlen (len (write_element (input_from v) false)))). lia.
Qed.
