(* ===== verification/Writing.v ===== *)
(** * Writing: how a command replaces a value

    Commands that need a new block build it aside, write the log, and only
    then commit: [std::unique_ptr] destroys the block if anything throws in
    between.  [pending] is the state while a node is being built; the lemmas
    follow it from [create_node] to [commit_node] or to its destruction, in
    terms of the keyspace of [Contents]. *)

From S2P Require Import Prelude Errors Effects Pack WalCodec Wal Allocator Slab Lru Expiry Buckets Node Store Keyspace StoreSpec Contents.

Section writing.

Context {A : Type} `{NodeAllocator A} `{!Platform A}.

(** The scope of a [unique_ptr] to a node: on a throw the node is destroyed. *)
Definition with_pending {R} (node : Z) (body : M (Database A) R) : M (Database A) R :=
  try_catch body (fun e => do! modify (destroy node) in throw e).

(** Build a node aside, write the log, and put the node in place of [old]. *)
Definition install {R} (old fresh : Z) (fill : Node -> Node) (keep_ttl : bool)
    (records : Z -> M (Database A) R) : M (Database A) R :=
  let! r := with_pending fresh (do! modify (change_node fresh fill) in records fresh) in
  do! modify (commit_node old fresh keep_ttl) in
  ret r.

Definition build {R} (key : bytes) (old : Z) (type : NodeType) (cap : Z) (fill : Node -> Node) (keep_ttl : bool)
    (records : Z -> M (Database A) R) : M (Database A) R :=
  let! fresh := create_node key type cap in
  install old fresh fill keep_ttl records.

(** The keyspace [K] is in memory, and so is a node [n] at [p] that is not in
    it; the tables in [L] are no node's yet. *)
Record pending_with (L : gset Z) (db : Database A) (idx : gmap bytes Z) (order : list Z) (K : Keyspace) (p : Z) (n : Node) : Prop := {
  pd_inv : store_inv db idx order {[p]} L;
  pd_rep : represents db idx K;
  pd_node : heap_ db !! p = Some n
}.

End writing.

Abbreviation pending := (pending_with ∅).

Section pending.

Context {A : Type} `{NodeAllocator A} `{!Platform A}.

Lemma pending_outside L (db : Database A) idx order K p n k a :
  pending_with L db idx order K p n -> idx !! k = Some a -> a <> p.
Proof.
  intros [[Hc _] _ _] Hi ->. destruct (si_pend _ _ _ _ _ Hc p) as [Hp _]; [by apply elem_of_singleton|].
  apply Hp. by eapply idx_order.
Qed.

Lemma create_pending_wp L (db : Database A) idx order K key type cap Q E :
  store_inv db idx order ∅ L -> represents db idx K -> len key <= max_key_length -> 0 <= cap -> real_type type ->
  (forall p n db', pending_with L db' idx order K p n -> new_node n key type cap -> env db' = env db ->
     recency db' order = recency db order -> tables_ db' = tables_ db -> Q p db') ->
  (forall db', store_inv db' idx order ∅ L -> represents db' idx K -> env db' = env db ->
     recency db' order = recency db order -> E exn_bad_alloc db') ->
  wp (create_node key type cap) Q E db.
Proof.
  intros HI HR Hk Hcap Ht HQ HE. eapply create_node_wp; [exact HI|done..| |].
  - intros p n db' HI' Ep _ Hp0 Eh Hn Et Ee Ev. rewrite union_empty_r_L in HI'. pose proof HI as [Hc _].
    assert (forall b, b <> p -> heap_ db' !! b = heap_ db !! b) as Hold by (intros b Hb; by rewrite Eh, lookup_insert_ne).
    assert (p ∉ order) as Hpo.
    { intros Hp. destruct (order_node _ _ _ _ _ Hc p Hp). congruence. }
    apply (HQ p n); try done.
    + constructor; [done| |by rewrite Eh, lookup_insert_eq]. intros k. specialize (HR k).
      destruct (idx !! k) as [a|] eqn:Ei; [|done]. destruct HR as (e & Ek & Hea). exists e. split; [done|].
      assert (a <> p) as Hne by (intros ->; apply Hpo; by eapply idx_order).
      eapply entry_frame; [done|by apply Hold|by rewrite Ee|]. intros. by rewrite Et.
    + apply recency_ext. intros b Hb. unfold key_at, node_at. rewrite Hold; [done|]. by intros ->.
  - intros db' HI' (Eh & Et & Ee & Ev). apply HE; try done.
    + eapply represents_same; [done..|]. by rewrite Ee.
    + apply recency_ext. intros b _. unfold key_at, node_at. by rewrite Eh.
Qed.

(** Filling in the node. *)
Lemma change_pending L (db : Database A) idx order K p n f :
  pending_with L db idx order K p n -> node_wf (f n) -> same_face n (f n) ->
  has_flag flag_has_ttl (f n) = has_flag flag_has_ttl n ->
  pending_with L (change_node p f db) idx order K p (f n) /\ env (change_node p f db) = env db /\
  tables_ (change_node p f db) = tables_ db /\ recency (change_node p f db) order = recency db order.
Proof.
  intros HP Hw Hs Hf. pose proof HP as [HI HR Ep]. pose proof HI as [Hc _].
  assert (forall b, b <> p -> heap_ (change_node p f db) !! b = heap_ db !! b) as Hold.
  { intros b Hb. unfold change_node. cbn [heap_ put_heap]. by rewrite lookup_alter_ne. }
  conjuncts; try reflexivity.
  - constructor; [by eapply change_node_inv| |unfold change_node; cbn; by rewrite lookup_alter_eq, Ep].
    intros k. specialize (HR k). destruct (idx !! k) as [a|] eqn:Ei; [|done]. destruct HR as (e & Ek & Hea).
    exists e. split; [done|]. pose proof (pending_outside _ _ _ _ _ _ _ _ _ HP Ei).
    eapply entry_frame; [done|by apply Hold|reflexivity|reflexivity].
  - apply recency_ext. intros b Hb. unfold key_at, node_at. rewrite Hold; [done|]. intros ->.
    by destruct (si_pend _ _ _ _ _ Hc p (elem_of_singleton_2 _ _ eq_refl)).
Qed.

(** Giving up on it. *)
Lemma drop_pending L (db : Database A) idx order K p n :
  pending_with L db idx order K p n ->
  store_inv (destroy p db) idx order ∅ L /\ represents (destroy p db) idx K /\ env (destroy p db) = env db /\
  recency (destroy p db) order = recency db order.
Proof.
  intros HP. pose proof HP as [HI HR Ep]. pose proof HI as [Hc _].
  destruct (destroy_spec db _ _ _ _ p n HI (elem_of_singleton_2 _ _ eq_refl) Ep) as (HI' & Eh & Et & Ee & Ev).
  rewrite difference_diag_L in HI'. generalize dependent (destroy p db). intros db' HI' Eh Et Ee Ev.
  assert (forall b, b <> p -> heap_ db' !! b = heap_ db !! b) as Hold by (intros b Hb; by rewrite Eh, lookup_delete_ne).
  conjuncts.
  - intros k. specialize (HR k). destruct (idx !! k) as [a|] eqn:Ei; [|done]. destruct HR as (e & Ek & Hea).
    exists e. split; [done|]. pose proof (pending_outside _ _ _ _ _ _ _ _ _ HP Ei) as Hne.
    apply (entry_without db db' idx order {[p]} L p n a e Hc Ep Hne Hea); [by apply Hold|done|by rewrite Ee].
  - apply recency_ext. intros b Hb. unfold key_at, node_at. rewrite Hold; [done|]. intros ->.
    by destruct (si_pend _ _ _ _ _ Hc p (elem_of_singleton_2 _ _ eq_refl)).
Qed.

(** The deadline a key keeps. *)
Definition ttl_of (K : Keyspace) (key : bytes) : option Z := K !! key ≫= snd.

(** Committing it. *)
Lemma commit_pending L (db : Database A) idx order K key p n keep_ttl v :
  pending_with L db idx order K p n -> node_key n = key -> holds (tables_ db) n v ->
  let db' := commit_node (default 0 (idx !! key)) p keep_ttl db in
  exists order', store_inv db' (<[key := p]> idx) order' ∅ L /\
    represents db' (<[key := p]> idx) (<[key := (v, if keep_ttl then ttl_of K key else None)]> K) /\
    recency db' order' = key :: others key (recency db order) /\ env db' = env db /\
    exists m, heap_ db' !! p = Some m /\ remarked n m.
Proof.
  intros HP <- Hv. pose proof HP as [HI HR Ep]. pose proof HI as [Hc _].
  pose proof (commit_spec db _ _ _ _ _ p keep_ttl n HI (elem_of_singleton_2 _ _ eq_refl) Ep eq_refl) as Hcm.
  set (old := default 0 (idx !! node_key n)) in *. generalize dependent (commit_node old p keep_ttl db).
  intros db' (HI' & (n' & Eh & Hr) & Et & Ed & Ev). rewrite difference_diag_L in HI'. cbv zeta.
  exists (p :: filter (fun b => b <> old) order).
  destruct (si_pend _ _ _ _ _ Hc p (elem_of_singleton_2 _ _ eq_refl)) as [Hpo Hp0].
  assert (forall k a, idx !! k = Some a -> a <> p) as Hout by (intros k a; by apply (pending_outside _ _ _ _ _ _ _ _ _ HP)).
  assert (p <> old) as Hpold.
  { unfold old. destruct (idx !! node_key n) as [a|] eqn:Ei; cbn; [|done]. apply not_eq_sym. by eapply Hout. }
  pose proof (inv_no_deadline _ _ _ _ _ p HI Hpo) as Edp.
  assert (forall b m t, b <> old -> heap_ db !! b = Some m -> table_of m = Some t -> tables_ db' !! t = tables_ db !! t) as Htab.
  { intros b m t Hb Em Etm. rewrite Et. destruct (heap_ db !! old) as [o|] eqn:Eo; cbn [from_option]; [|done].
    unfold without_table. destruct (table_of o) as [u|] eqn:Eu; cbn [from_option]; [|done].
    rewrite lookup_delete_ne; [done|]. intros ->. apply Hb. by apply (si_owner _ _ _ _ _ Hc b old m o t). }
  assert (forall k a, k <> node_key n -> idx !! k = Some a -> a <> old) as Hother.
  { intros k a Hk Ha. unfold old. destruct (idx !! node_key n) as [o|] eqn:Ei; cbn.
    - by eapply (other_node db).
    - by destruct (idx_node _ _ _ _ _ Hc _ _ Ha) as (_ & _ & _ & ?). }
  conjuncts.
  - apply (represents_at db db' idx _ K _ (node_key n) HR).
    + intros k Hk. by rewrite lookup_insert_ne.
    + intros k Hk. by rewrite lookup_insert_ne.
    + intros k a e Hk Ha Hea. pose proof (Hother k a Hk Ha). pose proof (Hout k a Ha).
      eapply entry_frame; [done|by rewrite Eh, lookup_insert_ne, lookup_delete_ne|..].
      * by rewrite Ed, carried_lookup, !decide_False.
      * intros m t Em. by eapply Htab.
    + rewrite lookup_insert_eq. eexists. rewrite lookup_insert_eq. split; [done|]. exists n'. conjuncts.
      * by rewrite Eh, lookup_insert_eq.
      * apply (holds_tables (tables_ db)); [|by eapply holds_remarked]. intros t Ett.
        apply (Htab p n); [done|done|]. by rewrite <- (proj2 (proj2 (proj1 Hr))).
      * rewrite Ed, carried_lookup, decide_True by done. cbn [snd]. destruct keep_ttl; [|done].
        unfold ttl_of, old. specialize (HR (node_key n)). destruct (idx !! node_key n) as [a|]; cbn [from_option id].
        -- destruct HR as (e & -> & (o & _ & _ & E2)). exact E2.
        -- rewrite HR. symmetry. apply (inv_no_deadline _ _ _ _ _ 0 HI), (si_lru _ _ _ _ _ Hc).
  - unfold recency. rewrite fmap_cons. f_equal.
    + unfold key_at, node_at. rewrite Eh, lookup_insert_eq. apply Hr.
    + assert (recency db' (filter (fun b => b <> old) order) = recency db (filter (fun b => b <> old) order)) as Erec.
      { apply recency_ext. intros b Hb. apply list_elem_of_filter in Hb as [Hb1 Hb2]. unfold key_at, node_at.
        rewrite Eh, lookup_insert_ne, lookup_delete_ne; [done|done|]. by intros ->. }
      unfold recency in Erec. rewrite Erec. unfold old. destruct (idx !! node_key n) as [a|] eqn:Ei; cbn [from_option id].
      * by apply (recency_others db _ _ _ _ _ _ Hc Ei).
      * rewrite order_drop0 by apply (si_lru _ _ _ _ _ Hc). symmetry. by apply (recency_absent db _ _ _ _ _ Hc Ei).
  - exists n'. split; [by rewrite Eh, lookup_insert_eq|exact Hr].
Qed.

(** ** Changes in place *)

Lemma change_change a f g (db : Database A) : change_node a g (change_node a f db) = change_node a (fun n => g (f n)) db.
Proof.
  change (put_heap (alter g a (alter f a (heap_ db))) db = put_heap (alter (fun n => g (f n)) a (heap_ db)) db).
  f_equal. apply map_eq. intros b. destruct (decide (b = a)) as [->|Hne]; [|by rewrite !lookup_alter_ne].
  rewrite !lookup_alter_eq. by destruct (heap_ db !! a).
Qed.

Lemma change_keys a n f (db : Database A) order :
  heap_ db !! a = Some n -> node_key (f n) = node_key n -> recency (change_node a f db) order = recency db order.
Proof.
  intros Ea Ek. apply recency_ext. intros b _. unfold key_at, node_at, change_node. cbn [heap_ put_heap].
  destruct (decide (b = a)) as [->|Hne]; [by rewrite lookup_alter_eq, Ea|by rewrite lookup_alter_ne].
Qed.

(** A node gets a new value. *)
Lemma change_ok (db : Database A) idx order K key a n e f v :
  store_inv db idx order ∅ ∅ -> represents db idx K -> idx !! key = Some a -> heap_ db !! a = Some n ->
  K !! key = Some e -> node_wf (f n) -> same_face n (f n) ->
  has_flag flag_has_ttl (f n) = has_flag flag_has_ttl n -> holds (tables_ db) (f n) v ->
  store_inv (change_node a f db) idx order ∅ ∅ /\
  represents (change_node a f db) idx (<[key := (v, e.2)]> K) /\
  env (change_node a f db) = env db /\ recency (change_node a f db) order = recency db order.
Proof.
  intros HI HR Hi Ea Ek Hw Hs Hf Hv. pose proof HI as [Hc _]. conjuncts; [by eapply change_node_inv| |done|].
  - apply (represents_at db _ idx idx K _ key HR); [done|intros k Hk; by rewrite lookup_insert_ne|..].
    + intros k b e' Hk Hb Hbe. assert (b <> a) as Hne by (by eapply (other_node db _ _ _ _ k key)).
      eapply entry_frame; [exact Hbe|unfold change_node; cbn; by rewrite lookup_alter_ne|done|done].
    + rewrite Hi, lookup_insert_eq. eexists. split; [done|]. exists (f n). cbn [fst snd]. conjuncts.
      * unfold change_node. cbn. by rewrite lookup_alter_eq, Ea.
      * destruct (represents_lookup _ _ _ _ _ HR Hi) as (e' & Ek' & (_ & _ & _ & E2)).
        assert (e' = e) as -> by congruence. exact E2.
  - eapply change_keys; [done|]. apply Hs.
Qed.

(** A key loses its deadline. *)
Lemma clear_ok (db : Database A) idx order K key a e :
  store_inv db idx order ∅ ∅ -> represents db idx K -> idx !! key = Some a -> K !! key = Some e ->
  store_inv (clear_expiry a db) idx order ∅ ∅ /\
  represents (clear_expiry a db) idx (<[key := (e.1, None)]> K) /\
  env (clear_expiry a db) = env db /\ recency (clear_expiry a db) order = recency db order.
Proof.
  intros HI HR Hi Ek. pose proof HI as [Hc _]. destruct (idx_node _ _ _ _ _ Hc _ _ Hi) as (n & Ea & En & _).
  destruct (clear_expiry_spec db _ _ _ _ a n HI Ea) as (n' & HI' & Eh & Hr & Ed & _).
  destruct (clear_expiry_env a db) as (Ev & Et & _).
  generalize dependent (clear_expiry a db). intros db' HI' Eh Ed Ev Et. conjuncts.
  - apply (represents_at db _ idx idx K _ key HR); [done|intros k Hk; by rewrite lookup_insert_ne|..].
    + intros k b e' Hk Hb Hbe. assert (b <> a) as Hne by (by eapply (other_node db _ _ _ _ k key)).
      eapply entry_frame; [exact Hbe|by rewrite Eh, lookup_insert_ne|by rewrite Ed, lookup_delete_ne|].
      intros. by rewrite Et.
    + rewrite Hi, lookup_insert_eq. eexists. split; [done|]. exists n'. cbn [fst snd].
      destruct (represents_lookup _ _ _ _ _ HR Hi) as (e' & Ek' & (m & Em & Hm & _)).
      assert (e' = e) as -> by congruence. assert (m = n) as -> by congruence. conjuncts.
      * by rewrite Eh, lookup_insert_eq.
      * rewrite Et. by eapply holds_remarked.
      * by rewrite Ed, lookup_delete_eq.
  - apply recency_ext. intros b _. unfold key_at, node_at. rewrite Eh.
    destruct (decide (b = a)) as [->|Hne]; [|by rewrite lookup_insert_ne].
    rewrite lookup_insert_eq, Ea. apply Hr.
Qed.

(** ** Steps of a command *)

(** Where a command stands: it began in [db0], the log has the records [rs],
    and memory holds the keyspace [K], most recently used keys first; the
    tables in [L] are no node's yet. *)
Record reached_with (L : gset Z) (db0 : Database A) (rs : list (WalOp * list bytes)) (idx : gmap bytes Z) (order : list Z) (K : Keyspace)
    (R : list bytes) (db : Database A) : Prop := {
  rc_inv : store_inv db idx order ∅ L;
  rc_rep : represents db idx K;
  rc_recency : recency db order = R;
  rc_logged : logged rs db;
  rc_after : after db0 db
}.

(** Where it stops when it throws, with the records [c] still to write. *)
Definition halted_with (L : gset Z) (c : list (WalOp * list bytes)) (db0 : Database A) (rs : list (WalOp * list bytes)) (K : Keyspace)
    (db : Database A) : Prop :=
  exists idx order, store_inv db idx order ∅ L /\ represents db idx K /\ refused rs c db /\ after db0 db.

End pending.

#[global] Arguments rc_inv {A H L}.
#[global] Arguments rc_rep {A H L}.
#[global] Arguments rc_recency {A H L}.
#[global] Arguments rc_logged {A H L}.
#[global] Arguments rc_after {A H L}.

Abbreviation reached := (reached_with ∅).

Section steps.

Context {A : Type} `{NodeAllocator A} `{!Platform A}.

Definition halted (c : list (WalOp * list bytes)) (db0 : Database A) (rs : list (WalOp * list bytes)) (K : Keyspace) (db : Database A) : Prop :=
  exists R, db_ok db K R /\ refused rs c db /\ after db0 db.

Lemma reached_start (db : Database A) K R rs :
  db_ok db K R -> logged rs db -> exists idx order, reached db rs idx order K R db.
Proof. intros (idx & order & HI & HR & ->) Hl. exists idx, order. by constructor; [..|apply after_refl]. Qed.

Lemma reached_ok (db0 db : Database A) rs idx order K R : reached db0 rs idx order K R db -> db_ok db K R.
Proof. intros [HI HR Er _ _]. exists idx, order. split; [exact HI|]. split; [exact HR|]. by symmetry. Qed.

Lemma halted_ok c (db0 db : Database A) rs K : halted_with ∅ c db0 rs K db -> halted c db0 rs K db.
Proof. intros (idx & order & HI & HR & Hr & Haf). exists (recency db order). split; [by exists idx, order|by split]. Qed.

Lemma reached_halted_with {L} c (db0 db : Database A) rs idx order K R :
  reached_with L db0 rs idx order K R db -> halted_with L c db0 rs K db.
Proof.
  intros [HI HR _ Hl Haf]. exists idx, order. split; [exact HI|]. split; [exact HR|].
  split; [by apply logged_refused|exact Haf].
Qed.

Lemma reached_halted c (db0 db : Database A) rs idx order K R : reached db0 rs idx order K R db -> halted c db0 rs K db.
Proof.
  intros Hr. exists R. split; [by eapply reached_ok|]. destruct Hr as [_ _ _ Hl Haf].
  split; [by apply logged_refused|exact Haf].
Qed.

(** A step that leaves the log and the clock alone. *)
Lemma reached_step {L L'} (db0 db db' : Database A) rs idx order K R idx' order' K' R' :
  reached_with L db0 rs idx order K R db -> store_inv db' idx' order' ∅ L' -> represents db' idx' K' ->
  recency db' order' = R' -> env db' = env db -> reached_with L' db0 rs idx' order' K' R' db'.
Proof.
  intros [_ _ _ Hl Haf] HI HR Er Ev. constructor; [exact HI|exact HR|exact Er|by eapply env_logged|].
  exact (after_trans _ _ _ Haf (env_after _ _ Ev)).
Qed.

Lemma reached_node {L} (db0 db : Database A) rs idx order K R key a :
  reached_with L db0 rs idx order K R db -> idx !! key = Some a ->
  exists n e, heap_ db !! a = Some n /\ K !! key = Some e /\ node_wf n /\ node_key n = key /\ a <> 0 /\
    holds (tables_ db) n e.1.
Proof.
  intros [HI HR _ _ _] Hi. pose proof HI as [Hc _]. destruct (idx_node _ _ _ _ _ Hc _ _ Hi) as (n & Ea & Ek & Ha).
  destruct (represents_lookup _ _ _ _ _ HR Hi) as (e & Ee & (m & Em & Hm & _)). assert (m = n) as -> by congruence.
  exists n, e. pose proof (si_wf _ _ _ _ _ Hc _ _ Ea). by conjuncts.
Qed.

Lemma reached_change (db0 db : Database A) rs idx order K R key a n e f v :
  reached db0 rs idx order K R db -> idx !! key = Some a -> heap_ db !! a = Some n -> K !! key = Some e ->
  node_wf (f n) /\ same_face n (f n) /\ has_flag flag_has_ttl (f n) = has_flag flag_has_ttl n ->
  holds (tables_ db) (f n) v ->
  reached db0 rs idx order (<[key := (v, e.2)]> K) R (change_node a f db).
Proof.
  intros Hr Hi Ea Ek (Hw & Hs & Hf) Hv. pose proof Hr as [HI HR Er _ _].
  destruct (change_ok db idx order K key a n e f v HI HR Hi Ea Ek Hw Hs Hf Hv) as (HI' & HR' & Ev & Er').
  eapply reached_step; [exact Hr|exact HI'|exact HR'|congruence|exact Ev].
Qed.

Lemma reached_touch (db0 db : Database A) rs idx order K R key a :
  reached db0 rs idx order K R db -> idx !! key = Some a ->
  reached db0 rs idx (a :: filter (fun b => b <> a) order) K (key :: others key R) (touch a db).
Proof.
  intros Hr Hi. pose proof Hr as [HI HR Er _ _].
  destruct (touch_ok db idx order K key a HI HR Hi) as (HI' & HR' & Er').
  eapply reached_step; [exact Hr|exact HI'|exact HR'|congruence|reflexivity].
Qed.

Lemma reached_clear (db0 db : Database A) rs idx order K R key a e :
  reached db0 rs idx order K R db -> idx !! key = Some a -> K !! key = Some e ->
  reached db0 rs idx order (<[key := (e.1, None)]> K) R (clear_expiry a db).
Proof.
  intros Hr Hi Ek. pose proof Hr as [HI HR Er _ _].
  destruct (clear_ok db idx order K key a e HI HR Hi Ek) as (HI' & HR' & Ev & Er').
  eapply reached_step; [exact Hr|exact HI'|exact HR'|congruence|exact Ev].
Qed.

Lemma reached_erase (db0 db : Database A) rs idx order K R key a :
  reached db0 rs idx order K R db -> idx !! key = Some a ->
  reached db0 rs (delete key idx) (filter (fun b => b <> a) order) (delete key K) (others key R) (erase_node a db).
Proof.
  intros Hr Hi. pose proof Hr as [HI HR Er _ _].
  destruct (erase_ok db idx order K key a HI HR Hi) as (HI' & HR' & Er' & Ev).
  eapply reached_step; [exact Hr|exact HI'|exact HR'|congruence|exact Ev].
Qed.

Lemma reached_bump (db0 db : Database A) rs idx order K R :
  reached db0 rs idx order K R db -> reached db0 rs idx order K R (bump_sequence db).
Proof.
  intros Hr. pose proof Hr as [HI HR Er _ _].
  eapply reached_step; [exact Hr|by apply bump_inv|exact HR|exact Er|reflexivity].
Qed.

(** What a call on the log leaves alone. *)
Definition log_frame (db db' : Database A) : Prop :=
  heap_ db' = heap_ db /\ tables_ db' = tables_ db /\ exp_ db' = exp_ db /\ lru_ db' = lru_ db /\
  key_total_ db' = key_total_ db /\ evictions_ db' = evictions_ db /\ expired_keys_ db' = expired_keys_ db /\
  time_ db' = time_ db.

Lemma log_frame_wal w (db : Database A) : log_frame db (put_wal w db).
Proof. unfold log_frame. conjuncts; reflexivity. Qed.

(** Writing a record.  After a failed write the log may have it all the same,
    but only if it has failed for good. *)
Lemma reached_append_wp (db0 db : Database A) rs idx order K R op args Q E :
  reached db0 rs idx order K R db -> real_op op ->
  (forall db', reached db0 (rs ++ recs db0 [(op, args)]) idx order K R db' -> log_frame db db' -> Q tt db') ->
  (forall e extra db', reached db0 (rs ++ extra) idx order K R db' -> (log_failed db' = false -> extra = []) ->
     extra `prefix_of` recs db0 [(op, args)] -> log_frame db db' -> E e db') ->
  wp (log op args) Q E db.
Proof.
  intros [HI HR Er Hl Haf] Hop HQ HE.
  assert (forall w, store_inv (put_wal w db) idx order ∅ ∅) as HI'.
  { intros w. eapply inv_frame; [exact HI|reflexivity..]. }
  apply (log_wp _ rs); [exact Hl|exact Hop|..].
  - intros w db' Hl' Haf'. rewrite (after_recs db0 db) in Hl' by exact Haf. apply HQ; [|apply log_frame_wal].
    constructor; [apply HI'|exact HR|exact Er|exact Hl'|exact (after_trans _ _ _ Haf Haf')].
  - intros e w db' (extra & Hl' & Hx & Hp) Haf'. rewrite (after_recs db0 db) in Hp by exact Haf.
    apply (HE e extra); [|exact Hx|exact Hp|apply log_frame_wal].
    constructor; [apply HI'|exact HR|exact Er|exact Hl'|exact (after_trans _ _ _ Haf Haf')].
Qed.

Lemma reached_refused c (db0 db : Database A) rs extra idx order K R :
  reached db0 (rs ++ extra) idx order K R db -> (log_failed db = false -> extra = []) -> extra `prefix_of` c ->
  halted c db0 rs K db.
Proof.
  intros Hr Hx Hp. exists R. split; [by eapply reached_ok|]. destruct Hr as [_ _ _ Hl Haf]. split; [by exists extra|exact Haf].
Qed.

Lemma reached_log_wp (db0 db : Database A) rs idx order K R op args Q E :
  reached db0 rs idx order K R db -> real_op op ->
  (forall db', reached db0 (rs ++ recs db0 [(op, args)]) idx order K R db' -> heap_ db' = heap_ db ->
     tables_ db' = tables_ db -> Q tt db') ->
  (forall e db', halted (recs db0 [(op, args)]) db0 rs K db' -> E e db') ->
  wp (log op args) Q E db.
Proof.
  intros Hr Hop HQ HE. eapply reached_append_wp; [exact Hr|exact Hop|..].
  - intros db' Hr' (Eh & Et & _). by apply HQ.
  - intros e extra db' Hr' Hx Hp _. apply HE. by eapply reached_refused.
Qed.

(** The other calls on the log. *)
Lemma reached_call_wp (db0 db : Database A) rs idx order K R c Q E :
  reached db0 rs idx order K R db -> record_of c = [] -> call_ok c ->
  (forall db', reached db0 rs idx order K R db' -> log_frame db db' -> (log_failed db' = false -> log_failed db = false) ->
     Q tt db' /\ forall e, E e db') ->
  wp (on_wal_ (run_call c)) Q E db.
Proof.
  intros [HI HR Er Hl Haf] Hc Hok HQ. unfold wp, on_wal_. destruct (wal_ db) as [w|] eqn:Ew.
  2:{ apply HQ; [by constructor| |done]. unfold log_frame. conjuncts; reflexivity. }
  assert (forall w', wal_inv rs w' -> moves w w' -> reached db0 rs idx order K R (put_wal (Some w') db)) as Hput.
  { intros w' Hw Hz. constructor; [eapply inv_frame; [exact HI|reflexivity..]|exact HR|exact Er|exact Hw|].
    by apply (after_trans _ _ _ Haf), (after_wal db w w' Ew). }
  assert (forall w', frozen w w' -> log_failed (put_wal (Some w') db) = false -> log_failed db = false) as Hstays.
  { intros w' Hz. unfold log_failed. cbn [wal_ put_wal]. rewrite Ew. intros Hf. destruct (failed_ w) eqn:E1; [|done].
    destruct (Hz E1). congruence. }
  unfold logged in Hl. rewrite Ew in Hl. pose proof (call_inv rs w c Hok Hl) as Hcall. pose proof (call_moves rs w c Hok Hl) as Hm.
  unfold wp in Hcall, Hm. rewrite Hc in Hcall. destruct (run_call c w) as [[e|[]] w'].
  - destruct Hcall as ((rs' & Hrs & Hi & _) & _ & Hz). assert (rs' = []) as -> by tauto. rewrite app_nil_r in Hi.
    apply HQ; [by apply Hput|apply log_frame_wal|]. by apply Hstays.
  - destruct Hcall as (Hi & _ & Hz & _). rewrite app_nil_r in Hi.
    apply HQ; [by apply Hput|apply log_frame_wal|]. by apply Hstays.
Qed.

(** Reading a clock. *)
Lemma reached_time (db0 db : Database A) rs idx order K R :
  reached db0 rs idx order K R db ->
  reached db0 rs idx order K R (put_time (S (time_ db)) db) /\ (time_ db0 <= time_ db)%nat.
Proof.
  intros [HI HR Er Hl Haf]. split; [|apply Haf].
  constructor; [by apply put_time_inv|exact HR|exact Er|exact Hl|].
  apply (after_trans _ _ _ Haf), after_time, Nat.le_succ_diag_r.
Qed.

(** A deadline for a key; there is always memory for a new deadline of a key
    that has one. *)
Lemma reached_schedule_wp (db0 db : Database A) rs idx order K R key a e d Q E :
  reached db0 rs idx order K R db -> idx !! key = Some a -> K !! key = Some e ->
  (forall db', reached db0 rs idx order (<[key := (e.1, Some d)]> K) R db' -> env db' = env db -> Q tt db') ->
  (forall e' db', reached db0 rs idx order K R db' -> e.2 = None -> E e' db') ->
  wp (schedule_expiry a d) Q E db.
Proof.
  intros Hr Hi Ek HQ HE. pose proof Hr as [HI HR Er _ _]. pose proof HI as [Hc _].
  destruct (idx_node _ _ _ _ _ Hc _ _ Hi) as (n & Ea & _). pose proof (idx_order _ _ _ _ _ Hc _ _ Hi) as Ho.
  destruct (represents_lookup _ _ _ _ _ HR Hi) as (e0 & Ek0 & (m & Em & Hm & Ed)).
  assert (e0 = e) as -> by congruence. assert (m = n) as -> by congruence.
  eapply schedule_expiry_wp; [exact HI|exact Ho|exact Ea|..].
  - intros n' db' HI' Eh Hrem Ed' Et Ev. apply HQ; [|exact Ev]. eapply reached_step; [exact Hr|exact HI'| | |exact Ev].
    + apply (represents_at db _ idx idx K _ key HR); [done|intros k Hk; by rewrite lookup_insert_ne|..].
      * intros k b e' Hk Hb Hbe. assert (b <> a) as Hne by (by eapply (other_node db _ _ _ _ k key)).
        eapply entry_frame; [exact Hbe|by rewrite Eh, lookup_insert_ne|by rewrite Ed', lookup_insert_ne|].
        intros. by rewrite Et.
      * rewrite Hi, lookup_insert_eq. eexists. split; [done|]. exists n'. cbn [fst snd].
        rewrite Eh, lookup_insert_eq, Ed', lookup_insert_eq, Et. split; [done|]. split; [by eapply holds_remarked|done].
    + rewrite <- Er. apply recency_ext. intros b _. unfold key_at, node_at. rewrite Eh.
      destruct (decide (b = a)) as [->|Hne]; [|by rewrite lookup_insert_ne]. rewrite lookup_insert_eq, Ea. apply Hrem.
  - intros db' HI' (Eh & Et & Edd & Ev) Hn. apply HE; [|congruence].
    eapply reached_step; [exact Hr|exact HI'| | |exact Ev].
    + eapply represents_same; [exact HR|exact Eh|exact Et|by rewrite Edd].
    + rewrite <- Er. apply recency_ext. intros b _. unfold key_at, node_at. by rewrite Eh.
Qed.

Lemma reached_rehash_with_wp {L} (db0 db : Database A) rs idx order K R (b : bool) (Q : unit -> Database A -> Prop) E :
  reached_with L db0 rs idx order K R db ->
  (forall db', reached_with L db0 rs idx order K R db' -> same_data db db' -> Q tt db') ->
  (forall e db', reached_with L db0 rs idx order K R db' -> same_data db db' -> E e db') ->
  wp (when b maybe_rehash) Q E db.
Proof.
  intros Hr HQ HE. destruct b; cbn [when]; [|wp_steps; apply HQ; [exact Hr|by split_and!]]. pose proof Hr as [HI HR Er _ _].
  assert (forall db', store_inv db' idx order ∅ L -> same_data db db' -> reached_with L db0 rs idx order K R db') as Hsame.
  { intros db' HI' (Eh & Et & Ee & Ev). eapply reached_step; [exact Hr|exact HI'| | |exact Ev].
    - eapply represents_same; [exact HR|exact Eh|exact Et|by rewrite Ee].
    - rewrite <- Er. apply recency_ext. intros b _. unfold key_at, node_at. by rewrite Eh. }
  eapply maybe_rehash_wp; [exact HI|..].
  - intros db' HI' Hd. apply HQ; [by apply Hsame|exact Hd].
  - intros db' HI' Hd. apply HE; [by apply Hsame|exact Hd].
Qed.

Lemma reached_rehash_wp (db0 db : Database A) rs idx order K R (b : bool) Q E :
  reached db0 rs idx order K R db ->
  (forall db', reached db0 rs idx order K R db' -> tables_ db' = tables_ db -> Q tt db') ->
  (forall e db', (forall c, halted c db0 rs K db') -> E e db') ->
  wp (when b maybe_rehash) Q E db.
Proof.
  intros Hr HQ HE. eapply reached_rehash_with_wp; [exact Hr|..].
  - intros db' Hr' Hd. apply HQ; [exact Hr'|apply Hd].
  - intros e db' Hr' _. apply HE. intros c. by eapply reached_halted.
Qed.

(** A node moves to a block of another size. *)
Lemma reached_move_wp (db0 db : Database A) rs idx order K R key a n e cap Q E :
  reached db0 rs idx order K R db -> idx !! key = Some a -> heap_ db !! a = Some n -> table_of n = None ->
  0 <= cap -> K !! key = Some e -> (forall m, grown n m cap -> holds (tables_ db) m e.1) ->
  (forall p m db', reached db0 rs (<[key := p]> idx) (replaced a p order) K R db' -> heap_ db' !! p = Some m ->
     grown n m cap -> tables_ db' = tables_ db -> Q p db') ->
  (forall db', reached db0 rs idx order K R db' -> E exn_bad_alloc db') ->
  wp (grow_node a cap) Q E db.
Proof.
  intros Hr Hi Ea Htab Hcap Eke Hkeep HQ HE. pose proof Hr as [HI HR Er _ _]. pose proof HI as [Hc _].
  pose proof (idx_order _ _ _ _ _ Hc _ _ Hi) as Ho. destruct (idx_node _ _ _ _ _ Hc _ _ Hi) as (n' & En' & Ek & _).
  assert (n' = n) as -> by congruence. eapply grow_node_wp; [exact HI|exact Ho|exact Ea|exact Htab|exact Hcap|..].
  2:{ intros db' HI' (Eh & Et & Ee & Ev). apply HE. eapply reached_step; [exact Hr|exact HI'| | |exact Ev].
      - eapply represents_same; [exact HR|exact Eh|exact Et|by rewrite Ee].
      - rewrite <- Er. apply recency_ext. intros b _. unfold key_at, node_at. by rewrite Eh. }
  intros p m db' HI' Hp Hpa Hp0 Eh Hg Ed Et Ev. rewrite Ek in HI'.
  assert (heap_ db' !! p = Some m) as Ep by (by rewrite Eh, lookup_delete_ne, lookup_insert_eq by congruence).
  assert (forall b, b <> a -> b <> p -> heap_ db' !! b = heap_ db !! b) as Hold.
  { intros b Hb Hbp. by rewrite Eh, lookup_delete_ne, lookup_insert_ne by congruence. }
  assert (deadlines (exp_ db) !! p = None) as Edp.
  { apply (inv_no_deadline _ _ _ _ _ p HI). intros Hpo. destruct (order_node _ _ _ _ _ Hc p Hpo). congruence. }
  apply (HQ p m); [|exact Ep|exact Hg|exact Et]. eapply reached_step; [exact Hr|exact HI'| | |exact Ev].
  - apply (represents_at db _ idx (<[key := p]> idx) K K key HR); [intros k Hk; by rewrite lookup_insert_ne|done|..].
    + intros k b e' Hk Hb Hbe. assert (b <> a) as Hne by (by eapply (other_node db _ _ _ _ k key)).
      assert (b <> p) as Hbp by (intros ->; destruct Hbe as (x & Hx & _); congruence).
      eapply entry_frame; [exact Hbe|by apply Hold| |intros; by rewrite Et].
      rewrite Ed, carried_lookup, decide_False, decide_False by done. done.
    + rewrite lookup_insert_eq. destruct (represents_lookup _ _ _ _ _ HR Hi) as (e' & Ee & (x & Ex & Hx & E2)).
      assert (e' = e) as -> by congruence. exists e. split; [exact Ee|]. exists m. split; [exact Ep|].
      split; [rewrite Et; by apply Hkeep|]. by rewrite Ed, carried_lookup, decide_True by done.
  - rewrite <- Er. unfold recency, replaced. rewrite <- list_fmap_compose. apply list_fmap_ext. intros i b Hb.
    apply list_elem_of_lookup_2 in Hb. cbn. destruct (Z.eqb_spec b a) as [->|Hne].
    + unfold key_at. rewrite (node_at_lookup _ _ _ Ep), (node_at_lookup _ _ _ Ea). apply Hg.
    + unfold key_at, node_at. rewrite Hold; [done|done|]. intros ->.
      destruct (order_node _ _ _ _ _ Hc p Hb). congruence.
Qed.

(** A larger block keeps what the node holds. *)
Lemma reached_grow_wp (db0 db : Database A) rs idx order K R key a n cap Q E :
  reached db0 rs idx order K R db -> idx !! key = Some a -> heap_ db !! a = Some n -> table_of n = None ->
  node_body_capacity n <= cap <= body_limit ->
  (forall p m db', reached db0 rs (<[key := p]> idx) (replaced a p order) K R db' -> heap_ db' !! p = Some m ->
     grown n m cap -> tables_ db' = tables_ db -> Q p db') ->
  (forall e db', (forall c, halted c db0 rs K db') -> E e db') ->
  wp (grow_node a cap) Q E db.
Proof.
  intros Hr Hi Ea Htab Hcap HQ HE. destruct (reached_node _ _ _ _ _ _ _ _ _ Hr Hi) as (n' & e & En & Ek & Hw & _ & _ & Hv).
  assert (n' = n) as -> by congruence. destruct (capacity_eq n Hw) as [_ Hcn].
  eapply reached_move_wp; [exact Hr|exact Hi|exact Ea|exact Htab|lia|exact Ek| |exact HQ|].
  - intros m Hg. by eapply holds_grown.
  - intros db' Hr'. apply HE. intros c. by eapply reached_halted.
Qed.

(** ** A command that builds a node *)

Lemma env_refused rs c (db db' : Database A) : env db' = env db -> refused rs c db -> refused rs c db'.
Proof.
  intros Ev (extra & Hl & Hf & Hp). exists extra. split; [by eapply env_logged|]. split; [|exact Hp].
  intros Hn. apply Hf. unfold log_failed in *. injection Ev as E1 _ _ _ _ _. by rewrite <- E1.
Qed.

(** What the rest of a command must do while its node, which satisfies [N],
    is pending. *)
Definition records_ok {T : Type} (db0 : Database A) (rs out : list (WalOp * list bytes)) (N : Node -> Prop)
    (records : Z -> M (Database A) T) (V : Z -> Node -> T -> Prop) : Prop :=
  forall L db1 idx order K p n, pending_with L db1 idx order K p n -> N n -> logged rs db1 -> after db0 db1 ->
    wp (records p)
      (fun r db2 => (pending_with L db2 idx order K p n /\ V p n r) /\ logged (rs ++ out) db2 /\ after db1 db2 /\
                    tables_ db2 = tables_ db1 /\ recency db2 order = recency db1 order)
      (fun e db2 => pending_with L db2 idx order K p n /\ refused rs out db2 /\ after db1 db2) db1.

Lemma log_records (db0 : Database A) rs op args N :
  real_op op -> records_ok db0 rs (recs db0 [(op, args)]) N (fun _ => log op args) (fun _ _ _ => True).
Proof.
  intros Hop L db1 idx order K p n HP _ Hl Haf. rewrite <- (after_recs db0 db1) by exact Haf.
  assert (forall w, pending_with L (put_wal w db1) idx order K p n) as Hput.
  { intros w. destruct HP as [HI HR Ep]. constructor; [eapply inv_frame; [exact HI|reflexivity..]|exact HR|exact Ep]. }
  apply (log_wp _ rs); [exact Hl|exact Hop|..].
  - intros w db' Hl' Haf'. split; [split; [apply Hput|exact I]|]. split; [exact Hl'|]. split; [exact Haf'|]. split; reflexivity.
  - intros e w db' Hr Haf'. split; [apply Hput|]. split; [exact Hr|exact Haf'].
Qed.

(** Several records.  With the buffer reserved for the largest, only a log that
    has failed refuses one of them. *)
Definition buffer_room (n : Z) (db : Database A) : Prop :=
  logging db = true -> forall w, wal_ db = Some w -> n <= capacity_ w.

Lemma log_reserved_wp (db : Database A) rs n op args Q E :
  logged rs db -> buffer_room n db -> real_op op -> len args <= 255 -> len (enc (op, args)) <= n ->
  (logging db = true -> n <= max_record + 8) ->
  (forall w, let db' := put_wal w db in logged (rs ++ recs db [(op, args)]) db' -> after db db' -> buffer_room n db' -> Q tt db') ->
  (forall e extra w, let db' := put_wal w db in logged (rs ++ extra) db' -> log_failed db' = true ->
     extra `prefix_of` recs db [(op, args)] -> after db db' -> E e db') ->
  wp (log op args) Q E db.
Proof.
  intros Hl Hroom Hop Ha Hn Hmax HQ HE. unfold wp, log, logged, recs, buffer_room, logging in *.
  pose proof (after_refl db) as Hsame. destruct (wal_ db) as [w|] eqn:Ew.
  2:{ specialize (HQ None). assert (put_wal None db = db) as E0 by (rewrite <- Ew; by destruct db).
      cbn in HQ. rewrite E0 in HQ. by apply HQ. }
  destruct (replaying_ db) eqn:Er; cbn [negb] in *.
  { specialize (HQ (Some w)). assert (put_wal (Some w) db = db) as E0 by (rewrite <- Ew; by destruct db).
    cbn in HQ. rewrite app_nil_r in HQ. rewrite E0, Er in HQ. by apply HQ. }
  specialize (Hroom eq_refl w eq_refl). specialize (Hmax eq_refl).
  pose proof (wp_and _ _ _ _ _ _ (append_inv rs w op args Hop Hl) (append_reserved op args w Ha ltac:(lia) ltac:(lia))) as Hw.
  pose proof (call_moves rs w (c_append op args) Hop Hl) as Hm. unfold wp in Hw, Hm. cbn [run_call] in Hm.
  destruct (append op args w) as [[e|[]] w'].
  - destruct Hw as [((rs' & Hrs & Hi & _) & _) Hf]. apply (HE e rs' (Some w')); [exact Hi|exact Hf| |].
    { destruct Hrs as [-> | ->]; [apply prefix_nil|done]. }
    by apply (after_wal db w w' Ew).
  - destruct Hw as [(Hi & _ & _ & _ & _ & Hc & Hnf) _].
    apply (HQ (Some w')); [exact Hi|by apply (after_wal db w w' Ew)|].
    cbn. rewrite Er. intros _ w2 [= <-]. lia.
Qed.

Lemma log_each_wp {T : Type} (f : T -> WalOp * list bytes) n vs (db : Database A) rs Q E :
  logged rs db -> buffer_room n db -> (logging db = true -> n <= max_record + 8) ->
  (forall v, v ∈ vs -> real_op (f v).1 /\ len (f v).2 <= 255 /\ len (enc (f v)) <= n) ->
  (forall w, let db' := put_wal w db in logged (rs ++ recs db (f <$> vs)) db' -> after db db' -> Q tt db') ->
  (forall e extra w, let db' := put_wal w db in logged (rs ++ extra) db' -> log_failed db' = true ->
     extra `prefix_of` recs db (f <$> vs) -> after db db' -> E e db') ->
  wp (for_each vs (fun v => log (f v).1 (f v).2)) Q E db.
Proof.
  revert db rs. induction vs as [|v vs IH]; intros db rs Hl Hroom Hmax Hf HQ HE.
  { cbn [for_each fold_right]. wp_steps. specialize (HQ (wal_ db)). assert (put_wal (wal_ db) db = db) as E0 by (by destruct db).
    cbn zeta in HQ. rewrite E0 in HQ. rewrite fmap_nil, recs_nil, app_nil_r in HQ. apply HQ; [exact Hl|apply after_refl]. }
  cbn [for_each fold_right]. wp_steps. destruct (Hf v ltac:(by left)) as (Hop & Ha & Hn).
  apply (log_reserved_wp db rs n); [exact Hl|exact Hroom|exact Hop|exact Ha|by rewrite <- surjective_pairing|exact Hmax| |].
  - intros w db' Hl' Haf Hroom'. subst db'. apply (IH _ _ Hl' Hroom').
    + intros Hg. apply Hmax. by rewrite <- (proj1 (proj2 (proj2 Haf))).
    + intros v' Hv'. apply Hf. by right.
    + intros w' db' Hl2 Haf2. subst db'. rewrite (after_recs db (put_wal w db)) in Hl2 by exact Haf. rewrite <- app_assoc, <- recs_app in Hl2.
      change (put_wal w' (put_wal w db)) with (put_wal w' db) in *.
      rewrite <- surjective_pairing in Hl2. apply HQ; [exact Hl2|exact (after_trans _ _ _ Haf Haf2)].
    + intros e extra w' db' Hl2 Hfl Hp Haf2. subst db'. rewrite <- app_assoc in Hl2.
      change (put_wal w' (put_wal w db)) with (put_wal w' db) in *.
      eapply HE; [exact Hl2|exact Hfl| |exact (after_trans _ _ _ Haf Haf2)].
      rewrite (after_recs db (put_wal w db)) in Hp by exact Haf. rewrite fmap_cons, (recs_cons db (f v) (f <$> vs)), <- surjective_pairing. by apply prefix_app.
  - intros e extra w db' Hl' Hfl Hp Haf. subst db'. eapply HE; [exact Hl'|exact Hfl| |exact Haf].
    rewrite fmap_cons, recs_cons. rewrite <- surjective_pairing in Hp. by apply prefix_app_r.
Qed.

Lemma reserve_log_wp (db : Database A) rs n (Q : unit -> Database A -> Prop) E :
  logged rs db ->
  (forall w, let db' := put_wal w db in logged rs db' -> after db db' -> buffer_room n db' ->
     (logging db = true -> n <= max_record + 8) -> Q tt db') ->
  (forall e w, let db' := put_wal w db in logged rs db' -> after db db' -> E e db') ->
  wp (reserve_log n) Q E db.
Proof.
  intros Hl HQ HE. unfold reserve_log. wp_steps. pose proof (after_refl db) as Hsame. unfold buffer_room, logging in *.
  assert (put_wal (wal_ db) db = db) as E0 by (by destruct db).
  destruct (replaying_ db) eqn:Er; cbn [negb] in *.
  { wp_steps. specialize (HQ (wal_ db)). cbn zeta in HQ. rewrite E0 in HQ. rewrite ?Er in HQ.
    destruct (wal_ db); apply HQ; auto; discriminate. }
  unfold on_wal_, wp. destruct (wal_ db) as [w|] eqn:Ew.
  2:{ specialize (HQ None). cbn zeta in HQ. rewrite E0, Ew in HQ. apply HQ; auto; discriminate. }
  unfold logged in Hl. rewrite Ew in Hl.
  assert (wp (reserve_record n) (fun _ w' => wal_inv rs w' /\ n <= capacity_ w' /\ n <= max_record + 8) (fun _ w' => wal_inv rs w') w) as Hw.
  { unfold reserve_record. destruct (Z.ltb_spec (max_record + 8) n); [wp_steps; exact Hl|].
    apply buffer_reserve_wp.
    - intros sc c _ Hc. split; [by apply inv_capacity, inv_script|]. cbn. lia.
    - intros sc _. by apply inv_script. }
  pose proof (call_moves rs w (c_reserve n) I Hl) as Hm. unfold wp in Hw, Hm. cbn [run_call] in Hm.
  destruct (reserve_record n w) as [[e|[]] w'].
  - apply (HE e (Some w')); [exact Hw|by apply (after_wal db w w' Ew)].
  - destruct Hw as (Hi & Hc & Hb). apply (HQ (Some w')); [exact Hi|by apply (after_wal db w w' Ew)| |done].
    cbn. intros _ w2 [= <-]. exact Hc.
Qed.

Lemma reserved_records {T : Type} (f : T -> WalOp * list bytes) n vs (db0 : Database A) rs N :
  (forall v, v ∈ vs -> real_op (f v).1 /\ len (f v).2 <= 255 /\ len (enc (f v)) <= n) ->
  records_ok db0 rs (recs db0 (f <$> vs)) N
    (fun _ => do! reserve_log n in for_each vs (fun v => log (f v).1 (f v).2)) (fun _ _ _ => True).
Proof.
  intros Hf L db1 idx order K p nd HP _ Hl Haf. rewrite <- (after_recs db0 db1) by exact Haf.
  assert (forall w, pending_with L (put_wal w db1) idx order K p nd) as Hput.
  { intros w. destruct HP as [HI HR Ep]. constructor; [eapply inv_frame; [exact HI|reflexivity..]|exact HR|exact Ep]. }
  wp_steps. apply (reserve_log_wp db1 rs); [exact Hl| |].
  2:{ intros e w db' Hl' Haf'. split; [apply Hput|]. split; [by apply logged_refused|exact Haf']. }
  intros w db' Hl' Haf' Hroom Hmax. subst db'. apply (log_each_wp f n vs _ rs); [exact Hl'|exact Hroom| |exact Hf| |].
  - intros Hg. apply Hmax. by rewrite <- (proj1 (proj2 (proj2 Haf'))).
  - intros w' db' Hl2 Haf2. subst db'. rewrite (after_recs db1 (put_wal w db1)) in Hl2 by exact Haf'.
    change (put_wal w' (put_wal w db1)) with (put_wal w' db1) in *. split; [split; [apply Hput|exact I]|].
    split; [exact Hl2|]. split; [exact (after_trans _ _ _ Haf' Haf2)|]. split; reflexivity.
  - intros e extra w' db' Hl2 Hfl Hp Haf2. subst db'. change (put_wal w' (put_wal w db1)) with (put_wal w' db1) in *.
    split; [apply Hput|]. split; [|exact (after_trans _ _ _ Haf' Haf2)]. exists extra. split; [exact Hl2|]. split; [congruence|].
    by rewrite (after_recs db1 (put_wal w db1)) in Hp by exact Haf'.
Qed.

(** What filling in a new node must do. *)
Definition fills (key : bytes) (type : NodeType) (cap : Z) (fill : Node -> Node) (T : gmap Z HashTable) (v : dvalue) : Prop :=
  forall n, new_node n key type cap ->
    (node_wf (fill n) /\ same_face n (fill n) /\ has_flag flag_has_ttl (fill n) = has_flag flag_has_ttl n) /\
    holds T (fill n) v.

(** From a pending node to its key; filling it in may take over tables. *)
Lemma install_wp {T : Type} {L} (db0 db1 : Database A) rs idx order K out key p n fill (keep_ttl : bool)
    (N : Node -> Prop) (records : Z -> M (Database A) T) V v Q E :
  pending_with L (change_node p fill db1) idx order K p (fill n) -> node_key (fill n) = key ->
  holds (tables_ db1) (fill n) v -> N (fill n) -> records_ok db0 rs out N records V -> logged rs db1 -> after db0 db1 ->
  recency (change_node p fill db1) order = recency db1 order ->
  (forall r idx' order' db',
     reached_with L db0 (rs ++ out) idx' order' (<[key := (v, if keep_ttl then ttl_of K key else None)]> K)
       (key :: others key (recency db1 order)) db' ->
     idx' !! key = Some p -> V p (fill n) r -> (exists m, heap_ db' !! p = Some m /\ remarked (fill n) m) -> Q r db') ->
  (forall e db', halted_with L out db0 rs K db' -> E e db') ->
  wp (install (default 0 (idx !! key)) p fill keep_ttl records) Q E db1.
Proof.
  intros HP2 Ek Hv HN Hrec Hl Haf Erec2 HQ HE. unfold install, with_pending. wp_steps.
  assert (tables_ (change_node p fill db1) = tables_ db1) as Et2 by reflexivity. rewrite <- Et2 in Hv. clear Et2.
  assert (env (change_node p fill db1) = env db1) as Ev2 by reflexivity.
  generalize dependent (change_node p fill db1). intros db2 HP2 Hv Erec2 Ev2.
  assert (after db0 db2) as Haf2 by (apply (after_trans _ _ _ Haf), env_after; congruence).
  assert (logged rs db2) as Hl2 by (eapply env_logged; [|exact Hl]; congruence).
  eapply wp_mono; [exact (Hrec L db2 idx order K p (fill n) HP2 HN Hl2 Haf2)|..].
  - intros r db3 ((HP3 & HV3) & Hl3 & Haf3 & Et3 & Erec3). wp_steps. rewrite <- Et3 in Hv.
    destruct (commit_pending L db3 idx order K key p (fill n) keep_ttl v HP3 Ek Hv) as (order' & HI4 & HR4 & Erec4 & Ev4 & Hm4).
    generalize dependent (commit_node (default 0 (idx !! key)) p keep_ttl db3). intros db4 HI4 HR4 Erec4 Ev4 Hm4.
    apply (HQ r (<[key := p]> idx) order'); [|apply lookup_insert_eq|exact HV3|exact Hm4].
    constructor; [exact HI4|exact HR4|congruence|by eapply env_logged|].
    exact (after_trans _ _ _ Haf2 (after_trans _ _ _ Haf3 (env_after _ _ Ev4))).
  - intros e db3 (HP3 & Hr3 & Haf3). wp_steps.
    destruct (drop_pending L db3 _ _ _ _ _ HP3) as (HI4 & HR4 & Ev4 & Er4).
    generalize dependent (destroy p db3). intros db4 HI4 HR4 Ev4 Er4.
    apply HE. exists idx, order. split; [exact HI4|]. split; [exact HR4|]. split; [by eapply env_refused|].
    exact (after_trans _ _ _ Haf2 (after_trans _ _ _ Haf3 (env_after _ _ Ev4))).
Qed.

Lemma build_with_wp {T : Type} {L} (db0 db : Database A) rs idx order K R out key a type cap fill (keep_ttl : bool)
    (N : Node -> Prop) (records : Z -> M (Database A) T) V v Q E :
  reached_with L db0 rs idx order K R db -> a = default 0 (idx !! key) ->
  len key <= max_key_length -> 0 <= cap -> real_type type ->
  fills key type cap fill (tables_ db) v -> records_ok db0 rs out N records V ->
  (forall n, new_node n key type cap -> N (fill n)) ->
  (forall p n r idx' order' db',
     reached_with L db0 (rs ++ out) idx' order' (<[key := (v, if keep_ttl then ttl_of K key else None)]> K) (key :: others key R) db' ->
     idx' !! key = Some p -> N n -> V p n r -> (exists m, heap_ db' !! p = Some m /\ remarked n m) -> Q r db') ->
  (forall e db', halted_with L out db0 rs K db' -> E e db') ->
  wp (build key a type cap fill keep_ttl records) Q E db.
Proof.
  intros Hr -> Hk Hcap Ht Hfill Hrec HN HQ HE. pose proof Hr as [HI HR Er Hl Haf]. unfold build. wp_steps.
  apply (create_pending_wp L db idx order K); try assumption.
  2:{ intros db' HI' HR' Ev Er'. apply HE. eapply reached_halted_with, (reached_step (L := L)); [exact Hr|exact HI'|exact HR'|exact Er'|exact Ev]. }
  intros p n db1 HP Hn Ev1 Erec1 Et1. destruct (Hfill n Hn) as ((Hw & Hs & Hf) & Hv).
  destruct (change_pending L db1 _ _ _ _ _ fill HP Hw Hs Hf) as (HP2 & Ev2 & Et2 & Erec2).
  eapply install_wp; [exact HP2| | |by apply HN|exact Hrec| | |exact Erec2| |exact HE].
  - destruct Hs as (Ek & _). destruct Hn as (_ & Ek' & _). congruence.
  - rewrite Et1. exact Hv.
  - by eapply env_logged; [exact Ev1|].
  - exact (after_trans _ _ _ Haf (env_after _ _ Ev1)).
  - intros r idx' order' db' Hr' Hi' HV Hm. rewrite Erec1, Er in Hr'. by eapply HQ; [exact Hr'|exact Hi'|apply HN|..].
Qed.

Lemma reached_build_wp {T : Type} (db0 db : Database A) rs idx order K R out key a type cap fill (keep_ttl : bool)
    (N : Node -> Prop) (records : Z -> M (Database A) T) V v Q E :
  reached db0 rs idx order K R db -> a = default 0 (idx !! key) ->
  len key <= max_key_length -> 0 <= cap -> real_type type ->
  fills key type cap fill (tables_ db) v -> records_ok db0 rs out N records V ->
  (forall n, new_node n key type cap -> N (fill n)) ->
  (forall p n r idx' order' db',
     reached db0 (rs ++ out) idx' order' (<[key := (v, if keep_ttl then ttl_of K key else None)]> K) (key :: others key R) db' ->
     idx' !! key = Some p -> N n -> V p n r -> (exists m, heap_ db' !! p = Some m /\ remarked n m) -> Q r db') ->
  (forall e db', halted out db0 rs K db' -> E e db') ->
  wp (build key a type cap fill keep_ttl records) Q E db.
Proof.
  intros Hr Ha Hk Hcap Ht Hfill Hrec HN HQ HE.
  eapply build_with_wp; [exact Hr|exact Ha|exact Hk|exact Hcap|exact Ht|exact Hfill|exact Hrec|exact HN|exact HQ|].
  intros e db' Hh. apply HE. by apply halted_ok.
Qed.

(** ** Results of the commands that write *)

(** The command took effect: the key has the entry, in front of the order of
    use, and the log has the command's records. *)
Definition wrote (db : Database A) (K : Keyspace) (R : list bytes) (rs ops : list (WalOp * list bytes)) (key : bytes)
    (e : entry) (db' : Database A) : Prop :=
  db_ok db' (<[key := e]> K) (key :: others key R) /\
  logged (rs ++ recs db (purge_records db K key ++ ops)) db' /\ after db db'.

(** The order of use after a lookup. *)
Definition front (db : Database A) (K : Keyspace) (R : list bytes) (key : bytes) : list bytes :=
  (if seen db K key is Some _ then [key] else []) ++ others key R.

(** The command changed nothing but that a key past its deadline is gone and
    the key it found is in front. *)
Definition looked (db : Database A) (K : Keyspace) (R : list bytes) (rs : list (WalOp * list bytes)) (key : bytes)
    (db' : Database A) : Prop :=
  db_ok db' (purged db K key) (front db K R key) /\
  logged (rs ++ recs db (purge_records db K key)) db' /\ after db db'.

(** The records of a command with a result. *)
Definition if_ok {X : Type} (answer : Result X) (ops : list (WalOp * list bytes)) : list (WalOp * list bytes) :=
  match answer with Ok _ => ops | Unexpected _ => [] end.

(** What a command with a result did: it took effect and shows the outcome,
    or reports why not. *)
Definition answered {X T : Type} (db : Database A) (K : Keyspace) (R : list bytes) (rs ops : list (WalOp * list bytes))
    (key : bytes) (answer : Result X) (e : X -> entry) (show : X -> T) (r : Result T) (db' : Database A) : Prop :=
  match answer with
  | Ok x => r = Ok (show x) /\ wrote db K R rs ops key (e x) db'
  | Unexpected c => r = Unexpected c /\ looked db K R rs key db'
  end.

Lemma purged_insert (db : Database A) K key e : <[key := e]> (purged db K key) = <[key := e]> K.
Proof. unfold purged. destruct (gone db K key); [apply insert_delete_eq|done]. Qed.

Lemma purged_seen (db : Database A) K key : purged db K key !! key = seen db K key.
Proof. unfold purged, seen. destruct (gone db K key); [apply lookup_delete_eq|done]. Qed.

Lemma others_others key (R : list bytes) : others key (others key R) = others key R.
Proof. apply filter_all, Forall_forall. intros k Hk. by apply list_elem_of_filter in Hk as [Hk _]. Qed.

Lemma others_front key (b : bool) (R : list bytes) : others key ((if b then [key] else []) ++ others key R) = others key R.
Proof. destruct b; cbn [app]; [unfold others at 1; rewrite filter_cons_False by auto|]; apply others_others. Qed.

Lemma others_again key (R : list bytes) : others key (key :: others key R) = others key R.
Proof. exact (others_front key true R). Qed.

Lemma others_of_front (db : Database A) K R key : others key (front db K R key) = others key R.
Proof. unfold front. destruct (seen db K key); [apply (others_front key true)|apply (others_front key false)]. Qed.

(** The lookup of a writer: the node, if the key is there and its deadline has
    not passed. *)
Lemma lookup_wp (db : Database A) K R rs key Q E :
  db_ok db K R -> logged rs db ->
  (max_key_length < len key -> (forall c, halted c db rs K db) -> E (exn_error request_too_large) db) ->
  (forall a idx order db', len key <= max_key_length ->
     reached db (rs ++ recs db (purge_records db K key)) idx order (purged db K key) (front db K R key) db' ->
     a = default 0 (idx !! key) -> Q a db') ->
  (forall e db', (forall ops, kept db K rs ops key db') -> E e db') ->
  wp (find_writable key) Q E db.
Proof.
  intros (idx & order & HI & HR & ->) Hl HE0 HQ HE. eapply find_writable_wp; [exact HI|exact HR|exact Hl|..|exact HE].
  - intros Hk. apply HE0; [exact Hk|]. intros c. exists (recency db order). split; [by exists idx, order|].
    split; [by apply logged_refused|apply after_refl].
  - intros a db' idx' order' Hk [HI' HR' Ha Er' Hl' Haf']. apply (HQ a idx' order'); [exact Hk| |exact Ha].
    constructor; [exact HI'|exact HR'| |exact Hl'|exact Haf']. rewrite Er'. unfold front. f_equal.
    rewrite <- purged_seen. pose proof (HR' key) as Hkey. destruct (idx' !! key) as [b|].
    + destruct Hkey as (e & -> & _). by rewrite decide_True by (by eexists).
    + rewrite Hkey. by rewrite decide_False by (by intros []).
Qed.

Lemma halted_kept (db db' : Database A) K rs ops key :
  len key <= max_key_length ->
  halted (recs db ops) db (rs ++ recs db (purge_records db K key)) (purged db K key) db' -> kept db K rs ops key db'.
Proof.
  intros Hk (R & Hok & Hr & Haf). exists (purged db K key), R, (rs ++ recs db (purge_records db K key)), (recs db ops).
  split; [exact Hok|]. split; [exact Hr|]. split; [exact Haf|]. by right.
Qed.

Lemma halted_kept_first (db db' : Database A) K rs ops key : (forall c, halted c db rs K db') -> kept db K rs ops key db'.
Proof.
  intros Hh. destruct (Hh []) as (R & Hok & Hr & Haf). exists K, R, rs, [].
  split; [exact Hok|]. split; [exact Hr|]. split; [exact Haf|]. left. auto.
Qed.

Lemma reached_wrote (db db' : Database A) K R rs ops key e idx order :
  reached db ((rs ++ recs db (purge_records db K key)) ++ recs db ops) idx order (<[key := e]> (purged db K key))
    (key :: others key (front db K R key)) db' ->
  wrote db K R rs ops key e db'.
Proof.
  intros Hr. rewrite purged_insert, others_of_front, <- app_assoc, <- recs_app in Hr.
  split; [by eapply reached_ok|]. split; [apply (rc_logged _ _ _ _ _ _ _ Hr)|apply (rc_after _ _ _ _ _ _ _ Hr)].
Qed.

Lemma reached_looked (db db' : Database A) K R rs key idx order :
  reached db (rs ++ recs db (purge_records db K key)) idx order (purged db K key) (front db K R key) db' ->
  looked db K R rs key db'.
Proof.
  intros Hr. split; [by eapply reached_ok|]. split; [apply (rc_logged _ _ _ _ _ _ _ Hr)|apply (rc_after _ _ _ _ _ _ _ Hr)].
Qed.

(** ** Results of the commands that read *)

Definition was_read (db : Database A) (K : Keyspace) (R : list bytes) (rs : list (WalOp * list bytes)) (key : bytes)
    (db' : Database A) : Prop :=
  db_ok db' K (if seen db K key is Some _ then key :: others key R else R) /\ logged rs db' /\ after db db'.

(** The mark of a node with a deadline. *)
Definition store_expiry_flag (n : Node) (e : entry) : Prop := has_flag flag_has_ttl n = bool_decide (is_Some e.2).

(** The lookup of a reader, and what it finds in memory. *)
Lemma read_wp (db : Database A) K R rs key (Q : Z -> Database A -> Prop) E :
  db_ok db K R -> logged rs db ->
  (forall db', was_read db K R rs key db' -> seen db K key = None -> Q 0 db') ->
  (forall a n e db', was_read db K R rs key db' -> seen db K key = Some e -> a <> 0 -> heap_ db' !! a = Some n ->
     holds (tables_ db') n e.1 -> node_wf n ->
     e.2 = deadlines (exp_ db') !! a -> store_expiry_flag n e -> Q a db') ->
  wp (find_active key) Q E db.
Proof.
  intros (idx & order & HI & HR & ->) Hl HQ0 HQ. pose proof HI as [Hc He].
  assert (forall t, (time_ db <= t)%nat -> logged rs (put_time t db) /\ after db (put_time t db)) as Htime.
  { intros t Ht. split; [exact Hl|by apply after_time]. }
  eapply find_active_wp; [exact HI|exact HR|..].
  - intros t Ht Hs. apply HQ0; [|exact Hs]. unfold was_read. rewrite Hs. destruct (Htime t Ht) as [Hl' Haf].
    split; [|by split]. exists idx, order. split; [by apply put_time_inv|]. split; [exact HR|reflexivity].
  - intros t a e Ht Hi Ho Hs (n & Ea & Hh & Ed). destruct (Htime t Ht) as [Hl' Haf].
    destruct (touch_ok (put_time t db) idx order K key a (put_time_inv _ _ _ _ _ t HI) HR Hi) as (HI' & HR' & Er').
    destruct (idx_node _ _ _ _ _ Hc _ _ Hi) as (_ & _ & _ & Ha).
    apply (HQ a n e); [|exact Hs|exact Ha|exact Ea|exact Hh|exact (si_wf _ _ _ _ _ Hc _ _ Ea)|exact Ed|].
    + unfold was_read. rewrite Hs. split; [|by split]. eexists _, _. split; [exact HI'|]. split; [exact HR'|]. by symmetry.
    + unfold store_expiry_flag. rewrite (si_flag _ _ He a n Ea), Ed. reflexivity.
Qed.

End steps.
