(* ===== verification/Clearing.v ===== *)
(** * Clearing: emptying the keyspace

    [Database::clear_keyspace] walks the chains of the index and destroys the
    nodes one by one, without unlinking them.  What is left is an empty
    database with all its memory given back.  [Stats] has the destructor. *)

From S2P Require Import Prelude Errors Effects Pack WalCodec Wal Allocator Slab Lru Expiry Buckets Node Store Keyspace StoreSpec Contents.

Section clearing.

Context {A : Type} `{NodeAllocator A} `{!Platform A}.

(** ** Nodes that are only memory *)

(** The database with the structures of the keyspace left out. *)
Definition shadow (db : Database A) : Database A :=
  put_key_hint 0 (put_key_total 0 (put_lru (mkLru 0 0 ∅) (put_index new_index db))).

(** The nodes in memory are [pend], and nothing else holds memory. *)
Definition mem_core (db : Database A) (pend : gset Z) : Prop := store_core (shadow db) ∅ [] pend ∅.

Lemma destroy_shadow a (db : Database A) :
  heap_ (destroy a (shadow db)) = heap_ (destroy a db) /\ tables_ (destroy a (shadow db)) = tables_ (destroy a db) /\
  alloc_ (destroy a (shadow db)) = alloc_ (destroy a db) /\
  tracked_bytes_ (destroy a (shadow db)) = tracked_bytes_ (destroy a db).
Proof.
  unfold destroy. change (node_at (shadow db) a) with (node_at db a).
  destruct (is_promoted (node_at db a)); conjuncts; reflexivity.
Qed.

Lemma mem_core_of (s db : Database A) pend :
  store_core s ∅ [] pend ∅ -> heap_ s = heap_ db -> tables_ s = tables_ db -> alloc_ s = alloc_ db ->
  tracked_bytes_ s = tracked_bytes_ db -> index_ s = new_index -> lru_ s = mkLru 0 0 ∅ -> key_total_ s = 0 -> key_hint_ s = 0 ->
  mem_core db pend.
Proof. intros Hc E1 E2 E3 E4 E5 E6 E7 E8. by eapply core_frame; [exact Hc|..]; symmetry. Qed.

Lemma destroy_mem (db : Database A) pend a :
  mem_core db pend -> a ∈ pend -> mem_core (destroy a db) (pend ∖ {[a]}).
Proof.
  intros Hm Ha. destruct (proj2 (si_nodes _ _ _ _ _ Hm a) (or_intror Ha)) as [n En].
  pose proof (destroy_core (shadow db) _ _ _ _ Hm a n Ha En) as Hc.
  destruct (destroy_fields (shadow db) a) as (_ & Ei & El & _ & Ek & Eh & _).
  destruct (destroy_shadow a db) as (E1 & E2 & E3 & E4).
  assert (index_ (destroy a (shadow db)) = new_index /\ lru_ (destroy a (shadow db)) = mkLru 0 0 ∅ /\
    key_total_ (destroy a (shadow db)) = 0 /\ key_hint_ (destroy a (shadow db)) = 0) as (F1 & F2 & F3 & F4).
  { rewrite Ei, El, Ek, Eh. conjuncts; reflexivity. }
  generalize dependent (destroy a (shadow db)). generalize dependent (destroy a db). intros db1 s Hc. intros.
  by eapply mem_core_of.
Qed.

Definition destroyed (ns : list Z) (db : Database A) : Database A := fold_left (fun db a => destroy a db) ns db.

Lemma destroyed_mem ns (db : Database A) (pend : gset Z) :
  NoDup ns -> (forall a, a ∈ ns -> a ∈ pend) -> mem_core db pend -> mem_core (destroyed ns db) (pend ∖ list_to_set ns).
Proof.
  revert db pend. induction ns as [|a ns IH]; intros db pend Hnd Hin Hm.
  { cbn [destroyed fold_left list_to_set]. by rewrite difference_empty_L. }
  apply NoDup_cons in Hnd as [Ha Hnd]. rewrite list_to_set_cons, <- difference_difference_l_L.
  apply IH; [exact Hnd| |apply destroy_mem; [exact Hm|apply Hin; left]].
  intros b Hb. apply elem_of_difference. split; [apply Hin; by right|]. intros ->%elem_of_singleton. done.
Qed.

Lemma links_forget a b L : links_of (forget a L) b = if decide (b = a) then (0, 0) else links_of L b.
Proof.
  unfold links_of, forget. cbn [links]. destruct (decide (b = a)) as [->|Hne]; [by rewrite lookup_delete_eq|by rewrite lookup_delete_ne].
Qed.

Lemma destroyed_fields ns (db : Database A) :
  let db' := destroyed ns db in
  buckets_ (index_ db') = buckets_ (index_ db) /\
  (forall a, (a ∉ ns) -> next_ (index_ db') !! a = next_ (index_ db) !! a) /\
  (forall a, links_of (lru_ db') a = if decide (a ∈ ns) then (0, 0) else links_of (lru_ db) a) /\
  exp_ db' = exp_ db /\ env db' = env db.
Proof.
  revert db. induction ns as [|a ns IH]; intros db.
  { cbv zeta. by conjuncts. }
  destruct (destroy_fields db a) as (_ & Ei & El & Ee & _). pose proof (destroy_env a db) as Ev.
  change (destroyed (a :: ns) db) with (destroyed ns (destroy a db)). generalize dependent (destroy a db). intros db1 Ei El Ee Ev.
  destruct (IH db1) as (H1 & H2 & H3 & H4 & H5). cbv zeta. conjuncts.
  - by rewrite H1, Ei.
  - intros b Hb. apply not_elem_of_cons in Hb as [Hba Hb]. rewrite H2, Ei by done. cbn. by rewrite lookup_delete_ne.
  - intros b. rewrite H3, El, links_forget. destruct (decide (b = a)) as [->|Hne].
    + rewrite (decide_True (P := a ∈ a :: ns)) by left. by destruct (decide (a ∈ ns)).
    + destruct (decide (b ∈ ns)); [by rewrite decide_True by (by right)|]. by rewrite decide_False by (by rewrite elem_of_cons; intros [?|?]).
  - by rewrite H4.
  - by rewrite H5.
Qed.

(** ** The walk over the chains *)

Lemma destroy_chain_walk fuel s c (db : Database A) :
  cpath (next_ (index_ db)) s c 0 -> NoDup c -> (length c < fuel)%nat -> destroy_chain fuel s db = destroyed c db.
Proof.
  revert s c db. induction fuel as [|fuel IH]; intros s c db Hp Hnd Hf; [lia|]. cbn [destroy_chain].
  destruct c as [|a c]; cbn [cpath] in Hp.
  { subst s. by rewrite Z.eqb_refl. }
  destruct Hp as (-> & Ha & n & En & Hp). apply NoDup_cons in Hnd as [Hac Hnd]. destruct (Z.eqb_spec a 0) as [|_]; [done|].
  assert (next_of (index_ db) a = n) as -> by (unfold next_of; by rewrite En).
  cbn [length] in Hf. change (destroyed (a :: c) db) with (destroyed c (destroy a db)).
  apply IH; [|exact Hnd|lia]. destruct (destroy_fields db a) as (_ & -> & _). by apply cpath_delete.
Qed.

(** After [i] buckets. *)
Record cleared_to (db : Database A) (chains : list (list Z)) (i : nat) (db' : Database A) : Prop := {
  ct_mem : mem_core db' (list_to_set (concat (drop i chains)));
  ct_buckets : buckets_ (index_ db') = replicate i 0 ++ drop i (buckets_ (index_ db));
  ct_next : forall a, a ∈ concat (drop i chains) -> next_ (index_ db') !! a = next_ (index_ db) !! a;
  ct_links : forall a, (a ∉ concat (drop i chains)) -> links_of (lru_ db') a = (0, 0);
  ct_exp : exp_ db' = exp_ db;
  ct_env : env db' = env db
}.

Definition clear_bucket (fuel : nat) (db : Database A) (i : nat) : Database A :=
  let db := destroy_chain fuel (bucket_at (index_ db) i) db in
  put_index (set_bucket i 0 (index_ db)) db.

Lemma clear_bucket_step (db db' : Database A) key_of chains i c :
  index_rep key_of (index_ db) chains -> chains !! i = Some c -> cleared_to db chains i db' ->
  cleared_to db chains (S i) (clear_bucket (chain_fuel (index_ db)) db' i).
Proof.
  intros HI Hc [Hm Hb Hn Hl He Hv]. pose proof (lookup_lt_Some _ _ _ Hc) as Hlt. rewrite (ir_length _ _ _ HI) in Hlt.
  pose proof (drop_S _ _ _ Hc) as Ed. rewrite Ed in *. cbn [concat] in *.
  pose proof (ir_nodup _ _ _ HI) as Hnd. rewrite <- (take_drop i chains), concat_app, Ed in Hnd. cbn [concat] in Hnd.
  apply NoDup_app in Hnd as (_ & _ & Hnd). apply NoDup_app in Hnd as (Hnc & Hcd & Hnd).
  assert (bucket_at (index_ db') i = bucket_at (index_ db) i) as Eb.
  { unfold bucket_at. rewrite Hb, app_nth2 by (rewrite length_replicate; lia). rewrite length_replicate, Nat.sub_diag, nth_skipn.
    by rewrite Nat.add_0_r. }
  assert (cpath (next_ (index_ db')) (bucket_at (index_ db') i) c 0) as Hp.
  { rewrite Eb. eapply cpath_ext; [|by apply (ir_chain _ _ _ HI)]. intros b Hbc. apply Hn, elem_of_app. by left. }
  pose proof (cpath_size _ _ _ _ (ir_chain _ _ _ HI _ _ Hc) Hnc) as Hsz. unfold clear_bucket.
  rewrite (destroy_chain_walk _ _ c) by (done || unfold chain_fuel; lia).
  destruct (destroyed_fields c db') as (F1 & F2 & F3 & F4 & F5).
  pose proof (destroyed_mem c db' _ Hnc (fun a Ha => proj2 (elem_of_list_to_set (C := gset Z) a _) (proj2 (elem_of_app _ _ _) (or_introl Ha))) Hm) as Hm2.
  generalize dependent (destroyed c db'). intros db2 F1 F2 F3 F4 F5 Hm2. constructor.
  - replace (list_to_set (concat (drop (S i) chains)) : gset Z) with ((list_to_set (c ++ concat (drop (S i) chains)) : gset Z) ∖ list_to_set c).
    { eapply core_frame; [exact Hm2|reflexivity..]. }
    apply set_eq. intros a. rewrite elem_of_difference, !elem_of_list_to_set, elem_of_app.
    split; [tauto|]. intros Ha. split; [by right|]. intros Hac. by apply (Hcd a).
  - cbn. rewrite F1, Hb, insert_app_r_alt by (rewrite length_replicate; lia). rewrite length_replicate, Nat.sub_diag.
    destruct (lookup_lt_is_Some_2 _ _ Hlt) as [x Hx]. rewrite (drop_S _ _ _ Hx). change (<[0%nat := 0]> (x :: ?l)) with ([0] ++ l).
    by rewrite app_assoc, <- replicate_S_end.
  - intros a Ha. cbn. rewrite F2; [apply Hn, elem_of_app; by right|]. intros Hac. by apply (Hcd a).
  - intros a Ha. cbn. rewrite F3. destruct (decide (a ∈ c)); [done|]. apply Hl. rewrite elem_of_app. tauto.
  - cbn. by rewrite F4.
  - transitivity (env db2); [reflexivity|]. by rewrite F5.
Qed.

Lemma clear_buckets (db : Database A) key_of chains k i db' :
  index_rep key_of (index_ db) chains -> (i + k = length chains)%nat -> cleared_to db chains i db' ->
  cleared_to db chains (i + k) (fold_left (clear_bucket (chain_fuel (index_ db))) (seq i k) db').
Proof.
  intros HI. revert i db'. induction k as [|k IH]; intros i db' Hk Hc; [by rewrite Nat.add_0_r|]. cbn [seq fold_left].
  destruct (lookup_lt_is_Some_2 chains i ltac:(lia)) as [c Ec].
  replace (i + S k)%nat with (S i + k)%nat by lia. apply IH; [lia|]. by eapply clear_bucket_step.
Qed.

(** ** The result *)

Lemma clear_start (db : Database A) idx order chains :
  store_inv db idx order ∅ ∅ -> index_rep (key_at db) (index_ db) chains ->
  (forall a, a ∈ concat chains <-> idx !! key_at db a = Some a) -> cleared_to db chains 0 db.
Proof.
  intros [Hc _] HI Hin.
  assert (forall a, a ∈ concat chains <-> a ∈ order) as Hord by (intros a; by rewrite Hin, (si_order _ _ _ _ _ Hc)).
  constructor; try reflexivity; [|intros a Ha; rewrite drop_0, Hord in Ha; by apply (lr_outside _ _ (si_lru _ _ _ _ _ Hc))].
  rewrite drop_0. destruct Hc. constructor; try assumption; try reflexivity.
  - apply new_index_ok.
  - constructor; try done; [constructor|apply not_elem_of_nil].
  - intros a. rewrite lookup_empty. split; [intros Ha; by apply elem_of_nil in Ha|done].
  - intros a. cbn. rewrite si_nodes, elem_of_list_to_set, Hord. split; [intros [Ha|Ha]; [by right|by apply elem_of_empty in Ha]|].
    intros [Ha|Ha]; [by apply elem_of_nil in Ha|by left].
  - intros a Ha. apply elem_of_list_to_set, Hord in Ha. split; [apply not_elem_of_nil|]. intros ->. by apply (lr_nonnull _ _ si_lru).
Qed.

Lemma clear_done (db db' : Database A) chains key_of :
  index_rep key_of (index_ db) chains -> cleared_to db chains (length chains) db' ->
  heap_ db' = ∅ /\ tables_ db' = ∅ /\ al_ok (alloc_ db') /\ al_live (alloc_ db') = ∅ /\ al_taken (alloc_ db') = ∅ /\
  tracked_bytes_ db' = 0 /\ buckets_ (index_ db') = replicate (length chains) 0 /\ forall a, links_of (lru_ db') a = (0, 0).
Proof.
  intros HI [Hm Hb _ Hl _ _]. rewrite drop_all in *. cbn [concat list_to_set] in *.
  assert (heap_ db' = ∅) as Eh.
  { apply map_empty. intros a. destruct (heap_ db' !! a) as [n|] eqn:E; [|done].
    destruct (proj1 (si_nodes _ _ _ _ _ Hm a)) as [Ha|Ha]; [by exists n|by apply elem_of_nil in Ha|by apply elem_of_empty in Ha]. }
  assert (tables_ db' = ∅) as Et.
  { apply map_empty. intros t. destruct (tables_ db' !! t) as [T|] eqn:E; [|done].
    destruct (proj1 (si_owned _ _ _ _ _ Hm t)) as [Ht|(a & n & Ha & _)]; [by exists T|by apply elem_of_empty in Ht|].
    cbn in Ha. by rewrite Eh in Ha. }
  pose proof (si_live _ _ _ _ _ Hm) as Elive. pose proof (si_taken _ _ _ _ _ Hm) as Etk. pose proof (si_tracked _ _ _ _ _ Hm) as Etr.
  cbn in Elive, Etk, Etr. rewrite Eh, fmap_empty in Elive. rewrite Et, fmap_empty in Etk. rewrite Elive in Etr.
  conjuncts; [exact (si_alloc _ _ _ _ _ Hm)| |intros a; apply Hl, not_elem_of_nil].
  rewrite Hb, (ir_length _ _ _ HI), drop_all, app_nil_r. done.
Qed.

Lemma clear_keyspace_ok (db : Database A) K R :
  db_ok db K R -> db_ok (clear_keyspace db) ∅ [] /\ env (clear_keyspace db) = env db.
Proof.
  intros (idx & order & HI & _ & _). pose proof HI as [Hc _]. destruct (si_index _ _ _ _ _ Hc) as (chains & Hrep & Hin & _).
  pose proof (clear_start db idx order chains HI Hrep Hin) as H0. unfold clear_keyspace.
  change (fold_left _ (seq 0 (length (buckets_ (index_ db)))) db) with
    (fold_left (clear_bucket (chain_fuel (index_ db))) (seq 0 (length (buckets_ (index_ db)))) db).
  rewrite <- (ir_length _ _ _ Hrep). pose proof (clear_buckets db _ _ (length chains) 0 db Hrep eq_refl H0) as H1.
  generalize dependent (fold_left (clear_bucket (chain_fuel (index_ db))) (seq 0 (length chains)) db). intros db1 H1.
  destruct (clear_done db db1 chains _ Hrep H1) as (Eh & Et & Hal & El & Etk & Etr & Eb & Hlk).
  destruct (al_return_spec _ Hal) as (Hr1 & Hr2 & Hr3). split; [|transitivity (env db1); [reflexivity|by destruct H1]].
  exists ∅, []. split; [|split; [intros k; by rewrite lookup_empty|reflexivity]]. split.
  - constructor; cbn; rewrite ?Eh, ?Et, ?Hr2, ?Hr3, ?El, ?Etk; try done.
    + destruct (index_ db1) as [bs nx]. cbn in Eb. subst bs. destruct (ir_power _ _ _ Hrep) as [k Hk]. rewrite <- (ir_length _ _ _ Hrep) in Hk.
      exists (replicate (length chains) []). split; [by apply (empty_index_rep _ (length chains) k)|].
      rewrite concat_replicate_nil. split; [|done]. intros a. rewrite lookup_empty. split; [intros Ha; by apply elem_of_nil in Ha|done].
    + constructor; try done; [constructor|apply not_elem_of_nil|]. intros a _. apply Hlk.
    + intros a. rewrite lookup_empty. split; [intros Ha; by apply elem_of_nil in Ha|done].
    + intros a. rewrite lookup_empty. split; [by intros []|]. intros [Ha|Ha]; [by apply elem_of_nil in Ha|by apply elem_of_empty in Ha].
    + intros t. rewrite lookup_empty. split; [by intros []|]. intros [Ht|(a & n & Ha & _)]; [by apply elem_of_empty in Ht|done].
  - constructor; cbn; rewrite ?Eh; try done. by intros a [].
Qed.

End clearing.
