(* ===== verification/Sample.v ===== *)
(** * Sample: a small database to run the commands on

    The allocator is the slab pool over an upstream resource that hands out
    addresses in order, the steady clock advances by half a second with
    every reading, and the log is one of [Wal]. *)

From S2P Require Import Prelude Errors Effects Pack WalCodec Wal Allocator Slab Lru Expiry Buckets Node Store Keyspace StoreSpec Contents.

#[global] Instance sample_allocator : NodeAllocator Memory :=
  slab_allocator bump bump_ok (fun _ => 128) (fun _ => ltac:(lia)) (fun _ _ => []).

#[global] Program Instance sample_platform : Platform Memory := {|
  junk _ _ n := replicate (Z.to_nat n) (z2b 0);
  steady_at t := Z.min (Z.of_nat t * 500) 1000000;
  wall_at t := 1000000000000;
  table_order _ m := map_to_list m
|}.
Next Obligation. intros a p n Hn. unfold len. rewrite length_replicate. lia. Qed.
Next Obligation. cbn. lia. Qed.
Next Obligation. cbn. lia. Qed.
Next Obligation. cbn. lia. Qed.
Next Obligation. done. Qed.

Definition sample_memory : Memory := mkMemory (new_pool 0) ∅ ∅.

(** A new database of at most two keys, with a log. *)
Definition sample_empty : Database Memory :=
  match new_database sample_memory 2 with
  | (inr db, _) => put_wal (Some sample_log) db
  | (inl _, a) => mkDatabase ∅ ∅ a new_index (mkLru 0 0 ∅) (mkExpiries ∅ [] 0) 0 0 0 0 0 0 0 0 false None false 0
  end.

Definition sample_records : list (WalOp * list bytes) := [(op_del, [of_str "k"])].

Lemma sample_empty_ok : db_ok sample_empty ∅ [].
Proof.
  unfold sample_empty. destruct (new_database sample_memory 2) as [[e|db] a] eqn:E; [vm_compute in E; discriminate|].
  destruct (new_database_ok sample_memory 2 db a) as ((idx & order & HI & HR & Er) & _ & _); [|reflexivity..|exact E|].
  - split; [apply new_pool_inv; lia|apply map_disjoint_empty_l].
  - exists idx, order. split; [eapply inv_frame; [exact HI|reflexivity..]|]. split; [exact HR|exact Er].
Qed.

Lemma sample_empty_logged : logged sample_records sample_empty.
Proof. vm_cast_no_check sample_log_inv. Qed.
