(* ===== verification/Strings.v ===== *)
(** * Strings: the commands on strings and integers

    [set], [value_view], [get], [increment] and [del] of [src/database.cpp],
    and that each does to the keyspace what its name says: on a return the
    key has the new entry and the log has its record, on a throw the value
    and the deadline the key had are still there. *)

From S2P Require Import Prelude Charconv Errors Effects Pack WalCodec Wal Allocator Slab Lru Expiry Buckets Node Store Keyspace StoreSpec Contents Edits Writing Sample.

(** ** Operations *)

Inductive ViewKind := view_string | view_integer | view_list | view_hash.

Record ValueView := mkView { view_kind : ViewKind; view_text : bytes; view_number : Z }.

#[global] Instance ViewKind_eq_dec : EqDecision ViewKind.
Proof. solve_decision. Defined.

Section ops.

Context {A : Type} `{NodeAllocator A} `{!Platform A}.

(** [memcpy] or [memmove] into the body; nothing for no bytes. *)
Definition copy_in (off : Z) (data : bytes) (n : Node) : Node :=
  if bool_decide (data = []) then n else write_body off data n.

(** Whether [set] needs another block: there is none, it is no string, it is
    too small, or it is large and would be used to less than a quarter. *)
Definition set_needs_block (node : Z) (n : Node) (val : bytes) : bool :=
  (node =? 0) || negb (bool_decide (node_type n = type_string)) || (node_body_capacity n <? len val) ||
  ((largest_class <? node_body_capacity n) && (len val <? node_body_capacity n / 4)).

(** The copy of the value, and its length. *)
Definition fill_string (val : bytes) (n : Node) : Node := set_count (u32 (len val)) (copy_in 0 val n).

Definition set (key val : bytes) : M (Database A) unit :=
  if 64 * 1024 * 1024 <? len val then throw (exn_error request_too_large) else
  let! node := find_writable key in
  let! db := get in
  if set_needs_block node (node_at db node) val then
    do! when (node =? 0) maybe_rehash in
    build key node type_string (u32 (len val)) (fill_string val) false (fun _ => log op_set [key; val])
  else
    do! log op_set [key; val] in
    do! modify (change_node node (fill_string val)) in
    do! modify (touch node) in
    do! modify (clear_expiry node) in
    modify bump_sequence.

Definition value_view (key : bytes) : M (Database A) (Result (option ValueView)) :=
  let! node := find_active key in
  if node =? 0 then ret (Ok None) else
  let! db := get in
  let n := node_at db node in
  ret (Ok (Some
    match node_type n with
    | type_string => mkView view_string (string_value n) 0
    | type_integer => mkView view_integer [] (integer_value n)
    | type_list => mkView view_list [] 0
    | _ => mkView view_hash [] 0
    end)).

Definition get (key : bytes) : M (Database A) (Result (option bytes)) :=
  let! view := value_view key in
  ret match view with
      | Unexpected code => Unexpected code
      | Ok None => Ok None
      | Ok (Some v) =>
          if bool_decide (view_kind v = view_integer) then Ok (Some (to_string (view_number v)))
          else if negb (bool_decide (view_kind v = view_string)) then Unexpected wrong_type
          else Ok (Some (view_text v))
      end.

(** A string becomes an integer. *)
Definition become_integer (value : Z) (n : Node) : Node :=
  set_integer_value value (set_count 0 (set_type type_integer n)).

Definition increment (key : bytes) : M (Database A) (Result Z) :=
  let! node := find_writable key in
  if node =? 0 then
    do! maybe_rehash in
    do! build key 0 type_integer 8 (set_integer_value 1) true (fun _ => log op_increment [key]) in
    ret (Ok 1)
  else
  let! db := Effects.get in
  let n := node_at db node in
  if bool_decide (node_type n = type_integer) then
    let current := integer_value n in
    if current =? int64_max then ret (Unexpected value_not_integer) else
    do! log op_increment [key] in
    do! modify (change_node node (set_integer_value (current + 1))) in
    do! modify bump_sequence in
    ret (Ok (current + 1))
  else if negb (bool_decide (node_type n = type_string)) then ret (Unexpected wrong_type)
  else
  match from_chars_int64 (string_value n) with
  | None => ret (Unexpected value_not_integer)
  | Some current =>
      if current =? int64_max then ret (Unexpected value_not_integer) else
      let! node := (if node_body_capacity n <? 8 then grow_node node 8 else ret node) in
      do! log op_increment [key] in
      do! modify (change_node node (become_integer (current + 1))) in
      do! modify bump_sequence in
      ret (Ok (current + 1))
  end.

Definition del (key : bytes) : M (Database A) bool :=
  let! node := find_writable key in
  if node =? 0 then ret false else
  do! log op_del [key] in
  do! modify (erase_node node) in
  ret true.

(** ** Nodes *)

Lemma copy_edited n n' b c t off d :
  edited n n' b c t -> len b = node_body_capacity n -> 0 <= off -> off + len d <= node_body_capacity n ->
  edited n (copy_in off d n') (write_at off d b) c t.
Proof.
  intros He Hb Ho Hd. unfold copy_in. destruct (bool_decide_reflect (d = [])) as [->|_]; [|by apply edited_write].
  unfold write_at. cbn [length app]. by rewrite Nat.add_0_r, take_drop.
Qed.

Lemma string_edited T n val :
  node_wf n -> node_type n = type_string -> table_of n = None -> len val <= node_body_capacity n ->
  len val <= 64 * 1024 * 1024 ->
  (node_wf (fill_string val n) /\ same_face n (fill_string val n) /\
   has_flag flag_has_ttl (fill_string val n) = has_flag flag_has_ttl n) /\ holds T (fill_string val n) (DString val).
Proof.
  intros Hw Et Htab Hc Hv. destruct (capacity_eq n Hw) as [Hcap _]. pose proof (len_nonneg val).
  assert (edited n (fill_string val n) (write_at 0 val (node_body n)) (len val) type_string) as He.
  { unfold fill_string. rewrite u32_small by lia. eapply edited_count; [|lia]. apply copy_edited; [|lia..].
    rewrite <- Et. by apply edited_refl. }
  split; [eapply edited_face; [exact He|exact Htab|by left]|].
  eapply edited_string; [exact He|lia|]. apply read_write_same; lia.
Qed.

Lemma integer_edited T n n' b c z :
  edited n n' b c type_integer -> table_of n = None -> 8 <= node_body_capacity n -> len b = node_body_capacity n ->
  is_int64 z ->
  (node_wf (set_integer_value z n') /\ same_face n (set_integer_value z n') /\
   has_flag flag_has_ttl (set_integer_value z n') = has_flag flag_has_ttl n) /\ holds T (set_integer_value z n') (DInt z).
Proof.
  intros He Htab Hc Hb Hz.
  assert (edited n (set_integer_value z n') (write_at 0 (le_bytes 8 (u64 z)) b) c type_integer) as He'.
  { apply edited_write; [exact He|lia|]. unfold len. rewrite length_le_bytes. lia. }
  split; [eapply edited_face; [exact He'|exact Htab|by left]|]. by eapply edited_integer.
Qed.

Lemma plain_table n : node_type n <> type_hash -> table_of n = None.
Proof. intros Ht. unfold table_of, is_promoted. by rewrite bool_decide_false by done. Qed.

Lemma string_fills (key val : bytes) (T : gmap Z HashTable) :
  len val <= 64 * 1024 * 1024 -> fills key type_string (u32 (len val)) (fill_string val) T (DString val).
Proof.
  intros Hv n (Hw & _ & Et & _ & _ & Hc). pose proof (len_nonneg val). rewrite u32_small in Hc by lia.
  eapply string_edited; [exact Hw|exact Et|apply plain_table; congruence|lia|exact Hv].
Qed.

Lemma integer_fills (key : bytes) (z : Z) (T : gmap Z HashTable) : is_int64 z -> fills key type_integer 8 (set_integer_value z) T (DInt z).
Proof.
  intros Hz n (Hw & _ & Et & _ & _ & Hc). destruct (capacity_eq n Hw) as [Hcap _].
  eapply (integer_edited T n n (node_body n) (count n)); [|apply plain_table; congruence|lia|by symmetry|exact Hz].
  rewrite <- Et. by apply edited_refl.
Qed.

(** ** Specifications *)

(** SET. *)
Lemma set_wp (db : Database A) K R rs key val :
  db_ok db K R -> logged rs db ->
  wp (set key val)
    (fun _ db' => len key <= max_key_length /\ len val <= 64 * 1024 * 1024 /\
                  wrote db K R rs [(op_set, [key; val])] key (DString val, None) db')
    (fun e db' => kept db K rs (if 64 * 1024 * 1024 <? len val then [] else [(op_set, [key; val])]) key db') db.
Proof.
  intros Hok Hl. unfold set. destruct (Z.ltb_spec (64 * 1024 * 1024) (len val)) as [Hv|Hv].
  { wp_steps. destruct (reached_start db K R rs Hok Hl) as (idx & order & Hr).
    apply halted_kept_first. intros c. by eapply reached_halted. }
  wp_steps. eapply lookup_wp; [exact Hok|exact Hl| | |done].
  { intros _ Hh. by apply halted_kept_first. }
  intros a idx order db1 Hk Hr Ha. wp_steps.
  assert (forall idx' order' db', reached db ((rs ++ recs db (purge_records db K key)) ++ recs db [(op_set, [key; val])])
    idx' order' (<[key := (DString val, None)]> (purged db K key)) (key :: others key (front db K R key)) db' ->
    len key <= max_key_length /\ len val <= 64 * 1024 * 1024 /\
    wrote db K R rs [(op_set, [key; val])] key (DString val, None) db') as Hdone.
  { intros idx' order' db' Hr'. split; [exact Hk|]. split; [exact Hv|]. by eapply reached_wrote. }
  destruct (set_needs_block a (node_at db1 a) val) eqn:Eb.
  - wp_steps. eapply reached_rehash_wp; [exact Hr| |intros; by apply halted_kept]. intros db2 Hr2 _.
    eapply (reached_build_wp db db2 _ _ _ _ _ _ _ _ _ _ _ _ (fun _ => True)); [exact Hr2|exact Ha|exact Hk|apply u32_range|done|by apply string_fills| |done| |].
    + by apply (log_records _ _ _ _ (fun _ => True)).
    + intros p m [] idx' order' db' Hr' _ _ _ _. by eapply Hdone.
    + intros; by apply halted_kept.
  - unfold set_needs_block in Eb. rewrite !orb_false_iff in Eb. destruct Eb as (((Ha0 & Ety) & Ec) & _).
    apply Z.eqb_neq in Ha0. apply negb_false_iff, bool_decide_eq_true in Ety. apply Z.ltb_ge in Ec.
    destruct (idx !! key) as [b|] eqn:Hi; cbn [from_option id] in Ha; [subst b|done].
    destruct (reached_node _ _ _ _ _ _ _ _ _ Hr Hi) as (n & e & Ea & Ek & Hw & _ & _ & Hv0).
    rewrite (node_at_lookup _ _ _ Ea) in *. wp_steps.
    eapply reached_log_wp; [exact Hr|done| |intros; by apply halted_kept]. intros db2 Hr2 Eh2 _. wp_steps.
    rewrite <- Eh2 in Ea. destruct (string_edited (tables_ db2) n val Hw Ety) as [Hface Hholds];
      [apply plain_table; congruence|exact Ec|exact Hv|].
    pose proof (reached_change _ _ _ _ _ _ _ _ _ n e (fill_string val) (DString val) Hr2 Hi Ea Ek Hface Hholds) as Hr3.
    pose proof (reached_touch _ _ _ _ _ _ _ _ _ Hr3 Hi) as Hr4.
    pose proof (reached_clear _ _ _ _ _ _ _ _ _ _ Hr4 Hi (lookup_insert_eq _ _ _)) as Hr5.
    apply reached_bump in Hr5. rewrite insert_insert_eq in Hr5. by eapply Hdone.
Qed.

(** GET and the view it is made from. *)
Definition view_of_value (v : dvalue) : ValueView :=
  match v with
  | DString s => mkView view_string s 0
  | DInt z => mkView view_integer [] z
  | DList _ => mkView view_list [] 0
  | DHash _ => mkView view_hash [] 0
  end.

Definition get_of (v : option dvalue) : Result (option bytes) :=
  match v with
  | None => Ok None
  | Some (DString s) => Ok (Some s)
  | Some (DInt z) => Ok (Some (to_string z))
  | Some _ => Unexpected wrong_type
  end.

Lemma value_view_wp (db : Database A) K R rs key :
  db_ok db K R -> logged rs db ->
  wp (value_view key)
    (fun r db' => r = Ok (view_of_value <$> (fst <$> seen db K key)) /\ was_read db K R rs key db')
    (fun _ _ => False) db.
Proof.
  intros Hok Hl. unfold value_view. wp_steps. eapply read_wp; [exact Hok|exact Hl|..].
  - intros db' Hr Hs. rewrite Z.eqb_refl. wp_steps. by rewrite Hs.
  - intros a n e db' Hr Hs Ha Ea Hh _ _ _. destruct (Z.eqb_spec a 0) as [|_]; [done|]. wp_steps.
    rewrite (node_at_lookup _ _ _ Ea), (holds_type _ _ _ Hh), Hs. split; [|exact Hr]. cbn [fmap option_fmap option_map].
    destruct e as [[s|z|l|h] d]; cbn in *; [| |done|done].
    + by destruct Hh as (_ & _ & _ & ->).
    + by destruct Hh as (_ & _ & ->).
Qed.

Lemma get_wp (db : Database A) K R rs key :
  db_ok db K R -> logged rs db ->
  wp (get key) (fun r db' => r = get_of (fst <$> seen db K key) /\ was_read db K R rs key db') (fun _ _ => False) db.
Proof.
  intros Hok Hl. unfold get. wp_steps. eapply wp_mono; [by apply (value_view_wp db K R rs)| |done].
  intros r db' [-> Hr]. wp_steps. split; [|exact Hr]. by destruct (seen db K key) as [[[s|z|l|h] d]|].
Qed.

(** INCR. *)
Definition incr_of (v : option dvalue) : Result Z :=
  let next z := if z =? int64_max then Unexpected value_not_integer else Ok (z + 1) in
  match v with
  | None => Ok 1
  | Some (DInt z) => next z
  | Some (DString s) => from_option next (Unexpected value_not_integer) (from_chars_int64 s)
  | Some _ => Unexpected wrong_type
  end.

(** A value in place becomes an integer. *)
Lemma become_wp (db db1 : Database A) K R rs key z e idx order a n f :
  len key <= max_key_length ->
  reached db (rs ++ recs db (purge_records db K key)) idx order (purged db K key) (front db K R key) db1 ->
  seen db K key = Some e -> idx !! key = Some a -> heap_ db1 !! a = Some n ->
  (forall T, (node_wf (f n) /\ same_face n (f n) /\ has_flag flag_has_ttl (f n) = has_flag flag_has_ttl n) /\
     holds T (f n) (DInt z)) ->
  wp (do! log op_increment [key] in do! modify (change_node a f) in do! modify bump_sequence in ret (Ok z))
    (fun r db' => r = Ok z /\ wrote db K R rs [(op_increment, [key])] key (DInt z, e.2) db')
    (fun _ db' => kept db K rs [(op_increment, [key])] key db') db1.
Proof.
  intros Hk Hr Hs Hi Ea Hf. wp_steps. eapply reached_log_wp; [exact Hr|done| |intros; by apply halted_kept].
  intros db2 Hr2 Eh _. wp_steps. rewrite <- Eh in Ea. destruct (Hf (tables_ db2)) as [Hface Hh].
  assert (purged db K key !! key = Some e) as Ek by (by rewrite purged_seen).
  pose proof (reached_change _ _ _ _ _ _ _ _ _ n e f (DInt z) Hr2 Hi Ea Ek Hface Hh) as Hr3.
  apply reached_bump in Hr3. split; [reflexivity|]. eapply reached_wrote.
  rewrite others_of_front. unfold front in Hr3. rewrite Hs in Hr3. exact Hr3.
Qed.

Lemma string_to_integer T n z :
  node_wf n -> node_type n = type_string -> 8 <= node_body_capacity n -> is_int64 z ->
  (node_wf (become_integer z n) /\ same_face n (become_integer z n) /\
   has_flag flag_has_ttl (become_integer z n) = has_flag flag_has_ttl n) /\ holds T (become_integer z n) (DInt z).
Proof.
  intros Hw Et Hc Hz. destruct (capacity_eq n Hw) as [Hcap _].
  eapply (integer_edited T n _ (node_body n) 0); [|apply plain_table; congruence|exact Hc|by symmetry|exact Hz].
  eapply edited_count; [|lia]. eapply edited_set_type; [|done]. by apply edited_refl.
Qed.

Lemma next_int64 z : is_int64 z -> z <> int64_max -> is_int64 (z + 1).
Proof. unfold is_int64, int64_min, int64_max. lia. Qed.

Lemma increment_wp (db : Database A) K R rs key :
  db_ok db K R -> logged rs db ->
  wp (increment key)
    (answered db K R rs [(op_increment, [key])] key (incr_of (fst <$> seen db K key))
       (fun z => (DInt z, seen db K key ≫= snd)) id)
    (fun e db' => kept db K rs (if_ok (incr_of (fst <$> seen db K key)) [(op_increment, [key])]) key db') db.
Proof.
  intros Hok Hl. unfold increment, answered. wp_steps. eapply lookup_wp; [exact Hok|exact Hl| | |done].
  { intros _ Hh. by apply halted_kept_first. }
  intros a idx order db1 Hk Hr Ha.
  destruct (idx !! key) as [b|] eqn:Hi; cbn [from_option id] in Ha; subst a.
  2:{ assert (seen db K key = None) as Hs.
      { rewrite <- purged_seen. apply (represents_none _ _ _ _ (rc_rep _ _ _ _ _ _ _ Hr)), Hi. }
      rewrite Z.eqb_refl, Hs. wp_steps.
      eapply (reached_rehash_wp _ _ _ _ _ _ _ true); [exact Hr| |intros; by apply halted_kept]. intros db2 Hr2 _.
      wp_steps. eapply (reached_build_wp db db2 _ _ _ _ _ _ _ _ _ _ _ _ (fun _ => True)); [exact Hr2|by rewrite Hi|exact Hk|lia|done|by apply integer_fills| |done| |].
      - by apply (log_records _ _ _ _ (fun _ => True)).
      - intros p m [] idx' order' db' Hr' _ _ _ _. wp_steps. split; [reflexivity|]. cbn.
        unfold ttl_of in Hr'. rewrite purged_seen, Hs in Hr'. by eapply reached_wrote.
      - intros; by apply halted_kept. }
  destruct (reached_node _ _ _ _ _ _ _ _ _ Hr Hi) as (n & e & Ea & Ek & Hw & _ & Hb0 & Hv).
  rewrite purged_seen in Ek. destruct (Z.eqb_spec b 0) as [|_]; [done|]. wp_steps.
  rewrite (node_at_lookup _ _ _ Ea), (holds_type _ _ _ Hv). rewrite Ek. cbn [fmap option_fmap option_map].
  pose proof (reached_looked _ _ _ _ _ _ _ _ Hr) as Hlooked.
  destruct e as [[s|z|l|h] d]; cbn [fst snd holds] in *.
  - destruct Hv as (Et & Ect & Hlen & Es). rewrite bool_decide_false by done. cbn [negb]. rewrite bool_decide_true by done.
    cbn [negb]. rewrite Es. unfold incr_of. destruct (from_chars_int64 s) as [z|] eqn:Ez; cbn [from_option]; [|wp_steps; by split].
    destruct (Z.eqb_spec z int64_max) as [->|Hz]; [wp_steps; by split|].
    assert (is_int64 (z + 1)) as Hz1 by (apply next_int64; [by eapply from_chars_int64_range|done]).
    destruct (Z.ltb_spec (node_body_capacity n) 8) as [Hc|Hc].
    + wp_steps. eapply reached_grow_wp; [exact Hr|exact Hi|exact Ea|apply plain_table; congruence|unfold body_limit; lia| |intros; by apply halted_kept].
      intros p m db2 Hr2 Ep (Hwm & _ & Etm & _ & _ & Hcm & _) _.
      eapply become_wp; [exact Hk|exact Hr2|exact Ek|by rewrite lookup_insert_eq|exact Ep|].
      intros T. apply string_to_integer; [exact Hwm|congruence|lia|exact Hz1].
    + apply wp_bind, wp_ret. eapply become_wp; [exact Hk|exact Hr|exact Ek|exact Hi|exact Ea|].
      intros T. apply string_to_integer; [exact Hw|exact Et|exact Hc|exact Hz1].
  - destruct Hv as (Et & Hc & Ez). rewrite bool_decide_true by done. rewrite Ez. unfold incr_of.
    destruct (Z.eqb_spec z int64_max) as [->|Hz]; [wp_steps; by split|].
    assert (is_int64 (z + 1)) as Hz1 by (apply next_int64; [rewrite <- Ez; apply i64_range|done]).
    destruct (capacity_eq n Hw) as [Hcap _]. eapply become_wp; [exact Hk|exact Hr|exact Ek|exact Hi|exact Ea|].
    intros T. eapply (integer_edited T n n); [|apply plain_table; congruence|exact Hc|by symmetry|exact Hz1].
    rewrite <- Et. by apply edited_refl.
  - rewrite !bool_decide_false by done. wp_steps. by split.
  - rewrite !bool_decide_false by done. wp_steps. by split.
Qed.

(** DEL. *)
Lemma del_wp (db : Database A) K R rs key :
  db_ok db K R -> logged rs db ->
  wp (del key)
    (fun r db' => r = bool_decide (is_Some (seen db K key)) /\ db_ok db' (delete key K) (others key R) /\
       logged (rs ++ recs db (if K !! key is Some _ then [(op_del, [key])] else [])) db' /\ after db db')
    (fun e db' => kept db K rs [(op_del, [key])] key db') db.
Proof.
  intros Hok Hl. unfold del. wp_steps. eapply lookup_wp; [exact Hok|exact Hl| | |done].
  { intros _ Hh. by apply halted_kept_first. }
  intros a idx order db1 Hk Hr Ha. destruct (idx !! key) as [b|] eqn:Hi; cbn [from_option id] in Ha; subst a.
  - destruct (reached_node _ _ _ _ _ _ _ _ _ Hr Hi) as (n & e & Ea & Ek & _ & _ & Hb0 & _). rewrite purged_seen in Ek.
    assert (gone db K key = false /\ K !! key = Some e) as [Hg EK] by (unfold seen in Ek; by destruct (gone db K key)).
    destruct (Z.eqb_spec b 0) as [|_]; [done|]. wp_steps.
    eapply reached_log_wp; [exact Hr|done| |intros; by apply halted_kept]. intros db2 Hr2 _ _. wp_steps.
    apply (reached_erase _ _ _ _ _ _ _ key b) in Hr2; [|exact Hi]. rewrite others_of_front in Hr2.
    generalize dependent (erase_node b db2). intros db3 Hr3. unfold purge_records, purged in Hr3. rewrite Hg in Hr3.
    rewrite EK, Ek, bool_decide_true by (by eexists). split; [reflexivity|]. split; [by eapply reached_ok|].
    destruct Hr3 as [_ _ _ Hl3 Haf3]. split; [|exact Haf3]. by rewrite <- app_assoc, <- recs_app in Hl3.
  - assert (seen db K key = None) as Hs.
    { rewrite <- purged_seen. apply (represents_none _ _ _ _ (rc_rep _ _ _ _ _ _ _ Hr)), Hi. }
    rewrite Z.eqb_refl. wp_steps. rewrite Hs, bool_decide_false by (by intros []). split; [reflexivity|].
    assert (purged db K key = delete key K /\ purge_records db K key = if K !! key is Some _ then [(op_del, [key])] else []) as [E1 E2].
    { unfold seen, purged, purge_records in *. destruct (gone db K key) eqn:Hg.
      - split; [reflexivity|]. unfold gone in Hg. by destruct (K !! key).
      - rewrite Hs. split; [|reflexivity]. by rewrite delete_id. }
    unfold front in Hr. rewrite E1, E2, Hs in Hr. split; [by eapply reached_ok|]. by destruct Hr as [_ _ _ Hl3 Haf3].
Qed.

(** ** Properties *)

(** SET.  When the call returns, the key has the value and no deadline,
    it is the most recently used one, the other keys are as they were, and
    the log has the record (after one for an old value past its deadline).
    When it throws, the keyspace is as it was, but for such an old value, and
    the log has no new record unless it has failed for good. *)
Theorem set_correct (db : Database A) K R rs key val :
  db_ok db K R -> logged rs db ->
  wp (set key val)
    (fun _ db' => len key <= max_key_length /\ len val <= 64 * 1024 * 1024 /\
                  wrote db K R rs [(op_set, [key; val])] key (DString val, None) db')
    (fun e db' => kept db K rs (if 64 * 1024 * 1024 <? len val then [] else [(op_set, [key; val])]) key db') db.
Proof. apply set_wp. Qed.

(** GET.  The call never throws and changes no value: it returns the text
    of a string or of an integer, nothing for a key that is missing or past
    its deadline, and an error for a list or a hash. *)
Theorem get_correct (db : Database A) K R rs key :
  db_ok db K R -> logged rs db ->
  wp (get key) (fun r db' => r = get_of (fst <$> seen db K key) /\ was_read db K R rs key db') (fun _ _ => False) db.
Proof. apply get_wp. Qed.

(** C32: INCR.  A missing key counts as zero; an integer, or a string that is
    the text of one, becomes the next integer and keeps its deadline; the
    largest 64-bit integer, other texts and other types are refused and
    nothing changes. *)
Theorem increment_correct (db : Database A) K R rs key :
  db_ok db K R -> logged rs db ->
  wp (increment key)
    (answered db K R rs [(op_increment, [key])] key (incr_of (fst <$> seen db K key))
       (fun z => (DInt z, seen db K key ≫= snd)) id)
    (fun e db' => kept db K rs (if_ok (incr_of (fst <$> seen db K key)) [(op_increment, [key])]) key db') db.
Proof. apply increment_wp. Qed.

(** DEL.  The key is gone afterwards; the call says whether it was there
    and had not expired, and one record is written if there was anything to
    delete. *)
Theorem del_correct (db : Database A) K R rs key :
  db_ok db K R -> logged rs db ->
  wp (del key)
    (fun r db' => r = bool_decide (is_Some (seen db K key)) /\ db_ok db' (delete key K) (others key R) /\
       logged (rs ++ recs db (if K !! key is Some _ then [(op_del, [key])] else [])) db' /\ after db db')
    (fun e db' => kept db K rs [(op_del, [key])] key db') db.
Proof. apply del_wp. Qed.

End ops.

(** ** Examples *)

Definition key_k : bytes := of_str "k".
Definition sample_set : (exn + unit) * Database Memory := set key_k (of_str "41") sample_empty.
Definition sample_db : Database Memory := snd sample_set.
Definition sample_keyspace : Keyspace := {[key_k := (DString (of_str "41"), None)]}.
Definition sample_log_records : list (WalOp * list bytes) := sample_records ++ [(op_set, [key_k; of_str "41"])].

Lemma set_correct_witness :
  exists db', set key_k (of_str "41") sample_empty = (inr tt, db') /\
    db_ok db' sample_keyspace [key_k] /\ logged sample_log_records db'.
Proof.
  destruct (wp_returns _ _ _ _ (set_correct sample_empty ∅ [] sample_records key_k (of_str "41")
    sample_empty_ok sample_empty_logged)) as ([] & db' & E & _ & _ & Hok & Hl & _); [eexists; vm_compute; reflexivity|].
  exists db'. split; [exact E|]. split; [exact Hok|exact Hl].
Defined.

Lemma sample_db_ok : db_ok sample_db sample_keyspace [key_k] /\ logged sample_log_records sample_db.
Proof.
  destruct (wp_returns _ _ _ _ (set_wp sample_empty ∅ [] sample_records key_k (of_str "41")
    sample_empty_ok sample_empty_logged)) as ([] & db' & E & _ & _ & Hok & Hl & _); [eexists; vm_compute; reflexivity|].
  unfold sample_db, sample_set. rewrite E. split; [exact Hok|exact Hl].
Qed.

Lemma get_correct_witness : exists db', get key_k sample_db = (inr (Ok (Some (of_str "41"))), db').
Proof.
  destruct sample_db_ok as [Hok Hl].
  destruct (wp_total _ _ _ (get_correct sample_db sample_keyspace [key_k] _ key_k Hok Hl)) as (r & db' & E & Hr & _).
  assert (get_of (fst <$> seen sample_db sample_keyspace key_k) = Ok (Some (of_str "41"))) as Hs by (vm_compute; reflexivity).
  exists db'. by rewrite E, Hr, Hs.
Defined.

Lemma increment_correct_witness :
  exists db', increment key_k sample_db = (inr (Ok 42), db') /\
    wrote sample_db sample_keyspace [key_k] sample_log_records [(op_increment, [key_k])] key_k (DInt 42, None) db'.
Proof.
  destruct sample_db_ok as [Hok Hl].
  pose proof (increment_correct sample_db sample_keyspace [key_k] _ key_k Hok Hl) as Hw.
  assert (seen sample_db sample_keyspace key_k = Some (DString (of_str "41"), None)) as Hs by (vm_compute; reflexivity).
  rewrite Hs in Hw. change (incr_of _) with (Ok 42) in Hw.
  destruct (wp_returns _ _ _ _ Hw) as (r & db' & E & -> & Hwr); [eexists; vm_compute; reflexivity|].
  exists db'. split; [exact E|exact Hwr].
Defined.

Lemma del_correct_witness :
  exists db', del key_k sample_db = (inr true, db') /\ db_ok db' (delete key_k sample_keyspace) [].
Proof.
  destruct sample_db_ok as [Hok Hl].
  destruct (wp_returns _ _ _ _ (del_correct sample_db sample_keyspace [key_k] _ key_k Hok Hl))
    as (r & db' & E & Hr & Hok' & _); [eexists; vm_compute; reflexivity|].
  assert (bool_decide (is_Some (seen sample_db sample_keyspace key_k)) = true) as Hs by (vm_compute; reflexivity).
  exists db'. split; [|exact Hok']. by rewrite E, Hr, Hs.
Defined.
