(* ===== verification/Timers.v ===== *)
(** * Timers: deadlines, expiry and eviction

    [expire], [ttl], [remove_expired_locked], [remove_expired] and
    [evict_to] of [src/database.cpp].  The two sweeps run inside a batch of
    the log and stop at their first failure; what they removed until then
    stays removed, in memory and in the log. *)

From S2P Require Import Prelude Charconv Errors Effects Pack WalCodec Wal Allocator Slab Lru Expiry Buckets Node Store Keyspace StoreSpec Contents Edits Writing Sample Strings.

Section ops.

Context {A : Type} `{NodeAllocator A} `{!Platform A}.

(** ** Operations *)

(** Arithmetic on [std::int64_t] is written with its wrap-around. *)
Definition expire (key : bytes) (seconds : Z) : M (Database A) bool :=
  let! node := find_writable key in
  if node =? 0 then ret false else
  if seconds <=? 0 then
    do! log op_del [key] in
    do! modify (erase_node node) in
    ret true
  else
  let! now := now_ms in
  let! current := current_unix_ms in
  let max_seconds := Z.quot (int64_max - Z.max now current) 1000 in
  if max_seconds <? seconds then throw (exn_error value_not_integer) else
  let deadline := i64 (now + seconds * 1000) in
  let! current := current_unix_ms in
  let wall := i64 (current + seconds * 1000) in
  let stamp := to_string wall in
  let! db := Effects.get in
  let previous := default (-1) (deadline_of node db) in
  do! schedule_expiry node deadline in
  do! try_catch (log op_expire_at [key; stamp])
        (fun e =>
           do! (if previous <? 0 then modify (clear_expiry node) else schedule_expiry node previous) in
           throw e) in
  do! modify bump_sequence in
  ret true.

Definition ttl (key : bytes) : M (Database A) Z :=
  let! node := find_active key in
  if node =? 0 then ret (-2) else
  let! db := Effects.get in
  match deadline_of node db with
  | None => ret (-1)
  | Some deadline =>
      let! now := now_ms in
      let remaining := i64 (deadline - now) in
      ret (if remaining <=? 0 then -2 else Z.quot remaining 1000)
  end.

(** The scope of a batch of log records. *)
Definition in_batch {R} (body : M (Database A) R) : M (Database A) R :=
  do! begin_wal_batch in
  let! r := try_catch body (fun e => do! end_wal_batch in throw e) in
  do! end_wal_batch in
  ret r.

(** The loops take a node out of memory in every round, so that one round
    more than there are nodes is enough. *)
Definition rounds (db : Database A) : nat := S (size (heap_ db)).

Fixpoint expiry_loop (fuel : nat) (now limit removed : Z) : M (Database A) unit :=
  match fuel with
  | O => ret tt
  | S fuel =>
      if negb (removed <? limit) then ret tt else
      let! db := Effects.get in
      match expiry_heap_ (exp_ db) with
      | [] => ret tt
      | node :: _ =>
          if now <? default 0 (deadline_of node db) then ret tt else
          do! log op_del [key_at db node] in
          do! modify (erase_node node) in
          do! modify (fun db => put_expired_keys (u64 (expired_keys_ db + 1)) db) in
          expiry_loop fuel now limit (removed + 1)
      end
  end.

Definition remove_expired_locked (limit : Z) : M (Database A) unit :=
  let! now := now_ms in
  in_batch (let! fuel := gets rounds in expiry_loop fuel now limit 0).

Definition no_expiry_limit : Z := 2 ^ 64 - 1.

Definition remove_expired (limit : Z) : M (Database A) unit :=
  let! hint := gets ttl_hint_ in
  if negb hint then ret tt else remove_expired_locked limit.

Fixpoint evict_loop (fuel : nat) (target limit evicted : Z) : M (Database A) Z :=
  match fuel with
  | O => ret evicted
  | S fuel =>
      let! db := Effects.get in
      if negb ((evicted <? limit) && (target <? key_total_ db)) then ret evicted else
      let victim := lru_tail_ (lru_ db) in
      if victim =? 0 then ret evicted else
      do! log op_del [key_at db victim] in
      do! modify (erase_node victim) in
      do! modify (fun db => put_evictions (u64 (evictions_ db + 1)) db) in
      evict_loop fuel target limit (evicted + 1)
  end.

Definition evict_to (target limit : Z) : M (Database A) Z :=
  in_batch (let! fuel := gets rounds in evict_loop fuel target limit 0).

(** ** Removing keys one after the other *)

Definition dropped (ks : list bytes) (K : Keyspace) : Keyspace := fold_left (fun K k => delete k K) ks K.
Definition dropped_keys (ks : list bytes) (R : list bytes) : list bytes := fold_left (fun R k => others k R) ks R.
Definition dels (ks : list bytes) : list (WalOp * list bytes) := map (fun k => (op_del, [k])) ks.

Lemma lookup_dropped ks K k : dropped ks K !! k = if decide (k ∈ ks) then None else K !! k.
Proof.
  revert K. induction ks as [|x ks IH]; intros K; cbn [dropped fold_left]; [by rewrite decide_False by apply not_elem_of_nil|].
  change (dropped ks (delete x K) !! k = if decide (k ∈ x :: ks) then None else K !! k). rewrite IH.
  destruct (decide (k ∈ ks)) as [Hk|Hk]; [by rewrite decide_True by (by right)|].
  destruct (decide (k = x)) as [->|Hne]; [rewrite decide_True by left; apply lookup_delete_eq|].
  rewrite decide_False by (by rewrite elem_of_cons; intros [?|?]). by apply lookup_delete_ne.
Qed.

Lemma elem_of_others k key R : k ∈ others key R <-> k <> key /\ k ∈ R.
Proof. unfold others. by rewrite list_elem_of_filter. Qed.

(** A round of a sweep: the node's key leaves, in memory and in the log. *)
Lemma drop_wp {T : Type} (db0 db : Database A) rs idx order K R a key (k : M (Database A) T) Q E :
  reached db0 rs idx order K R db -> idx !! key = Some a -> key_at db a = key ->
  (forall db', reached db0 (rs ++ recs db0 (dels [key])) (delete key idx) (filter (fun b => b <> a) order)
       (delete key K) (others key R) db' ->
     expired_keys_ db' = expired_keys_ db -> evictions_ db' = evictions_ db -> wp k Q E db') ->
  (forall e extra db', reached db0 (rs ++ extra) idx order K R db' -> (log_failed db' = false -> extra = []) ->
     extra `prefix_of` recs db0 (dels [key]) -> expired_keys_ db' = expired_keys_ db -> evictions_ db' = evictions_ db -> E e db') ->
  wp (do! log op_del [key_at db a] in do! modify (erase_node a) in k) Q E db.
Proof.
  intros Hr Hi Ek HQ HE. rewrite Ek. wp_steps. eapply reached_append_wp; [exact Hr|done|..].
  2:{ intros e extra db' Hr' Hx Hp (_ & _ & _ & _ & _ & Ev & Ex & _). by apply (HE e extra). }
  intros db1 Hr1 (_ & _ & _ & _ & _ & Ev1 & Ex1 & _). wp_steps.
  pose proof (reached_erase _ _ _ _ _ _ _ _ _ Hr1 Hi) as Hr2.
  assert (env (erase_node a db1) = env db1) as Ev.
  { apply (erase_ok db1 _ _ _ key a (rc_inv _ _ _ _ _ _ _ Hr1) (rc_rep _ _ _ _ _ _ _ Hr1) Hi). }
  generalize dependent (erase_node a db1). intros db2 Hr2 Ev. injection Ev as _ _ _ _ E5 E6. apply HQ; [exact Hr2|congruence|congruence].
Qed.

Lemma order_rounds (db : Database A) idx order pend loose :
  store_core db idx order pend loose -> (length order < rounds db)%nat.
Proof.
  intros Hc. unfold rounds. apply Nat.lt_succ_r. rewrite <- size_dom.
  rewrite <- (size_list_to_set (C := gset Z) order) by apply (lr_nodup _ _ (si_lru _ _ _ _ _ Hc)).
  apply subseteq_size. intros a Ha. apply elem_of_list_to_set in Ha.
  destruct (order_node _ _ _ _ _ Hc a Ha) as [n En]. apply elem_of_dom. by exists n.
Qed.

Lemma length_without (a : Z) order : a ∈ order -> (length (filter (fun b => b <> a) order) < length order)%nat.
Proof.
  intros Ha. apply list_elem_of_split in Ha as (l1 & l2 & ->). rewrite filter_app, filter_cons_False by auto.
  rewrite !length_app. cbn [length]. pose proof (length_filter (fun b => b <> a) l1).
  pose proof (length_filter (fun b => b <> a) l2). lia.
Qed.

(** Where a sweep stands after a round, and where it stops; the record it was
    about to write may be in the log as well. *)
Definition one_del (db0 : Database A) (K : Keyspace) (c : list (WalOp * list bytes)) : Prop :=
  c = [] \/ exists k, is_Some (K !! k) /\ c = recs db0 (dels [k]).
Definition stands (db0 : Database A) (rs : list (WalOp * list bytes)) (K : Keyspace) (R : list bytes) (db : Database A) : Prop :=
  exists idx order, reached db0 rs idx order K R db.
Definition stuck (db0 : Database A) (rs : list (WalOp * list bytes)) (K : Keyspace) (R : list bytes) (db : Database A) : Prop :=
  exists extra c, stands db0 (rs ++ extra) K R db /\ (log_failed db = false -> extra = []) /\ extra `prefix_of` c /\
    one_del db0 K c.

Lemma stands_stuck db0 rs K R db : stands db0 rs K R db -> stuck db0 rs K R db.
Proof. intros Hs. exists [], []. rewrite app_nil_r. split; [exact Hs|]. split; [done|]. split; [done|by left]. Qed.

Lemma dropped_stuck (db0 db : Database A) rs extra idx order K R k a :
  reached db0 (rs ++ extra) idx order K R db -> (log_failed db = false -> extra = []) -> extra `prefix_of` recs db0 (dels [k]) ->
  idx !! k = Some a -> stuck db0 rs K R db.
Proof.
  intros Hr Hx Hp Hi. exists extra, (recs db0 (dels [k])). split; [by exists idx, order|]. split; [exact Hx|]. split; [exact Hp|].
  right. exists k. split; [|reflexivity]. destruct (reached_node _ _ _ _ _ _ _ _ _ Hr Hi) as (n & e & _ & Ek & _). by exists e.
Qed.

(** The records and counters of a batch on a return ([P]) and on a throw ([F]). *)
Definition batch_outcome {T : Type} (db0 : Database A)
    (where_ : Database A -> list (WalOp * list bytes) -> Keyspace -> list bytes -> Database A -> Prop)
    (P : T -> list (WalOp * list bytes) -> Keyspace -> list bytes -> Z -> Z -> Prop) (r : T) (db : Database A) : Prop :=
  exists rs K R, where_ db0 rs K R db /\ P r rs K R (expired_keys_ db) (evictions_ db).

Lemma in_batch_wp {T : Type} (db0 db : Database A) rs idx order K R (body : M (Database A) T) P F :
  reached db0 rs idx order K R db ->
  (forall db1, reached db0 rs idx order K R db1 -> log_frame db db1 ->
     wp body (batch_outcome db0 stands P) (fun _ => batch_outcome db0 stuck (fun _ => F) tt) db1) ->
  F rs K R (expired_keys_ db) (evictions_ db) -> (forall r rs K R x v, P r rs K R x v -> F rs K R x v) ->
  wp (in_batch body) (batch_outcome db0 stands P) (fun _ => batch_outcome db0 stuck (fun _ => F) tt) db.
Proof.
  intros Hr Hbody HF HPF. unfold in_batch. wp_steps. change (@begin_wal_batch A) with (@on_wal_ A (run_call c_begin)).
  eapply (reached_call_wp _ _ _ _ _ _ _ c_begin); [exact Hr|done|done|]. intros db1 Hr1 Hfr1 _.
  split; [|intros e; exists rs, K, R; split; [apply stands_stuck; by exists idx, order|]; destruct Hfr1 as (_ & _ & _ & _ & _ & -> & -> & _); exact HF].
  wp_steps. eapply wp_mono; [by apply Hbody|..].
  - intros r db2 (rs2 & K2 & R2 & (idx2 & order2 & Hr2) & HP). wp_steps.
    change (@end_wal_batch A) with (@on_wal_ A (run_call c_end)).
    eapply (reached_call_wp _ _ _ _ _ _ _ c_end); [exact Hr2|done|done|].
    intros db3 Hr3 (_ & _ & _ & _ & _ & E1 & E2 & _) _. rewrite <- E1, <- E2 in HP. split.
    + wp_steps. exists rs2, K2, R2. split; [by exists idx2, order2|exact HP].
    + intros e. exists rs2, K2, R2. split; [apply stands_stuck; by exists idx2, order2|by eapply HPF].
  - intros e db2 (rs2 & K2 & R2 & (extra & c & (idx2 & order2 & Hr2) & Hx & Hc) & HP). wp_steps.
    change (@end_wal_batch A) with (@on_wal_ A (run_call c_end)).
    eapply (reached_call_wp _ _ _ _ _ _ _ c_end); [exact Hr2|done|done|].
    intros db3 Hr3 (_ & _ & _ & _ & _ & E1 & E2 & _) Hz. rewrite <- E1, <- E2 in HP.
    assert (batch_outcome db0 stuck (fun _ => F) tt db3) as Ho.
    { exists rs2, K2, R2. split; [|exact HP]. exists extra, c. split; [by exists idx2, order2|auto]. }
    split; [wp_steps; exact Ho|intros _; exact Ho].
Qed.

(** ** The sweep of expired keys *)

Definition counted (n : nat) (x : Z) : Z := Nat.iter n (fun x => u64 (x + 1)) x.

Lemma counted_S n x : counted (S n) x = counted n (u64 (x + 1)).
Proof. unfold counted. by rewrite Nat.iter_succ_r. Qed.

(** [ks] are keys past their deadline, with the earliest deadlines. *)
Record swept (now limit : Z) (K : Keyspace) (ks : list bytes) : Prop := {
  sw_expired k : k ∈ ks -> exists e, K !! k = Some e /\ expired_at now e = true;
  sw_nodup : NoDup ks;
  sw_limit : len ks <= limit;
  sw_first k k' e e' d d' : k ∈ ks -> K !! k = Some e -> e.2 = Some d ->
    dropped ks K !! k' = Some e' -> e'.2 = Some d' -> d <= d'
}.

Definition none_expired (now : Z) (K : Keyspace) : Prop := forall k e, K !! k = Some e -> expired_at now e = false.

Lemma swept_nil now limit K : 0 <= limit -> swept now limit K [].
Proof.
  intros Hl. constructor; [intros k Hk; by apply elem_of_nil in Hk|constructor|done|].
  intros k k' e e' d d' Hk. by apply elem_of_nil in Hk.
Qed.

Lemma swept_cons now limit K k e d ks :
  K !! k = Some e -> e.2 = Some d -> d <= now -> (forall k' e' d', K !! k' = Some e' -> e'.2 = Some d' -> d <= d') ->
  swept now (limit - 1) (delete k K) ks -> swept now limit K (k :: ks).
Proof.
  intros Ek Ed Hd Hmin [H1 H2 H3 H4].
  assert (forall x, x ∈ ks -> x <> k) as Hne.
  { intros x Hx ->. destruct (H1 _ Hx) as (e' & E & _). by rewrite lookup_delete_eq in E. }
  constructor.
  - intros x Hx. apply elem_of_cons in Hx as [->|Hx].
    + exists e. split; [done|]. unfold expired_at. rewrite Ed. by apply Z.leb_le.
    + destruct (H1 x Hx) as (e' & E & He'). exists e'. split; [|done]. by rewrite lookup_delete_ne in E by (apply not_eq_sym; auto).
  - constructor; [intros Hk; by apply (Hne k Hk)|done].
  - rewrite len_cons. lia.
  - intros x k' e1 e2 d1 d2 Hx E1 Ed1 E2 Ed2. apply elem_of_cons in Hx as [->|Hx].
    + assert (d1 = d) as -> by congruence. rewrite lookup_dropped in E2.
      destruct (decide (k' ∈ k :: ks)); [done|]. by eapply Hmin.
    + apply (H4 x k' e1 e2); try done. by rewrite lookup_delete_ne by (apply not_eq_sym; auto).
Qed.

(** The heap in terms of the keyspace. *)
Lemma reached_deadline (db0 db : Database A) rs idx order K R k e d :
  reached db0 rs idx order K R db -> K !! k = Some e -> e.2 = Some d ->
  exists a, deadlines (exp_ db) !! a = Some d.
Proof.
  intros Hr Ek Ed. pose proof (rc_rep _ _ _ _ _ _ _ Hr k) as Hk. destruct (idx !! k) as [a|]; [|congruence].
  destruct Hk as (e' & Ek' & (n & _ & _ & E2)). exists a. congruence.
Qed.

Lemma heap_front (db0 db : Database A) rs idx order K R a h :
  reached db0 rs idx order K R db -> expiry_heap_ (exp_ db) = a :: h ->
  exists k e d, idx !! k = Some a /\ key_at db a = k /\ a ∈ order /\ K !! k = Some e /\ e.2 = Some d /\
    deadline_of a db = Some d /\ forall k' e' d', K !! k' = Some e' -> e'.2 = Some d' -> d <= d'.
Proof.
  intros Hr Eh. pose proof Hr as [[Hc He] HR _ _ _]. destruct (front_least _ _ _ (si_exp _ _ He) Eh) as (d & Ed & Hmin).
  pose proof (si_deadlines _ _ He a ltac:(by rewrite Ed)) as Ho. pose proof (proj1 (si_order _ _ _ _ _ Hc a) Ho) as Hi.
  destruct (represents_lookup _ _ _ _ _ HR Hi) as (e & Ek & (n & _ & _ & E2)).
  exists (key_at db a), e, d. conjuncts; [done|congruence|..].
  - unfold deadline_of. by rewrite <- deadlines_lookup.
  - intros k' e' d' Ek' Ed'. destruct (reached_deadline _ _ _ _ _ _ _ _ _ _ Hr Ek' Ed') as [b Eb]. by eapply Hmin.
Qed.

Lemma no_heap (db0 db : Database A) rs idx order K R now :
  reached db0 rs idx order K R db -> expiry_heap_ (exp_ db) = [] -> none_expired now K.
Proof.
  intros Hr Eh k e Ek. unfold expired_at. destruct e.2 as [d|] eqn:Ed; [exfalso|done].
  destruct (reached_deadline _ _ _ _ _ _ _ _ _ _ Hr Ek Ed) as [a Ea]. pose proof (rc_inv _ _ _ _ _ _ _ Hr) as [_ He].
  pose proof (size_deadlines _ (proj1 (si_exp _ _ He))) as Es. rewrite Eh in Es. apply map_size_empty_inv in Es.
  by rewrite Es in Ea.
Qed.

(** What a sweep leaves. *)
Definition sweep_result (db0 : Database A) (now limit : Z) (rs : list (WalOp * list bytes)) (K : Keyspace) (R : list bytes)
    (x0 v0 : Z) (finished : bool) (rs' : list (WalOp * list bytes)) (K' : Keyspace) (R' : list bytes) (x v : Z) : Prop :=
  exists ks, rs' = rs ++ recs db0 (dels ks) /\ K' = dropped ks K /\ R' = dropped_keys ks R /\ swept now limit K ks /\
    x = counted (length ks) x0 /\ v = v0 /\ (finished = true -> len ks < limit -> none_expired now K').

Lemma sweep_result_nil (db0 : Database A) now limit rs K R x v finished :
  0 <= limit -> (finished = true -> 0 < limit -> none_expired now K) ->
  sweep_result db0 now limit rs K R x v finished rs K R x v.
Proof.
  intros Hl Hn. exists []. unfold recs. cbn. destruct (logging db0); rewrite app_nil_r; conjuncts; try done; by apply swept_nil.
Qed.

Lemma sweep_result_cons (db0 : Database A) now limit rs K R x0 v0 finished rs' K' R' x v k e d :
  K !! k = Some e -> e.2 = Some d -> d <= now -> (forall k' e' d', K !! k' = Some e' -> e'.2 = Some d' -> d <= d') ->
  sweep_result db0 now (limit - 1) (rs ++ recs db0 (dels [k])) (delete k K) (others k R) (u64 (x0 + 1)) v0 finished rs' K' R' x v ->
  sweep_result db0 now limit rs K R x0 v0 finished rs' K' R' x v.
Proof.
  intros Ek Ed Hd Hmin (ks & -> & -> & -> & Hs & -> & -> & Hn). exists (k :: ks). conjuncts; try reflexivity.
  - rewrite <- app_assoc, <- recs_app. reflexivity.
  - by eapply swept_cons.
  - cbn [length]. by rewrite counted_S.
  - intros Hf. rewrite len_cons. intros Hl. apply Hn; [done|lia].
Qed.

Lemma expiry_loop_wp fuel now limit removed (db0 db : Database A) rs idx order K R :
  reached db0 rs idx order K R db -> (length order < fuel)%nat -> 0 <= removed <= limit ->
  let P f := sweep_result db0 now (limit - removed) rs K R (expired_keys_ db) (evictions_ db) f in
  wp (expiry_loop fuel now limit removed)
    (batch_outcome db0 stands (fun _ => P true)) (fun _ => batch_outcome db0 stuck (fun _ => P false) tt) db.
Proof.
  revert removed rs idx order K R db. induction fuel as [|fuel IH]; intros removed rs idx order K R db Hr Hfuel Hrem P; [lia|].
  assert ((0 < limit - removed -> none_expired now K) -> batch_outcome db0 stands (fun _ => P true) tt db) as Hstop.
  { intros Hn. exists rs, K, R. split; [by exists idx, order|]. apply sweep_result_nil; [lia|auto]. }
  cbn [expiry_loop]. destruct (Z.ltb_spec removed limit) as [Hlt|Hge]; cbn [negb]; [|wp_steps; apply Hstop; lia].
  wp_steps. destruct (expiry_heap_ (exp_ db)) as [|a h] eqn:Eh; [wp_steps; apply Hstop; intros _; by eapply no_heap|].
  destruct (heap_front _ _ _ _ _ _ _ _ _ Hr Eh) as (k & e & d & Hi & Eka & Ho & Ek & Ed & Edl & Hmin). rewrite Edl.
  cbn [from_option id]. destruct (Z.ltb_spec now d) as [Hd|Hd].
  { wp_steps. apply Hstop. intros _ k' e' Ek'. unfold expired_at. destruct e'.2 as [d'|] eqn:Ed'; [|done].
    apply Z.leb_gt. pose proof (Hmin _ _ _ Ek' Ed'). lia. }
  eapply (drop_wp db0 db); [exact Hr|exact Hi|exact Eka|..].
  2:{ intros e' extra db' Hr' Hx Hp Ex Ev. exists rs, K, R.
      split; [by eapply dropped_stuck|]. rewrite Ex, Ev. apply sweep_result_nil; [lia|done]. }
  intros db1 Hr1 Ex1 Ev1. wp_steps. set (db2 := put_expired_keys (u64 (expired_keys_ db1 + 1)) db1).
  assert (reached db0 (rs ++ recs db0 (dels [k])) (delete k idx) (filter (fun b => b <> a) order) (delete k K) (others k R) db2) as Hr2.
  { destruct Hr1 as [HI1 HR1 Er1 Hl1 Haf1]. constructor; [eapply inv_frame; [exact HI1|reflexivity..]|exact HR1|exact Er1|exact Hl1|exact Haf1]. }
  pose proof (length_without a order Ho) as Hlen.
  pose proof (IH (removed + 1) _ _ _ _ _ _ Hr2 ltac:(lia) ltac:(lia)) as Hrec. cbv zeta in Hrec.
  assert (forall f rs' K' R' x v, sweep_result db0 now (limit - (removed + 1)) (rs ++ recs db0 (dels [k])) (delete k K) (others k R)
     (expired_keys_ db2) (evictions_ db2) f rs' K' R' x v -> P f rs' K' R' x v) as Hstep.
  { intros f rs' K' R' x v Hres. eapply sweep_result_cons; [exact Ek|exact Ed|lia|exact Hmin|].
    replace (limit - removed - 1) with (limit - (removed + 1)) by lia. rewrite <- Ex1, <- Ev1. exact Hres. }
  eapply wp_mono; [exact Hrec|..].
  - intros u db3 (rs3 & K3 & R3 & Hs3 & Hres). exists rs3, K3, R3. split; [exact Hs3|by apply Hstep].
  - intros e3 db3 (rs3 & K3 & R3 & Hs3 & Hres). exists rs3, K3, R3. split; [exact Hs3|by apply Hstep].
Qed.

Lemma remove_expired_locked_wp limit (db : Database A) rs K R :
  db_ok db K R -> logged rs db -> 0 <= limit ->
  let P f := sweep_result db (steady_at (time_ db)) limit rs K R (expired_keys_ db) (evictions_ db) f in
  wp (remove_expired_locked limit)
    (batch_outcome db stands (fun _ => P true)) (fun _ => batch_outcome db stuck (fun _ => P false) tt) db.
Proof.
  intros Hok Hl Hlim P. destruct (reached_start db K R rs Hok Hl) as (idx & order & Hr). unfold remove_expired_locked.
  wp_steps. apply now_wp. destruct (reached_time _ _ _ _ _ _ _ Hr) as [Hr1 _].
  generalize (eq_refl : expired_keys_ (put_time (S (time_ db)) db) = expired_keys_ db)
    (eq_refl : evictions_ (put_time (S (time_ db)) db) = evictions_ db).
  generalize dependent (put_time (S (time_ db)) db). intros db1 Hr1 Ex1 Ev1.
  assert (P false rs K R (expired_keys_ db1) (evictions_ db1)) as HF.
  { rewrite Ex1, Ev1. apply sweep_result_nil; [exact Hlim|done]. }
  eapply in_batch_wp; [exact Hr1| |exact HF|].
  - intros db2 Hr2 (Eh & _ & _ & _ & _ & Ev2 & Ex2 & _). wp_steps.
    pose proof (expiry_loop_wp (rounds db2) (steady_at (time_ db)) limit 0 db db2 rs idx order K R Hr2
      (order_rounds _ _ _ _ _ (proj1 (rc_inv _ _ _ _ _ _ _ Hr2))) ltac:(lia)) as Hloop.
    cbv zeta in Hloop. rewrite Z.sub_0_r, Ex2, Ev2, Ex1, Ev1 in Hloop. exact Hloop.
  - intros _ rs' K' R' x v (ks & H1 & H2 & H3 & H4 & H5 & H6 & _). exists ks. by conjuncts.
Qed.

(** ** Eviction *)

(** [ks] are the least recently used keys, the oldest first. *)
Definition evicted_from (R R' ks : list bytes) : Prop := R = R' ++ reverse ks.

Definition evict_result (db0 : Database A) (rs : list (WalOp * list bytes)) (K : Keyspace) (R : list bytes) (x0 v0 : Z)
    (bound : Z -> Prop) (rs' : list (WalOp * list bytes)) (K' : Keyspace) (R' : list bytes) (x v : Z) : Prop :=
  exists ks, rs' = rs ++ recs db0 (dels ks) /\ K' = dropped ks K /\ evicted_from R R' ks /\
    v = counted (length ks) v0 /\ x = x0 /\ bound (len ks).

Lemma evict_result_nil (db0 : Database A) rs K R x v (bound : Z -> Prop) :
  bound 0 -> evict_result db0 rs K R x v bound rs K R x v.
Proof.
  intros Hb. exists []. unfold recs, evicted_from. cbn. destruct (logging db0); rewrite !app_nil_r; by conjuncts.
Qed.

Lemma evict_result_cons (db0 : Database A) rs K R k x0 v0 (bound bound' : Z -> Prop) rs' K' R' x v :
  (forall n, bound' n -> bound (n + 1)) ->
  evict_result db0 (rs ++ recs db0 (dels [k])) (delete k K) R x0 (u64 (v0 + 1)) bound' rs' K' R' x v ->
  evict_result db0 rs K (R ++ [k]) x0 v0 bound rs' K' R' x v.
Proof.
  intros Hb (ks & -> & -> & HR & -> & -> & Hn). exists (k :: ks). conjuncts; try reflexivity.
  - rewrite <- app_assoc, <- recs_app. reflexivity.
  - unfold evicted_from in *. rewrite reverse_cons, app_assoc. by f_equal.
  - cbn [length]. by rewrite counted_S.
  - rewrite len_cons, Z.add_comm. by apply Hb.
Qed.

Lemma reached_nodup (db0 db : Database A) rs idx order K R : reached db0 rs idx order K R db -> NoDup R.
Proof.
  intros [[Hc _] _ <- _ _]. unfold recency. apply NoDup_fmap_2_strong; [|apply (lr_nodup _ _ (si_lru _ _ _ _ _ Hc))].
  intros a b Ha Hb E. apply (si_order _ _ _ _ _ Hc) in Ha, Hb. congruence.
Qed.

Lemma others_last k (R1 : list bytes) : NoDup (R1 ++ [k]) -> others k (R1 ++ [k]) = R1.
Proof.
  intros Hnd. unfold others. rewrite filter_app, filter_cons_False by auto. rewrite filter_nil, app_nil_r.
  apply filter_all, Forall_forall. intros x Hx ->. apply NoDup_app in Hnd as (_ & Hd & _). apply (Hd k Hx). left.
Qed.

(** The tail of the list is the least recently used key. *)
Lemma tail_key (db0 db : Database A) rs idx order K R :
  reached db0 rs idx order K R db -> order <> [] ->
  let v := lru_tail_ (lru_ db) in
  v <> 0 /\ v ∈ order /\ idx !! key_at db v = Some v /\ exists R1, R = R1 ++ [key_at db v].
Proof.
  intros [[Hc _] _ <- _ _] Hne v. pose proof (si_lru _ _ _ _ _ Hc) as Hl.
  destruct order as [|x o _] using rev_ind; [done|]. assert (v = x) as -> by (unfold v; rewrite (lr_tail _ _ Hl); apply last_or_snoc).
  assert (x ∈ o ++ [x]) as Hx by (apply elem_of_app; right; left).
  split; [by intros ->; apply (lr_nonnull _ _ Hl)|]. split; [exact Hx|]. split; [by apply (si_order _ _ _ _ _ Hc)|].
  exists (recency db o). unfold recency. by rewrite fmap_app.
Qed.

Lemma u64_succ a t : 0 <= t < u64 (a + 1) -> u64 (a + 1) = u64 a + 1.
Proof.
  unfold u64. intros Ht. pose proof (Z.mod_pos_bound a (2 ^ 64) ltac:(lia)). rewrite <- Zplus_mod_idemp_l in Ht |- *.
  destruct (Z.eq_dec (a mod 2 ^ 64 + 1) (2 ^ 64)) as [E|Hne]; [rewrite E, Z_mod_same_full in Ht; lia|]. apply Z.mod_small. lia.
Qed.

Lemma evict_loop_wp fuel target limit evicted (db0 db : Database A) rs idx order K R :
  reached db0 rs idx order K R db -> (length order < fuel)%nat -> 0 <= evicted <= limit -> 0 <= target ->
  let most := Z.min (limit - evicted) (Z.max 0 (u64 (len R) - target)) in
  let P bound := evict_result db0 rs K R (expired_keys_ db) (evictions_ db) bound in
  wp (evict_loop fuel target limit evicted)
    (batch_outcome db0 stands (fun r => P (fun n => n = most /\ r = evicted + most)))
    (fun _ => batch_outcome db0 stuck (fun _ => P (fun n => n <= most)) tt) db.
Proof.
  revert evicted rs idx order K R db. induction fuel as [|fuel IH]; intros evicted rs idx order K R db Hr Hfuel Hev Ht most P; [lia|].
  assert (len R = len order) as ElR by (rewrite <- (rc_recency _ _ _ _ _ _ _ Hr); unfold len, recency; by rewrite length_fmap).
  assert (key_total_ db = u64 (len R)) as Etot by (by rewrite (si_total _ _ _ _ _ (proj1 (rc_inv _ _ _ _ _ _ _ Hr))), <- ElR).
  assert (most = 0 -> batch_outcome db0 stands (fun r => P (fun n => n = most /\ r = evicted + most)) evicted db) as Hstop.
  { intros Hm. rewrite Hm. exists rs, K, R. split; [by exists idx, order|]. apply evict_result_nil. split; lia. }
  cbn [evict_loop]. wp_steps. rewrite Etot. destruct (Z.ltb_spec evicted limit) as [Hlt|Hge]; cbn [andb negb]; [|wp_steps; apply Hstop; unfold most; lia].
  destruct (Z.ltb_spec target (u64 (len R))) as [Hlt'|Hge']; cbn [negb]; [|wp_steps; apply Hstop; unfold most; lia].
  assert (order <> []) as Hne by (intros ->; change (len R = 0) in ElR; rewrite ElR in Hlt'; change (u64 0) with 0 in Hlt'; lia).
  destruct (tail_key _ _ _ _ _ _ _ Hr Hne) as (Hv0 & Ho & Hi & R1 & ER). set (v := lru_tail_ (lru_ db)) in *.
  destruct (Z.eqb_spec v 0) as [|_]; [done|].
  eapply (drop_wp db0 db); [exact Hr|exact Hi|reflexivity|..].
  2:{ intros e' extra db' Hr' Hx Hp Ex Ev. exists rs, K, R.
      split; [by eapply dropped_stuck|]. rewrite Ex, Ev. apply evict_result_nil. unfold most. lia. }
  intros db1 Hr1 Ex1 Ev1. wp_steps. set (db2 := put_evictions (u64 (evictions_ db1 + 1)) db1).
  pose proof (reached_nodup _ _ _ _ _ _ _ Hr) as Hnd. rewrite ER in Hnd. rewrite ER, (others_last _ _ Hnd) in Hr1.
  assert (reached db0 (rs ++ recs db0 (dels [key_at db v])) (delete (key_at db v) idx) (filter (fun b => b <> v) order)
            (delete (key_at db v) K) R1 db2) as Hr2.
  { destruct Hr1 as [HI1 HR1 Er1 Hl1 Haf1]. constructor; [eapply inv_frame; [exact HI1|reflexivity..]|exact HR1|exact Er1|exact Hl1|exact Haf1]. }
  pose proof (length_without v order Ho) as Hlo.
  assert (len R = len R1 + 1) as ElR1 by (rewrite ER, len_app; reflexivity).
  assert (u64 (len R) = u64 (len R1) + 1) as Eu by (rewrite ElR1 in Hlt' |- *; by apply (u64_succ (len R1) target)).
  pose proof (IH (evicted + 1) _ _ _ _ _ _ Hr2 ltac:(lia) ltac:(lia) Ht) as Hrec. cbv zeta in Hrec.
  assert (forall (b b' : Z -> Prop) rs' K' R' x y, (forall n, b' n -> b (n + 1)) ->
     evict_result db0 (rs ++ recs db0 (dels [key_at db v])) (delete (key_at db v) K) R1
     (expired_keys_ db2) (evictions_ db2) b' rs' K' R' x y -> P b rs' K' R' x y) as Hstep.
  { intros b b' rs' K' R' x y Hb Hres. unfold P. rewrite ER. eapply evict_result_cons; [exact Hb|].
    rewrite <- Ex1, <- Ev1. exact Hres. }
  eapply wp_mono; [exact Hrec|..].
  - intros u db3 (rs3 & K3 & R3 & Hs3 & Hres). exists rs3, K3, R3. split; [exact Hs3|]. eapply Hstep; [|exact Hres].
    intros n [-> ->]. unfold most. lia.
  - intros e3 db3 (rs3 & K3 & R3 & Hs3 & Hres). exists rs3, K3, R3. split; [exact Hs3|]. eapply Hstep; [|exact Hres].
    intros n Hn. cbv beta in Hn. unfold most. lia.
Qed.

Lemma evict_to_wp target limit (db : Database A) rs K R :
  db_ok db K R -> logged rs db -> 0 <= limit -> 0 <= target ->
  let most := Z.min limit (Z.max 0 (u64 (len R) - target)) in
  let P bound := evict_result db rs K R (expired_keys_ db) (evictions_ db) bound in
  wp (evict_to target limit)
    (batch_outcome db stands (fun r => P (fun n => n = most /\ r = most)))
    (fun _ => batch_outcome db stuck (fun _ => P (fun n => n <= most)) tt) db.
Proof.
  intros Hok Hl Hlim Ht most P. destruct (reached_start db K R rs Hok Hl) as (idx & order & Hr). unfold evict_to.
  eapply in_batch_wp; [exact Hr| |apply evict_result_nil; unfold most; lia|].
  - intros db2 Hr2 (Eh & _ & _ & _ & _ & Ev2 & Ex2 & _). wp_steps.
    pose proof (evict_loop_wp (rounds db2) target limit 0 db db2 rs idx order K R Hr2
      (order_rounds _ _ _ _ _ (proj1 (rc_inv _ _ _ _ _ _ _ Hr2))) ltac:(lia) Ht) as Hloop.
    cbv zeta in Hloop. rewrite Z.sub_0_r, Ex2, Ev2 in Hloop. exact Hloop.
  - intros r rs' K' R' x v (ks & H1 & H2 & H3 & H4 & H5 & H6 & _). exists ks. conjuncts. lia.
Qed.

(** ** A deadline for a key *)

Lemma wall_wp Q E (db : Database A) : Q (wall_at (time_ db)) (put_time (S (time_ db)) db) -> wp current_unix_ms Q E db.
Proof. done. Qed.

Definition deadlines_ok (K : Keyspace) : Prop := forall k e d, K !! k = Some e -> e.2 = Some d -> 0 <= d.

Lemma env_log_failed (db db' : Database A) : env db' = env db -> log_failed db' = log_failed db.
Proof. intros [= E1 _ _ _ _ _]. unfold log_failed. by rewrite E1. Qed.

Lemma reached_deadline_of (db0 db : Database A) rs idx order K R key a e :
  reached db0 rs idx order K R db -> idx !! key = Some a -> K !! key = Some e -> deadline_of a db = e.2.
Proof.
  intros Hr Hi Ek. destruct (represents_lookup _ _ _ _ _ (rc_rep _ _ _ _ _ _ _ Hr) Hi) as (e' & Ek' & (n & _ & _ & E2)).
  assert (e' = e) as -> by congruence. unfold deadline_of. by rewrite <- deadlines_lookup.
Qed.

Lemma db_ok_deadline (db : Database A) K R key e : db_ok db K R -> K !! key = Some e -> deadline_of (find_node key db) db = e.2.
Proof.
  intros (idx & order & HI & HR & _) Ek. rewrite (find_node_eq _ _ _ _ _ (proj1 HI)). specialize (HR key).
  destruct (idx !! key) as [a|]; [|congruence]. destruct HR as (e' & Ek' & (n & _ & _ & E2)). cbn [from_option id].
  assert (e' = e) as -> by congruence. unfold deadline_of. by rewrite <- deadlines_lookup.
Qed.

(** Undoing a deadline when its record cannot be written. *)
Lemma undo_wp (db0 db : Database A) rs extra c idx order K R key a e d ex (Q : unit -> Database A -> Prop) E :
  reached db0 (rs ++ extra) idx order (<[key := (e.1, Some d)]> K) R db -> (log_failed db = false -> extra = []) ->
  idx !! key = Some a -> K !! key = Some e -> (forall d, e.2 = Some d -> 0 <= d) ->
  extra `prefix_of` c -> (forall db', halted c db0 rs K db' -> E ex db') ->
  wp (do! (if default (-1) e.2 <? 0 then modify (clear_expiry a) else schedule_expiry a (default (-1) e.2)) in throw ex)
    Q E db.
Proof.
  intros Hr Hx Hi Ek Hpos Hp HE. destruct e as [v [p|]]; cbn [fst snd from_option id] in *.
  - pose proof (Hpos p eq_refl). destruct (Z.ltb_spec p 0) as [|_]; [lia|]. wp_steps.
    eapply reached_schedule_wp; [exact Hr|exact Hi|by rewrite lookup_insert_eq| |by intros e' db' _ [=]].
    intros db' Hr' Ev. wp_steps. rewrite insert_insert_eq in Hr'. cbn [fst] in Hr'. rewrite insert_id in Hr' by exact Ek.
    apply HE. eapply reached_refused; [exact Hr'| |exact Hp]. by rewrite (env_log_failed _ _ Ev).
  - change (-1 <? 0) with true. wp_steps. destruct (clear_expiry_env a db) as (Ev & _).
    apply (reached_clear _ _ _ _ _ _ _ key a (v, Some d)) in Hr; [|exact Hi|by rewrite lookup_insert_eq].
    rewrite insert_insert_eq in Hr. cbn [fst] in Hr. rewrite insert_id in Hr by exact Ek.
    apply HE. eapply reached_refused; [exact Hr| |exact Hp]. by rewrite (env_log_failed _ _ Ev).
Qed.

(** Setting a deadline and writing its record: both or neither. *)
Lemma set_deadline_wp {T : Type} (db0 db : Database A) rs idx order K R key a e d stamp (k : M (Database A) T) Q E :
  reached db0 rs idx order K R db -> idx !! key = Some a -> K !! key = Some e -> (forall d, e.2 = Some d -> 0 <= d) ->
  (forall db', reached db0 (rs ++ recs db0 [(op_expire_at, [key; stamp])]) idx order (<[key := (e.1, Some d)]> K) R db' ->
     wp k Q E db') ->
  (forall ex db', halted (recs db0 [(op_expire_at, [key; stamp])]) db0 rs K db' -> E ex db') ->
  wp (let! db := Effects.get in
      let previous := default (-1) (deadline_of a db) in
      do! schedule_expiry a d in
      do! try_catch (log op_expire_at [key; stamp])
            (fun ex =>
               do! (if previous <? 0 then modify (clear_expiry a) else schedule_expiry a previous) in
               throw ex) in
      k) Q E db.
Proof.
  intros Hr Hi Ek Hpos HQ HE. wp_steps. rewrite (reached_deadline_of _ _ _ _ _ _ _ _ _ _ Hr Hi Ek). cbv zeta. wp_steps.
  eapply reached_schedule_wp; [exact Hr|exact Hi|exact Ek| |intros e' db' Hr' _; apply HE; by eapply reached_halted].
  intros db1 Hr1 _. wp_steps. eapply reached_append_wp; [exact Hr1|done|..].
  - intros db2 Hr2 _. by apply HQ.
  - intros ex extra db2 Hr2 Hx Hp _. eapply undo_wp; [exact Hr2|exact Hx|exact Hi|exact Ek|exact Hpos|exact Hp|]. intros db' Hh. by apply HE.
Qed.

(** A reading of the steady clock during EXPIRE, followed by two of the wall
    clock, the first of which the number of seconds was checked with. *)
Definition expire_time (db : Database A) (seconds : Z) (t : nat) : Prop :=
  (time_ db <= t)%nat /\ steady_at t + seconds * 1000 <= int64_max /\ wall_at (t + 1) + seconds * 1000 <= int64_max.

Definition expire_record (key : bytes) (seconds : Z) (t : nat) : WalOp * list bytes :=
  (op_expire_at, [key; to_string (i64 (wall_at (t + 2) + seconds * 1000))]).

(** What EXPIRE does to a key that is there. *)
Definition expired_to (db : Database A) (K : Keyspace) (R : list bytes) (rs : list (WalOp * list bytes)) (key : bytes)
    (seconds : Z) (e : entry) (db' : Database A) : Prop :=
  if seconds <=? 0 then
    db_ok db' (delete key K) (others key R) /\ logged (rs ++ recs db [(op_del, [key])]) db' /\ after db db'
  else exists t, expire_time db seconds t /\
    wrote db K R rs [expire_record key seconds t] key (e.1, Some (steady_at t + seconds * 1000)) db'.

(** The records EXPIRE was about to write when it threw. *)
Definition expire_ops (db : Database A) (K : Keyspace) (key : bytes) (seconds : Z) (ops : list (WalOp * list bytes)) : Prop :=
  ops = [] \/ is_Some (seen db K key) /\
    if seconds <=? 0 then ops = [(op_del, [key])] else exists t, expire_time db seconds t /\ ops = [expire_record key seconds t].

Lemma expire_wp (db : Database A) K R rs key seconds :
  db_ok db K R -> logged rs db -> deadlines_ok K ->
  wp (expire key seconds)
    (fun r db' => match seen db K key with
                  | None => r = false /\ looked db K R rs key db'
                  | Some e => r = true /\ expired_to db K R rs key seconds e db'
                  end)
    (fun e db' => exists ops, kept db K rs ops key db' /\ expire_ops db K key seconds ops) db.
Proof.
  intros Hok Hl Hdl. unfold expire. wp_steps. eapply lookup_wp; [exact Hok|exact Hl| | |].
  { intros _ Hh. exists []. split; [by apply halted_kept_first|by left]. }
  2:{ intros e db' Hkp. exists []. split; [apply Hkp|by left]. }
  intros a idx order db1 Hk Hr Ha. destruct (idx !! key) as [b|] eqn:Hi; cbn [from_option id] in Ha; subst a.
  2:{ assert (seen db K key = None) as Hs.
      { rewrite <- purged_seen. apply (represents_none _ _ _ _ (rc_rep _ _ _ _ _ _ _ Hr)), Hi. }
      rewrite Z.eqb_refl, Hs. wp_steps. split; [reflexivity|]. by eapply reached_looked. }
  destruct (reached_node _ _ _ _ _ _ _ _ _ Hr Hi) as (n & e & Ea & Ek & _ & _ & Hb0 & _).
  assert (seen db K key = Some e) as Hs by (by rewrite <- purged_seen).
  assert (gone db K key = false /\ K !! key = Some e) as [Hg EK] by (unfold seen in Hs; by destruct (gone db K key)).
  rewrite Hs. destruct (Z.eqb_spec b 0) as [|_]; [done|]. unfold expired_to, expire_ops. rewrite Hs.
  assert (is_Some (Some e)) as He by (by exists e). destruct (Z.leb_spec seconds 0) as [Hsec|Hsec].
  { wp_steps. eapply reached_log_wp; [exact Hr|done| |].
    2:{ intros ex db' Hh. eexists. split; [by apply halted_kept|]. right. by split. }
    intros db2 Hr2 _ _. wp_steps.
    apply (reached_erase _ _ _ _ _ _ _ key b) in Hr2; [|exact Hi]. rewrite others_of_front in Hr2.
    generalize dependent (erase_node b db2). intros db3 Hr3. unfold purge_records, purged in Hr3. rewrite Hg in Hr3.
    split; [reflexivity|]. split; [by eapply reached_ok|]. destruct Hr3 as [_ _ _ Hl3 Haf3]. split; [|exact Haf3].
    by rewrite <- app_assoc, <- recs_app in Hl3. }
  wp_steps. apply now_wp. wp_steps. destruct (reached_time _ _ _ _ _ _ _ Hr) as [Hr2 Ht2].
  set (t := time_ db1) in *. assert (time_ (put_time (S t) db1) = S t) as Et2 by reflexivity.
  generalize dependent (put_time (S t) db1). intros db2 Hr2 Et2. apply wall_wp.
  destruct (reached_time _ _ _ _ _ _ _ Hr2) as [Hr3 _]. rewrite Et2 in *.
  assert (time_ (put_time (S (S t)) db2) = S (S t)) as Et3 by reflexivity.
  generalize dependent (put_time (S (S t)) db2). intros db3 Hr3 Et3. cbv zeta.
  pose proof (steady_range t) as Hst. pose proof (wall_range (S t)) as Hwt.
  destruct (Z.ltb_spec (Z.quot (int64_max - Z.max (steady_at t) (wall_at (S t))) 1000) seconds) as [Hbig|Hfit].
  { wp_steps. exists []. split; [|by left]. apply halted_kept; [exact Hk|]. by eapply reached_halted. }
  assert (expire_time db seconds t) as Hmax.
  { rewrite Z.quot_div_nonneg in Hfit by (unfold int64_max; lia). unfold expire_time. replace (t + 1)%nat with (S t) by lia.
    cut (seconds * 1000 <= int64_max - Z.max (steady_at t) (wall_at (S t))); [lia|].
    pose proof (Z.mul_div_le (int64_max - Z.max (steady_at t) (wall_at (S t))) 1000 ltac:(lia)). lia. }
  wp_steps. apply wall_wp. destruct (reached_time _ _ _ _ _ _ _ Hr3) as [Hr4 _]. rewrite Et3 in *.
  generalize dependent (put_time (S (S (S t))) db3). intros db4 Hr4.
  eapply set_deadline_wp; [exact Hr4|exact Hi|exact Ek|intros d0 Hd0; exact (Hdl key e d0 EK Hd0)| |].
  2:{ intros ex db' Hh. eexists. split; [by apply halted_kept|]. right. split; [exact He|]. exists t.
      split; [exact Hmax|]. unfold expire_record. by rewrite (Nat.add_comm t 2). }
 
  intros db5 Hr5. wp_steps. apply reached_bump in Hr5. split; [reflexivity|]. exists t. unfold expire_record. rewrite (Nat.add_comm t 2).
  split; [exact Hmax|]. eapply reached_wrote. destruct Hmax as (_ & Hmax & _).
  rewrite (i64_small (steady_at t + seconds * 1000)) in Hr5 by (unfold is_int64, int64_min; lia). rewrite others_of_front.
  unfold front in Hr5. rewrite Hs in Hr5. exact Hr5.
Qed.

(** ** The time a key has left *)

Definition ttl_of_entry (now : Z) (e : option entry) : Z :=
  match e with
  | None => -2
  | Some (_, None) => -1
  | Some (_, Some d) => if d <=? now then -2 else (d - now) / 1000
  end.

Lemma ttl_wp (db : Database A) K R rs key :
  db_ok db K R -> logged rs db -> deadlines_ok K -> (forall k e d, K !! k = Some e -> e.2 = Some d -> d <= int64_max) ->
  wp (ttl key)
    (fun r db' => (exists t, (time_ db <= t)%nat /\ r = ttl_of_entry (steady_at t) (seen db K key)) /\
                  was_read db K R rs key db')
    (fun _ _ => False) db.
Proof.
  intros Hok Hl Hdl Hmax. unfold ttl. wp_steps. eapply read_wp; [exact Hok|exact Hl|..].
  - intros db' Hr Hs. rewrite Z.eqb_refl. wp_steps. split; [|exact Hr]. exists (time_ db). rewrite Hs. by split.
  - intros a n e db' Hr Hs Ha Ea Hh _ Ed _. destruct (Z.eqb_spec a 0) as [|_]; [done|]. wp_steps.
    assert (deadline_of a db' = e.2) as -> by (unfold deadline_of; by rewrite <- deadlines_lookup). rewrite Hs.
    assert (K !! key = Some e) as EK by (unfold seen in Hs; by destruct (gone db K key)).
    destruct e as [v [d|]]; cbn [snd]; [|wp_steps; split; [|exact Hr]; by exists (time_ db)].
    wp_steps. apply now_wp. wp_steps. pose proof Hr as ((idx & order & HI & HR & Er) & Hl' & Haf').
    split.
    + exists (time_ db'). split; [apply Haf'|]. cbn [ttl_of_entry].
      pose proof (Hdl key (v, Some d) d EK eq_refl). pose proof (Hmax key (v, Some d) d EK eq_refl).
      pose proof (steady_range (time_ db')). rewrite i64_small by (unfold is_int64, int64_min, int64_max in *; lia).
      destruct (Z.leb_spec (d - steady_at (time_ db')) 0), (Z.leb_spec d (steady_at (time_ db'))); lia.
    + split; [exists idx, order; split; [by apply put_time_inv|]; by split|]. split; [exact Hl'|].
      apply (after_trans _ _ _ Haf'), after_time, Nat.le_succ_diag_r.
Qed.

(** ** Results *)

(** What is left of a sweep: the keys [ks] are gone, in memory and in the log. *)
Definition keys_gone (db : Database A) (K : Keyspace) (rs : list (WalOp * list bytes)) (ks R' : list bytes)
    (where_log : list (WalOp * list bytes) -> Database A -> Prop) (db' : Database A) : Prop :=
  db_ok db' (dropped ks K) R' /\ where_log (rs ++ recs db (dels ks)) db' /\ after db db'.

(** The log of a sweep that threw. *)
Definition refused_del (db : Database A) (K : Keyspace) (rs : list (WalOp * list bytes)) (db' : Database A) : Prop :=
  exists c, refused rs c db' /\ one_del db K c.

Lemma stands_gone (db db' : Database A) K rs ks R' :
  stands db (rs ++ recs db (dels ks)) (dropped ks K) R' db' -> keys_gone db K rs ks R' logged db'.
Proof.
  intros (idx & order & Hr). split; [by eapply reached_ok|].
  split; [exact (rc_logged _ _ _ _ _ _ _ Hr)|exact (rc_after _ _ _ _ _ _ _ Hr)].
Qed.

Lemma stuck_gone (db db' : Database A) K rs ks R' :
  stuck db (rs ++ recs db (dels ks)) (dropped ks K) R' db' -> keys_gone db K rs ks R' (refused_del db (dropped ks K)) db'.
Proof.
  intros (extra & c & (idx & order & Hr) & Hx & Hp & Hc). split; [by eapply reached_ok|].
  split; [|exact (rc_after _ _ _ _ _ _ _ Hr)]. exists c. split; [|exact Hc]. exists extra.
  split; [exact (rc_logged _ _ _ _ _ _ _ Hr)|by split].
Qed.

Lemma remove_expired_wp limit (db : Database A) rs K R :
  db_ok db K R -> logged rs db -> 0 <= limit ->
  let now := steady_at (time_ db) in
  wp (remove_expired limit)
    (fun _ db' => exists ks, keys_gone db K rs ks (dropped_keys ks R) logged db' /\ swept now limit K ks /\
       (len ks < limit -> none_expired now (dropped ks K)) /\ expired_keys_ db' = counted (length ks) (expired_keys_ db))
    (fun e db' => exists ks, keys_gone db K rs ks (dropped_keys ks R) (refused_del db (dropped ks K)) db' /\ swept now limit K ks /\
       expired_keys_ db' = counted (length ks) (expired_keys_ db)) db.
Proof.
  intros Hok Hl Hlim now. unfold remove_expired. wp_steps. destruct (ttl_hint_ db) eqn:Eh; cbn [negb].
  - eapply wp_mono; [apply (remove_expired_locked_wp limit db rs K R Hok Hl Hlim)|..].
    + intros u db' (rs' & K' & R' & Hs & ks & -> & -> & -> & Hsw & Ex & _ & Hn). exists ks.
      split; [by apply stands_gone|]. split; [exact Hsw|]. split; [by apply Hn|exact Ex].
    + intros e db' (rs' & K' & R' & Hs & ks & -> & -> & -> & Hsw & Ex & _ & Hn). exists ks.
      split; [by apply stuck_gone|]. split; [exact Hsw|exact Ex].
  - wp_steps. destruct (reached_start db K R rs Hok Hl) as (idx & order & Hr). exists [].
    split; [apply stands_gone; exists idx, order; unfold recs; destruct (logging db); cbn; by rewrite app_nil_r|].
    split; [by apply swept_nil|]. split; [|reflexivity]. intros _. eapply no_heap; [exact Hr|].
    pose proof (rc_inv _ _ _ _ _ _ _ Hr) as [_ He]. rewrite (si_ttl_hint _ _ He) in Eh.
    destruct (expiry_heap_ (exp_ db)) as [|a h]; [reflexivity|]. rewrite len_cons in Eh. pose proof (len_nonneg h).
    destruct (Z.eqb_spec (1 + len h) 0); [lia|done].
Qed.

(** C33: EXPIRE.  A key that is there gets the deadline, so many seconds from
    a reading of the steady clock during the call, without overflow; the
    record has the same time on the wall clock.  With no or negative seconds
    the key is deleted.  When the record cannot be written the old deadline
    is back. *)
Theorem expire_correct (db : Database A) K R rs key seconds :
  db_ok db K R -> logged rs db -> deadlines_ok K ->
  wp (expire key seconds)
    (fun r db' => match seen db K key with
                  | None => r = false /\ looked db K R rs key db'
                  | Some e => r = true /\ expired_to db K R rs key seconds e db'
                  end)
    (fun e db' => exists ops, kept db K rs ops key db' /\ expire_ops db K key seconds ops) db.
Proof. apply expire_wp. Qed.

(** TTL.  The call never throws and returns the whole seconds left at a
    reading of the clock, -1 for a key without a deadline and -2 for a key
    that is missing or past its deadline. *)
Theorem ttl_correct (db : Database A) K R rs key :
  db_ok db K R -> logged rs db -> deadlines_ok K -> (forall k e d, K !! k = Some e -> e.2 = Some d -> d <= int64_max) ->
  wp (ttl key)
    (fun r db' => (exists t, (time_ db <= t)%nat /\ r = ttl_of_entry (steady_at t) (seen db K key)) /\
                  was_read db K R rs key db')
    (fun _ _ => False) db.
Proof. apply ttl_wp. Qed.

(** The sweep of expired keys ends, and removes only keys past their
    deadline, those with the earliest deadlines first, up to its limit; if it
    returns before the limit is reached, no key is left whose deadline had
    passed when it began.  Each removed key is in the log and counted.  The
    same holds of what it had removed when it throws. *)
Theorem remove_expired_correct limit (db : Database A) rs K R :
  db_ok db K R -> logged rs db -> 0 <= limit ->
  let now := steady_at (time_ db) in
  wp (remove_expired limit)
    (fun _ db' => exists ks, keys_gone db K rs ks (dropped_keys ks R) logged db' /\ swept now limit K ks /\
       (len ks < limit -> none_expired now (dropped ks K)) /\ expired_keys_ db' = counted (length ks) (expired_keys_ db))
    (fun e db' => exists ks, keys_gone db K rs ks (dropped_keys ks R) (refused_del db (dropped ks K)) db' /\ swept now limit K ks /\
       expired_keys_ db' = counted (length ks) (expired_keys_ db)) db.
Proof. apply remove_expired_wp. Qed.

(** C34: eviction ends, and removes the least recently used keys, the oldest
    first: exactly as many as are above the target, up to its limit, which is
    also what it returns.  Each is in the log and counted. *)
Theorem evict_to_correct target limit (db : Database A) rs K R :
  db_ok db K R -> logged rs db -> 0 <= limit -> 0 <= target -> len R < 2 ^ 64 ->
  let most := Z.min limit (Z.max 0 (len R - target)) in
  wp (evict_to target limit)
    (fun r db' => r = most /\ exists ks R', keys_gone db K rs ks R' logged db' /\ evicted_from R R' ks /\ len ks = most /\
       evictions_ db' = counted (length ks) (evictions_ db))
    (fun e db' => exists ks R', keys_gone db K rs ks R' (refused_del db (dropped ks K)) db' /\ evicted_from R R' ks /\ len ks <= most /\
       evictions_ db' = counted (length ks) (evictions_ db)) db.
Proof.
  intros Hok Hl Hlim Ht Hlen most. pose proof (len_nonneg R).
  pose proof (evict_to_wp target limit db rs K R Hok Hl Hlim Ht) as Hw. cbv zeta in Hw. rewrite u64_small in Hw by lia.
  fold most in Hw. eapply wp_mono; [exact Hw|..].
  - intros r db' (rs' & K' & R' & Hs & ks & -> & -> & He & Ev & _ & Hn & Hr). split; [exact Hr|]. exists ks, R'.
    split; [by apply stands_gone|]. split; [exact He|]. split; [exact Hn|exact Ev].
  - intros e db' (rs' & K' & R' & Hs & ks & -> & -> & He & Ev & _ & Hn). exists ks, R'.
    split; [by apply stuck_gone|]. split; [exact He|]. split; [exact Hn|exact Ev].
Qed.

End ops.

(** ** Examples *)

Lemma sample_deadlines_ok : deadlines_ok sample_keyspace.
Proof. intros k e d E Ed. unfold sample_keyspace in E. apply lookup_singleton_Some in E as [_ <-]. done. Qed.

Definition sample_expire : (exn + bool) * Database Memory := expire key_k 1 sample_db.
Definition sample_timed : Database Memory := snd sample_expire.
Definition sample_timed_keyspace : Keyspace := {[key_k := (DString (of_str "41"), Some 1000)]}.

Lemma sample_seen : seen sample_db sample_keyspace key_k = Some (DString (of_str "41"), None).
Proof. vm_compute. reflexivity. Qed.

(** The clock is first read in [expire]. *)
Lemma sample_time : time_ sample_db = 0%nat /\ time_ sample_timed = 3%nat.
Proof. split; vm_compute; reflexivity. Qed.

Lemma expire_correct_witness :
  exists t db', expire key_k 1 sample_db = (inr true, db') /\
    wrote sample_db sample_keyspace [key_k] sample_log_records
      [(op_expire_at, [key_k; to_string (i64 (wall_at (t + 2) + 1 * 1000))])] key_k
      (DString (of_str "41"), Some (steady_at t + 1 * 1000)) db'.
Proof.
  destruct sample_db_ok as [Hok Hl].
  pose proof (expire_correct sample_db sample_keyspace [key_k] _ key_k 1 Hok Hl sample_deadlines_ok) as Hw.
  rewrite sample_seen in Hw. unfold expired_to in Hw. cbn match in Hw.
  destruct (wp_returns _ _ _ _ Hw) as (r & db' & E & -> & t & _ & Hwr); [eexists; vm_compute; reflexivity|].
  exists t, db'. split; [exact E|exact Hwr].
Defined.

Lemma sample_timed_ok :
  db_ok sample_timed sample_timed_keyspace [key_k] /\ exists rs, logged rs sample_timed.
Proof.
  destruct sample_db_ok as [Hok Hl].
  pose proof (expire_wp sample_db sample_keyspace [key_k] _ key_k 1 Hok Hl sample_deadlines_ok) as Hw.
  rewrite sample_seen in Hw. unfold expired_to in Hw. cbn match in Hw.
  assert (deadline_of (find_node key_k (snd sample_expire)) (snd sample_expire) = Some 1000) as Ed by (vm_compute; reflexivity).
  destruct (wp_returns _ _ _ _ Hw) as (r & db' & E & -> & t & _ & Hok' & Hl' & _); [eexists; vm_compute; reflexivity|].
  change (expire key_k 1 sample_db) with sample_expire in E. unfold sample_timed. rewrite E in Ed |- *. cbn [snd] in *.
  unfold sample_keyspace in Hok'. rewrite insert_singleton_eq in Hok'.
  rewrite (db_ok_deadline _ _ _ _ _ Hok' (lookup_singleton_eq _ _)) in Ed.
  cbn [fst snd] in *. rewrite Ed in Hok'. split; [exact Hok'|eexists; exact Hl'].
Qed.

Lemma sample_timed_deadlines : deadlines_ok sample_timed_keyspace /\
  forall k e d, sample_timed_keyspace !! k = Some e -> e.2 = Some d -> d <= int64_max.
Proof.
  split; intros k e d E Ed; unfold sample_timed_keyspace in E; apply lookup_singleton_Some in E as [_ <-];
    injection Ed as <-; unfold int64_max; lia.
Qed.

Lemma ttl_correct_witness : exists t db', (3 <= t)%nat /\
  ttl key_k sample_timed = (inr (ttl_of_entry (steady_at t) (seen sample_timed sample_timed_keyspace key_k)), db').
Proof.
  destruct sample_timed_ok as [Hok [rs Hl]]. destruct sample_timed_deadlines as [H1 H2].
  destruct (wp_total _ _ _ (ttl_correct sample_timed sample_timed_keyspace [key_k] rs key_k Hok Hl H1 H2))
    as (r & db' & E & (t & Ht & ->) & _).
  exists t, db'. split; [|exact E]. rewrite <- (proj2 sample_time). exact Ht.
Defined.

Lemma remove_expired_correct_witness :
  exists db', remove_expired 10 sample_timed = (inr tt, db') /\ db_ok db' ∅ [].
Proof.
  destruct sample_timed_ok as [Hok [rs Hl]].
  destruct (wp_returns _ _ _ _ (remove_expired_correct 10 sample_timed rs sample_timed_keyspace [key_k] Hok Hl ltac:(lia)))
    as ([] & db' & E & ks & (Hok' & _) & [Hsw Hnd _ _] & Hnone & _); [eexists; vm_compute; reflexivity|].
  rewrite (proj2 sample_time) in *. change (steady_at 3) with 1500 in *. exists db'. split; [exact E|].
  assert (forall k, k ∈ ks -> k = key_k) as Hks.
  { intros k Hk. destruct (Hsw k Hk) as (e & Ee & _). unfold sample_timed_keyspace in Ee. by apply lookup_singleton_Some in Ee as [<- _]. }
  assert (ks = [key_k]) as ->; [|exact Hok'].
  destruct ks as [|k1 [|k2 ks]].
  - exfalso. specialize (Hnone ltac:(vm_compute; reflexivity) key_k (DString (of_str "41"), Some 1000) (lookup_singleton_eq _ _)). discriminate.
  - by rewrite (Hks k1 ltac:(left)).
  - exfalso. apply NoDup_cons in Hnd as [Hnd _]. apply Hnd. rewrite (Hks k1 ltac:(left)), (Hks k2 ltac:(right; left)). left.
Defined.

Lemma evict_to_correct_witness :
  exists db', evict_to 0 5 sample_db = (inr 1, db') /\ db_ok db' ∅ [].
Proof.
  destruct sample_db_ok as [Hok Hl].
  destruct (wp_returns _ _ _ _ (evict_to_correct 0 5 sample_db _ sample_keyspace [key_k] Hok Hl
    ltac:(lia) ltac:(lia) ltac:(vm_compute; reflexivity))) as (r & db' & E & Hr & ks & R' & (Hok' & _) & HR & Hn & _);
    [eexists; vm_compute; reflexivity|].
  change (Z.min 5 _) with 1 in Hr, Hn. subst r. exists db'. split; [exact E|].
  destruct ks as [|k1 [|k2 ks]]; [discriminate| |rewrite !len_cons in Hn; pose proof (len_nonneg ks); lia].
  unfold evicted_from in HR. change (reverse [k1]) with [k1] in HR.
  destruct R' as [|r1 [|]]; [|discriminate..]. injection HR as <-. exact Hok'.
Defined.
