(* ===== verification/Lists.v ===== *)
(** * Lists: the commands on lists

    [list_reserve], [list_push], [push_texts], [list_pop] and [list_length]
    of [src/database.cpp].  A list is a run of packed elements somewhere in
    the node's body; the run moves and the block grows to make room at either
    end, and shrinks when most of it is unused.  The commands are shown to be
    the operations of their names on the abstract list. *)

From S2P Require Import Prelude Charconv Errors Effects Pack WalCodec Wal Allocator Slab Lru Expiry Buckets Node Store Keyspace StoreSpec Contents Edits Writing Sample Strings.

Section ops.

Context {A : Type} `{NodeAllocator A} `{!Platform A}.

(** ** Operations *)

(** [memmove] inside the run. *)
Definition move_run (dst src size : Z) (n : Node) : Node :=
  write_run dst (read_at (sizeof_ListBody + src) size (node_body n)) n.

(** Where the run goes so that there is room on both sides. *)
Definition new_list_head (new_capacity used extra_front extra_back : Z) : Z :=
  let lowest := extra_front in
  let highest := u32 (u32 (new_capacity - used) - extra_back) in
  let new_head := u32 (new_capacity - used) / 2 in
  let new_head := if new_head <? lowest then lowest else new_head in
  if highest <? new_head then highest else new_head.

Definition relocate (new_head used : Z) (n : Node) : Node :=
  set_list_head new_head
    (if negb (new_head =? list_head n) && negb (used =? 0) then move_run new_head (list_head n) used n else n).

Definition list_reserve (node extra_front extra_back : Z) : M (Database A) Z :=
  let! db := Effects.get in
  let n := node_at db node in
  let capacity := list_run_capacity n in
  let front_fits := extra_front <=? list_head n in
  let back_fits := u32 (u32 (list_head n + list_used n) + extra_back) <=? capacity in
  if front_fits && back_fits then ret node else
  let required := u32 (u32 (list_used n + extra_front) + extra_back) in
  let new_capacity := if required <=? capacity then capacity else grown_capacity required capacity in
  let used := list_used n in
  let! node := (if capacity <? new_capacity then grow_node node (u32 (sizeof_ListBody + new_capacity)) else ret node) in
  do! modify (change_node node (relocate (new_list_head new_capacity used extra_front extra_back) used)) in
  ret node.

(** The arguments of a record for a value. *)
Definition kind_arg (v : ElementInput) : bytes := if is_integer v then of_str "i" else of_str "s".
Definition text_arg (v : ElementInput) : bytes := if is_integer v then to_string (integer v) else text v.

Definition push_op (front : bool) : WalOp := if front then op_push_left else op_push_right.

(** Room for the element, and its record. *)
Definition push_prepare (key : bytes) (value : ElementInput) (front : bool) (encoded node : Z) : M (Database A) (bool * Z) :=
  let! db := Effects.get in
  let use_front := front && negb (count (node_at db node) =? 0) in
  let! node := list_reserve node (if use_front then encoded else 0) (if use_front then 0 else encoded) in
  do! log (push_op front) [key; kind_arg value; text_arg value] in
  ret (use_front, node).

Definition push_element (use_front : bool) (value : ElementInput) (encoded : Z) (n : Node) : Node :=
  let n :=
    if use_front then
      let head := u32 (list_head n - encoded) in write_run head (write_element value true) (set_list_head head n)
    else write_run (list_head n + list_used n) (write_element value true) n in
  let n := set_list_used (u32 (list_used n + encoded)) n in
  set_count (u32 (count n + 1)) n.

Definition empty_list (n : Node) : Node := set_list_used 0 (set_list_head 0 n).

Definition list_push (key : bytes) (value : ElementInput) (front : bool) : M (Database A) (Result Z) :=
  let encoded := u32 (input_size value true) in
  let! node := find_writable key in
  let! db := Effects.get in
  let n := node_at db node in
  if nonnull node && negb (bool_decide (node_type n = type_list)) then ret (Unexpected wrong_type) else
  if nonnull node && (64 * 1024 * 1024 <? list_used n + encoded) then ret (Unexpected request_too_large) else
  if 64 * 1024 * 1024 <? input_size value true then ret (Unexpected request_too_large) else
  let! (use_front, node) :=
    (if node =? 0 then
       do! maybe_rehash in
       build key 0 type_list (u32 (sizeof_ListBody + encoded)) empty_list true (push_prepare key value front encoded)
     else push_prepare key value front encoded node) in
  do! modify (change_node node (push_element use_front value encoded)) in
  do! modify (touch node) in
  do! modify bump_sequence in
  let! db := Effects.get in
  ret (Ok (count (node_at db node))).

Definition push_left (key : bytes) (value : Value) : M (Database A) (Result Z) := list_push key (input_from value) true.
Definition push_right (key : bytes) (value : Value) : M (Database A) (Result Z) := list_push key (input_from value) false.
Definition push_left_text (key value : bytes) : M (Database A) (Result Z) := list_push key (text_input value) true.
Definition push_right_text (key value : bytes) : M (Database A) (Result Z) := list_push key (text_input value) false.

(** The bytes of all elements and the largest one; [None] is too large. *)
Fixpoint push_sizes (values : list bytes) (total largest : Z) : option (Z * Z) :=
  match values with
  | [] => Some (total, largest)
  | value :: values =>
      if 64 * 1024 * 1024 <? len value then None else
      let total := total + encoded_size_text value in
      let largest := Z.max largest (len value) in
      if 64 * 1024 * 1024 <? total then None else push_sizes values total largest
  end.

(** The run of the new list: the values, and what the old one holds. *)
Definition joined_run (values : list bytes) (front : bool) (old : option Node) : bytes :=
  let own o := read_at (sizeof_ListBody + list_head o) (list_used o) (node_body o) in
  (if front then concat (map encode_text (reverse values)) else []) ++ from_option own [] old ++
  (if front then [] else concat (map encode_text values)).

Definition fill_list (total total_count : Z) (run : bytes) (n : Node) : Node :=
  write_run 0 run (set_count total_count (set_list_used (u32 total) (set_list_head 0 n))).

Definition push_texts (key : bytes) (values : list bytes) (front : bool) : M (Database A) (Result Z) :=
  let! old := find_writable key in
  let! db := Effects.get in
  let o := if old =? 0 then None else Some (node_at db old) in
  if from_option (fun n => negb (bool_decide (node_type n = type_list))) false o then ret (Unexpected wrong_type) else
  if bool_decide (values = []) then ret (Ok (from_option count 0 o)) else
  match push_sizes values (from_option list_used 0 o) 0 with
  | None => ret (Unexpected request_too_large)
  | Some (total, largest) =>
      do! when (old =? 0) maybe_rehash in
      let total_count := u32 (from_option count 0 o + len values) in
      do! build key old type_list (u32 (sizeof_ListBody + total))
            (fill_list total total_count (joined_run values front o)) true
            (fun _ =>
               do! reserve_log (len key + largest + 64) in
               for_each values (fun value => log (push_op front) [key; of_str "s"; value])) in
      ret (Ok total_count)
  end.

(** The element at either end of the run and its size. *)
Definition end_element (front : bool) (n : Node) : Value * Z :=
  let read p := from_option element_to_value (VString []) (decode p) in
  if front then
    let element := drop (Z.to_nat (list_head n)) (list_run n) in
    (read element, u32 (default 0 (stride element)))
  else
    let fin := list_head n + list_used n in
    let payload := default 0 (decode_backlen (take (Z.to_nat fin) (list_run n))) in
    let full := payload + backlen_bytes payload in
    (read (drop (Z.to_nat (fin - full)) (list_run n)), u32 full).

Definition pop_element (front : bool) (removed : Z) (n : Node) : Node :=
  let n := if front then set_list_head (u32 (list_head n + removed)) n else n in
  let n := set_list_used (u32 (list_used n - removed)) n in
  set_count (u32 (count n - 1)) n.

Definition list_shrinks (n : Node) : bool :=
  (largest_class <? list_run_capacity n) && (list_used n <? list_run_capacity n / 4).

(** The run to the front of the block, as far as there is one. *)
Definition pull_run (n : Node) : Node :=
  set_list_head 0 (if list_used n =? 0 then n else move_run 0 (list_head n) (list_used n) n).

Definition list_pop (key : bytes) (front : bool) : M (Database A) (Result (option Value)) :=
  let! node := find_writable key in
  if node =? 0 then ret (Ok None) else
  let! db := Effects.get in
  let n := node_at db node in
  if negb (bool_decide (node_type n = type_list)) then ret (Unexpected wrong_type) else
  if count n =? 0 then ret (Ok None) else
  let '(result, removed) := end_element front n in
  do! log (if front then op_pop_left else op_pop_right) [key] in
  do! modify (change_node node (pop_element front removed)) in
  do! modify bump_sequence in
  let! db := Effects.get in
  let n := node_at db node in
  do! (if count n =? 0 then modify (erase_node node)
       else if list_shrinks n then
         do! modify (change_node node pull_run) in
         try_catch (let! _ := grow_node node (u32 (sizeof_ListBody + Z.max (list_used n) 32)) in ret tt)
           (fun e => if bool_decide (e = exn_bad_alloc) then ret tt else throw e)
       else ret tt) in
  ret (Ok (Some result)).

Definition pop_left (key : bytes) : M (Database A) (Result (option Value)) := list_pop key true.
Definition pop_right (key : bytes) : M (Database A) (Result (option Value)) := list_pop key false.

Definition list_length (key : bytes) : M (Database A) (Result Z) :=
  let! node := find_active key in
  if node =? 0 then ret (Ok 0) else
  let! db := Effects.get in
  let n := node_at db node in
  if negb (bool_decide (node_type n = type_list)) then ret (Unexpected wrong_type) else
  ret (Ok (count n)).

(** ** Nodes *)

Definition safe_edit (n n' : Node) : Prop :=
  node_wf n' /\ same_face n n' /\ has_flag flag_has_ttl n' = has_flag flag_has_ttl n.

Lemma edited_safe n n' b c t : edited n n' b c t -> node_type n = type_list -> t = type_list -> safe_edit n n'.
Proof.
  intros He Et ->. eapply edited_face; [exact He| |by left]. apply plain_table. congruence.
Qed.

Lemma input_value_write v b : write_element (input_from (input_value v)) b = write_element v b.
Proof. by destruct v as [[] ? ?]. Qed.

Lemma push_front_holds T n l h u v encoded :
  node_wf n -> list_node n l h u -> encodable (input_value v) -> encoded = len (write_element v true) ->
  encoded <= h -> u + encoded <= list_limit ->
  safe_edit n (push_element true v encoded n) /\ holds T (push_element true v encoded n) (DList (input_value v :: l)).
Proof.
  intros Hw [Hwd Hlen Hb Hh0 Hu Hlim Hroom Hrun Hcnt Hval Et] Hv Henc Hfit Hmax. unfold body_limit, list_limit in *.
  pose proof (len_nonneg (write_element v true)) as He0. pose proof (len_nonneg (encode_run l)) as Hl0.
  pose proof (len_encode_run l Hval) as Hcount. pose proof (len_nonneg l). set (d := write_element v true) in *.
  pose proof (edited_refl n Hw) as He. rewrite Et in He. pose proof (edited_words _ _ _ _ _ _ _ He Hwd) as [Eh Eu].
  unfold push_element. rewrite Eh. fold d. rewrite (u32_small (h - encoded)) by lia.
  apply (edited_head _ _ _ _ _ (h - encoded)) in He; [|lia]. apply (words_head _ _ _ (h - encoded)) in Hwd; [|lia|lia].
  set (b1 := write_at 0 (le_bytes 4 (h - encoded)) (node_body n)) in *.
  assert (len b1 = node_body_capacity n) as El1 by (unfold b1; rewrite len_write_at; rewrite ?len_word; lia).
  apply (edited_run _ _ _ _ _ (h - encoded) d) in He; [|lia|lia]. apply (words_run _ _ _ (8 + (h - encoded)) d) in Hwd; [|lia|lia].
  set (b2 := write_at (8 + (h - encoded)) d b1) in *.
  assert (len b2 = node_body_capacity n) as El2 by (unfold b2; rewrite len_write_at; lia).
  destruct (edited_words _ _ _ _ _ _ _ He Hwd) as [_ Eu2]. rewrite Eu2, (u32_small (u + encoded)) by lia.
  apply (edited_used _ _ _ _ _ (u + encoded)) in He; [|lia]. apply (words_used _ _ _ (u + encoded)) in Hwd; [|lia|lia].
  set (b3 := write_at 4 (le_bytes 4 (u + encoded)) b2) in *.
  rewrite (ed_count _ _ _ _ _ He), Hcnt, (u32_small (len l + 1)) by lia.
  apply (edited_count _ _ _ _ _ (len l + 1)) in He; [|lia].
  split; [by eapply edited_safe|].
  eapply (list_node_holds T n _ b3 _ (h - encoded) (u + encoded)); [ |exact Hb| |exact Hwd|lia| |exact Hmax|lia| |].
  - rewrite len_cons, (Z.add_comm 1 (len l)). exact He.
  - unfold b3. rewrite len_write_at; rewrite ?len_word; lia.
  - rewrite encode_run_cons, input_value_write, len_app. fold d. lia.
  - unfold b3. rewrite run_word by lia. rewrite encode_run_cons, input_value_write. fold d.
    rewrite (Z.add_comm u), read_at_app by lia. f_equal.
    + unfold b2. rewrite Henc. apply read_write_same; lia.
    + replace (8 + (h - encoded) + encoded) with (8 + h) by lia. unfold b2. rewrite read_write_other by lia.
      unfold b1. rewrite run_word by lia. exact Hrun.
  - by constructor.
Qed.

Lemma push_back_holds T n l h u v encoded :
  node_wf n -> list_node n l h u -> encodable (input_value v) -> encoded = len (write_element v true) ->
  8 + h + u + encoded <= node_body_capacity n -> u + encoded <= list_limit ->
  safe_edit n (push_element false v encoded n) /\ holds T (push_element false v encoded n) (DList (l ++ [input_value v])).
Proof.
  intros Hw [Hwd Hlen Hb Hh0 Hu Hlim Hroom Hrun Hcnt Hval Et] Hv Henc Hfit Hmax. unfold body_limit, list_limit in *.
  pose proof (len_nonneg (write_element v true)) as He0. pose proof (len_nonneg (encode_run l)) as Hl0.
  pose proof (len_encode_run l Hval) as Hcount. pose proof (len_nonneg l). set (d := write_element v true) in *.
  pose proof (edited_refl n Hw) as He. rewrite Et in He. pose proof (edited_words _ _ _ _ _ _ _ He Hwd) as [Eh Eu].
  unfold push_element. rewrite Eh, Eu. fold d.
  apply (edited_run _ _ _ _ _ (h + u) d) in He; [|lia|lia]. apply (words_run _ _ _ (8 + (h + u)) d) in Hwd; [|lia|lia].
  set (b2 := write_at (8 + (h + u)) d (node_body n)) in *.
  assert (len b2 = node_body_capacity n) as El2 by (unfold b2; rewrite len_write_at; lia).
  destruct (edited_words _ _ _ _ _ _ _ He Hwd) as [_ Eu2]. rewrite Eu2, (u32_small (u + encoded)) by lia.
  apply (edited_used _ _ _ _ _ (u + encoded)) in He; [|lia]. apply (words_used _ _ _ (u + encoded)) in Hwd; [|lia|lia].
  set (b3 := write_at 4 (le_bytes 4 (u + encoded)) b2) in *.
  rewrite (ed_count _ _ _ _ _ He), Hcnt, (u32_small (len l + 1)) by lia.
  apply (edited_count _ _ _ _ _ (len l + 1)) in He; [|lia].
  split; [by eapply edited_safe|].
  assert (encode_run (l ++ [input_value v]) = encode_run l ++ d) as Erun.
  { rewrite encode_run_app, encode_run_cons, input_value_write. fold d. unfold encode_run at 2. cbn. by rewrite app_nil_r. }
  eapply (list_node_holds T n _ b3 _ h (u + encoded)); [ |exact Hb| |exact Hwd|lia| |exact Hmax|lia| |].
  - rewrite len_app. exact He.
  - unfold b3. rewrite len_write_at; rewrite ?len_word; lia.
  - rewrite Erun, len_app. lia.
  - unfold b3. rewrite run_word by lia. rewrite Erun, read_at_app by lia. f_equal.
    + unfold b2. rewrite read_write_other by lia. exact Hrun.
    + unfold b2. replace (8 + h + u) with (8 + (h + u)) by lia. rewrite Henc. apply read_write_same; lia.
  - apply Forall_app. split; [done|]. by apply Forall_singleton.
Qed.

(** Moving the run inside the body. *)
Lemma place_run T n l h u h' n1 :
  node_wf n -> list_node n l h u -> 0 <= h' -> 8 + h' + u <= node_body_capacity n ->
  n1 = n /\ (h' = h \/ u = 0) \/ n1 = move_run h' h u n ->
  safe_edit n (set_list_head h' n1) /\ holds T (set_list_head h' n1) (DList l) /\ list_head (set_list_head h' n1) = h' /\
  node_body_capacity (set_list_head h' n1) = node_body_capacity n.
Proof.
  intros Hw [Hwd Hlen Hb Hh0 Hu Hlim Hroom Hrun Hcnt Hval Et] Hh' Hfit Hn1. unfold body_limit, list_limit in *.
  pose proof (len_nonneg (encode_run l)) as Hl0. pose proof (edited_refl n Hw) as He. rewrite Et, Hcnt in He.
  assert (exists b1, edited n n1 b1 (len l) type_list /\ words b1 h u /\ len b1 = node_body_capacity n /\
    read_at (8 + h') u b1 = encode_run l) as (b1 & He1 & Hwd1 & El1 & Hrun1).
  { destruct Hn1 as [[-> [-> | Hz]] | ->].
    - by exists (node_body n).
    - exists (node_body n). conjuncts. rewrite Hz in *. rewrite read_at_0. rewrite read_at_0 in Hrun. exact Hrun.
    - unfold move_run, sizeof_ListBody. rewrite Hrun. eexists. split; [apply edited_run; [exact He|lia|lia]|].
      split; [apply words_run; [exact Hwd|lia|lia]|]. split; [rewrite len_write_at; lia|].
      rewrite Hu. apply read_write_same; lia. }
  clear Hn1. apply (edited_head _ _ _ _ _ h') in He1; [|lia]. apply (words_head _ _ _ h') in Hwd1; [|lia|lia].
  split; [by eapply edited_safe|]. split; [|split; [by eapply edited_words|by eapply ed_capacity]].
  eapply (list_node_holds T n _ _ l h' u); [exact He1|exact Hb| |exact Hwd1|lia|exact Hu|exact Hlim|lia| |exact Hval].
  - rewrite len_write_at; rewrite ?len_word; lia.
  - rewrite run_word by lia. exact Hrun1.
Qed.

Lemma relocate_list T n l h u h' :
  node_wf n -> list_node n l h u -> 0 <= h' -> 8 + h' + u <= node_body_capacity n ->
  safe_edit n (relocate h' u n) /\ holds T (relocate h' u n) (DList l) /\ list_head (relocate h' u n) = h' /\
  node_body_capacity (relocate h' u n) = node_body_capacity n.
Proof.
  intros Hw Hn Hh' Hfit. unfold relocate. destruct (ln_words _ _ _ _ Hn) as [Eh _]. fold (list_head n) in Eh. rewrite Eh.
  eapply place_run; [exact Hw|exact Hn|exact Hh'|exact Hfit|].
  destruct (Z.eqb_spec h' h); cbn [negb andb]; [left; auto|]. destruct (Z.eqb_spec u 0); cbn [negb]; [left; auto|by right].
Qed.

Lemma pull_list T n l h u :
  node_wf n -> list_node n l h u ->
  safe_edit n (pull_run n) /\ holds T (pull_run n) (DList l) /\ list_head (pull_run n) = 0 /\
  node_body_capacity (pull_run n) = node_body_capacity n.
Proof.
  intros Hw Hn. unfold pull_run. destruct (ln_words _ _ _ _ Hn) as [Eh Eu]. fold (list_head n) in Eh. fold (list_used n) in Eu.
  rewrite Eh, Eu. pose proof (ln_head _ _ _ _ Hn). pose proof (ln_room _ _ _ _ Hn).
  eapply place_run; [exact Hw|exact Hn|lia|lia|]. destruct (Z.eqb_spec u 0); [left; auto|by right].
Qed.

(** ** Making room *)

Lemma new_list_head_bounds nc u ef eb :
  0 <= u -> 0 <= ef -> 0 <= eb -> u + ef + eb <= nc < 2 ^ 32 ->
  let h := new_list_head nc u ef eb in ef <= h /\ h + u + eb <= nc.
Proof.
  intros Hu Hef Heb Hnc. unfold new_list_head. rewrite !(u32_small (nc - u)), (u32_small (nc - u - eb)) by lia.
  pose proof (Z.div_pos (nc - u) 2 ltac:(lia) ltac:(lia)). zcases; lia.
Qed.

Lemma grown_capacity_spec required current :
  0 <= current < required -> required <= body_limit -> 
  required <= grown_capacity required current <= Z.max (Z.max required 32) (current * 2).
Proof.
  intros Hc Hr. unfold body_limit in *. unfold grown_capacity. rewrite (u32_small (current * 2)) by lia. zcases; lia.
Qed.

Lemma reserve_fits_wp (db : Database A) a n h u ef eb l (Q : Z -> Database A -> Prop) E :
  heap_ db !! a = Some n -> list_node n l h u -> 0 <= eb -> eb <= list_limit -> ef <= h ->
  8 + h + u + eb <= node_body_capacity n -> Q a db -> wp (list_reserve a ef eb) Q E db.
Proof.
  intros Ea [Hwd Hlen Hb Hh0 Hu Hlim Hroom Hrun Hcnt Hval Et] Heb Hebl Hef Hfit HQ. unfold body_limit, list_limit in *.
  pose proof (len_nonneg (encode_run l)). unfold list_reserve. wp_steps. rewrite (node_at_lookup _ _ _ Ea).
  destruct Hwd as [E1 E2]. unfold list_head, list_used. rewrite E1, E2, run_capacity, !(u32_small (h + u)), !(u32_small (h + u + eb)) by lia.
  destruct (Z.leb_spec ef h); [|lia]. destruct (Z.leb_spec (h + u + eb) (node_body_capacity n - 8)); [|lia]. cbn [andb].
  wp_steps. exact HQ.
Qed.

Lemma reached_reserve_wp (db0 db : Database A) rs idx order K R key a n l d h u ef eb Q E :
  reached db0 rs idx order K R db -> idx !! key = Some a -> heap_ db !! a = Some n -> K !! key = Some (DList l, d) ->
  list_node n l h u -> 0 <= ef -> 0 <= eb -> u + ef + eb <= list_limit ->
  (forall p m idx' order' h' db', reached db0 rs idx' order' K R db' -> idx' !! key = Some p -> heap_ db' !! p = Some m ->
     node_wf m -> list_node m l h' u -> ef <= h' -> 8 + h' + u + eb <= node_body_capacity m -> Q p db') ->
  (forall e db', (forall c, halted c db0 rs K db') -> E e db') ->
  wp (list_reserve a ef eb) Q E db.
Proof.
  intros Hr Hi Ea Ek Hn Hef Heb Hmax HQ HE.
  destruct (reached_node _ _ _ _ _ _ _ _ _ Hr Hi) as (n' & e & En & Ek' & Hw & _ & _ & Hv).
  assert (n' = n) as -> by congruence. assert (e = (DList l, d)) as -> by congruence. cbn [fst] in Hv.
  assert (0 <= u <= list_limit /\ 0 <= h) as [Hu0 Hh0].
  { destruct Hn as [_ _ _ Hh0 -> Hlim _ _ _ _ _]. pose proof (len_nonneg (encode_run l)). lia. }
  pose proof (ln_bounds _ _ _ _ Hn) as Hb. pose proof (ln_type _ _ _ _ Hn) as Et. pose proof (ln_room _ _ _ _ Hn) as Hroom.
  destruct (decide (ef <= h /\ 8 + h + u + eb <= node_body_capacity n)) as [[Hf1 Hf2]|Hnofit].
  { eapply reserve_fits_wp; [exact Ea|exact Hn|lia|lia|lia|lia|]. by eapply HQ. }
  unfold list_reserve. wp_steps. rewrite (node_at_lookup _ _ _ Ea). destruct (ln_words _ _ _ _ Hn) as [Eh Eu].
  fold (list_head n) in Eh. fold (list_used n) in Eu. rewrite Eh, Eu, run_capacity by lia. unfold body_limit, list_limit in *.
  rewrite !(u32_small (h + u)), !(u32_small (h + u + eb)), !(u32_small (u + ef)), !(u32_small (u + ef + eb)) by lia.
  destruct (_ && _) eqn:Efit.
  { apply andb_true_iff in Efit as [F1 F2]. apply Z.leb_le in F1, F2. lia. }
  clear Efit. set (cap := node_body_capacity n - 8) in *. set (nc := if _ <=? cap then cap else _).
  assert (u + ef + eb <= nc /\ cap <= nc /\ nc + 8 <= 2 ^ 28) as (Hnc1 & Hnc2 & Hnc3).
  { unfold nc. destruct (Z.leb_spec (u + ef + eb) cap) as [|Hlt]; [lia|].
    pose proof (grown_capacity_spec (u + ef + eb) cap ltac:(lia) ltac:(unfold body_limit; lia)). lia. }
  destruct (new_list_head_bounds nc u ef eb ltac:(lia) Hef Heb ltac:(lia)) as [Hh1 Hh2]. cbv zeta.
  set (h' := new_list_head nc u ef eb) in *.
  assert (forall p m idx' order' db', reached db0 rs idx' order' K R db' -> idx' !! key = Some p ->
    heap_ db' !! p = Some m -> nc + 8 <= node_body_capacity m -> Q p (change_node p (relocate h' u) db')) as Hfinish.
  { intros p m idx' order' db' Hr' Hi' Ep Hcm.
    destruct (reached_node _ _ _ _ _ _ _ _ _ Hr' Hi') as (m' & e & Em & Ek2 & Hwm & _ & _ & Hvm).
    assert (m' = m) as -> by congruence. assert (e = (DList l, d)) as -> by congruence. cbn [fst] in Hvm.
    pose proof (list_node_of _ _ _ Hwm Hvm) as Hnm. pose proof (ln_used _ _ _ _ Hnm) as Eum.
    rewrite <- (ln_used _ _ _ _ Hn) in Eum. rewrite Eum in Hnm.
    destruct (relocate_list (tables_ db') m l _ u h' Hwm Hnm ltac:(lia) ltac:(lia)) as (Hs & Hh & Ehd & Ecap).
    pose proof (reached_change _ _ _ _ _ _ _ _ _ m _ (relocate h' u) _ Hr' Hi' Ep Ek Hs Hh) as Hr2. cbn [snd] in Hr2.
    rewrite insert_id in Hr2 by exact Ek.
    assert (list_node (relocate h' u m) l h' u) as Hn2.
    { pose proof (list_node_of _ _ _ (proj1 Hs) Hh) as Hx. pose proof (ln_used _ _ _ _ Hx) as Eux.
      rewrite <- (ln_used _ _ _ _ Hn) in Eux. by rewrite Eux, Ehd in Hx. }
    eapply (HQ p (relocate h' u m) idx' order' h'); [exact Hr2|exact Hi'| |exact (proj1 Hs)|exact Hn2|exact Hh1|].
    - unfold change_node. cbn [heap_ put_heap]. by rewrite lookup_alter_eq, Ep.
    - lia. }
  destruct (Z.ltb_spec cap nc) as [Hg|Hg].
  - wp_steps. unfold sizeof_ListBody. rewrite (u32_small (8 + nc)) by lia.
    eapply reached_grow_wp; [exact Hr|exact Hi|exact Ea|apply plain_table; congruence|unfold body_limit; lia| |exact HE].
    intros p m db' Hr' Ep Hgr _. wp_steps. eapply Hfinish; [exact Hr'|apply lookup_insert_eq|exact Ep|].
    destruct Hgr as (_ & _ & _ & _ & _ & Hcm & _). lia.
  - wp_steps. eapply Hfinish; [exact Hr|exact Hi|exact Ea|]. lia.
Qed.

(** ** Pushing one element *)

Definition pushed (front : bool) (v : Value) (l : list Value) : list Value := if front then v :: l else l ++ [v].

Definition push_record (key : bytes) (front : bool) (v : ElementInput) : WalOp * list bytes :=
  (push_op front, [key; kind_arg v; text_arg v]).

(** The integers of the program have 64 bits. *)
Definition typed_input (v : ElementInput) : Prop := is_integer v = true -> is_int64 (integer v).

Lemma input_size_text v : is_integer v = false -> len (text v) <= input_size v true.
Proof.
  intros E. unfold input_size. rewrite E. unfold encoded_size_text, max_string_header, backlen_bytes.
  zcases; lia.
Qed.

Lemma small_encodable v : typed_input v -> input_size v true <= list_limit ->
  encodable (input_value v) /\ len (write_element v true) = input_size v true.
Proof.
  intros Ht Hs. assert (encodable (input_value v)) as Hv.
  { unfold input_value, typed_input in *. destruct (is_integer v) eqn:E; cbn; [by apply Ht|].
    pose proof (input_size_text v E). unfold list_limit, uint32_max in *. lia. }
  split; [exact Hv|]. by destruct (element_full v [] Hv) as (_ & _ & ?).
Qed.

(** A list node with room for an element at the end that is used. *)
Definition has_room (use_front : bool) (encoded : Z) (m : Node) (h u : Z) : Prop :=
  if use_front then encoded <= h else 8 + h + u + encoded <= node_body_capacity m.

Lemma reached_prepare_wp (db0 db : Database A) rs idx order K R key a n l d h u value front encoded Q E :
  reached db0 rs idx order K R db -> idx !! key = Some a -> heap_ db !! a = Some n -> K !! key = Some (DList l, d) ->
  list_node n l h u -> 0 <= encoded -> u + encoded <= list_limit ->
  let use_front := front && negb (len l =? 0) in
  (forall p m idx' order' h' db', reached db0 (rs ++ recs db0 [push_record key front value]) idx' order' K R db' ->
     idx' !! key = Some p -> heap_ db' !! p = Some m -> node_wf m -> list_node m l h' u -> has_room use_front encoded m h' u ->
     Q (use_front, p) db') ->
  (forall e db', halted (recs db0 [push_record key front value]) db0 rs K db' -> E e db') ->
  wp (push_prepare key value front encoded a) Q E db.
Proof.
  intros Hr Hi Ea Ek Hn He0 Hmax use_front HQ HE. unfold push_prepare. wp_steps.
  rewrite (node_at_lookup _ _ _ Ea), (ln_count _ _ _ _ Hn). fold use_front.
  eapply reached_reserve_wp; [exact Hr|exact Hi|exact Ea|exact Ek|exact Hn|by destruct use_front; lia|by destruct use_front; lia
    |by destruct use_front; lia| |intros e db' Hh; by apply HE].
  intros p m idx' order' h' db1 Hr1 Hi1 Ep Hw Hnm Hef Heb. wp_steps.
  eapply reached_log_wp; [exact Hr1|by destruct front| |exact HE]. intros db2 Hr2 Eh2 _. wp_steps.
  eapply HQ; [exact Hr2|exact Hi1|by rewrite Eh2|exact Hw|exact Hnm|]. unfold has_room. destruct use_front; lia.
Qed.

(** The element goes in. *)
Lemma push_finish_wp (db0 db : Database A) rs idx order K R key p m l d h u value front use_front encoded Q E :
  reached db0 rs idx order K R db -> idx !! key = Some p -> heap_ db !! p = Some m -> K !! key = Some (DList l, d) ->
  node_wf m -> list_node m l h u -> encodable (input_value value) -> encoded = len (write_element value true) ->
  u + encoded <= list_limit -> use_front = front && negb (len l =? 0) -> has_room use_front encoded m h u ->
  (forall idx' order' db', reached db0 rs idx' order' (<[key := (DList (pushed front (input_value value) l), d)]> K)
     (key :: others key R) db' -> Q (Ok (len l + 1)) db') ->
  wp (do! modify (change_node p (push_element use_front value encoded)) in
      do! modify (touch p) in
      do! modify bump_sequence in
      let! db := Effects.get in
      ret (Ok (count (node_at db p)))) Q E db.
Proof.
  intros Hr Hi Ep Ek Hw Hn Hv Henc Hmax Huse Hroom HQ. wp_steps.
  assert (safe_edit m (push_element use_front value encoded m) /\
    holds (tables_ db) (push_element use_front value encoded m) (DList (pushed front (input_value value) l))) as [Hs Hh].
  { unfold has_room in Hroom. subst use_front. destruct front; cbn [andb] in *.
    - destruct (Z.eqb_spec (len l) 0) as [Hz|Hz]; cbn [negb] in *; [|by eapply push_front_holds].
      assert (l = []) as -> by (destruct l; [done|]; rewrite len_cons in Hz; pose proof (len_nonneg l); lia).
      by apply (push_back_holds _ m [] h u).
    - by eapply push_back_holds. }
  pose proof (reached_change _ _ _ _ _ _ _ _ _ m _ _ _ Hr Hi Ep Ek Hs Hh) as Hr1. cbn [snd] in Hr1.
  pose proof (reached_touch _ _ _ _ _ _ _ _ _ Hr1 Hi) as Hr2. apply reached_bump in Hr2.
  assert (heap_ (change_node p (push_element use_front value encoded) db) !! p = Some (push_element use_front value encoded m)) as Ep2.
  { unfold change_node. cbn [heap_ put_heap]. by rewrite lookup_alter_eq, Ep. }
  change (heap_ (bump_sequence (touch p (change_node p (push_element use_front value encoded) db))) !! p =
    Some (push_element use_front value encoded m)) in Ep2.
  rewrite (node_at_lookup _ _ _ Ep2).
  assert (count (push_element use_front value encoded m) = len l + 1) as ->.
  { destruct Hh as (_ & [_ _ _ _ -> _]). unfold pushed. destruct front; [rewrite len_cons; lia|by rewrite len_app]. }
  by eapply HQ.
Qed.

(** A new list. *)
Lemma list_node_remarked n m l h u : remarked n m -> list_node n l h u -> list_node m l h u.
Proof.
  intros (_ & Hs & _ & Et & Ec) [H1 H2 H3 H4 H5 H6 H7 H8 H9 H10 H11].
  destruct (same_shape_views _ _ Hs) as (_ & Eb & _ & Ecap).
  constructor; rewrite ?Eb, ?Ecap, ?Ec, ?Et; assumption.
Qed.

Lemma empty_list_node key cap n T :
  new_node n key type_list cap -> 8 <= cap <= body_limit ->
  safe_edit n (empty_list n) /\ holds T (empty_list n) (DList []) /\
  list_node (empty_list n) [] 0 0 /\ cap <= node_body_capacity (empty_list n).
Proof.
  intros (Hw & _ & Et & _ & Ec & Hcap) Hc. pose proof class_below_limit. unfold body_limit in *.
  destruct (capacity_eq n Hw) as [Elen _]. pose proof (edited_refl n Hw) as He. rewrite Et, Ec in He.
  pose proof (words_of n) as Hwd. unfold empty_list.
  apply (edited_head _ _ _ _ _ 0) in He; [|lia]. apply (words_head _ _ _ 0) in Hwd; [|lia|lia].
  set (b1 := write_at 0 (le_bytes 4 0) (node_body n)) in *.
  assert (len b1 = node_body_capacity n) as El1 by (unfold b1; rewrite len_write_at; rewrite ?len_word; lia).
  apply (edited_used _ _ _ _ _ 0) in He; [|lia]. apply (words_used _ _ _ 0) in Hwd; [|lia|lia].
  set (b2 := write_at 4 (le_bytes 4 0) b1) in *.
  assert (len b2 = node_body_capacity n) as El2 by (unfold b2; rewrite len_write_at; rewrite ?len_word; lia).
  assert (holds T (set_list_used 0 (set_list_head 0 n)) (DList [])) as Hh.
  { eapply (list_node_holds T n _ b2 [] 0 0); [exact He|unfold body_limit; lia|exact El2|exact Hwd|lia|done|done|lia|done|by constructor]. }
  split; [by eapply edited_safe|]. split; [exact Hh|]. destruct (edited_words _ _ _ _ _ _ _ He Hwd) as [E1 E2].
  split; [|rewrite (ed_capacity _ _ _ _ _ He); lia]. pose proof (list_node_of _ _ _ (ed_wf _ _ _ _ _ He) Hh) as Hln.
  by rewrite E1, E2 in Hln.
Qed.

(** The node of a new list while its first record is written. *)
Definition new_list_node (encoded : Z) (n : Node) : Prop := list_node n [] 0 0 /\ 8 + encoded <= node_body_capacity n.

Lemma prepare_records (db0 : Database A) rs key value front encoded :
  0 <= encoded <= list_limit ->
  records_ok db0 rs (recs db0 [push_record key front value]) (new_list_node encoded) (push_prepare key value front encoded)
    (fun p _ r => r = (false, p)).
Proof.
  intros Henc L db1 idx order K p n HP [Hn Hcap] Hl Haf. unfold push_prepare. wp_steps.
  rewrite (node_at_lookup _ _ _ (pd_node _ _ _ _ _ _ _ HP)), (ln_count _ _ _ _ Hn).
  change (len [] =? 0) with true. cbn [negb]. rewrite andb_false_r.
  eapply reserve_fits_wp; [exact (pd_node _ _ _ _ _ _ _ HP)|exact Hn|lia|lia|lia|lia|]. wp_steps.
  eapply wp_mono; [eapply (log_records db0 rs (push_op front) _ (fun _ => True)); [by destruct front|exact HP|exact I|exact Hl|exact Haf]|..].
  - intros [] db2 ((HP2 & _) & Hrest). wp_steps. split; [split; [exact HP2|reflexivity]|exact Hrest].
  - intros e db2 Hres. exact Hres.
Qed.

Definition push_of (front : bool) (v : ElementInput) (old : option dvalue) : Result (list Value) :=
  match old with
  | None => if list_limit <? input_size v true then Unexpected request_too_large else Ok [input_value v]
  | Some (DList l) =>
      if list_limit <? len (encode_run l) + input_size v true then Unexpected request_too_large
      else Ok (pushed front (input_value v) l)
  | Some _ => Unexpected wrong_type
  end.

Lemma input_size_pos v : 0 < input_size v true.
Proof.
  unfold input_size, encoded_size_text, encoded_size_int, max_string_header, backlen_bytes.
  pose proof (len_nonneg (text v)). destruct (is_integer v); zcases; lia.
Qed.

Lemma list_push_wp (db : Database A) K R rs key value front :
  db_ok db K R -> logged rs db -> typed_input value ->
  wp (list_push key value front)
    (answered db K R rs [push_record key front value] key (push_of front value (fst <$> seen db K key))
       (fun l => (DList l, seen db K key ≫= snd)) len)
    (fun e db' => kept db K rs (if_ok (push_of front value (fst <$> seen db K key)) [push_record key front value]) key db') db.
Proof.
  intros Hok Hl Hty. unfold list_push, answered. wp_steps. eapply lookup_wp; [exact Hok|exact Hl| | |done].
  { intros _ Hh. by apply halted_kept_first. }
  intros a idx order db1 Hk Hr Ha. wp_steps. pose proof (input_size_pos value) as Hpos.
  pose proof (reached_looked _ _ _ _ _ _ _ _ Hr) as Hlooked.
  destruct (idx !! key) as [b|] eqn:Hi; cbn [from_option id] in Ha; subst a.
  - destruct (reached_node _ _ _ _ _ _ _ _ _ Hr Hi) as (n & e & Ea & Ek & Hw & _ & Hb0 & Hv).
    assert (seen db K key = Some e) as Hs by (by rewrite <- purged_seen).
    rewrite (node_at_lookup _ _ _ Ea), (holds_type _ _ _ Hv), Hs. unfold nonnull. destruct (Z.eqb_spec b 0) as [|_]; [done|].
    cbn [negb andb fmap option_fmap option_map mbind option_bind].
    destruct e as [[s|z|l|h] d]; cbn [fst snd push_of] in *;
      [rewrite bool_decide_false by done; wp_steps; by split..| |rewrite bool_decide_false by done; wp_steps; by split].
    rewrite bool_decide_true by done. cbn [negb andb]. pose proof (list_node_of _ _ _ Hw Hv) as Hn.
    pose proof (ln_used _ _ _ _ Hn) as Eu. pose proof (ln_limit _ _ _ _ Hn) as Hlim. pose proof (len_nonneg (encode_run l)).
    destruct (Z.ltb_spec list_limit (input_size value true)) as [Hbig|Hsmall].
    { destruct (Z.ltb_spec list_limit (len (encode_run l) + input_size value true)); [|lia].
      destruct (_ <? _); [wp_steps; by split|]. change (64 * 1024 * 1024) with list_limit.
      destruct (Z.ltb_spec list_limit (input_size value true)); [wp_steps; by split|lia]. }
    rewrite u32_small by (unfold list_limit in *; lia). change (64 * 1024 * 1024) with list_limit. rewrite Eu.
    destruct (Z.ltb_spec list_limit (len (encode_run l) + input_size value true)) as [Hbig|Hfit]; [wp_steps; by split|].
    destruct (Z.ltb_spec list_limit (input_size value true)) as [|_]; [lia|].
    destruct (small_encodable value Hty Hsmall) as [Hval Elen]. wp_steps.
    eapply reached_prepare_wp; [exact Hr|exact Hi|exact Ea|exact Ek|exact Hn|lia|lia| |intros; by apply halted_kept].
    intros p m idx' order' h' db2 Hr2 Hi2 Ep Hwm Hnm Hroom.
    eapply push_finish_wp; [exact Hr2|exact Hi2|exact Ep|exact Ek|exact Hwm|exact Hnm|exact Hval|by symmetry|lia|reflexivity|exact Hroom|].
    intros idx3 order3 db3 Hr3. split; [|by eapply reached_wrote].
    f_equal. unfold pushed. destruct front; [rewrite len_cons; lia|by rewrite len_app].
  - assert (seen db K key = None) as Hs.
    { rewrite <- purged_seen. apply (represents_none _ _ _ _ (rc_rep _ _ _ _ _ _ _ Hr)), Hi. }
    unfold nonnull. rewrite Z.eqb_refl, Hs. cbn [negb andb fmap option_fmap option_map push_of mbind option_bind].
    change (64 * 1024 * 1024) with list_limit.
    destruct (Z.ltb_spec list_limit (input_size value true)) as [Hbig|Hsmall]; [wp_steps; by split|].
    destruct (small_encodable value Hty Hsmall) as [Hval Elen]. unfold sizeof_ListBody.
    rewrite !(u32_small (input_size value true)), (u32_small (8 + input_size value true)) by (unfold list_limit in *; lia). wp_steps.
    eapply (reached_rehash_wp _ _ _ _ _ _ _ true); [exact Hr| |intros; by apply halted_kept]. intros db2 Hr2 _.
    eapply (reached_build_wp db db2 _ _ _ _ _ _ _ _ _ _ _ _ (new_list_node (input_size value true)));
      [exact Hr2|by rewrite Hi|exact Hk|lia|done| |apply prepare_records; lia| | |intros; by apply halted_kept].
    + intros n Hn. destruct (empty_list_node _ _ _ (tables_ db2) Hn ltac:(unfold list_limit, body_limit in *; lia)) as (? & ? & _).
      by split.
    + intros n Hn. destruct (empty_list_node _ _ _ ∅ Hn ltac:(unfold list_limit, body_limit in *; lia)) as (_ & _ & ? & ?). by split.
    + intros p n r idx' order' db3 Hr3 Hi3 [Hn3 Hc3] -> (m & Em & Hrem).
      destruct (reached_node _ _ _ _ _ _ _ _ _ Hr3 Hi3) as (m' & e & Em' & _ & Hwm & _).
      assert (m' = m) as -> by congruence. pose proof (list_node_remarked _ _ _ _ _ Hrem Hn3) as Hnm.
      assert (8 + input_size value true <= node_body_capacity m) as Hcm.
      { destruct Hrem as (_ & Hsh & _). destruct (same_shape_views _ _ Hsh) as (_ & _ & _ & ->). exact Hc3. }
      eapply (push_finish_wp _ _ _ _ _ _ _ _ _ _ []); [exact Hr3|exact Hi3|exact Em|by rewrite lookup_insert_eq|exact Hwm|exact Hnm|exact Hval|by symmetry|lia|by rewrite andb_false_r|cbn; lia|].
      intros idx4 order4 db4 Hr4. split; [reflexivity|]. rewrite insert_insert_eq in Hr4.
      rewrite others_again in Hr4. unfold ttl_of in Hr4. rewrite purged_seen, Hs in Hr4. cbn [mbind option_bind] in Hr4.
      assert (pushed front (input_value value) [] = [input_value value]) as Ep by (by destruct front). rewrite Ep in Hr4.
      by eapply reached_wrote.
Qed.

(** ** Popping an element *)

(** The element at an end of a list and the list without it. *)
Definition taken (front : bool) (v : Value) (l' : list Value) : list Value := if front then v :: l' else l' ++ [v].

Lemma list_run_split n l h u : list_node n l h u ->
  list_run n = take (Z.to_nat h) (list_run n) ++ encode_run l ++ drop (Z.to_nat (h + u)) (list_run n) /\
  len (take (Z.to_nat h) (list_run n)) = h.
Proof.
  intros [Hwd Hlen Hb Hh0 Hu Hlim Hroom Hrun Hcnt Hval Et]. pose proof (len_nonneg (encode_run l)).
  unfold list_run. rewrite <- Hrun. unfold read_at, len in *. split.
  - rewrite <- (take_drop (Z.to_nat h) (drop 8 (node_body n))) at 1. f_equal. rewrite !drop_drop.
    rewrite <- (take_drop (Z.to_nat u) (drop (8 + Z.to_nat h) (node_body n))) at 1. rewrite drop_drop.
    f_equal; [|f_equal; lia]. do 2 f_equal; lia.
  - rewrite length_take, length_drop. lia.
Qed.

Lemma end_element_spec n v l' h u front :
  list_node n (taken front v l') h u -> encodable v ->
  end_element front n = (v, len (write_element (input_from v) true)).
Proof.
  intros Hn Hv. destruct (list_run_split _ _ _ _ Hn) as [Erun Eh]. destruct (ln_words _ _ _ _ Hn) as [E1 E2].
  fold (list_head n) in E1. fold (list_used n) in E2. pose proof (ln_used _ _ _ _ Hn) as Hu.
  pose proof (ln_limit _ _ _ _ Hn) as Hlim. pose proof (ln_head _ _ _ _ Hn) as Hh0.
  assert (encodable (input_value (input_from v))) as Hv' by (by rewrite input_value_from).
  set (d := write_element (input_from v) true) in *. pose proof (len_nonneg d) as Hd0.
  assert (len d <= len (encode_run (taken front v l'))) as Hdu.
  { unfold taken. destruct front; [rewrite encode_run_cons, len_app; pose proof (len_nonneg (encode_run l')); fold d; lia|].
    rewrite encode_run_app, encode_run_cons, len_app, len_app. fold d.
    pose proof (len_nonneg (encode_run l')). pose proof (len_nonneg (encode_run [])). lia. }
  assert (u32 (len d) = len d) as Eu32 by (apply u32_small; unfold list_limit in *; lia).
  unfold end_element. rewrite E1, E2. rewrite Erun. set (pre := take (Z.to_nat h) (list_run n)) in *.
  set (post := drop (Z.to_nat (h + u)) (list_run n)). clearbody pre post. unfold taken in *. destruct front.
  - assert (drop (Z.to_nat h) (pre ++ encode_run (v :: l') ++ post) = d ++ encode_run l' ++ post) as ->.
    { rewrite <- Eh. unfold len. rewrite Nat2Z.id, drop_app_length, encode_run_cons. by rewrite <- app_assoc. }
    destruct (element_full (input_from v) (encode_run l' ++ post) Hv') as (Hst & Hdec & _). fold d in Hst, Hdec.
    rewrite Hst. cbn [from_option id]. rewrite Eu32. f_equal.
    destruct (decode (d ++ encode_run l' ++ post)) as [el|]; [|done]. cbn in *. rewrite input_value_from in Hdec. congruence.
  - assert (encode_run (l' ++ [v]) = encode_run l' ++ d) as Eer.
    { rewrite encode_run_app. f_equal. unfold encode_run. cbn. apply app_nil_r. }
    rewrite Eer in *. rewrite len_app in Hu.
    assert (take (Z.to_nat (h + u)) (pre ++ (encode_run l' ++ d) ++ post) = (pre ++ encode_run l') ++ d) as ->.
    { rewrite !app_assoc, <- (app_assoc pre). apply take_app_length'. unfold len in *. rewrite !length_app. lia. }
    destruct (element_from_end (pre ++ encode_run l') (input_from v) Hv') as [Hback Hfull]. fold d in Hback, Hfull.
    rewrite Hback. cbn [from_option id]. rewrite <- Hfull, Eu32. f_equal.
    assert (drop (Z.to_nat (h + u - len d)) (pre ++ (encode_run l' ++ d) ++ post) = d ++ post) as ->.
    { rewrite !app_assoc, <- (app_assoc _ d). apply drop_app_length'. unfold len in *. rewrite length_app. lia. }
    destruct (element_full (input_from v) post Hv') as (_ & Hdec & _). fold d in Hdec.
    destruct (decode (d ++ post)) as [el|]; [|done]. cbn in *. rewrite input_value_from in Hdec. congruence.
Qed.

Lemma pop_element_holds T n v l' h u front :
  node_wf n -> list_node n (taken front v l') h u -> encodable v ->
  let removed := len (write_element (input_from v) true) in
  safe_edit n (pop_element front removed n) /\ holds T (pop_element front removed n) (DList l').
Proof.
  intros Hw [Hwd Hlen Hb Hh0 Hu Hlim Hroom Hrun Hcnt Hval Et] Hv removed. unfold body_limit, list_limit in *.
  set (d := write_element (input_from v) true) in *. pose proof (len_nonneg d) as Hd0. pose proof (len_nonneg (encode_run l')) as Hl0.
  assert (len (encode_run (taken front v l')) = removed + len (encode_run l') /\ len (taken front v l') = len l' + 1 /\
    Forall encodable l') as (Er & Ec & Hval').
  { unfold taken in *. destruct front.
    - rewrite encode_run_cons, len_app, len_cons. inversion Hval; subst. fold d. unfold removed. split_and!; [lia|lia|done].
    - rewrite encode_run_app, !len_app. apply Forall_app in Hval as [? _]. unfold encode_run at 2. cbn [map concat].
      rewrite app_nil_r. fold d. split_and!; [unfold removed; lia|done|done]. }
  pose proof (len_encode_run l' Hval') as Hcl. pose proof (len_nonneg l'). rewrite Ec in Hcnt. rewrite Er in Hu.
  pose proof (edited_refl n Hw) as He. rewrite Et in He. pose proof (edited_words _ _ _ _ _ _ _ He Hwd) as [Eh Eu].
  unfold pop_element. rewrite Eh. rewrite (u32_small (h + removed)) by lia.
  set (h' := if front then h + removed else h).
  set (n1 := if front then _ else n).
  assert (exists b1, edited n n1 b1 (count n) type_list /\ words b1 h' u /\ len b1 = node_body_capacity n /\
    forall off k, 8 <= off -> read_at off k b1 = read_at off k (node_body n)) as (b1 & He1 & Hwd1 & El1 & Hsame).
  { unfold n1, h'. destruct front; [|by exists (node_body n)]. eexists. split; [by apply edited_head; [exact He|lia]|].
    split; [apply (words_head _ h); [exact Hwd|lia|lia]|].
    split; [rewrite len_write_at; rewrite ?len_word; lia|]. intros off k Ho. apply run_word; lia. }
  clearbody n1. destruct (edited_words _ _ _ _ _ _ _ He1 Hwd1) as [_ Eu1]. rewrite Eu1, (u32_small (u - removed)) by lia.
  apply (edited_used _ _ _ _ _ (u - removed)) in He1; [|lia]. apply (words_used _ _ _ (u - removed)) in Hwd1; [|lia|lia].
  rewrite (ed_count _ _ _ _ _ He1), Hcnt, Z.add_simpl_r, (u32_small (len l')) by lia.
  apply (edited_count _ _ _ _ _ (len l')) in He1; [|lia].
  split; [by eapply edited_safe|].
  eapply (list_node_holds T n _ _ l' h' (u - removed)); [exact He1|exact Hb| |exact Hwd1| |lia|unfold list_limit; lia| | |exact Hval'].
  - rewrite len_write_at; rewrite ?len_word; lia.
  - unfold h'. destruct front; lia.
  - unfold h'. destruct front; lia.
  - rewrite run_word by (unfold h'; destruct front; lia). rewrite Hsame by (unfold h'; destruct front; lia).
    unfold h', taken in *. destruct front.
    + rewrite encode_run_cons in Hrun. fold d in Hrun. replace u with (removed + (u - removed)) in Hrun by lia.
      rewrite read_at_app in Hrun by lia. apply app_inj_1 in Hrun as [_ Hrun].
      * by rewrite <- Hrun, Z.add_assoc.
      * apply Nat2Z.inj. fold (len d). change (Z.of_nat (length ?x)) with (len x). rewrite len_read_at by lia. done.
    + assert (encode_run (l' ++ [v]) = encode_run l' ++ d) as Eer.
      { rewrite encode_run_app. f_equal. unfold encode_run. cbn. apply app_nil_r. }
      rewrite Eer in Hrun. replace u with ((u - removed) + removed) in Hrun by lia. rewrite read_at_app in Hrun by lia.
      apply app_inj_1 in Hrun as [Hrun _]; [done|].
      apply Nat2Z.inj. change (Z.of_nat (length ?x)) with (len x). rewrite len_read_at by lia. lia.
Qed.

(** A smaller block keeps a list at its front. *)
Lemma holds_shrunk T n m l u :
  node_wf n -> list_node n l 0 u -> grown n m (8 + Z.max u 32) -> holds T m (DList l).
Proof.
  intros Hw [Hwd Hlen Hb Hh0 Hu Hlim Hroom Hrun Hcnt Hval Et] (Hwm & _ & Etm & _ & Ecm & Hcap & Hread).
  pose proof class_below_limit. unfold body_limit, list_limit in *. pose proof (len_nonneg (encode_run l)).
  assert (forall off k, 0 <= off -> off + k <= 8 + u -> read_at off k (node_body m) = read_at off k (node_body n)) as Hsame.
  { intros off k Ho Hk. set (c := Z.min (node_body_capacity n) (node_body_capacity m)) in *.
    rewrite <- (read_at_within off k c) by lia. rewrite Hread. apply read_at_within; lia. }
  assert (words (node_body m) 0 u) as [E1 E2] by (unfold words; rewrite !Hsame by lia; exact Hwd).
  split; [congruence|]. constructor; unfold list_head, list_used; rewrite ?E1, ?E2, ?run_capacity by lia.
  - unfold sizeof_ListBody, body_limit. lia.
  - lia.
  - unfold sizeof_ListBody. rewrite Hsame by lia. exact Hrun.
  - unfold list_limit. lia.
  - congruence.
  - exact Hval.
Qed.

(** The shorter list, or none. *)
Definition put_list (key : bytes) (l : list Value) (d : option Z) (K : Keyspace) : Keyspace :=
  match l with [] => delete key K | _ => <[key := (DList l, d)]> K end.
Definition put_recent (key : bytes) (l : list Value) (R : list bytes) : list bytes :=
  match l with [] => others key R | _ => key :: others key R end.

(** What is left to do once the element is out. *)
Lemma pop_finish_wp (db0 db : Database A) rs idx order K R key a n l d Q E :
  reached db0 rs idx order K R db -> idx !! key = Some a -> heap_ db !! a = Some n -> K !! key = Some (DList l, d) ->
  R = key :: others key R ->
  (forall idx' order' db', reached db0 rs idx' order' (put_list key l d K) (put_recent key l R) db' -> Q tt db') ->
  wp (if count n =? 0 then modify (erase_node a)
      else if list_shrinks n then
        do! modify (change_node a pull_run) in
        try_catch (let! _ := grow_node a (u32 (sizeof_ListBody + Z.max (list_used n) 32)) in ret tt)
          (fun e => if bool_decide (e = exn_bad_alloc) then ret tt else throw e)
      else ret tt) Q E db.
Proof.
  intros Hr Hi Ea Ek HR HQ. destruct (reached_node _ _ _ _ _ _ _ _ _ Hr Hi) as (n' & e & En & Ek' & Hw & _ & _ & Hv).
  assert (n' = n) as -> by congruence. assert (e = (DList l, d)) as -> by congruence. cbn [fst] in Hv.
  pose proof (list_node_of _ _ _ Hw Hv) as Hn. rewrite (ln_count _ _ _ _ Hn). destruct l as [|x l].
  { change (len [] =? 0) with true. cbn iota. wp_steps. eapply HQ. by apply reached_erase. }
  assert (forall db', forall idx' order', reached db0 rs idx' order' K R db' -> Q tt db') as Hsame.
  { intros db' idx' order' Hr'. eapply HQ. cbn [put_list put_recent]. rewrite insert_id by exact Ek. rewrite <- HR. exact Hr'. }
  rewrite len_cons. pose proof (len_nonneg l). destruct (Z.eqb_spec (1 + len l) 0) as [|_]; [lia|].
  destruct (list_shrinks n); [|wp_steps; by eapply Hsame]. wp_steps.
  destruct (pull_list (tables_ db) n _ _ _ Hw Hn) as (Hs & Hh & Ehd & Ecap).
  pose proof (reached_change _ _ _ _ _ _ _ _ _ n _ pull_run _ Hr Hi Ea Ek Hs Hh) as Hr1. cbn [snd] in Hr1.
  rewrite insert_id in Hr1 by exact Ek.
  assert (heap_ (change_node a pull_run db) !! a = Some (pull_run n)) as Ea1.
  { unfold change_node. cbn [heap_ put_heap]. by rewrite lookup_alter_eq, Ea. }
  assert (tables_ (change_node a pull_run db) = tables_ db) as Et1 by reflexivity.
  generalize dependent (change_node a pull_run db). intros db1 Hr1 Ea1 Et1.
  assert (list_node (pull_run n) (x :: l) 0 (list_used n)) as Hn1.
  { pose proof (list_node_of _ _ _ (proj1 Hs) Hh) as Hx. pose proof (ln_used _ _ _ _ Hx) as Eux.
    rewrite <- (ln_used _ _ _ _ Hn) in Eux. by rewrite Eux, Ehd in Hx. }
  pose proof (ln_limit _ _ _ _ Hn1). pose proof (ln_used _ _ _ _ Hn1). pose proof (len_nonneg (encode_run (x :: l))).
  unfold sizeof_ListBody. rewrite u32_small by (unfold list_limit in *; lia).
  eapply reached_move_wp; [exact Hr1|exact Hi|exact Ea1| |lia|exact Ek| | |].
  - apply plain_table. rewrite (ln_type _ _ _ _ Hn1). done.
  - intros m Hg. cbn [fst]. eapply holds_shrunk; [exact (proj1 Hs)|exact Hn1|exact Hg].
  - intros p m db2 Hr2 _ _ _. wp_steps. by eapply Hsame.
  - intros db2 Hr2. rewrite bool_decide_true by done. wp_steps. by eapply Hsame.
Qed.

Definition pop_op (front : bool) : WalOp := if front then op_pop_left else op_pop_right.
Definition pop_ops (key : bytes) (front : bool) (old : option entry) : list (WalOp * list bytes) :=
  match old with Some (DList _, _) => [(pop_op front, [key])] | _ => [] end.

(** The outcome of a pop. *)
Definition pop_result (db : Database A) (K : Keyspace) (R : list bytes) (rs : list (WalOp * list bytes)) (key : bytes)
    (front : bool) (old : option entry) (r : Result (option Value)) (db' : Database A) : Prop :=
  match old with
  | None | Some (DList [], _) => r = Ok None /\ looked db K R rs key db'
  | Some (DList l, d) => exists v l', l = taken front v l' /\ r = Ok (Some v) /\
      db_ok db' (put_list key l' d K) (put_recent key l' R) /\
      logged (rs ++ recs db [(pop_op front, [key])]) db' /\ after db db'
  | Some _ => r = Unexpected wrong_type /\ looked db K R rs key db'
  end.

Lemma put_list_insert key l e d K : put_list key l d (<[key := e]> K) = put_list key l d K.
Proof. destruct l; [apply delete_insert_eq|apply insert_insert_eq]. Qed.

Lemma put_recent_again key l R : put_recent key l (key :: others key R) = put_recent key l R.
Proof. destruct l; cbn [put_recent]; by rewrite others_again. Qed.

Lemma pop_result_some (db db' : Database A) K R rs key fr v l' d idx order :
  reached db (rs ++ recs db [(pop_op fr, [key])]) idx order (put_list key l' d K) (put_recent key l' R) db' ->
  pop_result db K R rs key fr (Some (DList (taken fr v l'), d)) (Ok (Some v)) db'.
Proof.
  intros Hr. assert (exists x l, taken fr v l' = x :: l) as (x & l & El).
  { unfold taken. destruct fr; [by eexists _, _|]. destruct l'; by eexists _, _. }
  unfold pop_result. rewrite El. exists v, l'. split; [by symmetry|]. split; [reflexivity|].
  split; [by eapply reached_ok|]. split; [apply (rc_logged _ _ _ _ _ _ _ Hr)|apply (rc_after _ _ _ _ _ _ _ Hr)].
Qed.

Lemma list_ends (front : bool) (l : list Value) : l <> [] -> exists v l', l = taken front v l'.
Proof.
  intros Hl. unfold taken. destruct front; [destruct l as [|v l]; [done|by exists v, l]|].
  destruct l as [|v l _] using rev_ind; [done|by exists v, l].
Qed.

Lemma list_pop_wp (db : Database A) K R rs key fr :
  db_ok db K R -> logged rs db ->
  wp (list_pop key fr) (pop_result db K R rs key fr (seen db K key))
    (fun e db' => kept db K rs (pop_ops key fr (seen db K key)) key db') db.
Proof.
  intros Hok Hl. unfold list_pop. wp_steps. eapply lookup_wp; [exact Hok|exact Hl| | |done].
  { intros _ Hh. by apply halted_kept_first. }
  intros a idx order db1 Hk Hr Ha. pose proof (reached_looked _ _ _ _ _ _ _ _ Hr) as Hlooked.
  destruct (idx !! key) as [b|] eqn:Hi; cbn [from_option id] in Ha; subst a.
  2:{ assert (seen db K key = None) as Hs.
      { rewrite <- purged_seen. apply (represents_none _ _ _ _ (rc_rep _ _ _ _ _ _ _ Hr)), Hi. }
      rewrite Z.eqb_refl, Hs. wp_steps. by split. }
  destruct (reached_node _ _ _ _ _ _ _ _ _ Hr Hi) as (n & e & Ea & Ek & Hw & _ & Hb0 & Hv).
  assert (seen db K key = Some e) as Hs by (by rewrite <- purged_seen).
  assert (gone db K key = false /\ K !! key = Some e) as [Hg EK] by (unfold seen in Hs; by destruct (gone db K key)).
  destruct (Z.eqb_spec b 0) as [|_]; [done|]. wp_steps. rewrite (node_at_lookup _ _ _ Ea), (holds_type _ _ _ Hv), Hs.
  destruct e as [[s|z|l|h] d]; cbn [fst pop_result] in *;
    [rewrite bool_decide_false by done; wp_steps; by split..| |rewrite bool_decide_false by done; wp_steps; by split].
  rewrite bool_decide_true by done. cbn [negb]. pose proof (list_node_of _ _ _ Hw Hv) as Hn. rewrite (ln_count _ _ _ _ Hn).
  destruct (decide (l = [])) as [->|Hne].
  { change (len [] =? 0) with true. cbn iota. wp_steps. by split. }
  destruct (Z.eqb_spec (len l) 0) as [Hz|_]; [destruct l; [done|rewrite len_cons in Hz; pose proof (len_nonneg l); lia]|].
  destruct (list_ends fr l Hne) as (v & l' & ->).
  assert (encodable v) as Hev.
  { pose proof (ln_values _ _ _ _ Hn) as Hf. unfold taken in Hf. destruct fr; [by inversion Hf|].
    apply Forall_app in Hf as [_ Hf]. by inversion Hf. }
  rewrite (end_element_spec _ _ _ _ _ _ Hn Hev). wp_steps.
  eapply reached_log_wp; [exact Hr|by destruct fr| |intros; by apply halted_kept]. intros db2 Hr2 Eh2 Et2. wp_steps.
  rewrite <- Eh2 in Ea. destruct (pop_element_holds (tables_ db2) n v l' _ _ fr Hw Hn Hev) as [Hse Hh].
  pose proof (reached_change _ _ _ _ _ _ _ _ _ n _ _ _ Hr2 Hi Ea Ek Hse Hh) as Hr3. cbn [snd] in Hr3.
  apply reached_bump in Hr3.
  assert (heap_ (bump_sequence (change_node b (pop_element fr (len (write_element (input_from v) true))) db2)) !! b =
    Some (pop_element fr (len (write_element (input_from v) true)) n)) as Ea3.
  { change (heap_ (bump_sequence ?x)) with (heap_ x). unfold change_node. cbn [heap_ put_heap]. by rewrite lookup_alter_eq, Ea. }
  generalize dependent (bump_sequence (change_node b (pop_element fr (len (write_element (input_from v) true))) db2)).
  intros db3 Hr3 Ea3. rewrite (node_at_lookup _ _ _ Ea3).
  assert (purged db K key = K /\ purge_records db K key = [] /\ front db K R key = key :: others key R) as (Ep & Epr & Ef).
  { unfold purged, purge_records, front. by rewrite Hg, Hs. }
  rewrite Ep, Epr, Ef in Hr3.
  eapply pop_finish_wp; [exact Hr3|exact Hi|exact Ea3|by rewrite lookup_insert_eq|by rewrite others_again|].
  intros idx' order' db4 Hr4. wp_steps. eapply pop_result_some.
  rewrite recs_nil, app_nil_r, put_recent_again, put_list_insert in Hr4. exact Hr4.
Qed.


(** ** Pushing several texts *)

Definition texts_size (vs : list bytes) : Z := fold_right (fun v s => encoded_size_text v + s) 0 vs.
Definition largest_of (g : Z) (vs : list bytes) : Z := fold_left (fun g v => Z.max g (len v)) vs g.

Lemma text_size v : len v < encoded_size_text v.
Proof. unfold encoded_size_text, max_string_header, backlen_bytes. zcases; lia. Qed.

Lemma texts_size_cons v vs : texts_size (v :: vs) = encoded_size_text v + texts_size vs.
Proof. reflexivity. Qed.

Lemma texts_size_nonneg vs : 0 <= texts_size vs.
Proof.
  induction vs as [|v vs IH]; [done|]. rewrite texts_size_cons. pose proof (text_size v). pose proof (len_nonneg v). lia.
Qed.

Lemma push_sizes_spec vs t g :
  0 <= t <= list_limit ->
  push_sizes vs t g = if list_limit <? t + texts_size vs then None else Some (t + texts_size vs, largest_of g vs).
Proof.
  revert t g. induction vs as [|v vs IH]; intros t g Ht; cbn [push_sizes largest_of fold_left].
  { cbn. rewrite Z.add_0_r. destruct (Z.ltb_spec list_limit t); [lia|done]. }
  rewrite texts_size_cons. change (64 * 1024 * 1024) with list_limit. pose proof (text_size v). pose proof (texts_size_nonneg vs).
  destruct (Z.ltb_spec list_limit (len v)); [destruct (Z.ltb_spec list_limit (t + (encoded_size_text v + texts_size vs))); [done|lia]|].
  pose proof (len_nonneg v). rewrite Z.add_assoc.
  destruct (Z.ltb_spec list_limit (t + encoded_size_text v)).
  { destruct (Z.ltb_spec list_limit (t + encoded_size_text v + texts_size vs)); [done|lia]. }
  by rewrite IH by lia.
Qed.

Lemma largest_of_ge vs g : g <= largest_of g vs /\ forall v, v ∈ vs -> len v <= largest_of g vs.
Proof.
  revert g. induction vs as [|x vs IH]; intros g; cbn [largest_of fold_left]; [split; [lia|by intros v ?%not_elem_of_nil]|].
  destruct (IH (Z.max g (len x))) as [H1 H2]. fold (largest_of (Z.max g (len x)) vs). split; [lia|].
  intros v [->|Hv]%elem_of_cons; [lia|by apply H2].
Qed.

(** Texts small enough are encoded in the size computed. *)
Lemma encode_texts vs : texts_size vs <= list_limit ->
  Forall encodable (VString <$> vs) /\ len (encode_run (VString <$> vs)) = texts_size vs.
Proof.
  induction vs as [|v vs IH]; intros Hs; [by split; [constructor|]|]. rewrite texts_size_cons in Hs. pose proof (text_size v).
  pose proof (texts_size_nonneg vs). pose proof (len_nonneg v). destruct IH as [IH1 IH2]; [lia|].
  destruct (small_encodable (text_input v)) as [Hv El]; [done|unfold input_size; cbn; lia|].
  rewrite fmap_cons, encode_run_cons, len_app, IH2, texts_size_cons. split; [by constructor|]. cbn [input_from].
  change (mkInput false 0 v) with (text_input v). rewrite El. reflexivity.
Qed.

Definition joined (front : bool) (vs : list bytes) (l : list Value) : list Value :=
  if front then (VString <$> reverse vs) ++ l else l ++ (VString <$> vs).

Lemma texts_run vs : concat (map encode_text vs) = encode_run (VString <$> vs).
Proof.
  induction vs as [|v vs IH]; [done|].
  change (VString <$> v :: vs) with (VString v :: (VString <$> vs)). rewrite encode_run_cons. cbn [map concat]. by rewrite IH.
Qed.

Lemma texts_size_reverse vs : texts_size (reverse vs) = texts_size vs.
Proof.
  assert (forall a b, texts_size (a ++ b) = texts_size a + texts_size b) as Happ.
  { intros a b. induction a as [|x a IH]; [done|]. change ((x :: a) ++ b) with (x :: (a ++ b)). rewrite !texts_size_cons. lia. }
  induction vs as [|v vs IH]; [done|]. rewrite reverse_cons, Happ, !texts_size_cons, IH. cbn [texts_size fold_right]. lia.
Qed.

(** The run that is copied together is that of the joined list. *)
Lemma joined_run_list vs front n l h u :
  list_node n l h u -> joined_run vs front (Some n) = encode_run (joined front vs l).
Proof.
  intros Hn. destruct (ln_words _ _ _ _ Hn) as [E1 E2]. fold (list_head n) in E1. fold (list_used n) in E2.
  unfold joined_run, joined. cbn [from_option]. rewrite E1, E2. unfold sizeof_ListBody. rewrite (ln_run _ _ _ _ Hn).
  rewrite !texts_run. destruct front; by rewrite encode_run_app, ?app_nil_r.
Qed.

Lemma joined_run_none vs front : joined_run vs front None = encode_run (joined front vs []).
Proof. unfold joined_run, joined. rewrite !texts_run. destruct front; by rewrite encode_run_app, ?app_nil_r. Qed.

Lemma joined_size vs front l :
  Forall encodable l -> len (encode_run l) + texts_size vs <= list_limit ->
  len (encode_run (joined front vs l)) = len (encode_run l) + texts_size vs /\
  Forall encodable (joined front vs l) /\ len (joined front vs l) = len l + len vs.
Proof.
  intros Hl Hs. pose proof (len_nonneg (encode_run l)). unfold joined. destruct front.
  - destruct (encode_texts (reverse vs)) as [H1 H2]; [rewrite texts_size_reverse; lia|].
    rewrite encode_run_app, len_app, H2, texts_size_reverse. split; [lia|]. split; [by apply Forall_app|].
    rewrite len_app. unfold len. rewrite length_fmap, length_reverse. lia.
  - destruct (encode_texts vs) as [H1 H2]; [lia|]. rewrite encode_run_app, len_app, H2. split; [lia|].
    split; [by apply Forall_app|]. rewrite len_app. unfold len. rewrite length_fmap. lia.
Qed.

(** Filling in the new node. *)
Lemma fill_list_holds key n T l total :
  total = len (encode_run l) -> total <= list_limit -> Forall encodable l -> new_node n key type_list (8 + total) ->
  safe_edit n (fill_list total (len l) (encode_run l) n) /\ holds T (fill_list total (len l) (encode_run l) n) (DList l).
Proof.
  intros Etot Hlim Hl (Hw & _ & Et & _ & Ec & Hcap). pose proof class_below_limit.
  pose proof (len_nonneg (encode_run l)). pose proof (len_encode_run l Hl). pose proof (len_nonneg l). unfold body_limit, list_limit in *.
  destruct (capacity_eq n Hw) as [Elen _]. pose proof (edited_refl n Hw) as He. rewrite Et, Ec in He.
  pose proof (words_of n) as Hwd. unfold fill_list. rewrite u32_small by lia.
  apply (edited_head _ _ _ _ _ 0) in He; [|lia]. apply (words_head _ _ _ 0) in Hwd; [|lia|lia].
  set (b1 := write_at 0 (le_bytes 4 0) (node_body n)) in *.
  assert (len b1 = node_body_capacity n) as El1 by (unfold b1; rewrite len_write_at; rewrite ?len_word; lia).
  apply (edited_used _ _ _ _ _ total) in He; [|lia]. apply (words_used _ _ _ total) in Hwd; [|lia|lia].
  set (b2 := write_at 4 (le_bytes 4 total) b1) in *.
  assert (len b2 = node_body_capacity n) as El2 by (unfold b2; rewrite len_write_at; rewrite ?len_word; lia).
  apply (edited_count _ _ _ _ _ (len l)) in He; [|lia].
  apply (edited_run _ _ _ _ _ 0 (encode_run l)) in He; [|lia|lia]. change (8 + 0) with 8 in He.
  apply (words_run _ _ _ 8 (encode_run l)) in Hwd; [|lia|lia].
  split; [by eapply edited_safe|].
  eapply (list_node_holds T n _ _ l 0 total); [exact He|unfold body_limit; lia| |exact Hwd|lia|exact Etot|unfold list_limit; lia|lia| |exact Hl].
  - rewrite len_write_at; lia.
  - rewrite Etot. apply read_write_same; lia.
Qed.

Definition text_record (key : bytes) (front : bool) (v : bytes) : WalOp * list bytes :=
  (push_op front, [key; of_str "s"; v]).

Definition texts_of (front : bool) (vs : list bytes) (old : option dvalue) : Result (list Value) :=
  match old with
  | None => if list_limit <? texts_size vs then Unexpected request_too_large else Ok (joined front vs [])
  | Some (DList l) =>
      if list_limit <? len (encode_run l) + texts_size vs then Unexpected request_too_large else Ok (joined front vs l)
  | Some _ => Unexpected wrong_type
  end.

(** The length of the list under a key; a key that is not there has none. *)
Definition length_of (old : option dvalue) : Result Z :=
  match old with None => Ok 0 | Some (DList l) => Ok (len l) | Some _ => Unexpected wrong_type end.

Definition push_texts_result (db : Database A) (K : Keyspace) (R : list bytes) (rs : list (WalOp * list bytes)) (key : bytes)
    (front : bool) (vs : list bytes) (r : Result Z) (db' : Database A) : Prop :=
  if bool_decide (vs = []) then r = length_of (fst <$> seen db K key) /\ looked db K R rs key db'
  else answered db K R rs (text_record key front <$> vs) key (texts_of front vs (fst <$> seen db K key))
         (fun l => (DList l, seen db K key ≫= snd)) len r db'.

Lemma text_records_fit key front vs g v :
  v ∈ vs -> real_op (text_record key front v).1 /\ len (text_record key front v).2 <= 255 /\
  len (enc (text_record key front v)) <= len key + largest_of g vs + 64.
Proof.
  intros Hv. pose proof (proj2 (largest_of_ge vs g) v Hv). unfold text_record, enc. cbn [fst snd].
  split; [by destruct front|]. split; [done|]. rewrite len_encode_record. unfold payload.
  rewrite !len_cons, len_put_args. cbn [foldr]. change (len (of_str "s")) with 1. lia.
Qed.

(** The new node replaces the old one, with its records in the log. *)
Lemma texts_build_wp (db db2 : Database A) K R rs idx order key fr vs l g :
  reached db (rs ++ recs db (purge_records db K key)) idx order (purged db K key) (front db K R key) db2 ->
  len key <= max_key_length -> Forall encodable l -> len (encode_run l) + texts_size vs <= list_limit ->
  let l' := joined fr vs l in let total := len (encode_run l) + texts_size vs in
  wp (do! build key (default 0 (idx !! key)) type_list (u32 (sizeof_ListBody + total))
            (fill_list total (len l') (encode_run l')) true
            (fun _ => do! reserve_log (len key + largest_of g vs + 64) in
                      for_each vs (fun value => log (push_op fr) [key; of_str "s"; value])) in
      ret (Ok (len l')))
    (fun r db' => r = Ok (len l') /\ wrote db K R rs (text_record key fr <$> vs) key (DList l', seen db K key ≫= snd) db')
    (fun e db' => kept db K rs (text_record key fr <$> vs) key db') db2.
Proof.
  intros Hr Hk Hl Hlim l' total. destruct (joined_size vs fr l Hl Hlim) as (Etot & Hl' & _). fold l' in Etot, Hl'. fold total in Etot, Hlim.
  pose proof (len_nonneg (encode_run l')). unfold sizeof_ListBody. rewrite u32_small by (unfold list_limit in *; lia). wp_steps.
  pose proof (reserved_records (text_record key fr) (len key + largest_of g vs + 64) vs db
    (rs ++ recs db (purge_records db K key)) (fun _ => True) (text_records_fit key fr vs g)) as Hrec.
  eapply (reached_build_wp db db2 _ _ _ _ _ _ _ _ _ _ _ _ (fun _ => True));
    [exact Hr|reflexivity|exact Hk|lia|done| |exact Hrec|done| |intros; by apply halted_kept].
  - intros n Hn. eapply fill_list_holds; [by symmetry|exact Hlim|exact Hl'|exact Hn].
  - intros p n r idx' order' db3 Hr3 _ _ _ _. wp_steps. split; [done|].
    unfold ttl_of in Hr3. rewrite purged_seen in Hr3. by eapply reached_wrote.
Qed.

Lemma count_fits (l : list Value) (vs : list bytes) fr :
  Forall encodable l -> len (encode_run l) + texts_size vs <= list_limit ->
  u32 (len l + len vs) = len (joined fr vs l).
Proof.
  intros Hl Hs. destruct (joined_size vs fr l Hl Hs) as (E1 & H2 & E3). pose proof (len_encode_run _ H2).
  rewrite E3 in *. pose proof (len_nonneg l). pose proof (len_nonneg vs). apply u32_small. unfold list_limit in *. lia.
Qed.

Lemma push_texts_wp (db : Database A) K R rs key vs fr :
  db_ok db K R -> logged rs db ->
  wp (push_texts key vs fr) (push_texts_result db K R rs key fr vs)
    (fun e db' => kept db K rs (if_ok (texts_of fr vs (fst <$> seen db K key)) (text_record key fr <$> vs)) key db') db.
Proof.
  intros Hok Hl. unfold push_texts, push_texts_result, answered. wp_steps. eapply lookup_wp; [exact Hok|exact Hl| | |done].
  { intros _ Hh. by apply halted_kept_first. }
  intros a idx order db1 Hk Hr ->. wp_steps. pose proof (reached_looked _ _ _ _ _ _ _ _ Hr) as Hlooked.
  destruct (idx !! key) as [b|] eqn:Hi; cbn [from_option id].
  - destruct (reached_node _ _ _ _ _ _ _ _ _ Hr Hi) as (n & e & Ea & Ek & Hw & _ & Hb0 & Hv).
    assert (seen db K key = Some e) as Hs by (by rewrite <- purged_seen).
    rewrite (node_at_lookup _ _ _ Ea), Hs. destruct (Z.eqb_spec b 0) as [|_]; [done|].
    cbn [from_option fmap option_fmap option_map mbind option_bind]. rewrite (holds_type _ _ _ Hv).
    destruct e as [[s|z|l|h] d]; cbn [fst snd texts_of length_of] in *;
      [rewrite bool_decide_false by done; wp_steps; destruct (bool_decide (vs = [])); by split..| |rewrite bool_decide_false by done; wp_steps; destruct (bool_decide (vs = [])); by split].
    rewrite bool_decide_true by done. cbn [negb]. pose proof (list_node_of _ _ _ Hw Hv) as Hn. rewrite (ln_count _ _ _ _ Hn).
    destruct (bool_decide_reflect (vs = [])) as [->|Hne]; [wp_steps; by split|].
    pose proof (ln_used _ _ _ _ Hn) as Eu. pose proof (ln_limit _ _ _ _ Hn) as Hlim. pose proof (len_nonneg (encode_run l)).
    rewrite Eu, push_sizes_spec by lia.
    destruct (Z.ltb_spec list_limit (len (encode_run l) + texts_size vs)) as [|Hfit]; [wp_steps; by split|].
    cbn [when]. apply wp_bind, wp_ret. cbv beta. rewrite (joined_run_list _ _ _ _ _ _ Hn), (count_fits l vs fr (ln_values _ _ _ _ Hn) Hfit).
    pose proof (texts_build_wp db db1 K R rs idx order key fr vs l 0 Hr Hk (ln_values _ _ _ _ Hn) Hfit) as Hb.
    cbv zeta in Hb. rewrite Hi in Hb. cbn [default from_option id] in Hb. rewrite Hs in Hb. eapply wp_mono; [exact Hb|done|done].
  - assert (seen db K key = None) as Hs.
    { rewrite <- purged_seen. apply (represents_none _ _ _ _ (rc_rep _ _ _ _ _ _ _ Hr)), Hi. }
    rewrite Z.eqb_refl, Hs. cbn [from_option fmap option_fmap option_map texts_of length_of mbind option_bind].
    destruct (bool_decide_reflect (vs = [])) as [->|Hne]; [wp_steps; by split|].
    rewrite push_sizes_spec by (unfold list_limit; lia). rewrite Z.add_0_l.
    destruct (Z.ltb_spec list_limit (texts_size vs)) as [|Hfit]; [wp_steps; by split|]. wp_steps.
    eapply (reached_rehash_wp _ _ _ _ _ _ _ true); [exact Hr| |intros; by apply halted_kept]. intros db2 Hr2 _.
    rewrite joined_run_none. change (u32 (0 + len vs)) with (u32 (len (@nil Value) + len vs)).
    rewrite (count_fits [] vs fr ltac:(by constructor) Hfit).
    pose proof (texts_build_wp db db2 K R rs idx order key fr vs [] 0 Hr2 Hk ltac:(by constructor) Hfit) as Hb.
    cbv zeta in Hb. rewrite Hi in Hb. cbn [default from_option id] in Hb. rewrite Hs in Hb. eapply wp_mono; [exact Hb|done|done].
Qed.

Lemma list_length_wp (db : Database A) K R rs key :
  db_ok db K R -> logged rs db ->
  wp (list_length key)
    (fun r db' => r = length_of (fst <$> seen db K key) /\ was_read db K R rs key db') (fun _ _ => False) db.
Proof.
  intros Hok Hl. unfold list_length. wp_steps. eapply read_wp; [exact Hok|exact Hl|..].
  - intros db' Hr Hs. rewrite Z.eqb_refl. wp_steps. by rewrite Hs.
  - intros a n e db' Hr Hs Ha Ea Hh Hw _ _. destruct (Z.eqb_spec a 0) as [|_]; [done|]. wp_steps.
    rewrite (node_at_lookup _ _ _ Ea), (holds_type _ _ _ Hh), Hs.
    destruct e as [[s|z|l|h] d]; cbn [fst fmap option_fmap option_map length_of] in *;
      [rewrite bool_decide_false by done; wp_steps; by split..| |rewrite bool_decide_false by done; wp_steps; by split].
    rewrite bool_decide_true by done. cbn [negb]. wp_steps. pose proof (list_node_of _ _ _ Hw Hh) as Hn.
    rewrite (ln_count _ _ _ _ Hn). by split.
Qed.

(** ** Properties *)

(** LPUSH and RPUSH of one value.  A missing key counts as an empty list;
    the value is at the front or at the back of the list afterwards, the
    deadline is kept, and the length is returned.  Another type, and a list
    of more than 64 MiB, are refused and nothing changes. *)
Theorem list_push_correct (db : Database A) K R rs key value front :
  db_ok db K R -> logged rs db -> typed_input value ->
  wp (list_push key value front)
    (answered db K R rs [push_record key front value] key (push_of front value (fst <$> seen db K key))
       (fun l => (DList l, seen db K key ≫= snd)) len)
    (fun e db' => kept db K rs (if_ok (push_of front value (fst <$> seen db K key)) [push_record key front value]) key db') db.
Proof. apply list_push_wp. Qed.

(** LPUSH and RPUSH of several texts.  They are all in the list
    afterwards, in the order in which one push after the other would have put
    them, or none is: when the call throws, part of the records can only be
    in a log that has failed for good. *)
Theorem push_texts_correct (db : Database A) K R rs key vs front :
  db_ok db K R -> logged rs db ->
  wp (push_texts key vs front) (push_texts_result db K R rs key front vs)
    (fun e db' => kept db K rs (if_ok (texts_of front vs (fst <$> seen db K key)) (text_record key front <$> vs)) key db') db.
Proof. apply push_texts_wp. Qed.

(** C35: LPOP and RPOP.  The call returns the element at the end it takes from
    and the list is what is left of it; the last element takes the key with
    it.  A missing key and an empty list have no element, and another type is
    refused. *)
Theorem list_pop_correct (db : Database A) K R rs key front :
  db_ok db K R -> logged rs db ->
  wp (list_pop key front) (pop_result db K R rs key front (seen db K key))
    (fun e db' => kept db K rs (pop_ops key front (seen db K key)) key db') db.
Proof. apply list_pop_wp. Qed.

End ops.

(** ** Examples *)

Definition key_l : bytes := of_str "l".
Definition list_abc : list Value := VString <$> [of_str "c"; of_str "b"; of_str "a"].
Definition sample_push : (exn + Result Z) * Database Memory :=
  push_texts key_l [of_str "a"; of_str "b"; of_str "c"] true sample_db.
Definition sample_list_db : Database Memory := snd sample_push.
Definition sample_list_keyspace : Keyspace := <[key_l := (DList list_abc, None)]> sample_keyspace.
Definition sample_list_records : list (WalOp * list bytes) :=
  sample_log_records ++ (text_record key_l true <$> [of_str "a"; of_str "b"; of_str "c"]).

Lemma push_texts_correct_witness :
  exists db', push_texts key_l [of_str "a"; of_str "b"; of_str "c"] true sample_db = (inr (Ok 3), db') /\
    db_ok db' sample_list_keyspace [key_l; key_k] /\ logged sample_list_records db'.
Proof.
  destruct sample_db_ok as [Hok Hl].
  pose proof (push_texts_correct sample_db sample_keyspace [key_k] _ key_l [of_str "a"; of_str "b"; of_str "c"] true Hok Hl) as Hw.
  unfold push_texts_result in Hw. change (bool_decide _) with false in Hw. cbv iota in Hw.
  assert (seen sample_db sample_keyspace key_l = None) as Hs by (vm_compute; reflexivity). rewrite Hs in Hw.
  change (texts_of _ _ _) with (Ok list_abc) in Hw.
  destruct (wp_returns _ _ _ _ Hw) as (r & db' & E & -> & Hwr); [eexists; vm_compute; reflexivity|].
  exists db'. split; [exact E|]. destruct Hwr as (Hok' & Hl' & _). split; [exact Hok'|exact Hl'].
Defined.

Lemma sample_list_ok : db_ok sample_list_db sample_list_keyspace [key_l; key_k] /\ logged sample_list_records sample_list_db.
Proof.
  destruct sample_db_ok as [Hok Hl].
  pose proof (push_texts_wp sample_db sample_keyspace [key_k] _ key_l [of_str "a"; of_str "b"; of_str "c"] true Hok Hl) as Hw.
  unfold push_texts_result in Hw. change (bool_decide _) with false in Hw. cbv iota in Hw.
  assert (seen sample_db sample_keyspace key_l = None) as Hs by (vm_compute; reflexivity). rewrite Hs in Hw.
  change (texts_of _ _ _) with (Ok list_abc) in Hw.
  destruct (wp_returns _ _ _ _ Hw) as (r & db' & E & _ & (Hok' & Hl' & _)); [eexists; vm_compute; reflexivity|].
  unfold sample_list_db, sample_push. rewrite E. split; [exact Hok'|exact Hl'].
Qed.

Lemma list_push_correct_witness :
  exists db', list_push key_l (text_input (of_str "z")) false sample_list_db = (inr (Ok 4), db') /\
    wrote sample_list_db sample_list_keyspace [key_l; key_k] sample_list_records
      [(op_push_right, [key_l; of_str "s"; of_str "z"])] key_l (DList (list_abc ++ [VString (of_str "z")]), None) db'.
Proof.
  destruct sample_list_ok as [Hok Hl].
  pose proof (list_push_correct _ _ _ _ key_l (text_input (of_str "z")) false Hok Hl ltac:(discriminate)) as Hw.
  assert (seen sample_list_db sample_list_keyspace key_l = Some (DList list_abc, None)) as Hs by (vm_compute; reflexivity).
  rewrite Hs in Hw. change (push_of _ _ _) with (Ok (list_abc ++ [VString (of_str "z")])) in Hw.
  destruct (wp_returns _ _ _ _ Hw) as (r & db' & E & -> & Hwr); [eexists; vm_compute; reflexivity|].
  exists db'. split; [exact E|exact Hwr].
Defined.

Lemma list_pop_correct_witness :
  exists db', list_pop key_l false sample_list_db = (inr (Ok (Some (VString (of_str "a")))), db') /\
    db_ok db' (<[key_l := (DList (VString <$> [of_str "c"; of_str "b"]), None)]> sample_list_keyspace) [key_l; key_k].
Proof.
  destruct sample_list_ok as [Hok Hl]. pose proof (list_pop_correct _ _ _ _ key_l false Hok Hl) as Hw.
  assert (seen sample_list_db sample_list_keyspace key_l = Some (DList list_abc, None)) as Hs by (vm_compute; reflexivity).
  rewrite Hs in Hw.
  destruct (wp_returns _ _ _ _ Hw) as (r & db' & E & v & l' & El & -> & Hok' & _); [eexists; vm_compute; reflexivity|].
  change list_abc with ((VString <$> [of_str "c"; of_str "b"]) ++ [VString (of_str "a")]) in El.
  apply app_inj_tail in El as [<- <-]. exists db'. split; [exact E|exact Hok'].
Defined.
