(* ===== verification/Hashes.v ===== *)
(** * Hashes: the commands on hashes

    [hash_find], [make_hash], [hash_assign], [hash_set_texts], [hash_field],
    [hash_get], [hash_del] and [hash_length] of [src/database.cpp].  A small
    hash is a run of packed pairs in the node's body; beyond 128 fields or
    4096 bytes it becomes a table of its own, to which the node points.  The
    commands are shown to be the operations of their names on the abstract
    map in both forms and across the change from one to the other. *)

From S2P Require Import Prelude Charconv Errors Effects Pack WalCodec Wal Allocator Slab Lru Expiry Buckets Node Store Keyspace StoreSpec Contents Edits Writing Sample Strings Lists.

Section ops.

Context {A : Type} `{NodeAllocator A} `{!Platform A}.

(** ** Packed pairs *)

(** [pack::decode] and [pack::element_size] at a cursor. *)
Definition element_at (body : bytes) (cursor : Z) : Element :=
  default (mkElement kind_integer [] 0) (decode (drop (Z.to_nat cursor) body)).
Definition size_at (body : bytes) (cursor : Z) : Z := default 0 (element_size (drop (Z.to_nat cursor) body)).

(** The loop of [hash_find]: where the value is, and the size of the field
    before it. *)
Fixpoint hash_scan (pairs : nat) (field body : bytes) (cursor : Z) : option (Z * Z) :=
  match pairs with
  | O => None
  | S pairs =>
      let decoded := element_at body cursor in
      let field_bytes := size_at body cursor in
      let cursor := cursor + field_bytes in
      let value_bytes := size_at body cursor in
      if negb (is_integer_element decoded) && bool_decide (elem_text decoded = field) then Some (cursor, field_bytes)
      else hash_scan pairs field body (cursor + value_bytes)
  end.

Definition hash_find (n : Node) (field : bytes) : option (Z * Z) :=
  hash_scan (Z.to_nat (hash_count n)) field (node_body n) 0.

(** The pairs of a packed hash, as the loops that unpack it read them. *)
Fixpoint unpack_from (pairs : nat) (body : bytes) (cursor : Z) : list (bytes * Value) :=
  match pairs with
  | O => []
  | S pairs =>
      let name := element_at body cursor in
      let cursor := cursor + size_at body cursor in
      let item := element_at body cursor in
      let cursor := cursor + size_at body cursor in
      (elem_text name, element_to_value item) :: unpack_from pairs body cursor
  end.

Definition unpack (n : Node) : list (bytes * Value) := unpack_from (Z.to_nat (hash_count n)) (node_body n) 0.

(** ** Tables *)

Definition table_at (t : Z) (db : Database A) : HashTable := default ∅ (tables_ db !! t).
Definition put_table (t : Z) (T : HashTable) (db : Database A) : Database A := put_tables (<[t := T]> (tables_ db)) db.

(** A string, a node of a table or its buckets ask for memory; locals give it
    back when their scope is left. *)
Definition container : M (Database A) unit := on_alloc al_container.
Definition give_back (db : Database A) : Database A := put_alloc (al_return (alloc_ db)) db.
Definition scoped {R} (body : M (Database A) R) : M (Database A) R :=
  try_catch body (fun e => do! modify give_back in throw e).

Definition make_hash : M (Database A) Z :=
  let! storage := on_alloc (al_take sizeof_HashTable) in
  do! try_catch container (fun e =>
        do! modify (fun db => put_alloc (al_give storage sizeof_HashTable (alloc_ db)) db) in throw e) in
  do! modify (put_table storage ∅) in
  ret storage.

(** The scope of a [unique_ptr] to a table. *)
Definition with_table {R} (t : Z) (body : M (Database A) R) : M (Database A) R :=
  try_catch body (fun e => do! modify (delete_table t) in throw e).

(** [table->emplace], which keeps an entry that is there, and
    [table->insert_or_assign], which tells whether there was none. *)
Definition emplaced (T : HashTable) (p : bytes * Value) : HashTable :=
  match T !! p.1 with Some _ => T | None => <[p.1 := p.2]> T end.
Definition emplace (t : Z) (p : bytes * Value) : M (Database A) unit :=
  do! container in
  modify (fun db => put_table t (emplaced (table_at t db) p) db).
Definition insert_or_assign (t : Z) (field : bytes) (value : Value) : M (Database A) bool :=
  do! container in
  let! db := Effects.get in
  let T := table_at t db in
  do! modify (put_table t (<[field := value]> T)) in
  ret (bool_decide (T !! field = None)).

(** A node that points to a table. *)
Definition promote (t count : Z) (n : Node) : Node :=
  set_count count (set_flags flag_hash_promoted (set_promoted_hash t n)).

(** ** HSET *)

Definition hash_record (key field : bytes) (value : ElementInput) : WalOp * list bytes :=
  (op_hash_set, [key; field; kind_arg value; text_arg value]).

(** A hash with a table. *)
Definition table_assign (node t : Z) (key field : bytes) (value : ElementInput) : M (Database A) (Result Z) :=
  let append := log op_hash_set [key; field; kind_arg value; text_arg value] in
  do! container in
  let! db := Effects.get in
  let T := table_at t db in
  let T' := <[field := input_value value]> T in
  if bool_decide (T !! field = None) then
    do! scoped (do! container in do! container in append) in
    do! modify (put_table t T') in
    do! modify (change_node node (set_count (u32 (Z.of_nat (size T'))))) in
    do! modify bump_sequence in
    ret (Ok 1)
  else
    do! scoped append in
    do! modify (fun db => give_back (put_table t T' db)) in
    do! modify bump_sequence in
    ret (Ok 0).

(** The bytes of a value in place of others, into a new node and in place. *)
Definition replace_into (n : Node) (element old_bytes value_bytes : Z) (value : ElementInput) (out : Node) : Node :=
  let body := node_body n in
  let out := copy_in 0 (read_at 0 element body) out in
  let out := write_body element (write_element value false) out in
  copy_in (element + value_bytes) (read_at (element + old_bytes) (hash_used n - element - old_bytes) body) out.

Definition replace_in_place (element old_bytes value_bytes : Z) (value : ElementInput) (n : Node) : Node :=
  let tail := hash_used n - element - old_bytes in
  let n :=
    if negb (tail =? 0) && negb (value_bytes =? old_bytes)
    then write_body (element + value_bytes) (read_at (element + old_bytes) tail (node_body n)) n else n in
  write_body element (write_element value false) n.

(** A pair after the others. *)
Definition add_pair (used : Z) (field : bytes) (value : ElementInput) (n : Node) : Node :=
  write_body used (encode_body_text field ++ write_element value false) n.

(** The run with the new value, into a new node and in place; [found] is where
    the old value is. *)
Definition assign_into (n : Node) (used : Z) (found : option (Z * Z)) (old_bytes value_bytes : Z) (field : bytes)
    (value : ElementInput) (out : Node) : Node :=
  match found with
  | Some (element, _) => replace_into n element old_bytes value_bytes value out
  | None => add_pair used field value (if used =? 0 then out else copy_in 0 (read_at 0 used (node_body n)) out)
  end.

Definition assign_in_place (used : Z) (found : option (Z * Z)) (old_bytes value_bytes : Z) (field : bytes)
    (value : ElementInput) (n : Node) : Node :=
  match found with
  | Some (element, _) => replace_in_place element old_bytes value_bytes value n
  | None => add_pair used field value n
  end.

Definition set_hash_word (c used : Z) (n : Node) : Node := set_hash_used used (set_hash_count c n).

(** The fields of a packed hash and the new one move to a table. *)
Definition promote_packed (node : Z) (key field : bytes) (value : ElementInput) (l : list (bytes * Value)) (pairs : Z)
    : M (Database A) unit :=
  let! t := make_hash in
  let! fresh := with_table t (
    do! container in
    do! for_each l (emplace t) in
    do! insert_or_assign t field (input_value value) in
    create_node key type_hash 8) in
  install node fresh (promote t pairs) true
    (fun _ => log op_hash_set [key; field; kind_arg value; text_arg value]).

(** The new run: in a table, in a new block or in place.  [inside] tells
    whether the text of the value lies in the block at an address. *)
Definition packed_store (inside : Z -> bool) (node : Z) (n : Node) (key field : bytes) (value : ElementInput)
    (found : option (Z * Z)) (old_bytes used needed pairs : Z) : M (Database A) unit :=
  let append := log op_hash_set [key; field; kind_arg value; text_arg value] in
  let value_bytes := u32 (input_size value false) in
  if (hash_packed_limit <? pairs) || (hash_packed_byte_limit <? needed) then
    promote_packed node key field value (if node =? 0 then [] else unpack n) pairs
  else if (node =? 0) || (node_body_capacity n <? needed) then
    build key node type_hash (grown_capacity needed (if node =? 0 then 0 else node_body_capacity n))
      (fun out => set_hash_word pairs needed (assign_into n used found old_bytes value_bytes field value out)) true
      (fun _ => append)
  else
    do! when (inside node) container in
    do! (if inside node then scoped append else append) in
    do! modify (change_node node (fun n =>
          set_hash_word pairs needed (assign_in_place used found old_bytes value_bytes field value n))) in
    do! modify bump_sequence in
    when (inside node) (modify give_back).

(** A packed hash, or none at all. *)
Definition packed_assign (inside : Z -> bool) (node : Z) (key field : bytes) (value : ElementInput) : M (Database A) (Result Z) :=
  let! db := Effects.get in
  let n := node_at db node in
  let field_bytes := u32 (body_size_text field) in
  let value_bytes := u32 (input_size value false) in
  let found := if node =? 0 then None else hash_find n field in
  let old_bytes := from_option (fun p => size_at (node_body n) (fst p)) 0 found in
  let used := if node =? 0 then 0 else hash_used n in
  let existing := bool_decide (is_Some found) in
  let needed := u32 (used - old_bytes + value_bytes + (if existing then 0 else field_bytes)) in
  let pairs := (if node =? 0 then 0 else hash_count n) + (if existing then 0 else 1) in
  do! when (node =? 0) maybe_rehash in
  do! packed_store inside node n key field value found old_bytes used needed pairs in
  ret (Ok (if existing then 0 else 1)).

Definition hash_assign (inside : Z -> bool) (key field : bytes) (value : ElementInput) : M (Database A) (Result Z) :=
  let! node := find_writable key in
  let! db := Effects.get in
  let n := node_at db node in
  if nonnull node && negb (bool_decide (node_type n = type_hash)) then ret (Unexpected wrong_type) else
  if (64 * 1024 * 1024 <? len field) || (64 * 1024 * 1024 <? input_size value false) then ret (Unexpected request_too_large) else
  if nonnull node && has_flag flag_hash_promoted n then table_assign node (promoted_hash n) key field value
  else packed_assign inside node key field value.

Definition hash_set (key field : bytes) (value : Value) : M (Database A) (Result Z) :=
  hash_assign (fun _ => false) key field (input_from value).
Definition hash_set_text (inside : Z -> bool) (key field value : bytes) : M (Database A) (Result Z) :=
  hash_assign inside key field (text_input value).

(** HSET of several fields. *)

(** The fields and their values, by twos. *)
Fixpoint by_twos (fields : list bytes) : list (bytes * bytes) :=
  match fields with
  | field :: value :: rest => (field, value) :: by_twos rest
  | _ => []
  end.

(** The loop over the fields: how many are new, and the largest; [None] is
    too large. *)
Fixpoint set_fields (t : Z) (fields : list (bytes * bytes)) (added largest : Z) : M (Database A) (option (Z * Z)) :=
  match fields with
  | [] => ret (Some (added, largest))
  | (field, value) :: fields =>
      if (64 * 1024 * 1024 <? len field) || (64 * 1024 * 1024 <? len value) then ret None else
      let! fresh := insert_or_assign t field (VString value) in
      set_fields t fields (added + (if fresh then 1 else 0)) (Z.max largest (len field + len value))
  end.

Definition pair_size (p : bytes * Value) : Z := body_size_text p.1 + input_size (input_from p.2) false.
Definition pairs_size (l : list (bytes * Value)) : Z := fold_left (fun bytes p => bytes + pair_size p) l 0.

(** The new node of a packed hash. *)
Definition fill_pairs (l : list (bytes * Value)) (used : Z) (n : Node) : Node :=
  set_hash_used used (set_hash_count (u32 (len l)) (copy_in 0 (concat (map (fun p => encode_body_text p.1 ++ write_element (input_from p.2) false) l)) n)).

(** What there is before the node is built: the table with all the fields,
    in its order. *)
Record prepared := mkPrepared {
  pr_added : Z;
  pr_largest : Z;
  pr_pairs : list (bytes * Value);
  pr_promoted : bool;
  pr_node : Z
}.

Definition prepare_fields (t old : Z) (key : bytes) (fields : list (bytes * bytes)) : M (Database A) (option prepared) :=
  let! db := Effects.get in
  let o := node_at db old in
  do! for_each (if old =? 0 then []
                else if has_flag flag_hash_promoted o then table_order (time_ db) (table_at (promoted_hash o) db)
                else unpack o) (emplace t) in
  let! r := set_fields t fields 0 0 in
  match r with
  | None => ret None
  | Some (added, largest) =>
      let! db := Effects.get in
      let l := table_order (time_ db) (table_at t db) in
      let used := pairs_size l in
      let promoted := (hash_packed_limit <? len l) || (hash_packed_byte_limit <? used) in
      do! when (old =? 0) maybe_rehash in
      let! fresh := create_node key type_hash (if promoted then 8 else u32 used) in
      ret (Some (mkPrepared added largest l promoted fresh))
  end.

Definition hash_set_texts (key : bytes) (fields : list bytes) : M (Database A) (Result Z) :=
  if negb (Z.even (len fields)) then ret (Unexpected wrong_argument_count) else
  let! old := find_writable key in
  let! db := Effects.get in
  if nonnull old && negb (bool_decide (node_type (node_at db old) = type_hash)) then ret (Unexpected wrong_type) else
  if bool_decide (fields = []) then ret (Ok 0) else
  let! t := make_hash in
  let! p := with_table t (prepare_fields t old key (by_twos fields)) in
  match p with
  | None => do! modify (delete_table t) in ret (Unexpected request_too_large)
  | Some p =>
      let records _ :=
        do! reserve_log (len key + pr_largest p + 64) in
        for_each (by_twos fields) (fun f => log op_hash_set [key; fst f; of_str "s"; snd f]) in
      if pr_promoted p then
        do! install old (pr_node p) (promote t (u32 (len (pr_pairs p)))) true records in
        ret (Ok (pr_added p))
      else
        do! with_table t (install old (pr_node p) (fill_pairs (pr_pairs p) (u32 (pairs_size (pr_pairs p)))) true records) in
        do! modify (delete_table t) in
        ret (Ok (pr_added p))
  end.

(** ** HGET *)

Definition view_of (value : Value) : ValueView :=
  match value with
  | VInteger n => mkView view_integer [] n
  | VString t => mkView view_string t 0
  end.

Definition hash_field (key field : bytes) : M (Database A) (Result (option ValueView)) :=
  let! node := find_active key in
  if node =? 0 then ret (Ok None) else
  let! db := Effects.get in
  let n := node_at db node in
  if negb (bool_decide (node_type n = type_hash)) then ret (Unexpected wrong_type) else
  if has_flag flag_hash_promoted n then
    ret (Ok (view_of <$> table_at (promoted_hash n) db !! field))
  else
    match hash_find n field with
    | None => ret (Ok None)
    | Some (element, _) =>
        let decoded := element_at (node_body n) element in
        ret (Ok (Some (if is_integer_element decoded then mkView view_integer [] (elem_integer decoded)
                       else mkView view_string (elem_text decoded) 0)))
    end.

Definition hash_get (key field : bytes) : M (Database A) (Result (option Value)) :=
  let! view := hash_field key field in
  ret match view with
      | Unexpected code => Unexpected code
      | Ok None => Ok None
      | Ok (Some v) =>
          if bool_decide (view_kind v = view_integer) then Ok (Some (VInteger (view_number v)))
          else Ok (Some (VString (view_text v)))
      end.

(** ** HDEL *)

(** The pair at [element] goes, and what follows moves up. *)
Definition remove_pair (element field_stride : Z) (n : Node) : Node :=
  let used := hash_used n in
  let pair_bytes := field_stride + size_at (node_body n) element in
  let offset := element - field_stride in
  let tail := used - offset - pair_bytes in
  let c := hash_count n in
  let n := if tail =? 0 then n else write_body offset (read_at (offset + pair_bytes) tail (node_body n)) n in
  set_hash_count (u32 (c - 1)) (set_hash_used (u32 (used - pair_bytes)) n).

Definition hash_del (key field : bytes) : M (Database A) (Result bool) :=
  let! node := find_writable key in
  if node =? 0 then ret (Ok false) else
  let! db := Effects.get in
  let n := node_at db node in
  if negb (bool_decide (node_type n = type_hash)) then ret (Unexpected wrong_type) else
  if has_flag flag_hash_promoted n then
    let t := promoted_hash n in
    let T := table_at t db in
    if bool_decide (T !! field = None) then ret (Ok false) else
    do! log op_hash_del [key; field] in
    let T := delete field T in
    do! modify (fun db => give_back (put_table t T db)) in
    do! modify (change_node node (set_count (u32 (Z.of_nat (size T))))) in
    do! modify bump_sequence in
    do! when (bool_decide (T = ∅)) (modify (erase_node node)) in
    ret (Ok true)
  else
    match hash_find n field with
    | None => ret (Ok false)
    | Some (element, field_stride) =>
        do! log op_hash_del [key; field] in
        do! modify (change_node node (remove_pair element field_stride)) in
        do! modify bump_sequence in
        do! when (hash_count n =? 1) (modify (erase_node node)) in
        ret (Ok true)
    end.

Definition hash_length (key : bytes) : M (Database A) (Result Z) :=
  let! node := find_active key in
  if node =? 0 then ret (Ok 0) else
  let! db := Effects.get in
  let n := node_at db node in
  if negb (bool_decide (node_type n = type_hash)) then ret (Unexpected wrong_type) else
  ret (Ok (if has_flag flag_hash_promoted n then Z.of_nat (size (table_at (promoted_hash n) db)) else hash_count n)).

(** ** Reading packed pairs *)

Definition pair_ok (p : bytes * Value) : Prop := len p.1 <= uint32_max /\ encodable p.2.

(** The parts of a pair. *)
Definition name_of (p : bytes * Value) : bytes := encode_body_text p.1.
Definition item_of (p : bytes * Value) : bytes := write_element (input_from p.2) false.

Lemma encode_pairs_cons p l : encode_pairs (p :: l) = name_of p ++ item_of p ++ encode_pairs l.
Proof. unfold encode_pairs, encode_pair, name_of, item_of. cbn [map concat]. by rewrite <- app_assoc. Qed.

Lemma encode_pairs_app l1 l2 : encode_pairs (l1 ++ l2) = encode_pairs l1 ++ encode_pairs l2.
Proof. unfold encode_pairs. by rewrite map_app, concat_app. Qed.

Lemma drop_len (a b : bytes) : drop (Z.to_nat (len a)) (a ++ b) = b.
Proof. unfold len. by rewrite Nat2Z.id, drop_app_length. Qed.

Lemma name_read (a rest : bytes) p : pair_ok p ->
  element_at (a ++ name_of p ++ rest) (len a) = mkElement kind_string p.1 0 /\
  size_at (a ++ name_of p ++ rest) (len a) = len (name_of p).
Proof.
  intros [Hf _]. unfold element_at, size_at, name_of. rewrite !drop_len.
  rewrite decode_text_body by exact Hf. split; [reflexivity|].
  destruct (element_body (text_input p.1) rest Hf) as (E & _).
  change (write_element (text_input p.1) false) with (encode_body_text p.1) in E. by rewrite E.
Qed.

Lemma item_read (a rest : bytes) p : pair_ok p ->
  element_to_value (element_at (a ++ item_of p ++ rest) (len a)) = p.2 /\
  size_at (a ++ item_of p ++ rest) (len a) = len (item_of p).
Proof.
  intros [_ Hv]. unfold element_at, size_at, item_of. rewrite !drop_len.
  assert (encodable (input_value (input_from p.2))) as Hv' by (by rewrite input_value_from).
  destruct (element_body (input_from p.2) rest Hv') as (-> & Hd & _). rewrite input_value_from in Hd. split; [|reflexivity].
  destruct (decode (write_element (input_from p.2) false ++ rest)) as [e|]; [|done]. cbn in *. congruence.
Qed.

(** One turn of the loops over the pairs. *)
Lemma pair_read (a rest : bytes) p : pair_ok p ->
  let body := a ++ name_of p ++ item_of p ++ rest in
  element_at body (len a) = mkElement kind_string p.1 0 /\ size_at body (len a) = len (name_of p) /\
  element_to_value (element_at body (len a + len (name_of p))) = p.2 /\
  size_at body (len a + len (name_of p)) = len (item_of p).
Proof.
  intros Hp body. destruct (name_read a (item_of p ++ rest) p Hp) as [E1 E2]. split; [exact E1|]. split; [exact E2|].
  assert (body = (a ++ name_of p) ++ item_of p ++ rest) as -> by (unfold body; by rewrite <- app_assoc).
  rewrite <- len_app. by apply item_read.
Qed.

Lemma scan_absent f l a rest : Forall pair_ok l -> (f ∉ l.*1) ->
  hash_scan (length l) f (a ++ encode_pairs l ++ rest) (len a) = None.
Proof.
  revert a. induction l as [|p l IH]; intros a Hl Hf; [reflexivity|]. apply Forall_cons in Hl as [Hp Hl].
  rewrite fmap_cons, not_elem_of_cons in Hf. destruct Hf as [Hne Hf]. rewrite encode_pairs_cons, <- !app_assoc.
  destruct (pair_read a (encode_pairs l ++ rest) p Hp) as (E1 & E2 & _ & E4). cbn [length hash_scan].
  rewrite E1, E2, E4. cbn [is_integer_element elem_kind negb elem_text andb]. rewrite bool_decide_false by congruence.
  specialize (IH (a ++ name_of p ++ item_of p) Hl Hf). rewrite !len_app, <- !app_assoc, Z.add_assoc in IH. exact IH.
Qed.

Lemma scan_found f v l1 l2 a rest : Forall pair_ok (l1 ++ (f, v) :: l2) -> (f ∉ l1.*1) ->
  hash_scan (length (l1 ++ (f, v) :: l2)) f (a ++ encode_pairs (l1 ++ (f, v) :: l2) ++ rest) (len a) =
  Some (len a + len (encode_pairs l1) + len (name_of (f, v)), len (name_of (f, v))).
Proof.
  revert a. induction l1 as [|p l IH]; intros a Hl Hf.
  - cbn [app] in *. apply Forall_cons in Hl as [Hp Hl]. rewrite encode_pairs_cons, <- !app_assoc.
    destruct (pair_read a (encode_pairs l2 ++ rest) _ Hp) as (E1 & E2 & _ & E4). cbn [length hash_scan].
    rewrite E1, E2. cbn [is_integer_element elem_kind negb elem_text andb fst]. rewrite bool_decide_true by reflexivity.
    change (len (encode_pairs [])) with 0. do 2 f_equal. lia.
  - change ((p :: l) ++ (f, v) :: l2) with (p :: (l ++ (f, v) :: l2)) in *.
    apply Forall_cons in Hl as [Hp Hl]. rewrite fmap_cons, not_elem_of_cons in Hf. destruct Hf as [Hne Hf].
    rewrite !encode_pairs_cons, <- !app_assoc.
    destruct (pair_read a (encode_pairs (l ++ (f, v) :: l2) ++ rest) p Hp) as (E1 & E2 & _ & E4). cbn [length hash_scan].
    rewrite E1, E2, E4. cbn [is_integer_element elem_kind negb elem_text andb]. rewrite bool_decide_false by congruence.
    specialize (IH (a ++ name_of p ++ item_of p) Hl Hf). rewrite !len_app, <- !app_assoc, Z.add_assoc in IH.
    rewrite IH, !len_app. do 2 f_equal. lia.
Qed.

Lemma unpack_pairs l a rest : Forall pair_ok l ->
  unpack_from (length l) (a ++ encode_pairs l ++ rest) (len a) = l.
Proof.
  revert a. induction l as [|p l IH]; intros a Hl; [reflexivity|]. apply Forall_cons in Hl as [Hp Hl].
  rewrite encode_pairs_cons, <- !app_assoc.
  destruct (pair_read a (encode_pairs l ++ rest) p Hp) as (E1 & E2 & E3 & E4). cbn [length unpack_from].
  rewrite E1, E2, E3, E4. cbn [elem_text]. rewrite <- surjective_pairing. f_equal.
  specialize (IH (a ++ name_of p ++ item_of p) Hl). rewrite !len_app, <- !app_assoc, Z.add_assoc in IH. exact IH.
Qed.

(** ** The word of a packed hash *)

Definition hash_word (c used : Z) : Z := c + used * 2 ^ 16.

Lemma word_parts n c used :
  count n = hash_word c used -> 0 <= c < 2 ^ 16 -> 0 <= used -> hash_count n = c /\ hash_used n = used.
Proof.
  intros E Hc Hu. unfold hash_count, hash_used, hash_word in *. rewrite E. change 65535 with (Z.ones 16).
  rewrite Z.land_ones, Z.shiftr_div_pow2 by lia. rewrite Z.mod_add, Z.div_add by lia.
  rewrite Z.mod_small, Z.div_small by lia. lia.
Qed.

Lemma count_parts n : 0 <= count n < 2 ^ 32 -> 0 <= hash_count n < 2 ^ 16 /\ 0 <= hash_used n < 2 ^ 16.
Proof.
  intros Hc. unfold hash_count, hash_used. change 65535 with (Z.ones 16). rewrite Z.land_ones, Z.shiftr_div_pow2 by lia.
  split; [apply Z.mod_pos_bound; lia|]. split; [apply Z.div_pos; lia|apply Z.div_lt_upper_bound; lia].
Qed.

Lemma set_count_word n c : 0 <= count n < 2 ^ 32 -> 0 <= c < 2 ^ 16 ->
  set_hash_count c n = set_count (hash_word c (hash_used n)) n.
Proof.
  intros Hn Hc. unfold set_hash_count, hash_word, hash_used. f_equal. change 65535 with (Z.ones 16).
  rewrite Z.land_ones, (Z.mod_small c) by lia. rewrite Z.lor_comm.
  assert (Z.land (count n) 4294901760 = Z.shiftl (Z.shiftr (count n) 16) 16) as ->; [|apply lor_shiftl_add; lia].
  change 4294901760 with (Z.shiftl (Z.ones 16) 16). apply Z.bits_inj'. intros i Hi. rewrite Z.land_spec.
  destruct (Z_lt_le_dec i 16).
  - rewrite !Z.shiftl_spec_low by lia. apply andb_false_r.
  - rewrite !Z.shiftl_spec_high, Z.shiftr_spec by lia. replace (i - 16 + 16) with i by lia.
    destruct (Z_lt_le_dec i 32); [rewrite Z.ones_spec_low by lia; apply andb_true_r|].
    rewrite Z.ones_spec_high by lia. rewrite andb_false_r. symmetry.
    rewrite <- (Z.mod_small (count n) (2 ^ 32)) by lia. apply Z.mod_pow2_bits_high. lia.
Qed.

Lemma set_used_word n used : 0 <= used < 2 ^ 16 -> set_hash_used used n = set_count (hash_word (hash_count n) used) n.
Proof.
  intros Hu. unfold set_hash_used, hash_word, hash_count. f_equal. change 65535 with (Z.ones 16).
  rewrite u32_small by (rewrite Z.shiftl_mul_pow2 by lia; lia). apply lor_shiftl_add; [lia|].
  rewrite Z.land_ones by lia. apply Z.mod_pos_bound. lia.
Qed.

Lemma hash_word_range c used : 0 <= c < 2 ^ 16 -> 0 <= used < 2 ^ 16 -> 0 <= hash_word c used < 2 ^ 32.
Proof. unfold hash_word. lia. Qed.

Lemma edited_word n n' b c t pairs used :
  edited n n' b c t -> 0 <= pairs < 2 ^ 16 -> 0 <= used < 2 ^ 16 ->
  edited n (set_hash_word pairs used n') b (hash_word pairs used) t /\
  edited n (set_hash_count pairs (set_hash_used used n')) b (hash_word pairs used) t.
Proof.
  intros He Hp Hu. pose proof (nw_count _ (ed_wf _ _ _ _ _ He)) as Hn. destruct (count_parts n' Hn) as [Hc' Hu'].
  assert (forall m c0 u0, count m = hash_word c0 u0 -> 0 <= c0 < 2 ^ 16 -> 0 <= u0 -> hash_count m = c0 /\ hash_used m = u0) as Hparts
    by (intros; by apply word_parts).
  split.
  - unfold set_hash_word. rewrite set_count_word by lia. rewrite set_used_word by lia.
    destruct (Hparts (set_count (hash_word pairs (hash_used n')) n') pairs (hash_used n')) as [-> _]; [reflexivity|lia|lia|].
    eapply edited_count; [eapply edited_count; [exact He|]|]; by apply hash_word_range.
  - rewrite set_used_word by lia. rewrite set_count_word by (try lia; cbn; by apply hash_word_range).
    destruct (Hparts (set_count (hash_word (hash_count n') used) n') (hash_count n') used) as [_ ->]; [reflexivity|lia|lia|].
    eapply edited_count; [eapply edited_count; [exact He|]|]; by apply hash_word_range.
Qed.

(** ** Packed nodes *)

Record packed_node (n : Node) (l : list (bytes * Value)) : Prop := {
  pn_wf : node_wf n;
  pn_type : node_type n = type_hash;
  pn_plain : has_flag flag_hash_promoted n = false;
  pn_used : hash_used n = len (encode_pairs l);
  pn_count : hash_count n = len l;
  pn_len : len (node_body n) = node_body_capacity n;
  pn_room : len (encode_pairs l) <= node_body_capacity n;
  pn_body : exists rest, node_body n = encode_pairs l ++ rest;
  pn_bytes : len (encode_pairs l) <= hash_packed_byte_limit;
  pn_pairs : len l <= hash_packed_limit;
  pn_fields : NoDup l.*1;
  pn_values : Forall pair_ok l
}.

Lemma packed_of T n h : node_wf n -> holds T n (DHash h) -> has_flag flag_hash_promoted n = false ->
  exists l, packed_node n l /\ h = list_to_map l.
Proof.
  intros Hw (Et & Hh) Hp. rewrite Hp in Hh. destruct Hh as (l & [H1 H2 [H3 H3'] [H4 H4'] H5 H6] & ->). exists l. split; [|reflexivity].
  destruct (capacity_eq n Hw) as [Hc _]. constructor; try done; [lia| |lia].
  exists (drop (Z.to_nat (hash_used n)) (node_body n)). rewrite <- H2. unfold read_at. symmetry. apply take_drop.
Qed.

Lemma find_absent n l f : packed_node n l -> (f ∉ l.*1) -> hash_find n f = None.
Proof.
  intros Hn Hf. destruct (pn_body _ _ Hn) as [rest Eb]. unfold hash_find. rewrite (pn_count _ _ Hn), Eb. unfold len at 1.
  rewrite Nat2Z.id. apply (scan_absent f l [] rest (pn_values _ _ Hn) Hf).
Qed.

Lemma find_present n l1 f v l2 : packed_node n (l1 ++ (f, v) :: l2) ->
  let off := len (encode_pairs l1) + len (name_of (f, v)) in
  hash_find n f = Some (off, len (name_of (f, v))) /\ size_at (node_body n) off = len (item_of (f, v)) /\
  element_to_value (element_at (node_body n) off) = v.
Proof.
  intros Hn off. destruct (pn_body _ _ Hn) as [rest Eb]. pose proof (pn_values _ _ Hn) as Hv. pose proof (pn_fields _ _ Hn) as Hd.
  assert (f ∉ l1.*1) as Hf.
  { rewrite fmap_app, fmap_cons in Hd. apply NoDup_app in Hd as (_ & Hd & _). intros Hi. apply (Hd f Hi). left. }
  split.
  - unfold hash_find. rewrite (pn_count _ _ Hn), Eb. unfold len at 1. rewrite Nat2Z.id.
    apply (scan_found f v l1 l2 [] rest Hv Hf).
  - rewrite Eb, encode_pairs_app, encode_pairs_cons, <- !app_assoc. apply Forall_app in Hv as [_ Hv]. apply Forall_cons in Hv as [Hv _].
    destruct (pair_read (encode_pairs l1) (encode_pairs l2 ++ rest) _ Hv) as (_ & _ & E3 & E4). split; [exact E4|exact E3].
Qed.

Lemma unpack_node n l : packed_node n l -> unpack n = l.
Proof.
  intros Hn. destruct (pn_body _ _ Hn) as [rest Eb]. unfold unpack. rewrite (pn_count _ _ Hn), Eb. unfold len at 1.
  rewrite Nat2Z.id. apply (unpack_pairs l [] rest (pn_values _ _ Hn)).
Qed.

(** ** Writing packed pairs *)

Lemma write_at_nil off b : 0 <= off <= len b -> write_at off [] b = b.
Proof. intros Ho. unfold write_at. cbn [length app]. rewrite Nat.add_0_r. apply take_drop. Qed.

Lemma edited_copy n n' b c t off d :
  edited n n' b c t -> 0 <= off -> off + len d <= node_body_capacity n -> len b = node_body_capacity n ->
  edited n (copy_in off d n') (write_at off d b) c t.
Proof.
  intros He Ho Hd Hb. unfold copy_in. destruct (bool_decide_reflect (d = [])) as [->|_]; [|by apply edited_write].
  rewrite write_at_nil by (pose proof (len_nonneg (@nil byte)); change (len []) with 0 in *; lia). exact He.
Qed.

Lemma read_extended off d b x : 0 <= off -> off + len d <= len b -> x = off + len d ->
  read_at 0 x (write_at off d b) = read_at 0 off b ++ d.
Proof.
  intros Ho Hd ->. pose proof (len_nonneg d). rewrite read_at_app by (rewrite ?len_write_at; lia). rewrite Z.add_0_l.
  rewrite read_write_same by lia. f_equal. apply read_write_other; lia.
Qed.

Lemma read_prefix a rest : read_at 0 (len a) (a ++ rest) = a.
Proof. by apply read_at_prefix. Qed.

Lemma read_middle a m rest off k : off = len a -> k = len m -> read_at off k (a ++ m ++ rest) = m.
Proof. intros -> ->. unfold read_at. rewrite drop_len. unfold len. rewrite Nat2Z.id. apply take_app_length. Qed.

(** Two parts of a body kept and one between them replaced. *)
Lemma edited_replace_into n m a old b rest value e :
  edited n m (node_body n) e type_hash -> len (node_body n) = node_body_capacity n ->
  len a + len (write_element value false) + len b <= node_body_capacity n ->
  forall o, node_body o = a ++ old ++ b ++ rest -> hash_used o = len a + len old + len b ->
  exists b', edited n (replace_into o (len a) (len old) (len (write_element value false)) value m) b' e type_hash /\
    read_at 0 (len a + len (write_element value false) + len b) b' = a ++ write_element value false ++ b /\
    len b' = node_body_capacity n.
Proof.
  intros He Hl Hroom o Eo Eu. set (d := write_element value false) in *. pose proof (len_nonneg a). pose proof (len_nonneg b).
  pose proof (len_nonneg d). pose proof (len_nonneg old). unfold replace_into. rewrite Eo, Eu. fold d.
  rewrite read_prefix. replace (len a + len old + len b - len a - len old) with (len b) by lia.
  rewrite (app_assoc a), (read_middle (a ++ old) b rest) by (rewrite ?len_app; lia).
  apply (edited_copy _ _ _ _ _ 0 a) in He; [|lia|lia|exact Hl].
  set (b1 := write_at 0 a (node_body n)) in *.
  assert (len b1 = node_body_capacity n) as L1 by (unfold b1; rewrite len_write_at; lia).
  assert (read_at 0 (len a) b1 = a) as R1 by (unfold b1; apply read_write_same; lia).
  eapply (edited_write _ _ _ _ _ (len a) d) in He; [|lia|lia]. set (b2 := write_at (len a) d b1) in *.
  assert (len b2 = node_body_capacity n) as L2 by (unfold b2; rewrite len_write_at; lia).
  assert (read_at 0 (len a + len d) b2 = a ++ d) as R2 by (unfold b2; rewrite read_extended by lia; by rewrite R1).
  eapply (edited_copy _ _ _ _ _ (len a + len d) b) in He; [|lia|lia|exact L2].
  eexists. split; [exact He|]. split; [|rewrite len_write_at; lia].
  rewrite read_extended by lia. by rewrite R2, app_assoc.
Qed.

Lemma edited_replace n a old b rest value :
  node_wf n -> node_body n = a ++ old ++ b ++ rest -> len (node_body n) = node_body_capacity n ->
  hash_used n = len a + len old + len b -> len a + len (write_element value false) + len b <= node_body_capacity n ->
  exists b', edited n (replace_in_place (len a) (len old) (len (write_element value false)) value n) b' (count n) (node_type n) /\
    read_at 0 (len a + len (write_element value false) + len b) b' = a ++ write_element value false ++ b.
Proof.
  intros Hw Eb Hl Eu Hroom. set (d := write_element value false) in *. pose proof (len_nonneg a). pose proof (len_nonneg b).
  pose proof (len_nonneg d). pose proof (len_nonneg old). pose proof (edited_refl n Hw) as He.
  unfold replace_in_place. fold d. rewrite Eu. replace (len a + len old + len b - len a - len old) with (len b) by lia.
  assert (read_at (len a + len old) (len b) (node_body n) = b) as Rb.
  { rewrite Eb, (app_assoc a). apply read_middle; rewrite ?len_app; lia. }
  rewrite Rb.
  assert (exists n1 b1, (if negb (len b =? 0) && negb (len d =? len old) then write_body (len a + len d) b n else n) = n1 /\
    edited n n1 b1 (count n) (node_type n) /\ len b1 = node_body_capacity n /\ read_at 0 (len a) b1 = a /\
    read_at (len a + len d) (len b) b1 = b) as (n1 & b1 & -> & He1 & L1 & R1 & R2).
  { assert (read_at 0 (len a) (node_body n) = a) as Ra by (rewrite Eb; apply read_prefix).
    destruct (Z.eqb_spec (len b) 0) as [E0|_]; cbn [negb andb].
    { exists n, (node_body n). split; [reflexivity|]. split; [exact He|]. split; [exact Hl|]. split; [exact Ra|].
      rewrite E0, read_at_0. symmetry. apply length_zero_iff_nil. unfold len in E0. lia. }
    destruct (Z.eqb_spec (len d) (len old)) as [E1|_]; cbn [negb].
    { exists n, (node_body n). split; [reflexivity|]. split; [exact He|]. split; [exact Hl|]. split; [exact Ra|]. by rewrite E1. }
    eexists _, _. split; [reflexivity|]. split; [eapply edited_write; [exact He|lia|lia]|]. split; [rewrite len_write_at; lia|].
    split; [rewrite read_write_other by lia; exact Ra|apply read_write_same; lia]. }
  eexists. split; [eapply (edited_write _ _ _ _ _ (len a) d); [exact He1|lia|lia]|].
  rewrite read_at_app by (rewrite ?len_write_at; lia). rewrite read_extended by lia. rewrite R1, <- app_assoc. do 2 f_equal.
  rewrite Z.add_0_l, read_write_other by lia. exact R2.
Qed.

(** A packed node made from another. *)
Lemma packed_holds T n n' b l :
  edited n n' b (hash_word (len l) (len (encode_pairs l))) type_hash -> has_flag flag_hash_promoted n = false ->
  len (encode_pairs l) <= node_body_capacity n -> read_at 0 (len (encode_pairs l)) b = encode_pairs l ->
  len (encode_pairs l) <= hash_packed_byte_limit -> len l <= hash_packed_limit -> NoDup l.*1 -> Forall pair_ok l ->
  holds T n' (DHash (list_to_map l)).
Proof.
  intros [Hw Ek Es Ef Ec Eb Ect Et] Hp Hroom Hread Hb Hc Hd Hv. pose proof (len_nonneg l). pose proof (len_nonneg (encode_pairs l)).
  unfold hash_packed_byte_limit, hash_packed_limit in *.
  destruct (word_parts n' _ _ Ect) as [Ecn Eun]; [lia|lia|]. split; [exact Et|].
  assert (has_flag flag_hash_promoted n' = false) as -> by (unfold has_flag in *; by rewrite Ef). exists l. split; [|reflexivity].
  constructor; rewrite ?Ecn, ?Eun, ?Ec, ?Eb; try done.
Qed.

(** ** Pairs and maps *)

Lemma field_split (l : list (bytes * Value)) f : NoDup l.*1 ->
  (f ∉ l.*1) /\ (list_to_map l : gmap bytes Value) !! f = None \/
  exists l1 v l2, l = l1 ++ (f, v) :: l2 /\ (list_to_map l : gmap bytes Value) !! f = Some v.
Proof.
  intros Hd. destruct (decide (f ∈ l.*1)) as [Hi|Hi]; [right|left; split; [exact Hi|by apply not_elem_of_list_to_map_1]].
  apply list_elem_of_fmap in Hi as ([f' v] & -> & Hi). pose proof (elem_of_list_to_map_1 l _ v Hd Hi) as Em.
  apply list_elem_of_split in Hi as (l1 & l2 & ->). exists l1, v, l2. split; [reflexivity|exact Em].
Qed.

Lemma middle_perm (l1 : list (bytes * Value)) p l2 : l1 ++ p :: l2 ≡ₚ p :: (l1 ++ l2).
Proof. symmetry. apply Permutation_middle. Qed.

Lemma middle_nodup (l1 : list (bytes * Value)) f v l2 : NoDup (l1 ++ (f, v) :: l2).*1 ->
  (f ∉ (l1 ++ l2).*1) /\ NoDup (l1 ++ l2).*1 /\ forall v', NoDup (l1 ++ (f, v') :: l2).*1.
Proof.
  intros Hd. assert (NoDup (f :: (l1 ++ l2).*1)) as Hd2.
  { change (f :: (l1 ++ l2).*1) with (((f, v) :: (l1 ++ l2)).*1). by rewrite <- middle_perm. }
  apply NoDup_cons in Hd2 as [H1 H2]. split; [exact H1|]. split; [exact H2|].
  intros v'. rewrite middle_perm. by constructor.
Qed.

Lemma map_replace (l1 : list (bytes * Value)) f v v' l2 : NoDup (l1 ++ (f, v) :: l2).*1 ->
  (list_to_map (l1 ++ (f, v') :: l2) : gmap bytes Value) = <[f := v']> (list_to_map (l1 ++ (f, v) :: l2)).
Proof.
  intros Hd. destruct (middle_nodup _ _ _ _ Hd) as (_ & _ & Hd').
  rewrite (list_to_map_proper _ _ (Hd' v') (middle_perm l1 (f, v') l2)), (list_to_map_proper _ _ Hd (middle_perm l1 (f, v) l2)).
  by rewrite !list_to_map_cons, insert_insert_eq.
Qed.

Lemma map_remove (l1 : list (bytes * Value)) f v l2 : NoDup (l1 ++ (f, v) :: l2).*1 ->
  (list_to_map (l1 ++ l2) : gmap bytes Value) = delete f (list_to_map (l1 ++ (f, v) :: l2)).
Proof.
  intros Hd. destruct (middle_nodup _ _ _ _ Hd) as (Hf & _ & _).
  rewrite (list_to_map_proper _ _ Hd (middle_perm l1 (f, v) l2)), list_to_map_cons, delete_insert_eq, delete_id; [done|].
  by apply not_elem_of_list_to_map_1.
Qed.

Lemma map_add (l : list (bytes * Value)) f v : (f ∉ l.*1) -> NoDup l.*1 ->
  (list_to_map (l ++ [(f, v)]) : gmap bytes Value) = <[f := v]> (list_to_map l) /\ NoDup (l ++ [(f, v)]).*1.
Proof.
  intros Hf Hd. assert (NoDup ((f, v) :: l).*1) as Hd2 by (by constructor).
  assert ((f, v) :: l ≡ₚ l ++ [(f, v)]) as Hp by apply Permutation_cons_append. split; [|by rewrite <- Hp].
  rewrite <- (list_to_map_proper _ _ Hd2 Hp). by rewrite list_to_map_cons.
Qed.

(** ** Assigning in a packed hash *)

Lemma write_input value b : write_element (input_from (input_value value)) b = write_element value b.
Proof. by destruct value as [[] n s]. Qed.

Lemma item_input f value : item_of (f, input_value value) = write_element value false.
Proof. apply write_input. Qed.

(** What there is before: no node, or a packed one with the pairs [l]. *)
Definition assign_from (n : Node) (f : bytes) (used : Z) (found : option (Z * Z)) (old_bytes : Z) (l : list (bytes * Value)) : Prop :=
  l = [] /\ used = 0 /\ found = None /\ old_bytes = 0 \/
  packed_node n l /\ used = hash_used n /\ found = hash_find n f /\
  old_bytes = from_option (fun p => size_at (node_body n) (fst p)) 0 found.

(** And after: the pairs [l'], and how the computed numbers and the writes
    come to them. *)
Record assign_plan (n : Node) (f : bytes) (value : ElementInput) (used : Z) (found : option (Z * Z)) (old_bytes : Z)
    (l l' : list (bytes * Value)) : Prop := {
  ap_map : (list_to_map l' : gmap bytes Value) = <[f := input_value value]> (list_to_map l);
  ap_fields : NoDup l'.*1;
  ap_values : Forall pair_ok l';
  ap_old : 0 <= old_bytes;
  ap_found : is_Some found <-> is_Some ((list_to_map l : gmap bytes Value) !! f);
  ap_used : used - old_bytes + input_size value false + (if bool_decide (is_Some found) then 0 else body_size_text f) =
    len (encode_pairs l');
  ap_count : len l + (if bool_decide (is_Some found) then 0 else 1) = len l';
  ap_into base m e :
    edited base m (node_body base) e type_hash -> len (node_body base) = node_body_capacity base ->
    len (encode_pairs l') <= node_body_capacity base ->
    exists b, edited base (assign_into n used found old_bytes (input_size value false) f value m) b e type_hash /\
      read_at 0 (len (encode_pairs l')) b = encode_pairs l';
  ap_in_place : packed_node n l -> len (encode_pairs l') <= node_body_capacity n ->
    exists b, edited n (assign_in_place used found old_bytes (input_size value false) f value n) b (count n) type_hash /\
      read_at 0 (len (encode_pairs l')) b = encode_pairs l'
}.

Lemma pair_sizes f value : len f <= uint32_max -> encodable (input_value value) ->
  len (write_element value false) = input_size value false /\ len (encode_body_text f) = body_size_text f.
Proof.
  intros Hf Hv. destruct (element_body value [] Hv) as (_ & _ & E1).
  destruct (element_body (text_input f) [] Hf) as (_ & _ & E2). split; [exact E1|exact E2].
Qed.

Lemma plan_replace n f value v l1 l2 :
  packed_node n (l1 ++ (f, v) :: l2) -> len f <= uint32_max -> encodable (input_value value) ->
  let l := l1 ++ (f, v) :: l2 in
  assign_plan n f value (hash_used n) (hash_find n f)
    (from_option (fun p => size_at (node_body n) (fst p)) 0 (hash_find n f)) l (l1 ++ (f, input_value value) :: l2).
Proof.
  intros Hn Hf Hv l. destruct (pair_sizes f value Hf Hv) as [Ev Ef]. destruct (find_present _ _ _ _ _ Hn) as (Efind & Esz & _).
  rewrite Efind. cbn [from_option fst]. rewrite Esz.
  pose proof (pn_fields _ _ Hn) as Hd. destruct (middle_nodup _ _ _ _ Hd) as (_ & _ & Hd').
  pose proof (pn_values _ _ Hn) as Hval. apply Forall_app in Hval as [Hv1 Hv2]. apply Forall_cons in Hv2 as [_ Hv2].
  assert (forall x, encode_pairs (l1 ++ (f, x) :: l2) =
    (encode_pairs l1 ++ name_of (f, v)) ++ item_of (f, x) ++ encode_pairs l2) as Eenc.
  { intros x. rewrite encode_pairs_app, encode_pairs_cons, <- !app_assoc. reflexivity. }
  set (a := encode_pairs l1 ++ name_of (f, v)) in *. set (b := encode_pairs l2) in *.
  assert (len (encode_pairs (l1 ++ (f, input_value value) :: l2)) = len a + len (write_element value false) + len b) as Elen.
  { rewrite Eenc, item_input, !len_app. lia. }
  assert (hash_used n = len a + len (item_of (f, v)) + len b) as Eu by (rewrite (pn_used _ _ Hn), Eenc, !len_app; lia).
  destruct (pn_body _ _ Hn) as [rest Eb]. rewrite Eenc, <- !app_assoc in Eb.
  rewrite <- len_app. fold a.
  constructor.
  - by apply map_replace.
  - apply Hd'.
  - apply Forall_app. split; [exact Hv1|]. constructor; [by split|exact Hv2].
  - apply len_nonneg.
  - split; [|by eexists]. intros _. destruct (field_split l f Hd) as [[Hno _]|(? & ? & ? & _ & ->)]; [|by eexists].
    destruct Hno. unfold l. rewrite fmap_app, fmap_cons. apply elem_of_app. right. left.
  - rewrite bool_decide_true by (by eexists). rewrite Elen, Ev, Eu. lia.
  - rewrite bool_decide_true by (by eexists). unfold l. rewrite !len_app, !len_cons. lia.
  - intros base m e He Hl Hroom. cbn [assign_into]. rewrite <- Ev.
    destruct (edited_replace_into base m a (item_of (f, v)) b rest value e He Hl ltac:(lia) n Eb Eu) as (b' & He' & Hr & _).
    exists b'. split; [exact He'|]. rewrite Elen, Hr. by rewrite Eenc, item_input.
  - intros _ Hroom. cbn [assign_in_place]. rewrite <- Ev.
    destruct (edited_replace n a (item_of (f, v)) b rest value (pn_wf _ _ Hn) Eb (pn_len _ _ Hn) Eu ltac:(lia)) as (b' & He' & Hr).
    rewrite (pn_type _ _ Hn) in He'. exists b'. split; [exact He'|]. rewrite Elen, Hr. by rewrite Eenc, item_input.
Qed.

Lemma edited_add base m b e used f value l :
  edited base m b e type_hash -> len b = node_body_capacity base -> used = len (encode_pairs l) ->
  read_at 0 used b = encode_pairs l -> len (encode_pairs (l ++ [(f, input_value value)])) <= node_body_capacity base ->
  exists b', edited base (add_pair used f value m) b' e type_hash /\
    read_at 0 (len (encode_pairs (l ++ [(f, input_value value)]))) b' = encode_pairs (l ++ [(f, input_value value)]).
Proof.
  intros He Hl -> Hr Hroom. pose proof (len_nonneg (encode_pairs l)).
  assert (encode_pairs (l ++ [(f, input_value value)]) = encode_pairs l ++ encode_body_text f ++ write_element value false) as Eenc.
  { rewrite encode_pairs_app. f_equal. rewrite encode_pairs_cons, item_input. cbn. by rewrite !app_nil_r. }
  rewrite Eenc in *. rewrite len_app in *. set (d := encode_body_text f ++ write_element value false) in *.
  pose proof (len_nonneg d). eexists. split; [eapply edited_write; [exact He|lia|fold d; lia]|]. fold d.
  rewrite read_extended by lia. by rewrite Hr.
Qed.

Lemma plan_add n f value used l :
  (f ∉ l.*1) -> NoDup l.*1 -> Forall pair_ok l -> used = len (encode_pairs l) -> len f <= uint32_max -> encodable (input_value value) ->
  (used <> 0 -> read_at 0 used (node_body n) = encode_pairs l) ->
  assign_plan n f value used None 0 l (l ++ [(f, input_value value)]).
Proof.
  intros Hno Hd Hval -> Hf Hv Hread. destruct (pair_sizes f value Hf Hv) as [Ev Ef]. destruct (map_add l f (input_value value) Hno Hd) as [Em Hd'].
  pose proof (len_nonneg (encode_pairs l)). constructor.
  - exact Em.
  - exact Hd'.
  - apply Forall_app. split; [exact Hval|]. constructor; [by split|constructor].
  - done.
  - rewrite not_elem_of_list_to_map_1 by exact Hno. split; by intros [].
  - rewrite bool_decide_false by (by intros []). rewrite encode_pairs_app, len_app, encode_pairs_cons, !len_app, item_input, Ev.
    unfold name_of. cbn [fst]. rewrite Ef. change (len (encode_pairs [])) with 0. lia.
  - rewrite bool_decide_false by (by intros []). rewrite len_app. done.
  - intros base m e He Hl Hroom. cbn [assign_into]. rewrite encode_pairs_app, len_app in Hroom.
    pose proof (len_nonneg (encode_pairs [(f, input_value value)])).
    destruct (Z.eqb_spec (len (encode_pairs l)) 0) as [E0|Hne].
    + eapply edited_add; [exact He|exact Hl|reflexivity| |by rewrite encode_pairs_app, len_app].
      rewrite E0, read_at_0. symmetry. apply length_zero_iff_nil. unfold len in E0. lia.
    + rewrite (Hread Hne). eapply edited_add; [eapply edited_copy; [exact He|lia|lia|exact Hl]|rewrite len_write_at; lia|reflexivity| |by rewrite encode_pairs_app, len_app].
      apply read_write_same; lia.
  - intros Hn Hroom. cbn [assign_in_place]. destruct (pn_body _ _ Hn) as [rest Eb]. pose proof (edited_refl n (pn_wf _ _ Hn)) as He.
    rewrite (pn_type _ _ Hn) in He. eapply edited_add; [exact He|exact (pn_len _ _ Hn)|reflexivity| |exact Hroom].
    rewrite Eb. apply read_prefix.
Qed.

Lemma assign_plan_of n f value used found old_bytes l :
  assign_from n f used found old_bytes l -> len f <= uint32_max -> encodable (input_value value) ->
  exists l', assign_plan n f value used found old_bytes l l'.
Proof.
  intros [(-> & -> & -> & ->)|(Hn & -> & Ef & Eo)] Hf Hv.
  - eexists. apply plan_add; try done; [apply not_elem_of_nil|constructor].
  - destruct (field_split l f (pn_fields _ _ Hn)) as [[Hno _]|(l1 & v & l2 & -> & _)].
    + rewrite (find_absent _ _ _ Hn Hno) in Ef. subst found. cbn in Eo. subst old_bytes. eexists.
      apply plan_add; try done; [apply (pn_fields _ _ Hn)|apply (pn_values _ _ Hn)|apply (pn_used _ _ Hn)|].
      intros _. destruct (pn_body _ _ Hn) as [rest ->]. rewrite (pn_used _ _ Hn). apply read_prefix.
    + subst found old_bytes. eexists. by apply plan_replace.
Qed.

(** ** Steps on tables and memory *)

Lemma asked_wp {L} (db0 db : Database A) rs idx order K R (Q : unit -> Database A -> Prop) E :
  reached_with L db0 rs idx order K R db ->
  (forall db', reached_with L db0 rs idx order K R db' -> same_data db db' -> Q tt db') ->
  (forall e db', reached_with L db0 rs idx order K R db' -> same_data db db' -> E e db') ->
  wp container Q E db.
Proof.
  intros Hr HQ HE. pose proof Hr as [HI HR Er _ _]. pose proof HI as [Hc _].
  assert (forall a', al_ok a' -> al_live a' = al_live (alloc_ db) -> al_taken a' = al_taken (alloc_ db) ->
    reached_with L db0 rs idx order K R (put_alloc a' db)) as Hput.
  { intros a' H1 H2 H3. eapply reached_step; [exact Hr|by apply alloc_kept_inv|exact HR|exact Er|reflexivity]. }
  apply on_alloc_wp. eapply wp_mono; [apply (al_container_spec _ (si_alloc _ _ _ _ _ Hc))|..].
  - intros [] a' (H1 & H2 & H3). apply HQ; [by apply Hput|]. split; [reflexivity|]. split; [reflexivity|]. split; reflexivity.
  - intros e a' (_ & H1 & H2 & H3). apply HE; [by apply Hput|]. split; [reflexivity|]. split; [reflexivity|]. split; reflexivity.
Qed.

Lemma reached_give_back {L} (db0 db : Database A) rs idx order K R :
  reached_with L db0 rs idx order K R db -> reached_with L db0 rs idx order K R (give_back db).
Proof.
  intros Hr. pose proof Hr as [HI HR Er _ _]. pose proof HI as [Hc _].
  destruct (al_return_spec _ (si_alloc _ _ _ _ _ Hc)) as (H1 & H2 & H3).
  eapply reached_step; [exact Hr|by apply alloc_kept_inv|exact HR|exact Er|reflexivity].
Qed.

Lemma table_at_lookup (db : Database A) t T : tables_ db !! t = Some T -> table_at t db = T.
Proof. intros E. unfold table_at. by rewrite E. Qed.

(** A change of tables that no node in the keyspace points to. *)
Lemma represents_tables (db db' : Database A) idx K :
  represents db idx K -> heap_ db' = heap_ db -> exp_ db' = exp_ db ->
  (forall a n t, heap_ db !! a = Some n -> table_of n = Some t -> tables_ db' !! t = tables_ db !! t) -> represents db' idx K.
Proof.
  intros HR Eh Ee Ht k. specialize (HR k). destruct (idx !! k) as [a|]; [|exact HR]. destruct HR as (e & Ek & Hea).
  exists e. split; [exact Ek|]. eapply entry_frame; [exact Hea|by rewrite Eh|by rewrite Ee|]. intros n t. apply Ht.
Qed.

Lemma recency_heap (db db' : Database A) order : heap_ db' = heap_ db -> recency db' order = recency db order.
Proof. intros Eh. apply recency_ext. intros b _. unfold key_at, node_at. by rewrite Eh. Qed.

Lemma make_hash_wp (db0 db : Database A) rs idx order K R (Q : Z -> Database A -> Prop) E :
  reached db0 rs idx order K R db ->
  (forall t db', reached_with {[t]} db0 rs idx order K R db' -> 0 < t < 2 ^ 64 -> tables_ db !! t = None ->
     heap_ db' = heap_ db -> tables_ db' = <[t := ∅]> (tables_ db) -> time_ db' = time_ db -> Q t db') ->
  (forall e db', reached db0 rs idx order K R db' -> E e db') ->
  wp make_hash Q E db.
Proof.
  intros Hr HQ HE. pose proof Hr as [HI HR Er _ _]. pose proof HI as [Hc He]. unfold make_hash. wp_steps.
  apply on_alloc_wp. eapply wp_mono; [apply (al_take_spec sizeof_HashTable _ (si_alloc _ _ _ _ _ Hc)); vm_compute; discriminate|..].
  2:{ intros e a' (_ & H1 & H2 & H3). apply HE. eapply reached_step; [exact Hr|by apply alloc_kept_inv|exact HR|exact Er|reflexivity]. }
  intros t a1 (Hok1 & Ht & Hnone & Etk1 & El1). wp_steps. apply on_alloc_wp. cbn [alloc_ put_alloc].
  eapply wp_mono; [apply (al_container_spec _ Hok1)|..].
  - intros [] a2 (Hok2 & El2 & Etk2). wp_steps.
    assert (tables_ db !! t = None) as Etn.
    { rewrite (si_taken _ _ _ _ _ Hc), lookup_fmap, fmap_None in Hnone. exact Hnone. }
    apply (HQ t); [|exact Ht|exact Etn|reflexivity|reflexivity|reflexivity].
    eapply reached_step; [exact Hr| | |exact Er|reflexivity].
    + rewrite <- (union_empty_r_L {[t]}). split.
      * apply (new_table_core db _ _ _ _ Hc t ∅ a2); [exact Hok2|exact Hnone|congruence|congruence].
      * eapply expiry_frame; [exact He|reflexivity..|apply He|auto].
    + eapply represents_tables; [exact HR|reflexivity|reflexivity|]. intros a n u En Eu. cbn.
      rewrite lookup_insert_ne; [done|]. intros <-. destruct (si_table _ _ _ _ _ Hc a n t En Eu) as [[? ?] _]. congruence.
  - intros e a2 (_ & Hok2 & El2 & Etk2). wp_steps. apply HE.
    destruct (al_give_spec t sizeof_HashTable a2 Hok2) as (Hok3 & Etk3 & El3).
    { by rewrite Etk2, Etk1, lookup_insert_eq. }
    eapply reached_step; [exact Hr|eapply (alloc_kept_inv db); [exact HI|exact Hok3|..]|exact HR|exact Er|reflexivity].
    + cbn. congruence.
    + cbn. rewrite Etk3, Etk2, Etk1. by rewrite delete_insert_id.
Qed.

(** The table held changes. *)
Lemma held_table (db0 db : Database A) rs idx order K R t T T' :
  reached_with {[t]} db0 rs idx order K R db -> tables_ db !! t = Some T ->
  reached_with {[t]} db0 rs idx order K R (put_table t T' db).
Proof.
  intros Hr Et. pose proof Hr as [HI HR Er _ _]. pose proof HI as [Hc He].
  eapply reached_step; [exact Hr| | |exact Er|reflexivity].
  - split; [by apply (change_table_core db _ _ _ _ Hc t T (fun _ => T'))|].
    eapply expiry_frame; [exact He|reflexivity..|apply He|auto].
  - eapply represents_tables; [exact HR|reflexivity|reflexivity|]. intros a n u En Eu. cbn.
    rewrite lookup_insert_ne; [done|]. intros <-. destruct (si_table _ _ _ _ _ Hc a n t En Eu) as [_ []]. by apply elem_of_singleton.
Qed.

(** Giving it up. *)
Lemma drop_table_inv (db : Database A) idx order K t :
  store_inv db idx order ∅ {[t]} -> represents db idx K ->
  store_inv (delete_table t db) idx order ∅ ∅ /\ represents (delete_table t db) idx K.
Proof.
  intros HI HR. pose proof HI as [Hc He]. split.
  - split; [|eapply expiry_frame; [exact He|reflexivity..|apply He|auto]].
    pose proof (drop_table_core db _ _ _ _ Hc t (elem_of_singleton_2 _ _ eq_refl)) as Hd. by rewrite difference_diag_L in Hd.
  - eapply represents_tables; [exact HR|reflexivity|reflexivity|]. intros a n u En Eu. cbn.
    rewrite lookup_delete_ne; [done|]. intros <-. destruct (si_table _ _ _ _ _ Hc a n t En Eu) as [_ []]. by apply elem_of_singleton.
Qed.

Lemma held_dropped (db0 db : Database A) rs idx order K R t :
  reached_with {[t]} db0 rs idx order K R db -> reached db0 rs idx order K R (delete_table t db).
Proof.
  intros Hr. pose proof Hr as [HI HR Er _ _]. destruct (drop_table_inv _ _ _ _ _ HI HR) as [HI' HR'].
  eapply reached_step; [exact Hr|exact HI'|exact HR'|exact Er|reflexivity].
Qed.

Lemma halted_dropped c (db0 db : Database A) rs K t :
  halted_with {[t]} c db0 rs K db -> halted c db0 rs K (delete_table t db).
Proof.
  intros (idx & order & HI & HR & Hrf & Haf). destruct (drop_table_inv _ _ _ _ _ HI HR) as [HI' HR'].
  exists (recency (delete_table t db) order). split; [by exists idx, order|]. split; [exact Hrf|exact Haf].
Qed.

(** ** Nodes that point to a table *)

Record promoted_node (n m : Node) (t c : Z) : Prop := {
  pm_wf : node_wf m;
  pm_key : node_key m = node_key n;
  pm_size : node_block_size m = node_block_size n;
  pm_type : node_type m = type_hash;
  pm_flag : has_flag flag_hash_promoted m = true;
  pm_mark : has_flag flag_has_ttl m = false;
  pm_table : promoted_hash m = t;
  pm_capacity : node_body_capacity m = node_body_capacity n
}.

Lemma promoted_table_of n m t c : promoted_node n m t c -> table_of m = Some t.
Proof.
  intros Hm. unfold table_of, is_promoted. rewrite (pm_type _ _ _ _ Hm), (pm_flag _ _ _ _ Hm), bool_decide_true by reflexivity.
  cbn [andb]. by rewrite (pm_table _ _ _ _ Hm).
Qed.

Lemma count_views c n :
  node_key (set_count c n) = node_key n /\ node_block_size (set_count c n) = node_block_size n /\
  node_type (set_count c n) = node_type n /\ node_flags (set_count c n) = node_flags n /\
  node_body (set_count c n) = node_body n /\ node_body_capacity (set_count c n) = node_body_capacity n.
Proof. conjuncts; reflexivity. Qed.

Lemma promote_node key n t c :
  new_node n key type_hash 8 -> 0 < t < 2 ^ 64 -> 0 <= c < 2 ^ 32 -> promoted_node n (promote t c n) t c.
Proof.
  intros (Hw & _ & Et & Ef & _ & Hcap) Ht Hc. unfold promote.
  assert (len (le_bytes 8 t) = 8) as E8 by (unfold len; by rewrite length_le_bytes).
  destruct (capacity_eq n Hw) as [Hbl _].
  pose proof (edited_write _ _ _ _ _ 0 (le_bytes 8 t) (edited_refl n Hw) ltac:(lia) ltac:(lia)) as [Hw1 Ek1 Es1 _ Ec1 Eb1 _ Et1].
  rewrite Et in Et1. fold (set_promoted_hash t n) in *. set (n1 := set_promoted_hash t n) in *. clearbody n1.
  destruct (set_flags_wf flag_hash_promoted n1 Hw1) as [Hw2 Hs2]; [vm_compute; split; congruence|].
  destruct (set_flags_is n1 _ _ _ _ flag_hash_promoted (conj eq_refl (conj eq_refl (conj eq_refl eq_refl)))) as (_ & Et2 & Ef2 & _);
    [vm_compute; split; congruence|].
  destruct (same_shape_views _ _ Hs2) as (Ek2 & Eb2 & Es2 & Ec2).
  set (n2 := set_flags flag_hash_promoted n1) in *.
  assert (promoted_hash n2 = t) as Ep.
  { unfold promoted_hash. rewrite Eb2, Eb1. rewrite <- E8 at 1. rewrite read_write_same by lia. rewrite le_value_bytes.
    change (256 ^ Z.of_nat 8) with (2 ^ 64). apply Z.mod_small. lia. }
  clearbody n2. destruct (count_views c n2) as (V1 & V2 & V3 & V4 & V5 & V6).
  constructor; [by apply set_count_wf|congruence|congruence|congruence|..|congruence].
  - unfold has_flag. rewrite V4, Ef2. reflexivity.
  - unfold has_flag. rewrite V4, Ef2. reflexivity.
  - unfold promoted_hash. rewrite V5. exact Ep.
Qed.

(** The node takes the table over. *)
Lemma adopt_pending (db : Database A) idx order K p n t f :
  pending_with {[t]} db idx order K p n -> table_of n = None -> has_flag flag_has_ttl n = false ->
  node_wf (f n) -> node_key (f n) = node_key n -> node_block_size (f n) = node_block_size n -> table_of (f n) = Some t ->
  has_flag flag_has_ttl (f n) = false ->
  pending (change_node p f db) idx order K p (f n) /\ recency (change_node p f db) order = recency db order.
Proof.
  intros HP Htn Hfn Hw Ek Es Et Hf. pose proof HP as [HI HR Ep]. pose proof HI as [Hc He].
  assert (change_node p f db = put_heap (<[p := f n]> (heap_ db)) db) as Ech.
  { unfold change_node. by rewrite (alter_insert _ _ _ _ Ep). }
  assert (forall b, b <> p -> heap_ (change_node p f db) !! b = heap_ db !! b) as Hold.
  { intros b Hb. rewrite Ech. cbn. by rewrite lookup_insert_ne. }
  split; [constructor|].
  - rewrite Ech. split.
    + pose proof (adopt_core db _ _ _ _ Hc p n (f n) t Ep Htn Hw Ek Es Et (elem_of_singleton_2 _ _ eq_refl)) as Hcore.
      by rewrite difference_diag_L in Hcore.
    + eapply expiry_frame; [exact He|reflexivity..| |auto]. cbn. intros b m Em.
      apply lookup_insert_Some in Em as [[<- <-]|[_ Em]]; [|by apply He]. rewrite Hf, <- Hfn. by apply He.
  - intros k. specialize (HR k). destruct (idx !! k) as [a|] eqn:Ei; [|done]. destruct HR as (e & Eke & Hea).
    exists e. split; [done|]. pose proof (pending_outside _ _ _ _ _ _ _ _ _ HP Ei).
    eapply entry_frame; [exact Hea|by apply Hold|reflexivity|reflexivity].
  - rewrite Ech. cbn. by rewrite lookup_insert_eq.
  - eapply change_keys; [exact Ep|exact Ek].
Qed.

(** A table changes under its node. *)
Lemma reached_retable (db0 db : Database A) rs idx order K R key a n h h' d :
  reached db0 rs idx order K R db -> idx !! key = Some a -> heap_ db !! a = Some n -> K !! key = Some (DHash h, d) ->
  has_flag flag_hash_promoted n = true -> map_Forall (fun f v => pair_ok (f, v)) h' ->
  reached db0 rs idx order (<[key := (DHash h', d)]> K) R (put_table (promoted_hash n) h' db).
Proof.
  intros Hr Hi Ea Ek Hp Hok. destruct (reached_node _ _ _ _ _ _ _ _ _ Hr Hi) as (n' & e & En & Ek' & Hw & _ & _ & Hv).
  assert (n' = n) as -> by congruence. assert (e = (DHash h, d)) as -> by congruence. cbn [fst] in Hv. destruct Hv as [Et Hv].
  rewrite Hp in Hv. destruct Hv as (Etab & Hcap & _). pose proof Hr as [HI HR Er _ _]. pose proof HI as [Hc He].
  assert (table_of n = Some (promoted_hash n)) as Eto by (unfold table_of, is_promoted; by rewrite Et, Hp).
  eapply reached_step; [exact Hr| | |exact Er|reflexivity].
  - split; [by apply (change_table_core db _ _ _ _ Hc _ h (fun _ => h'))|]. eapply expiry_frame; [exact He|reflexivity..|apply He|auto].
  - apply (represents_at db _ idx idx K _ key HR); [done|intros k Hk; by rewrite lookup_insert_ne|..].
    + intros k b e' Hk Hb Hbe. assert (b <> a) as Hne by (by eapply (other_node db _ _ _ _ k key)).
      eapply entry_frame; [exact Hbe|reflexivity|reflexivity|]. intros m u Em Eu. cbn. rewrite lookup_insert_ne; [done|].
      intros <-. apply Hne. by apply (si_owner _ _ _ _ _ Hc b a m n (promoted_hash n)).
    + rewrite Hi, lookup_insert_eq. eexists. split; [done|]. exists n. cbn [fst snd]. split; [exact Ea|].
      destruct (represents_lookup _ _ _ _ _ HR Hi) as (e' & Ek2 & (_ & _ & _ & E2)).
      assert (e' = (DHash h, d)) as -> by congruence. split; [|exact E2]. split; [exact Et|]. rewrite Hp.
      split; [cbn; by rewrite lookup_insert_eq|]. split; [exact Hcap|exact Hok].
Qed.

(** ** HSET *)

Definition hash_limit : Z := 64 * 1024 * 1024.

(** The fields under a key; a key that is not there has none. *)
Definition fields_of (old : option dvalue) : Result (gmap bytes Value) :=
  match old with None => Ok ∅ | Some (DHash h) => Ok h | Some _ => Unexpected wrong_type end.

Definition assign_of (field : bytes) (value : ElementInput) (old : option dvalue) : Result (gmap bytes Value) :=
  match fields_of old with
  | Ok h =>
      if (hash_limit <? len field) || (hash_limit <? input_size value false) then Unexpected request_too_large
      else Ok (<[field := input_value value]> h)
  | Unexpected c => Unexpected c
  end.

(** How many fields there are now that were not there before. *)
Definition added_to (old : option dvalue) (h : gmap bytes Value) : Z :=
  Z.of_nat (size h) - match old with Some (DHash h0) => Z.of_nat (size h0) | _ => 0 end.

Lemma added_one (h : gmap bytes Value) f v :
  Z.of_nat (size (<[f := v]> h)) - Z.of_nat (size h) = if bool_decide (is_Some (h !! f)) then 0 else 1.
Proof.
  rewrite map_size_insert. destruct (h !! f) as [x|].
  - rewrite bool_decide_true by (by eexists). unfold id. lia.
  - rewrite bool_decide_false by (by intros []). lia.
Qed.

Lemma halted_give_back c (db0 db : Database A) rs K : halted c db0 rs K db -> halted c db0 rs K (give_back db).
Proof.
  intros (R & (idx & order & HI & HR & Er) & Hrf & Haf). pose proof HI as [Hc _].
  destruct (al_return_spec _ (si_alloc _ _ _ _ _ Hc)) as (H1 & H2 & H3).
  exists R. split; [exists idx, order; split; [by apply alloc_kept_inv|by split]|]. split; [exact Hrf|exact Haf].
Qed.

(** The record of a command whose locals hold memory. *)
Lemma scoped_log_wp (db0 db : Database A) rs idx order K R op args (b : bool) Q E :
  reached db0 rs idx order K R db -> real_op op ->
  (forall db', reached db0 (rs ++ recs db0 [(op, args)]) idx order K R db' -> heap_ db' = heap_ db ->
     tables_ db' = tables_ db -> Q tt db') ->
  (forall e db', halted (recs db0 [(op, args)]) db0 rs K db' -> E e db') ->
  wp (if b then scoped (log op args) else log op args) Q E db.
Proof.
  intros Hr Hop HQ HE. destruct b; [|by eapply reached_log_wp]. unfold scoped. wp_steps.
  eapply reached_log_wp; [exact Hr|exact Hop|exact HQ|]. intros e db' Hh. wp_steps. apply HE. by apply halted_give_back.
Qed.

(** The count of a node with a table is not part of what it holds. *)
Lemma reached_recount (db0 db : Database A) rs idx order K R key a n h d c :
  reached db0 rs idx order K R db -> idx !! key = Some a -> heap_ db !! a = Some n -> K !! key = Some (DHash h, d) ->
  has_flag flag_hash_promoted n = true -> 0 <= c < 2 ^ 32 ->
  reached db0 rs idx order K R (change_node a (set_count c) db).
Proof.
  intros Hr Hi Ea Ek Hp Hc. destruct (reached_node _ _ _ _ _ _ _ _ _ Hr Hi) as (n' & e & En & Ek' & Hw & _ & _ & Hh).
  assert (n' = n) as -> by congruence. assert (e = (DHash h, d)) as -> by congruence. cbn [fst] in Hh.
  rewrite <- (insert_id K key (DHash h, d)) by exact Ek.
  apply (reached_change _ _ _ _ _ _ _ _ _ n (DHash h, d) (set_count c) (DHash h) Hr Hi Ea Ek).
  - split; [by apply set_count_wf|]. split; [|reflexivity]. split; [reflexivity|]. split; reflexivity.
  - destruct Hh as [Et Hh]. split; [exact Et|]. change (has_flag flag_hash_promoted (set_count c n)) with (has_flag flag_hash_promoted n).
    rewrite Hp in *. exact Hh.
Qed.

Lemma table_assign_wp (db db1 : Database A) K R rs idx order key field value a n h d :
  reached db rs idx order K R db1 -> idx !! key = Some a -> heap_ db1 !! a = Some n -> K !! key = Some (DHash h, d) ->
  has_flag flag_hash_promoted n = true -> len field <= uint32_max -> encodable (input_value value) ->
  wp (table_assign a (promoted_hash n) key field value)
    (fun r db' => r = Ok (added_to (Some (DHash h)) (<[field := input_value value]> h)) /\
       exists idx' order', reached db (rs ++ recs db [hash_record key field value]) idx' order'
         (<[key := (DHash (<[field := input_value value]> h), d)]> K) R db')
    (fun e db' => halted (recs db [hash_record key field value]) db rs K db') db1.
Proof.
  intros Hr Hi Ea Ek Hp Hf Hv. destruct (reached_node _ _ _ _ _ _ _ _ _ Hr Hi) as (n' & e & En & Ek' & Hw & _ & _ & Hh).
  assert (n' = n) as -> by congruence. assert (e = (DHash h, d)) as -> by congruence. cbn [fst] in Hh. destruct Hh as [Et Hh].
  rewrite Hp in Hh. destruct Hh as (Etab & Hcap & Hall). unfold table_assign. wp_steps.
  eapply asked_wp; [exact Hr| |intros e db2 Hr2 _; by eapply reached_halted]. intros db2 Hr2 (Eh2 & Et2 & _). wp_steps.
  rewrite <- Et2 in Etab. rewrite (table_at_lookup _ _ _ Etab). set (h' := <[field := input_value value]> h).
  assert (map_Forall (fun f v => pair_ok (f, v)) h') as Hall'.
  { unfold h'. apply map_Forall_insert_2; [by split|exact Hall]. }
  assert (added_to (Some (DHash h)) h' = if bool_decide (is_Some (h !! field)) then 0 else 1) as -> by apply added_one.
  destruct (bool_decide_reflect (h !! field = None)) as [Hno|Hyes].
  - assert (bool_decide (is_Some (h !! field)) = false) as -> by (rewrite Hno; apply bool_decide_false; by intros []).
    unfold scoped. wp_steps.
    eapply asked_wp; [exact Hr2| |intros e db3 Hr3 _; wp_steps; by eapply halted_give_back, reached_halted].
    intros db3 Hr3 (Eh3 & Et3 & _). wp_steps.
    eapply asked_wp; [exact Hr3| |intros e db4 Hr4 _; wp_steps; by eapply halted_give_back, reached_halted].
    intros db4 Hr4 (Eh4 & Et4 & _).
    eapply reached_log_wp; [exact Hr4|done| |intros e db5 Hh5; wp_steps; by apply halted_give_back].
    intros db5 Hr5 Eh5 Et5. wp_steps. assert (heap_ db5 !! a = Some n) as Ea5 by congruence.
    pose proof (reached_retable _ _ _ _ _ _ _ _ _ _ _ h' _ Hr5 Hi Ea5 Ek Hp Hall') as Hr6.
    assert (heap_ (put_table (promoted_hash n) h' db5) !! a = Some n) as Ea6 by exact Ea5.
    generalize dependent (put_table (promoted_hash n) h' db5). intros db6 Hr6 Ea6.
    apply (reached_recount _ _ _ _ _ _ _ key a n h' d (u32 (Z.of_nat (size h')))) in Hr6;
      [|exact Hi|exact Ea6|by rewrite lookup_insert_eq|exact Hp|apply u32_range].
    apply reached_bump in Hr6. split; [reflexivity|]. exists idx, order. exact Hr6.
  - assert (bool_decide (is_Some (h !! field)) = true) as -> by (apply bool_decide_true; by apply not_eq_None_Some).
    wp_steps. eapply (scoped_log_wp _ _ _ _ _ _ _ _ _ true); [exact Hr2|done| |done].
    intros db3 Hr3 Eh3 Et3. wp_steps. assert (heap_ db3 !! a = Some n) as Ea3 by congruence.
    pose proof (reached_retable _ _ _ _ _ _ _ _ _ _ _ h' _ Hr3 Hi Ea3 Ek Hp Hall') as Hr4.
    apply reached_give_back, reached_bump in Hr4. split; [reflexivity|]. exists idx, order. exact Hr4.
Qed.

(** Filling the table held. *)
Definition filled (t : Z) (T : HashTable) (db db' : Database A) : Prop :=
  heap_ db' = heap_ db /\ tables_ db' = <[t := T]> (tables_ db) /\ time_ db' = time_ db.

Lemma filled_at t T (db db' : Database A) : filled t T db db' -> tables_ db' !! t = Some T.
Proof. intros (_ & -> & _). apply lookup_insert_eq. Qed.

Lemma filled_trans t T T' (db1 db2 db3 : Database A) : filled t T db1 db2 -> filled t T' db2 db3 -> filled t T' db1 db3.
Proof.
  intros (E1 & E2 & E3) (F1 & F2 & F3). split; [congruence|]. split; [|congruence]. by rewrite F2, E2, insert_insert_eq.
Qed.

Lemma held_step_wp (db0 db : Database A) rs idx order K R t T T' (Q : unit -> Database A -> Prop) E :
  reached_with {[t]} db0 rs idx order K R db -> tables_ db !! t = Some T ->
  (forall db', reached_with {[t]} db0 rs idx order K R db' -> filled t (T' T) db db' -> Q tt db') ->
  (forall e db', reached_with {[t]} db0 rs idx order K R db' -> E e db') ->
  wp (do! container in modify (fun db => put_table t (T' (table_at t db)) db)) Q E db.
Proof.
  intros Hr Et HQ HE. wp_steps. eapply asked_wp; [exact Hr| |intros e db' Hr' _; by apply HE].
  intros db1 Hr1 (Eh & Et1 & _ & Ev). wp_steps. rewrite <- Et1 in Et. rewrite (table_at_lookup _ _ _ Et). apply HQ.
  - by eapply held_table.
  - split; [exact Eh|]. split; [cbn; by rewrite Et1|]. cbn. by injection Ev.
Qed.

Lemma emplace_all_wp l (db0 db : Database A) rs idx order K R t T Q E :
  reached_with {[t]} db0 rs idx order K R db -> tables_ db !! t = Some T ->
  (forall db', reached_with {[t]} db0 rs idx order K R db' -> filled t (fold_left emplaced l T) db db' -> Q tt db') ->
  (forall e db', reached_with {[t]} db0 rs idx order K R db' -> E e db') ->
  wp (for_each l (emplace t)) Q E db.
Proof.
  revert db T. induction l as [|p l IH]; intros db T Hr Et HQ HE; cbn [for_each fold_right].
  { wp_steps. apply HQ; [exact Hr|]. split; [reflexivity|]. split; [|reflexivity]. symmetry. by apply insert_id. }
  wp_steps. eapply (held_step_wp _ _ _ _ _ _ _ t T (fun T => emplaced T p)); [exact Hr|exact Et| |exact HE].
  intros db1 Hr1 Hf1. apply (IH db1 (emplaced T p)); [exact Hr1|by eapply filled_at| |exact HE].
  intros db2 Hr2 Hf2. apply HQ; [exact Hr2|]. by eapply filled_trans.
Qed.

Lemma insert_held_wp (db0 db : Database A) rs idx order K R t T field v (Q : bool -> Database A -> Prop) E :
  reached_with {[t]} db0 rs idx order K R db -> tables_ db !! t = Some T ->
  (forall db', reached_with {[t]} db0 rs idx order K R db' -> filled t (<[field := v]> T) db db' ->
     Q (bool_decide (T !! field = None)) db') ->
  (forall e db', reached_with {[t]} db0 rs idx order K R db' -> E e db') ->
  wp (insert_or_assign t field v) Q E db.
Proof.
  intros Hr Et HQ HE. unfold insert_or_assign. wp_steps. eapply asked_wp; [exact Hr| |intros e db' Hr' _; by apply HE].
  intros db1 Hr1 (Eh & Et1 & _ & Ev). wp_steps. rewrite <- Et1 in Et. rewrite (table_at_lookup _ _ _ Et). apply HQ.
  - by eapply held_table.
  - split; [exact Eh|]. split; [cbn; by rewrite Et1|]. cbn. by injection Ev.
Qed.

Lemma emplaced_all (l : list (bytes * Value)) (T : HashTable) : fold_left emplaced l T = T ∪ list_to_map l.
Proof.
  revert T. induction l as [|[f v] l IH]; intros T; cbn [fold_left]; [symmetry; apply map_union_empty|].
  rewrite IH, list_to_map_cons. unfold emplaced. cbn [fst snd]. apply map_eq. intros k. rewrite !lookup_union.
  destruct (decide (k = f)) as [->|Hne].
  - rewrite lookup_insert_eq. destruct (T !! f) as [x|] eqn:E; [rewrite E|rewrite lookup_insert_eq]; by destruct (list_to_map l !! f).
  - rewrite lookup_insert_ne by congruence. destruct (T !! f); [done|]. by rewrite lookup_insert_ne by congruence.
Qed.

(** A new node for a table, with its records. *)
Lemma install_table_wp {X : Type} (db0 db1 : Database A) rs idx order K key p n t c h out (records : Z -> M (Database A) X) Q E :
  pending_with {[t]} db1 idx order K p n -> new_node n key type_hash 8 -> tables_ db1 !! t = Some h ->
  map_Forall (fun f v => pair_ok (f, v)) h -> 0 < t < 2 ^ 64 -> 0 <= c < 2 ^ 32 ->
  records_ok db0 rs out (fun _ => True) records (fun _ _ _ => True) -> logged rs db1 -> after db0 db1 ->
  (forall r idx' order' db',
     reached db0 (rs ++ out) idx' order' (<[key := (DHash h, ttl_of K key)]> K) (key :: others key (recency db1 order)) db' -> Q r db') ->
  (forall e db', halted out db0 rs K db' -> E e db') ->
  wp (install (default 0 (idx !! key)) p (promote t c) true records) Q E db1.
Proof.
  intros HP Hn Et Hall Ht Hc Hrec Hl Haf HQ HE. pose proof (promote_node _ _ _ _ Hn Ht Hc) as Hm.
  destruct (new_node_plain _ _ _ _ Hn) as [Hmark Htab].
  destruct (adopt_pending db1 idx order K p n t (promote t c) HP Htab Hmark (pm_wf _ _ _ _ Hm) (pm_key _ _ _ _ Hm)
    (pm_size _ _ _ _ Hm) (promoted_table_of _ _ _ _ Hm) (pm_mark _ _ _ _ Hm)) as [HP2 Erec2].
  pose proof Hn as (_ & Ek & _ & _ & _ & Hcap).
  eapply (install_wp db0 db1 rs idx order K out key p n (promote t c) true (fun _ => True) records (fun _ _ _ => True) (DHash h));
    [exact HP2| | |exact I|exact Hrec|exact Hl|exact Haf|exact Erec2| |].
  - by rewrite (pm_key _ _ _ _ Hm).
  - split; [exact (pm_type _ _ _ _ Hm)|]. rewrite (pm_flag _ _ _ _ Hm), (pm_table _ _ _ _ Hm), (pm_capacity _ _ _ _ Hm).
    split; [exact Et|]. split; [lia|exact Hall].
  - intros r idx' order' db' Hr _ _ _. by eapply HQ.
  - intros e db' Hh. apply HE. by apply halted_ok.
Qed.

(** Creating the node while the table is held. *)
Lemma create_held_wp (db0 db : Database A) rs idx order K R t key cap (Q : Z -> Database A -> Prop) E :
  reached_with {[t]} db0 rs idx order K R db -> len key <= max_key_length -> 0 <= cap ->
  (forall p n db', pending_with {[t]} db' idx order K p n -> new_node n key type_hash cap -> tables_ db' = tables_ db ->
     logged rs db' -> after db0 db' -> recency db' order = R -> Q p db') ->
  (forall e db', reached_with {[t]} db0 rs idx order K R db' -> E e db') ->
  wp (create_node key type_hash cap) Q E db.
Proof.
  intros Hr Hk Hcap HQ HE. pose proof Hr as [HI HR Er Hl Haf].
  apply (create_pending_wp {[t]} db idx order K); [exact HI|exact HR|exact Hk|exact Hcap|done|..].
  - intros p n db' HP Hn Ev Erec Et. eapply HQ; [exact HP|exact Hn|exact Et|by eapply env_logged; [exact Ev|]| |congruence].
    exact (after_trans _ _ _ Haf (env_after _ _ Ev)).
  - intros db' HI' HR' Ev Er'. apply HE. eapply (reached_step (L := {[t]})); [exact Hr|exact HI'|exact HR'|congruence|exact Ev].
Qed.

(** The change from a packed hash to a table. *)
Lemma promote_wp (db db1 : Database A) K R rs idx order key field value l c :
  reached db rs idx order K R db1 -> len key <= max_key_length -> Forall pair_ok l -> len field <= uint32_max ->
  encodable (input_value value) -> 0 <= c < 2 ^ 32 -> NoDup l.*1 ->
  wp (promote_packed (default 0 (idx !! key)) key field value l c)
    (fun r db' => exists idx' order', reached db (rs ++ recs db [hash_record key field value]) idx' order'
       (<[key := (DHash (<[field := input_value value]> (list_to_map l)), ttl_of K key)]> K) (key :: others key R) db')
    (fun e db' => halted (recs db [hash_record key field value]) db rs K db') db1.
Proof.
  intros Hr Hk Hl Hf Hv Hc Hd. unfold promote_packed. wp_steps.
  eapply make_hash_wp; [exact Hr| |intros e db' Hr'; by eapply reached_halted].
  intros t db2 Hr2 Ht Hnone Eh2 Et2 _. unfold with_table. wp_steps.
  assert (tables_ db2 !! t = Some ∅) as Et by (rewrite Et2; apply lookup_insert_eq).
  assert (forall e db', reached_with {[t]} db rs idx order K R db' ->
    wp (do! modify (delete_table t) in throw e)
      (fun fresh => wp (install (default 0 (idx !! key)) fresh (promote t c) true
         (fun _ => log op_hash_set [key; field; kind_arg value; text_arg value]))
         (fun r db' => exists idx' order', reached db (rs ++ recs db [hash_record key field value]) idx' order'
            (<[key := (DHash (<[field := input_value value]> (list_to_map l)), ttl_of K key)]> K) (key :: others key R) db')
         (fun e db' => halted (recs db [hash_record key field value]) db rs K db'))
      (fun e db' => halted (recs db [hash_record key field value]) db rs K db') db') as Hdrop.
  { intros e db' Hr'. wp_steps. eapply reached_halted. by apply held_dropped. }
  eapply asked_wp; [exact Hr2| |intros e db' Hr' _; by apply Hdrop]. intros db3 Hr3 (Eh3 & Et3 & _). wp_steps.
  rewrite <- Et3 in Et. eapply emplace_all_wp; [exact Hr3|exact Et| |exact Hdrop]. intros db4 Hr4 Hf4. wp_steps.
  rewrite emplaced_all, map_empty_union in Hf4.
  eapply insert_held_wp; [exact Hr4|by eapply filled_at| |exact Hdrop]. intros db5 Hr5 Hf5. wp_steps.
  eapply create_held_wp; [exact Hr5|exact Hk|lia| |exact Hdrop]. intros p n db6 HP Hn Et6 Hl6 Haf6 Er6.
  eapply install_table_wp; [exact HP|exact Hn|rewrite Et6; by eapply filled_at| |exact Ht|exact Hc|by apply log_records|exact Hl6|exact Haf6| |done].
  - apply map_Forall_insert_2; [by split|]. apply map_Forall_to_list. rewrite map_to_list_to_map by exact Hd.
    eapply Forall_impl; [exact Hl|]. intros [f v]. done.
  - intros r idx' order' db' Hr'. rewrite Er6 in Hr'. exists idx', order'. exact Hr'.
Qed.

(** What is known of the node a packed hash is in. *)
Definition packed_at (db : Database A) (idx : gmap bytes Z) (K : Keyspace) (R : list bytes) (key : bytes) (n : Node)
    (l : list (bytes * Value)) : Prop :=
  match idx !! key with
  | None => l = []
  | Some b => heap_ db !! b = Some n /\ packed_node n l /\ b <> 0 /\ R = key :: others key R /\
      exists d, K !! key = Some (DHash (list_to_map l), d)
  end.

Lemma packed_length db idx K R key n l : packed_at db idx K R key n l ->
  len l <= hash_packed_limit /\ Forall pair_ok l /\ NoDup l.*1.
Proof.
  unfold packed_at. destruct (idx !! key) as [b|].
  - intros (_ & Hn & _). split; [apply (pn_pairs _ _ Hn)|]. split; [apply (pn_values _ _ Hn)|apply (pn_fields _ _ Hn)].
  - intros ->. split; [vm_compute; discriminate|]. split; constructor.
Qed.

Lemma packed_face n n' b c l :
  packed_node n l -> edited n n' b c type_hash ->
  node_wf n' /\ same_face n n' /\ has_flag flag_has_ttl n' = has_flag flag_has_ttl n.
Proof.
  intros Hn He. eapply edited_face; [exact He| |right; exact (pn_plain _ _ Hn)].
  unfold table_of, is_promoted. rewrite (pn_plain _ _ Hn). by rewrite andb_false_r.
Qed.

Lemma new_hash_fills key n f value used found old_bytes l l' cap T :
  assign_plan n f value used found old_bytes l l' -> len (encode_pairs l') <= cap -> len (encode_pairs l') <= hash_packed_byte_limit ->
  len l' <= hash_packed_limit -> 0 <= input_size value false < 2 ^ 32 ->
  fills key type_hash cap (fun out => set_hash_word (len l') (len (encode_pairs l'))
    (assign_into n used found old_bytes (u32 (input_size value false)) f value out)) T (DHash (list_to_map l')).
Proof.
  intros Hp Hcap Hb Hc Hs m (Hw & Ek & Et & Ef & Ecn & Hm). destruct (capacity_eq m Hw) as [Hl _].
  pose proof (len_nonneg l'). pose proof (len_nonneg (encode_pairs l')). unfold hash_packed_byte_limit, hash_packed_limit in *.
  rewrite u32_small by lia. pose proof (edited_refl m Hw) as He. rewrite Et in He.
  destruct (ap_into _ _ _ _ _ _ _ _ Hp m m _ He (eq_sym Hl) ltac:(lia)) as (b & He2 & Hr).
  destruct (edited_word _ _ _ _ _ (len l') (len (encode_pairs l')) He2) as [He3 _]; [lia|lia|].
  assert (has_flag flag_hash_promoted m = false) as Hpm by (unfold has_flag; by rewrite Ef).
  split.
  - eapply edited_face; [exact He3| |by right]. unfold table_of, is_promoted. rewrite Hpm. by rewrite andb_false_r.
  - eapply packed_holds; [exact He3|exact Hpm|lia|exact Hr|done|done|apply (ap_fields _ _ _ _ _ _ _ _ Hp)|apply (ap_values _ _ _ _ _ _ _ _ Hp)].
Qed.

(** The new run in place of the old one. *)
Lemma packed_in_place_wp (inside : bool) (db db1 : Database A) K R rs idx order key field value n found old_bytes used l l' b d :
  reached db rs idx order K R db1 -> idx !! key = Some b -> heap_ db1 !! b = Some n -> packed_node n l ->
  R = key :: others key R -> K !! key = Some (DHash (list_to_map l), d) ->
  assign_plan n field value used found old_bytes l l' -> len (encode_pairs l') <= node_body_capacity n ->
  len (encode_pairs l') <= hash_packed_byte_limit -> len l' <= hash_packed_limit ->
  wp (do! when inside container in
      do! (if inside then scoped (log op_hash_set [key; field; kind_arg value; text_arg value])
           else log op_hash_set [key; field; kind_arg value; text_arg value]) in
      do! modify (change_node b (fun n => set_hash_word (len l') (len (encode_pairs l'))
            (assign_in_place used found old_bytes (input_size value false) field value n))) in
      do! modify bump_sequence in
      when inside (modify give_back))
    (fun _ db' => exists idx' order', reached db (rs ++ recs db [hash_record key field value]) idx' order'
       (<[key := (DHash (<[field := input_value value]> (list_to_map l)), ttl_of K key)]> K) (key :: others key R) db')
    (fun e db' => halted (recs db [hash_record key field value]) db rs K db') db1.
Proof.
  intros Hr Hi Ea Hn HR Ek Hp Hroom Hb Hc. pose proof (len_nonneg l'). pose proof (len_nonneg (encode_pairs l')).
  assert (wp (when inside container) (fun _ db2 => reached db rs idx order K R db2 /\ heap_ db2 = heap_ db1)
    (fun _ db' => halted (recs db [hash_record key field value]) db rs K db') db1) as Hw.
  { apply wp_when; intros _; [|by split]. eapply asked_wp; [exact Hr|intros db2 Hr2 (Eh2 & _); by split|].
    intros e db2 Hr2 _. by eapply reached_halted. }
  wp_steps. eapply wp_mono; [exact Hw| |done]. intros [] db2 [Hr2 Eh2]. wp_steps.
  eapply scoped_log_wp; [exact Hr2|done| |done]. intros db3 Hr3 Eh3 _. wp_steps. rewrite <- Eh2, <- Eh3 in Ea.
  destruct (ap_in_place _ _ _ _ _ _ _ _ Hp Hn Hroom) as (b' & He & Hrd). unfold hash_packed_limit, hash_packed_byte_limit in *.
  destruct (edited_word _ _ _ _ _ (len l') (len (encode_pairs l')) He) as [He2 _]; [lia|lia|].
  pose proof (packed_holds (tables_ db3) _ _ _ l' He2 (pn_plain _ _ Hn) Hroom Hrd Hb Hc (ap_fields _ _ _ _ _ _ _ _ Hp)
    (ap_values _ _ _ _ _ _ _ _ Hp)) as Hh.
  pose proof (reached_change _ _ _ _ _ _ _ _ _ n _ (fun n => set_hash_word (len l') (len (encode_pairs l'))
    (assign_in_place used found old_bytes (input_size value false) field value n)) _ Hr3 Hi Ea Ek (packed_face _ _ _ _ _ Hn He2) Hh) as Hr4.
  cbn [snd] in Hr4. rewrite (ap_map _ _ _ _ _ _ _ _ Hp) in Hr4. apply reached_bump in Hr4.
  generalize dependent (bump_sequence (change_node b (fun n => set_hash_word (len l') (len (encode_pairs l'))
    (assign_in_place used found old_bytes (input_size value false) field value n)) db3)). intros db4 Hr4.
  assert (forall db', reached db (rs ++ recs db [hash_record key field value]) idx order
    (<[key := (DHash (<[field := input_value value]> (list_to_map l)), d)]> K) R db' -> exists idx' order',
    reached db (rs ++ recs db [hash_record key field value]) idx' order'
      (<[key := (DHash (<[field := input_value value]> (list_to_map l)), ttl_of K key)]> K) (key :: others key R) db') as Hdone.
  { intros db' Hr'. exists idx, order. unfold ttl_of. rewrite Ek. cbn [mbind option_bind snd]. rewrite <- HR. exact Hr'. }
  apply wp_when; intros _; [wp_steps|]; apply Hdone; [by apply reached_give_back|exact Hr4].
Qed.

Lemma packed_store_wp inside (db db1 : Database A) K R rs idx order key field value n found old_bytes used l l' :
  reached db rs idx order K R db1 -> len key <= max_key_length -> packed_at db1 idx K R key n l ->
  assign_plan n field value used found old_bytes l l' ->
  len field <= hash_limit -> encodable (input_value value) -> input_size value false <= hash_limit ->
  wp (packed_store inside (default 0 (idx !! key)) n key field value found old_bytes used (len (encode_pairs l')) (len l'))
    (fun _ db' => exists idx' order', reached db (rs ++ recs db [hash_record key field value]) idx' order'
       (<[key := (DHash (<[field := input_value value]> (list_to_map l)), ttl_of K key)]> K) (key :: others key R) db')
    (fun e db' => halted (recs db [hash_record key field value]) db rs K db') db1.
Proof.
  intros Hr Hk Hat Hp Hf Hv Hs. destruct (packed_length _ _ _ _ _ _ _ Hat) as (Hlen & Hok & Hd).
  pose proof (ap_count _ _ _ _ _ _ _ _ Hp) as Ecnt. pose proof (len_nonneg l). pose proof (len_nonneg (encode_pairs l')).
  assert (0 <= input_size value false) as Hs0 by (rewrite <- (proj1 (pair_sizes [] value ltac:(vm_compute; discriminate) Hv)); apply len_nonneg).
  assert (0 <= len l' < 2 ^ 32) as Hc by (unfold hash_packed_limit in *; destruct (bool_decide _); lia).
  unfold packed_store. destruct ((hash_packed_limit <? len l') || (hash_packed_byte_limit <? len (encode_pairs l'))) eqn:Hbig.
  - assert ((if default 0 (idx !! key) =? 0 then [] else unpack n) = l) as ->.
    { unfold packed_at in Hat. destruct (idx !! key) as [b|]; cbn [default from_option id].
      - destruct Hat as (_ & Hn & Hb & _). destruct (Z.eqb_spec b 0); [done|]. by apply unpack_node.
      - by rewrite Z.eqb_refl. }
    eapply promote_wp; [exact Hr|exact Hk|exact Hok|unfold hash_limit, uint32_max in *; lia|exact Hv|exact Hc|exact Hd].
  - apply orb_false_elim in Hbig as [Hb1 Hb2]. apply Z.ltb_ge in Hb1, Hb2.
    destruct ((default 0 (idx !! key) =? 0) || (node_body_capacity n <? len (encode_pairs l'))) eqn:Hnew.
    + set (cap := grown_capacity _ _). assert (len (encode_pairs l') <= cap) as Hcap.
      { unfold cap. destruct (Z.eqb_spec (default 0 (idx !! key)) 0) as [_|_]; [unfold grown_capacity; cbn; zcases; lia|].
        cbn [orb] in Hnew. apply Z.ltb_lt in Hnew. assert (0 <= node_body_capacity n) by (unfold node_body_capacity; apply u32_range).
        destruct (grown_capacity_spec (len (encode_pairs l')) (node_body_capacity n)); [lia|unfold body_limit, hash_packed_byte_limit in *; lia|lia]. }
      eapply (reached_build_wp db db1 _ _ _ _ _ _ _ _ _ _ _ _ (fun _ => True));
        [exact Hr|reflexivity|exact Hk|lia|done| |by apply log_records|done| |done].
      * eapply new_hash_fills; [exact Hp|exact Hcap|exact Hb2|exact Hb1|unfold hash_limit in *; lia].
      * intros p m r idx' order' db' Hr' _ _ _ _. exists idx', order'. rewrite <- (ap_map _ _ _ _ _ _ _ _ Hp). exact Hr'.
    + apply orb_false_elim in Hnew as [Ha0 Hroom]. apply Z.ltb_ge in Hroom. unfold packed_at in Hat.
      destruct (idx !! key) as [b|] eqn:Hi; cbn [default from_option id] in *; [|by rewrite Z.eqb_refl in Ha0].
      destruct Hat as (Ea & Hn & _ & HR & d & Ek).
      rewrite u32_small by (unfold hash_limit in *; lia). by eapply packed_in_place_wp.
Qed.

Lemma packed_assign_wp inside (db db1 : Database A) K R rs idx order key field value n l :
  reached db rs idx order K R db1 -> len key <= max_key_length -> packed_at db1 idx K R key n l ->
  len field <= hash_limit -> encodable (input_value value) -> input_size value false <= hash_limit ->
  wp (packed_assign inside (default 0 (idx !! key)) key field value)
    (fun r db' => r = Ok (Z.of_nat (size (<[field := input_value value]> (list_to_map l : gmap bytes Value))) - Z.of_nat (size (list_to_map l : gmap bytes Value))) /\
       exists idx' order', reached db (rs ++ recs db [hash_record key field value]) idx' order'
       (<[key := (DHash (<[field := input_value value]> (list_to_map l)), ttl_of K key)]> K) (key :: others key R) db')
    (fun e db' => halted (recs db [hash_record key field value]) db rs K db') db1.
Proof.
  intros Hr Hk Hat Hf Hv Hs. unfold packed_assign. apply wp_bind, wp_get. cbv beta zeta.
  set (m := node_at db1 (default 0 (idx !! key))). set (found := if default 0 (idx !! key) =? 0 then None else hash_find m field).
  set (old_bytes := from_option _ 0 found). set (used := if default 0 (idx !! key) =? 0 then 0 else hash_used m).
  assert (assign_from m field used found old_bytes l /\ used <= 4096 /\ packed_at db1 idx K R key m l /\
    (if default 0 (idx !! key) =? 0 then 0 else hash_count m) = len l) as (Hfrom & Hused & Hat' & Ecnt).
  { unfold packed_at in *. destruct (idx !! key) as [b|]; cbn [default from_option id] in *.
    - destruct Hat as (Ea & Hn & Hb & HR & d & Ek). assert (m = n) as Em by (unfold m; by apply node_at_lookup).
      unfold old_bytes, found, used. destruct (Z.eqb_spec b 0) as [|_]; [done|]. rewrite Em. split; [right; by split|].
      split; [rewrite (pn_used _ _ Hn); apply (pn_bytes _ _ Hn)|]. split; [|apply (pn_count _ _ Hn)].
      split; [exact Ea|]. split; [exact Hn|]. split; [exact Hb|]. split; [exact HR|]. by exists d.
    - subst l. unfold old_bytes, found, used. rewrite Z.eqb_refl. split; [by left|]. split; [lia|]. by split. }
  clearbody used found old_bytes.
  destruct (assign_plan_of m field value used found old_bytes l Hfrom) as [l' Hp]; [unfold hash_limit, uint32_max in *; lia|exact Hv|].
  pose proof (ap_used _ _ _ _ _ _ _ _ Hp) as Eused. pose proof (ap_old _ _ _ _ _ _ _ _ Hp) as Hold.
  destruct (pair_sizes field value) as [E1 E2]; [unfold hash_limit, uint32_max in *; lia|exact Hv|].
  pose proof (len_nonneg (write_element value false)). pose proof (len_nonneg (encode_body_text field)). pose proof (len_nonneg (encode_pairs l')).
  assert (body_size_text field <= hash_limit + 5) as Hfs by (unfold body_size_text, max_string_header; zcases; lia).
  unfold hash_limit in *. rewrite (u32_small (body_size_text field)), (u32_small (input_size value false)) by lia.
  rewrite Eused, u32_small by (destruct (bool_decide (is_Some found)); lia). rewrite Ecnt, (ap_count _ _ _ _ _ _ _ _ Hp).
  wp_steps. eapply reached_rehash_with_wp; [exact Hr| |intros e db' Hr' _; by eapply reached_halted].
  intros db2 Hr2 (Eh2 & Et2 & _). wp_steps.
  eapply wp_mono; [eapply (packed_store_wp inside db db2 K R rs idx order key field value m found old_bytes used l l')| |done];
    [exact Hr2|exact Hk| |exact Hp|unfold hash_limit; lia|exact Hv|unfold hash_limit; lia|].
  { unfold packed_at in *. by rewrite Eh2. }
  intros [] db3 Hdone. wp_steps. split; [|exact Hdone]. f_equal. rewrite added_one.
  destruct (ap_found _ _ _ _ _ _ _ _ Hp) as [F1 F2].
  destruct (bool_decide_reflect (is_Some found)) as [Hy|Hn]; [by rewrite bool_decide_true by auto|].
  rewrite bool_decide_false; [done|]. auto.
Qed.

Lemma small_encodable_body value : typed_input value -> input_size value false <= hash_limit -> encodable (input_value value).
Proof.
  intros Ht Hs. unfold input_value, typed_input in *. destruct (is_integer value) eqn:E; [by apply Ht|].
  unfold input_size in Hs. rewrite E in Hs. cbn [encodable]. unfold body_size_text, max_string_header, hash_limit, uint32_max in *.
  destruct (_ <=? _) in Hs; lia.
Qed.

(** The key found is in front. *)
Lemma front_found (db : Database A) K R key e : seen db K key = Some e ->
  front db K R key = key :: others key (front db K R key).
Proof. intros Hs. rewrite others_of_front. unfold front. by rewrite Hs. Qed.

Lemma hash_assign_wp inside (db : Database A) K R rs key field value :
  db_ok db K R -> logged rs db -> typed_input value ->
  wp (hash_assign inside key field value)
    (answered db K R rs [hash_record key field value] key (assign_of field value (fst <$> seen db K key))
       (fun h => (DHash h, seen db K key ≫= snd)) (added_to (fst <$> seen db K key)))
    (fun e db' => kept db K rs (if_ok (assign_of field value (fst <$> seen db K key)) [hash_record key field value]) key db') db.
Proof.
  intros Hok Hl Hty. unfold hash_assign, answered. wp_steps. eapply lookup_wp; [exact Hok|exact Hl| | |done].
  { intros _ Hh. by apply halted_kept_first. }
  intros a idx order db1 Hk Hr ->. wp_steps. pose proof (reached_looked _ _ _ _ _ _ _ _ Hr) as Hlooked.
  change (64 * 1024 * 1024) with hash_limit. destruct (idx !! key) as [b|] eqn:Hi; cbn [from_option id].
  - destruct (reached_node _ _ _ _ _ _ _ _ _ Hr Hi) as (n & e & Ea & Ek & Hw & _ & Hb0 & Hv).
    assert (seen db K key = Some e) as Hs by (by rewrite <- purged_seen). pose proof (front_found db K R key e Hs) as HF.
    unfold nonnull. destruct (Z.eqb_spec b 0) as [|_]; [done|]. cbn [negb andb]. rewrite (node_at_lookup _ _ _ Ea), (holds_type _ _ _ Hv), Hs.
    cbn [fmap option_fmap option_map mbind option_bind].
    destruct e as [[s|z|l|h] d]; cbn [fst snd assign_of fields_of] in *; unfold assign_of; cbn [fields_of];
      [rewrite bool_decide_false by done; wp_steps; by split..|]. rewrite bool_decide_true by done. cbn [negb].
    destruct ((hash_limit <? len field) || (hash_limit <? input_size value false)) eqn:Hbig; [wp_steps; by split|].
    apply orb_false_elim in Hbig as [Hb1 Hb2]. apply Z.ltb_ge in Hb1, Hb2. pose proof (small_encodable_body value Hty Hb2) as Hev.
    destruct (has_flag flag_hash_promoted n) eqn:Hp.
    + eapply wp_mono; [eapply (table_assign_wp db db1); [exact Hr|exact Hi|exact Ea|exact Ek|exact Hp|unfold hash_limit, uint32_max in *; lia|exact Hev]|..].
      * intros r db' (-> & idx' & order' & Hr'). split; [reflexivity|]. rewrite HF in Hr'. by eapply reached_wrote.
      * intros e db' Hh. by apply halted_kept.
    + destruct (packed_of _ _ _ Hw Hv Hp) as (l & Hn & ->).
      assert (packed_at db1 idx (purged db K key) (front db K R key) key n l) as Hat.
      { unfold packed_at. rewrite Hi. split; [exact Ea|]. split; [exact Hn|]. split; [exact Hb0|]. split; [exact HF|]. by exists d. }
      pose proof (packed_assign_wp inside db db1 _ _ _ _ _ key field value n l Hr Hk Hat Hb1 Hev Hb2) as Hpw.
      rewrite Hi in Hpw. cbn [default from_option id] in Hpw. eapply wp_mono; [exact Hpw|..].
      * intros r db' (-> & idx' & order' & Hr'). split; [reflexivity|]. unfold ttl_of in Hr'. rewrite Ek in Hr'. by eapply reached_wrote.
      * intros e db' Hh. by apply halted_kept.
  - assert (seen db K key = None) as Hs.
    { rewrite <- purged_seen. apply (represents_none _ _ _ _ (rc_rep _ _ _ _ _ _ _ Hr)), Hi. }
    unfold nonnull. rewrite Z.eqb_refl, Hs. cbn [negb andb fmap option_fmap option_map mbind option_bind]. unfold assign_of. cbn [fields_of].
    destruct ((hash_limit <? len field) || (hash_limit <? input_size value false)) eqn:Hbig; [wp_steps; by split|].
    apply orb_false_elim in Hbig as [Hb1 Hb2]. apply Z.ltb_ge in Hb1, Hb2. pose proof (small_encodable_body value Hty Hb2) as Hev.
    assert (packed_at db1 idx (purged db K key) (front db K R key) key (node_at db1 0) []) as Hat by (unfold packed_at; by rewrite Hi).
    pose proof (packed_assign_wp inside db db1 _ _ _ _ _ key field value _ [] Hr Hk Hat Hb1 Hev Hb2) as Hpw.
    rewrite Hi in Hpw. cbn [default from_option id] in Hpw. eapply wp_mono; [exact Hpw|..].
    + intros r db' (-> & idx' & order' & Hr'). split; [reflexivity|]. unfold ttl_of in Hr'. rewrite purged_seen, Hs in Hr'.
      by eapply reached_wrote.
    + intros e db' Hh. by apply halted_kept.
Qed.

(** ** HSET of several fields *)

Definition texts_set (fs : list (bytes * bytes)) (h : gmap bytes Value) : gmap bytes Value :=
  fold_left (fun h p => <[p.1 := VString p.2]> h) fs h.

Definition fields_fit (fs : list (bytes * bytes)) : bool :=
  forallb (fun p => (len p.1 <=? hash_limit) && (len p.2 <=? hash_limit)) fs.

Definition set_texts_of (fs : list (bytes * bytes)) (old : option dvalue) : Result (gmap bytes Value) :=
  match fields_of old with
  | Ok h => if fields_fit fs then Ok (texts_set fs h) else Unexpected request_too_large
  | Unexpected c => Unexpected c
  end.

Definition field_record (key : bytes) (p : bytes * bytes) : WalOp * list bytes := (op_hash_set, [key; p.1; of_str "s"; p.2]).

Definition set_texts_result (db : Database A) (K : Keyspace) (R : list bytes) (rs : list (WalOp * list bytes)) (key : bytes)
    (fields : list bytes) (r : Result Z) (db' : Database A) : Prop :=
  let old := fst <$> seen db K key in
  if negb (Z.even (len fields)) then r = Unexpected wrong_argument_count /\ db' = db
  else if bool_decide (fields = []) then
    r = match fields_of old with Ok _ => Ok 0 | Unexpected c => Unexpected c end /\ looked db K R rs key db'
  else answered db K R rs (field_record key <$> by_twos fields) key (set_texts_of (by_twos fields) old)
         (fun h => (DHash h, seen db K key ≫= snd)) (added_to old) r db'.

Lemma texts_set_ok fs h : fields_fit fs = true -> map_Forall (fun f v => pair_ok (f, v)) h ->
  map_Forall (fun f v => pair_ok (f, v)) (texts_set fs h).
Proof.
  revert h. induction fs as [|p fs IH]; intros h Hf Hh; [exact Hh|]. cbn [fields_fit forallb] in Hf.
  apply andb_prop in Hf as [Hp Hf]. apply andb_prop in Hp as [H1 H2]. apply Z.leb_le in H1, H2. apply (IH _ Hf).
  apply map_Forall_insert_2; [|exact Hh]. unfold pair_ok, hash_limit, uint32_max in *. cbn [fst snd encodable]. unfold uint32_max. lia.
Qed.

(** The loop over the fields. *)
Lemma set_fields_wp fs (db0 db : Database A) rs idx order K R t T added largest (Q : option (Z * Z) -> Database A -> Prop) E :
  reached_with {[t]} db0 rs idx order K R db -> tables_ db !! t = Some T ->
  (forall db' big, reached_with {[t]} db0 rs idx order K R db' -> filled t (texts_set fs T) db db' -> fields_fit fs = true ->
     largest <= big -> (forall p, p ∈ fs -> len p.1 + len p.2 <= big) ->
     Q (Some (added + (Z.of_nat (size (texts_set fs T)) - Z.of_nat (size T)), big)) db') ->
  (forall db', reached_with {[t]} db0 rs idx order K R db' -> fields_fit fs = false -> Q None db') ->
  (forall e db', reached_with {[t]} db0 rs idx order K R db' -> E e db') ->
  wp (set_fields t fs added largest) Q E db.
Proof.
  revert db T added largest. induction fs as [|[f v] fs IH]; intros db T added largest Hr Et HQ HQ0 HE; cbn [set_fields].
  { wp_steps. specialize (HQ db largest Hr). cbn [texts_set fold_left] in HQ. rewrite Z.sub_diag, Z.add_0_r in HQ.
    apply HQ; [|reflexivity|lia|by intros p ?%not_elem_of_nil]. split; [reflexivity|]. split; [|reflexivity]. symmetry. by apply insert_id. }
  change (64 * 1024 * 1024) with hash_limit. cbn [fields_fit forallb fst snd] in HQ, HQ0. rewrite !Z.leb_antisym in HQ, HQ0.
  destruct (hash_limit <? len f); cbn [orb negb andb] in *; [wp_steps; by apply HQ0|].
  destruct (hash_limit <? len v); cbn [orb negb andb] in *; [wp_steps; by apply HQ0|]. wp_steps.
  eapply insert_held_wp; [exact Hr|exact Et| |exact HE]. intros db1 Hr1 Hf1.
  eapply IH; [exact Hr1|by eapply filled_at| |exact HQ0|exact HE].
  intros db2 big Hr2 Hf2 Hfit Hbig Hall. pose proof (added_one T f (VString v)) as Ha.
  assert (added + (if bool_decide (T !! f = None) then 1 else 0) +
    (Z.of_nat (size (texts_set fs (<[f := VString v]> T))) - Z.of_nat (size (<[f := VString v]> T))) =
    added + (Z.of_nat (size (texts_set ((f, v) :: fs) T)) - Z.of_nat (size T))) as ->.
  { change (texts_set ((f, v) :: fs) T) with (texts_set fs (<[f := VString v]> T)).
    destruct (T !! f) as [x|] eqn:Ef; [rewrite bool_decide_true in Ha by (by eexists); rewrite bool_decide_false by done|
      rewrite bool_decide_false in Ha by (by intros []); rewrite bool_decide_true by done]; lia. }
  apply HQ; [exact Hr2|by eapply filled_trans|exact Hfit|lia|].
  intros p [->|Hp]%elem_of_cons; [cbn [fst snd]; lia|by apply Hall].
Qed.

(** The pairs of a table in any order. *)
Lemma ordered_pairs (l : list (bytes * Value)) (h : gmap bytes Value) :
  l ≡ₚ map_to_list h -> NoDup l.*1 /\ list_to_map l = h /\ len l = Z.of_nat (size h) /\
  (map_Forall (fun f v => pair_ok (f, v)) h -> Forall pair_ok l).
Proof.
  intros Hp. assert (NoDup l.*1) as Hd by (rewrite Hp; apply NoDup_fst_map_to_list). split; [exact Hd|].
  split; [by rewrite (list_to_map_proper _ _ Hd Hp), list_to_map_to_list|].
  split; [unfold len; by rewrite Hp, length_map_to_list|].
  intros Hall. rewrite Hp. apply map_Forall_to_list in Hall. eapply Forall_impl; [exact Hall|]. by intros [f v].
Qed.

Lemma pairs_size_spec l : Forall pair_ok l -> pairs_size l = len (encode_pairs l).
Proof.
  assert (forall acc, Forall pair_ok l -> fold_left (fun bytes p => bytes + pair_size p) l acc = acc + len (encode_pairs l)) as Hgo; [|by intros; apply (Hgo 0)].
  induction l as [|p l IH]; intros acc Hl; cbn [fold_left]; [change (len (encode_pairs [])) with 0; lia|].
  apply Forall_cons in Hl as [[Hf Hv] Hl]. rewrite IH by exact Hl. rewrite encode_pairs_cons, !len_app.
  assert (encodable (input_value (input_from p.2))) as Hv' by (by rewrite input_value_from).
  destruct (pair_sizes p.1 (input_from p.2) Hf Hv') as [E1 E2]. unfold pair_size, name_of, item_of. lia.
Qed.

Lemma fill_pairs_fills key l cap T :
  Forall pair_ok l -> NoDup l.*1 -> len (encode_pairs l) <= cap -> len (encode_pairs l) <= hash_packed_byte_limit ->
  len l <= hash_packed_limit ->
  fills key type_hash cap (fill_pairs l (len (encode_pairs l))) T (DHash (list_to_map l)).
Proof.
  intros Hv Hd Hcap Hb Hc m (Hw & Ek & Et & Ef & Ecn & Hm). destruct (capacity_eq m Hw) as [Hl _].
  pose proof (len_nonneg l). pose proof (len_nonneg (encode_pairs l)). unfold hash_packed_byte_limit, hash_packed_limit in *.
  unfold fill_pairs. fold encode_pair. fold (encode_pairs l). rewrite u32_small by lia.
  pose proof (edited_refl m Hw) as He. rewrite Et in He.
  apply (edited_copy _ _ _ _ _ 0 (encode_pairs l)) in He; [|lia|lia|lia].
  destruct (edited_word _ _ _ _ _ (len l) (len (encode_pairs l)) He) as [He3 _]; [lia|lia|].
  assert (has_flag flag_hash_promoted m = false) as Hpm by (unfold has_flag; by rewrite Ef).
  split.
  - eapply edited_face; [exact He3| |by right]. unfold table_of, is_promoted. rewrite Hpm. by rewrite andb_false_r.
  - eapply packed_holds; [exact He3|exact Hpm|lia| |done|done|exact Hd|exact Hv]. apply read_write_same; lia.
Qed.

(** The old fields, in the order they are copied in. *)
Definition old_fields (t : Z) (idx : gmap bytes Z) (K : Keyspace) (key : bytes) (db : Database A) (h : gmap bytes Value) : Prop :=
  match idx !! key with
  | None => h = ∅
  | Some b => b <> 0 /\ exists n d, heap_ db !! b = Some n /\ K !! key = Some (DHash h, d) /\ node_wf n /\
      holds (tables_ db) n (DHash h) /\ (table_of n <> Some t)
  end.

Lemma old_fields_ok t idx K key (db : Database A) h : old_fields t idx K key db h -> map_Forall (fun f v => pair_ok (f, v)) h.
Proof.
  unfold old_fields. destruct (idx !! key) as [b|]; [|intros ->; apply map_Forall_empty].
  intros (_ & n & d & _ & _ & Hw & Hh & _). destruct (has_flag flag_hash_promoted n) eqn:Hp.
  - destruct Hh as [_ Hh]. rewrite Hp in Hh. apply Hh.
  - destruct (packed_of _ _ _ Hw Hh Hp) as (l & Hn & ->). apply map_Forall_to_list.
    rewrite map_to_list_to_map by apply (pn_fields _ _ Hn). eapply Forall_impl; [apply (pn_values _ _ Hn)|]. by intros [].
Qed.

Lemma copied_fields t idx K key (db : Database A) h tm :
  old_fields t idx K key db h ->
  let old := default 0 (idx !! key) in let o := node_at db old in
  fold_left emplaced (if old =? 0 then []
                      else if has_flag flag_hash_promoted o then table_order tm (table_at (promoted_hash o) db)
                      else unpack o) ∅ = h.
Proof.
  intros Ho. cbv zeta. unfold old_fields in Ho. rewrite emplaced_all, map_empty_union. destruct (idx !! key) as [b|]; cbn [default from_option id].
  2:{ rewrite Z.eqb_refl, Ho. done. }
  destruct Ho as (Hb & n & d & Ea & _ & Hw & Hh & _). destruct (Z.eqb_spec b 0) as [|_]; [done|]. rewrite (node_at_lookup _ _ _ Ea).
  destruct (has_flag flag_hash_promoted n) eqn:Hp.
  - destruct Hh as [_ Hh]. rewrite Hp in Hh. destruct Hh as (Et & _). rewrite (table_at_lookup _ _ _ Et).
    by destruct (ordered_pairs _ _ (table_order_perm tm h)) as (_ & ? & _).
  - destruct (packed_of _ _ _ Hw Hh Hp) as (l & Hn & ->). by rewrite (unpack_node _ _ Hn).
Qed.

(** What [prepare_fields] leaves to do. *)
Record prepared_ok (p : prepared) (fs : list (bytes * bytes)) (h : gmap bytes Value) : Prop := {
  po_fit : fields_fit fs = true;
  po_promoted : pr_promoted p = (hash_packed_limit <? len (pr_pairs p)) || (hash_packed_byte_limit <? pairs_size (pr_pairs p));
  po_pairs : pr_pairs p ≡ₚ map_to_list (texts_set fs h);
  po_added : pr_added p = Z.of_nat (size (texts_set fs h)) - Z.of_nat (size h);
  po_largest q : q ∈ fs -> len q.1 + len q.2 <= pr_largest p
}.

Lemma prepare_fields_wp (db db1 : Database A) K R rs idx order key fs t h (Q : option prepared -> Database A -> Prop) E :
  reached_with {[t]} db rs idx order K R db1 -> tables_ db1 !! t = Some ∅ -> len key <= max_key_length ->
  old_fields t idx K key db1 h ->
  (forall p n db', prepared_ok p fs h -> pending_with {[t]} db' idx order K (pr_node p) n ->
     new_node n key type_hash (if pr_promoted p then 8 else u32 (pairs_size (pr_pairs p))) ->
     tables_ db' !! t = Some (texts_set fs h) -> logged rs db' -> after db db' -> recency db' order = R -> Q (Some p) db') ->
  (forall db', reached_with {[t]} db rs idx order K R db' -> fields_fit fs = false -> Q None db') ->
  (forall e db', reached_with {[t]} db rs idx order K R db' -> E e db') ->
  wp (prepare_fields t (default 0 (idx !! key)) key fs) Q E db1.
Proof.
  intros Hr Et Hk Ho HQ HQ0 HE. unfold prepare_fields. wp_steps.
  eapply emplace_all_wp; [exact Hr|exact Et| |exact HE]. intros db2 Hr2 Hf2. rewrite (copied_fields _ _ _ _ _ _ _ Ho) in Hf2. wp_steps.
  eapply set_fields_wp; [exact Hr2|by eapply filled_at| | |exact HE].
  2:{ intros db3 Hr3 Hfit. wp_steps. by apply HQ0. }
  intros db3 big Hr3 Hf3 Hfit _ Hbig. wp_steps. rewrite Z.add_0_l, (table_at_lookup _ _ _ (filled_at _ _ _ _ Hf3)).
  set (l := table_order (time_ db3) (texts_set fs h)).
  eapply reached_rehash_with_wp; [exact Hr3| |intros e db' Hr' _; by apply HE]. intros db4 Hr4 (_ & Et4 & _). wp_steps.
  eapply create_held_wp; [exact Hr4|exact Hk| | |exact HE].
  { destruct (_ || _); [lia|apply u32_range]. }
  intros p n db5 HP Hn Et5 Hl5 Haf5 Er5. wp_steps. eapply HQ; [|exact HP|exact Hn| |exact Hl5|exact Haf5|exact Er5].
  - constructor; cbn [pr_promoted pr_pairs pr_added pr_largest]; [exact Hfit|reflexivity|apply table_order_perm|reflexivity|exact Hbig].
  - rewrite Et5, Et4. by eapply filled_at.
Qed.

Lemma field_records_fit (key : bytes) (fs : list (bytes * bytes)) (big : Z) (p : bytes * bytes) :
  (forall q, q ∈ fs -> len q.1 + len q.2 <= big) -> p ∈ fs ->
  real_op (field_record key p).1 /\ len (field_record key p).2 <= 255 /\ len (enc (field_record key p)) <= len key + big + 64.
Proof.
  intros Hbig Hp. specialize (Hbig p Hp). unfold field_record, enc. cbn [fst snd]. split; [done|]. split; [done|].
  rewrite len_encode_record. unfold payload. rewrite !len_cons, len_put_args. cbn [foldr]. change (len (of_str "s")) with 1. lia.
Qed.

(** The node built, the records written and the node put in place. *)
Lemma store_fields_wp (db db1 : Database A) K R rs idx order key fs t h p n :
  prepared_ok p fs h -> map_Forall (fun f v => pair_ok (f, v)) h -> pending_with {[t]} db1 idx order K (pr_node p) n ->
  new_node n key type_hash (if pr_promoted p then 8 else u32 (pairs_size (pr_pairs p))) ->
  tables_ db1 !! t = Some (texts_set fs h) -> 0 < t < 2 ^ 64 -> logged rs db1 -> after db db1 -> recency db1 order = R ->
  let records (_ : Z) :=
    do! reserve_log (len key + pr_largest p + 64) in
    for_each fs (fun f => log op_hash_set [key; fst f; of_str "s"; snd f]) in
  wp (if pr_promoted p then
        do! install (default 0 (idx !! key)) (pr_node p) (promote t (u32 (len (pr_pairs p)))) true records in
        ret (Ok (pr_added p))
      else
        do! with_table t (install (default 0 (idx !! key)) (pr_node p)
              (fill_pairs (pr_pairs p) (u32 (pairs_size (pr_pairs p)))) true records) in
        do! modify (delete_table t) in
        ret (Ok (pr_added p)))
    (fun r db' => r = Ok (pr_added p) /\ exists idx' order', reached db (rs ++ recs db (field_record key <$> fs)) idx' order'
       (<[key := (DHash (texts_set fs h), ttl_of K key)]> K) (key :: others key R) db')
    (fun e db' => halted (recs db (field_record key <$> fs)) db rs K db') db1.
Proof.
  intros Hp Hall HP Hn Et Ht Hl Haf HR records. destruct Hp as [Hfit Epr Hpairs Eadd Hbig].
  destruct (ordered_pairs _ _ Hpairs) as (Hd & Emap & _ & Hok). specialize (Hok (texts_set_ok _ _ Hfit Hall)).
  pose proof (reserved_records (field_record key) (len key + pr_largest p + 64) fs db rs (fun _ => True)
    (fun q => field_records_fit key fs (pr_largest p) q Hbig)) as Hrec.
  destruct (pr_promoted p) eqn:Hpr.
  - wp_steps. eapply install_table_wp; [exact HP|exact Hn|exact Et|by apply texts_set_ok|exact Ht|apply u32_range|exact Hrec|exact Hl|exact Haf| |done].
    intros r idx' order' db' Hr. wp_steps. split; [reflexivity|]. rewrite HR in Hr. by exists idx', order'.
  - symmetry in Epr. apply orb_false_elim in Epr as [Hb1 Hb2]. apply Z.ltb_ge in Hb1, Hb2. rewrite (pairs_size_spec _ Hok) in *.
    pose proof (len_nonneg (encode_pairs (pr_pairs p))). unfold hash_packed_byte_limit in Hb2. rewrite !u32_small in * by lia.
    unfold with_table. wp_steps.
    destruct (fill_pairs_fills key (pr_pairs p) (len (encode_pairs (pr_pairs p))) (tables_ db1) Hok Hd ltac:(lia) Hb2 Hb1 n Hn) as ((Hw & Hs & Hf) & Hh).
    destruct (change_pending {[t]} db1 _ _ _ _ _ _ HP Hw Hs Hf) as (HP2 & _ & _ & Erec2). rewrite Emap in Hh.
    eapply (install_wp (L := {[t]}) db db1 rs idx order K _ key (pr_node p) n _ true (fun _ => True) records (fun _ _ _ => True));
      [exact HP2| |exact Hh|exact I|exact Hrec|exact Hl|exact Haf|exact Erec2| |].
    + destruct Hs as (-> & _). apply Hn.
    + intros r idx' order' db' Hr _ _ _. wp_steps. split; [reflexivity|]. rewrite HR in Hr. exists idx', order'. by apply held_dropped.
    + intros e db' Hh'. wp_steps. by apply halted_dropped.
Qed.

(** From the lookup on, for a key that is missing or has a hash. *)
Lemma set_texts_go_wp (db db1 : Database A) K R rs idx order key fs h :
  reached db rs idx order K R db1 -> len key <= max_key_length ->
  match idx !! key with
  | None => h = ∅
  | Some b => exists n d, heap_ db1 !! b = Some n /\ K !! key = Some (DHash h, d)
  end ->
  wp (let! t := make_hash in
      let! p := with_table t (prepare_fields t (default 0 (idx !! key)) key fs) in
      match p with
      | None => do! modify (delete_table t) in ret (Unexpected request_too_large)
      | Some p =>
          let records _ :=
            do! reserve_log (len key + pr_largest p + 64) in
            for_each fs (fun f => log op_hash_set [key; fst f; of_str "s"; snd f]) in
          if pr_promoted p then
            do! install (default 0 (idx !! key)) (pr_node p) (promote t (u32 (len (pr_pairs p)))) true records in
            ret (Ok (pr_added p))
          else
            do! with_table t (install (default 0 (idx !! key)) (pr_node p)
                  (fill_pairs (pr_pairs p) (u32 (pairs_size (pr_pairs p)))) true records) in
            do! modify (delete_table t) in
            ret (Ok (pr_added p))
      end)
    (fun r db' =>
       if fields_fit fs then
         r = Ok (Z.of_nat (size (texts_set fs h)) - Z.of_nat (size h)) /\
         exists idx' order', reached db (rs ++ recs db (field_record key <$> fs)) idx' order'
           (<[key := (DHash (texts_set fs h), ttl_of K key)]> K) (key :: others key R) db'
       else r = Unexpected request_too_large /\ reached db rs idx order K R db')
    (fun e db' => halted (if fields_fit fs then recs db (field_record key <$> fs) else []) db rs K db') db1.
Proof.
  intros Hr Hk Hold. wp_steps. eapply make_hash_wp; [exact Hr| |intros e db' Hr'; by eapply reached_halted].
  intros t db2 Hr2 Ht Hnone Eh2 Et2 _. unfold with_table at 1. wp_steps.
  assert (old_fields t idx K key db2 h) as Ho.
  { unfold old_fields. destruct (idx !! key) as [b|] eqn:Hi; [|exact Hold]. destruct Hold as (n & d & Ea & Ek).
    destruct (reached_node _ _ _ _ _ _ _ _ _ Hr Hi) as (n' & e & En & Ek' & Hw & _ & Hb & Hh).
    assert (n' = n) as -> by congruence. assert (e = (DHash h, d)) as -> by congruence. cbn [fst] in Hh. split; [exact Hb|].
    exists n, d. rewrite Eh2. split; [exact Ea|]. split; [exact Ek|]. split; [exact Hw|].
    assert (table_of n <> Some t) as Htn.
    { intros E. destruct (rc_inv _ _ _ _ _ _ _ Hr) as [Hc _]. destruct (si_table _ _ _ _ _ Hc b n t Ea E) as [[T HT] _]. congruence. }
    split; [|exact Htn]. eapply holds_tables; [|exact Hh]. intros u Eu. rewrite Et2, lookup_insert_ne by congruence. done. }
  eapply (prepare_fields_wp db db2); [exact Hr2|rewrite Et2; apply lookup_insert_eq|exact Hk|exact Ho| | |].
  - intros p n db3 Hp HP Hn Et3 Hl3 Haf3 Er3. rewrite (po_fit _ _ _ Hp).
    eapply wp_mono; [exact (store_fields_wp db db3 K R rs idx order key fs t h p n Hp (old_fields_ok _ _ _ _ _ _ Ho) HP Hn Et3 Ht Hl3 Haf3 Er3)| |done].
    intros r db' [-> Hd]. rewrite (po_added _ _ _ Hp). by split.
  - intros db3 Hr3 Hfit. wp_steps. rewrite Hfit. split; [reflexivity|]. by apply held_dropped.
  - intros e db3 Hr3. wp_steps. eapply reached_halted. by apply held_dropped.
Qed.

Lemma hash_set_texts_wp (db : Database A) K R rs key fields :
  db_ok db K R -> logged rs db ->
  wp (hash_set_texts key fields) (set_texts_result db K R rs key fields)
    (fun e db' => kept db K rs (if_ok (set_texts_of (by_twos fields) (fst <$> seen db K key)) (field_record key <$> by_twos fields)) key db') db.
Proof.
  intros Hok Hl. unfold hash_set_texts, set_texts_result. cbv zeta. destruct (Z.even (len fields)); cbn [negb]; [|wp_steps; by split].
  wp_steps. eapply lookup_wp; [exact Hok|exact Hl| | |done].
  { intros _ Hh. by apply halted_kept_first. }
  intros a idx order db1 Hk Hr ->. apply wp_bind, wp_get. cbv beta. pose proof (reached_looked _ _ _ _ _ _ _ _ Hr) as Hlooked. unfold answered.
  destruct (idx !! key) as [b|] eqn:Hi; cbn [from_option id].
  - destruct (reached_node _ _ _ _ _ _ _ _ _ Hr Hi) as (n & e & Ea & Ek & Hw & _ & Hb0 & Hv).
    assert (seen db K key = Some e) as Hs by (by rewrite <- purged_seen).
    unfold nonnull. destruct (Z.eqb_spec b 0) as [|_]; [done|]. cbn [negb andb]. rewrite (node_at_lookup _ _ _ Ea), (holds_type _ _ _ Hv), Hs.
    cbn [fmap option_fmap option_map mbind option_bind]. unfold set_texts_of.
    destruct e as [[s|z|l|h] d]; cbn [fst snd fields_of] in *;
      [rewrite (bool_decide_false (_ = type_hash)) by done; wp_steps; destruct (bool_decide (fields = [])); by split..|].
    rewrite bool_decide_true by done. cbn [negb]. destruct (bool_decide (fields = [])); [wp_steps; by split|].
    pose proof (set_texts_go_wp db db1 _ _ _ _ _ key (by_twos fields) h Hr Hk) as Hgo. rewrite Hi in Hgo.
    eapply wp_mono; [apply Hgo; by exists n, d|..].
    + intros r db'. destruct (fields_fit (by_twos fields)).
      * intros (-> & idx' & order' & Hr'). split; [reflexivity|]. unfold ttl_of in Hr'. rewrite Ek in Hr'. by eapply reached_wrote.
      * intros (-> & Hr'). split; [reflexivity|]. by eapply reached_looked.
    + intros e db' Hh. apply halted_kept; [exact Hk|]. destruct (fields_fit (by_twos fields)); [exact Hh|by rewrite recs_nil].
  - assert (seen db K key = None) as Hs.
    { rewrite <- purged_seen. apply (represents_none _ _ _ _ (rc_rep _ _ _ _ _ _ _ Hr)), Hi. }
    unfold nonnull. rewrite Z.eqb_refl, Hs. cbn [negb andb fmap option_fmap option_map mbind option_bind]. unfold set_texts_of. cbn [fields_of].
    destruct (bool_decide (fields = [])); [wp_steps; by split|].
    pose proof (set_texts_go_wp db db1 _ _ _ _ _ key (by_twos fields) ∅ Hr Hk) as Hgo. rewrite Hi in Hgo.
    eapply wp_mono; [apply Hgo; reflexivity|..].
    + intros r db'. destruct (fields_fit (by_twos fields)).
      * intros (-> & idx' & order' & Hr'). split; [reflexivity|]. unfold ttl_of in Hr'. rewrite purged_seen, Hs in Hr'. by eapply reached_wrote.
      * intros (-> & Hr'). split; [reflexivity|]. by eapply reached_looked.
    + intros e db' Hh. apply halted_kept; [exact Hk|]. destruct (fields_fit (by_twos fields)); [exact Hh|by rewrite recs_nil].
Qed.

(** ** HGET and HLEN *)

Definition on_fields {X : Type} (old : option dvalue) (f : gmap bytes Value -> X) : Result X :=
  match fields_of old with Ok h => Ok (f h) | Unexpected c => Unexpected c end.

Lemma view_element e : (if is_integer_element e then mkView view_integer [] (elem_integer e) else mkView view_string (elem_text e) 0) =
  view_of (element_to_value e).
Proof. unfold element_to_value. by destruct (is_integer_element e). Qed.

(** A field of a hash in either form. *)
Lemma packed_lookup n l f : packed_node n l ->
  match hash_find n f with
  | None => (list_to_map l : gmap bytes Value) !! f = None
  | Some (off, _) => (list_to_map l : gmap bytes Value) !! f = Some (element_to_value (element_at (node_body n) off))
  end.
Proof.
  intros Hn. destruct (field_split l f (pn_fields _ _ Hn)) as [[Hno E]|(l1 & v & l2 & -> & E)].
  - by rewrite (find_absent _ _ _ Hn Hno).
  - destruct (find_present _ _ _ _ _ Hn) as (-> & _ & ->). exact E.
Qed.

Lemma hash_field_wp (db : Database A) K R rs key field :
  db_ok db K R -> logged rs db ->
  wp (hash_field key field)
    (fun r db' => r = on_fields (fst <$> seen db K key) (fun h => view_of <$> h !! field) /\ was_read db K R rs key db')
    (fun _ _ => False) db.
Proof.
  intros Hok Hl. unfold hash_field, on_fields. wp_steps. eapply read_wp; [exact Hok|exact Hl|..].
  - intros db' Hr Hs. rewrite Z.eqb_refl. wp_steps. rewrite Hs. by split.
  - intros a n e db' Hr Hs Ha Ea Hh Hw _ _. destruct (Z.eqb_spec a 0) as [|_]; [done|]. wp_steps.
    rewrite (node_at_lookup _ _ _ Ea), (holds_type _ _ _ Hh), Hs.
    destruct e as [[s|z|l|h] d]; cbn [fst fmap option_fmap option_map fields_of] in *;
      [rewrite bool_decide_false by done; wp_steps; by split..|].
    rewrite bool_decide_true by done. cbn [negb]. destruct (has_flag flag_hash_promoted n) eqn:Hp.
    + destruct Hh as [_ Hh]. rewrite Hp in Hh. destruct Hh as (Et & _). wp_steps. rewrite (table_at_lookup _ _ _ Et). by split.
    + destruct (packed_of _ _ _ Hw Hh Hp) as (l & Hn & ->). pose proof (packed_lookup n l field Hn) as Hlk.
      destruct (hash_find n field) as [[off st]|]; wp_steps; (split; [|exact Hr]); rewrite Hlk; [|reflexivity].
      by rewrite view_element.
Qed.

Lemma hash_get_wp (db : Database A) K R rs key field :
  db_ok db K R -> logged rs db ->
  wp (hash_get key field)
    (fun r db' => r = on_fields (fst <$> seen db K key) (fun h => h !! field) /\ was_read db K R rs key db')
    (fun _ _ => False) db.
Proof.
  intros Hok Hl. unfold hash_get. wp_steps. eapply wp_mono; [by apply (hash_field_wp db K R rs)| |done].
  intros r db' [-> Hr]. wp_steps. split; [|exact Hr]. unfold on_fields. destruct (fields_of _) as [h|c]; [|reflexivity].
  by destruct (h !! field) as [[s|z]|].
Qed.

Lemma packed_size n l : packed_node n l -> hash_count n = Z.of_nat (size (list_to_map l : gmap bytes Value)).
Proof.
  intros Hn. rewrite (pn_count _ _ Hn). unfold len. f_equal.
  by rewrite <- length_map_to_list, map_to_list_to_map by apply (pn_fields _ _ Hn).
Qed.

Lemma hash_length_wp (db : Database A) K R rs key :
  db_ok db K R -> logged rs db ->
  wp (hash_length key)
    (fun r db' => r = on_fields (fst <$> seen db K key) (fun h => Z.of_nat (size h)) /\ was_read db K R rs key db')
    (fun _ _ => False) db.
Proof.
  intros Hok Hl. unfold hash_length, on_fields. wp_steps. eapply read_wp; [exact Hok|exact Hl|..].
  - intros db' Hr Hs. rewrite Z.eqb_refl. wp_steps. rewrite Hs. by split.
  - intros a n e db' Hr Hs Ha Ea Hh Hw _ _. destruct (Z.eqb_spec a 0) as [|_]; [done|]. wp_steps.
    rewrite (node_at_lookup _ _ _ Ea), (holds_type _ _ _ Hh), Hs.
    destruct e as [[s|z|l|h] d]; cbn [fst fmap option_fmap option_map fields_of] in *;
      [rewrite bool_decide_false by done; wp_steps; by split..|].
    rewrite bool_decide_true by done. cbn [negb]. wp_steps. split; [|exact Hr]. f_equal.
    destruct (has_flag flag_hash_promoted n) eqn:Hp.
    + destruct Hh as [_ Hh]. rewrite Hp in Hh. destruct Hh as (Et & _). by rewrite (table_at_lookup _ _ _ Et).
    + destruct (packed_of _ _ _ Hw Hh Hp) as (l & Hn & ->). by apply packed_size.
Qed.

(** ** HDEL *)

Definition put_hash (key : bytes) (h : gmap bytes Value) (d : option Z) (K : Keyspace) : Keyspace :=
  if bool_decide (h = ∅) then delete key K else <[key := (DHash h, d)]> K.
Definition hash_recent (key : bytes) (h : gmap bytes Value) (R : list bytes) : list bytes :=
  if bool_decide (h = ∅) then others key R else key :: others key R.

Definition hash_del_result (db : Database A) (K : Keyspace) (R : list bytes) (rs : list (WalOp * list bytes)) (key field : bytes)
    (r : Result bool) (db' : Database A) : Prop :=
  match fields_of (fst <$> seen db K key) with
  | Unexpected c => r = Unexpected c /\ looked db K R rs key db'
  | Ok h =>
      if bool_decide (h !! field = None) then r = Ok false /\ looked db K R rs key db'
      else r = Ok true /\ db_ok db' (put_hash key (delete field h) (seen db K key ≫= snd) K) (hash_recent key (delete field h) R) /\
        logged (rs ++ recs db [(op_hash_del, [key; field])]) db' /\ after db db'
  end.

(** The bytes of the other pairs. *)
Lemma remove_pair_holds T n l1 f v l2 : packed_node n (l1 ++ (f, v) :: l2) ->
  let n' := remove_pair (len (encode_pairs l1) + len (name_of (f, v))) (len (name_of (f, v))) n in
  (node_wf n' /\ same_face n n' /\ has_flag flag_has_ttl n' = has_flag flag_has_ttl n) /\
  holds T n' (DHash (list_to_map (l1 ++ l2))).
Proof.
  intros Hn. cbv zeta. destruct (find_present _ _ _ _ _ Hn) as (_ & Esz & _). unfold remove_pair. rewrite Esz.
  pose proof (pn_used _ _ Hn) as Eu. pose proof (pn_count _ _ Hn) as Ec. pose proof (pn_bytes _ _ Hn) as Hb. pose proof (pn_pairs _ _ Hn) as Hc.
  pose proof (pn_room _ _ Hn) as Hroom. destruct (pn_body _ _ Hn) as [rest Eb]. unfold hash_packed_byte_limit, hash_packed_limit in *.
  rewrite encode_pairs_app, encode_pairs_cons in *. rewrite !len_app, ?len_cons in *.
  set (a := encode_pairs l1) in *. set (x := name_of (f, v)) in *. set (y := item_of (f, v)) in *. set (b := encode_pairs l2) in *.
  pose proof (len_nonneg a). pose proof (len_nonneg b). pose proof (len_nonneg x). pose proof (len_nonneg y).
  pose proof (len_nonneg l1). pose proof (len_nonneg l2). rewrite Eu, Ec.
  replace (len a + len x - len x) with (len a) by lia.
  replace (len a + (len x + (len y + len b)) - len a - (len x + len y)) with (len b) by lia.
  replace (len a + (len x + (len y + len b)) - (len x + len y)) with (len a + len b) by lia.
  replace (len l1 + (1 + len l2) - 1) with (len l1 + len l2) by lia. rewrite !u32_small by lia.
  assert (read_at (len a + (len x + len y)) (len b) (node_body n) = b) as Rb.
  { rewrite Eb, <- !app_assoc. rewrite (app_assoc x), (app_assoc a). apply read_middle; rewrite ?len_app; lia. }
  rewrite Rb. pose proof (edited_refl n (pn_wf _ _ Hn)) as He. rewrite (pn_type _ _ Hn) in He.
  assert (exists b', edited n (if len b =? 0 then n else write_body (len a) b n) b' (count n) type_hash /\
    read_at 0 (len a + len b) b' = a ++ b) as (b' & He1 & R1).
  { assert (read_at 0 (len a) (node_body n) = a) as Ra by (rewrite Eb, <- !app_assoc; apply read_prefix).
    pose proof (pn_len _ _ Hn). destruct (Z.eqb_spec (len b) 0) as [E0|_].
    - exists (node_body n). split; [exact He|]. rewrite E0, Z.add_0_r, Ra. assert (b = []) as -> by (apply length_zero_iff_nil; unfold len in E0; lia).
      by rewrite app_nil_r.
    - eexists. split; [eapply edited_write; [exact He|lia|lia]|]. rewrite read_extended by lia. by rewrite Ra. }
  destruct (edited_word _ _ _ _ _ (len l1 + len l2) (len a + len b) He1) as [_ He2]; [lia|lia|].
  split; [by eapply packed_face|]. pose proof (middle_nodup _ _ _ _ (pn_fields _ _ Hn)) as (_ & Hd & _).
  pose proof (pn_values _ _ Hn) as Hv. apply Forall_app in Hv as [Hv1 Hv2]. apply Forall_cons in Hv2 as [_ Hv2].
  assert (len (encode_pairs (l1 ++ l2)) = len a + len b) as El by (by rewrite encode_pairs_app, len_app).
  eapply packed_holds; rewrite ?El, ?len_app; [exact He2|exact (pn_plain _ _ Hn)|lia| | | |exact Hd|by apply Forall_app];
    [rewrite R1; by rewrite encode_pairs_app|unfold hash_packed_byte_limit; lia|unfold hash_packed_limit; lia].
Qed.

(** The last field takes the key with it. *)
Lemma hash_del_finish_wp (db db1 : Database A) K R rs idx order key a h d (last : bool) E :
  reached db rs idx order (<[key := (DHash h, d)]> K) (key :: others key R) db1 ->
  idx !! key = Some a -> last = bool_decide (h = ∅) ->
  wp (when last (modify (erase_node a)))
    (fun _ db' => db_ok db' (put_hash key h d K) (hash_recent key h R) /\ logged rs db' /\ after db db') E db1.
Proof.
  intros Hr Hi ->. unfold put_hash, hash_recent.
  assert (forall idx' order' K' R' db', reached db rs idx' order' K' R' db' ->
    db_ok db' K' R' /\ logged rs db' /\ after db db') as Hdone.
  { intros idx' order' K' R' db' Hr'. split; [by eapply reached_ok|].
    split; [apply (rc_logged _ _ _ _ _ _ _ Hr')|apply (rc_after _ _ _ _ _ _ _ Hr')]. }
  destruct (bool_decide (h = ∅)); cbn [when]; wp_steps; [|by eapply Hdone].
  pose proof (reached_erase _ _ _ _ _ _ _ key a Hr Hi) as Hr'. rewrite delete_insert_eq, others_again in Hr'. by eapply Hdone.
Qed.

Lemma last_field n l1 f v l2 : packed_node n (l1 ++ (f, v) :: l2) ->
  (hash_count n =? 1) = bool_decide (delete f (list_to_map (l1 ++ (f, v) :: l2) : gmap bytes Value) = ∅).
Proof.
  intros Hn. rewrite (pn_count _ _ Hn), <- (map_remove _ _ _ _ (pn_fields _ _ Hn)), len_app, len_cons.
  pose proof (len_nonneg l1). pose proof (len_nonneg l2). destruct (bool_decide_reflect (list_to_map (l1 ++ l2) = (∅ : gmap bytes Value))) as [E|E].
  - assert (l1 ++ l2 = []) as [-> ->]%app_nil; [|reflexivity]. destruct (l1 ++ l2) as [|[g x] l]; [reflexivity|exfalso].
    rewrite list_to_map_cons in E. by apply insert_non_empty in E.
  - apply Z.eqb_neq. intros E1. apply E. assert (l1 ++ l2 = []) as ->; [|reflexivity].
    apply length_zero_iff_nil. rewrite length_app. unfold len in *. lia.
Qed.

Lemma hash_del_wp (db : Database A) K R rs key field :
  db_ok db K R -> logged rs db ->
  wp (hash_del key field) (hash_del_result db K R rs key field)
    (fun e db' => kept db K rs (if_ok (fields_of (fst <$> seen db K key)) [(op_hash_del, [key; field])]) key db') db.
Proof.
  intros Hok Hl. unfold hash_del, hash_del_result. wp_steps. eapply lookup_wp; [exact Hok|exact Hl| | |done].
  { intros _ Hh. by apply halted_kept_first. }
  intros a idx order db1 Hk Hr ->. pose proof (reached_looked _ _ _ _ _ _ _ _ Hr) as Hlooked.
  destruct (idx !! key) as [b|] eqn:Hi; cbn [from_option id].
  2:{ assert (seen db K key = None) as Hs.
      { rewrite <- purged_seen. apply (represents_none _ _ _ _ (rc_rep _ _ _ _ _ _ _ Hr)), Hi. }
      rewrite Z.eqb_refl, Hs. wp_steps. cbn [fmap option_fmap option_map fields_of].
      rewrite bool_decide_true by apply lookup_empty. by split. }
  destruct (reached_node _ _ _ _ _ _ _ _ _ Hr Hi) as (n & e & Ea & Ek & Hw & _ & Hb0 & Hv).
  assert (seen db K key = Some e) as Hs by (by rewrite <- purged_seen).
  assert (gone db K key = false /\ K !! key = Some e) as [Hg EK] by (unfold seen in Hs; by destruct (gone db K key)).
  assert (purged db K key = K /\ purge_records db K key = [] /\ front db K R key = key :: others key R) as (Ep & Epr & Ef).
  { unfold purged, purge_records, front. by rewrite Hg, Hs. }
  destruct (Z.eqb_spec b 0) as [|_]; [done|]. wp_steps. rewrite (node_at_lookup _ _ _ Ea), (holds_type _ _ _ Hv), Hs.
  cbn [fmap option_fmap option_map mbind option_bind].
  destruct e as [[s|z|l|h] d]; cbn [fst snd fields_of] in *; [rewrite bool_decide_false by done; wp_steps; by split..|].
  rewrite (bool_decide_true (type_hash = type_hash)) by done. cbn [negb].
  assert (forall (e : exn) db', halted (recs db [(op_hash_del, [key; field])]) db (rs ++ recs db (purge_records db K key)) (purged db K key) db' ->
    kept db K rs [(op_hash_del, [key; field])] key db') as Hkept by (intros; by apply halted_kept).
  rewrite Ep, Epr, Ef, recs_nil, app_nil_r in *. destruct (has_flag flag_hash_promoted n) eqn:Hp.
  - pose proof Hv as [_ Hh]. rewrite Hp in Hh. destruct Hh as (Et & _ & Hall). rewrite (table_at_lookup _ _ _ Et).
    destruct (bool_decide_reflect (h !! field = None)) as [Hno|Hyes]; [wp_steps; by split|]. wp_steps.
    eapply reached_log_wp; [exact Hr|done| |exact Hkept]. intros db2 Hr2 Eh2 _. wp_steps. rewrite <- Eh2 in Ea.
    pose proof (reached_retable _ _ _ _ _ _ _ _ _ _ _ (delete field h) _ Hr2 Hi Ea Ek Hp (map_Forall_delete _ _ _ Hall)) as Hr3.
    assert (heap_ (give_back (put_table (promoted_hash n) (delete field h) db2)) !! b = Some n) as Ea3 by exact Ea.
    apply reached_give_back in Hr3. generalize dependent (give_back (put_table (promoted_hash n) (delete field h) db2)). intros db3 Hr3 Ea3.
    apply (reached_recount _ _ _ _ _ _ _ key b n (delete field h) d (u32 (Z.of_nat (size (delete field h))))) in Hr3;
      [|exact Hi|exact Ea3|by rewrite lookup_insert_eq|exact Hp|apply u32_range].
    apply reached_bump in Hr3. generalize dependent (bump_sequence (change_node b (set_count (u32 (Z.of_nat (size (delete field h))))) db3)).
    intros db4 Hr4. eapply wp_mono; [eapply (hash_del_finish_wp _ _ _ _ _ _ _ _ _ _ _ _ (fun _ _ => False)); [exact Hr4|exact Hi|reflexivity]| |intros e db' []].
    intros [] db' Hd. wp_steps. split; [reflexivity|exact Hd].
  - destruct (packed_of _ _ _ Hw Hv Hp) as (l & Hn & ->).
    destruct (field_split l field (pn_fields _ _ Hn)) as [[Hno Elk]|(l1 & v & l2 & -> & Elk)].
    { rewrite (find_absent _ _ _ Hn Hno), Elk. wp_steps. rewrite bool_decide_true by done. by split. }
    rewrite (bool_decide_false (_ !! field = None)) by congruence.
    destruct (find_present _ _ _ _ _ Hn) as (-> & _). wp_steps.
    eapply reached_log_wp; [exact Hr|done| |exact Hkept]. intros db2 Hr2 Eh2 _. wp_steps. rewrite <- Eh2 in Ea.
    destruct (remove_pair_holds (tables_ db2) n l1 field v l2 Hn) as [Hse Hh].
    pose proof (reached_change _ _ _ _ _ _ _ _ _ n _ _ _ Hr2 Hi Ea Ek Hse Hh) as Hr3. cbn [snd] in Hr3.
    apply reached_bump in Hr3. rewrite (map_remove _ _ _ _ (pn_fields _ _ Hn)) in Hr3.
    eapply wp_mono; [eapply (hash_del_finish_wp _ _ _ _ _ _ _ _ _ _ _ _ (fun _ _ => False)); [exact Hr3|exact Hi|by apply last_field]| |intros e db' []].
    intros [] db' Hd. wp_steps. split; [reflexivity|exact Hd].
Qed.

(** ** Properties *)

(** HSET of one field.  Whether the hash is packed, moves to a larger
    block, becomes a table or is one already, the field has the value
    afterwards, the other fields and the deadline are as they were, and the
    call tells whether the field is new.  Another type, and a field or a value
    that is too large, are refused and nothing changes. *)
Theorem hash_assign_correct (inside : Z -> bool) (db : Database A) K R rs key field value :
  db_ok db K R -> logged rs db -> typed_input value ->
  wp (hash_assign inside key field value)
    (answered db K R rs [hash_record key field value] key (assign_of field value (fst <$> seen db K key))
       (fun h => (DHash h, seen db K key ≫= snd)) (added_to (fst <$> seen db K key)))
    (fun e db' => kept db K rs (if_ok (assign_of field value (fst <$> seen db K key)) [hash_record key field value]) key db') db.
Proof. apply hash_assign_wp. Qed.

(** C36: HSET of several fields.  All of them are set, in order, or none is,
    and the number of new fields is returned. *)
Theorem hash_set_texts_correct (db : Database A) K R rs key fields :
  db_ok db K R -> logged rs db ->
  wp (hash_set_texts key fields) (set_texts_result db K R rs key fields)
    (fun e db' => kept db K rs (if_ok (set_texts_of (by_twos fields) (fst <$> seen db K key)) (field_record key <$> by_twos fields)) key db') db.
Proof. apply hash_set_texts_wp. Qed.

(** HGET never throws, changes no value, and finds the value of the field
    in either form of the hash. *)
Theorem hash_get_correct (db : Database A) K R rs key field :
  db_ok db K R -> logged rs db ->
  wp (hash_get key field)
    (fun r db' => r = on_fields (fst <$> seen db K key) (fun h => h !! field) /\ was_read db K R rs key db')
    (fun _ _ => False) db.
Proof. apply hash_get_wp. Qed.

(** HDEL.  The field is gone afterwards and the others are as they were;
    the last field takes the key with it.  The call tells whether there was
    such a field. *)
Theorem hash_del_correct (db : Database A) K R rs key field :
  db_ok db K R -> logged rs db ->
  wp (hash_del key field) (hash_del_result db K R rs key field)
    (fun e db' => kept db K rs (if_ok (fields_of (fst <$> seen db K key)) [(op_hash_del, [key; field])]) key db') db.
Proof. apply hash_del_wp. Qed.

End ops.

(** ** Examples *)

Definition key_h : bytes := of_str "h".
Definition two_fields : list bytes := [of_str "f"; of_str "1"; of_str "g"; of_str "2"].
Definition hash_fg : gmap bytes Value := {[of_str "f" := VString (of_str "1"); of_str "g" := VString (of_str "2")]}.
Definition sample_hset : (exn + Result Z) * Database Memory := hash_set_texts key_h two_fields sample_db.
Definition sample_hash_db : Database Memory := snd sample_hset.
Definition sample_hash_keyspace : Keyspace := <[key_h := (DHash hash_fg, None)]> sample_keyspace.
Definition sample_hash_records : list (WalOp * list bytes) := sample_log_records ++ (field_record key_h <$> by_twos two_fields).

Lemma two_fields_set : texts_set (by_twos two_fields) ∅ = hash_fg.
Proof. apply map_eq. intros k. vm_compute. reflexivity. Qed.

Lemma hash_set_texts_correct_witness :
  exists db', hash_set_texts key_h two_fields sample_db = (inr (Ok 2), db') /\
    db_ok db' sample_hash_keyspace [key_h; key_k] /\ logged sample_hash_records db'.
Proof.
  destruct sample_db_ok as [Hok Hl].
  pose proof (hash_set_texts_correct sample_db sample_keyspace [key_k] _ key_h two_fields Hok Hl) as Hw.
  unfold set_texts_result in Hw. change (negb _) with false in Hw. change (bool_decide (two_fields = [])) with false in Hw. cbv iota zeta in Hw.
  assert (seen sample_db sample_keyspace key_h = None) as Hs by (vm_compute; reflexivity). rewrite Hs in Hw.
  change (set_texts_of _ _) with (@Ok (gmap bytes Value) (texts_set (by_twos two_fields) ∅)) in Hw. rewrite two_fields_set in Hw.
  destruct (wp_returns _ _ _ _ Hw) as (r & db' & E & Hr & Hwr); [eexists; vm_compute; reflexivity|].
  exists db'. split; [rewrite E, Hr; vm_compute; reflexivity|]. destruct Hwr as (Hok' & Hl' & _). split; [exact Hok'|exact Hl'].
Defined.

Lemma sample_hash_ok : db_ok sample_hash_db sample_hash_keyspace [key_h; key_k] /\ logged sample_hash_records sample_hash_db.
Proof.
  destruct sample_db_ok as [Hok Hl].
  pose proof (hash_set_texts_wp sample_db sample_keyspace [key_k] _ key_h two_fields Hok Hl) as Hw.
  unfold set_texts_result in Hw. change (negb _) with false in Hw. change (bool_decide (two_fields = [])) with false in Hw. cbv iota zeta in Hw.
  assert (seen sample_db sample_keyspace key_h = None) as Hs by (vm_compute; reflexivity). rewrite Hs in Hw.
  change (set_texts_of _ _) with (@Ok (gmap bytes Value) (texts_set (by_twos two_fields) ∅)) in Hw. rewrite two_fields_set in Hw.
  destruct (wp_returns _ _ _ _ Hw) as (r & db' & E & _ & (Hok' & Hl' & _)); [eexists; vm_compute; reflexivity|].
  unfold sample_hash_db, sample_hset. rewrite E. split; [exact Hok'|exact Hl'].
Qed.

Lemma sample_hash_seen : seen sample_hash_db sample_hash_keyspace key_h = Some (DHash hash_fg, None).
Proof. vm_compute. reflexivity. Qed.

Lemma hash_assign_correct_witness :
  exists db', hash_assign (fun _ => false) key_h (of_str "f") (input_from (VInteger 7)) sample_hash_db = (inr (Ok 0), db') /\
    db_ok db' (<[key_h := (DHash (<[of_str "f" := VInteger 7]> hash_fg), None)]> sample_hash_keyspace) [key_h; key_k].
Proof.
  destruct sample_hash_ok as [Hok Hl].
  pose proof (hash_assign_correct (fun _ => false) _ _ _ _ key_h (of_str "f") (input_from (VInteger 7)) Hok Hl
    ltac:(intros _; vm_compute; split; discriminate)) as Hw.
  rewrite sample_hash_seen in Hw. change (assign_of _ _ _) with (@Ok (gmap bytes Value) (<[of_str "f" := VInteger 7]> hash_fg)) in Hw.
  destruct (wp_returns _ _ _ _ Hw) as (r & db' & E & Hr & Hwr); [eexists; vm_compute; reflexivity|].
  exists db'. split; [rewrite E, Hr; vm_compute; reflexivity|]. exact (proj1 Hwr).
Defined.

Lemma hash_get_correct_witness :
  exists db', hash_get key_h (of_str "g") sample_hash_db = (inr (Ok (Some (VString (of_str "2")))), db').
Proof.
  destruct sample_hash_ok as [Hok Hl].
  destruct (wp_total _ _ _ (hash_get_correct _ _ _ _ key_h (of_str "g") Hok Hl)) as (r & db' & E & Hr & _).
  rewrite sample_hash_seen in Hr. exists db'. rewrite E, Hr. vm_compute. reflexivity.
Defined.

Lemma hash_del_correct_witness :
  exists db', hash_del key_h (of_str "f") sample_hash_db = (inr (Ok true), db') /\
    db_ok db' (put_hash key_h (delete (of_str "f") hash_fg) None sample_hash_keyspace) [key_h; key_k].
Proof.
  destruct sample_hash_ok as [Hok Hl]. pose proof (hash_del_correct _ _ _ _ key_h (of_str "f") Hok Hl) as Hw.
  unfold hash_del_result in Hw. rewrite sample_hash_seen in Hw. cbn [fmap option_fmap option_map fields_of fst] in Hw.
  assert (bool_decide (hash_fg !! of_str "f" = None) = false) as Hb by (vm_compute; reflexivity). rewrite Hb in Hw.
  destruct (wp_returns _ _ _ _ Hw) as (r & db' & E & -> & Hok' & _); [eexists; vm_compute; reflexivity|].
  exists db'. split; [exact E|]. exact Hok'.
Defined.
