(* ===== verification/Stats.v ===== *)
(** * Stats: the walks over all nodes

    [Database::stats] adds up the memory of the keyspace and
    [Database::release_nodes], which the destructor runs, gives it back;
    both walk the chains of the index from bucket to bucket.  The walk meets
    every node of the keyspace once; so the blocks the statistics count are
    all there are, and after the destructor's walk the keyspace holds no
    memory but the slab blocks, which the pool frees with its chunks. *)

From S2P Require Import Prelude Errors Effects Pack WalCodec Wal Allocator Slab Lru Expiry Buckets Node Store Keyspace StoreSpec Contents Edits Writing Clearing Sample Strings Lists Hashes.

(** ** The program *)

(** What the allocator and the containers of the standard library report of
    themselves in a state of the database.  Tables and their fields are named
    by the address of the table and the name of the field. *)
Class Measures (A : Type) := {
  memory_used : A -> Z;   (** [memory_.used()] *)
  memory_limit : A -> Z;   (** [memory_.limit()] *)
  pool_reserved : A -> Z;   (** [pool_.reserved_bytes()] *)
  buckets_capacity : Database A -> Z;
  expiry_buckets : Database A -> Z;   (** [expiries_.bucket_count()] *)
  table_buckets : Database A -> Z -> Z;
  field_capacity : Database A -> Z -> bytes -> Z;   (** of the name of a field *)
  text_capacity : Database A -> Z -> bytes -> Z;   (** of its text *)
  sizeof_field : Z;   (** of a pair of a name and a value *)
  sizeof_Expiry : Z;
  seconds_between : nat -> nat -> Z   (** two readings of the steady clock *)
}.

Record DatabaseStats := mkStats {
  key_count : Z;
  approximate_memory_bytes : Z;
  wal_bytes : Z;
  stat_evictions : Z;
  stat_expired_keys : Z;
  reserved_memory_bytes : Z;
  owned_memory_bytes : Z;
  max_memory_bytes : Z
}.

Section ops.

Context {A : Type} `{NodeAllocator A} `{!Platform A} `{!Measures A}.

(** [for (node = bucket; node; node = node->next)] *)
Fixpoint chain_nodes (fuel : nat) (I : Index) (node : Z) : list Z :=
  match fuel with
  | O => []
  | S fuel => if node =? 0 then [] else node :: chain_nodes fuel I (next_of I node)
  end.

(** [for (bucket : buckets_)] around it. *)
Definition walk (I : Index) : list Z := concat (map (chain_nodes (chain_fuel I) I) (buckets_ I)).

Definition field_bytes (db : Database A) (t : Z) (p : bytes * Value) : Z :=
  sizeof_field + 2 * 8 + field_capacity db t p.1 + 1 +
  match p.2 with VString _ => text_capacity db t p.1 + 1 | VInteger _ => 0 end.

Definition hash_bytes (db : Database A) (node : Z) : Z :=
  let n := node_at db node in
  if is_promoted n then
    let t := promoted_hash n in
    sizeof_HashTable + table_buckets db t * 8 +
    fold_right (fun p sum => field_bytes db t p + sum) 0 (table_order (time_ db) (default ∅ (tables_ db !! t)))
  else 0.

Definition slab_bytes (db : Database A) (node : Z) : Z :=
  let n := node_at db node in
  if node_size_class n =? oversized_class then 0 else node_block_size n.

Definition sum_over (f : Z -> Z) (nodes : list Z) : Z := fold_right (fun a sum => f a + sum) 0 nodes.

Definition stats (db : Database A) : DatabaseStats :=
  let active := u64 (tracked_bytes_ db + buckets_capacity db * 8 +
    sum_over (hash_bytes db) (walk (index_ db)) +
    expiry_buckets db * 8 + Z.of_nat (size (expiries_ (exp_ db))) * (sizeof_Expiry + 3 * 8) +
    Z.of_nat (heap_capacity_ (exp_ db)) * 8) in
  let slab_live := u64 (sum_over (slab_bytes db) (walk (index_ db))) in
  let reserved := pool_reserved (alloc_ db) in
  mkStats (key_total_ db) active (match wal_ db with Some w => Wal.bytes_ w | None => 0 end)
    (evictions_ db) (expired_keys_ db) (u64 (active + reserved - Z.min slab_live reserved))
    (memory_used (alloc_ db)) (memory_limit (alloc_ db)).

(** [wal_failed], [over_capacity] and [maintenance_needed]. *)
Definition wal_failed (db : Database A) : bool := match wal_ db with Some w => failed_ w | None => false end.
Definition over_capacity (db : Database A) : bool := max_keys_ db <? key_hint_ db.
Definition maintenance_needed (db : Database A) : bool := ttl_hint_ db || (max_keys_ db <? key_hint_ db).

(** The loop body of [release_nodes]. *)
Definition release_node (node : Z) (db : Database A) : Database A :=
  let n := node_at db node in
  let db := if is_promoted n then delete_table (promoted_hash n) db else db in
  if node_size_class n =? oversized_class then free_node node (node_block_size n) db else db.

Fixpoint release_chain (fuel : nat) (node : Z) (db : Database A) : Database A :=
  match fuel with
  | O => db
  | S fuel =>
      if node =? 0 then db else
      let next := next_of (index_ db) node in
      release_chain fuel next (release_node node db)
  end.

Definition release_nodes (db : Database A) : Database A :=
  let fuel := chain_fuel (index_ db) in
  fold_left (fun db bucket => release_chain fuel bucket db) (buckets_ (index_ db)) db.

End ops.

(** ** The walk *)

Lemma chain_nodes_path fuel I s c : cpath (next_ I) s c 0 -> (length c < fuel)%nat -> chain_nodes fuel I s = c.
Proof.
  revert s c. induction fuel as [|fuel IH]; intros s c Hp Hf; [lia|]. cbn [chain_nodes]. destruct c as [|a c]; cbn [cpath] in Hp.
  { by rewrite Hp. }
  destruct Hp as (-> & Ha & n & En & Hp). rewrite (proj2 (Z.eqb_neq a 0) Ha). f_equal. unfold next_of. rewrite En.
  apply IH; [exact Hp|cbn in Hf; lia].
Qed.

Lemma chain_short key_of I chains i c :
  index_rep key_of I chains -> chains !! i = Some c -> NoDup c /\ (length c < chain_fuel I)%nat.
Proof.
  intros HI Hc. pose proof (ir_nodup _ _ _ HI) as Hnd. rewrite <- (take_drop i chains), concat_app, (drop_S _ _ _ Hc) in Hnd.
  apply NoDup_app in Hnd as (_ & _ & Hnd). cbn [concat] in Hnd. apply NoDup_app in Hnd as [Hnd _].
  pose proof (cpath_size _ _ _ _ (ir_chain _ _ _ HI _ _ Hc) Hnd). unfold chain_fuel. split; [exact Hnd|lia].
Qed.

Lemma walk_chains key_of I chains : index_rep key_of I chains -> walk I = concat chains.
Proof.
  intros HI. unfold walk. f_equal. apply list_eq. intros i. rewrite list_lookup_fmap.
  destruct (chains !! i) as [c|] eqn:Ec.
  - pose proof (lookup_lt_Some _ _ _ Ec) as Hi. rewrite (ir_length _ _ _ HI) in Hi. destruct (lookup_lt_is_Some_2 _ _ Hi) as [s Es].
    rewrite Es. cbn [fmap option_fmap option_map]. f_equal. destruct (chain_short _ _ _ _ _ HI Ec) as [_ Hf].
    apply chain_nodes_path; [|exact Hf]. pose proof (ir_chain _ _ _ HI _ _ Ec) as Hp.
    unfold bucket_at in Hp. by rewrite (nth_lookup_Some _ _ _ _ Es) in Hp.
  - apply lookup_ge_None_1 in Ec. rewrite (ir_length _ _ _ HI) in Ec. by rewrite (lookup_ge_None_2 _ _ Ec).
Qed.

Section walks.

Context {A : Type} `{NodeAllocator A} `{!Platform A} `{!Measures A}.

(** Each node of the keyspace is met once. *)
Lemma walk_order (db : Database A) idx order : store_inv db idx order ∅ ∅ -> walk (index_ db) ≡ₚ order.
Proof.
  intros [Hc _]. destruct (si_index _ _ _ _ _ Hc) as (chains & Hrep & Hin & _). rewrite (walk_chains _ _ _ Hrep).
  apply NoDup_Permutation; [apply (ir_nodup _ _ _ Hrep)|apply (lr_nodup _ _ (si_lru _ _ _ _ _ Hc))|].
  intros a. by rewrite Hin, (si_order _ _ _ _ _ Hc).
Qed.

(** ** Giving the nodes back *)

Definition released (ns : list Z) (db : Database A) : Database A := fold_left (fun db a => release_node a db) ns db.

Lemma release_node_next a b (db : Database A) : b <> a -> next_ (index_ (release_node a db)) !! b = next_ (index_ db) !! b.
Proof.
  intros Hb. unfold release_node. destruct (is_promoted (node_at db a)), (node_size_class (node_at db a) =? oversized_class);
    cbn; by rewrite ?lookup_delete_ne by done.
Qed.

Lemma released_next ns b (db : Database A) : (b ∉ ns) -> next_ (index_ (released ns db)) !! b = next_ (index_ db) !! b.
Proof.
  revert db. induction ns as [|a ns IH]; intros db Hb; [done|]. apply not_elem_of_cons in Hb as [Hba Hb].
  change (released (a :: ns) db) with (released ns (release_node a db)). rewrite IH by done. by apply release_node_next.
Qed.

Lemma release_chain_walk fuel s c (db : Database A) :
  cpath (next_ (index_ db)) s c 0 -> NoDup c -> (length c < fuel)%nat -> release_chain fuel s db = released c db.
Proof.
  revert s c db. induction fuel as [|fuel IH]; intros s c db Hp Hnd Hf; [lia|]. cbn [release_chain].
  destruct c as [|a c]; cbn [cpath] in Hp.
  { by rewrite Hp. }
  destruct Hp as (-> & Ha & n & En & Hp). apply NoDup_cons in Hnd as [Hac Hnd]. rewrite (proj2 (Z.eqb_neq a 0) Ha).
  assert (next_of (index_ db) a = n) as -> by (unfold next_of; by rewrite En). cbn [length] in Hf.
  change (released (a :: c) db) with (released c (release_node a db)).
  apply IH; [|exact Hnd|lia]. eapply cpath_ext; [|exact Hp]. intros b Hb. apply release_node_next. by intros ->.
Qed.

Lemma release_nodes_walk key_of (db : Database A) chains :
  index_rep key_of (index_ db) chains -> release_nodes db = released (concat chains) db.
Proof.
  intros HI. unfold release_nodes. set (fuel := chain_fuel (index_ db)).
  assert (forall k i db', (i + k = length chains)%nat -> db' = released (concat (take i chains)) db ->
    fold_left (fun db bucket => release_chain fuel bucket db) (drop i (buckets_ (index_ db))) db' = released (concat chains) db) as Hgo.
  { induction k as [|k IH]; intros i db' Hi ->.
    - rewrite Nat.add_0_r in Hi. subst i. rewrite firstn_all, (ir_length _ _ _ HI), drop_all. done.
    - destruct (lookup_lt_is_Some_2 chains i ltac:(lia)) as [c Ec].
      assert (i < length (buckets_ (index_ db)))%nat as Hlt by (rewrite <- (ir_length _ _ _ HI); lia).
      destruct (lookup_lt_is_Some_2 _ _ Hlt) as [s Es]. rewrite (drop_S _ _ _ Es). cbn [fold_left]. apply IH; [lia|].
      rewrite (take_S_r _ _ _ Ec), concat_app. cbn [concat]. rewrite app_nil_r. unfold released at 2. rewrite fold_left_app.
      destruct (chain_short _ _ _ _ _ HI Ec) as [Hnd Hf]. apply release_chain_walk; [|exact Hnd|exact Hf].
      pose proof (ir_chain _ _ _ HI _ _ Ec) as Hp. unfold bucket_at in Hp. rewrite (nth_lookup_Some _ _ _ _ Es) in Hp.
      eapply cpath_ext; [|exact Hp]. intros b Hb. apply released_next.
      pose proof (ir_nodup _ _ _ HI) as Hall. rewrite <- (take_drop i chains), concat_app, (drop_S _ _ _ Ec) in Hall.
      apply NoDup_app in Hall as (_ & Hd & _). intros Hin. apply (Hd b Hin). cbn [concat]. apply elem_of_app. by left. }
  apply (Hgo (length chains) 0%nat); done.
Qed.

(** Where the walk stands when the nodes [ns] are still to come. *)
Record releasing (db0 : Database A) (ns : list Z) (db : Database A) : Prop := {
  rl_heap a : a ∈ ns -> heap_ db !! a = heap_ db0 !! a;
  rl_alloc : al_ok (alloc_ db);
  rl_taken : al_taken (alloc_ db) = (fun _ => sizeof_HashTable) <$> tables_ db;
  rl_tables t : is_Some (tables_ db !! t) <-> exists a n, a ∈ ns /\ heap_ db0 !! a = Some n /\ table_of n = Some t;
  rl_live a : al_live (alloc_ db) !! a =
    match heap_ db0 !! a with
    | Some n => if bool_decide (a ∈ ns) || negb (node_size_class n =? oversized_class) then Some (node_block_size n) else None
    | None => None
    end
}.

Lemma delete_table_releasing (db0 : Database A) idx order a n ns db :
  store_core db0 idx order ∅ ∅ -> heap_ db0 !! a = Some n -> (a ∉ ns) -> releasing db0 (a :: ns) db ->
  let db1 := if is_promoted n then delete_table (promoted_hash n) db else db in
  heap_ db1 = heap_ db /\ al_ok (alloc_ db1) /\ al_live (alloc_ db1) = al_live (alloc_ db) /\
  al_taken (alloc_ db1) = (fun _ => sizeof_HashTable) <$> tables_ db1 /\
  forall t, is_Some (tables_ db1 !! t) <-> exists b m, b ∈ ns /\ heap_ db0 !! b = Some m /\ table_of m = Some t.
Proof.
  intros Hc Ea Hns [_ Ha Htk Ht _]. assert (forall t, table_of n = Some t -> is_Some (tables_ db !! t)) as Hmine.
  { intros t Et. apply Ht. exists a, n. split; [left|done]. }
  unfold table_of in Hmine. destruct (is_promoted n) eqn:Ep.
  - destruct (Hmine _ eq_refl) as [T ET]. destruct (al_return_spec _ Ha) as (Hr & Erl & Ert).
    destruct (al_give_spec (promoted_hash n) sizeof_HashTable _ Hr) as (Hg & Egt & Egl); [by rewrite Ert, Htk, lookup_fmap, ET|].
    cbn. split; [reflexivity|]. conjuncts; [by rewrite Egl, Erl|by rewrite Egt, Ert, Htk, fmap_delete|]. intros t.
    assert (table_of n = Some (promoted_hash n)) as En by (unfold table_of; by rewrite Ep).
    rewrite lookup_delete_is_Some, Ht. split.
    + intros (Hne & b & m & Hb & Eb & Em). apply elem_of_cons in Hb as [->|Hb]; [|by exists b, m]. congruence.
    + intros (b & m & Hb & Eb & Em). split; [|exists b, m; split; [by right|done]]. intros <-.
      assert (b = a) as -> by (by eapply (si_owner _ _ _ _ _ Hc)). done.
  - cbn. split; [reflexivity|]. split; [exact Ha|]. split; [reflexivity|]. split; [exact Htk|]. intros t. rewrite Ht. split; intros (b & m & Hb & Eb & Em).
    + apply elem_of_cons in Hb as [->|Hb]; [|by exists b, m]. assert (m = n) as -> by congruence. unfold table_of in Em. by rewrite Ep in Em.
    + exists b, m. split; [by right|done].
Qed.

Lemma release_node_step (db0 : Database A) idx order a n ns db :
  store_core db0 idx order ∅ ∅ -> heap_ db0 !! a = Some n -> (a ∉ ns) -> releasing db0 (a :: ns) db ->
  releasing db0 ns (release_node a db).
Proof.
  intros Hc Ea Hns Hr. destruct (delete_table_releasing _ _ _ _ _ _ _ Hc Ea Hns Hr) as (Eh & Hok & Elv & Etk & Ht).
  assert (node_at db a = n) as En by (apply node_at_lookup; rewrite (rl_heap _ _ _ Hr); [exact Ea|left]).
  unfold release_node. rewrite En. pose proof (rl_heap _ _ _ Hr) as Hheap. pose proof (rl_live _ _ _ Hr) as Hlive. clear Hr.
  generalize dependent (if is_promoted n then delete_table (promoted_hash n) db else db). intros db1 Eh Hok Elv Etk Ht.
  rewrite <- Elv in Hlive. assert (bool_decide (a ∈ a :: ns) = true) as Eba by (apply bool_decide_true; left).
  assert (forall b, b <> a -> bool_decide (b ∈ a :: ns) = bool_decide (b ∈ ns)) as Ebo.
  { intros b Hb. apply bool_decide_ext. rewrite elem_of_cons. tauto. }
  destruct (Z.eqb_spec (node_size_class n) oversized_class) as [Ec|Ec].
  - assert (al_live (alloc_ db1) !! a = Some (node_block_size n)) as El by (by rewrite Hlive, Ea, Eba).
    destruct (al_deallocate_spec _ _ _ Hok El) as (Hd & Edl & Edt). constructor; cbn.
    + intros b Hb. rewrite lookup_delete_ne by (by intros ->). rewrite Eh. apply Hheap. by right.
    + exact Hd.
    + by rewrite Edt.
    + exact Ht.
    + intros b. rewrite Edl. destruct (decide (b = a)) as [->|Hba].
      * rewrite lookup_delete_eq, Ea, Ec, Z.eqb_refl, bool_decide_false by done. done.
      * by rewrite lookup_delete_ne, Hlive, Ebo by done.
  - constructor; [|exact Hok|exact Etk|exact Ht|].
    + intros b Hb. rewrite Eh. apply Hheap. by right.
    + intros b. rewrite Hlive. destruct (decide (b = a)) as [->|Hba]; [|by rewrite Ebo].
      rewrite Ea, (proj2 (Z.eqb_neq _ _) Ec). by rewrite !orb_true_r.
Qed.

Lemma released_all (db0 : Database A) idx order ns db :
  store_core db0 idx order ∅ ∅ -> NoDup ns -> (forall a, a ∈ ns -> is_Some (heap_ db0 !! a)) -> releasing db0 ns db ->
  releasing db0 [] (released ns db).
Proof.
  intros Hc. revert db. induction ns as [|a ns IH]; intros db Hnd Hin Hr; [exact Hr|]. apply NoDup_cons in Hnd as [Ha Hnd].
  destruct (Hin a) as [n En]; [left|]. apply IH; [exact Hnd|intros b Hb; apply Hin; by right|by eapply release_node_step].
Qed.

(** The slab blocks of the nodes are what is left to the pool. *)
Definition slab_blocks (db : Database A) : gmap Z Z :=
  node_block_size <$> filter (fun p => node_size_class p.2 <> oversized_class) (heap_ db).

Lemma release_nodes_ok (db : Database A) K R :
  db_ok db K R -> let m := alloc_ (release_nodes db) in al_ok m /\ al_taken m = ∅ /\ al_live m = slab_blocks db.
Proof.
  intros (idx & order & [Hc _] & _). destruct (si_index _ _ _ _ _ Hc) as (chains & Hrep & Hin & _). cbv zeta.
  rewrite (release_nodes_walk _ _ _ Hrep).
  assert (forall a, a ∈ concat chains <-> is_Some (heap_ db !! a)) as Hall.
  { intros a. rewrite (si_nodes _ _ _ _ _ Hc), Hin, <- (si_order _ _ _ _ _ Hc). split; [by left|]. intros [Ha|Ha]; [done|by apply elem_of_empty in Ha]. }
  assert (releasing db (concat chains) db) as H0.
  { constructor; [intros a _; reflexivity|exact (si_alloc _ _ _ _ _ Hc)|exact (si_taken _ _ _ _ _ Hc)| |].
    - intros t. rewrite (si_owned _ _ _ _ _ Hc). split.
      + intros [Ht|(a & n & Ea & Et)]; [by apply elem_of_empty in Ht|]. exists a, n. split; [apply Hall; by exists n|done].
      + intros (a & n & _ & Ea & Et). right. by exists a, n.
    - intros a. rewrite (si_live _ _ _ _ _ Hc), lookup_fmap. destruct (heap_ db !! a) as [n|] eqn:Ea; [|done].
      rewrite bool_decide_true by (apply Hall; by exists n). done. }
  destruct (released_all _ _ _ _ _ Hc (ir_nodup _ _ _ Hrep) (fun a Ha => proj1 (Hall a) Ha) H0) as [_ Hok Htk Ht Hlv].
  generalize dependent (released (concat chains) db). intros db' Hok Htk Ht Hlv. split; [exact Hok|]. split.
  - rewrite Htk. apply map_empty. intros t. rewrite lookup_fmap. destruct (tables_ db' !! t) as [T|] eqn:E; [|done].
    destruct (proj1 (Ht t)) as (a & n & Ha & _); [by exists T|]. by apply elem_of_nil in Ha.
  - apply map_eq. intros a. rewrite Hlv. unfold slab_blocks. rewrite lookup_fmap, map_lookup_filter.
    destruct (heap_ db !! a) as [n|]; [|done]. cbn. rewrite bool_decide_false by apply not_elem_of_nil. cbn.
    destruct (Z.eqb_spec (node_size_class n) oversized_class); [by rewrite option_guard_False by (intros Hn; by apply Hn)|by rewrite option_guard_True].
Qed.

(** ** What the statistics count *)

(** A node's block and, if it is a promoted hash, its table. *)
Definition node_bytes (db : Database A) (a : Z) : Z := node_block_size (node_at db a) + hash_bytes db a.

Lemma sum_over_perm f l l' : l ≡ₚ l' -> sum_over f l = sum_over f l'.
Proof. induction 1; cbn; unfold sum_over in *; lia. Qed.

Lemma sum_over_plus f g l : sum_over (fun a => f a + g a) l = sum_over f l + sum_over g l.
Proof. induction l as [|a l IH]; cbn; [done|]. unfold sum_over in IH. lia. Qed.

Lemma total_sum (m : gmap Z Z) l (f : Z -> Z) :
  NoDup l -> (forall a, is_Some (m !! a) <-> a ∈ l) -> (forall a n, m !! a = Some n -> f a = n) -> total m = sum_over f l.
Proof.
  revert m. induction l as [|a l IH]; intros m Hnd Hd Hf.
  - assert (m = ∅) as ->; [|done]. apply map_empty. intros a. destruct (m !! a) as [n|] eqn:E; [|done].
    by destruct (not_elem_of_nil a (proj1 (Hd a) (ex_intro _ n E))).
  - apply NoDup_cons in Hnd as [Ha Hnd]. destruct (proj2 (Hd a)) as [n En]; [left|].
    change (sum_over f (a :: l)) with (f a + sum_over f l). rewrite (Hf _ _ En).
    rewrite <- (IH (delete a m)); [rewrite (total_delete _ _ _ En); lia|exact Hnd| |].
    + intros b. rewrite lookup_delete_is_Some, Hd, elem_of_cons. split; [|intros Hb; split; [by intros ->|by right]].
      intros [Hne [->|Hb]]; done.
    + intros b n' Eb. apply lookup_delete_Some in Eb as [_ Eb]. by apply Hf.
Qed.

(** Every node is counted once, with its whole block and its table. *)
Lemma stats_ok (db : Database A) K R :
  db_ok db K R ->
  let s := stats db in let nodes := walk (index_ db) in
  map (key_at db) nodes ≡ₚ R /\ key_count s = u64 (len R) /\
  approximate_memory_bytes s = u64 (sum_over (node_bytes db) nodes + buckets_capacity db * 8 + expiry_buckets db * 8 +
    Z.of_nat (size (expiries_ (exp_ db))) * (sizeof_Expiry + 24) + Z.of_nat (heap_capacity_ (exp_ db)) * 8).
Proof.
  intros (idx & order & HI & _ & ->). pose proof HI as [Hc _]. pose proof (walk_order _ _ _ HI) as Hw. cbv zeta. split.
  { unfold recency. by rewrite Hw. }
  split; [unfold stats; cbn; rewrite (si_total _ _ _ _ _ Hc); unfold recency, len; by rewrite length_fmap|].
  unfold stats. cbn [approximate_memory_bytes]. unfold node_bytes. rewrite (sum_over_plus (fun a => node_block_size (node_at db a))).
  rewrite (si_tracked _ _ _ _ _ Hc), (total_sum _ (walk (index_ db)) (fun a => node_block_size (node_at db a))).
  - rewrite <- !Z.add_assoc, u64_add. f_equal. lia.
  - rewrite Hw. apply (lr_nodup _ _ (si_lru _ _ _ _ _ Hc)).
  - intros a. rewrite (si_live _ _ _ _ _ Hc), lookup_fmap, fmap_is_Some, (si_nodes _ _ _ _ _ Hc), Hw.
    split; [|by left]. intros [Ha|Ha]; [done|by apply elem_of_empty in Ha].
  - intros a n. rewrite (si_live _ _ _ _ _ Hc), lookup_fmap. intros E. apply fmap_Some in E as (m & Em & ->). by rewrite (node_at_lookup _ _ _ Em).
Qed.

End walks.

(** ** Results *)

Section results.

Context {A : Type} `{NodeAllocator A} `{!Platform A} `{!Measures A}.

(** The statistics count every node of the keyspace exactly once: the nodes
    they walk over are those of the keys, the number of keys is right, and the
    memory in use is the sum over the nodes of their blocks and tables, and of
    the containers. *)
Theorem stats_correct (db : Database A) K R :
  db_ok db K R ->
  let s := stats db in let nodes := walk (index_ db) in
  map (key_at db) nodes ≡ₚ R /\ key_count s = u64 (len R) /\
  approximate_memory_bytes s = u64 (sum_over (node_bytes db) nodes + buckets_capacity db * 8 + expiry_buckets db * 8 +
    Z.of_nat (size (expiries_ (exp_ db))) * (sizeof_Expiry + 24) + Z.of_nat (heap_capacity_ (exp_ db)) * 8).
Proof. apply stats_ok. Qed.


End results.

(** ** Examples *)

(** Containers as large as they need to be. *)
#[global] Instance sample_measures : Measures Memory := {|
  memory_used m := used_ (mem_pool m);
  memory_limit m := limit_ (mem_pool m);
  pool_reserved m := reserved_ (mem_pool m);
  buckets_capacity db := len (buckets_ (index_ db));
  expiry_buckets db := Z.of_nat (size (expiries_ (exp_ db)));
  table_buckets db t := Z.of_nat (size (default ∅ (tables_ db !! t)));
  field_capacity _ _ f := len f;
  text_capacity db t f := match default ∅ (tables_ db !! t) !! f with Some (VString s) => len s | _ => 0 end;
  sizeof_field := 80;
  sizeof_Expiry := 16;
  seconds_between t u := (steady_at u - steady_at t) / 1000
|}.

Lemma stats_correct_witness :
  map (key_at sample_hash_db) (walk (index_ sample_hash_db)) ≡ₚ [key_h; key_k] /\ key_count (stats sample_hash_db) = 2.
Proof.
  destruct sample_hash_ok as [Hok _]. destruct (stats_correct sample_hash_db _ _ Hok) as (Hw & Hc & _). split; [exact Hw|exact Hc].
Defined.

