(* ===== verification/Throws.v ===== *)
(** * Throws: the exceptions of the operations

    Which exceptions each operation can leave with, in whatever state the
    database is.  The proofs only follow the calls an operation makes.  They
    are done once, over a condition [I] on the log and the exceptions [P] that
    its operations throw, and used twice: while the log is read back nothing
    is written to it, and running out of memory is all that can happen; when
    the database is in use the log may refuse a record as well. *)

From S2P Require Import Prelude Charconv Errors Effects Pack WalCodec Wal Allocator Slab Lru Expiry Buckets Node Store Keyspace StoreSpec Contents Edits Writing Strings Timers Lists Hashes.

Section throws.

Context {A : Type} `{NodeAllocator A} `{!Platform A}.

(** A change that leaves the log alone. *)
Definition aside (f : Database A -> Database A) : Prop :=
  forall db, replaying_ (f db) = replaying_ db /\ wal_ (f db) = wal_ db.

Lemma clear_expiry_aside a : aside (clear_expiry a).
Proof. intros db. unfold clear_expiry. destruct (Expiry.clear_expiry a (exp_ db)) as [[] X]; done. Qed.

Lemma destroy_aside a : aside (destroy a).
Proof. intros db. unfold destroy. destruct (is_promoted _); done. Qed.

Lemma erase_aside a : aside (erase_node a).
Proof.
  intros db. rewrite erase_retire. destruct (clear_expiry_aside a db) as [E1 E2].
  generalize dependent (clear_expiry a db). intros db1 E1 E2. unfold retire. cbv zeta.
  set (db2 := set_key_total _ _). assert (replaying_ db2 = replaying_ db1 /\ wal_ db2 = wal_ db1) as [E3 E4] by (split; reflexivity).
  clearbody db2. destruct (destroy_aside a db2) as [E5 E6]. generalize dependent (destroy a db2). intros db3 E5 E6.
  cbn [replaying_ wal_ bump_sequence put_sequence]. by rewrite E5, E6, E3, E4.
Qed.

Lemma attach_aside a : aside (attach a).
Proof. done. Qed.

Lemma carry_aside old fresh b : aside (carry_ttl old fresh b).
Proof. intros db. unfold carry_ttl. destruct (_ && _); done. Qed.

Lemma commit_aside old fresh b : aside (commit_node old fresh b).
Proof.
  intros db. unfold commit_node. cbv zeta. destruct (carry_aside old fresh b db) as [E1 E2].
  generalize dependent (carry_ttl old fresh b db). intros db1 E1 E2.
  destruct (nonnull old); [|destruct (attach_aside fresh db1) as [-> ->]; by split].
  destruct (erase_aside old db1) as [E3 E4]. generalize dependent (erase_node old db1). intros db2 E3 E4.
  destruct (attach_aside fresh db2) as [-> ->]. by rewrite E3, E4.
Qed.

Lemma delete_table_aside t : aside (delete_table t).
Proof. done. Qed.

(** ** The operations *)

Variables (I : Database A -> Prop) (P : exn -> Prop).
Hypothesis I_frame : forall db db', replaying_ db' = replaying_ db -> wal_ db' = wal_ db -> I db -> I db'.
Hypothesis P_alloc : P exn_bad_alloc.
Hypothesis log_calm : forall op args, calm I P (log op args).
Hypothesis reserve_calm : forall n, calm I P (reserve_log n).

Lemma modify_calm f : aside f -> calm I P (modify f).
Proof. intros Hf. apply calm_modify. intros db Hdb. destruct (Hf db) as [E1 E2]. by apply (I_frame db). Qed.

Lemma allocate_calm n : calm I P (on_alloc (al_allocate n)).
Proof.
  apply calm_zoom; [|intros a db; by apply I_frame]. intros a. eapply wp_mono; [apply al_allocate_throws|done|by intros e a' ->].
Qed.

Lemma take_calm n : calm I P (on_alloc (al_take n)).
Proof.
  apply calm_zoom; [|intros a db; by apply I_frame]. intros a. eapply wp_mono; [apply al_take_throws|done|by intros e a' ->].
Qed.

Lemma container_calm : calm I P (on_alloc al_container).
Proof.
  apply calm_zoom; [|intros a db; by apply I_frame]. intros a. eapply wp_mono; [apply al_container_throws|done|by intros e a' ->].
Qed.

Lemma now_calm : calm I P now_ms.
Proof. intros db Hdb. apply now_wp. by apply (I_frame db). Qed.

Ltac aside :=
  lazymatch goal with
  | |- aside (clear_expiry _) => apply clear_expiry_aside
  | |- aside (destroy _) => apply destroy_aside
  | |- aside (erase_node _) => apply erase_aside
  | |- aside (commit_node _ _ _) => apply commit_aside
  | |- aside _ => intros ?; split; reflexivity
  end.

(** Follow the calls. *)
Ltac calm_step :=
  lazymatch goal with
  | |- calm _ _ (bind _ _) => apply calm_bind; [|intros ?]
  | |- calm _ _ (ret _) => apply calm_ret
  | |- calm _ _ (throw exn_bad_alloc) => apply calm_throw, P_alloc
  | |- calm _ _ (throw _) => apply calm_throw; solve [auto]
  | |- calm _ _ Effects.get => apply calm_get
  | |- calm _ _ (gets _) => apply calm_gets
  | |- calm _ _ (modify _) => apply modify_calm; aside
  | |- calm _ _ (when _ _) => apply calm_when
  | |- calm _ _ (try_catch _ _) => apply calm_try_catch; [|intros ? ?]
  | |- calm _ _ (on_alloc (al_allocate _)) => apply allocate_calm
  | |- calm _ _ (on_alloc (al_take _)) => apply take_calm
  | |- calm _ _ (on_alloc al_container) => apply container_calm
  | |- calm _ _ container => apply container_calm
  | |- calm _ _ (log _ _) => apply log_calm
  | |- calm _ _ (reserve_log _) => apply reserve_calm
  | |- calm _ _ now_ms => apply now_calm
  | |- calm _ _ (if ?b then _ else _) => destruct b
  | |- calm _ _ (match ?x with _ => _ end) => destruct x
  end.
Ltac calm_steps := repeat (calm_step; cbv beta zeta).

Lemma maybe_rehash_calm : calm I P maybe_rehash.
Proof. unfold maybe_rehash. calm_steps. Qed.

Lemma create_calm key type cap : calm I P (create_node key type cap).
Proof. unfold create_node. calm_steps. Qed.

Lemma insert_calm key type cap : calm I P (insert_node key type cap).
Proof. unfold insert_node. calm_step; [apply maybe_rehash_calm|]. calm_step; [apply create_calm|]. calm_steps. Qed.

Lemma grow_calm node cap : calm I P (grow_node node cap).
Proof. unfold grow_node. calm_steps. Qed.

Lemma schedule_calm node deadline : calm I P (schedule_expiry node deadline).
Proof. unfold schedule_expiry. calm_steps. Qed.

Lemma install_calm {R} old fresh fill keep (records : Z -> M (Database A) R) :
  (forall p, calm I P (records p)) -> calm I P (install old fresh fill keep records).
Proof. intros Hr. unfold install, with_pending. calm_steps. apply Hr. Qed.

Lemma build_calm {R} key old type cap fill keep (records : Z -> M (Database A) R) :
  (forall p, calm I P (records p)) -> calm I P (build key old type cap fill keep records).
Proof. intros Hr. unfold build. calm_step; [apply create_calm|by apply install_calm]. Qed.

Section key.

Variable key : bytes.
Hypothesis Hkey : max_key_length < len key -> P (exn_error request_too_large).

Lemma writable_calm : calm I P (find_writable key).
Proof.
  unfold find_writable. destruct (Z.ltb_spec max_key_length (len key)); [apply calm_throw; auto|]. calm_steps.
Qed.

Lemma set_calm val :
  (64 * 1024 * 1024 < len val -> P (exn_error request_too_large)) -> calm I P (set key val).
Proof.
  intros Hv. unfold set. destruct (Z.ltb_spec (64 * 1024 * 1024) (len val)); [apply calm_throw; auto|].
  calm_step; [apply writable_calm|]. calm_step; [apply calm_get|]. destruct (set_needs_block _ _ _); [|calm_steps].
  calm_step; [apply calm_when, maybe_rehash_calm|]. apply build_calm. intros p. apply log_calm.
Qed.

Lemma increment_calm : calm I P (increment key).
Proof.
  unfold increment. calm_step; [apply writable_calm|]. destruct (_ =? 0).
  { calm_step; [apply maybe_rehash_calm|]. calm_step; [apply build_calm; intros p; apply log_calm|calm_steps]. }
  calm_steps. apply grow_calm.
Qed.

Lemma reserve_list_calm node f b : calm I P (list_reserve node f b).
Proof. unfold list_reserve. calm_steps. apply grow_calm. Qed.

Lemma push_prepare_calm value front encoded node : calm I P (push_prepare key value front encoded node).
Proof. unfold push_prepare. calm_steps; apply reserve_list_calm. Qed.

Lemma push_calm value front : calm I P (list_push key value front).
Proof.
  unfold list_push. cbv zeta. calm_step; [apply writable_calm|]. calm_steps; try apply push_prepare_calm.
  - apply maybe_rehash_calm.
  - apply build_calm. intros p. apply push_prepare_calm.
Qed.

Lemma push_texts_calm values front : calm I P (push_texts key values front).
Proof.
  unfold push_texts. calm_step; [apply writable_calm|]. calm_steps; [apply maybe_rehash_calm|].
  apply build_calm. intros p. calm_steps. apply calm_for_each. intros v _. apply log_calm.
Qed.

Lemma pop_calm front : calm I P (list_pop key front).
Proof. unfold list_pop. calm_step; [apply writable_calm|]. calm_steps; apply grow_calm. Qed.

Lemma make_hash_calm : calm I P make_hash.
Proof. unfold make_hash. calm_steps. Qed.

Lemma table_assign_calm node t field value : calm I P (table_assign node t key field value).
Proof. unfold table_assign, scoped. calm_steps. Qed.

Lemma emplace_calm t p : calm I P (emplace t p).
Proof. unfold emplace. calm_steps. Qed.

Lemma insert_or_assign_calm t field value : calm I P (insert_or_assign t field value).
Proof. unfold insert_or_assign. calm_steps. Qed.

Lemma promote_calm node field value l pairs : calm I P (promote_packed node key field value l pairs).
Proof.
  unfold promote_packed, with_table. calm_step; [apply make_hash_calm|]. calm_step; [|apply install_calm; intros p; apply log_calm].
  calm_step; [|calm_steps]. calm_step; [apply container_calm|]. calm_step; [apply calm_for_each; intros; apply emplace_calm|].
  calm_step; [apply insert_or_assign_calm|apply create_calm].
Qed.

Lemma packed_store_calm inside node n field value found old_bytes used needed pairs :
  calm I P (packed_store inside node n key field value found old_bytes used needed pairs).
Proof.
  unfold packed_store, scoped. cbv zeta. destruct (_ || _); [apply promote_calm|].
  destruct (_ || _); [apply build_calm; intros p; apply log_calm|]. calm_steps.
Qed.

Lemma assign_calm inside field value : calm I P (hash_assign inside key field value).
Proof.
  unfold hash_assign, packed_assign. calm_step; [apply writable_calm|]. calm_steps.
  - apply table_assign_calm.
  - apply maybe_rehash_calm.
  - apply packed_store_calm.
Qed.

Lemma hash_del_calm field : calm I P (hash_del key field).
Proof. unfold hash_del. calm_step; [apply writable_calm|]. calm_steps. Qed.

Lemma del_calm : calm I P (del key).
Proof. unfold del. calm_step; [apply writable_calm|]. calm_steps. Qed.

End key.

End throws.
