(* ===== verification/Records.v ===== *)
(** * Records: what the records of the log mean

    The log is a list of records.  [apply_record] says what one of them does
    to a map from keys to values with the wall-clock times they expire at,
    and which records make no sense there; [apply_all] reads a whole log.
    The lemmas of this file show that the records every command writes lead
    from what the keyspace was to what it is ([matches]), and that reading
    records keeps the sizes and the integers within the limits of the
    program ([fine]).  [Replay] shows that [Database::replay] implements
    [apply_record]. *)

From S2P Require Import Prelude Charconv Errors Effects Pack WalCodec Wal Allocator Slab Lru Expiry Buckets Node Store Keyspace StoreSpec Contents Edits Writing Strings Timers Lists Hashes.

(** ** The meaning of a record *)

Definition value_limit : Z := 64 * 1024 * 1024.

(** The two arguments that stand for a value. *)
Definition value_arg (kind text : bytes) : option Value :=
  if bytes_eqb kind (of_str "i") then VInteger <$> from_chars_int64 text
  else if bytes_eqb kind (of_str "s") then Some (VString text)
  else None.

Definition result_value {X : Type} (r : Result X) : option X :=
  match r with Ok x => Some x | Unexpected _ => None end.

(** A list without the element at one end. *)
Definition rest_of (front : bool) (l : list Value) : list Value := if front then tail l else removelast l.

Section apply.

Variables (key : bytes) (S : Keyspace).

Let old : option dvalue := fst <$> S !! key.
Let stamp : option Z := S !! key ≫= snd.

Definition apply_push (front : bool) (kind text : bytes) : option Keyspace :=
  v ← value_arg kind text;
  l ← result_value (push_of front (input_from v) old);
  Some (<[key := (DList l, stamp)]> S).

Definition apply_pop (front : bool) : option Keyspace :=
  match old with
  | None | Some (DList []) => Some S
  | Some (DList l) => Some (put_list key (rest_of front l) stamp S)
  | Some _ => None
  end.

Definition apply_hash_set (field kind text : bytes) : option Keyspace :=
  v ← value_arg kind text;
  h ← result_value (assign_of field (input_from v) old);
  Some (<[key := (DHash h, stamp)]> S).

Definition apply_hash_del (field : bytes) : option Keyspace :=
  h ← result_value (fields_of old);
  Some (if bool_decide (h !! field = None) then S else put_hash key (delete field h) stamp S).

Definition apply_expire_at (text : bytes) : option Keyspace :=
  v ← old;
  wall ← from_chars_int64 text;
  if wall <? 0 then None else Some (<[key := (v, Some wall)]> S).

Definition apply_to (op : WalOp) (args : list bytes) : option Keyspace :=
  match op, args with
  | op_set, [val] => if value_limit <? len val then None else Some (<[key := (DString val, None)]> S)
  | op_integer_set, [text] => n ← from_chars_int64 text; Some (<[key := (DInt n, None)]> S)
  | op_increment, [] => n ← result_value (incr_of old); Some (<[key := (DInt n, stamp)]> S)
  | op_push_left, [kind; text] => apply_push true kind text
  | op_push_right, [kind; text] => apply_push false kind text
  | op_pop_left, [] => apply_pop true
  | op_pop_right, [] => apply_pop false
  | op_hash_set, [field; kind; text] => apply_hash_set field kind text
  | op_hash_del, [field] => apply_hash_del field
  | op_expire_at, [text] => apply_expire_at text
  | op_del, [] => Some (delete key S)
  | _, _ => None
  end.

End apply.

Definition apply_record (S : Keyspace) (r : WalOp * list bytes) : option Keyspace :=
  match r.2 with
  | key :: args => if max_key_length <? len key then None else apply_to key S r.1 args
  | [] => None
  end.

Fixpoint apply_all (rs : list (WalOp * list bytes)) (S : Keyspace) : option Keyspace :=
  match rs with
  | [] => Some S
  | r :: rs => apply_record S r ≫= apply_all rs
  end.

Lemma apply_all_app rs1 rs2 S : apply_all (rs1 ++ rs2) S = apply_all rs1 S ≫= apply_all rs2.
Proof.
  revert S. induction rs1 as [|r rs1 IH]; intros S; [done|]. cbn [app apply_all].
  destruct (apply_record S r); [apply IH|done].
Qed.

Lemma apply_all_prefix rs1 rs S S' : rs1 `prefix_of` rs -> apply_all rs S = Some S' -> exists S1, apply_all rs1 S = Some S1.
Proof. intros [rs2 ->]. rewrite apply_all_app. destruct (apply_all rs1 S) as [S1|]; [by exists S1|done]. Qed.

(** ** Limits *)

Definition fine_field (f : bytes) (v : Value) : Prop :=
  len f <= hash_limit /\ input_size (input_from v) false <= hash_limit /\ encodable v.

Definition fine_value (v : dvalue) : Prop :=
  match v with
  | DString s => len s <= value_limit
  | DInt n => is_int64 n
  | DList l => l <> [] /\ len (encode_run l) <= list_limit /\ Forall encodable l
  | DHash h => h <> ∅ /\ map_Forall fine_field h
  end.

Definition fine_entry (k : bytes) (e : entry) : Prop :=
  len k <= max_key_length /\ fine_value e.1 /\ forall w, e.2 = Some w -> 0 <= w <= int64_max.

Definition fine (S : Keyspace) : Prop := map_Forall fine_entry S.

Lemma fine_empty : fine ∅.
Proof. apply map_Forall_empty. Qed.

Lemma fine_insert S k e : fine S -> fine_entry k e -> fine (<[k := e]> S).
Proof. intros HS He. by apply map_Forall_insert_2. Qed.

Lemma fine_delete S k : fine S -> fine (delete k S).
Proof. intros HS. by apply map_Forall_delete. Qed.

(** The time an entry had is one it may have. *)
Lemma fine_stamp S k w : fine S -> S !! k ≫= snd = Some w -> 0 <= w <= int64_max.
Proof. intros HS E. destruct (S !! k) as [e|] eqn:Ek; [|done]. by apply (HS k e Ek). Qed.

Lemma fine_old S k v : fine S -> fst <$> S !! k = Some v -> fine_value v.
Proof. intros HS E. destruct (S !! k) as [e|] eqn:Ek; [|done]. injection E as <-. by apply (HS k e Ek). Qed.

Lemma value_arg_typed kind text v : value_arg kind text = Some v -> typed_input (input_from v).
Proof.
  unfold value_arg. destruct (bytes_eqb kind (of_str "i")).
  - destruct (from_chars_int64 text) as [n|] eqn:E; [|done]. intros [= <-] _. by eapply from_chars_int64_range.
  - destruct (bytes_eqb kind (of_str "s")); [|done]. by intros [= <-].
Qed.

Lemma pushed_fine front v l old :
  typed_input v -> (forall l0, old = Some (DList l0) -> Forall encodable l0) -> push_of front v old = Ok l -> fine_value (DList l).
Proof.
  intros Hty Hold. unfold push_of, pushed. destruct old as [[s|n|l0|h]|]; try discriminate.
  - destruct (Z.ltb_spec list_limit (len (encode_run l0) + input_size v true)) as [|Hs]; [discriminate|]. intros [= <-].
    pose proof (len_nonneg (encode_run l0)). destruct (small_encodable v Hty ltac:(lia)) as [He El].
    assert (len (encode_run [input_value v]) = input_size v true) as E1.
    { unfold encode_run. cbn [map concat]. by rewrite app_nil_r, input_value_write. }
    destruct front; cbn [fine_value].
    + split; [done|]. split; [|by constructor; auto].
      change (input_value v :: l0) with ([input_value v] ++ l0). rewrite encode_run_app, len_app. lia.
    + split; [by destruct l0|]. rewrite encode_run_app, len_app. split; [lia|]. apply Forall_app. auto.
  - destruct (Z.ltb_spec list_limit (input_size v true)) as [|Hs]; [discriminate|]. intros [= <-].
    destruct (small_encodable v Hty Hs) as [He El]. cbn [fine_value]. split; [done|]. split; [|by constructor].
    unfold encode_run. cbn [map concat]. rewrite app_nil_r, input_value_write. lia.
Qed.

Lemma rest_fine front l : fine_value (DList l) -> rest_of front l <> [] -> fine_value (DList (rest_of front l)).
Proof.
  intros (Hne & Hs & He) Hr. split; [done|]. destruct front; cbn [rest_of] in *.
  - destruct l as [|v l]; [done|]. cbn [tail] in *. rewrite encode_run_cons, len_app in Hs.
    pose proof (len_nonneg (write_element (input_from v) true)). inversion He. split; [lia|done].
  - destruct (@exists_last _ l Hne) as (l' & v & ->). rewrite removelast_last in *.
    rewrite encode_run_app, len_app in Hs. pose proof (len_nonneg (encode_run [v])). apply Forall_app in He as [He _].
    split; [lia|done].
Qed.

Lemma put_list_fine k l d S :
  fine S -> len k <= max_key_length -> (l <> [] -> fine_value (DList l)) -> (forall w, d = Some w -> 0 <= w <= int64_max) ->
  fine (put_list k l d S).
Proof.
  intros HS Hk Hl Hd. destruct l as [|v l]; cbn [put_list]; [by apply fine_delete|]. apply fine_insert; [done|].
  split; [done|]. split; [by apply Hl|exact Hd].
Qed.

Lemma assigned_fine field v old h :
  typed_input v -> (forall h0, old = Some (DHash h0) -> map_Forall fine_field h0) -> assign_of field v old = Ok h ->
  fine_value (DHash h).
Proof.
  intros Hty Hold. unfold assign_of. destruct (fields_of old) as [h0|] eqn:Ef; [|discriminate].
  destruct ((hash_limit <? len field) || (hash_limit <? input_size v false)) eqn:Hbig; [discriminate|].
  apply orb_false_elim in Hbig as [H1 H2]. apply Z.ltb_ge in H1, H2. intros [= <-]. split; [apply insert_non_empty|].
  apply map_Forall_insert_2.
  - split; [done|]. split; [|by apply small_encodable_body].
    replace (input_size (input_from (input_value v)) false) with (input_size v false); [done|]. by destruct v as [[] ? ?].
  - destruct old as [[s|n|l|h1]|]; try discriminate; injection Ef as <-; [by apply Hold|apply map_Forall_empty].
Qed.

Lemma removed_fine k field h d S :
  fine S -> len k <= max_key_length -> map_Forall fine_field h -> (forall w, d = Some w -> 0 <= w <= int64_max) ->
  fine (put_hash k (delete field h) d S).
Proof.
  intros HS Hk Hh Hd. unfold put_hash. destruct (bool_decide_reflect (delete field h = ∅)); [by apply fine_delete|].
  apply fine_insert; [done|]. split; [done|]. split; [|exact Hd]. split; [done|]. by apply map_Forall_delete.
Qed.

Lemma incremented_int64 old z :
  (forall n, old = Some (DInt n) -> is_int64 n) -> incr_of old = Ok z -> is_int64 z.
Proof.
  intros Hold. unfold incr_of.
  assert (forall n, is_int64 n -> (if n =? int64_max then Unexpected value_not_integer else Ok (n + 1)) = Ok z -> is_int64 z) as Hnext.
  { intros n Hn. destruct (Z.eqb_spec n int64_max); [discriminate|]. intros [= <-]. by apply next_int64. }
  destruct old as [[s|n|l|h]|]; try discriminate.
  - destruct (from_chars_int64 s) as [n|] eqn:E; [|discriminate]. apply Hnext. by eapply from_chars_int64_range.
  - apply Hnext. by apply Hold.
  - intros [= <-]. unfold is_int64, int64_min, int64_max. lia.
Qed.

(** Reading a record keeps the limits. *)
Lemma apply_fine S r S' : fine S -> apply_record S r = Some S' -> fine S'.
Proof.
  intros HS. destruct r as [op [|key args]]; [done|]. unfold apply_record. cbn [fst snd].
  destruct (Z.ltb_spec max_key_length (len key)) as [|Hk]; [done|].
  pose proof (fun w => fine_stamp S key w HS) as Hstamp. pose proof (fun v => fine_old S key v HS) as Hold.
  assert (forall front kind text, apply_push key S front kind text = Some S' -> fine S') as Hpush.
  { intros front kind text. unfold apply_push. destruct (value_arg kind text) as [v|] eqn:Ev; [|done]. cbn [mbind option_bind].
    destruct (push_of front (input_from v) (fst <$> S !! key)) as [l|] eqn:El; [|done]. intros [= <-]. apply fine_insert; [done|].
    split; [done|]. split; [|exact Hstamp]. eapply pushed_fine; [by eapply value_arg_typed| |exact El].
    intros l0 E0. by apply (Hold _ E0). }
  assert (forall front, apply_pop key S front = Some S' -> fine S') as Hpop.
  { intros front. unfold apply_pop. destruct (fst <$> S !! key) as [[s|n|[|v l]|h]|] eqn:Eo; try done; intros [= <-]; [done| |done].
    apply put_list_fine; [done|done| |exact Hstamp]. by apply rest_fine, Hold. }
  destruct op; destruct args as [|a1 [|a2 [|a3 [|a4 args]]]]; cbn [apply_to]; try done; try apply Hpush; try apply Hpop.
  - destruct (Z.ltb_spec value_limit (len a1)); [done|]. intros [= <-]. by apply fine_insert.
  - destruct (incr_of _) as [n|] eqn:En; [|done]. intros [= <-]. apply fine_insert; [done|]. split; [done|].
    split; [|exact Hstamp]. eapply incremented_int64; [|exact En]. intros n0 E0. exact (Hold _ E0).
  - unfold apply_hash_set. destruct (value_arg a2 a3) as [v|] eqn:Ev; [|done]. cbn [mbind option_bind].
    destruct (assign_of _ _ _) as [h|] eqn:Eh; [|done]. intros [= <-]. apply fine_insert; [done|]. split; [done|].
    split; [|exact Hstamp]. eapply assigned_fine; [by eapply value_arg_typed| |exact Eh]. intros h0 E0. apply (Hold _ E0).
  - unfold apply_hash_del. destruct (fst <$> S !! key) as [[s|n|l|h]|] eqn:Eo; try done; cbn [fields_of result_value mbind option_bind].
    + intros [= <-]. destruct (bool_decide _); [done|]. apply removed_fine; [done|done|exact (proj2 (Hold _ eq_refl))|exact Hstamp].
    + intros [= <-]. by rewrite bool_decide_true by apply lookup_empty.
  - unfold apply_expire_at. destruct (fst <$> S !! key) as [v|] eqn:Eo; [|done]. cbn [mbind option_bind].
    destruct (from_chars_int64 a1) as [w|] eqn:Ew; [|done]. cbn [mbind option_bind]. destruct (Z.ltb_spec w 0); [done|]. intros [= <-].
    apply fine_insert; [done|]. split; [done|]. split; [by apply Hold|]. intros w' [= <-]. cbn.
    apply from_chars_int64_range in Ew. unfold is_int64 in Ew. lia.
  - intros [= <-]. by apply fine_delete.
  - destruct (from_chars_int64 a1) as [n|] eqn:En; [|done]. intros [= <-]. apply fine_insert; [done|]. split; [done|].
    split; [by eapply from_chars_int64_range|done].
Qed.

Lemma apply_all_fine rs S S' : fine S -> apply_all rs S = Some S' -> fine S'.
Proof.
  revert S. induction rs as [|r rs IH]; intros S HS; cbn [apply_all]; [by intros [= <-]|].
  destruct (apply_record S r) as [S1|] eqn:E; [|done]. apply IH. by eapply apply_fine.
Qed.

(** ** The keyspace and what the log says of it *)

Section matching.

(** How a deadline of the steady clock stands for one of the wall clock. *)
Variable T : Z -> Z -> Prop.

Definition same_entry (e s : entry) : Prop := e.1 = s.1 /\ option_Forall2 T e.2 s.2.

Definition matches (K S : Keyspace) : Prop := forall k, option_Forall2 same_entry (K !! k) (S !! k).

Lemma matches_empty : matches ∅ ∅.
Proof. intros k. rewrite lookup_empty. constructor. Qed.

Lemma matches_insert K S k e s : matches K S -> same_entry e s -> matches (<[k := e]> K) (<[k := s]> S).
Proof.
  intros HM He k'. destruct (decide (k' = k)) as [->|Hne]; [rewrite !lookup_insert_eq; by constructor|].
  rewrite !lookup_insert_ne by done. apply HM.
Qed.

Lemma matches_delete K S k : matches K S -> matches (delete k K) (delete k S).
Proof.
  intros HM k'. destruct (decide (k' = k)) as [->|Hne]; [rewrite !lookup_delete_eq; constructor|].
  rewrite !lookup_delete_ne by done. apply HM.
Qed.

Lemma matches_value K S k : matches K S -> fst <$> S !! k = fst <$> K !! k.
Proof. intros HM. specialize (HM k). destruct HM as [e s [E _]|]; [cbn; by rewrite E|done]. Qed.

Lemma matches_time K S k : matches K S -> option_Forall2 T (K !! k ≫= snd) (S !! k ≫= snd).
Proof. intros HM. specialize (HM k). destruct HM as [e s [_ E]|]; [done|constructor]. Qed.

Lemma matches_put_list K S k l d w :
  matches K S -> option_Forall2 T d w -> matches (put_list k l d K) (put_list k l w S).
Proof. intros HM Hd. destruct l; [by apply matches_delete|]. by apply matches_insert. Qed.

Lemma matches_put_hash K S k h d w :
  matches K S -> option_Forall2 T d w -> matches (put_hash k h d K) (put_hash k h w S).
Proof. intros HM Hd. unfold put_hash. destruct (bool_decide _); [by apply matches_delete|]. by apply matches_insert. Qed.

(** The records [ops] lead from [K] to [K']. *)
Definition leads (K : Keyspace) (ops : list (WalOp * list bytes)) (K' : Keyspace) : Prop :=
  forall S, matches K S -> exists S', apply_all ops S = Some S' /\ matches K' S'.

Lemma leads_nil K : leads K [] K.
Proof. intros S HM. by exists S. Qed.

Lemma leads_app K ops1 K1 ops2 K2 : leads K ops1 K1 -> leads K1 ops2 K2 -> leads K (ops1 ++ ops2) K2.
Proof.
  intros H1 H2 S HM. destruct (H1 S HM) as (S1 & E1 & HM1). destruct (H2 S1 HM1) as (S2 & E2 & HM2).
  exists S2. rewrite apply_all_app, E1. by split.
Qed.

Lemma leads_one K op key args K' :
  len key <= max_key_length ->
  (forall S, matches K S -> fst <$> S !! key = fst <$> K !! key -> option_Forall2 T (K !! key ≫= snd) (S !! key ≫= snd) ->
     exists S', apply_to key S op args = Some S' /\ matches K' S') ->
  leads K [(op, key :: args)] K'.
Proof.
  intros Hk H S HM. destruct (H S HM (matches_value _ _ key HM) (matches_time _ _ key HM)) as (S' & E & HM').
  exists S'. cbn [apply_all]. unfold apply_record. cbn [fst snd]. destruct (Z.ltb_spec max_key_length (len key)); [lia|].
  rewrite E. by split.
Qed.

Section records.

Variables (K : Keyspace) (key : bytes).
Hypothesis Hkey : len key <= max_key_length.

Let old : option dvalue := fst <$> K !! key.
Let deadline : option Z := K !! key ≫= snd.

Lemma set_leads val : len val <= value_limit -> leads K [(op_set, [key; val])] (<[key := (DString val, None)]> K).
Proof.
  intros Hv. apply leads_one; [done|]. intros S HM _ _. cbn [apply_to]. destruct (Z.ltb_spec value_limit (len val)); [lia|].
  eexists. split; [reflexivity|]. apply matches_insert; [done|]. split; [done|constructor].
Qed.

Lemma del_leads : leads K [(op_del, [key])] (delete key K).
Proof. apply leads_one; [done|]. intros S HM _ _. eexists. split; [reflexivity|]. by apply matches_delete. Qed.

Lemma incr_leads z : incr_of old = Ok z -> leads K [(op_increment, [key])] (<[key := (DInt z, deadline)]> K).
Proof.
  intros Hz. apply leads_one; [done|]. intros S HM Ev Ed. cbn [apply_to]. rewrite Ev. fold old. rewrite Hz.
  eexists. split; [reflexivity|]. by apply matches_insert.
Qed.

(** The value arguments of a record give the value back. *)
Lemma value_arg_input v : typed_input v -> value_arg (kind_arg v) (text_arg v) = Some (input_value v).
Proof.
  intros Hty. unfold value_arg, kind_arg, text_arg, input_value. destruct (is_integer v) eqn:E; [|done].
  change (bytes_eqb (of_str "i") (of_str "i")) with true. cbn iota. by rewrite from_chars_to_string by (by apply Hty).
Qed.

Lemma push_of_value front v : push_of front (input_from (input_value v)) old = push_of front v old.
Proof. unfold push_of. rewrite input_value_from. by destruct v as [[] ? ?]. Qed.

Lemma push_leads front v l :
  typed_input v -> push_of front v old = Ok l -> leads K [push_record key front v] (<[key := (DList l, deadline)]> K).
Proof.
  intros Hty El. apply leads_one; [done|]. intros S HM Ev Ed.
  assert (apply_push key S front (kind_arg v) (text_arg v) = Some (<[key := (DList l, S !! key ≫= snd)]> S)) as E.
  { unfold apply_push. rewrite value_arg_input by done. cbn [mbind option_bind]. rewrite Ev. fold old. by rewrite push_of_value, El. }
  exists (<[key := (DList l, S !! key ≫= snd)]> S). split; [by destruct front|]. by apply matches_insert.
Qed.

Lemma rest_taken front v l : rest_of front (taken front v l) = l.
Proof. destruct front; [done|]. apply removelast_last. Qed.

Lemma pop_leads front v l :
  old = Some (DList (taken front v l)) -> leads K [(pop_op front, [key])] (put_list key l deadline K).
Proof.
  intros Eo. apply leads_one; [done|]. intros S HM Ev Ed.
  assert (apply_pop key S front = Some (put_list key l (S !! key ≫= snd) S)) as E.
  { unfold apply_pop. rewrite Ev. fold old. rewrite Eo. pose proof (rest_taken front v l) as Hr.
    destruct (taken front v l) as [|x y] eqn:Et; [exfalso; destruct front; [done|by destruct l]|]. by rewrite Hr. }
  eexists. split; [destruct front; exact E|]. by apply matches_put_list.
Qed.

Lemma assign_of_value field v : assign_of field (input_from (input_value v)) old = assign_of field v old.
Proof. unfold assign_of. rewrite input_value_from. by destruct v as [[] ? ?]. Qed.

Lemma hash_set_leads field v h :
  typed_input v -> assign_of field v old = Ok h -> leads K [hash_record key field v] (<[key := (DHash h, deadline)]> K).
Proof.
  intros Hty Eh. apply leads_one; [done|]. intros S HM Ev Ed. cbn [apply_to]. unfold apply_hash_set.
  rewrite value_arg_input by done. cbn [mbind option_bind]. rewrite Ev. fold old. rewrite assign_of_value, Eh.
  eexists. split; [reflexivity|]. by apply matches_insert.
Qed.

Lemma hash_del_leads field h x :
  fields_of old = Ok h -> h !! field = Some x ->
  leads K [(op_hash_del, [key; field])] (put_hash key (delete field h) deadline K).
Proof.
  intros Ef Ex. apply leads_one; [done|]. intros S HM Ev Ed. cbn [apply_to]. unfold apply_hash_del. rewrite Ev. fold old.
  rewrite Ef. cbn [result_value mbind option_bind]. rewrite bool_decide_false by (by rewrite Ex).
  eexists. split; [reflexivity|]. by apply matches_put_hash.
Qed.

Lemma expire_leads v w d :
  old = Some v -> 0 <= w <= int64_max -> T d w -> leads K [(op_expire_at, [key; to_string w])] (<[key := (v, Some d)]> K).
Proof.
  intros Eo Hw HT. apply leads_one; [done|]. intros S HM Ev Ed. cbn [apply_to]. unfold apply_expire_at. rewrite Ev. fold old.
  rewrite Eo. cbn [mbind option_bind]. rewrite from_chars_to_string by (unfold is_int64, int64_min; lia). cbn [mbind option_bind].
  destruct (Z.ltb_spec w 0); [lia|]. eexists. split; [reflexivity|]. apply matches_insert; [done|]. split; [done|by constructor].
Qed.

End records.

Lemma insert_again (K : Keyspace) key e e' : <[key := e']> (<[key := e]> K) = <[key := e']> K.
Proof. apply insert_insert_eq. Qed.

(** Several texts are one push after the other. *)
Lemma joined_cons front v vs l : joined front (v :: vs) l = joined front vs (pushed front (VString v) l).
Proof.
  unfold joined, pushed. destruct front; [by rewrite reverse_cons, fmap_app, <- app_assoc|].
  by rewrite fmap_cons, <- app_assoc.
Qed.

Lemma text_push_fits front v l :
  len (encode_run l) + encoded_size_text v <= list_limit ->
  push_of front (text_input v) (Some (DList l)) = Ok (pushed front (VString v) l) /\
  len (encode_run (pushed front (VString v) l)) = len (encode_run l) + encoded_size_text v.
Proof.
  intros Hs. pose proof (len_nonneg (encode_run l)). split.
  - unfold push_of, input_size. cbn [is_integer text_input text]. destruct (Z.ltb_spec list_limit (len (encode_run l) + encoded_size_text v)); [lia|done].
  - assert (len (encode_run [VString v]) = encoded_size_text v) as E1.
    { destruct (small_encodable (text_input v)) as [_ E]; [done|unfold input_size; cbn; lia|].
      unfold encode_run. cbn [map concat]. rewrite app_nil_r. exact E. }
    unfold pushed. destruct front; [change (VString v :: l) with ([VString v] ++ l)|]; rewrite encode_run_app, len_app; lia.
Qed.

Lemma texts_push_leads front vs : forall (K : Keyspace) key l d,
  len key <= max_key_length -> K !! key = Some (DList l, d) -> len (encode_run l) + texts_size vs <= list_limit ->
  leads K (text_record key front <$> vs) (<[key := (DList (joined front vs l), d)]> K).
Proof.
  induction vs as [|v vs IH]; intros K key l d Hk Ek Hs.
  { replace (joined front [] l) with l by (unfold joined; destruct front; [done|by rewrite app_nil_r]). rewrite insert_id by done. apply leads_nil. }
  rewrite texts_size_cons in Hs. pose proof (texts_size_nonneg vs). destruct (text_push_fits front v l ltac:(lia)) as [Ep El].
  rewrite fmap_cons. apply (leads_app _ [text_record key front v] (<[key := (DList (pushed front (VString v) l), d)]> K)).
  - pose proof (push_leads K key Hk front (text_input v) (pushed front (VString v) l)) as Hl. rewrite Ek in Hl. by apply Hl.
  - rewrite joined_cons, <- (insert_again K key (DList (pushed front (VString v) l), d) (DList (joined front vs _), d)).
    apply IH; [done|by rewrite lookup_insert_eq|lia].
Qed.

Lemma texts_leads (K : Keyspace) key front vs l :
  len key <= max_key_length -> vs <> [] -> texts_of front vs (fst <$> K !! key) = Ok l ->
  leads K (text_record key front <$> vs) (<[key := (DList l, K !! key ≫= snd)]> K).
Proof.
  intros Hk Hne. unfold texts_of. destruct (K !! key) as [[v0 d]|] eqn:Ek; cbn [fmap option_fmap option_map fst snd mbind option_bind].
  - destruct v0 as [s|n|l0|h]; try discriminate. destruct (Z.ltb_spec list_limit (len (encode_run l0) + texts_size vs)); [discriminate|].
    intros [= <-]. by apply texts_push_leads.
  - destruct vs as [|v vs]; [done|]. destruct (Z.ltb_spec list_limit (texts_size (v :: vs))) as [|Hs]; [discriminate|]. intros [= <-].
    rewrite texts_size_cons in Hs. pose proof (texts_size_nonneg vs).
    destruct (text_push_fits front v []) as [_ El]; [change (len (encode_run [])) with 0; lia|].
    rewrite fmap_cons. apply (leads_app _ [text_record key front v] (<[key := (DList [VString v], None)]> K)).
    + pose proof (push_leads K key Hk front (text_input v) [VString v]) as Hl. rewrite Ek in Hl. apply Hl; [done|].
      unfold push_of, input_size. cbn. destruct (Z.ltb_spec list_limit (encoded_size_text v)); [lia|done].
    + rewrite joined_cons, <- (insert_again K key (DList [VString v], None) (DList (joined front vs _), None)).
      assert (pushed front (VString v) [] = [VString v]) as Ep by (by destruct front). rewrite Ep in *.
      apply texts_push_leads; [done|by rewrite lookup_insert_eq|]. rewrite El. change (len (encode_run [])) with 0. lia.
Qed.

(** So are several fields.  [Database::hash_set_texts] takes a value by its
    length and [Database::hash_assign], which reads its record, by the size of
    its encoding: [bodies_fit] is what makes both agree. *)
Definition bodies_fit (fs : list (bytes * bytes)) : Prop := Forall (fun p => body_size_text p.2 <= hash_limit) fs.

Lemma fields_set_leads fs : forall (K : Keyspace) key h d,
  len key <= max_key_length -> K !! key = Some (DHash h, d) -> fields_fit fs = true -> bodies_fit fs ->
  leads K (field_record key <$> fs) (<[key := (DHash (texts_set fs h), d)]> K).
Proof.
  induction fs as [|[f v] fs IH]; intros K key h d Hk Ek Hfit Hb.
  { cbn [texts_set fold_left]. rewrite insert_id by done. apply leads_nil. }
  cbn [fields_fit forallb fst snd] in Hfit. apply andb_prop in Hfit as [Hfv Hfit]. apply andb_prop in Hfv as [Hf Hv].
  apply Z.leb_le in Hf, Hv. inversion Hb as [|? ? Hbv Hb']; subst. cbn [snd] in Hbv.
  rewrite fmap_cons. apply (leads_app _ [field_record key (f, v)] (<[key := (DHash (<[f := VString v]> h), d)]> K)).
  - pose proof (hash_set_leads K key Hk f (text_input v) (<[f := VString v]> h)) as Hl. rewrite Ek in Hl. apply Hl; [done|].
    unfold assign_of. cbn [fields_of fmap option_fmap option_map fst]. unfold input_size. cbn [is_integer text_input text].
    destruct (Z.ltb_spec hash_limit (len f)); [lia|]. destruct (Z.ltb_spec hash_limit (body_size_text v)); [lia|done].
  - change (texts_set ((f, v) :: fs) h) with (texts_set fs (<[f := VString v]> h)).
    rewrite <- (insert_again K key (DHash (<[f := VString v]> h), d) (DHash (texts_set fs _), d)).
    apply IH; [done|by rewrite lookup_insert_eq|done|done].
Qed.

Lemma fields_leads (K : Keyspace) key fs h :
  len key <= max_key_length -> fs <> [] -> set_texts_of fs (fst <$> K !! key) = Ok h -> bodies_fit fs ->
  leads K (field_record key <$> fs) (<[key := (DHash h, K !! key ≫= snd)]> K).
Proof.
  intros Hk Hne Eh Hb. unfold set_texts_of in Eh. destruct (fields_of (fst <$> K !! key)) as [h0|] eqn:Ef; [|done].
  destruct (fields_fit fs) eqn:Hfit; [|done]. injection Eh as <-.
  destruct (K !! key) as [[v0 d]|] eqn:Ek; cbn [fmap option_fmap option_map fst snd mbind option_bind fields_of] in *.
  - destruct v0 as [s|n|l0|h1]; try discriminate. injection Ef as ->. by apply fields_set_leads.
  - injection Ef as <-. destruct fs as [|[f v] fs]; [done|]. cbn [fields_fit forallb fst snd] in Hfit.
    apply andb_prop in Hfit as [Hfv Hfit]. apply andb_prop in Hfv as [Hf Hv]. apply Z.leb_le in Hf, Hv.
    inversion Hb as [|? ? Hbv Hb']; subst. cbn [snd] in Hbv.
    rewrite fmap_cons. apply (leads_app _ [field_record key (f, v)] (<[key := (DHash {[f := VString v]}, None)]> K)).
    + pose proof (hash_set_leads K key Hk f (text_input v) {[f := VString v]}) as Hl. rewrite Ek in Hl. apply Hl; [done|].
      unfold assign_of. cbn [fields_of fmap option_fmap option_map]. unfold input_size. cbn [is_integer text_input text].
      destruct (Z.ltb_spec hash_limit (len f)); [lia|]. destruct (Z.ltb_spec hash_limit (body_size_text v)); [lia|done].
    + change (texts_set ((f, v) :: fs) ∅) with (texts_set fs {[f := VString v]}).
      rewrite <- (insert_again K key (DHash {[f := VString v]}, None) (DHash (texts_set fs _), None)).
      apply fields_set_leads; [done|by rewrite lookup_insert_eq|done|done].
Qed.

Lemma dels_leads ks : forall K, Forall (fun k => len k <= max_key_length) ks -> leads K (dels ks) (dropped ks K).
Proof.
  induction ks as [|k ks IH]; intros K Hks; [apply leads_nil|]. inversion Hks; subst.
  apply (leads_app _ [(op_del, [k])] (delete k K)); [by apply del_leads|by apply IH].
Qed.

End matching.

(** A value that [Database::hash_set_texts] takes, because of its length, and
    that [Database::replay] then refuses, because of the size of its encoding:
    no log with its record can be opened. *)
Lemma long_value_unreadable key field :
  len key <= max_key_length -> len field <= hash_limit ->
  exists v, set_texts_of [(field, v)] None = Ok {[field := VString v]} /\
    forall S, apply_record S (field_record key (field, v)) = None.
Proof.
  intros Hk Hf. set (n := Z.to_nat hash_limit). exists (replicate n (z2b 0)).
  assert (len (replicate n (z2b 0)) = hash_limit) as El.
  { unfold len. rewrite length_replicate. unfold n. apply Z2Nat.id. unfold hash_limit. lia. }
  clearbody n. generalize dependent (replicate n (z2b 0)). intros v El. split.
  - unfold set_texts_of. cbn [fields_of fields_fit forallb fst snd]. rewrite El.
    destruct (Z.leb_spec (len field) hash_limit); [|lia]. by rewrite Z.leb_refl.
  - intros S. unfold apply_record, field_record. cbn [fst snd]. destruct (Z.ltb_spec max_key_length (len key)); [lia|].
    cbn [apply_to]. unfold apply_hash_set. change (value_arg (of_str "s") v) with (Some (VString v)). cbn [mbind option_bind].
    assert (hash_limit < input_size (input_from (VString v)) false) as Hs.
    { unfold input_size. cbn [is_integer input_from text]. unfold body_size_text. rewrite El. vm_compute. reflexivity. }
    unfold assign_of. destruct (fields_of _); [|done]. apply Z.ltb_lt in Hs. by rewrite Hs, orb_true_r.
Qed.
