(* ===== verification/Replay.v ===== *)
(** * Replay: reading the log back

    [Database::replay] carries out one record and [Database::open_wal] opens a
    log, replaying all of it.  A record is carried out exactly as
    [apply_record] says, and a record that makes sense there can only fail for
    want of memory; so a log is read back to what its records mean. *)

From S2P Require Import Prelude Charconv Errors Effects Pack WalCodec Wal Allocator Slab Lru Expiry Buckets Node Store Keyspace StoreSpec Contents Edits Writing Strings Timers Lists Hashes Throws Records.

Definition unreadable : exn := exn_error disk_read_failed.

Section ops.

Context {A : Type} `{NodeAllocator A} `{!Platform A}.

(** ** One record *)

(** The closures [integer] and [value]. *)
Definition replay_integer (text : bytes) : M (Database A) Z :=
  match from_chars_int64 text with Some n => ret n | None => throw unreadable end.

Definition replay_value (kind text : bytes) : M (Database A) Value :=
  if bytes_eqb kind (of_str "i") then let! n := replay_integer text in ret (VInteger n)
  else if negb (bytes_eqb kind (of_str "s")) then throw unreadable
  else ret (VString text).

Definition expected_args (op : WalOp) : Z :=
  match op with
  | op_hash_set => 4
  | op_push_left | op_push_right => 3
  | op_set | op_integer_set | op_hash_del | op_expire_at => 2
  | _ => 1
  end.

(** [if (!m) throw]. *)
Definition accept {X : Type} (m : M (Database A) (Result X)) : M (Database A) unit :=
  let! r := m in
  match r with Ok _ => ret tt | Unexpected _ => throw unreadable end.

Definition replay_integer_set (key text : bytes) : M (Database A) unit :=
  let! n := replay_integer text in
  let! old := gets (find_node key) in
  do! when (nonnull old) (modify (erase_node old)) in
  let! node := insert_node key type_integer 8 in
  modify (change_node node (set_integer_value n)).

Definition replay_expire_at (key text : bytes) : M (Database A) unit :=
  let! node := gets (find_node key) in
  if node =? 0 then throw unreadable else
  let! wall := replay_integer text in
  let! current := current_unix_ms in
  if wall <? 0 then throw unreadable else
  let remaining := if current <? wall then wall - current else 0 in
  let! now := now_ms in
  schedule_expiry node (i64 (now + remaining)).

Definition replay (op : WalOp) (a : list bytes) : M (Database A) unit :=
  let arg (i : nat) : bytes := default [] (a !! i) in
  if negb (len a =? expected_args op) || bool_decide (a = []) || (max_key_length <? len (arg 0%nat)) then throw unreadable else
  match op with
  | op_set => set (arg 0%nat) (arg 1%nat)
  | op_integer_set => replay_integer_set (arg 0%nat) (arg 1%nat)
  | op_increment => accept (increment (arg 0%nat))
  | op_push_left => let! v := replay_value (arg 1%nat) (arg 2%nat) in accept (push_left (arg 0%nat) v)
  | op_push_right => let! v := replay_value (arg 1%nat) (arg 2%nat) in accept (push_right (arg 0%nat) v)
  | op_pop_left => accept (pop_left (arg 0%nat))
  | op_pop_right => accept (pop_right (arg 0%nat))
  | op_hash_set => let! v := replay_value (arg 2%nat) (arg 3%nat) in accept (hash_set (arg 0%nat) (arg 1%nat) v)
  | op_hash_del => accept (hash_del (arg 0%nat) (arg 1%nat))
  | op_expire_at => replay_expire_at (arg 0%nat) (arg 1%nat)
  | op_del => let! _ := del (arg 0%nat) in ret tt
  | op_other _ => throw unreadable
  end.

(** ** Nothing expires and nothing is written *)

Lemma replaying_quiet : forall op args, calm (fun db : Database A => replaying_ db = true) (fun e => e = exn_bad_alloc) (log op args).
Proof. intros op args db Hr. unfold wp, log. destruct (wal_ db); by rewrite ?Hr. Qed.

Lemma replaying_reserve : forall n, calm (fun db : Database A => replaying_ db = true) (fun e => e = exn_bad_alloc) (reserve_log n).
Proof. intros n db Hr. unfold reserve_log. wp_steps. rewrite Hr. by wp_steps. Qed.

Lemma replaying_frame : forall db db' : Database A,
  replaying_ db' = replaying_ db -> wal_ db' = wal_ db -> replaying_ db = true -> replaying_ db' = true.
Proof. congruence. Qed.

Lemma replaying_gone (db : Database A) K key : replaying_ db = true -> gone db K key = false.
Proof. intros Hr. unfold gone. rewrite Hr. destruct (K !! key); [apply andb_false_r|done]. Qed.

Lemma replaying_seen (db : Database A) K key : replaying_ db = true ->
  seen db K key = K !! key /\ purged db K key = K /\ purge_records db K key = [].
Proof. intros Hr. unfold seen, purged, purge_records. by rewrite replaying_gone. Qed.

(** A new node for a key that has none, as it comes out of [create_node]. *)
Lemma reached_insert_wp (db0 db : Database A) rs idx order K R key type cap (v : Node -> dvalue) Q E :
  reached db0 rs idx order K R db -> idx !! key = None -> len key <= max_key_length -> 0 <= cap -> real_type type ->
  (forall n U, new_node n key type cap -> holds U n (v n)) ->
  (forall p n m idx' order' db', reached db0 rs idx' order' (<[key := (v n, None)]> K) (key :: others key R) db' ->
     idx' !! key = Some p -> new_node n key type cap -> heap_ db' !! p = Some m -> remarked n m -> Q p db') ->
  (forall e db', halted [] db0 rs K db' -> E e db') ->
  wp (insert_node key type cap) Q E db.
Proof.
  intros Hr Hi Hk Hcap Ht Hv HQ HE. unfold insert_node. wp_steps.
  eapply (reached_rehash_wp _ _ _ _ _ _ _ true); [exact Hr| |intros e db' Hh; by apply HE]. intros db1 Hr1 _. wp_steps.
  pose proof Hr1 as [HI HR Er Hl Haf]. apply (create_pending_wp ∅ db1 idx order K); try assumption.
  2:{ intros db' HI' HR' Ev Er'. apply HE. eapply reached_halted, reached_step; [exact Hr1|exact HI'|exact HR'|exact Er'|exact Ev]. }
  intros p n db2 HP Hn Ev2 Erec2 Et2. wp_steps. destruct Hn as (Hw & Ek & Hn).
  destruct (commit_pending ∅ db2 idx order K key p n true (v n) HP Ek) as (order' & HI3 & HR3 & Erec3 & Ev3 & m & Em & Hm).
  { apply Hv. by split. }
  rewrite Hi in *. cbn [default from_option id] in *. change (commit_node 0 p true db2) with (attach p db2) in *.
  unfold ttl_of in HR3. rewrite (proj2 (represents_none _ _ _ _ HR) Hi) in HR3. cbn [mbind option_bind] in HR3.
  generalize dependent (attach p db2). intros db3 HI3 HR3 Erec3 Ev3 Em.
  apply (HQ p n m (<[key := p]> idx) order'); [|apply lookup_insert_eq|by split|exact Em|exact Hm].
  eapply reached_step; [exact Hr1|exact HI3|exact HR3|congruence|congruence].
Qed.

(** ** What a record does *)

(** How a deadline stands for a time of the wall clock; one is set by
    [replay_expire_at]. *)
Variable T : Z -> Z -> Prop.
Hypothesis T_restored : forall t w, 0 <= w <= int64_max -> T (i64 (steady_at (S t) + Z.max 0 (w - wall_at t))) w.

Section record.

Variables (db : Database A) (K : Keyspace) (R : list bytes) (S : Keyspace).
Hypothesis (Hok : db_ok db K R) (Hrep : replaying_ db = true) (Hwal : wal_ db = None) (HM : matches T K S).

(** A record that makes sense was carried out; a record that was not made no
    sense, or there was no memory for it. *)
Definition carried_out (answer : option Keyspace) (db' : Database A) : Prop :=
  exists S' K' R', answer = Some S' /\ db_ok db' K' R' /\ matches T K' S' /\ after db db'.
Definition given_up (answer : option Keyspace) (e : exn) (db' : Database A) : Prop :=
  (exists K' R', db_ok db' K' R') /\ after db db' /\ (answer = None \/ e = exn_bad_alloc).

Lemma replay_logged : logged [] db.
Proof. unfold logged. by rewrite Hwal. Qed.

Lemma no_sense answer : answer = None -> given_up answer unreadable db.
Proof. intros ->. split; [by exists K, R|]. split; [apply after_refl|by left]. Qed.

Lemma kept_given_up answer ops key db' e : kept db K [] ops key db' -> e = exn_bad_alloc -> given_up answer e db'.
Proof. intros (K' & R' & rs' & c & Hok' & _ & Haf & _) ->. split; [by exists K', R'|]. split; [done|by right]. Qed.

Lemma replay_integer_wp text answer (Q : Z -> Database A -> Prop) :
  (from_chars_int64 text = None -> answer = None) -> (forall n, from_chars_int64 text = Some n -> Q n db) ->
  wp (replay_integer text) Q (given_up answer) db.
Proof.
  intros HN HQ. unfold replay_integer. destruct (from_chars_int64 text); wp_steps; [by apply HQ|]. by apply no_sense, HN.
Qed.

Lemma replay_value_wp kind text answer (Q : Value -> Database A -> Prop) :
  (value_arg kind text = None -> answer = None) -> (forall v, value_arg kind text = Some v -> Q v db) ->
  wp (replay_value kind text) Q (given_up answer) db.
Proof.
  intros HN HQ. unfold replay_value, value_arg in *. destruct (bytes_eqb kind (of_str "i")).
  - wp_steps. apply replay_integer_wp.
    + intros E. apply HN. by rewrite E.
    + intros n E. wp_steps. apply HQ. by rewrite E.
  - destruct (bytes_eqb kind (of_str "s")); cbn [negb]; wp_steps; [by apply HQ|]. by apply no_sense, HN.
Qed.

(** A command that answers. *)
Lemma accept_wp {X Y : Type} (m : M (Database A) (Result Y)) key (ops ops' : list (WalOp * list bytes)) (result : Result X) (e : X -> entry) show answer :
  wp m (answered db K R [] ops key result e show) (fun _ => kept db K [] ops' key) db ->
  calm (fun db => replaying_ db = true) (fun e => e = exn_bad_alloc) m ->
  match result with
  | Ok x => exists S', answer = Some S' /\ matches T (<[key := e x]> K) S'
  | Unexpected _ => answer = None
  end ->
  wp (accept m) (fun _ => carried_out answer) (given_up answer) db.
Proof.
  intros Hm Hc Ha. unfold accept. wp_steps. eapply wp_mono; [exact (wp_and _ _ _ _ _ _ Hm (Hc db Hrep))|..].
  - intros r db' [Hr _]. unfold answered in Hr. destruct result as [x|c].
    + destruct Hr as (-> & Hok' & _ & Haf). destruct Ha as (S' & -> & HM'). wp_steps. by exists S', (<[key := e x]> K), (key :: others key R).
    + destruct Hr as (-> & Hok' & _ & Haf). wp_steps. split; [eexists _, _; exact Hok'|]. split; [exact Haf|by left].
  - intros e' db' [Hk [_ He]]. by eapply kept_given_up.
Qed.

Section key.

Variable key : bytes.
Hypothesis Hkey : len key <= max_key_length.

Abbreviation quiet := (calm (fun db : Database A => replaying_ db = true) (fun e => e = exn_bad_alloc)).

Lemma key_fits : max_key_length < len key -> exn_error request_too_large = exn_bad_alloc.
Proof. lia. Qed.

Lemma replay_set_wp val :
  wp (set key val) (fun _ => carried_out (apply_to key S op_set [val])) (given_up (apply_to key S op_set [val])) db.
Proof.
  cbn [apply_to]. unfold value_limit. destruct (Z.ltb_spec (64 * 1024 * 1024) (len val)) as [Hv|Hv].
  - unfold set. destruct (Z.ltb_spec (64 * 1024 * 1024) (len val)); [|lia]. wp_steps.
    split; [by exists K, R|]. split; [apply after_refl|by left].
  - assert (quiet (set key val)) as Hc.
    { apply (set_calm _ _ replaying_frame eq_refl replaying_quiet key key_fits). lia. }
    eapply wp_mono; [exact (wp_and _ _ _ _ _ _ (set_wp db K R [] key val Hok replay_logged) (Hc db Hrep))|..].
    + intros u db' [(_ & _ & Hok' & _ & Haf) _]. eexists _, _, _. split; [reflexivity|]. split; [exact Hok'|]. split; [|exact Haf].
      apply matches_insert; [exact HM|]. split; [done|constructor].
    + intros e db' [Hk [_ He]]. by eapply kept_given_up.
Qed.

Lemma replay_increment_wp :
  wp (accept (increment key)) (fun _ => carried_out (apply_to key S op_increment [])) (given_up (apply_to key S op_increment [])) db.
Proof.
  destruct (replaying_seen db K key Hrep) as (Es & _ & _). pose proof (increment_wp db K R [] key Hok replay_logged) as Hw.
  eapply accept_wp; [exact Hw|by apply (increment_calm _ _ replaying_frame eq_refl replaying_quiet key key_fits)|].
  clear Hw. rewrite Es. cbn [apply_to]. rewrite (matches_value _ _ _ key HM). destruct (incr_of _) as [z|c]; [|reflexivity].
  eexists. split; [reflexivity|]. apply matches_insert; [exact HM|]. split; [done|by apply matches_time].
Qed.

Lemma replay_push_wp front kind text :
  wp (let! v := replay_value kind text in accept (list_push key (input_from v) front))
    (fun _ => carried_out (apply_push key S front kind text)) (given_up (apply_push key S front kind text)) db.
Proof.
  wp_steps. destruct (replaying_seen db K key Hrep) as (Es & _ & _). unfold apply_push. apply replay_value_wp.
  - intros ->. reflexivity.
  - intros v Ev. pose proof (list_push_wp db K R [] key (input_from v) front Hok replay_logged (value_arg_typed _ _ _ Ev)) as Hw.
    eapply accept_wp; [exact Hw|by apply (push_calm _ _ replaying_frame eq_refl replaying_quiet key key_fits)|].
    clear Hw. rewrite Es, Ev. cbn [mbind option_bind]. rewrite (matches_value _ _ _ key HM). destruct (push_of _ _ _) as [l|c]; [|reflexivity].
    eexists. split; [reflexivity|]. apply matches_insert; [exact HM|]. split; [done|by apply matches_time].
Qed.

Lemma replay_hash_set_wp field kind text :
  wp (let! v := replay_value kind text in accept (hash_set key field v))
    (fun _ => carried_out (apply_to key S op_hash_set [field; kind; text])) (given_up (apply_to key S op_hash_set [field; kind; text])) db.
Proof.
  wp_steps. destruct (replaying_seen db K key Hrep) as (Es & _ & _). cbn [apply_to]. unfold apply_hash_set. apply replay_value_wp.
  - intros ->. reflexivity.
  - intros v Ev. pose proof (hash_assign_wp (fun _ => false) db K R [] key field (input_from v) Hok replay_logged (value_arg_typed _ _ _ Ev)) as Hw.
    eapply accept_wp; [exact Hw|by apply (assign_calm _ _ replaying_frame eq_refl replaying_quiet key key_fits)|].
    clear Hw. rewrite Es, Ev. cbn [mbind option_bind]. rewrite (matches_value _ _ _ key HM). destruct (assign_of _ _ _) as [h|c]; [|reflexivity].
    eexists. split; [reflexivity|]. apply matches_insert; [exact HM|]. split; [done|by apply matches_time].
Qed.

Lemma replay_pop_wp front :
  wp (accept (list_pop key front)) (fun _ => carried_out (apply_pop key S front)) (given_up (apply_pop key S front)) db.
Proof.
  destruct (replaying_seen db K key Hrep) as (Es & Ep & _).
  pose proof (list_pop_wp db K R [] key front Hok replay_logged) as Hw.
  pose proof (pop_calm _ _ replaying_frame eq_refl replaying_quiet key key_fits front db Hrep) as Hc.
  unfold accept. wp_steps. eapply wp_mono; [exact (wp_and _ _ _ _ _ _ Hw Hc)|..].
  2:{ intros e db' [Hk [_ He]]. by eapply kept_given_up. }
  assert (forall db', looked db K R [] key db' -> carried_out (Some S) db') as Hsame.
  { intros db' (Hok' & _ & Haf). rewrite Ep in Hok'. by eexists S, K, _. }
  intros r db' [Hr _]. rewrite Es in Hr. unfold apply_pop, pop_result in *. rewrite (matches_value _ _ _ key HM).
  destruct (K !! key) as [[v d]|] eqn:Ek; cbn [fmap option_fmap option_map fst] in *.
  2:{ destruct Hr as [-> Hl]. wp_steps. by apply Hsame. }
  assert (r = Unexpected wrong_type /\ looked db K R [] key db' ->
    wp (match r with Ok _ => ret tt | Unexpected _ => throw unreadable end) (fun _ => carried_out None) (given_up None) db') as Hwrong.
  { intros [-> (Hok' & _ & Haf)]. wp_steps. split; [by eexists _, _|]. split; [exact Haf|by left]. }
  destruct v as [s|n|[|x l]|h]; try (by apply Hwrong).
  - destruct Hr as [-> Hl]. wp_steps. by apply Hsame.
  - destruct Hr as (v & l' & El & -> & Hok' & _ & Haf). wp_steps. eexists _, _, _. split; [reflexivity|]. split; [exact Hok'|].
    split; [|exact Haf]. rewrite El, rest_taken. apply matches_put_list; [exact HM|].
    pose proof (matches_time _ _ _ key HM) as Ht. by rewrite Ek in Ht.
Qed.

Lemma replay_hash_del_wp field :
  wp (accept (hash_del key field)) (fun _ => carried_out (apply_hash_del key S field)) (given_up (apply_hash_del key S field)) db.
Proof.
  destruct (replaying_seen db K key Hrep) as (Es & Ep & _).
  pose proof (hash_del_wp db K R [] key field Hok replay_logged) as Hw.
  pose proof (hash_del_calm _ _ replaying_frame replaying_quiet key key_fits field db Hrep) as Hc.
  unfold accept. wp_steps. eapply wp_mono; [exact (wp_and _ _ _ _ _ _ Hw Hc)|..].
  2:{ intros e db' [Hk [_ He]]. by eapply kept_given_up. }
  intros r db' [Hr _]. unfold hash_del_result in Hr. rewrite Es in Hr. unfold apply_hash_del. rewrite (matches_value _ _ _ key HM).
  destruct (fields_of (fst <$> K !! key)) as [h|c]; cbn [result_value mbind option_bind].
  2:{ destruct Hr as (-> & Hok' & _ & Haf). wp_steps. split; [by eexists _, _|]. split; [exact Haf|by left]. }
  destruct (bool_decide (h !! field = None)).
  - destruct Hr as (-> & Hok' & _ & Haf). rewrite Ep in Hok'. wp_steps. by eexists S, K, _.
  - destruct Hr as (-> & Hok' & _ & Haf). wp_steps. eexists _, _, _. split; [reflexivity|]. split; [exact Hok'|]. split; [|exact Haf].
    apply matches_put_hash; [exact HM|by apply matches_time].
Qed.

Lemma replay_del_wp :
  wp (let! _ := del key in ret tt) (fun _ => carried_out (apply_to key S op_del [])) (given_up (apply_to key S op_del [])) db.
Proof.
  wp_steps. pose proof (del_calm _ _ replaying_frame replaying_quiet key key_fits db Hrep) as Hc.
  eapply wp_mono; [exact (wp_and _ _ _ _ _ _ (del_wp db K R [] key Hok replay_logged) Hc)|..].
  - intros r db' [(_ & Hok' & _ & Haf) _]. wp_steps. eexists _, _, _. split; [reflexivity|]. split; [exact Hok'|]. split; [|exact Haf].
    by apply matches_delete.
  - intros e db' [Hk [_ He]]. by eapply kept_given_up.
Qed.

Lemma halted_given_up answer c rs K' e db' : halted c db rs K' db' -> e = exn_bad_alloc -> given_up answer e db'.
Proof. intros (R' & Hok' & _ & Haf) ->. split; [by exists K', R'|]. split; [exact Haf|by right]. Qed.

Lemma replay_integer_set_wp text :
  wp (replay_integer_set key text) (fun _ => carried_out (apply_to key S op_integer_set [text]))
    (given_up (apply_to key S op_integer_set [text])) db.
Proof.
  unfold replay_integer_set. wp_steps. cbn [apply_to]. apply replay_integer_wp; [intros ->; reflexivity|]. intros z Ez.
  rewrite Ez. cbn [mbind option_bind]. wp_steps. destruct (reached_start db K R [] Hok replay_logged) as (idx & order & Hr).
  pose proof Hr as [[Hc _] HR _ _ _]. rewrite (find_node_eq db _ _ _ _ Hc). apply wp_when_modify.
  set (db1 := if nonnull _ then _ else _).
  assert (exists idx' order' R', reached db [] idx' order' (delete key K) R' db1 /\ idx' !! key = None) as (idx' & order' & R' & Hr1 & Hi1).
  { unfold db1. destruct (idx !! key) as [a|] eqn:Hi; cbn [default from_option id].
    - destruct (idx_node _ _ _ _ _ Hc _ _ Hi) as (_ & _ & _ & Ha0). rewrite nonnull_true by done.
      eexists _, _, _. split; [by eapply reached_erase|]. apply lookup_delete_eq.
    - change (nonnull 0) with false. cbn iota. exists idx, order, R. split; [|exact Hi].
      by rewrite delete_id by (by apply (represents_none _ _ _ _ HR)). }
  clearbody db1. pose proof (rc_after _ _ _ _ _ _ _ Hr1) as Haf1. wp_steps.
  assert (replaying_ db1 = true) as Hrep1 by (by rewrite (proj1 Haf1)).
  pose proof (insert_calm _ _ replaying_frame eq_refl key type_integer 8 db1 Hrep1) as Hcalm.
  eapply wp_mono; [eapply wp_and; [|exact Hcalm]|..].
  - eapply (reached_insert_wp db db1 _ _ _ _ _ _ _ _ (fun n => DInt (integer_value n))
      (fun p db' => exists n m idx' order', reached db [] idx' order' (<[key := (DInt (integer_value n), None)]> (delete key K)) (key :: others key R') db' /\
         idx' !! key = Some p /\ new_node n key type_integer 8 /\ heap_ db' !! p = Some m /\ remarked n m)
      (fun _ => halted [] db [] (delete key K))); [exact Hr1|exact Hi1|exact Hkey|lia|done| | |done].
    + intros n U (_ & _ & Et & _ & _ & Hcap). cbn [holds]. split; [exact Et|]. split; [lia|done].
    + intros p n m idx2 order2 db2 Hr2 Hi2 Hn Em Hm. by exists n, m, idx2, order2.
  - intros p db2 [(n & m & idx2 & order2 & Hr2 & Hi2 & Hn & Em & Hm) _]. wp_steps.
    destruct (reached_node _ _ _ _ _ _ _ _ _ Hr2 Hi2) as (m' & e & Em' & Ee & Hwm & _).
    assert (m' = m) as -> by congruence. clear Em'. rewrite lookup_insert_eq in Ee. injection Ee as <-.
    destruct Hm as (_ & Hsh & _ & Etm & _). destruct Hn as (_ & _ & Et & _ & _ & Hcap). rewrite Et in Etm.
    destruct (same_shape_views _ _ Hsh) as (_ & _ & _ & Ecap). destruct (capacity_eq m Hwm) as [Hcm _].
    assert (forall U, (node_wf (set_integer_value z m) /\ same_face m (set_integer_value z m) /\
      has_flag flag_has_ttl (set_integer_value z m) = has_flag flag_has_ttl m) /\ holds U (set_integer_value z m) (DInt z)) as Hset.
    { intros U. eapply (integer_edited U m m); [|apply plain_table; congruence|lia|by symmetry|by eapply from_chars_int64_range].
      rewrite <- Etm. by apply edited_refl. }
    destruct (Hset (tables_ db2)) as [Hface Hh].
    pose proof (reached_change _ _ _ _ _ _ _ _ _ m _ _ _ Hr2 Hi2 Em (lookup_insert_eq _ _ _) Hface Hh) as Hr3.
    rewrite insert_insert_eq, insert_delete_eq in Hr3. generalize dependent (change_node p (set_integer_value z) db2). intros db3 Hr3.
    eexists _, _, _. split; [reflexivity|]. split; [by eapply reached_ok|]. split; [|exact (rc_after _ _ _ _ _ _ _ Hr3)].
    apply matches_insert; [exact HM|]. split; [done|constructor].
  - intros e db2 [Hh [_ He]]. by eapply halted_given_up.
Qed.

Lemma replay_expire_at_wp text :
  wp (replay_expire_at key text) (fun _ => carried_out (apply_expire_at key S text)) (given_up (apply_expire_at key S text)) db.
Proof.
  unfold replay_expire_at, apply_expire_at. wp_steps. destruct (reached_start db K R [] Hok replay_logged) as (idx & order & Hr).
  pose proof Hr as [[Hc _] HR _ _ _]. rewrite (find_node_eq db _ _ _ _ Hc), (matches_value _ _ _ key HM).
  destruct (idx !! key) as [a|] eqn:Hi; cbn [default from_option id].
  2:{ rewrite Z.eqb_refl. wp_steps. apply no_sense. by rewrite (proj2 (represents_none _ _ _ _ HR) Hi). }
  destruct (reached_node _ _ _ _ _ _ _ _ _ Hr Hi) as (n & [v d] & _ & Ek & _ & _ & Ha0 & _).
  destruct (Z.eqb_spec a 0) as [|_]; [done|]. rewrite Ek. cbn [fmap option_fmap option_map fst mbind option_bind].
  wp_steps. apply replay_integer_wp; [intros ->; reflexivity|]. intros w Ew. rewrite Ew. cbn [mbind option_bind].
  wp_steps. apply wall_wp. destruct (reached_time _ _ _ _ _ _ _ Hr) as [Hr1 _]. set (t := time_ db) in *.
  assert (time_ (put_time (Datatypes.S t) db) = Datatypes.S t) as Et1 by reflexivity.
  generalize dependent (put_time (Datatypes.S t) db). intros db1 Hr1 Et1. destruct (Z.ltb_spec w 0) as [Hw|Hw].
  { wp_steps. split; [eexists _, _; by eapply reached_ok|]. split; [exact (rc_after _ _ _ _ _ _ _ Hr1)|by left]. }
  wp_steps. apply now_wp. destruct (reached_time _ _ _ _ _ _ _ Hr1) as [Hr2 _]. rewrite Et1 in *.
  generalize dependent (put_time (Datatypes.S (Datatypes.S t)) db1). intros db2 Hr2.
  pose proof (rc_after _ _ _ _ _ _ _ Hr2) as Haf2. assert (replaying_ db2 = true) as Hrep2 by (by rewrite (proj1 Haf2)).
  assert ((if wall_at t <? w then w - wall_at t else 0) = Z.max 0 (w - wall_at t)) as -> by (destruct (Z.ltb_spec (wall_at t) w); lia).
  pose proof (schedule_calm _ _ replaying_frame eq_refl a (i64 (steady_at (Datatypes.S t) + Z.max 0 (w - wall_at t))) db2 Hrep2) as Hcalm.
  eapply wp_mono; [eapply wp_and; [|exact Hcalm]|..].
  - eapply (reached_schedule_wp db db2 [] idx order K R key a (v, d) _
      (fun _ db' => reached db [] idx order (<[key := (v, Some (i64 (steady_at (Datatypes.S t) + Z.max 0 (w - wall_at t))))]> K) R db')
      (fun _ db' => reached db [] idx order K R db')); [exact Hr2|exact Hi|exact Ek|by intros|by intros].
  - intros u db3 [Hr3 _]. eexists _, _, _. split; [reflexivity|]. split; [by eapply reached_ok|].
    split; [|exact (rc_after _ _ _ _ _ _ _ Hr3)]. apply matches_insert; [exact HM|]. split; [done|]. constructor. apply T_restored.
    apply from_chars_int64_range in Ew. unfold is_int64 in Ew. lia.
  - intros e db3 [Hr3 [_ He]]. split; [eexists _, _; by eapply reached_ok|]. split; [exact (rc_after _ _ _ _ _ _ _ Hr3)|by right].
Qed.

End key.

(** One record. *)
Lemma replay_wp op a :
  wp (replay op a) (fun _ => carried_out (apply_record S (op, a))) (given_up (apply_record S (op, a))) db.
Proof.
  unfold replay, apply_record. cbn [fst snd]. destruct a as [|key args].
  { rewrite bool_decide_true by done. rewrite orb_true_r. wp_steps. by apply no_sense. }
  rewrite bool_decide_false by done. rewrite orb_false_r. change (default [] ((key :: args) !! 0%nat)) with key.
  destruct (Z.ltb_spec max_key_length (len key)) as [Hk|Hk]; [rewrite orb_true_r; wp_steps; by apply no_sense|].
  rewrite orb_false_r. destruct (Z.eqb_spec (len (key :: args)) (expected_args op)) as [El|El]; cbn [negb].
  - pose proof (len_nonneg (A:=bytes)) as Hlen.
    destruct op; cbn [expected_args] in El; destruct args as [|a1 [|a2 [|a3 [|a4 args]]]]; rewrite ?len_cons, ?len_nil in El;
      try lia; try (specialize (Hlen args); lia); cbn [lookup list_lookup default from_option id].
    + by apply replay_set_wp.
    + by apply replay_increment_wp.
    + by apply (replay_push_wp key Hk true).
    + by apply (replay_push_wp key Hk false).
    + by apply (replay_pop_wp key Hk true).
    + by apply (replay_pop_wp key Hk false).
    + by apply replay_hash_set_wp.
    + by apply replay_hash_del_wp.
    + by apply replay_expire_at_wp.
    + by apply replay_del_wp.
    + by apply replay_integer_set_wp.
    + wp_steps. by apply no_sense.
  - wp_steps. apply no_sense. destruct op; destruct args as [|a1 [|a2 [|a3 [|a4 args]]]]; try reflexivity; by destruct El.
Qed.

End record.

End ops.
