(* ===== verification/Open.v ===== *)
(** * Open: from a file to a database

    [Database::open_wal] replays the log it finds, drops the keyspace if
    anything throws on the way, and at the end removes the keys whose
    deadline has passed.  A log whose records make sense is read back to what
    they mean, and opening it fails only for want of memory or because a call
    on the file failed. *)

From S2P Require Import Prelude Charconv Errors Effects Pack WalCodec Wal Allocator Slab Lru Expiry Buckets Node Store Keyspace StoreSpec Contents Edits Writing Clearing Sample Strings Timers Lists Hashes Throws Records Replay.

Section ops.

Context {A : Type} `{NodeAllocator A} `{!Platform A}.

(** The closure passed to the constructor of the log. *)
Definition run_replay (op : WalOp) (args : list bytes) (db : Database A) : option exn * Database A :=
  match replay op args db with
  | (inl e, db) => (Some e, db)
  | (inr _, db) => (None, db)
  end.

(** [std::make_unique<Wal>] on the file [found]; [script] and [err] are what
    the operating system does. *)
Definition make_wal (sync : WalSync) (found : bytes) (script : list io_outcome) (err : option nat) : M (Database A) unit := fun db =>
  match construct run_replay err (unopened sync found script, db) with
  | (inl e, (_, db)) => (inl e, db)
  | (inr _, (w, db)) => (inr tt, put_wal (Some w) db)
  end.

Definition open_wal (sync : WalSync) (found : bytes) (script : list io_outcome) (err : option nat) : M (Database A) unit :=
  let! db := Effects.get in
  if bool_decide (is_Some (wal_ db)) || negb (key_total_ db =? 0) then throw unreadable else
  do! modify (put_replaying true) in
  do! try_catch (make_wal sync found script err)
        (fun e => do! modify (put_replaying false) in do! modify clear_keyspace in throw e) in
  do! modify (put_replaying false) in
  remove_expired_locked no_expiry_limit.

(** ** All the records *)

Variable T : Z -> Z -> Prop.
Hypothesis T_restored : forall t w, 0 <= w <= int64_max -> T (i64 (steady_at (S t) + Z.max 0 (w - wall_at t))) w.

(** Where replaying [rs] from a keyspace that is [S] ends. *)
Definition replayed (rs : list (WalOp * list bytes)) (S : Keyspace) (r : option exn) (db' : Database A) : Prop :=
  match r with
  | None => exists S' K' R', apply_all rs S = Some S' /\ db_ok db' K' R' /\ matches T K' S'
  | Some e => (exists K' R', db_ok db' K' R') /\ (apply_all rs S = None \/ e = exn_bad_alloc)
  end.

Lemma replay_all_ok rs : forall (db : Database A) K R S,
  db_ok db K R -> replaying_ db = true -> wal_ db = None -> matches T K S ->
  let '(r, db') := replay_all run_replay rs db in replayed rs S r db' /\ after db db'.
Proof.
  induction rs as [|[op a] rs IH]; intros db K R S Hok Hrep Hwal HM; cbn [replay_all fst snd].
  { split; [by exists S, K, R|apply after_refl]. }
  pose proof (replay_wp T T_restored db K R S Hok Hrep Hwal HM op a) as Hw. unfold wp in Hw. unfold run_replay at 1.
  cbn [apply_all] in *. unfold replayed. cbn [apply_all].
  destruct (replay op a db) as [[e|u] db1].
  - destruct Hw as (Hok1 & Haf & Hans). split; [|exact Haf]. split; [exact Hok1|].
    destruct Hans as [-> | ->]; [by left|by right].
  - destruct Hw as (S1 & K1 & R1 & -> & Hok1 & HM1 & Haf). cbn [mbind option_bind].
    assert (wal_ db1 = None) as Hwal1.
    { destruct Haf as (_ & _ & _ & _ & Hlm). unfold log_moves in Hlm. rewrite Hwal in Hlm. by destruct (wal_ db1). }
    assert (replaying_ db1 = true) as Hrep1 by (by rewrite (proj1 Haf)).
    pose proof (IH db1 K1 R1 S1 Hok1 Hrep1 Hwal1 HM1) as Hrest.
    destruct (replay_all run_replay rs db1) as [r db2]. destruct Hrest as [Hr Haf2].
    split; [exact Hr|exact (after_trans _ _ _ Haf Haf2)].
Qed.

(** ** Opening *)

(** A database before and after its log is opened, up to the removal of keys
    that have expired. *)
Definition unopened_db (db : Database A) : Prop := db_ok db ∅ [] /\ wal_ db = None /\ replaying_ db = false.

Definition restored (db : Database A) (sync : WalSync) (rs : list (WalOp * list bytes)) (S K : Keyspace) (db' : Database A) : Prop :=
  (exists R, db_ok db' K R) /\ matches T K S /\ replaying_ db' = false /\ (time_ db <= time_ db')%nat /\ max_keys_ db' = max_keys_ db /\
  exists w, wal_ db' = Some w /\ opened sync rs w.

(** Why a log does not open. *)
Definition open_failed (rs : list (WalOp * list bytes)) (e : exn) : Prop :=
  e = write_failed \/ e = exn_filesystem \/ e = exn_bad_alloc \/ apply_all rs ∅ = None.

Lemma db_ok_same (db db' : Database A) K R :
  db_ok db K R -> heap_ db' = heap_ db -> tables_ db' = tables_ db -> alloc_ db' = alloc_ db -> index_ db' = index_ db ->
  lru_ db' = lru_ db -> exp_ db' = exp_ db -> key_total_ db' = key_total_ db -> key_hint_ db' = key_hint_ db ->
  tracked_bytes_ db' = tracked_bytes_ db -> ttl_key_count_ db' = ttl_key_count_ db -> ttl_hint_ db' = ttl_hint_ db -> db_ok db' K R.
Proof.
  intros (idx & order & HI & HR & ->) E1 E2 E3 E4 E5 E6 E7 E8 E9 E10 E11. exists idx, order.
  split; [by eapply inv_frame|]. split; [by eapply represents_same; [exact HR|exact E1|exact E2|rewrite E6]|].
  symmetry. apply recency_ext. intros b _. unfold key_at, node_at. by rewrite E1.
Qed.

Lemma make_wal_wp sync found script rs (db : Database A) :
  db_ok db ∅ [] -> replaying_ db = true -> wal_ db = None -> opens_as found rs ->
  wp (make_wal sync found script None)
    (fun _ db' => exists S K R w, apply_all rs ∅ = Some S /\ db_ok db' K R /\ matches T K S /\ replaying_ db' = true /\
       (time_ db <= time_ db')%nat /\ max_keys_ db' = max_keys_ db /\ wal_ db' = Some w /\ opened sync rs w)
    (fun e db' => (exists K R, db_ok db' K R) /\ wal_ db' = None /\ open_failed rs e) db.
Proof.
  intros Hok Hrep Hwal Hfound. pose proof (replay_all_ok rs db ∅ [] ∅ Hok Hrep Hwal (matches_empty T)) as Hall.
  pose proof (construct_inv run_replay sync found script rs db Hfound) as Hc. unfold wp in Hc |- *. unfold make_wal.
  assert (forall db', after db db' -> wal_ db' = None) as Hnone.
  { intros db' (_ & _ & _ & _ & Hlm). unfold log_moves in Hlm. rewrite Hwal in Hlm. by destruct (wal_ db'). }
  destruct (construct run_replay None (unopened sync found script, db)) as [[e|u] [w db1]].
  - unfold open_failed. cbn [snd] in Hc. destruct Hc as [[He [-> | E]]|E].
    + split; [by exists ∅, []|]. split; [exact Hwal|]. destruct He as [-> | ->]; auto.
    + rewrite E in Hall. destruct Hall as [(S & K & R & Ea & Hok1 & _) Haf]. split; [by exists K, R|]. split; [by apply Hnone|].
      destruct He as [-> | ->]; auto.
    + rewrite E in Hall. destruct Hall as [[Hok1 He] Haf]. split; [exact Hok1|]. split; [by apply Hnone|]. tauto.
  - destruct Hc as [Hw E]. rewrite E in Hall. destruct Hall as [(S & K & R & Ea & Hok1 & HM) (Er & Ht & _ & Hmx & _)].
    exists S, K, R, w. split; [exact Ea|]. split; [by eapply db_ok_same; [exact Hok1|reflexivity..]|]. split; [exact HM|].
    split; [cbn; by rewrite Er|]. split; [exact Ht|]. split; [exact Hmx|]. by split.
Qed.

(** The two ways [open_wal] ends before and in its sweep. *)
Definition opened_db (db : Database A) (sync : WalSync) (rs : list (WalOp * list bytes))
    (where_log : Keyspace -> list bytes -> Database A -> list (WalOp * list bytes) -> Database A -> Prop) (swept_all : bool)
    (db' : Database A) : Prop :=
  exists S K db1 ks R', apply_all rs ∅ = Some S /\ restored db sync rs S K db1 /\
    keys_gone db1 K rs ks R' (where_log K ks db1) db' /\ swept (steady_at (time_ db1)) no_expiry_limit K ks /\
    (swept_all = true -> len ks < no_expiry_limit -> none_expired (steady_at (time_ db1)) (dropped ks K)).

Lemma open_wal_wp sync found script rs (db : Database A) :
  unopened_db db -> opens_as found rs ->
  wp (open_wal sync found script None)
    (fun _ => opened_db db sync rs (fun _ _ _ => logged) true)
    (fun e db' => (unopened_db db' /\ open_failed rs e) \/
       opened_db db sync rs (fun K ks db1 => refused_del db1 (dropped ks K)) false db') db.
Proof.
  intros (Hok & Hwal & Hrep) Hfound. unfold open_wal. wp_steps. rewrite Hwal, bool_decide_false by (by intros []). cbn [orb].
  assert (key_total_ db = 0) as ->.
  { destruct Hok as (idx & order & [Hc _] & _ & Er). rewrite (si_total _ _ _ _ _ Hc). symmetry in Er. by apply fmap_nil_inv in Er as ->. }
  change (negb (0 =? 0)) with false. cbn iota. wp_steps.
  assert (db_ok (put_replaying true db) ∅ []) as Hok0 by (by eapply db_ok_same; [exact Hok|reflexivity..]).
  eapply wp_mono; [exact (make_wal_wp sync found script rs (put_replaying true db) Hok0 eq_refl Hwal Hfound)|..].
  - intros u db1 (S & K & R & w & Ea & Hok1 & HM & _ & Ht & Hmx & Ew & Hop). wp_steps.
    set (db2 := put_replaying false db1).
    assert (db_ok db2 K R) as Hok2 by (by eapply db_ok_same; [exact Hok1|reflexivity..]).
    assert (restored db sync rs S K db2) as Hres.
    { split; [by exists R|]. split; [exact HM|]. split; [reflexivity|]. split; [exact Ht|]. split; [exact Hmx|]. by exists w. }
    assert (logged rs db2) as Hl2 by (unfold logged; cbn; rewrite Ew; apply Hop). clearbody db2.
    eapply wp_mono; [apply (remove_expired_locked_wp no_expiry_limit db2 rs K R Hok2 Hl2); unfold no_expiry_limit; lia|..].
    + intros u' db' (rs' & K' & R' & Hs & ks & -> & -> & -> & Hsw & Ex & _ & Hn). exists S, K, db2, ks, (dropped_keys ks R).
      split; [exact Ea|]. split; [exact Hres|]. split; [by apply stands_gone|]. split; [exact Hsw|]. intros _. by apply Hn.
    + intros e db' (rs' & K' & R' & Hs & ks & -> & -> & -> & Hsw & Ex & _). right. exists S, K, db2, ks, (dropped_keys ks R).
      split; [exact Ea|]. split; [exact Hres|]. split; [by apply stuck_gone|]. split; [exact Hsw|done].
  - intros e db1 ((K & R & Hok1) & Hwal1 & He). wp_steps. left. split; [|exact He].
    assert (db_ok (put_replaying false db1) K R) as Hok2 by (by eapply db_ok_same; [exact Hok1|reflexivity..]).
    destruct (clear_keyspace_ok (put_replaying false db1) K R Hok2) as [Hok3 Ev].
    generalize dependent (clear_keyspace (put_replaying false db1)). intros db3 Hok3 Ev. injection Ev as E1 E2 _ _ _ _.
    split; [exact Hok3|]. split; [rewrite E1; exact Hwal1|exact E2].
Qed.

End ops.

(** ** Deadlines across a restart *)

Section moments.

Context {A : Type} `{!Platform A}.

(** A deadline of the steady clock and one of the wall clock that are the
    same moment: they were as far from two readings of the clocks close to
    each other, or both had passed then. *)
Definition same_moment (d w : Z) : Prop :=
  0 <= d <= int64_max /\
  exists t u : nat, (t <= u + 2 /\ u <= t + 2)%nat /\
    (d - steady_at t = w - wall_at u \/ (d <= steady_at t /\ w <= wall_at u)).

(** The steady clock counts from a start of the machine, the wall clock from
    1970. *)
Definition steady_young : Prop := forall t u, steady_at t <= wall_at u.

Lemma restored_moment t w :
  steady_young -> 0 <= w <= int64_max -> same_moment (i64 (steady_at (S t) + Z.max 0 (w - wall_at t))) w.
Proof.
  intros Hy Hw. pose proof (Hy (S t) t). pose proof (steady_range (S t)). pose proof (wall_range t).
  rewrite i64_small by (unfold is_int64, int64_min, int64_max in *; lia).
  split; [unfold int64_max in *; lia|]. exists (S t), t. split; [lia|]. lia.
Qed.

End moments.

(** ** Results *)

Section results.

Context {A : Type} `{NodeAllocator A} `{!Platform A}.

(** C12: replaying a record does to the keyspace what the record means, and
    fails only on a record that makes no sense there or for want of memory. *)
Theorem replay_refines (db : Database A) K R S op args :
  db_ok db K R -> replaying_ db = true -> wal_ db = None -> matches same_moment K S -> steady_young ->
  wp (replay op args)
    (fun _ db' => exists S' K' R', apply_record S (op, args) = Some S' /\ db_ok db' K' R' /\ matches same_moment K' S' /\ after db db')
    (fun e db' => (exists K' R', db_ok db' K' R') /\ after db db' /\ (apply_record S (op, args) = None \/ e = exn_bad_alloc)) db.
Proof.
  intros Hok Hr Hw HM Hy. apply (replay_wp same_moment (fun t w => restored_moment t w Hy) db K R S Hok Hr Hw HM op args).
Qed.


End results.

(** ** Example *)

Definition sample_new : Database Memory := put_wal None sample_empty.

Lemma sample_new_unopened : unopened_db sample_new.
Proof.
  split; [by eapply db_ok_same; [exact sample_empty_ok|reflexivity..]|]. split; [reflexivity|vm_compute; reflexivity].
Qed.

(** A key with a deadline a second after the wall clock of the sample, and a
    record that was not written to its end. *)
Definition sample_stamps : list (WalOp * list bytes) :=
  [(op_set, [of_str "k"; of_str "v"]); (op_expire_at, [of_str "k"; of_str "1000000001000"])].

Definition sample_found : bytes := magic ++ concat (map enc sample_stamps) ++ take 5 (enc (op_del, [of_str "k"])).

Lemma sample_found_opens : opens_as sample_found sample_stamps.
Proof.
  right. exists (take 5 (enc (op_del, [of_str "k"]))). split; [reflexivity|]. split.
  - right. exists (op_del, [of_str "k"]), (drop 5 (enc (op_del, [of_str "k"]))).
    split; [split_and!; vm_compute; [done|discriminate..]|]. split; [by rewrite take_drop|]. split; vm_compute; discriminate.
  - repeat apply Forall_cons_2; [..|apply Forall_nil_2]; split_and!; vm_compute; try done; discriminate.
Qed.

Lemma sample_young : @steady_young Memory sample_platform.
Proof. intros t u. cbn. lia. Qed.


Lemma replay_refines_witness :
  exists db' S' K' R', replay op_set [of_str "k"; of_str "v"] (put_replaying true sample_new) = (inr tt, db') /\
    apply_record ∅ (op_set, [of_str "k"; of_str "v"]) = Some S' /\ db_ok db' K' R' /\ matches same_moment K' S'.
Proof.
  destruct sample_new_unopened as (Hok & Hw & _).
  assert (db_ok (put_replaying true sample_new) ∅ []) as Hok' by (by eapply db_ok_same; [exact Hok|reflexivity..]).
  destruct (wp_returns _ _ _ _ (replay_refines (put_replaying true sample_new) ∅ [] ∅ op_set [of_str "k"; of_str "v"]
    Hok' eq_refl Hw (matches_empty _) sample_young)) as ([] & db' & E & S' & K' & R' & Ea & Hok2 & HM & _);
    [eexists; vm_compute; reflexivity|].
  exists db', S', K', R'. split; [exact E|]. split; [exact Ea|]. split; [exact Hok2|exact HM].
Defined.
