(* ===== verification/Snapshot.v ===== *)
(** * Snapshot: compacting the log

    [Database::compact_wal] removes the keys past their deadline and has
    [Wal::compact] write a new log, of the records that rebuild every key
    from the least to the most recently used.  Reading that log back gives
    the keyspace it was written from. *)

From S2P Require Import Prelude Charconv Errors Effects Pack WalCodec Wal Allocator Slab Lru Expiry Buckets Node Store Keyspace StoreSpec Contents Edits Writing Clearing Sample Strings Timers Lists Hashes Throws Records Replay Open.

Section ops.

Context {A : Type} `{NodeAllocator A} `{!Platform A}.

(** ** The program *)

(** The elements of a list, as the loop over its run reads them. *)
Fixpoint run_from (elements : nat) (run : bytes) (cursor : Z) : list Value :=
  match elements with
  | O => []
  | S elements =>
      element_to_value (element_at run cursor) ::
      run_from elements run (cursor + default 0 (stride (drop (Z.to_nat cursor) run)))
  end.

Definition run_of (n : Node) : list Value := run_from (Z.to_nat (count n)) (list_run n) (list_head n).

Definition append_record (r : WalOp * list bytes) : M Wal unit := append r.1 r.2.

Definition save_value (db : Database A) (n : Node) : M Wal unit :=
  let key := node_key n in
  match node_type n with
  | type_string => append op_set [key; string_value n]
  | type_integer => append op_integer_set [key; to_string (integer_value n)]
  | type_list => for_each (run_of n) (fun v => append_record (push_record key false (input_from v)))
  | _ =>
      let pairs := if has_flag flag_hash_promoted n
                   then table_order (time_ db) (table_at (promoted_hash n) db) else unpack n in
      for_each pairs (fun p => append_record (hash_record key p.1 (input_from p.2)))
  end.

Definition save_deadline (db : Database A) (steady wall node : Z) : M Wal unit :=
  let n := node_at db node in
  if negb (has_flag flag_has_ttl n) then ret tt else
  let deadline := default 0 (deadline_of node db) in
  let remaining := Z.max 0 (i64 (deadline - steady)) in
  if int64_max - wall <? remaining then throw (exn_error value_not_integer) else
  append op_expire_at [node_key n; to_string (wall + remaining)].

Fixpoint save_from (fuel : nat) (db : Database A) (steady wall node : Z) : M Wal unit :=
  match fuel with
  | O => ret tt
  | S fuel =>
      if node =? 0 then ret tt else
      do! (do! save_value db (node_at db node) in save_deadline db steady wall node) in
      save_from fuel db steady wall (lru_previous (lru_ db) node)
  end.

(** The closure passed to [Wal::compact]. *)
Definition snapshot (db : Database A) (steady wall : Z) : M Wal unit :=
  save_from (rounds db) db steady wall (lru_tail_ (lru_ db)).

Definition compact_wal (err : option nat) : M (Database A) unit :=
  let! db := Effects.get in
  if negb (bool_decide (is_Some (wal_ db))) then throw write_failed else
  do! remove_expired_locked no_expiry_limit in
  let! steady := now_ms in
  let! wall := current_unix_ms in
  let! db := Effects.get in
  on_wal_ (compact (snapshot db steady wall) err).

(** ** Values *)

Lemma run_from_values l : forall a rest, Forall encodable l ->
  run_from (length l) (a ++ encode_run l ++ rest) (len a) = l.
Proof.
  induction l as [|v l IH]; intros a rest Hl; [done|]. inversion Hl as [|? ? Hv Hl']; subst. cbn [length run_from].
  unfold element_at. rewrite drop_len, encode_run_cons, <- app_assoc.
  destruct (element_full (input_from v) (encode_run l ++ rest)) as (Es & Ed & _); [by rewrite input_value_from|].
  rewrite Es. destruct (decode _) as [x|]; [|done]. injection Ed as Ed. cbn [from_option id].
  rewrite Ed, input_value_from. f_equal.
  rewrite <- len_app, app_assoc. by apply IH.
Qed.

Lemma run_of_list T n l : node_wf n -> holds T n (DList l) -> run_of n = l.
Proof.
  intros Hw Hh. pose proof (list_node_of _ _ _ Hw Hh) as Hn. destruct (list_run_split _ _ _ _ Hn) as [Er El].
  unfold run_of. rewrite (ln_count _ _ _ _ Hn). unfold len at 1. rewrite Nat2Z.id.
  generalize dependent (take (Z.to_nat (list_head n)) (list_run n)). intros a Er <-. rewrite Er. apply run_from_values, Hn.
Qed.

End ops.

(** ** What the records lead to *)

Section saves.

Variable T : Z -> Z -> Prop.

(** Running [m] takes a log that stands for [K] to one that stands for [K']. *)
Definition saves (m : M Wal unit) (K K' : Keyspace) : Prop := writes m (fun new => leads T K new K').

Lemma saves_then m1 m2 K K1 K2 : saves m1 K K1 -> saves m2 K1 K2 -> saves (do! m1 in m2) K K2.
Proof. intros H1 H2. eapply writes_then; [exact H1|exact H2|]. intros new1 new2. apply leads_app. Qed.

Lemma saves_nothing K : saves (ret tt) K K.
Proof. apply writes_nothing, leads_nil. Qed.

Lemma saves_append op args K K' : real_op op -> leads T K [(op, args)] K' -> saves (append op args) K K'.
Proof. intros Hop Hl. by apply writes_append. Qed.

Lemma integer_set_leads K key n :
  len key <= max_key_length -> is_int64 n -> leads T K [(op_integer_set, [key; to_string n])] (<[key := (DInt n, None)]> K).
Proof.
  intros Hk Hn. apply leads_one; [done|]. intros S HM _ _. cbn [apply_to]. rewrite from_chars_to_string by done.
  eexists. split; [reflexivity|]. apply matches_insert; [done|]. split; [done|constructor].
Qed.

(** A key that is being rebuilt: nothing, or a value without a deadline. *)
Definition rebuilt (key : bytes) (v : option dvalue) (K : Keyspace) : Prop := K !! key = (fun v => (v, None)) <$> v.

Definition list_so_far (l : list Value) : option dvalue := match l with [] => None | _ => Some (DList l) end.
Definition hash_so_far (h : gmap bytes Value) : option dvalue := if bool_decide (h = ∅) then None else Some (DHash h).

Lemma push_next K key l v :
  rebuilt key (list_so_far l) K -> len (encode_run (l ++ [v])) <= list_limit -> encodable v ->
  push_of false (input_from v) (fst <$> K !! key) = Ok (l ++ [v]).
Proof.
  intros HK Hs Hv. rewrite encode_run_app, len_app in Hs.
  assert (len (encode_run [v]) = input_size (input_from v) true) as E1.
  { unfold encode_run. cbn [map concat]. destruct (element_full (input_from v) []) as (_ & _ & E); [by rewrite input_value_from|].
    by rewrite app_nil_r. }
  rewrite E1 in Hs. unfold rebuilt, list_so_far in HK. destruct l as [|x l]; rewrite HK; cbn [fmap option_fmap option_map fst push_of].
  - change (len (encode_run [])) with 0 in Hs. destruct (Z.ltb_spec list_limit (input_size (input_from v) true)); [lia|].
    by rewrite input_value_from.
  - destruct (Z.ltb_spec list_limit (len (encode_run (x :: l)) + input_size (input_from v) true)); [lia|].
    by rewrite input_value_from.
Qed.

Lemma encodable_input v : encodable v -> typed_input (input_from v).
Proof. destruct v; [done|]. intros Hv _. exact Hv. Qed.

Lemma rebuilt_time key v K : rebuilt key v K -> K !! key ≫= snd = None.
Proof. intros ->. by destruct v. Qed.

Lemma list_saves key l : forall l0 K,
  len key <= max_key_length -> rebuilt key (list_so_far l0) K -> Forall encodable l ->
  len (encode_run (l0 ++ l)) <= list_limit -> l0 ++ l <> [] ->
  saves (for_each l (fun v => append_record (push_record key false (input_from v)))) K (<[key := (DList (l0 ++ l), None)]> K).
Proof.
  induction l as [|v l IH]; intros l0 K Hk HK Hl Hs Hne.
  { rewrite app_nil_r in *. rewrite insert_id; [apply saves_nothing|]. rewrite HK. by destruct l0. }
  inversion Hl as [|? ? Hv Hl']; subst. rewrite (cons_middle v l0 l), app_assoc in *.
  pose proof Hs as Hs'. rewrite encode_run_app, len_app in Hs'. pose proof (len_nonneg (encode_run l)).
  eapply (saves_then _ _ _ (<[key := (DList (l0 ++ [v]), None)]> K)).
  - apply saves_append; [done|]. rewrite <- (rebuilt_time _ _ _ HK). apply push_leads; [done|by apply encodable_input|].
    apply push_next; [done|lia|done].
  - rewrite <- (insert_again K key (DList (l0 ++ [v]), None) (DList ((l0 ++ [v]) ++ l), None)). apply IH; [done| |done|done|done].
    unfold rebuilt. rewrite lookup_insert_eq. by destruct l0.
Qed.

Definition fields_in (l : list (bytes * Value)) (h : gmap bytes Value) : gmap bytes Value :=
  fold_left (fun h p => <[p.1 := p.2]> h) l h.

Lemma fields_in_union l : forall h, NoDup l.*1 -> fields_in l h = list_to_map l ∪ h.
Proof.
  induction l as [|[f v] l IH]; intros h Hd; [symmetry; apply (left_id_L ∅ (∪))|]. cbn in Hd. apply NoDup_cons in Hd as [Hf Hd].
  cbn [fields_in fold_left fst snd list_to_map foldr]. change (fields_in l (<[f := v]> h) = <[f := v]> (list_to_map l) ∪ h).
  rewrite IH by done. rewrite <- insert_union_l. symmetry. apply insert_union_r. by apply not_elem_of_list_to_map_1.
Qed.

Lemma hash_saves key l : forall h K,
  len key <= max_key_length -> rebuilt key (hash_so_far h) K -> Forall (fun p => fine_field p.1 p.2) l -> fields_in l h <> ∅ ->
  saves (for_each l (fun p => append_record (hash_record key p.1 (input_from p.2)))) K (<[key := (DHash (fields_in l h), None)]> K).
Proof.
  induction l as [|[f v] l IH]; intros h K Hk HK Hl Hne.
  { cbn [fields_in fold_left] in *. rewrite insert_id; [apply saves_nothing|]. rewrite HK. unfold hash_so_far.
    by rewrite bool_decide_false. }
  inversion Hl as [|? ? (Hf & Hv & He) Hl']; subst. cbn [fst snd] in *.
  change (fields_in ((f, v) :: l) h) with (fields_in l (<[f := v]> h)) in *.
  eapply (saves_then _ _ _ (<[key := (DHash (<[f := v]> h), None)]> K)).
  - apply saves_append; [done|]. rewrite <- (rebuilt_time _ _ _ HK). apply hash_set_leads; [done|by apply encodable_input|].
    unfold assign_of. cbn [fst snd].
    assert (fields_of (fst <$> K !! key) = Ok h) as ->.
    { rewrite HK. unfold hash_so_far. destruct (bool_decide_reflect (h = ∅)) as [->|]; done. }
    destruct (Z.ltb_spec hash_limit (len f)); [lia|]. destruct (Z.ltb_spec hash_limit (input_size (input_from v) false)); [lia|].
    cbn [orb]. by rewrite input_value_from.
  - rewrite <- (insert_again K key (DHash (<[f := v]> h), None) (DHash (fields_in l _), None)). apply IH; [done| |done|done].
    unfold rebuilt, hash_so_far. rewrite lookup_insert_eq, bool_decide_false by apply insert_non_empty. done.
Qed.

End saves.

(** ** The whole keyspace *)

Section snapshots.

Context {A : Type} `{NodeAllocator A} `{!Platform A}.
Context (db : Database A) (idx : gmap bytes Z) (order : list Z) (K : Keyspace).
Hypothesis HI : store_inv db idx order ∅ ∅.
Hypothesis HR : represents db idx K.
Hypothesis Hfine : fine K.

Variable T : Z -> Z -> Prop.

Lemma order_entry a : a ∈ order -> exists n e,
  heap_ db !! a = Some n /\ node_wf n /\ node_key n = key_at db a /\ K !! key_at db a = Some e /\
  fine_entry (key_at db a) e /\ holds (tables_ db) n e.1 /\ e.2 = deadlines (exp_ db) !! a.
Proof.
  intros Ha. pose proof HI as [Hc _]. apply (si_order _ _ _ _ _ Hc) in Ha as Hi.
  destruct (represents_lookup _ _ _ _ _ HR Hi) as (e & Ek & (n & En & Hh & Ed)). exists n, e.
  split; [exact En|]. split; [by eapply si_wf|]. split; [by rewrite (key_at_lookup _ _ _ En)|]. split; [exact Ek|].
  split; [by apply Hfine|]. by split.
Qed.

Lemma value_saves n v K0 :
  node_wf n -> holds (tables_ db) n v -> len (node_key n) <= max_key_length -> fine_value v -> K0 !! node_key n = None ->
  saves T (save_value db n) K0 (<[node_key n := (v, None)]> K0).
Proof.
  intros Hw Hh Hk Hv H0. unfold save_value. rewrite (holds_type _ _ _ Hh). destruct v as [s|z|l|h].
  - destruct Hh as (_ & _ & _ & ->). apply saves_append; [done|]. by apply set_leads.
  - destruct Hh as (_ & _ & ->). apply saves_append; [done|]. by apply integer_set_leads.
  - rewrite (run_of_list _ _ _ Hw Hh). destruct Hv as (Hne & Hs & He). by apply (list_saves T (node_key n) l []).
  - set (pairs := if has_flag flag_hash_promoted n then _ else _).
    assert (NoDup pairs.*1 /\ list_to_map pairs = h) as [Hd Eh].
    { unfold pairs. destruct (has_flag flag_hash_promoted n) eqn:Hp.
      - destruct Hh as (_ & Hh). rewrite Hp in Hh. rewrite (table_at_lookup _ _ h) by apply Hh.
        destruct (ordered_pairs _ _ (table_order_perm (time_ db) h)) as (? & ? & _). by split.
      - destruct (packed_of _ _ _ Hw Hh Hp) as (l & Hl & ->). rewrite (unpack_node _ _ Hl). split; [exact (pn_fields _ _ Hl)|reflexivity]. }
    clearbody pairs. destruct Hv as [Hne Hf].
    assert (fields_in pairs ∅ = h) as E by (rewrite fields_in_union, Eh by done; apply (right_id_L ∅ (∪))).
    rewrite <- E at 1. apply hash_saves; [done|unfold rebuilt; by rewrite H0| |by rewrite E].
    apply Forall_forall. intros [f x] Hx. apply (Hf f x). rewrite <- Eh. by apply elem_of_list_to_map_1.
Qed.

Variables steady wall : Z.
Hypothesis Hsteady : 0 <= steady < 2 ^ 62.
Hypothesis Hwall : 0 <= wall < 2 ^ 62.
Hypothesis T_saved : forall d, 0 <= d <= int64_max -> wall + Z.max 0 (d - steady) <= int64_max -> T d (wall + Z.max 0 (d - steady)).

Lemma node_saves a e K0 :
  a ∈ order -> K !! key_at db a = Some e -> K0 !! key_at db a = None ->
  saves T (do! save_value db (node_at db a) in save_deadline db steady wall a) K0 (<[key_at db a := e]> K0).
Proof.
  intros Ha Ek H0. destruct (order_entry a Ha) as (n & e' & En & Hw & Ekey & Ek' & (Hk & Hv & Hd) & Hh & Ed).
  assert (e' = e) as -> by congruence. destruct e as [v d]. cbn [fst snd] in *. pose proof HI as [_ He].
  eapply (saves_then T _ _ _ (<[key_at db a := (v, None)]> K0)).
  - rewrite (node_at_lookup _ _ _ En), <- Ekey. rewrite <- Ekey in H0, Hk. by apply value_saves.
  - unfold save_deadline. rewrite (node_at_lookup _ _ _ En), (si_flag _ _ He a n En), <- Ed.
    unfold deadline_of. rewrite <- deadlines_lookup, <- Ed. destruct d as [d|].
    + rewrite bool_decide_true by (by exists d). cbn [negb from_option id]. specialize (Hd d eq_refl).
      rewrite i64_small by (unfold is_int64, int64_min, int64_max in *; lia). destruct (Z.ltb_spec (int64_max - wall) (Z.max 0 (d - steady))).
      { apply writes_throw. }
      apply saves_append; [done|]. rewrite Ekey, <- (insert_again K0 (key_at db a) (v, None) (v, Some d)).
      apply expire_leads; [done|by rewrite lookup_insert_eq|lia|]. apply T_saved; lia.
    + rewrite bool_decide_false by (by intros []). apply saves_nothing.
Qed.

(** The keys of [l] with their entries in [K]. *)
Definition part (l : list Z) : Keyspace := filter (fun p => p.1 ∈ key_at db <$> l) K.

Lemma part_snoc l a e : (key_at db a ∉ key_at db <$> l) -> K !! key_at db a = Some e ->
  part (l ++ [a]) = <[key_at db a := e]> (part l).
Proof.
  intros Ha Ek. apply map_eq. intros k. unfold part. destruct (decide (k = key_at db a)) as [->|Hne].
  - rewrite lookup_insert_eq. apply map_lookup_filter_Some. split; [done|]. cbn. rewrite fmap_app. apply elem_of_app. right. by left.
  - rewrite lookup_insert_ne by done. rewrite !map_lookup_filter. destruct (K !! k) as [x|]; [|done]. cbn [mbind option_bind].
    rewrite fmap_app. destruct (decide (k ∈ key_at db <$> l)) as [Hk|Hk].
    + rewrite !option_guard_True; [done|done|]. apply elem_of_app. by left.
    + rewrite !option_guard_False; [done|done|]. intros [?|Hx]%elem_of_app; [done|]. cbn in Hx. by apply list_elem_of_singleton in Hx.
Qed.

Lemma order_keys : NoDup (key_at db <$> order).
Proof.
  pose proof HI as [Hc _]. apply NoDup_fmap_2_strong; [|apply (si_lru _ _ _ _ _ Hc)]. intros a b Ha Hb E.
  apply (si_order _ _ _ _ _ Hc) in Ha, Hb. congruence.
Qed.

Lemma save_from_saves l : forall fuel l2, order = l ++ l2 -> (length l < fuel)%nat ->
  saves T (save_from fuel db steady wall (last_or 0 l)) (part l2) K.
Proof.
  pose proof HI as [Hc _]. pose proof (si_lru _ _ _ _ _ Hc) as HL. pose proof order_keys as Hnd.
  induction l as [|a l IH] using rev_ind; intros fuel l2 Eo Hfuel; (destruct fuel as [|fuel]; [cbn in Hfuel; lia|]); cbn [save_from].
  { change (last_or 0 []) with 0. rewrite Z.eqb_refl. cbn in Eo. subst l2.
    replace (part order) with K; [apply saves_nothing|]. symmetry. apply map_filter_id. intros k e Ek. cbn.
    specialize (HR k). destruct (idx !! k) as [a|] eqn:Ei; [|congruence].
    rewrite <- (idx_key _ _ _ _ _ Hc _ _ Ei). apply list_elem_of_fmap_2. by eapply idx_order. }
  rewrite last_or_snoc. rewrite length_app in Hfuel. cbn in Hfuel.
  assert (a ∈ order) as Ha by (rewrite Eo; apply elem_of_app; left; apply elem_of_app; right; by left).
  destruct (Z.eqb_spec a 0) as [->|_]; [by destruct (lr_nonnull _ _ HL)|].
  destruct (order_entry a Ha) as (n & e & _ & _ & _ & Ek & _).
  assert (lru_previous (lru_ db) a = last_or 0 l) as ->.
  { pose proof (lr_links _ _ HL) as Hseg. rewrite Eo, <- app_assoc in Hseg. apply dseg_app in Hseg as [_ [Hl _]].
    unfold lru_previous, links_of. by rewrite Hl. }
  assert (key_at db a ∉ key_at db <$> l2) as Hout.
  { rewrite Eo, !fmap_app, <- app_assoc in Hnd. apply NoDup_app in Hnd as (_ & _ & Hnd). cbn in Hnd. by apply NoDup_cons in Hnd as [? _]. }
  eapply (saves_then T _ _ _ (part (a :: l2))).
  - assert (part (a :: l2) = <[key_at db a := e]> (part l2)) as ->.
    { rewrite <- (part_snoc l2 a e Hout Ek). unfold part. apply map_filter_ext. intros k x _. cbn [fst].
      rewrite fmap_cons, fmap_app, elem_of_cons, elem_of_app. cbn [fmap list_fmap]. rewrite list_elem_of_singleton. tauto. }
    apply node_saves; [done|done|]. apply map_lookup_filter_None. right. intros x _. exact Hout.
  - apply IH; [|lia]. rewrite Eo, <- app_assoc. done.
Qed.

Lemma snapshot_saves : saves T (snapshot db steady wall) ∅ K.
Proof.
  pose proof HI as [Hc _]. unfold snapshot. rewrite (lr_tail _ _ (si_lru _ _ _ _ _ Hc)).
  replace (∅ : Keyspace) with (part []); [apply (save_from_saves order _ []); [by rewrite app_nil_r|]|].
  - by eapply order_rounds.
  - apply map_empty. intros k. apply map_lookup_filter_None. right. intros e _. apply not_elem_of_nil.
Qed.

End snapshots.

(** ** Compaction *)

Section compaction.

Context {A : Type} `{NodeAllocator A} `{!Platform A}.

Lemma saved_moment t d :
  0 <= d <= int64_max -> same_moment d (wall_at (S t) + Z.max 0 (d - steady_at t)).
Proof. intros Hd. split; [done|]. exists t, (S t). split; [lia|]. lia. Qed.

(** A log that has failed is not compacted. *)
Lemma compact_failed write err w : failed_ w = true -> compact write err w = (inl write_failed, w).
Proof. intros Hf. unfold compact, bind, Effects.get. cbn. by rewrite Hf. Qed.

(** The log of a compaction that returned, and of one that threw once it had
    begun to switch files. *)
Definition new_log (K : Keyspace) (w w' : Wal) : Prop :=
  exists new, leads same_moment ∅ new K /\ wal_inv new w' /\ failed_ w' = false /\ dirty_ w' = false /\
    disk_ w' = settled new /\ sync_ w' = sync_ w.

Definition between_logs (K : Keyspace) (rs : list (WalOp * list bytes)) (w w' : Wal) : Prop :=
  exists w1 new, wal_inv rs w1 /\ failed_ w1 = false /\ moves w w1 /\ leads same_moment ∅ new K /\ stranded rs new w1 w'.

(** Memory is as the sweep left it; of the log, [L] holds. *)
Definition compact_left (db : Database A) (K : Keyspace) (R : list bytes) (L : Wal -> Wal -> Prop) (db' : Database A) : Prop :=
  db_ok db' K R /\ replaying_ db' = replaying_ db /\ (time_ db <= time_ db')%nat /\ max_keys_ db' = max_keys_ db /\
  exists w w', wal_ db = Some w /\ wal_ db' = Some w' /\ L w w'.

Lemma put_log_ok (db : Database A) w w' K R (L : Wal -> Wal -> Prop) :
  db_ok db K R -> wal_ db = Some w -> L w w' -> compact_left db K R L (put_wal (Some w') db).
Proof.
  intros Hok Hw HL. split; [by eapply db_ok_same; [exact Hok|reflexivity..]|]. split; [reflexivity|]. split; [reflexivity|].
  split; [reflexivity|]. exists w, w'. by split_and!.
Qed.

Lemma log_there (db db' : Database A) w : after db db' -> wal_ db = Some w -> exists w', wal_ db' = Some w' /\ moves w w'.
Proof.
  intros (_ & _ & _ & _ & Hl) Hw. unfold log_moves in Hl. rewrite Hw in Hl. destruct (wal_ db') as [w'|]; [|done]. by exists w'.
Qed.

(** The last part, on a database without keys past their deadline. *)
Lemma compact_log_wp err (db : Database A) K R rs w t :
  db_ok db K R -> wal_ db = Some w -> wal_inv rs w -> fine K ->
  wp (on_wal_ (compact (snapshot db (steady_at t) (wall_at (S t))) err))
    (fun _ => compact_left db K R (new_log K))
    (fun _ => compact_left db K R (fun w w' => wal_inv rs w' /\ moves w w' \/ between_logs K rs w w')) db.
Proof.
  intros Hok Hw Hi Hfine. pose proof Hok as (idx & order & HI & HR & _).
  unfold wp, on_wal_. rewrite Hw. destruct (failed_ w) eqn:Hf.
  { rewrite compact_failed by done. apply (put_log_ok db w); [done|done|]. left. split; [done|apply moves_refl]. }
  assert (saves same_moment (snapshot db (steady_at t) (wall_at (S t))) ∅ K) as Hs.
  { eapply snapshot_saves; [exact HI|exact HR|exact Hfine|apply steady_range|apply wall_range|]. intros d Hd _. by apply saved_moment. }
  pose proof (compact_inv _ _ rs w err Hs Hi Hf) as Hc. unfold wp in Hc.
  destruct (compact _ err w) as [[e|u] w'].
  - apply (put_log_ok db w); [done|done|]. destruct Hc as [Hc|(new & Hl & Hstr)]; [by left|]. right.
    exists w, new. split_and!; try done. apply moves_refl.
  - apply (put_log_ok db w); [done|done|]. exact Hc.
Qed.

Lemma compact_left_from (db db1 db2 db' : Database A) K R (L L' : Wal -> Wal -> Prop) :
  after db db1 -> (exists t, db2 = put_time t db1 /\ (time_ db1 <= t)%nat) -> compact_left db2 K R L db' ->
  (forall w w1 w', wal_ db1 = Some w1 -> moves w w1 -> L w1 w' -> L' w w') -> is_Some (wal_ db) -> compact_left db K R L' db'.
Proof.
  intros Haf (t & -> & Ht) (Hok & Er & Et & Em & w1 & w' & Ew1 & Ew' & HL) Himp [w Hw].
  destruct (log_there _ _ _ Haf Hw) as (w1' & Ew1' & Hm). cbn in *. assert (w1' = w1) as -> by congruence.
  destruct Haf as (E1 & E2 & _ & E4 & _). split; [exact Hok|]. split; [congruence|]. split; [lia|]. split; [congruence|].
  exists w, w'. split_and!; [done|done|]. by eapply Himp.
Qed.

Lemma compact_wal_wp err (db : Database A) K R rs :
  db_ok db K R -> logged rs db -> is_Some (wal_ db) -> replaying_ db = false -> fine K ->
  let now := steady_at (time_ db) in
  wp (compact_wal err)
    (fun _ db' => exists ks, swept now no_expiry_limit K ks /\ (len ks < no_expiry_limit -> none_expired now (dropped ks K)) /\
       compact_left db (dropped ks K) (dropped_keys ks R) (new_log (dropped ks K)) db')
    (fun _ db' => exists ks, swept now no_expiry_limit K ks /\
       (keys_gone db K rs ks (dropped_keys ks R) (refused_del db (dropped ks K)) db' \/
        compact_left db (dropped ks K) (dropped_keys ks R) (fun w w' =>
          wal_inv (rs ++ dels ks) w' /\ moves w w' \/ between_logs (dropped ks K) (rs ++ dels ks) w w') db')) db.
Proof.
  intros Hok Hl Hlog Hrep Hfine now. unfold compact_wal. wp_steps. rewrite bool_decide_true by done. cbn [negb]. wp_steps.
  eapply wp_mono; [apply (remove_expired_locked_wp no_expiry_limit db rs K R Hok Hl); unfold no_expiry_limit; lia|..].
  2:{ intros e db' (rs' & K' & R' & Hs & ks & -> & -> & -> & Hsw & Ex & _). exists ks. split; [exact Hsw|].
      left. by apply stuck_gone. }
  intros u db1 (rs' & K' & R' & Hs & ks & -> & -> & -> & Hsw & Ex & _ & Hn). apply stands_gone in Hs as (Hok1 & Hl1 & Haf).
  assert (recs db (dels ks) = dels ks) as Erec.
  { unfold recs, logging. destruct Hlog as [w ->]. by rewrite Hrep. }
  rewrite Erec in Hl1. wp_steps. apply now_wp. wp_steps. apply wall_wp. wp_steps.
  set (t := time_ db1). set (db2 := put_time _ _).
  assert (exists w1, wal_ db1 = Some w1) as [w1 Ew1] by (destruct Hlog as [w Hw]; destruct (log_there _ _ _ Haf Hw) as (w1 & E & _); by exists w1).
  assert (wal_inv (rs ++ dels ks) w1) as Hi1 by (unfold logged in Hl1; by rewrite Ew1 in Hl1).
  assert (exists t', db2 = put_time t' db1 /\ (time_ db1 <= t')%nat) as Hdb2 by (eexists; split; [reflexivity|cbn; lia]).
  assert (db_ok db2 (dropped ks K) (dropped_keys ks R)) as Hok2 by (by eapply db_ok_same; [exact Hok1|reflexivity..]).
  assert (fine (dropped ks K)) as Hfine2.
  { intros k e Ek. rewrite lookup_dropped in Ek. destruct (decide (k ∈ ks)); [done|]. by apply Hfine. }
  change (wall_at _) with (wall_at (S t)). assert (wal_ db2 = Some w1) as Ew2 by exact Ew1. clearbody db2 t.
  eapply wp_mono; [exact (compact_log_wp err db2 _ _ _ w1 t Hok2 Ew2 Hi1 Hfine2)|..].
  - intros u' db' Hc. exists ks. split; [exact Hsw|]. split; [by apply Hn|]. eapply compact_left_from; [exact Haf|exact Hdb2|exact Hc| |exact Hlog].
    intros w w1' w' _ ((Es & _) & _) (new & H1 & H2 & H3 & H4 & H5 & H6). exists new. split_and!; try done. congruence.
  - intros e db' Hc. exists ks. split; [exact Hsw|]. right. eapply compact_left_from; [exact Haf|exact Hdb2|exact Hc| |exact Hlog].
    intros w w1' w' _ Hm [[Hi Hm']|(w2 & new & H1 & H2 & H3 & H4 & H5)]; [left|right].
    + split; [exact Hi|by eapply moves_trans].
    + exists w2, new. split_and!; try done. by eapply moves_trans.
Qed.

(** Compacting the log of a database.  The keys past their deadline are
    removed, and if the call returns the log has been replaced by records that
    give back exactly the keyspace in memory, values and deadlines, all of them
    on the disk.  If it throws, the sweep may have stopped early, the log may
    be the old one, or it is one that has failed for good between the two
    files; memory still holds the keyspace. *)
Theorem compact_wal_correct err (db : Database A) K R rs :
  db_ok db K R -> logged rs db -> is_Some (wal_ db) -> replaying_ db = false -> fine K ->
  let now := steady_at (time_ db) in
  wp (compact_wal err)
    (fun _ db' => exists ks, swept now no_expiry_limit K ks /\ (len ks < no_expiry_limit -> none_expired now (dropped ks K)) /\
       compact_left db (dropped ks K) (dropped_keys ks R) (new_log (dropped ks K)) db')
    (fun _ db' => exists ks, swept now no_expiry_limit K ks /\
       (keys_gone db K rs ks (dropped_keys ks R) (refused_del db (dropped ks K)) db' \/
        compact_left db (dropped ks K) (dropped_keys ks R) (fun w w' =>
          wal_inv (rs ++ dels ks) w' /\ moves w w' \/ between_logs (dropped ks K) (rs ++ dels ks) w w') db')) db.
Proof. apply compact_wal_wp. Qed.

End compaction.

(** ** Example *)

Lemma sample_fine : fine sample_keyspace.
Proof.
  intros k e E. unfold sample_keyspace in E. apply lookup_singleton_Some in E as [<- <-].
  split; [vm_compute; discriminate|]. split; [vm_compute; discriminate|done].
Qed.

Lemma compact_wal_correct_witness :
  exists db' ks, compact_wal None sample_db = (inr tt, db') /\
    compact_left sample_db (dropped ks sample_keyspace) (dropped_keys ks [key_k]) (new_log (dropped ks sample_keyspace)) db'.
Proof.
  destruct sample_db_ok as [Hok Hl].
  destruct (wp_returns _ _ _ _ (compact_wal_correct None sample_db sample_keyspace [key_k] sample_log_records Hok Hl
    ltac:(vm_compute; by eexists) ltac:(vm_compute; reflexivity) sample_fine)) as ([] & db' & E & ks & _ & _ & Hc);
    [eexists; vm_compute; reflexivity|].
  exists db', ks. split; [exact E|exact Hc].
Defined.
