(* ===== verification/Durable.v ===== *)
(** * Durable: the keyspace and its log stay together

    [sound db K] says that the database [db] holds the keyspace [K] and that
    its log means [K]: reading the acknowledged records gives the values of
    [K] with every deadline at the same moment, and any records a failing log
    may hold beyond them can be read as well.  Every operation of the database
    keeps this, whether it returns or throws and whatever calls on the log
    fail; so whatever a crash leaves of the log can be opened again. *)

From S2P Require Import Prelude Charconv Errors Effects Pack WalCodec Wal Allocator Slab Lru Expiry Buckets Node Store Keyspace StoreSpec Contents Edits Writing Clearing Sample Strings Timers Lists Hashes Throws Records Replay Open Snapshot.

Section durable.

Context {A : Type} `{NodeAllocator A} `{!Platform A}.

(** A file that was replaced but may come back after a crash. *)
Definition readable (f : File) : Prop :=
  exists rs, Forall record_ok rs /\ log_of f = magic ++ concat (map enc rs) /\ is_Some (apply_all rs ∅) /\ (8 <= durable f)%nat.

Record sound_with (db : Database A) (K : Keyspace) (R : list bytes) (w : Wal) (acked extra : list (WalOp * list bytes))
    (S : Keyspace) : Prop := {
  so_ok : db_ok db K R;
  so_log : wal_ db = Some w;
  so_live : replaying_ db = false;
  so_inv : wal_inv (acked ++ extra) w;
  so_extra : failed_ w = false -> extra = [];
  so_acked : apply_all acked ∅ = Some S;
  so_matches : matches same_moment K S;
  so_applies : is_Some (apply_all (acked ++ extra) ∅);
  so_header : (8 <= durable (disk_ w))%nat;
  so_replaced old : replaced_ w = Some old -> readable old;
  so_synced : synced w
}.

Definition sound (db : Database A) (K : Keyspace) : Prop :=
  exists R w acked extra S, sound_with db K R w acked extra S.

(** ** Limits *)

Lemma keys_short (db : Database A) K R key : db_ok db K R -> is_Some (K !! key) -> len key <= max_key_length.
Proof.
  intros (idx & order & HI & HR & _) [e Ek]. specialize (HR key). destruct (idx !! key) as [a|] eqn:Ei; [|congruence].
  destruct (idx_node _ _ _ _ _ (proj1 HI) _ _ Ei) as (n & _ & <- & _). unfold node_key, read_at, len. rewrite length_take.
  unfold node_key_length. change key_length_mask with (Z.ones 21). rewrite Z.land_ones by lia.
  pose proof (Z.mod_pos_bound (key_meta n) (2 ^ 21) ltac:(lia)). unfold max_key_length. lia.
Qed.

Lemma matches_fine K S : matches same_moment K S -> fine S -> fine K.
Proof.
  intros HM HS k e Ek. specialize (HM k). rewrite Ek in HM. inversion HM as [? s [E1 E2] E3 E4|]; subst.
  destruct (HS k s) as (Hk & Hv & _); [by symmetry|]. split; [exact Hk|]. split; [by rewrite E1|].
  intros d Ed. rewrite Ed in E2. inversion E2 as [? w (Hd & _)|]; subst. exact Hd.
Qed.

Lemma sound_fine (db : Database A) K R w acked extra S : sound_with db K R w acked extra S -> fine K.
Proof. intros Hs. eapply matches_fine; [apply Hs|]. eapply apply_all_fine; [apply fine_empty|apply Hs]. Qed.

(** ** One step *)

Section step.

Context (db : Database A) (K : Keyspace) (R : list bytes) (w : Wal) (acked extra : list (WalOp * list bytes)) (S : Keyspace).
Hypothesis Hs : sound_with db K R w acked extra S.

Lemma sound_logged : logged (acked ++ extra) db.
Proof. unfold logged. rewrite (so_log _ _ _ _ _ _ _ Hs). apply Hs. Qed.

Lemma sound_recs l : recs db l = l.
Proof. unfold recs, logging. by rewrite (so_log _ _ _ _ _ _ _ Hs), (so_live _ _ _ _ _ _ _ Hs). Qed.

(** The step has written [done]; of [c] some records may be in the log too. *)
Lemma sound_step (db' : Database A) K' R' done c :
  db_ok db' K' R' -> refused ((acked ++ extra) ++ done) c db' -> after db db' ->
  leads same_moment K done K' -> (exists K'', leads same_moment K' c K'') -> sound db' K'.
Proof.
  intros Hok (x & Hl & Hx & Hp) Haf Hdone [K'' Hc]. destruct Hs as [_ Hw Hrep Hi Hextra Ha HM Happ Hhd Hrp Hsy].
  destruct (log_there _ _ _ Haf Hw) as (w' & Ew' & (_ & Erep & _ & Hdur) & Hfroz & Hsy').
  unfold logged, log_failed in Hl, Hx. rewrite Ew' in Hl, Hx. rewrite <- app_assoc in Hl.
  destruct (Hdone S HM) as (S1 & E1 & HM1). destruct (Hc S1 HM1) as (S2 & E2 & _).
  assert (replaying_ db' = false) as Hrep' by (rewrite (proj1 Haf); exact Hrep).
  assert (forall old, replaced_ w' = Some old -> readable old) as Hrp' by (rewrite Erep; exact Hrp).
  destruct (failed_ w) eqn:Hf.
  - destruct (Hfroz Hf) as [Hf' Ed]. pose proof (wal_inv_unique _ _ _ _ Hi Hl Ed) as Eq.
    rewrite <- (app_nil_r (acked ++ extra)) in Eq at 2. apply app_inv_head, app_nil in Eq as [-> ->].
    exists R', w', acked, extra, S. injection E1 as <-. rewrite app_nil_r in Hl. constructor; try assumption; [|lia|by apply Hsy'].
    intros E. congruence.
  - rewrite (Hextra eq_refl), app_nil_r in Hl. exists R', w', (acked ++ done), x, S1.
    assert (apply_all (acked ++ done) ∅ = Some S1) as E3 by (rewrite apply_all_app, Ha; exact E1).
    constructor; try assumption; [by rewrite <- app_assoc| |lia|by apply Hsy'].
    rewrite apply_all_app, E3. destruct (apply_all_prefix x c S1 S2 Hp E2) as [S3 ES3]. exists S3. exact ES3.
Qed.

(** The step returned, and has written [done]. *)
Lemma sound_done (db' : Database A) K' R' done :
  db_ok db' K' R' -> logged ((acked ++ extra) ++ done) db' -> after db db' -> leads same_moment K done K' -> sound db' K'.
Proof.
  intros Hok Hl Haf Hd. eapply (sound_step db' K' R' done []); [done| |done|done|exists K'; apply leads_nil].
  by apply logged_refused.
Qed.

Section key.

Variable key : bytes.

Lemma purge_leads : leads same_moment K (purge_records db K key) (purged db K key).
Proof.
  unfold purge_records, purged. destruct (gone db K key) eqn:Hg; [|apply leads_nil]. apply del_leads.
  eapply keys_short; [apply Hs|]. unfold gone in Hg. destruct (K !! key) as [e|]; [by exists e|done].
Qed.

Lemma seen_old : fst <$> purged db K key !! key = fst <$> seen db K key.
Proof. by rewrite purged_seen. Qed.

(** What each way a command ends comes to. *)
Lemma sound_looked db' : looked db K R (acked ++ extra) key db' -> sound db' (purged db K key).
Proof. intros (Hok & Hl & Haf). rewrite sound_recs in Hl. eapply sound_done; [exact Hok|exact Hl|exact Haf|apply purge_leads]. Qed.

Lemma sound_read db' : was_read db K R (acked ++ extra) key db' -> sound db' K.
Proof.
  intros (Hok & Hl & Haf). eapply (sound_done db' K _ []); [exact Hok|by rewrite app_nil_r|exact Haf|apply leads_nil].
Qed.

Lemma sound_wrote ops e db' :
  wrote db K R (acked ++ extra) ops key e db' ->
  (len key <= max_key_length -> leads same_moment (purged db K key) ops (<[key := e]> (purged db K key))) ->
  sound db' (<[key := e]> K).
Proof.
  intros (Hok & Hl & Haf) Hops. rewrite sound_recs in Hl.
  assert (len key <= max_key_length) as Hk by (eapply keys_short; [exact Hok|]; rewrite lookup_insert_eq; by eexists).
  eapply sound_done; [exact Hok|exact Hl|exact Haf|]. eapply leads_app; [apply purge_leads|].
  rewrite <- (purged_insert db). by apply Hops.
Qed.

Lemma sound_kept ops db' :
  kept db K (acked ++ extra) ops key db' ->
  (len key <= max_key_length -> exists K'', leads same_moment (purged db K key) ops K'') ->
  exists K', sound db' K'.
Proof.
  intros (K' & R' & rs' & c & Hok & Hr & Haf & Hcase) Hops. exists K'.
  destruct Hcase as [(-> & -> & Hc)|(Hk & -> & -> & ->)].
  - eapply (sound_step db' K R' [] c); [done|by rewrite app_nil_r|done|apply leads_nil|].
    destruct Hc as [->|[Hk ->]]; [exists K; apply leads_nil|]. destruct (Hops Hk) as [K'' Hl]. exists K''.
    rewrite sound_recs. eapply leads_app; [apply purge_leads|exact Hl].
  - rewrite !sound_recs in Hr. eapply sound_step; [done|exact Hr|done|apply purge_leads|by apply Hops].
Qed.

Lemma sound_answered {X Y : Type} ops (answer : Result X) (e : X -> entry) (show : X -> Y) r db' :
  answered db K R (acked ++ extra) ops key answer e show r db' ->
  (forall x, answer = Ok x -> len key <= max_key_length ->
     leads same_moment (purged db K key) ops (<[key := e x]> (purged db K key))) ->
  exists K', sound db' K'.
Proof.
  intros Hans Hops. unfold answered in Hans. destruct answer as [x|c].
  - destruct Hans as [_ Hw]. eexists. eapply sound_wrote; [exact Hw|]. by apply Hops.
  - destruct Hans as [_ Hl]. eexists. by apply sound_looked.
Qed.

Lemma sound_refused {X : Type} ops (answer : Result X) (e : X -> entry) db' :
  kept db K (acked ++ extra) (if_ok answer ops) key db' ->
  (forall x, answer = Ok x -> len key <= max_key_length ->
     leads same_moment (purged db K key) ops (<[key := e x]> (purged db K key))) ->
  exists K', sound db' K'.
Proof.
  intros Hkp Hops. eapply sound_kept; [exact Hkp|]. intros Hk. destruct answer as [x|c]; cbn [if_ok].
  - eexists. by apply Hops.
  - eexists. apply leads_nil.
Qed.

End key.

(** ** The operations *)

(** The operation [m] leaves the database sound, however it ends. *)
Definition stays {X : Type} (m : M (Database A) X) : Prop :=
  wp m (fun _ db' => exists K', sound db' K') (fun _ db' => exists K', sound db' K') db.

Let Hok : db_ok db K R := so_ok _ _ _ _ _ _ _ Hs.
Let Hl : logged (acked ++ extra) db := sound_logged.

Lemma set_stays key val : stays (set key val).
Proof.
  eapply wp_mono; [apply (set_wp db K R _ key val Hok Hl)|..].
  - intros u db' (Hk & Hv & Hw). eexists. eapply sound_wrote; [exact Hw|]. intros _. by apply set_leads.
  - intros e db' Hkp. eapply sound_kept; [exact Hkp|]. intros Hk. destruct (Z.ltb_spec (64 * 1024 * 1024) (len val)).
    + eexists. apply leads_nil.
    + eexists. by apply set_leads.
Qed.

Lemma read_stays {X : Type} key (m : M (Database A) X) (P : X -> Prop) :
  wp m (fun r db' => P r /\ was_read db K R (acked ++ extra) key db') (fun _ _ => False) db -> stays m.
Proof. intros Hm. eapply wp_mono; [exact Hm|intros r db' [_ Hr]; exists K; by eapply sound_read|done]. Qed.

Lemma get_stays key : stays (get key).
Proof. apply (read_stays key _ _ (get_wp db K R _ key Hok Hl)). Qed.

Lemma value_view_stays key : stays (value_view key).
Proof. apply (read_stays key _ _ (value_view_wp db K R _ key Hok Hl)). Qed.

Lemma list_length_stays key : stays (list_length key).
Proof. apply (read_stays key _ _ (list_length_wp db K R _ key Hok Hl)). Qed.

Lemma hash_field_stays key field : stays (hash_field key field).
Proof. apply (read_stays key _ _ (hash_field_wp db K R _ key field Hok Hl)). Qed.

Lemma hash_get_stays key field : stays (hash_get key field).
Proof. apply (read_stays key _ _ (hash_get_wp db K R _ key field Hok Hl)). Qed.

Lemma hash_length_stays key : stays (hash_length key).
Proof. apply (read_stays key _ _ (hash_length_wp db K R _ key Hok Hl)). Qed.

Lemma deadlines_fine : deadlines_ok K /\ forall k e d, K !! k = Some e -> e.2 = Some d -> d <= int64_max.
Proof.
  split; intros k e d Ek Ed; destruct (sound_fine _ _ _ _ _ _ _ Hs k e Ek) as (_ & _ & Hd); by apply (Hd d Ed).
Qed.

Lemma ttl_stays key : stays (ttl key).
Proof. destruct deadlines_fine as [H1 H2]. apply (read_stays key _ _ (ttl_wp db K R _ key Hok Hl H1 H2)). Qed.

(** A command with a result, given what its records lead to. *)
Lemma answer_stays {X Y : Type} key ops (answer : Result X) (e : X -> entry) (show : X -> Y) (m : M (Database A) (Result Y)) :
  wp m (answered db K R (acked ++ extra) ops key answer e show)
    (fun _ db' => kept db K (acked ++ extra) (if_ok answer ops) key db') db ->
  (forall x, answer = Ok x -> len key <= max_key_length ->
     leads same_moment (purged db K key) ops (<[key := e x]> (purged db K key))) ->
  stays m.
Proof.
  intros Hm Hops. eapply wp_mono; [exact Hm|..].
  - intros r db' Hans. by eapply sound_answered.
  - intros ex db' Hkp. eapply sound_refused; [exact Hkp|exact Hops].
Qed.

Lemma seen_time key : purged db K key !! key ≫= snd = seen db K key ≫= snd.
Proof. by rewrite purged_seen. Qed.

Lemma increment_stays key : stays (increment key).
Proof.
  eapply answer_stays; [apply (increment_wp db K R _ key Hok Hl)|]. intros z Ez Hk. rewrite <- seen_time.
  apply incr_leads; [done|]. by rewrite seen_old.
Qed.

Lemma list_push_stays key value fr : typed_input value -> stays (list_push key value fr).
Proof.
  intros Hty. eapply answer_stays; [apply (list_push_wp db K R _ key value fr Hok Hl Hty)|]. intros l El Hk. rewrite <- seen_time.
  apply push_leads; [done|done|]. by rewrite seen_old.
Qed.

Lemma hash_assign_stays inside key field value : typed_input value -> stays (hash_assign inside key field value).
Proof.
  intros Hty. eapply answer_stays; [apply (hash_assign_wp inside db K R _ key field value Hok Hl Hty)|]. intros h Eh Hk.
  rewrite <- seen_time. apply hash_set_leads; [done|done|]. by rewrite seen_old.
Qed.

Lemma if_ok_nil {X : Type} (answer : Result X) : if_ok answer [] = [].
Proof. by destruct answer. Qed.

Lemma push_texts_stays key vs fr : stays (push_texts key vs fr).
Proof.
  assert (vs <> [] -> forall l, texts_of fr vs (fst <$> seen db K key) = Ok l -> len key <= max_key_length ->
    leads same_moment (purged db K key) (text_record key fr <$> vs) (<[key := (DList l, seen db K key ≫= snd)]> (purged db K key))) as Hops.
  { intros Hne l El Hk. rewrite <- seen_time. apply texts_leads; [done|done|]. by rewrite seen_old. }
  eapply wp_mono; [apply (push_texts_wp db K R _ key vs fr Hok Hl)|..].
  - intros r db' Hres. unfold push_texts_result in Hres. destruct (bool_decide_reflect (vs = [])) as [_|Hne].
    + eexists. eapply sound_looked, Hres.
    + eapply sound_answered; [exact Hres|]. by apply Hops.
  - intros e db' Hkp. destruct (decide (vs = [])) as [->|Hne].
    + eapply sound_kept; [exact Hkp|]. intros _. exists (purged db K key). rewrite if_ok_nil. apply leads_nil.
    + eapply sound_refused; [exact Hkp|]. by apply Hops.
Qed.

Lemma odd_twos fields : by_twos fields = [] -> Z.even (len fields) = true -> fields = [].
Proof. destruct fields as [|f [|v fields]]; done. Qed.

Lemma hash_set_texts_stays key fields : bodies_fit (by_twos fields) -> stays (hash_set_texts key fields).
Proof.
  intros Hb. assert (by_twos fields <> [] -> forall h, set_texts_of (by_twos fields) (fst <$> seen db K key) = Ok h -> len key <= max_key_length ->
    leads same_moment (purged db K key) (field_record key <$> by_twos fields) (<[key := (DHash h, seen db K key ≫= snd)]> (purged db K key))) as Hops.
  { intros Hne h Eh Hk. rewrite <- seen_time. apply fields_leads; [done|done| |done]. by rewrite seen_old. }
  eapply wp_mono; [apply (hash_set_texts_wp db K R _ key fields Hok Hl)|..].
  - intros r db' Hres. unfold set_texts_result in Hres. destruct (Z.even (len fields)) eqn:Hev; cbn [negb] in Hres.
    2:{ destruct Hres as [_ ->]. exists K. by exists R, w, acked, extra, S. }
    destruct (bool_decide_reflect (fields = [])) as [_|Hne].
    + eexists. eapply sound_looked, Hres.
    + eapply sound_answered; [exact Hres|]. apply Hops. intros E. by apply Hne, odd_twos.
  - intros e db' Hkp. destruct (decide (by_twos fields = [])) as [E|Hne].
    + rewrite E in Hkp. eapply sound_kept; [exact Hkp|]. intros _. exists (purged db K key). rewrite if_ok_nil. apply leads_nil.
    + eapply sound_refused; [exact Hkp|]. by apply Hops.
Qed.

Lemma seen_purged key e : seen db K key = Some e -> purged db K key = K /\ K !! key = Some e.
Proof. unfold seen, purged. by destruct (gone db K key). Qed.

Lemma list_pop_stays key fr : stays (list_pop key fr).
Proof.
  assert (forall v l' d, seen db K key = Some (DList (taken fr v l'), d) -> len key <= max_key_length /\
    leads same_moment K [(pop_op fr, [key])] (put_list key l' d K)) as Hops.
  { intros v l' d Es. destruct (seen_purged _ _ Es) as [_ Ek].
    assert (len key <= max_key_length) as Hk by (eapply keys_short; [exact Hok|by rewrite Ek]). split; [exact Hk|].
    assert (d = K !! key ≫= snd) as -> by (by rewrite Ek). apply (pop_leads same_moment K key Hk fr v). by rewrite Ek. }
  eapply wp_mono; [apply (list_pop_wp db K R _ key fr Hok Hl)|..].
  - intros r db' Hres. unfold pop_result in Hres. destruct (seen db K key) as [[[s|n|[|x l]|h] d]|] eqn:Es;
      try (eexists; eapply sound_looked, Hres).
    destruct Hres as (v & l' & El & _ & Hok' & Hl' & Haf). rewrite sound_recs in Hl'. rewrite El in Hops. eexists.
    eapply sound_done; [exact Hok'|exact Hl'|exact Haf|by apply (Hops v)].
  - intros e db' Hkp. eapply sound_kept; [exact Hkp|]. intros Hk. unfold pop_ops.
    destruct (seen db K key) as [[[s|n|l|h] d]|] eqn:Es; try (eexists; apply leads_nil).
    destruct (seen_purged _ _ Es) as [-> Ek]. destruct (sound_fine _ _ _ _ _ _ _ Hs key _ Ek) as (_ & (Hne & _) & _).
    destruct (list_ends fr l Hne) as (v & l' & ->). eexists. by apply (Hops v l' d).
Qed.

Lemma hash_del_leads_to key field h :
  len key <= max_key_length -> fields_of (fst <$> seen db K key) = Ok h ->
  exists K'', leads same_moment (purged db K key) [(op_hash_del, [key; field])] K''.
Proof.
  intros Hk Ef. destruct (h !! field) as [x|] eqn:Ex.
  - eexists. apply (hash_del_leads _ _ _ Hk field h x); [by rewrite seen_old|done].
  - exists (purged db K key). apply leads_one; [done|]. intros S0 HM Ev _. cbn [apply_to]. unfold apply_hash_del.
    rewrite Ev, seen_old, Ef. cbn [result_value mbind option_bind]. rewrite bool_decide_true by done. by exists S0.
Qed.

Lemma hash_del_stays key field : stays (hash_del key field).
Proof.
  eapply wp_mono; [apply (hash_del_wp db K R _ key field Hok Hl)|..].
  - intros r db' Hres. unfold hash_del_result in Hres. destruct (fields_of _) as [h|c] eqn:Ef; [|eexists; eapply sound_looked, Hres].
    destruct (bool_decide_reflect (h !! field = None)) as [_|Hne]; [eexists; eapply sound_looked, Hres|].
    destruct Hres as (_ & Hok' & Hl' & Haf). rewrite sound_recs in Hl'. destruct (h !! field) as [x|] eqn:Ex; [|done].
    destruct (seen db K key) as [e0|] eqn:Es; [|cbn in Ef; injection Ef as <-; by rewrite lookup_empty in Ex].
    destruct (seen_purged _ _ Es) as [_ Ek]. eexists. eapply sound_done; [exact Hok'|exact Hl'|exact Haf|].
    assert (Some e0 ≫= snd = K !! key ≫= snd) as -> by (by rewrite Ek).
    apply (hash_del_leads _ K key ltac:(eapply keys_short; [exact Hok|by rewrite Ek]) field h x); [by rewrite Ek|done].
  - intros e db' Hkp. eapply sound_kept; [exact Hkp|]. intros Hk. destruct (fields_of _) as [h|c] eqn:Ef; cbn [if_ok].
    + by eapply hash_del_leads_to.
    + eexists. apply leads_nil.
Qed.

Lemma del_stays key : stays (del key).
Proof.
  eapply wp_mono; [apply (del_wp db K R _ key Hok Hl)|..].
  - intros r db' (_ & Hok' & Hl' & Haf). rewrite sound_recs in Hl'. eexists. eapply sound_done; [exact Hok'|exact Hl'|exact Haf|].
    destruct (K !! key) as [e|] eqn:Ek; [apply del_leads; eapply keys_short; [exact Hok|by rewrite Ek]|].
    rewrite delete_id by done. apply leads_nil.
  - intros e db' Hkp. eapply sound_kept; [exact Hkp|]. intros Hk. eexists. by apply del_leads.
Qed.

(** Seconds for which no clock overflows. *)
Definition seconds_ok (seconds : Z) : Prop := seconds <= 2 ^ 52.

Lemma expire_moment seconds t :
  0 < seconds -> seconds_ok seconds ->
  let w := i64 (wall_at (t + 2) + seconds * 1000) in
  0 <= w <= int64_max /\ same_moment (steady_at t + seconds * 1000) w.
Proof.
  intros Hp Hsec. unfold seconds_ok in Hsec. pose proof (steady_range t). pose proof (wall_range (t + 2)). cbv zeta.
  rewrite i64_small by (unfold is_int64, int64_min, int64_max; lia). unfold same_moment, int64_max. split; [lia|]. split; [lia|].
  exists t, (t + 2)%nat. split; [lia|]. left. lia.
Qed.

Lemma expire_record_leads key seconds t e :
  0 < seconds -> seconds_ok seconds -> seen db K key = Some e ->
  leads same_moment K [expire_record key seconds t] (<[key := (e.1, Some (steady_at t + seconds * 1000))]> K).
Proof.
  intros Hp Hsec Es. destruct (seen_purged _ _ Es) as [_ Ek]. destruct (expire_moment seconds t Hp Hsec) as [Hw HT].
  apply expire_leads; [eapply keys_short; [exact Hok|by rewrite Ek]|by rewrite Ek|exact Hw|exact HT].
Qed.

Lemma expire_stays key seconds : seconds_ok seconds -> stays (expire key seconds).
Proof.
  intros Hsec. eapply wp_mono; [apply (expire_wp db K R _ key seconds Hok Hl (proj1 deadlines_fine))|..].
  - intros r db' Hres. destruct (seen db K key) as [e|] eqn:Es; [|eexists; eapply sound_looked, Hres].
    destruct Hres as [_ Hres]. unfold expired_to in Hres. destruct (seen_purged _ _ Es) as [Ep Ek].
    destruct (Z.leb_spec seconds 0) as [Hle|Hgt].
    + destruct Hres as (Hok' & Hl' & Haf). rewrite sound_recs in Hl'. eexists. eapply sound_done; [exact Hok'|exact Hl'|exact Haf|].
      apply del_leads. eapply keys_short; [exact Hok|by rewrite Ek].
    + destruct Hres as (t & _ & Hw). eexists. eapply sound_wrote; [exact Hw|]. intros _. rewrite Ep. by apply expire_record_leads.
  - intros ex db' (ops & Hkp & Hops). eapply sound_kept; [exact Hkp|]. intros Hk.
    destruct Hops as [->|[[e Es] Hops]]; [eexists; apply leads_nil|]. destruct (seen_purged _ _ Es) as [-> Ek].
    destruct (Z.leb_spec seconds 0) as [Hle|Hgt]; [subst; eexists; by apply del_leads|].
    destruct Hops as (t & _ & ->). eexists. by apply (expire_record_leads key seconds t e).
Qed.

(** Keys that were there. *)
Definition own (ks : list bytes) : Prop := Forall (fun k => is_Some (K !! k)) ks.

Lemma own_leads ks : own ks -> leads same_moment K (dels ks) (dropped ks K).
Proof. intros Hks. apply dels_leads. eapply Forall_impl; [exact Hks|]. intros k Hk. by eapply keys_short. Qed.

Lemma sound_gone ks R' db' : own ks -> keys_gone db K (acked ++ extra) ks R' logged db' -> sound db' (dropped ks K).
Proof.
  intros Hks (Hok' & Hl' & Haf). rewrite sound_recs in Hl'. eapply sound_done; [exact Hok'|exact Hl'|exact Haf|by apply own_leads].
Qed.

Lemma sound_stuck ks R' db' :
  own ks -> keys_gone db K (acked ++ extra) ks R' (refused_del db (dropped ks K)) db' -> sound db' (dropped ks K).
Proof.
  intros Hks (Hok' & (c & Hr & Hc) & Haf). rewrite sound_recs in Hr.
  eapply sound_step; [exact Hok'|exact Hr|exact Haf|by apply own_leads|].
  destruct Hc as [->|(k & Hk & ->)]; [eexists; apply leads_nil|]. rewrite sound_recs. eexists. apply del_leads. by eapply keys_short.
Qed.

Lemma swept_own now limit ks : swept now limit K ks -> own ks.
Proof. intros Hsw. apply Forall_forall. intros k Hk. destruct (sw_expired _ _ _ _ Hsw k Hk) as (e & Ek & _). by exists e. Qed.

Lemma remove_expired_stays limit : 0 <= limit -> stays (remove_expired limit).
Proof.
  intros Hlim. eapply wp_mono; [apply (remove_expired_wp limit db _ K R Hok Hl Hlim)|..].
  - intros u db' (ks & Hg & Hsw & _). eexists. eapply sound_gone; [by eapply swept_own|exact Hg].
  - intros e db' (ks & Hg & Hsw & _). eexists. eapply sound_stuck; [by eapply swept_own|exact Hg].
Qed.

Lemma recent_own : own R.
Proof.
  pose proof Hok as (idx & order & HI & HR & ER). rewrite ER. apply Forall_forall. intros k Hk. apply list_elem_of_fmap in Hk as (a & -> & Ha).
  apply (si_order _ _ _ _ _ (proj1 HI)) in Ha. destruct (represents_lookup _ _ _ _ _ HR Ha) as (e & Ek & _). by exists e.
Qed.

Lemma evicted_own R' ks : evicted_from R R' ks -> own ks.
Proof.
  intros E. apply Forall_forall. intros k Hk. pose proof recent_own as Hown. unfold own in Hown. rewrite Forall_forall in Hown.
  apply Hown. rewrite E. apply elem_of_app. right. by apply elem_of_reverse.
Qed.

Lemma evict_to_stays target limit : 0 <= target -> 0 <= limit -> stays (evict_to target limit).
Proof.
  intros Ht Hlim. eapply wp_mono; [apply (evict_to_wp target limit db _ K R Hok Hl Hlim Ht)|..].
  - intros r db' (rs' & K' & R' & Hst & ks & -> & -> & He & _). eexists.
    eapply sound_gone; [by eapply evicted_own|by apply stands_gone].
  - intros e db' (rs' & K' & R' & Hst & ks & -> & -> & He & _). eexists.
    eapply sound_stuck; [by eapply evicted_own|by apply stuck_gone].
Qed.

(** Calls on the log that write no record, the flusher thread's among them. *)
Lemma call_stays c : record_of c = [] -> call_ok c -> stays (on_wal_ (run_call c)).
Proof.
  intros Hc Hcall. destruct (reached_start db K R _ Hok Hl) as (idx & order & Hr).
  eapply reached_call_wp; [exact Hr|exact Hc|exact Hcall|]. intros db' Hr' _ _.
  assert (exists K', sound db' K') as Hs'; [|split; [exact Hs'|intros _; exact Hs']].
  exists K. eapply (sound_done db' K R []); [exact (reached_ok _ _ _ _ _ _ _ Hr')|rewrite app_nil_r; exact (rc_logged _ _ _ _ _ _ _ Hr')|exact (rc_after _ _ _ _ _ _ _ Hr')|apply leads_nil].
Qed.

(** ** Compaction *)

Lemma settled_header rs : (8 <= durable (settled rs))%nat.
Proof. unfold settled. cbn [durable]. rewrite length_app. change (length magic) with 8%nat. lia. Qed.

Lemma failed_inv rs w' :
  Forall record_ok rs -> log_of (disk_ w') = magic ++ concat (map enc rs) ->
  (durable (disk_ w') <= length (contents (disk_ w')))%nat -> failed_ w' = true -> wal_inv rs w'.
Proof.
  intros Hr Hlog Hd Hf. constructor; try done; try (intros E; congruence).
  exists []. rewrite app_nil_r. split; [exact Hlog|]. split; [by left|done].
Qed.

(** A log that means [K'] from its first record. *)
Lemma sound_fresh (db' : Database A) K' R' w' new :
  db_ok db' K' R' -> wal_ db' = Some w' -> replaying_ db' = false -> wal_inv new w' -> leads same_moment ∅ new K' ->
  (8 <= durable (disk_ w'))%nat -> (forall old, replaced_ w' = Some old -> readable old) -> synced w' -> sound db' K'.
Proof.
  intros Hok' Ew Er Hi Hlead Hd Hrp Hsy. destruct (Hlead ∅ (matches_empty _)) as (S' & ES & HM).
  exists R', w', new, [], S'. constructor; rewrite ?app_nil_r; try assumption; [done|by exists S'].
Qed.

Lemma sound_compacted ks (db' : Database A) R' : compact_left db (dropped ks K) R' (new_log (dropped ks K)) db' -> sound db' (dropped ks K).
Proof.
  intros (Hok' & Er & _ & _ & w0 & w' & _ & Ew & new & Hlead & Hi & Hf & Hd & Eset & _).
  eapply sound_fresh; [exact Hok'|exact Ew|rewrite Er; apply Hs|exact Hi|exact Hlead|rewrite Eset; apply settled_header| |].
  - destruct (inv_open _ _ Hi Hf) as (_ & -> & _). done.
  - intros _ _ _. exact Hd.
Qed.

Lemma compact_left_after (db' : Database A) K' R' (L : Wal -> Wal -> Prop) :
  compact_left db K' R' L db' -> (forall w w', L w w' -> moves w w') -> after db db'.
Proof.
  intros (_ & Er & Et & Em & w0 & w' & Ew & Ew' & HL) Hm. split; [exact Er|]. split; [exact Et|].
  split; [unfold logging; by rewrite Ew, Ew', Er|]. split; [exact Em|]. unfold log_moves. rewrite Ew, Ew'. by apply Hm.
Qed.

Lemma sound_between ks (db' : Database A) R' :
  own ks -> compact_left db (dropped ks K) R' (between_logs (dropped ks K) ((acked ++ extra) ++ dels ks)) db' ->
  sound db' (dropped ks K).
Proof.
  intros Hks (Hok' & Er & _ & _ & w0 & w' & Ew0 & Ew & w1 & new & Hi1 & Hf1 & Hm & Hlead & Hf' & Hnew & old & Hold & Hcase).
  pose proof Hs as [_ Hw Hrep Hi Hextra Ha HM _ Hhd _ _]. assert (w0 = w) as -> by congruence. rewrite Hrep in Er.
  assert (failed_ w = false) as Hf.
  { destruct (failed_ w) eqn:E; [|done]. destruct Hm as (_ & Hz & _). destruct (Hz E). congruence. }
  rewrite (Hextra Hf), app_nil_r in *. destruct (own_leads ks Hks S HM) as (S1 & E1 & HM1).
  assert (apply_all (acked ++ dels ks) ∅ = Some S1) as Eall by (by rewrite apply_all_app, Ha).
  destruct Hold as (Hlog & Hdur & _). destruct Hm as ((_ & _ & _ & Hdur1) & _).
  assert (readable old) as Hread.
  { exists (acked ++ dels ks). split; [apply Hi1|]. split; [exact Hlog|]. split; [by exists S1|lia]. }
  assert (synced w') as Hsy by (intros _ _ E; congruence).
  destruct Hcase as [[Ed En]|[Ed Ern]].
  - exists R', w', (acked ++ dels ks), [], S1.
    constructor; rewrite ?app_nil_r; try assumption; try done; [|rewrite Ed; lia|by rewrite En].
    apply failed_inv; [apply Hi1|by rewrite Ed|rewrite Ed; lia|exact Hf'].
  - eapply sound_fresh; [exact Hok'|exact Ew|exact Er| |exact Hlead|rewrite Ed; apply settled_header| |exact Hsy].
    + apply failed_inv; [exact Hnew|rewrite Ed; unfold log_of, settled; cbn; by rewrite app_nil_r|by rewrite Ed|exact Hf'].
    + intros f Ef. destruct Ern as [E|E]; [congruence|]. by assert (f = old) as -> by congruence.
Qed.

Lemma compact_wal_stays err : stays (compact_wal err).
Proof.
  assert (is_Some (wal_ db)) as Hlog by (rewrite (so_log _ _ _ _ _ _ _ Hs); by eexists).
  eapply wp_mono; [apply (compact_wal_wp err db K R _ Hok Hl Hlog (so_live _ _ _ _ _ _ _ Hs) (sound_fine _ _ _ _ _ _ _ Hs))|..].
  - intros u db' (ks & _ & _ & Hc). eexists. by eapply sound_compacted.
  - intros e db' (ks & Hsw & Hcase). pose proof (swept_own _ _ _ Hsw) as Hks. exists (dropped ks K).
    destruct Hcase as [Hg|Hc]; [by eapply sound_stuck|].
    pose proof Hc as (Hok' & Er & Et & Em & w0 & w' & Ew0 & Ew & [[Hi Hm]|Hb]).
    + eapply (sound_done db' _ _ (dels ks)); [exact Hok'|unfold logged; by rewrite Ew| |by apply own_leads].
      eapply (compact_left_after db' (dropped ks K) (dropped_keys ks R) moves); [|done]. split_and!; try done. by exists w0, w'.
    + eapply sound_between; [exact Hks|]. split_and!; try done. by exists w0, w'.
Qed.

End step.

(** ** Runs *)

(** The operations of [Database] that the server, its maintenance and the
    flusher thread call. *)
Inductive request :=
| req_set (key val : bytes)
| req_get (key : bytes)
| req_view (key : bytes)
| req_increment (key : bytes)
| req_del (key : bytes)
| req_push (key : bytes) (value : ElementInput) (fr : bool)
| req_push_texts (key : bytes) (values : list bytes) (fr : bool)
| req_pop (key : bytes) (fr : bool)
| req_list_length (key : bytes)
| req_hash_assign (inside : Z -> bool) (key field : bytes) (value : ElementInput)
| req_hash_set_texts (key : bytes) (fields : list bytes)
| req_hash_field (key field : bytes)
| req_hash_get (key field : bytes)
| req_hash_del (key field : bytes)
| req_hash_length (key : bytes)
| req_expire (key : bytes) (seconds : Z)
| req_ttl (key : bytes)
| req_sweep (limit : Z)
| req_evict (target limit : Z)
| req_call (c : call)
| req_compact (err : option nat).

Definition forget_result {X : Type} (m : M (Database A) X) : M (Database A) unit := let! _ := m in ret tt.

Definition run_request (r : request) : M (Database A) unit :=
  match r with
  | req_set key val => set key val
  | req_get key => forget_result (get key)
  | req_view key => forget_result (value_view key)
  | req_increment key => forget_result (increment key)
  | req_del key => forget_result (del key)
  | req_push key value fr => forget_result (list_push key value fr)
  | req_push_texts key values fr => forget_result (push_texts key values fr)
  | req_pop key fr => forget_result (list_pop key fr)
  | req_list_length key => forget_result (list_length key)
  | req_hash_assign inside key field value => forget_result (hash_assign inside key field value)
  | req_hash_set_texts key fields => forget_result (hash_set_texts key fields)
  | req_hash_field key field => forget_result (hash_field key field)
  | req_hash_get key field => forget_result (hash_get key field)
  | req_hash_del key field => forget_result (hash_del key field)
  | req_hash_length key => forget_result (hash_length key)
  | req_expire key seconds => forget_result (expire key seconds)
  | req_ttl key => forget_result (ttl key)
  | req_sweep limit => remove_expired limit
  | req_evict target limit => forget_result (evict_to target limit)
  | req_call c => on_wal_ (run_call c)
  | req_compact err => compact_wal err
  end.

(** Integers are 64-bit, counts are not negative, an EXPIRE is for less than
    143 million years, and no field of a HSET is within five bytes of the
    limit for values. *)
Definition request_ok (r : request) : Prop :=
  match r with
  | req_push _ value _ | req_hash_assign _ _ _ value => typed_input value
  | req_hash_set_texts _ fields => bodies_fit (by_twos fields)
  | req_expire _ seconds => seconds_ok seconds
  | req_sweep limit => 0 <= limit
  | req_evict target limit => 0 <= target /\ 0 <= limit
  | req_call c => record_of c = [] /\ call_ok c
  | _ => True
  end.

(** One after the other; an exception ends its request only. *)
Definition run_requests (rs : list request) (db : Database A) : Database A :=
  fold_left (fun db r => snd (run_request r db)) rs db.

Lemma forget_stays {X : Type} (m : M (Database A) X) db : stays db m -> stays db (forget_result m).
Proof. intros Hm. apply wp_bind. eapply wp_mono; [exact Hm|intros x db' Hs; exact Hs|intros e db' Hs; exact Hs]. Qed.

Lemma request_stays r db K : sound db K -> request_ok r -> stays db (run_request r).
Proof.
  intros (R & w & acked & extra & S & Hs) Hr. destruct r; cbn [run_request request_ok] in *; try apply forget_stays.
  - by eapply set_stays.
  - by eapply get_stays.
  - by eapply value_view_stays.
  - by eapply increment_stays.
  - by eapply del_stays.
  - by eapply list_push_stays.
  - by eapply push_texts_stays.
  - by eapply list_pop_stays.
  - by eapply list_length_stays.
  - by eapply hash_assign_stays.
  - by eapply hash_set_texts_stays.
  - by eapply hash_field_stays.
  - by eapply hash_get_stays.
  - by eapply hash_del_stays.
  - by eapply hash_length_stays.
  - by eapply expire_stays.
  - by eapply ttl_stays.
  - by eapply remove_expired_stays.
  - destruct Hr. by eapply evict_to_stays.
  - destruct Hr. by eapply call_stays.
  - by eapply compact_wal_stays.
Qed.

Lemma run_sound rs : forall db K, sound db K -> Forall request_ok rs -> exists K', sound (run_requests rs db) K'.
Proof.
  induction rs as [|r rs IH]; intros db K Hs Hok; [by exists K|]. inversion Hok as [|? ? Hr Hok']; subst.
  pose proof (request_stays r db K Hs Hr) as Hst. unfold stays, wp in Hst.
  change (run_requests (r :: rs) db) with (run_requests rs (snd (run_request r db))).
  destruct (run_request r db) as [[e|u] db']; destruct Hst as [K' Hs']; by eapply IH.
Qed.

(** ** Opening *)

Lemma restored_sound db sync rs S K db1 :
  apply_all rs ∅ = Some S -> sync <> sync_none -> restored same_moment db sync rs S K db1 ->
  exists R w, sound_with db1 K R w rs [] S.
Proof.
  intros ES Hsync ([R Hok] & HM & Er & _ & _ & w & Ew & Hi & Hf & Hd & Hsy & _). exists R, w.
  assert (disk_ w = settled rs) as Eset by (apply clean_settled; try done; by rewrite Hsy).
  destruct (inv_open _ _ Hi Hf) as (_ & Hnone & _).
  constructor; rewrite ?app_nil_r; try assumption; try done; [rewrite Eset; apply settled_header|by rewrite Hnone|by intros _ _ _].
Qed.

Lemma opened_sound db sync rs b db' :
  sync <> sync_none ->
  (opened_db same_moment db sync rs (fun _ _ _ => logged) b db' \/
   opened_db same_moment db sync rs (fun K ks db1 => refused_del db1 (dropped ks K)) b db') ->
  exists K', sound db' K'.
Proof.
  intros Hsync [Ho|Ho]; destruct Ho as (S & K & db1 & ks & R' & ES & Hres & Hg & Hsw & _);
    destruct (restored_sound _ _ _ _ _ _ ES Hsync Hres) as (R & w & Hs); exists (dropped ks K).
  - eapply sound_gone; [exact Hs|by eapply swept_own|rewrite app_nil_r; exact Hg].
  - eapply sound_stuck; [exact Hs|by eapply swept_own|rewrite app_nil_r; exact Hg].
Qed.

(** ** Crashes *)

Lemma readable_image f d : readable f -> file_image f d -> exists rs S, opens_as d rs /\ apply_all rs ∅ = Some S.
Proof.
  intros (rs & Hok & Hlog & [S ES] & Hd) Him.
  destruct (image_opens [] rs f [] d) as (c & t & Hc & -> & Ht & Hok'); try done; [by left|by rewrite app_nil_r|].
  destruct (apply_all_prefix c rs ∅ S Hc ES) as [S1 E1]. exists c, S1. split; [|exact E1]. right. by exists t.
Qed.

Lemma sound_image db K w d :
  sound db K -> wal_ db = Some w -> crash_image w d ->
  exists rs S, opens_as d rs /\ apply_all rs ∅ = Some S /\
    (replaced_ w = None -> exists all, wal_inv all w /\ rs `prefix_of` all) /\
    (sync_ w = sync_always -> defer_sync_ w = false -> failed_ w = false -> matches same_moment K S).
Proof.
  intros (R & w0 & acked & extra & S0 & Hs) Ew Hcrash. pose proof Hs as [_ Ew0 _ Hi Hextra Ha HM [S1 Happ] Hhd Hrp Hsy].
  assert (w0 = w) as -> by congruence. destruct (decide (sync_ w = sync_always /\ defer_sync_ w = false /\ failed_ w = false)) as [(E1 & E2 & E3)|Hno].
  - pose proof (Hsy E1 E2 E3) as Hd. rewrite (Hextra E3), app_nil_r in Hi.
    assert (disk_ w = settled acked) as Eset by (apply clean_settled; try done; by rewrite E1).
    destruct (inv_open _ _ Hi E3) as (_ & Hnone & _). destruct Hcrash as [Him|(f & E & _)]; [|congruence].
    exists acked, S0. split; [|split; [exact Ha|]].
    + right. exists []. rewrite app_nil_r. split; [|split; [by left|apply Hi]]. destruct Him as (k & Hk & ->). rewrite Eset in Hk |- *.
      unfold settled in *. cbn [contents durable] in *. apply take_ge. lia.
    + split; [|done]. intros _. by exists acked.
  - destruct Hcrash as [Him|(f & E & Him)].
    + pose proof Hi as [Hok (t & Hlog & Ht & _) _ _ _].
      destruct (image_opens [] (acked ++ extra) (disk_ w) t d) as (c & t' & Hc & -> & Ht' & Hok'); try done.
      destruct (apply_all_prefix c _ ∅ S1 Hc Happ) as [S2 E2]. exists c, S2. split; [right; by exists t'|]. split; [exact E2|].
      split; [intros _; exists (acked ++ extra); split; [exact Hi|exact Hc]|]. intros; exfalso; by apply Hno.
    + destruct (readable_image f d (Hrp f E) Him) as (rs & S & Ho & ES). exists rs, S. split; [exact Ho|]. split; [exact ES|].
      split; [congruence|]. intros; exfalso; by apply Hno.
Qed.

End durable.

(** ** Results *)

Section results.

Context {A : Type} {HA : NodeAllocator A} {PA : Platform A}.



(** Every request keeps memory and log together, on a return and on a
    throw. *)
Theorem request_sound r (db : Database A) K :
  sound db K -> request_ok r ->
  wp (run_request r) (fun _ db' => exists K', sound db' K') (fun _ db' => exists K', sound db' K') db.
Proof. apply request_stays. Qed.

End results.

(** ** Example *)

Definition sample_opened : Database Memory := snd (open_wal sync_always sample_found [] None sample_new).

Definition sample_requests : list request :=
  [req_increment (of_str "n"); req_push_texts (of_str "l") [of_str "a"; of_str "b"] false; req_compact None;
   req_hash_set_texts (of_str "h") [of_str "f"; of_str "v"]; req_expire (of_str "h") 100; req_pop (of_str "l") true].

Lemma sample_requests_ok : Forall request_ok sample_requests.
Proof. repeat apply Forall_cons_2; try apply Forall_nil_2; try done; vm_compute; discriminate. Qed.

Definition sample_after : Wal := default sample_log (wal_ (run_requests sample_requests sample_opened)).

Lemma sample_after_image : crash_image sample_after (contents (disk_ sample_after)).
Proof. left. exists (length (contents (disk_ sample_after))). split; [|by rewrite take_ge]. split; [vm_compute; lia|lia]. Qed.

Lemma sample_opened_sound : exists K, sound sample_opened K.
Proof.
  assert (forall t w, 0 <= w <= int64_max -> same_moment (i64 (steady_at (S t) + Z.max 0 (w - wall_at t))) w) as HT
    by (intros t w0; by apply restored_moment, sample_young).
  destruct (wp_returns _ _ _ _ (open_wal_wp same_moment HT sync_always sample_found [] sample_stamps sample_new
    sample_new_unopened sample_found_opens)) as ([] & db' & E & Ho); [eexists; vm_compute; reflexivity|].
  unfold sample_opened. rewrite E. by apply (opened_sound sample_new sync_always sample_stamps true); [|left].
Qed.

Lemma sample_opens : open_wal sync_always sample_found [] None sample_new = (inr tt, sample_opened).
Proof.
  unfold sample_opened. assert (fst (open_wal sync_always sample_found [] None sample_new) = inr tt) as E by (vm_compute; reflexivity).
  destruct (open_wal sync_always sample_found [] None sample_new) as [r db]. cbn [fst snd] in *. by rewrite E.
Qed.

Lemma sample_after_log : wal_ (run_requests sample_requests sample_opened) = Some sample_after.
Proof.
  unfold sample_after. assert (bool_decide (is_Some (wal_ (run_requests sample_requests sample_opened))) = true) as E by (vm_compute; reflexivity).
  apply bool_decide_eq_true in E as [w ->]. reflexivity.
Qed.

(** The requests all returned: the log is in order, everything in it synced. *)
Lemma sample_after_settled :
  sync_ sample_after = sync_always /\ defer_sync_ sample_after = false /\ failed_ sample_after = false /\ replaced_ sample_after = None.
Proof. vm_compute. repeat split. Qed.



Lemma request_sound_witness : exists K', sound (snd (run_request (req_compact None) sample_opened)) K'.
Proof.
  destruct sample_opened_sound as [K Hs]. pose proof (request_sound (req_compact None) sample_opened K Hs I) as Hw. unfold wp in Hw.
  destruct (run_request (req_compact None) sample_opened) as [[e|u] db']; exact Hw.
Defined.
