(* ===== verification/Execute.v ===== *)
(** * Execute: from a command to its reply

    [execute_into] of [src/resp.cpp] runs one parsed command on the database
    and appends its reply to the output buffer of the client.  The theorems
    say, for every command, which reply is written and what the database does;
    that an exception leaves the buffer as it was; and that the keyspace and
    its log stay together throughout. *)

From S2P Require Import Prelude Charconv Errors Effects RespParse Replies Pack WalCodec Wal Allocator Slab Lru Expiry Buckets Node Store Keyspace StoreSpec Contents Edits Writing Clearing Sample Strings Timers Lists Hashes Stats Throws Records Replay Open Snapshot Durable.

(** ** The program *)

Record ServerStats := mkServerStats {
  connected_clients : Z;
  started_at : nat;   (** which reading of the steady clock *)
  input_buffer_disconnects : Z;
  output_buffer_disconnects : Z
}.

Section ops.

Context {A : Type} `{NodeAllocator A} `{!Platform A} `{!Measures A}.

(** The database and the output buffer. *)
Definition Session : Type := Database A * bytes.
Definition on_db {X} (m : M (Database A) X) : M Session X := zoom fst (fun db s => (db, s.2)) m.
Definition on_out {X} (m : M bytes X) : M Session X := zoom snd (fun out s => (s.1, out)) m.

Definition info_line (name : String.string) (value : Z) : bytes := of_str name ++ of_str ":" ++ to_string value ++ crlf.
Definition info_head (name : String.string) : bytes := of_str name ++ crlf.

Definition info_text (database_stats : DatabaseStats) (server : ServerStats) (memory_only : bool) (uptime_seconds : Z) : bytes :=
  info_line "owned_memory_bytes" (owned_memory_bytes database_stats) ++
  info_line "max_memory_bytes" (max_memory_bytes database_stats) ++
  (if memory_only then []
   else
    info_head "# Server" ++
    info_line "uptime_seconds" uptime_seconds ++
    info_line "connected_clients" (connected_clients server) ++
    info_line "input_buffer_disconnects" (input_buffer_disconnects server) ++
    info_line "output_buffer_disconnects" (output_buffer_disconnects server) ++
    info_head "# Keyspace" ++
    info_line "keys" (key_count database_stats) ++
    info_line "evictions" (stat_evictions database_stats) ++
    info_line "expired_keys" (stat_expired_keys database_stats)) ++
  info_head "# Memory" ++
  info_line "used_memory_bytes" (approximate_memory_bytes database_stats) ++
  info_line "wal_bytes" (wal_bytes database_stats) ++
  info_line "reserved_memory_bytes" (reserved_memory_bytes database_stats).

(** The clock is read for the uptime only. *)
Definition append_info (server : ServerStats) (memory_only : bool) : M Session unit :=
  let! database_stats := on_db (gets stats) in
  let! uptime_seconds := on_db
    (if memory_only then ret 0
     else let! db := Effects.get in do! now_ms in ret (seconds_between (started_at server) (time_ db))) in
  on_out (append_bulk_view (info_text database_stats server memory_only uptime_seconds)).

Definition execute_ping : M Session unit := on_out (put_text (of_str "+PONG" ++ crlf)).

Definition execute_set (command : Command) : M Session unit :=
  match arguments command with
  | [key; value] =>
      do! on_db (set key value) in
      do! on_out (require_reply_space 5) in
      on_out (put_text (of_str "+OK" ++ crlf))
  | _ => on_out (append_wrong_arguments (of_str "set"))
  end.

Definition execute_get (command : Command) : M Session unit :=
  match arguments command with
  | [key] =>
      let! value := on_db (value_view key) in
      on_out match value with
      | Unexpected code => append_error (error_message code)
      | Ok None => append_null
      | Ok (Some view) =>
          match view_kind view with
          | view_integer => append_bulk_string false (to_string (view_number view))
          | view_string => append_bulk_view (view_text view)
          | view_list | view_hash => append_error (error_message wrong_type)
          end
      end
  | _ => on_out (append_wrong_arguments (of_str "get"))
  end.

(** The reply to a command whose result is a number. *)
Definition append_result (value : Result Z) : M bytes unit :=
  match value with
  | Unexpected code => append_error (error_message code)
  | Ok n => append_integer n
  end.

Definition execute_increment (command : Command) : M Session unit :=
  match arguments command with
  | [key] => let! value := on_db (increment key) in on_out (append_result value)
  | _ => on_out (append_wrong_arguments (of_str "incr"))
  end.

(** With two arguments the loop of the source runs once. *)
Definition execute_list_push (command : Command) (front : bool) : M Session unit :=
  match arguments command with
  | key :: value :: values =>
      let! length := on_db
        (if bool_decide (values = []) then (if front then push_left_text key value else push_right_text key value)
         else push_texts key (value :: values) front) in
      on_out (append_result length)
  | _ => on_out (append_wrong_arguments (cmd_name command))
  end.

(** The reply with an element. *)
Definition append_value (value : Value) : M bytes unit :=
  match value with
  | VString text => append_bulk_view text
  | VInteger n => append_bulk_string false (to_string n)
  end.

Definition execute_list_pop (command : Command) (front : bool) : M Session unit :=
  match arguments command with
  | [key] =>
      let! value := on_db (if front then pop_left key else pop_right key) in
      on_out match value with
      | Unexpected code => append_error (error_message code)
      | Ok None => append_null
      | Ok (Some v) => append_value v
      end
  | _ => on_out (append_wrong_arguments (cmd_name command))
  end.

Definition execute_list_length (command : Command) : M Session unit :=
  match arguments command with
  | [key] => let! length := on_db (list_length key) in on_out (append_result length)
  | _ => on_out (append_wrong_arguments (of_str "llen"))
  end.

(** With three arguments the loop of the source runs once.  The text of an
    argument lies in the buffer of the client, never inside a node. *)
Definition execute_hash_set (command : Command) : M Session unit :=
  match arguments command with
  | key :: ((field :: value :: more) as fields) =>
      if (Z.even (len (key :: fields))) then on_out (append_wrong_arguments (of_str "hset")) else
      if bool_decide (more = []) then
        let! result := on_db (hash_set_text (fun _ => false) key field value) in on_out (append_result result)
      else
        let! result := on_db (hash_set_texts key fields) in on_out (append_result result)
  | _ => on_out (append_wrong_arguments (of_str "hset"))
  end.

Definition execute_hash_get (command : Command) : M Session unit :=
  match arguments command with
  | [key; field] =>
      let! value := on_db (hash_field key field) in
      on_out match value with
      | Unexpected code => append_error (error_message code)
      | Ok None => append_null
      | Ok (Some view) =>
          match view_kind view with
          | view_integer => append_bulk_string false (to_string (view_number view))
          | _ => append_bulk_view (view_text view)
          end
      end
  | _ => on_out (append_wrong_arguments (of_str "hget"))
  end.

Definition execute_hash_del (command : Command) : M Session unit :=
  match arguments command with
  | [key; field] =>
      let! removed := on_db (hash_del key field) in
      on_out match removed with
      | Unexpected code => append_error (error_message code)
      | Ok b => append_integer (if b then 1 else 0)
      end
  | _ => on_out (append_wrong_arguments (of_str "hdel"))
  end.

Definition execute_hash_length (command : Command) : M Session unit :=
  match arguments command with
  | [key] => let! length := on_db (hash_length key) in on_out (append_result length)
  | _ => on_out (append_wrong_arguments (of_str "hlen"))
  end.

Definition execute_expire (command : Command) : M Session unit :=
  match arguments command with
  | [key; text] =>
      match from_chars_int64 text with
      | None => on_out (append_error (error_message value_not_integer))
      | Some seconds =>
          try_catch
            (let! found := on_db (expire key seconds) in on_out (append_integer (if found : bool then 1 else 0)))
            (fun e => if bool_decide (e = exn_error value_not_integer)
                      then on_out (append_error (error_message value_not_integer)) else throw e)
      end
  | _ => on_out (append_wrong_arguments (of_str "expire"))
  end.

Definition execute_ttl (command : Command) : M Session unit :=
  match arguments command with
  | [key] => let! time := on_db (ttl key) in on_out (append_integer time)
  | _ => on_out (append_wrong_arguments (of_str "ttl"))
  end.

(** The loop over the keys of DEL; [deleted] is [std::int64_t]. *)
Fixpoint del_keys (keys : list bytes) (deleted : Z) : M (Database A) Z :=
  match keys with
  | [] => ret deleted
  | key :: keys => let! found := del key in del_keys keys (if found : bool then deleted + 1 else deleted)
  end.

Definition execute_del (command : Command) : M Session unit :=
  match arguments command with
  | [] => on_out (append_wrong_arguments (of_str "del"))
  | keys => let! deleted := on_db (del_keys keys 0) in on_out (append_integer deleted)
  end.

Definition execute_info (command : Command) (server : ServerStats) : M Session unit :=
  match arguments command with
  | [] => append_info server false
  | [section] =>
      if bytes_eqb section (of_str "memory") then append_info server true
      else on_out (append_error (error_message unsupported_info_section))
  | _ => on_out (append_wrong_arguments (of_str "info"))
  end.

Definition execute_into (command : Command) (server : ServerStats) (classified : CommandId) : M Session unit :=
  match classified with
  | id_ping => execute_ping
  | id_info => execute_info command server
  | id_get => execute_get command
  | id_set => execute_set command
  | id_increment => execute_increment command
  | id_list_push_left => execute_list_push command true
  | id_list_push_right => execute_list_push command false
  | id_list_pop_left => execute_list_pop command true
  | id_list_pop_right => execute_list_pop command false
  | id_list_length => execute_list_length command
  | id_hash_set => execute_hash_set command
  | id_hash_get => execute_hash_get command
  | id_hash_del => execute_hash_del command
  | id_hash_length => execute_hash_length command
  | id_expire => execute_expire command
  | id_ttl => execute_ttl command
  | id_del => execute_del command
  | id_unknown =>
      on_out (append_error (error_message unknown_command ++ of_str " '" ++ cmd_name command ++ of_str "'"))
  end.

(** The overload that looks the command up itself. *)
Definition execute_named (little_endian : bool) (command : Command) (server : ServerStats) : M Session unit :=
  execute_into command server (classify_command little_endian (cmd_name command)).1.

End ops.

(** ** What the commands mean *)

Definition error_reply (code : ErrorCode) : reply := RError (error_message code).
Definition wrong_arguments (name : bytes) : reply :=
  RError (error_message wrong_argument_count ++ of_str " '" ++ name ++ of_str "' command").

Definition number_reply (x : Result Z) : reply :=
  match x with Ok n => RInteger n | Unexpected c => error_reply c end.
Definition element_reply (v : Value) : reply :=
  match v with VString s => RBulk s | VInteger z => RBulk (to_string z) end.
Definition optional_reply (x : Result (option Value)) : reply :=
  match x with Ok (Some v) => element_reply v | Ok None => RNull | Unexpected c => error_reply c end.
Definition flag_reply (b : bool) : reply := RInteger (if b then 1 else 0).
Definition removed_reply (x : Result bool) : reply :=
  match x with Ok b => flag_reply b | Unexpected c => error_reply c end.

(** GET shows strings and integers alike. *)
Definition value_reply (v : option dvalue) : reply :=
  match v with
  | None => RNull
  | Some (DString s) => RBulk s
  | Some (DInt z) => RBulk (to_string z)
  | Some _ => error_reply wrong_type
  end.

Section meaning.

Context {A : Type} `{NodeAllocator A} `{!Platform A} `{!Measures A}.

Implicit Types (db : Database A) (K : Keyspace) (R : list bytes) (rs : list (WalOp * list bytes)).

(** DEL of one key that was found, or not. *)
Definition deleted db K R rs (key : bytes) (found : bool) (db' : Database A) : Prop :=
  found = bool_decide (is_Some (seen db K key)) /\ db_ok db' (delete key K) (others key R) /\
  logged (rs ++ recs db (if K !! key is Some _ then [(op_del, [key])] else [])) db' /\ after db db'.

(** The keys of DEL go one after the other; the reply is how many there were. *)
Fixpoint all_deleted (keys : list bytes) db K R rs (n : Z) (db' : Database A) : Prop :=
  match keys with
  | [] => n = 0 /\ db' = db
  | key :: keys => exists found db1, deleted db K R rs key found db1 /\
      all_deleted keys db1 (delete key K) (others key R)
        (rs ++ recs db (if K !! key is Some _ then [(op_del, [key])] else [])) (n - if found : bool then 1 else 0) db'
  end.

(** DEL threw at one of the keys. *)
Fixpoint del_stopped (keys : list bytes) db K R rs (db' : Database A) : Prop :=
  match keys with
  | [] => False
  | key :: keys => kept db K rs [(op_del, [key])] key db' \/ exists found db1, deleted db K R rs key found db1 /\
      del_stopped keys db1 (delete key K) (others key R)
        (rs ++ recs db (if K !! key is Some _ then [(op_del, [key])] else [])) db'
  end.

(** A read found the entry it was asked for. *)
Definition shown db K R rs (key : bytes) (r : reply) (shows : option dvalue -> reply) (db' : Database A) : Prop :=
  r = shows (fst <$> seen db K key) /\ was_read db K R rs key db'.

(** The reply [r] and the database [db'] that the command comes to. *)
Definition did (server : ServerStats) db K R rs (cid : CommandId) (name : bytes) (args : list bytes) (r : reply)
    (db' : Database A) : Prop :=
  match cid, args with
  | id_ping, _ => r = RSimple (of_str "PONG") /\ db' = db
  | id_info, [] => r = RBulk (info_text (stats db) server false (seconds_between (started_at server) (time_ db))) /\
      db' = put_time (S (time_ db)) db
  | id_info, [section] =>
      r = (if bytes_eqb section (of_str "memory") then RBulk (info_text (stats db) server true 0)
           else error_reply unsupported_info_section) /\ db' = db
  | id_info, _ => r = wrong_arguments (of_str "info") /\ db' = db
  | id_get, [key] => shown db K R rs key r value_reply db'
  | id_get, _ => r = wrong_arguments (of_str "get") /\ db' = db
  | id_set, [key; value] => r = RSimple (of_str "OK") /\ len key <= max_key_length /\
      wrote db K R rs [(op_set, [key; value])] key (DString value, None) db'
  | id_set, _ => r = wrong_arguments (of_str "set") /\ db' = db
  | id_increment, [key] => exists x, r = number_reply x /\
      answered db K R rs [(op_increment, [key])] key (incr_of (fst <$> seen db K key)) (fun z => (DInt z, seen db K key ≫= snd)) id x db'
  | id_increment, _ => r = wrong_arguments (of_str "incr") /\ db' = db
  | (id_list_push_left | id_list_push_right), key :: v :: vs =>
      let front := bool_decide (cid = id_list_push_left) in
      exists x, r = number_reply x /\
      answered db K R rs (text_record key front <$> (v :: vs)) key (texts_of front (v :: vs) (fst <$> seen db K key))
        (fun l => (DList l, seen db K key ≫= snd)) len x db'
  | (id_list_push_left | id_list_push_right), _ => r = wrong_arguments name /\ db' = db
  | (id_list_pop_left | id_list_pop_right), [key] => exists x, r = optional_reply x /\
      pop_result db K R rs key (bool_decide (cid = id_list_pop_left)) (seen db K key) x db'
  | (id_list_pop_left | id_list_pop_right), _ => r = wrong_arguments name /\ db' = db
  | id_list_length, [key] => shown db K R rs key r (fun old => number_reply (length_of old)) db'
  | id_list_length, _ => r = wrong_arguments (of_str "llen") /\ db' = db
  | id_hash_set, [key; field; value] => exists x, r = number_reply x /\
      answered db K R rs [hash_record key field (text_input value)] key
        (assign_of field (text_input value) (fst <$> seen db K key))
        (fun h => (DHash h, seen db K key ≫= snd)) (added_to (fst <$> seen db K key)) x db'
  | id_hash_set, key :: ((_ :: _ :: _ :: _) as fields) =>
      if Z.even (len args) then r = wrong_arguments (of_str "hset") /\ db' = db else
      exists x, r = number_reply x /\
      answered db K R rs (field_record key <$> by_twos fields) key (set_texts_of (by_twos fields) (fst <$> seen db K key))
        (fun h => (DHash h, seen db K key ≫= snd)) (added_to (fst <$> seen db K key)) x db'
  | id_hash_set, _ => r = wrong_arguments (of_str "hset") /\ db' = db
  | id_hash_get, [key; field] => shown db K R rs key r (fun old => optional_reply (on_fields old (fun h => h !! field))) db'
  | id_hash_get, _ => r = wrong_arguments (of_str "hget") /\ db' = db
  | id_hash_del, [key; field] => exists x, r = removed_reply x /\ hash_del_result db K R rs key field x db'
  | id_hash_del, _ => r = wrong_arguments (of_str "hdel") /\ db' = db
  | id_hash_length, [key] =>
      shown db K R rs key r (fun old => number_reply (on_fields old (fun h => Z.of_nat (size h)))) db'
  | id_hash_length, _ => r = wrong_arguments (of_str "hlen") /\ db' = db
  | id_expire, [key; text] =>
      match from_chars_int64 text with
      | None => r = error_reply value_not_integer /\ db' = db
      | Some seconds =>
          match seen db K key with
          | None => r = flag_reply false /\ looked db K R rs key db'
          | Some e => r = flag_reply true /\ expired_to db K R rs key seconds e db'
          end \/
          r = error_reply value_not_integer /\ exists ops, kept db K rs ops key db' /\ expire_ops db K key seconds ops
      end
  | id_expire, _ => r = wrong_arguments (of_str "expire") /\ db' = db
  | id_ttl, [key] => (exists t, (time_ db <= t)%nat /\ r = RInteger (ttl_of_entry (steady_at t) (seen db K key))) /\
      was_read db K R rs key db'
  | id_ttl, _ => r = wrong_arguments (of_str "ttl") /\ db' = db
  | id_del, [] => r = wrong_arguments (of_str "del") /\ db' = db
  | id_del, keys => exists n, r = RInteger n /\ all_deleted keys db K R rs n db'
  | id_unknown, _ => r = RError (error_message unknown_command ++ of_str " '" ++ name ++ of_str "'") /\ db' = db
  end.

(** The database [db'] that is left when the command throws. *)
Definition stopped db K R rs (cid : CommandId) (args : list bytes) (db' : Database A) : Prop :=
  let kept_on key ops := kept db K rs ops key db' in
  match cid, args with
  | id_set, [key; value] => kept_on key (if 64 * 1024 * 1024 <? len value then [] else [(op_set, [key; value])])
  | id_increment, [key] => kept_on key (if_ok (incr_of (fst <$> seen db K key)) [(op_increment, [key])])
  | (id_list_push_left | id_list_push_right), key :: v :: vs =>
      let front := bool_decide (cid = id_list_push_left) in
      kept_on key (if_ok (texts_of front (v :: vs) (fst <$> seen db K key)) (text_record key front <$> (v :: vs)))
  | (id_list_pop_left | id_list_pop_right), [key] => kept_on key (pop_ops key (bool_decide (cid = id_list_pop_left)) (seen db K key))
  | id_hash_set, [key; field; value] =>
      kept_on key (if_ok (assign_of field (text_input value) (fst <$> seen db K key)) [hash_record key field (text_input value)])
  | id_hash_set, key :: fields =>
      kept_on key (if_ok (set_texts_of (by_twos fields) (fst <$> seen db K key)) (field_record key <$> by_twos fields))
  | id_hash_del, [key; field] => kept_on key (if_ok (fields_of (fst <$> seen db K key)) [(op_hash_del, [key; field])])
  | id_expire, [key; text] => exists seconds ops, from_chars_int64 text = Some seconds /\ kept_on key ops /\ expire_ops db K key seconds ops
  | id_del, keys => del_stopped keys db K R rs db'
  | _, _ => False
  end.

End meaning.

(** *** Nothing but the keyspace, the clock and the log changes *)

Section after.

Context {A : Type} `{NodeAllocator A} `{!Platform A} `{!Measures A}.

Implicit Types (db : Database A) (K : Keyspace) (R : list bytes) (rs : list (WalOp * list bytes)).

Lemma wrote_after db K R rs ops key e db' : wrote db K R rs ops key e db' -> after db db'.
Proof. by intros (_ & _ & Haf). Qed.

Lemma looked_after db K R rs key db' : looked db K R rs key db' -> after db db'.
Proof. by intros (_ & _ & Haf). Qed.

Lemma kept_after db K rs ops key db' : kept db K rs ops key db' -> after db db'.
Proof. by intros (K' & R' & rs' & c & _ & _ & Haf & _). Qed.

Lemma answered_after {X Y : Type} db K R rs ops key (answer : Result X) e (show : X -> Y) r db' :
  answered db K R rs ops key answer e show r db' -> after db db'.
Proof. unfold answered. destruct answer; intros [_ Hx]; [by eapply wrote_after|by eapply looked_after]. Qed.

Lemma pop_after db K R rs key front old r db' : pop_result db K R rs key front old r db' -> after db db'.
Proof.
  unfold pop_result. destruct old as [[[| |[|v l]|] d]|]; try (intros [_ Hx]; by eapply looked_after).
  by intros (v' & l' & _ & _ & _ & _ & Haf).
Qed.

Lemma hash_del_after db K R rs key field r db' : hash_del_result db K R rs key field r db' -> after db db'.
Proof.
  unfold hash_del_result. destruct (fields_of _) as [h|c]; [destruct (bool_decide _)|]; try (intros [_ Hx]; by eapply looked_after).
  by intros (_ & _ & _ & Haf).
Qed.

Lemma expired_after db K R rs key seconds e db' : expired_to db K R rs key seconds e db' -> after db db'.
Proof. unfold expired_to. destruct (_ <=? _); [by intros (_ & _ & Haf)|]. intros (t & _ & Hx). by eapply wrote_after. Qed.

Lemma all_deleted_after keys : forall db K R rs n db', all_deleted keys db K R rs n db' -> after db db'.
Proof.
  induction keys as [|key keys IH]; intros db K R rs n db'; [intros [_ ->]; apply after_refl|].
  intros (found & db1 & (_ & _ & _ & Haf) & Hrest). eapply after_trans; [exact Haf|by eapply IH].
Qed.

Lemma del_stopped_after keys : forall db K R rs db', del_stopped keys db K R rs db' -> after db db'.
Proof.
  induction keys as [|key keys IH]; intros db K R rs db'; [done|]. intros [Hk|(found & db1 & (_ & _ & _ & Haf) & Hrest)]; [by eapply kept_after|].
  eapply after_trans; [exact Haf|by eapply IH].
Qed.

Lemma did_after server db K R rs cid name args r db' : did server db K R rs cid name args r db' -> after db db'.
Proof.
  assert (forall P : Prop, P /\ db' = db -> after db db') as Hsame by (intros P [_ ->]; apply after_refl).
  destruct cid; cbn [did].
  - apply Hsame.
  - apply Hsame.
  - destruct args as [|s [|]]; try apply Hsame. intros [_ ->]. apply after_time. lia.
  - destruct args as [|key [|]]; try apply Hsame. by intros (_ & _ & _ & Haf).
  - destruct args as [|key [|v [|]]]; try apply Hsame. intros (_ & _ & Hw). by eapply wrote_after.
  - destruct args as [|key [|]]; try apply Hsame. intros (x & _ & Ha). by eapply answered_after.
  - destruct args as [|key [|v vs]]; try apply Hsame. intros (x & _ & Ha). by eapply answered_after.
  - destruct args as [|key [|v vs]]; try apply Hsame. intros (x & _ & Ha). by eapply answered_after.
  - destruct args as [|key [|]]; try apply Hsame. intros (x & _ & Ha). by eapply pop_after.
  - destruct args as [|key [|]]; try apply Hsame. intros (x & _ & Ha). by eapply pop_after.
  - destruct args as [|key [|]]; try apply Hsame. by intros (_ & _ & _ & Haf).
  - destruct args as [|key [|f [|v [|]]]]; try apply Hsame; [intros (x & _ & Ha); by eapply answered_after|].
    destruct (Z.even _); [apply Hsame|]. intros (x & _ & Ha). by eapply answered_after.
  - destruct args as [|key [|f [|]]]; try apply Hsame. by intros (_ & _ & _ & Haf).
  - destruct args as [|key [|f [|]]]; try apply Hsame. intros (x & _ & Ha). by eapply hash_del_after.
  - destruct args as [|key [|]]; try apply Hsame. by intros (_ & _ & _ & Haf).
  - destruct args as [|key [|text [|]]]; try apply Hsame. destruct (from_chars_int64 text) as [seconds|]; [|apply Hsame].
    intros [Hd|[_ (ops & Hk & _)]]; [|by eapply kept_after].
    destruct (seen db K key); destruct Hd as [_ Hd]; [by eapply expired_after|by eapply looked_after].
  - destruct args as [|key [|]]; try apply Hsame. by intros (_ & _ & _ & Haf).
  - destruct args as [|key keys]; [apply Hsame|]. intros (n & _ & Hd). by eapply (all_deleted_after (key :: keys)).
Qed.

Lemma stopped_after db K R rs cid args db' : stopped db K R rs cid args db' -> after db db'.
Proof.
  destruct cid; cbn [stopped]; try done.
  - destruct args as [|key [|v [|]]]; try done. by apply kept_after.
  - destruct args as [|key [|]]; try done. by apply kept_after.
  - destruct args as [|key [|v vs]]; try done. by apply kept_after.
  - destruct args as [|key [|v vs]]; try done. by apply kept_after.
  - destruct args as [|key [|]]; try done. by apply kept_after.
  - destruct args as [|key [|]]; try done. by apply kept_after.
  - destruct args as [|key [|f [|v [|]]]]; try done; by apply kept_after.
  - destruct args as [|key [|f [|]]]; try done. by apply kept_after.
  - destruct args as [|key [|text [|]]]; try done. intros (seconds & ops & _ & Hk & _). by eapply kept_after.
  - by apply del_stopped_after.
Qed.

End after.

(** ** Proofs *)

Section proofs.

Context {A : Type} `{NodeAllocator A} `{!Platform A} `{!Measures A}.

Implicit Types (db : Database A) (out : bytes).

(** A reply that goes with [P] was appended; or nothing was, because there was
    no room for it or because the database threw. *)
Definition replied (P : reply -> Database A -> Prop) (out : bytes) (_ : unit) (s : Session) : Prop :=
  exists r, P r s.1 /\ s.2 = out ++ encode_reply r.
Definition unreplied (P : reply -> Database A -> Prop) (X : exn -> Database A -> Prop) (out : bytes) (e : exn) (s : Session) : Prop :=
  s.2 = out /\ ((e = too_large /\ exists r, P r s.1) \/ X e s.1).

Lemma reply_wp m r (P : reply -> Database A -> Prop) X db out :
  appends m r -> P r db -> wp (on_out m) (replied P out) (unreplied P X out) (db, out).
Proof.
  intros Hm HP. unfold on_out. wp_steps. eapply wp_mono; [apply Hm|..]; cbn [fst snd].
  - intros u o ->. by exists r.
  - intros e o [-> ->]. split; [done|]. left. split; [done|]. by exists r.
Qed.

Lemma call_wp {Y} (m : M (Database A) Y) (k : Y -> M bytes unit) (Q : Y -> Database A -> Prop) (shows : Y -> reply)
    (P : reply -> Database A -> Prop) X db out :
  wp m Q X db -> (forall y, appends (k y) (shows y)) -> (forall y db', Q y db' -> P (shows y) db') ->
  wp (let! y := on_db m in on_out (k y)) (replied P out) (unreplied P X out) (db, out).
Proof.
  intros Hm Hk HP. unfold on_db. wp_steps. eapply wp_mono; [exact Hm|..]; cbn [fst snd].
  - intros y db' HQ. apply (reply_wp _ (shows y)); [apply Hk|by apply HP].
  - intros e db' HX. split; [done|]. by right.
Qed.

(** A call that does not throw. *)
Lemma read_call_wp {Y} (m : M (Database A) Y) (k : Y -> M bytes unit) (Q : Y -> Database A -> Prop) (shows : Y -> reply)
    (P : reply -> Database A -> Prop) X db out :
  wp m Q (fun _ _ => False) db -> (forall y, appends (k y) (shows y)) -> (forall y db', Q y db' -> P (shows y) db') ->
  wp (let! y := on_db m in on_out (k y)) (replied P out) (unreplied P X out) (db, out).
Proof. intros Hm Hk HP. eapply call_wp; [|exact Hk|exact HP]. eapply wp_mono; [exact Hm|intros y db' HQ; exact HQ|done]. Qed.

Lemma wrong_appends name : appends (append_wrong_arguments name) (wrong_arguments name).
Proof. apply replies_appends, append_error_replies. Qed.

Lemma result_appends x : appends (append_result x) (number_reply x).
Proof. destruct x; [apply append_integer_appends|apply replies_appends, append_error_replies]. Qed.

Lemma value_appends v : appends (append_value v) (element_reply v).
Proof. destruct v; apply replies_appends; [apply append_bulk_view_replies|apply append_bulk_string_replies]. Qed.

Lemma unreplied_mono (P P' : reply -> Database A -> Prop) X X' out e s :
  (forall r db', P r db' -> P' r db') -> (forall e db', X e db' -> X' e db') ->
  unreplied P X out e s -> unreplied P' X' out e s.
Proof. intros HP HX [E [[-> (r & Hr)]|He]]; split; auto. left. split; [done|]. exists r. auto. Qed.

Lemma del_keys_wp keys : forall n0 (db : Database A) K R rs, db_ok db K R -> logged rs db ->
  wp (del_keys keys n0) (fun n db' => all_deleted keys db K R rs (n - n0) db') (fun _ db' => del_stopped keys db K R rs db') db.
Proof.
  induction keys as [|key keys IH]; intros n0 db K R rs Hok Hl; cbn [del_keys all_deleted del_stopped].
  { apply wp_ret. split; [lia|done]. }
  apply wp_bind. eapply wp_mono; [apply (del_wp db K R rs key Hok Hl)|..].
  - intros b db1 Hb. pose proof Hb as (_ & Hok1 & Hl1 & _). eapply wp_mono; [by eapply IH|..].
    + intros n db' Hn. exists b, db1. split; [exact Hb|]. destruct b; [by replace (n - n0 - 1) with (n - (n0 + 1)) by lia|by rewrite Z.sub_0_r].
    + intros e db' Hst. right. by exists b, db1.
  - intros e db' Hkp. by left.
Qed.

(** *** The commands *)

Context (server : ServerStats) (db : Database A) (K : Keyspace) (R : list bytes) (rs : list (WalOp * list bytes)) (out : bytes).
Hypothesis Hok : db_ok db K R.
Hypothesis Hl : logged rs db.
Hypothesis Hfine : fine K.

(** What [execute_into] is to establish for a command. *)
Definition meets (cid : CommandId) (command : Command) (m : M (Session (A := A)) unit) : Prop :=
  let P := did server db K R rs cid (cmd_name command) (arguments command) in
  wp m (replied P out) (unreplied P (fun _ => stopped db K R rs cid (arguments command)) out) (db, out).

Lemma ping_meets c : meets id_ping c execute_ping.
Proof. apply wp_zoom, wp_modify. by exists (RSimple (of_str "PONG")). Qed.

Lemma info_meets c : meets id_info c (execute_info c server).
Proof.
  unfold meets, execute_info. cbv zeta. destruct (arguments c) as [|section [|]];
    [|destruct (bytes_eqb section (of_str "memory")) eqn:E|apply (reply_wp _ (wrong_arguments (of_str "info"))); [apply wrong_appends|done]].
  - unfold append_info, on_db. wp_steps. cbn [fst snd].
    eapply (reply_wp _ (RBulk _)); [apply replies_appends, append_bulk_view_replies|]. done.
  - unfold append_info, on_db. wp_steps. cbn [fst snd].
    eapply (reply_wp _ (RBulk _)); [apply replies_appends, append_bulk_view_replies|]. cbn [did]. by rewrite E.
  - apply (reply_wp _ (error_reply unsupported_info_section)); [apply replies_appends, append_error_replies|]. cbn [did]. by rewrite E.
Qed.

Lemma set_meets c : meets id_set c (execute_set c).
Proof.
  unfold meets, execute_set. cbv zeta. destruct (arguments c) as [|key [|value [|]]];
    try (apply (reply_wp _ (wrong_arguments (of_str "set"))); [apply wrong_appends|done]).
  unfold on_db, on_out. wp_steps. eapply wp_mono; [apply (set_wp db K R rs key value Hok Hl)|..]; cbn [fst snd].
  - intros u db' (Hk & Hv & Hw). wp_steps. apply space_wp; cbn [fst snd].
    + intros _ _. unfold put_text. wp_steps. by exists (RSimple (of_str "OK")).
    + split; [done|]. left. split; [done|]. by exists (RSimple (of_str "OK")).
  - intros e db' Hkp. split; [done|]. by right.
Qed.

Lemma get_meets c : meets id_get c (execute_get c).
Proof.
  unfold meets, execute_get. cbv zeta. destruct (arguments c) as [|key [|]];
    try (apply (reply_wp _ (wrong_arguments (of_str "get"))); [apply wrong_appends|done]).
  unfold on_db. wp_steps. eapply wp_mono; [apply (value_view_wp db K R rs key Hok Hl)|..]; cbn [fst snd]; [|done].
  intros v db' [-> Hr]. apply (reply_wp _ (value_reply (fst <$> seen db K key))); [|by split].
  destruct (seen db K key) as [[[s|z|l|h] d]|]; cbn; apply replies_appends; auto with reddish.
Qed.

Lemma increment_meets c : meets id_increment c (execute_increment c).
Proof.
  unfold meets, execute_increment. cbv zeta. destruct (arguments c) as [|key [|]];
    try (apply (reply_wp _ (wrong_arguments (of_str "incr"))); [apply wrong_appends|done]).
  eapply call_wp; [apply (increment_wp db K R rs key Hok Hl)|apply result_appends|]. intros x db' Hx. by exists x.
Qed.

Lemma push_one front v old : push_of front (text_input v) old = texts_of front [v] old.
Proof.
  unfold push_of, texts_of, texts_size. cbn [fold_right]. rewrite Z.add_0_r. by destruct old as [[]|], front.
Qed.

Lemma list_push_meets c (front : bool) :
  meets (if front then id_list_push_left else id_list_push_right) c (execute_list_push c front).
Proof.
  unfold meets, execute_list_push. cbv zeta. destruct (arguments c) as [|key [|v vs]];
    try (apply (reply_wp _ (wrong_arguments (cmd_name c))); [apply wrong_appends|by destruct front]).
  set (old := fst <$> seen db K key).
  eapply (call_wp _ _ (answered db K R rs (text_record key front <$> (v :: vs)) key (texts_of front (v :: vs) old)
    (fun l => (DList l, seen db K key ≫= snd)) len)); [|apply result_appends|].
  - cut (wp (if bool_decide (vs = []) then list_push key (text_input v) front else push_texts key (v :: vs) front)
      (answered db K R rs (text_record key front <$> (v :: vs)) key (texts_of front (v :: vs) old)
         (fun l => (DList l, seen db K key ≫= snd)) len)
      (fun _ db' => kept db K rs (if_ok (texts_of front (v :: vs) old) (text_record key front <$> (v :: vs))) key db') db).
    { intros Hw. destruct front; exact Hw. }
    destruct (bool_decide_reflect (vs = [])) as [->|_].
    + pose proof (list_push_wp db K R rs key (text_input v) front Hok Hl) as Hw. rewrite push_one in Hw. by apply Hw.
    + apply (push_texts_wp db K R rs key (v :: vs) front Hok Hl).
  - intros x db' Hx. destruct front; by exists x.
Qed.

Lemma list_pop_meets c (front : bool) :
  meets (if front then id_list_pop_left else id_list_pop_right) c (execute_list_pop c front).
Proof.
  unfold meets, execute_list_pop. cbv zeta. destruct (arguments c) as [|key [|]];
    try (apply (reply_wp _ (wrong_arguments (cmd_name c))); [apply wrong_appends|by destruct front]).
  apply (call_wp _ (fun value : Result (option Value) => match value with
      | Unexpected code => append_error (error_message code) | Ok None => append_null | Ok (Some v) => append_value v end)
    (pop_result db K R rs key front (seen db K key)) optional_reply).
  - pose proof (list_pop_wp db K R rs key front Hok Hl) as Hw. destruct front; exact Hw.
  - intros [[v|]|code]; [apply value_appends|apply replies_appends; auto with reddish..].
  - intros x db' Hx. destruct front; by exists x.
Qed.

Lemma list_length_meets c : meets id_list_length c (execute_list_length c).
Proof.
  unfold meets, execute_list_length. cbv zeta. destruct (arguments c) as [|key [|]];
    try (apply (reply_wp _ (wrong_arguments (of_str "llen"))); [apply wrong_appends|done]).
  eapply read_call_wp; [apply (list_length_wp db K R rs key Hok Hl)|apply result_appends|]. intros x db' [-> Hr]. by split.
Qed.

Lemma hash_length_meets c : meets id_hash_length c (execute_hash_length c).
Proof.
  unfold meets, execute_hash_length. cbv zeta. destruct (arguments c) as [|key [|]];
    try (apply (reply_wp _ (wrong_arguments (of_str "hlen"))); [apply wrong_appends|done]).
  eapply read_call_wp; [apply (hash_length_wp db K R rs key Hok Hl)|apply result_appends|]. intros x db' [-> Hr]. by split.
Qed.

Lemma hash_set_meets c : meets id_hash_set c (execute_hash_set c).
Proof.
  unfold meets, execute_hash_set. cbv zeta.
  destruct (arguments c) as [|key [|field [|value more]]];
    try (apply (reply_wp _ (wrong_arguments (of_str "hset"))); [apply wrong_appends|done]).
  destruct more as [|f more].
  - eapply call_wp; [apply (hash_assign_wp (fun _ => false) db K R rs key field (text_input value) Hok Hl); done|apply result_appends|].
    intros x db' Hx. by exists x.
  - set (fields := field :: value :: f :: more). set (P := did _ _ _ _ _ _ _ _).
    assert (forall r db', P r db' = if Z.even (len (key :: fields)) then r = wrong_arguments (of_str "hset") /\ db' = db else
        exists x, r = number_reply x /\ answered db K R rs (field_record key <$> by_twos fields) key
          (set_texts_of (by_twos fields) (fst <$> seen db K key)) (fun h => (DHash h, seen db K key ≫= snd))
          (added_to (fst <$> seen db K key)) x db') as EP by reflexivity.
    destruct (Z.even (len (key :: fields))) eqn:Ev.
    { apply (reply_wp _ (wrong_arguments (of_str "hset"))); [apply wrong_appends|by rewrite EP]. }
    assert (Z.even (len fields) = true) as Ev'.
    { rewrite len_cons, Z.even_add in Ev. change (Z.even 1) with false in Ev. by destruct (Z.even (len fields)). }
    eapply call_wp; [apply (hash_set_texts_wp db K R rs key fields Hok Hl)|apply result_appends|].
    intros x db' Hx. unfold set_texts_result in Hx. rewrite Ev', bool_decide_false in Hx by done. rewrite EP. by exists x.
Qed.

Lemma hash_get_meets c : meets id_hash_get c (execute_hash_get c).
Proof.
  unfold meets, execute_hash_get. cbv zeta. destruct (arguments c) as [|key [|field [|]]];
    try (apply (reply_wp _ (wrong_arguments (of_str "hget"))); [apply wrong_appends|done]).
  unfold on_db. wp_steps. eapply wp_mono; [apply (hash_field_wp db K R rs key field Hok Hl)|..]; cbn [fst snd]; [|done].
  intros v db' [-> Hr].
  apply (reply_wp _ (optional_reply (on_fields (fst <$> seen db K key) (fun h => h !! field)))); [|by split].
  unfold on_fields. destruct (fields_of (fst <$> seen db K key)) as [h|code]; cbn; [|apply replies_appends; auto with reddish].
  destruct (h !! field) as [[s|z]|]; cbn; apply replies_appends; auto with reddish.
Qed.

Lemma hash_del_meets c : meets id_hash_del c (execute_hash_del c).
Proof.
  unfold meets, execute_hash_del. cbv zeta. destruct (arguments c) as [|key [|field [|]]];
    try (apply (reply_wp _ (wrong_arguments (of_str "hdel"))); [apply wrong_appends|done]).
  apply (call_wp _ (fun removed : Result bool => match removed with
      | Unexpected code => append_error (error_message code) | Ok b => append_integer (if b then 1 else 0) end)
    (hash_del_result db K R rs key field) removed_reply).
  - apply (hash_del_wp db K R rs key field Hok Hl).
  - intros [b|code]; [apply append_integer_appends|apply replies_appends; auto with reddish].
  - intros x db' Hx. by exists x.
Qed.

Lemma deadlines_of_fine : deadlines_ok K /\ forall k e d, K !! k = Some e -> e.2 = Some d -> d <= int64_max.
Proof. split; intros k e d Ek Ed; destruct (Hfine k e Ek) as (_ & _ & Hd); apply (Hd d Ed). Qed.

Lemma expire_meets c : meets id_expire c (execute_expire c).
Proof.
  unfold meets, execute_expire. cbv zeta. destruct (arguments c) as [|key [|text [|]]];
    try (apply (reply_wp _ (wrong_arguments (of_str "expire"))); [apply wrong_appends|done]).
  set (P := did _ _ _ _ _ _ _ _). destruct (from_chars_int64 text) as [seconds|] eqn:Et.
  2:{ apply (reply_wp _ (error_reply value_not_integer)); [apply replies_appends; auto with reddish|]. unfold P. cbn [did]. by rewrite Et. }
  apply wp_try_catch. eapply wp_mono; [eapply (call_wp _ _ _ flag_reply P);
    [apply (expire_wp db K R rs key seconds Hok Hl (proj1 deadlines_of_fine))|intros b; apply append_integer_appends|]|..].
  - intros b db' Hb. unfold P. cbn [did]. rewrite Et. left. by destruct (seen db K key); destruct Hb as [-> Hb].
  - done.
  - intros e [db' o] [Eo He]. cbn [snd] in Eo. subst o. cbv beta.
    destruct (bool_decide_reflect (e = exn_error value_not_integer)) as [->|Hne].
    + destruct He as [[He _]|(ops & Hkp & Hops)]; [done|].
      apply (reply_wp _ (error_reply value_not_integer)); [apply replies_appends; auto with reddish|].
      unfold P. cbn [did]. rewrite Et. right. split; [done|]. by exists ops.
    + apply wp_throw. split; [done|]. destruct He as [He|(ops & Hkp & Hops)]; [by left|]. right. exists seconds, ops. by rewrite Et.
Qed.

Lemma ttl_meets c : meets id_ttl c (execute_ttl c).
Proof.
  unfold meets, execute_ttl. cbv zeta. destruct (arguments c) as [|key [|]];
    try (apply (reply_wp _ (wrong_arguments (of_str "ttl"))); [apply wrong_appends|done]).
  destruct deadlines_of_fine as [H1 H2].
  eapply (read_call_wp _ _ _ RInteger); [apply (ttl_wp db K R rs key Hok Hl H1 H2)|apply append_integer_appends|].
  intros x db' [(t & Ht & ->) Hr]. split; [by exists t|exact Hr].
Qed.

Lemma del_meets c : meets id_del c (execute_del c).
Proof.
  unfold meets, execute_del. cbv zeta. destruct (arguments c) as [|key keys];
    [apply (reply_wp _ (wrong_arguments (of_str "del"))); [apply wrong_appends|done]|].
  eapply (call_wp _ _ _ RInteger); [apply (del_keys_wp (key :: keys) 0 db K R rs Hok Hl)|apply append_integer_appends|].
  intros n db' Hn. exists n. split; [done|]. cbv beta in Hn. by rewrite Z.sub_0_r in Hn.
Qed.

Lemma execute_meets c cid : meets cid c (execute_into c server cid).
Proof.
  destruct cid.
  - apply (reply_wp _ (RError (error_message unknown_command ++ of_str " '" ++ cmd_name c ++ of_str "'")));
      [apply replies_appends; auto with reddish|done].
  - apply ping_meets.
  - apply info_meets.
  - apply get_meets.
  - apply set_meets.
  - apply increment_meets.
  - apply (list_push_meets c true).
  - apply (list_push_meets c false).
  - apply (list_pop_meets c true).
  - apply (list_pop_meets c false).
  - apply list_length_meets.
  - apply hash_set_meets.
  - apply hash_get_meets.
  - apply hash_del_meets.
  - apply hash_length_meets.
  - apply expire_meets.
  - apply ttl_meets.
  - apply del_meets.
Qed.

End proofs.

(** ** The log through a command *)

Section sound.

Context {A : Type} `{NodeAllocator A} `{!Platform A} `{!Measures A}.

(** [m] leaves the database sound, however it ends. *)
Definition steady (m : M (Session (A := A)) unit) (s : Session) : Prop :=
  wp m (fun _ s' => exists K', sound s'.1 K') (fun _ s' => exists K', sound s'.1 K') s.

Lemma out_steady m (s : Session) K : sound s.1 K -> steady (on_out m) s.
Proof. intros Hs. apply wp_zoom. unfold wp. destruct (m s.2) as [[e|x] o]; by exists K. Qed.

Lemma call_steady {Y} (m : M (Database A) Y) (k : Y -> M bytes unit) (s : Session) :
  stays s.1 m -> steady (let! y := on_db m in on_out (k y)) s.
Proof.
  intros Hm. apply wp_bind, wp_zoom. eapply wp_mono; [exact Hm|..]; [|done]. intros y db' [K' HK']. by eapply out_steady.
Qed.

Lemma time_sound (db : Database A) K t : sound db K -> (time_ db <= t)%nat -> sound (put_time t db) K.
Proof.
  intros (R & w & acked & extra & S & Hs) Ht. eapply (sound_done _ _ _ _ _ _ _ Hs _ K R []).
  - pose proof (so_ok _ _ _ _ _ _ _ Hs) as (idx & order & HI & HR & ER). exists idx, order. split; [by apply put_time_inv|]. by split.
  - rewrite app_nil_r. exact (sound_logged _ _ _ _ _ _ _ Hs).
  - by apply after_time.
  - apply leads_nil.
Qed.

Lemma del_keys_stays keys : forall n (db : Database A) K, sound db K -> stays db (del_keys keys n).
Proof.
  induction keys as [|key keys IH]; intros n db K Hs; [by exists K|]. cbn [del_keys]. apply wp_bind.
  destruct Hs as (R & w & acked & extra & S & Hs). eapply wp_mono; [exact (del_stays _ _ _ _ _ _ _ Hs key)|..]; [|done].
  intros b db' [K' HK']. by eapply IH.
Qed.

(** What a command is to keep to: EXPIRE is for less than 143 million years,
    and no value of a HSET is within five bytes of the limit for values. *)
Definition command_ok (cid : CommandId) (args : list bytes) : Prop :=
  match cid, args with
  | id_expire, [_; text] => forall seconds, from_chars_int64 text = Some seconds -> seconds_ok seconds
  | id_hash_set, _ :: fields => bodies_fit (by_twos fields)
  | _, _ => True
  end.

Lemma execute_steady command server cid (s : Session) K :
  sound s.1 K -> command_ok cid (arguments command) -> steady (execute_into command server cid) s.
Proof.
  intros Hs Hc. assert (forall m, steady (on_out m) s) as Hout by (intros m; by eapply out_steady).
  pose proof Hs as (R & w & acked & extra & S & Hw).
  destruct cid; cbn [execute_into]; try apply Hout.
  - unfold execute_info. destruct (arguments command) as [|section [|]]; [|destruct (bytes_eqb section _)|]; try apply Hout.
    unfold append_info. apply wp_bind, wp_zoom, wp_gets, wp_bind, wp_zoom, wp_bind, wp_get, wp_bind. unfold wp at 1. cbn [now_ms].
    apply wp_ret. eapply (out_steady _ (_, _)). apply time_sound; [exact Hs|cbn; lia].
  - unfold execute_get. destruct (arguments command) as [|key [|]]; try apply Hout. apply call_steady. by eapply value_view_stays.
  - unfold execute_set. destruct (arguments command) as [|key [|v [|]]]; try apply Hout. apply wp_bind, wp_zoom.
    eapply wp_mono; [exact (set_stays _ _ _ _ _ _ _ Hw key v)| |done]. intros _ db' [K' HK']. apply wp_bind.
    eapply wp_mono; [eapply (out_steady _ (_, _)), HK'| |done]. intros _ s' [K'' HK'']. by eapply out_steady.
  - unfold execute_increment. destruct (arguments command) as [|key [|]]; try apply Hout. apply call_steady. by eapply increment_stays.
  - unfold execute_list_push. destruct (arguments command) as [|key [|v vs]]; try apply Hout. apply call_steady.
    destruct (bool_decide _); [by eapply list_push_stays|by eapply push_texts_stays].
  - unfold execute_list_push. destruct (arguments command) as [|key [|v vs]]; try apply Hout. apply call_steady.
    destruct (bool_decide _); [by eapply list_push_stays|by eapply push_texts_stays].
  - unfold execute_list_pop. destruct (arguments command) as [|key [|]]; try apply Hout. apply call_steady. by eapply list_pop_stays.
  - unfold execute_list_pop. destruct (arguments command) as [|key [|]]; try apply Hout. apply call_steady. by eapply list_pop_stays.
  - unfold execute_list_length. destruct (arguments command) as [|key [|]]; try apply Hout. apply call_steady. by eapply list_length_stays.
  - unfold execute_hash_set. destruct (arguments command) as [|key [|f [|v more]]]; try apply Hout.
    destruct (Z.even _); [apply Hout|]. destruct (bool_decide _); apply call_steady; [by eapply hash_assign_stays|by eapply hash_set_texts_stays].
  - unfold execute_hash_get. destruct (arguments command) as [|key [|f [|]]]; try apply Hout. apply call_steady. by eapply hash_field_stays.
  - unfold execute_hash_del. destruct (arguments command) as [|key [|f [|]]]; try apply Hout. apply call_steady. by eapply hash_del_stays.
  - unfold execute_hash_length. destruct (arguments command) as [|key [|]]; try apply Hout. apply call_steady. by eapply hash_length_stays.
  - unfold execute_expire. destruct (arguments command) as [|key [|text [|]]]; try apply Hout. cbn [command_ok] in Hc.
    destruct (from_chars_int64 text) as [seconds|]; [|apply Hout]. apply wp_try_catch.
    eapply wp_mono; [apply call_steady; eapply expire_stays; [exact Hw|by apply Hc]|done|]. intros e s' [K' HK'].
    destruct (bool_decide _); [by eapply out_steady|]. by exists K'.
  - unfold execute_ttl. destruct (arguments command) as [|key [|]]; try apply Hout. apply call_steady. by eapply ttl_stays.
  - unfold execute_del. destruct (arguments command) as [|key keys]; try apply Hout. apply call_steady. by eapply del_keys_stays.
Qed.

End sound.

(** ** Results *)

Section results.

Context {A : Type} `{NodeAllocator A} `{!Platform A} `{!Measures A}.

(** C6: every command does what it says and answers with one reply.  When
    [execute_into] returns, exactly one whole reply was appended to the
    output: the one that belongs to the command, its arguments and the entry
    of its key, and the database is as that reply says.  When it throws,
    nothing was appended: either there was no room for the reply, or the
    database threw and is as it is after a refusal. *)
Theorem execute_correct (command : Command) (server : ServerStats) (cid : CommandId) (db : Database A) K R rs out :
  db_ok db K R -> logged rs db -> fine K ->
  let P := did server db K R rs cid (cmd_name command) (arguments command) in
  wp (execute_into command server cid) (replied P out) (unreplied P (fun _ => stopped db K R rs cid (arguments command)) out) (db, out).
Proof. intros Hok Hl Hf. exact (execute_meets server db K R rs out Hok Hl Hf command cid). Qed.

(** No command separates the keyspace from its log: whether [execute_into]
    returns or throws, the records in the log still mean the keyspace. *)
Theorem execute_sound (command : Command) (server : ServerStats) (cid : CommandId) (db : Database A) K out :
  sound db K -> command_ok cid (arguments command) ->
  wp (execute_into command server cid) (fun _ s => exists K', sound s.1 K') (fun _ s => exists K', sound s.1 K') (db, out).
Proof. intros Hs Hc. by apply (execute_steady command server cid (db, out) K). Qed.

End results.

(** ** Examples *)

Definition sample_server : ServerStats := mkServerStats 1 0 0 0.

(** The command an array of bulk strings is parsed into. *)
Definition command_of (parts : list bytes) : Command :=
  match parse_command (encode_request parts) with Ok c => c | Unexpected _ => empty_command end.

Definition sample_lpop : Command := command_of [of_str "LPOP"; key_l].

Lemma sample_list_fine : fine sample_list_keyspace.
Proof.
  apply fine_insert; [apply fine_insert; [apply fine_empty|]|]; (split; [vm_compute; discriminate|]); (split; [|done]).
  - vm_compute. discriminate.
  - split; [done|]. split; [vm_compute; discriminate|]. repeat constructor; vm_compute; discriminate.
Qed.

(** LPOP of a list of three. *)
Lemma execute_correct_witness :
  exists db', execute_into sample_lpop sample_server id_list_pop_left (sample_list_db, of_str "x") =
    (inr tt, (db', of_str "x" ++ encode_reply (RBulk (of_str "c")))) /\
    db_ok db' (put_list key_l (tail list_abc) None sample_list_keyspace) [key_l; key_k].
Proof.
  destruct sample_list_ok as [Hok Hl].
  pose proof (execute_correct sample_lpop sample_server id_list_pop_left sample_list_db _ _ _ (of_str "x") Hok Hl sample_list_fine) as Hw.
  destruct (wp_returns _ _ _ _ Hw) as ([] & [db' o] & E & r & Hd & Eo); [eexists; vm_compute; reflexivity|].
  assert (arguments sample_lpop = [key_l]) as Ea by (vm_compute; reflexivity). rewrite Ea in Hd.
  cbn [fst snd] in Hd, Eo. destruct Hd as (x & -> & Hp).
  assert (seen sample_list_db sample_list_keyspace key_l = Some (DList list_abc, None)) as Hs by (vm_compute; reflexivity).
  rewrite Hs in Hp. destruct Hp as (v & l' & El & -> & Hok' & _). injection El as <- <-. exists db'. split; [|exact Hok'].
  rewrite E, Eo. reflexivity.
Defined.

(** A HSET on a database that was opened from its log. *)
Lemma execute_sound_witness :
  exists K', sound (snd (execute_into (command_of [of_str "HSET"; of_str "h"; of_str "f"; of_str "v"]) sample_server id_hash_set
    (sample_opened, []))).1 K'.
Proof.
  destruct sample_opened_sound as [K Hs].
  assert (command_ok id_hash_set (arguments (command_of [of_str "HSET"; of_str "h"; of_str "f"; of_str "v"]))) as Hc.
  { assert (arguments (command_of [of_str "HSET"; of_str "h"; of_str "f"; of_str "v"]) = [of_str "h"; of_str "f"; of_str "v"]) as ->
      by (vm_compute; reflexivity).
    apply Forall_cons_2; [vm_compute; discriminate|apply Forall_nil_2]. }
  pose proof (execute_sound (command_of [of_str "HSET"; of_str "h"; of_str "f"; of_str "v"]) sample_server id_hash_set sample_opened K [] Hs Hc) as Hw.
  unfold wp in Hw. destruct (execute_into _ _ _ _) as [[e|u] s]; exact Hw.
Defined.
