(* ===== verification/Batch.v ===== *)
(** * Batch: commands under the lock, and the maintenance thread

    [Server::execute_batch] of [src/server.cpp] runs the commands a client
    has sent, in order, inside one batch of the log and under the lock of the
    database, and then waits for the maintenance thread until the database is
    within its capacity; [Server::maintenance_loop] is that thread.  The
    theorems say that every command of a batch is answered by one reply, in
    order, running out of memory included; that the log is synced before
    [execute_batch] returns; and that the wait ends. *)

From S2P Require Import Prelude Charconv Errors Effects RespParse Replies Pack WalCodec Wal Allocator Slab Lru Expiry Buckets Node Store Keyspace StoreSpec Contents Edits Writing Clearing Sample Strings Timers Lists Hashes Stats Throws Records Replay Open Snapshot Durable Execute.

(** ** The program *)

Definition expiry_slice : Z := 128.
Definition eviction_slice : Z := 256.

Definition oom_text : bytes := of_str "OOM database memory limit or allocation failure".

(** [command.classified_id = id] *)
Definition set_classified (id : CommandId) (c : Command) : Command :=
  mkCommand (cmd_name c) (cmd_arguments c) (bytes_consumed c) id.

Section ops.

Context {A : Type} `{NodeAllocator A} `{!Platform A} `{!Measures A}.

(** One command; running out of memory is an error of the command. *)
Definition run_command (stats : ServerStats) (command : Command) : M (Session (A := A)) unit :=
  try_catch (execute_into command stats (classified_id command))
    (fun e => if bool_decide (e = exn_bad_alloc) then on_out (append_error oom_text) else throw e).

(** The part of [execute_batch] under the lock. *)
Definition locked_batch (stats : ServerStats) (batch : list Command) (has_write : bool) : M (Session (A := A)) unit :=
  do! when has_write (on_db begin_wal_batch) in
  do! try_catch (for_each batch (run_command stats))
        (fun e => do! when has_write (on_db end_wal_batch) in throw e) in
  when has_write (on_db end_wal_batch).

(** One round of [maintenance_loop]. *)
Definition maintenance_round : M (Database A) unit :=
  let! needed := gets maintenance_needed in
  when needed
    (do! remove_expired expiry_slice in
     let! over := gets over_capacity in
     when over (let! target := gets max_keys_ in let! _ := evict_to target eviction_slice in ret tt)).

(** The thread ends at the first exception, and says so.  The state is the
    database and [maintenance_failed]. *)
Definition maintain (s : Database A * bool) : Database A * bool :=
  if s.2 then s else
  match maintenance_round s.1 with
  | (inr _, db) => (db, false)
  | (inl _, db) => (db, true)
  end.

(** [maintenance_wake.wait] until the database is within its capacity or the
    thread has failed: meanwhile only the maintenance thread runs. *)
Fixpoint wait_capacity (fuel : nat) (s : Database A * bool) : Database A * bool :=
  match fuel with
  | O => s
  | S fuel => if negb (over_capacity s.1) || s.2 then s else wait_capacity fuel (maintain s)
  end.

(** A round takes out at least one key while there are too many. *)
Definition wait_rounds (db : Database A) : nat := S (Z.to_nat (key_hint_ db - max_keys_ db)).

(** [execute_batch], on the database, [maintenance_failed] and the client's
    output buffer. *)
Definition execute_batch (stats : ServerStats) (batch : list Command) (has_write : bool) : M (Database A * bool * bytes) unit :=
  do! zoom (fun s => (s.1.1, s.2)) (fun t s => ((t.1, s.1.2), t.2)) (locked_batch stats batch has_write) in
  let! over := gets (fun s => over_capacity s.1.1) in
  when over
    (do! modify (fun s => (wait_capacity (wait_rounds s.1.1) s.1, s.2)) in
     let! failed := gets (fun s => s.1.2) in
     when failed (throw (exn_error disk_write_failed))).

End ops.

(** ** What a batch is answered with *)

Definition oom_reply : reply := RError oom_text.

Section answers.

Context {A : Type} `{NodeAllocator A} `{!Platform A} `{!Measures A}.

(** The reply a command gets: the one it comes to, or that memory ran out. *)
Definition answer_to (stats : ServerStats) (db : Database A) (command : Command) (r : reply) (db' : Database A) : Prop :=
  exists K R rs, db_ok db K R /\ logged rs db /\ fine K /\
    (did stats db K R rs (classified_id command) (cmd_name command) (arguments command) r db' \/
     r = oom_reply /\ stopped db K R rs (classified_id command) (arguments command) db').

(** One reply for each command, in order. *)
Inductive answers (stats : ServerStats) : list Command -> Database A -> list reply -> Database A -> Prop :=
| answers_nil db : answers stats [] db [] db
| answers_cons command batch db r db1 replies db' :
    answer_to stats db command r db1 -> answers stats batch db1 replies db' ->
    answers stats (command :: batch) db (r :: replies) db'.

Lemma answers_length stats batch db replies db' : answers stats batch db replies db' -> length replies = length batch.
Proof. induction 1; cbn; congruence. Qed.

Definition encode_replies (replies : list reply) : bytes := concat (map encode_reply replies).

Definition commands_ok (batch : list Command) : Prop := Forall (fun c => command_ok (classified_id c) (arguments c)) batch.

Lemma run_command_wp stats command (db : Database A) K out :
  sound db K -> command_ok (classified_id command) (arguments command) ->
  wp (run_command stats command)
    (fun _ s => (exists r, answer_to stats db command r s.1 /\ s.2 = out ++ encode_reply r) /\ exists K', sound s.1 K')
    (fun e s => s.2 = out /\ after db s.1 /\ exists K', sound s.1 K') (db, out).
Proof.
  intros Hs Hc. pose proof Hs as (R & w & acked & extra & S & Hw).
  assert (db_ok db K R) as Hok by exact (so_ok _ _ _ _ _ _ _ Hw). pose proof (sound_logged _ _ _ _ _ _ _ Hw) as Hl.
  pose proof (sound_fine _ _ _ _ _ _ _ Hw) as Hf. apply wp_try_catch.
  eapply wp_mono; [apply wp_and; [exact (execute_meets stats db K R _ out Hok Hl Hf command (classified_id command))
    |exact (execute_steady command stats (classified_id command) (db, out) K Hs Hc)]|..].
  - intros u s' [(r & Hd & Eo) Hs']. split; [|exact Hs']. exists r. split; [|exact Eo]. exists K, R, (acked ++ extra). auto 6.
  - intros e [db' o] [[Eo He] Hs']. cbn [snd fst] in *. subst o.
    assert (after db db') as Haf by (destruct He as [[_ (r & Hd)]|Hst]; [by eapply did_after|by eapply stopped_after]).
    destruct (bool_decide_reflect (e = exn_bad_alloc)) as [->|Hne].
    2:{ apply wp_throw. split; [done|]. split; [exact Haf|exact Hs']. }
    destruct He as [[He _]|Hst]; [done|]. apply wp_zoom. eapply wp_mono; [apply (replies_appends _ _ (append_error_replies oom_text))|..]; cbn [fst snd].
    + intros u o ->. split; [|exact Hs']. exists oom_reply. split; [|done]. exists K, R, (acked ++ extra). auto 8.
    + intros e o [-> ->]. split; [done|]. split; [exact Haf|exact Hs'].
Qed.

Lemma answer_after stats (db : Database A) command r db' : answer_to stats db command r db' -> after db db'.
Proof. intros (K & R & rs & _ & _ & _ & [Hd|[_ Hst]]); [by eapply did_after|by eapply stopped_after]. Qed.

Lemma answers_after stats batch (db : Database A) replies db' : answers stats batch db replies db' -> after db db'.
Proof. induction 1; [apply after_refl|]. eapply after_trans; [by eapply answer_after|done]. Qed.

(** The commands one after the other: all answered, or those before the one
    that threw. *)
Lemma commands_wp stats batch : forall (db : Database A) K out, sound db K -> commands_ok batch ->
  wp (for_each batch (run_command stats))
    (fun _ s => (exists replies, answers stats batch db replies s.1 /\ s.2 = out ++ encode_replies replies) /\ exists K', sound s.1 K')
    (fun e s => (exists k replies db1, (k < length batch)%nat /\ answers stats (take k batch) db replies db1 /\ s.2 = out ++ encode_replies replies) /\
       after db s.1 /\ exists K', sound s.1 K') (db, out).
Proof.
  induction batch as [|c batch IH]; intros db K out Hs Hc.
  { split; [|by exists K]. exists []. split; [constructor|]. by rewrite app_nil_r. }
  apply Forall_cons in Hc as [Hc Hrest]. apply wp_bind. eapply wp_mono; [by apply (run_command_wp stats c db K out)|..].
  - intros u [db1 o] [(r & Hr & Eo) [K1 Hs1]]. cbn [fst snd] in *. subst o. eapply wp_mono; [by eapply IH|..].
    + intros u' s' [(replies & Ha & Eo) Hs']. split; [|exact Hs']. exists (r :: replies). split; [by econstructor|].
      unfold encode_replies in *. cbn [map concat]. by rewrite Eo, app_assoc.
    + intros e s' [(k & replies & db2 & Hk & Ha & Eo) [Haf Hs']].
      split; [|split; [eapply after_trans; [by eapply answer_after|exact Haf]|exact Hs']]. exists (Datatypes.S k), (r :: replies), db2.
      split; [cbn; lia|]. split; [cbn [take]; by econstructor|]. unfold encode_replies in *. cbn [map concat]. by rewrite Eo, app_assoc.
  - intros e s' [Eo [Haf Hs']]. split; [|split; [exact Haf|exact Hs']]. exists 0%nat, [], db. split; [cbn; lia|]. split; [constructor|]. by rewrite app_nil_r.
Qed.

(** ** The batch of the log *)

(** The log records are on disk: an append that returned is acknowledged. *)
Definition unbatched (db : Database A) : Prop :=
  match wal_ db with Some w => defer_sync_ w = false | None => True end.

Lemma flush_keeps w : wp flush_locked (fun _ w' => failed_ w' = false /\ defer_sync_ w' = defer_sync_ w) (fun _ w' => defer_sync_ w' = defer_sync_ w) w.
Proof.
  unfold flush_locked. wp_steps. destruct (failed_ w) eqn:Hf; wp_steps; [done|].
  destruct (dirty_ w) eqn:Hd; cbn [negb]; wp_steps; [|done].
  apply fflush_wp. intros ok d sc _ _ _ _. destruct ok; cbn [negb]; cbn iota; wp_steps; [|reflexivity].
  destruct (bool_decide _); wp_steps; [by split|]. apply fdatasync_wp. intros ok' sc' n _.
  destruct ok'; cbn [negb]; cbn iota; wp_steps; [|reflexivity]. by split.
Qed.

(** The end of a batch: it is over however the call ends, and when it returns
    under the policy that syncs every record the log has not failed. *)
Lemma end_batch_wp (db : Database A) :
  wp end_wal_batch
    (fun _ db' => unbatched db' /\ forall w, wal_ db' = Some w -> sync_ w = sync_always -> failed_ w = false)
    (fun _ db' => unbatched db') db.
Proof.
  unfold wp, end_wal_batch, on_wal_, unbatched. destruct (wal_ db) as [w|] eqn:Ew; [|cbn; by rewrite Ew].
  assert (wp end_batch (fun _ w' => defer_sync_ w' = false /\ (sync_ w' = sync_always -> failed_ w' = false))
    (fun _ w' => defer_sync_ w' = false) w) as He.
  { unfold end_batch. wp_steps. apply wp_when.
    - intros Hs. eapply wp_mono; [apply flush_keeps|..].
      + intros u w' [Hf Ed]. split; [exact Ed|done].
      + intros e w' Ed. exact Ed.
    - intros Hs. apply bool_decide_eq_false in Hs. split; [reflexivity|]. intros E. exfalso. by apply Hs. }
  unfold wp in He. destruct (end_batch w) as [[e|u] w']; cbn; [exact He|]. split; [apply He|]. intros w0 [= <-]. apply He.
Qed.

Lemma begin_stays (db : Database A) K : sound db K -> stays db begin_wal_batch.
Proof. intros Hs. exact (request_stays (req_call c_begin) db K Hs (conj eq_refl I)). Qed.

Lemma end_stays (db : Database A) K : sound db K -> stays db end_wal_batch.
Proof. intros Hs. exact (request_stays (req_call c_end) db K Hs (conj eq_refl I)). Qed.

Lemma begin_returns (db : Database A) : exists db', begin_wal_batch db = (inr tt, db').
Proof. unfold begin_wal_batch, on_wal_. destruct (wal_ db) as [w|]; by eexists. Qed.

(** *** Reads leave the log alone *)

Definition is_read (cid : CommandId) : bool :=
  match cid with
  | id_ping | id_info | id_get | id_list_length | id_hash_get | id_hash_length | id_ttl => true
  | _ => false
  end.

Definition log_is (W : option Wal) (db : Database A) : Prop := wal_ db = W.
Definition quiet {X} (W : option Wal) (m : M (Database A) X) : Prop := calm (log_is W) (fun _ => True) m.

Lemma now_quiet W : quiet W now_ms.
Proof. intros db Hdb. by apply now_wp. Qed.

Ltac quiet_step :=
  lazymatch goal with
  | |- calm _ _ (bind _ _) => apply calm_bind; [|intros ?]
  | |- calm _ _ (ret _) => apply calm_ret
  | |- calm _ _ (gets _) => apply calm_gets
  | |- calm _ _ Effects.get => apply calm_get
  | |- calm _ _ (modify _) => apply calm_modify; intros ? ?; assumption
  | |- calm _ _ now_ms => apply now_quiet
  | |- calm _ _ (if ?b then _ else _) => destruct b
  | |- calm _ _ (match ?x with _ => _ end) => destruct x
  end.
Ltac quiet_steps := unfold quiet; repeat (quiet_step; cbv beta zeta).

Lemma find_active_quiet W key : quiet W (find_active key).
Proof. unfold find_active. quiet_steps. Qed.

Lemma value_view_quiet W key : quiet W (value_view key).
Proof. unfold quiet, value_view. quiet_step; [apply find_active_quiet|]. quiet_steps. Qed.

Lemma list_length_quiet W key : quiet W (list_length key).
Proof. unfold quiet, list_length. quiet_step; [apply find_active_quiet|]. quiet_steps. Qed.

Lemma hash_field_quiet W key field : quiet W (hash_field key field).
Proof. unfold quiet, hash_field. quiet_step; [apply find_active_quiet|]. quiet_steps. Qed.

Lemma hash_length_quiet W key : quiet W (hash_length key).
Proof. unfold quiet, hash_length. quiet_step; [apply find_active_quiet|]. quiet_steps. Qed.

Lemma ttl_quiet W key : quiet W (ttl key).
Proof. unfold quiet, ttl. quiet_step; [apply find_active_quiet|]. quiet_steps. Qed.

(** On the session: nothing [m] does to the log. *)
Definition silent (m : M (Session (A := A)) unit) : Prop := forall W, calm (fun s => wal_ s.1 = W) (fun _ => True) m.

Lemma out_silent m : silent (on_out m).
Proof. intros W s Hs. apply wp_zoom. unfold wp. by destruct (m s.2) as [[]]. Qed.

Lemma call_silent {Y} (m : M (Database A) Y) (k : Y -> M bytes unit) :
  (forall W, quiet W m) -> silent (let! y := on_db m in on_out (k y)).
Proof.
  intros Hm W. apply calm_bind; [|intros y; apply out_silent]. intros s Hs. apply wp_zoom.
  eapply wp_mono; [by apply (Hm W)|by intros|by intros].
Qed.

Lemma read_silent command stats cid : is_read cid = true -> silent (execute_into command stats cid).
Proof.
  intros Hr. destruct cid; try discriminate Hr; clear Hr; cbn [execute_into].
  - apply out_silent.
  - unfold execute_info. destruct (arguments command) as [|section [|]]; [|destruct (bytes_eqb section _)|]; try apply out_silent.
    all: intros W; apply calm_bind; [intros s Hs; by apply wp_zoom, wp_gets|intros ds]; apply calm_bind; [|intros up; apply out_silent].
    + intros s Hs. by apply wp_zoom, wp_bind, wp_get, wp_bind, now_wp, wp_ret.
    + intros s Hs. by apply wp_zoom, wp_ret.
  - unfold execute_get. destruct (arguments command) as [|key [|]]; try apply out_silent. apply call_silent. intros W. apply value_view_quiet.
  - unfold execute_list_length. destruct (arguments command) as [|key [|]]; try apply out_silent. apply call_silent. intros W. apply list_length_quiet.
  - unfold execute_hash_get. destruct (arguments command) as [|key [|f [|]]]; try apply out_silent. apply call_silent. intros W. apply hash_field_quiet.
  - unfold execute_hash_length. destruct (arguments command) as [|key [|]]; try apply out_silent. apply call_silent. intros W. apply hash_length_quiet.
  - unfold execute_ttl. destruct (arguments command) as [|key [|]]; try apply out_silent. apply call_silent. intros W. apply ttl_quiet.
Qed.

(** A batch that writes has a command that writes. *)
Definition marked (batch : list Command) (has_write : bool) : Prop :=
  has_write = false -> Forall (fun c => is_read (classified_id c) = true) batch.

Lemma reads_silent stats batch : marked batch false -> silent (for_each batch (run_command stats)).
Proof.
  intros Hb W. specialize (Hb eq_refl). rewrite Forall_forall in Hb. apply calm_for_each. intros c Hc. apply calm_try_catch.
  - by apply read_silent, Hb.
  - intros e _. destruct (bool_decide _); [apply out_silent|by apply calm_throw].
Qed.

(** *** The whole batch *)

(** The database once the batch of the log has begun. *)
Definition entered (has_write : bool) (db : Database A) : Database A := if has_write then snd (begin_wal_batch db) else db.

(** The log after a batch that is over. *)
Definition log_settled (has_write : bool) (db db' : Database A) : Prop :=
  if has_write then unbatched db' /\ forall w, wal_ db' = Some w -> sync_ w = sync_always -> failed_ w = false
  else wal_ db' = wal_ db.

Definition batch_answered (stats : ServerStats) (batch : list Command) (has_write : bool) (db : Database A) (out : bytes) (s : Session) : Prop :=
  exists replies db2, answers stats batch (entered has_write db) replies db2 /\ s.2 = out ++ encode_replies replies /\
    s.1 = if has_write then snd (end_wal_batch db2) else db2.

(** Thrown: an earlier part was answered, and the batch of the log is over. *)
Definition batch_broken (stats : ServerStats) (batch : list Command) (has_write : bool) (db : Database A) (out : bytes) (s : Session) : Prop :=
  (exists k replies db2, answers stats (take k batch) (entered has_write db) replies db2 /\ s.2 = out ++ encode_replies replies) /\
  (if has_write then unbatched s.1 else wal_ s.1 = wal_ db).

Lemma entered_sound (db : Database A) K has_write : sound db K -> exists K', sound (entered has_write db) K'.
Proof.
  intros Hs. destruct has_write; [|by exists K]. pose proof (begin_stays db K Hs) as Hb. unfold stays, wp in Hb. cbn [entered].
  by destruct (begin_wal_batch db) as [[] db'].
Qed.

(** What a batch keeps, whether it returns or throws. *)
Definition batch_keeps (db db' : Database A) : Prop := max_keys_ db' = max_keys_ db /\ exists K', sound db' K'.

Lemma on_wal_max (m : M Wal unit) (db : Database A) : max_keys_ (snd (on_wal_ m db)) = max_keys_ db.
Proof. unfold on_wal_. destruct (wal_ db) as [w|]; [|done]. by destruct (m w). Qed.

Lemma entered_max has_write (db : Database A) : max_keys_ (entered has_write db) = max_keys_ db.
Proof. destruct has_write; [apply on_wal_max|done]. Qed.

Lemma end_keeps (db0 db : Database A) :
  max_keys_ db = max_keys_ db0 -> (exists K, sound db K) ->
  wp end_wal_batch
    (fun _ db' => (unbatched db' /\ forall w, wal_ db' = Some w -> sync_ w = sync_always -> failed_ w = false) /\ batch_keeps db0 db')
    (fun _ db' => unbatched db' /\ batch_keeps db0 db') db.
Proof.
  intros Em [K Hs]. pose proof (wp_and _ _ _ _ _ _ (end_batch_wp db) (end_stays db K Hs)) as He.
  pose proof (on_wal_max end_batch db) as Eb. change (on_wal_ end_batch) with (@end_wal_batch A) in Eb. rewrite Em in Eb.
  unfold wp in *. destruct (end_wal_batch db) as [[e|u] db']; destruct He as [Hu Hs']; (split; [exact Hu|]); (split; [exact Eb|exact Hs']).
Qed.

Lemma locked_batch_wp stats batch has_write (db : Database A) K out :
  sound db K -> commands_ok batch -> marked batch has_write ->
  wp (locked_batch stats batch has_write)
    (fun _ s => (batch_answered stats batch has_write db out s /\ log_settled has_write db s.1) /\ batch_keeps db s.1)
    (fun _ s => batch_broken stats batch has_write db out s /\ batch_keeps db s.1) (db, out).
Proof.
  intros Hs Hc Hm. destruct (entered_sound db K has_write Hs) as [K1 Hs1]. unfold locked_batch. apply wp_bind.
  assert (when has_write (on_db begin_wal_batch) (db, out) = (inr tt, (entered has_write db, out))) as Ebegin.
  { destruct has_write; [|done]. unfold when, on_db, zoom, entered. cbn [fst snd]. by destruct (begin_returns db) as [db' ->]. }
  unfold wp at 1. rewrite Ebegin. apply wp_bind, wp_try_catch.
  assert (forall db', after (entered has_write db) db' -> max_keys_ db' = max_keys_ db) as Hmax
    by (intros db' Haf; rewrite <- (entered_max has_write db); apply Haf).
  destruct has_write.
  - eapply wp_mono; [by apply (commands_wp stats batch _ K1 out)|..].
    + intros u [db2 o] [(replies & Ha & Eo) Hs2]. cbn [fst snd] in *. unfold when, on_db. apply wp_zoom. cbn [fst snd].
      pose proof (end_keeps db db2 (Hmax _ (answers_after _ _ _ _ _ Ha)) Hs2) as He. unfold wp in *.
      destruct (end_wal_batch db2) as [[e|u'] db3] eqn:Ee; destruct He as [Hu Hk]; (split; [|exact Hk]); (split; [|exact Hu]).
      * exists (length batch), replies, db2. by rewrite take_ge.
      * exists replies, db2. split; [exact Ha|]. split; [exact Eo|]. by rewrite Ee.
    + intros e [db2 o] [(k & replies & db1 & _ & Ha & Eo) [Haf Hs2]]. cbn [fst snd] in *. apply wp_bind. unfold when, on_db. apply wp_zoom.
      cbn [fst snd]. pose proof (end_keeps db db2 (Hmax _ Haf) Hs2) as He. unfold wp in *.
      destruct (end_wal_batch db2) as [[e'|u'] db3]; destruct He as [Hu Hk]; (split; [|exact Hk]); (split; [|apply Hu]); by exists k, replies, db1.
  - eapply wp_mono; [apply wp_and; [by apply (commands_wp stats batch _ K1 out)|apply (reads_silent stats batch Hm (wal_ db)); reflexivity]|..].
    + intros u [db2 o] [[(replies & Ha & Eo) Hs2] Ew]. cbn [fst snd] in *. apply wp_ret.
      split; [|split; [exact (Hmax _ (answers_after _ _ _ _ _ Ha))|exact Hs2]]. split; [by exists replies, db2|exact Ew].
    + intros e [db2 o] [[(k & replies & db1 & _ & Ha & Eo) [Haf Hs2]] [Ew _]]. cbn [fst snd] in *. apply wp_bind, wp_ret, wp_throw.
      split; [|split; [exact (Hmax _ Haf)|exact Hs2]]. split; [by exists k, replies, db1|exact Ew].
Qed.

End answers.

(** ** The maintenance thread *)

Section capacity.

Context {A : Type} `{NodeAllocator A} `{!Platform A} `{!Measures A}.

Lemma key_hint_len (db : Database A) K R : db_ok db K R -> key_hint_ db = u64 (len R).
Proof.
  intros (idx & order & [Hc _] & _ & ->). rewrite (si_hint _ _ _ _ _ Hc), (si_total _ _ _ _ _ Hc).
  unfold recency, len. by rewrite length_fmap.
Qed.

Lemma dropped_keys_short ks R : len (dropped_keys ks R) <= len R.
Proof.
  revert R. induction ks as [|k ks IH]; intros R; [done|]. specialize (IH (others k R)). cbn [dropped_keys fold_left] in *.
  unfold dropped_keys in IH. etrans; [exact IH|]. unfold others, len. pose proof (length_filter (fun k' => k' <> k) R). lia.
Qed.

(** A database that holds [n] keys at most, of which the counter is right. *)
Definition holds_at_most (n : Z) (db : Database A) : Prop :=
  exists K R rs, db_ok db K R /\ logged rs db /\ len R <= n.

Lemma over_capacity_len (db : Database A) K R :
  db_ok db K R -> len R < 2 ^ 64 -> over_capacity db = (max_keys_ db <? len R).
Proof.
  intros Hok Hn. unfold over_capacity. rewrite (key_hint_len _ _ _ Hok), u64_small; [done|]. pose proof (len_nonneg R). lia.
Qed.

(** A round takes a slice of the keys that are too many. *)
Lemma evict_round (db : Database A) K R rs :
  db_ok db K R -> logged rs db -> len R < 2 ^ 64 -> 0 <= max_keys_ db ->
  wp (evict_to (max_keys_ db) eviction_slice)
    (fun _ db' => max_keys_ db' = max_keys_ db /\
       holds_at_most (len R - Z.min eviction_slice (Z.max 0 (len R - max_keys_ db))) db')
    (fun _ _ => True) db.
Proof.
  intros Hok Hl Hn Hm. pose proof (evict_to_wp (max_keys_ db) eviction_slice db rs K R Hok Hl ltac:(done) Hm) as Hw. cbv zeta in Hw.
  rewrite u64_small in Hw by (pose proof (len_nonneg R); lia). eapply wp_mono; [exact Hw| |done].
  intros r db' (rs' & K' & R' & (idx & order & Hr) & ks & _ & _ & He & _ & _ & Hks & _).
  split; [apply (rc_after _ _ _ _ _ _ _ Hr)|]. exists K', R', rs'.
  split; [by eapply reached_ok|]. split; [exact (rc_logged _ _ _ _ _ _ _ Hr)|]. unfold evicted_from in He.
  assert (len R = len R' + len ks) as Elen by (rewrite He, len_app; unfold len; by rewrite length_reverse).
  cbv beta in Hks. lia.
Qed.

(** However many keys too many there are: one round leaves fewer, unless it
    throws. *)
Lemma maintenance_round_wp (db : Database A) K R rs :
  db_ok db K R -> logged rs db -> len R < 2 ^ 64 -> 0 <= max_keys_ db < len R ->
  wp maintenance_round
    (fun _ db' => max_keys_ db' = max_keys_ db /\ holds_at_most (len R - 1) db')
    (fun _ _ => True) db.
Proof.
  intros Hok Hl Hn Hm. unfold maintenance_round. apply wp_bind, wp_gets.
  assert (maintenance_needed db = true) as ->.
  { unfold maintenance_needed. change (max_keys_ db <? key_hint_ db) with (over_capacity db). rewrite (over_capacity_len _ _ _ Hok Hn).
    rewrite (proj2 (Z.ltb_lt _ _)) by lia. by rewrite orb_true_r. }
  cbn [when]. apply wp_bind. eapply wp_mono; [apply (remove_expired_wp expiry_slice db rs K R Hok Hl); done| |done].
  intros u db1 (ks & (Hok1 & Hl1 & Haf) & _). pose proof (dropped_keys_short ks R) as Hshort.
  assert (max_keys_ db1 = max_keys_ db) as Em by apply Haf.
  apply wp_bind, wp_gets. rewrite (over_capacity_len _ _ _ Hok1) by lia. rewrite Em. apply wp_when.
  - intros Hov. apply Z.ltb_lt in Hov. apply wp_bind, wp_gets, wp_bind.
    eapply wp_mono; [eapply (evict_round db1 _ _ _ Hok1 Hl1); lia| |done]. intros r db2 [Em2 (K2 & R2 & rs2 & H1 & H2 & H3)].
    apply wp_ret. split; [by rewrite Em2|]. exists K2, R2, rs2. split; [exact H1|]. split; [exact H2|]. unfold eviction_slice in H3. lia.
  - intros Hov. apply Z.ltb_ge in Hov. split; [exact Em|]. eexists _, _, _. split; [exact Hok1|]. split; [exact Hl1|]. lia.
Qed.

(** The wait of [execute_batch] ends: with room, or because the thread failed. *)
Lemma wait_capacity_ends (n : nat) : forall (db : Database A) failed,
  holds_at_most (max_keys_ db + Z.of_nat n) db -> 0 <= max_keys_ db -> max_keys_ db + Z.of_nat n < 2 ^ 64 ->
  let s := wait_capacity (S n) (db, failed) in s.2 = false -> over_capacity s.1 = false.
Proof.
  induction n as [|n IH]; intros db failed (K & R & rs & Hok & Hl & Hn) Hm Hlim s Hs;
    unfold s in *; cbn [wait_capacity] in *; cbn [fst snd] in *.
  - destruct (negb (over_capacity db) || failed) eqn:E; cbn [fst snd] in *.
    + subst failed. rewrite orb_false_r in E. by apply negb_true_iff.
    + exfalso. apply orb_false_iff in E as [E _]. apply negb_false_iff in E.
      rewrite (over_capacity_len _ _ _ Hok) in E by lia. apply Z.ltb_lt in E. lia.
  - destruct (negb (over_capacity db) || failed) eqn:E; cbn [fst snd] in *.
    { subst failed. rewrite orb_false_r in E. by apply negb_true_iff. }
    apply orb_false_iff in E as [E ->]. apply negb_false_iff in E. rewrite (over_capacity_len _ _ _ Hok) in E by lia. apply Z.ltb_lt in E.
    pose proof (maintenance_round_wp db K R rs Hok Hl ltac:(lia) ltac:(lia)) as Hw. unfold maintain, wp in *. cbn [fst snd] in *.
    destruct (maintenance_round db) as [[e|u] db1].
    + exfalso. destruct n; cbn in Hs; rewrite orb_true_r in Hs; discriminate.
    + destruct Hw as [Em (K1 & R1 & rs1 & H1 & H2 & H3)]. apply (IH db1 false); [|lia|lia|exact Hs].
      exists K1, R1, rs1. split; [exact H1|]. split; [exact H2|]. lia.
Qed.

(** The thread's batches of the log are over when it is done, however that is. *)
Lemma in_batch_unbatched {X} (body : M (Database A) X) db :
  wp (in_batch body) (fun _ => unbatched) (fun _ => unbatched) db.
Proof.
  unfold in_batch. apply wp_bind. unfold wp at 1. destruct (begin_returns db) as [db1 ->]. apply wp_bind, wp_try_catch.
  unfold wp at 1. destruct (body db1) as [[e|x] db2]; apply wp_bind;
    (eapply wp_mono; [apply end_batch_wp|intros u db3 [Hu _]|intros e' db3 Hu; exact Hu]).
  - exact Hu.
  - exact Hu.
Qed.

Lemma remove_expired_unbatched limit db : unbatched db -> wp (remove_expired limit) (fun _ => unbatched) (fun _ => unbatched) db.
Proof.
  intros Hu. unfold remove_expired. apply wp_bind, wp_gets. destruct (negb (ttl_hint_ db)); [exact Hu|].
  unfold remove_expired_locked. apply wp_bind, now_wp. apply in_batch_unbatched.
Qed.

(** What a round keeps, whether it returns or throws. *)
Definition kept_up (db0 db : Database A) : Prop :=
  (exists K, sound db K) /\ max_keys_ db = max_keys_ db0 /\ unbatched db.

Lemma sweep_keeps db0 db limit :
  kept_up db0 db -> 0 <= limit -> wp (remove_expired limit) (fun _ => kept_up db0) (fun _ => kept_up db0) db.
Proof.
  intros [[K Hs] [Em Hu]] Hlim. pose proof Hs as (R & w & acked & extra & S & Hw).
  pose proof (remove_expired_wp limit db _ K R (so_ok _ _ _ _ _ _ _ Hw) (sound_logged _ _ _ _ _ _ _ Hw) Hlim) as H1.
  pose proof (remove_expired_unbatched limit db Hu) as H2. pose proof (request_stays (req_sweep limit) db K Hs Hlim) as H3.
  change (run_request (req_sweep limit)) with (@remove_expired A _ _ limit) in H3. unfold stays, wp in *.
  destruct (remove_expired limit db) as [[e|u] db'];
    destruct H1 as (ks & (_ & _ & Haf) & _); (split; [exact H3|]; split; [|exact H2]); rewrite <- Em; apply Haf.
Qed.

Lemma evict_keeps db0 db target limit :
  kept_up db0 db -> 0 <= target -> 0 <= limit ->
  wp (let! _ := evict_to target limit in ret tt) (fun _ => kept_up db0) (fun _ => kept_up db0) db.
Proof.
  intros [[K Hs] [Em Hu]] Ht Hlim. pose proof Hs as (R & w & acked & extra & S & Hw).
  pose proof (evict_to_wp target limit db _ K R (so_ok _ _ _ _ _ _ _ Hw) (sound_logged _ _ _ _ _ _ _ Hw) Hlim Ht) as H1.
  assert (wp (evict_to target limit) (fun _ => unbatched) (fun _ => unbatched) db) as H2 by apply in_batch_unbatched.
  pose proof (evict_to_stays _ _ _ _ _ _ _ Hw target limit Ht Hlim) as H3. apply wp_bind. cbv zeta in H1. unfold stays, wp in *.
  destruct (evict_to target limit db) as [[e|r] db'].
  - destruct H1 as (rs' & K' & R' & (x & c & (idx & order & Hr) & _) & _). split; [exact H3|]. split; [|exact H2].
    rewrite <- Em. apply (rc_after _ _ _ _ _ _ _ Hr).
  - destruct H1 as (rs' & K' & R' & (idx & order & Hr) & _). split; [exact H3|]. split; [|exact H2].
    rewrite <- Em. apply (rc_after _ _ _ _ _ _ _ Hr).
Qed.

Lemma round_keeps db0 db :
  0 <= max_keys_ db0 -> kept_up db0 db -> wp maintenance_round (fun _ => kept_up db0) (fun _ => kept_up db0) db.
Proof.
  intros Hm Hk. unfold maintenance_round. apply wp_bind, wp_gets. apply wp_when; [|intros _; exact Hk]. intros _. apply wp_bind.
  eapply wp_mono; [by apply (sweep_keeps db0 db)| |intros e db' H'; exact H']. intros u db1 H1. apply wp_bind, wp_gets, wp_when; [|intros _; exact H1].
  intros _. apply wp_bind, wp_gets. apply evict_keeps; [exact H1| |done]. destruct H1 as (_ & -> & _). exact Hm.
Qed.

Lemma maintain_keeps db0 (s : Database A * bool) : 0 <= max_keys_ db0 -> kept_up db0 s.1 -> kept_up db0 (maintain s).1.
Proof.
  intros Hm Hk. unfold maintain. destruct s as [db []]; [exact Hk|]. cbn [fst snd] in *. pose proof (round_keeps db0 db Hm Hk) as Hw.
  unfold wp in Hw. destruct (maintenance_round db) as [[e|u] db']; exact Hw.
Qed.

Lemma wait_keeps db0 fuel : forall s : Database A * bool, 0 <= max_keys_ db0 -> kept_up db0 s.1 -> kept_up db0 (wait_capacity fuel s).1.
Proof.
  induction fuel as [|fuel IH]; intros s Hm Hk; [exact Hk|]. cbn [wait_capacity]. destruct (_ || _); [exact Hk|].
  apply IH; [exact Hm|by apply maintain_keeps].
Qed.

(** *** The whole of [execute_batch] *)

Lemma settled_kept has_write (db db' : Database A) :
  unbatched db -> log_settled has_write db db' -> batch_keeps db db' -> kept_up db db'.
Proof.
  intros Hu Hl [Em Hs]. split; [exact Hs|]. split; [exact Em|]. destruct has_write; [apply Hl|].
  unfold unbatched, log_settled in *. by rewrite Hl.
Qed.

Lemma broken_kept stats batch has_write (db : Database A) out s :
  unbatched db -> batch_broken stats batch has_write db out s -> batch_keeps db s.1 -> kept_up db s.1.
Proof.
  intros Hu [_ Hl] [Em Hs]. split; [exact Hs|]. split; [exact Em|]. destruct has_write; [exact Hl|]. unfold unbatched in *. by rewrite Hl.
Qed.

(** Fewer keys than the counter can count. *)
Definition countable_keys (db : Database A) : Prop := forall K R, db_ok db K R -> len R < 2 ^ 64.

Lemma wait_rounds_enough (db : Database A) failed K :
  sound db K -> countable_keys db -> 0 <= max_keys_ db ->
  let s := wait_capacity (wait_rounds db) (db, failed) in s.2 = false -> over_capacity s.1 = false.
Proof.
  intros (R & w & acked & extra & S & Hw) Hc Hm. pose proof (so_ok _ _ _ _ _ _ _ Hw) as Hok. pose proof (Hc K R Hok) as Hn.
  pose proof (len_nonneg R). pose proof (key_hint_len _ _ _ Hok) as Eh. rewrite u64_small in Eh by lia. unfold wait_rounds. rewrite Eh.
  destruct (Z.leb_spec (len R) (max_keys_ db)) as [Hle|Hgt].
  - replace (Z.to_nat (len R - max_keys_ db)) with 0%nat by lia. assert (over_capacity db = false) as E.
    { rewrite (over_capacity_len _ _ _ Hok Hn). apply Z.ltb_ge. lia. }
    cbn [wait_capacity fst snd]. by rewrite E.
  - apply wait_capacity_ends; [|lia|lia]. exists K, R, (acked ++ extra). split; [exact Hok|].
    split; [exact (sound_logged _ _ _ _ _ _ _ Hw)|]. lia.
Qed.

Lemma execute_batch_wp stats batch has_write (db : Database A) failed K out :
  sound db K -> commands_ok batch -> marked batch has_write -> 0 <= max_keys_ db -> unbatched db ->
  wp (execute_batch stats batch has_write)
    (fun _ s => kept_up db s.1.1 /\ exists db1, batch_answered stats batch has_write db out (db1, s.2) /\ log_settled has_write db db1 /\
       kept_up db db1 /\ s.1 = (if over_capacity db1 then wait_capacity (wait_rounds db1) (db1, failed) else (db1, failed)) /\
       (countable_keys db1 -> over_capacity s.1.1 = false))
    (fun _ s => kept_up db s.1.1) ((db, failed), out).
Proof.
  intros Hs Hc Hmk Hm Hu. unfold execute_batch. apply wp_bind, wp_zoom. cbn [fst snd].
  eapply wp_mono; [by apply (locked_batch_wp stats batch has_write db K out)|..].
  2:{ intros e [db1 o] [Hb Hk]. exact (broken_kept _ _ _ _ _ _ Hu Hb Hk). }
  intros u [db1 o] [[Ha Hl] Hk]. cbn [fst snd] in *. pose proof (settled_kept _ _ _ Hu Hl Hk) as Hk1. apply wp_bind, wp_gets. cbn [fst snd].
  apply wp_when.
  - intros Hov. apply wp_bind, wp_modify, wp_bind, wp_gets. cbn [fst snd].
    pose proof (wait_keeps db (wait_rounds db1) (db1, failed) Hm Hk1) as Hk2. apply wp_when; [intros _; exact Hk2|]. intros Hf.
    split; [exact Hk2|]. exists db1. split; [exact Ha|]. split; [exact Hl|]. split; [exact Hk1|]. split; [by rewrite Hov|].
    intros Hcount. destruct Hk1 as ([K1 Hs1] & Em & _). eapply wait_rounds_enough; [exact Hs1|exact Hcount|lia|exact Hf].
  - intros Hov. split; [exact Hk1|]. exists db1. split; [exact Ha|]. split; [exact Hl|]. split; [exact Hk1|]. split; [by rewrite Hov|done].
Qed.

End capacity.

(** ** Results *)

Section results.

Context {A : Type} `{NodeAllocator A} `{!Platform A} `{!Measures A}.

(** Whatever a crash leaves of the log, if every record is synced and the log
    works: it means the keyspace. *)
Definition durable_now (db : Database A) : Prop :=
  forall w d, wal_ db = Some w -> sync_ w = sync_always -> failed_ w = false -> crash_image w d ->
  exists K R rs S, db_ok db K R /\ opens_as d rs /\ apply_all rs ∅ = Some S /\ matches same_moment K S.

Lemma kept_up_durable (db0 db : Database A) : kept_up db0 db -> durable_now db.
Proof.
  intros ([K Hs] & _ & Hu) w d Ew Esync Hf Hd. destruct (sound_image _ K w d Hs Ew Hd) as (rs & S & Ho & ES & _ & HM).
  unfold unbatched in Hu. rewrite Ew in Hu. destruct Hs as (R & w' & acked & extra & S' & Hs).
  exists K, R, rs, S. split; [exact (so_ok _ _ _ _ _ _ _ Hs)|]. split; [exact Ho|]. split; [exact ES|]. by apply HM.
Qed.

(** C17: a batch of commands is answered in order.  When [execute_batch] returns,
    exactly one reply for each command was appended to the client's output, in
    the order of the commands, each the reply its command comes to in the
    state the commands before it left, or the one that memory ran out; and the
    database is within its capacity, if the number of its keys has 64 bits. *)
Theorem execute_batch_correct stats batch has_write (db : Database A) failed K out :
  sound db K -> commands_ok batch -> marked batch has_write -> 0 <= max_keys_ db -> unbatched db ->
  wp (execute_batch stats batch has_write)
    (fun _ s => exists replies db1 db2, answers stats batch (entered has_write db) replies db2 /\
       length replies = length batch /\ s.2 = out ++ encode_replies replies /\
       db1 = (if has_write then snd (end_wal_batch db2) else db2) /\
       s.1 = (if over_capacity db1 then wait_capacity (wait_rounds db1) (db1, failed) else (db1, failed)) /\
       (countable_keys db1 -> over_capacity s.1.1 = false))
    (fun _ s => exists K', sound s.1.1 K') ((db, failed), out).
Proof.
  intros Hs Hc Hmk Hm Hu. eapply wp_mono; [by apply (execute_batch_wp stats batch has_write db failed K out)|..].
  - intros u s [_ (db1 & (replies & db2 & Ha & Eo & E1) & _ & _ & Es & Hcap)]. exists replies, db1, db2. cbn [fst snd] in *.
    split; [exact Ha|]. split; [by eapply answers_length|]. split; [exact Eo|]. split; [exact E1|]. split; [exact Es|exact Hcap].
  - intros e s (Hk & _). exact Hk.
Qed.

(** C7: replies are not sent before their records are on disk.  Under the policy
    that syncs every record, when [execute_batch] returns from a batch that
    writes, the log it leaves has not failed, and a crash at that moment or
    after the wait for the maintenance thread loses nothing: the log left
    behind means the keyspace with the effects of all the commands. *)
Theorem execute_batch_durable stats batch (db : Database A) failed K out :
  sound db K -> commands_ok batch -> 0 <= max_keys_ db -> unbatched db ->
  wp (execute_batch stats batch true)
    (fun _ s => exists db1 replies db2, answers stats batch (entered true db) replies db2 /\ db1 = snd (end_wal_batch db2) /\
       (forall w, wal_ db1 = Some w -> sync_ w = sync_always -> failed_ w = false) /\ durable_now db1 /\ durable_now s.1.1)
    (fun _ s => durable_now s.1.1) ((db, failed), out).
Proof.
  intros Hs Hc Hm Hu. assert (marked batch true) as Hmk by (intros E; discriminate E).
  eapply wp_mono; [by apply (execute_batch_wp stats batch true db failed K out)|..].
  - intros u s [Hk (db1 & (replies & db2 & Ha & Eo & E1) & [_ Hl] & Hk1 & _)]. exists db1, replies, db2. cbn [fst snd] in *.
    split; [exact Ha|]. split; [exact E1|]. split; [exact Hl|].
    split; [exact (kept_up_durable _ _ Hk1)|exact (kept_up_durable _ _ Hk)].
  - intros e s Hk. exact (kept_up_durable _ _ Hk).
Qed.


End results.

(** ** Examples *)

(** SET, INCR and GET of a key, as the server parses and classifies them. *)
Definition sample_batch : list Command :=
  [set_classified id_set (command_of [of_str "SET"; of_str "n"; of_str "41"]);
   set_classified id_increment (command_of [of_str "INCR"; of_str "n"]);
   set_classified id_get (command_of [of_str "GET"; of_str "n"])].

Lemma sample_batch_ok : commands_ok sample_batch.
Proof. repeat apply Forall_cons_2; [exact I..|apply Forall_nil_2]. Qed.

Lemma sample_opened_unbatched : unbatched sample_opened /\ max_keys_ sample_opened = 2.
Proof. vm_compute. by split. Qed.

Definition sample_replies : list reply := [RSimple (of_str "OK"); RInteger 42; RBulk (of_str "42")].

Lemma execute_batch_correct_witness :
  exists db replies, execute_batch sample_server sample_batch true ((sample_opened, false), []) = (inr tt, ((db, false), encode_replies replies)) /\
    length replies = 3%nat /\ encode_replies replies = encode_replies sample_replies.
Proof.
  destruct sample_opened_sound as [K Hs]. destruct sample_opened_unbatched as [Hu Em].
  assert (marked sample_batch true) as Hmk by (intros E; discriminate E).
  pose proof (execute_batch_correct sample_server sample_batch true sample_opened false K [] Hs sample_batch_ok Hmk ltac:(lia) Hu) as Hw.
  destruct (wp_returns _ _ _ _ Hw) as ([] & [[db f] o] & E & replies & db1 & db2 & _ & Hlen & Eo & _); [eexists; vm_compute; reflexivity|].
  cbn [fst snd app] in Eo. subst o.
  assert ((snd (execute_batch sample_server sample_batch true ((sample_opened, false), []))).2 = encode_replies sample_replies /\
    (snd (execute_batch sample_server sample_batch true ((sample_opened, false), []))).1.2 = false) as [Ev Ef] by (vm_compute; by split).
  rewrite E in Ev, Ef. cbn [fst snd] in Ev, Ef. subst f. exists db, replies. split; [exact E|]. split; [exact Hlen|exact Ev].
Defined.

Lemma execute_batch_durable_witness :
  exists db, execute_batch sample_server sample_batch true ((sample_opened, false), []) = (inr tt, ((db, false), encode_replies sample_replies)) /\
    durable_now db.
Proof.
  destruct sample_opened_sound as [K Hs]. destruct sample_opened_unbatched as [Hu Em].
  pose proof (execute_batch_durable sample_server sample_batch sample_opened false K [] Hs sample_batch_ok ltac:(lia) Hu) as Hw.
  destruct (wp_returns _ _ _ _ Hw) as ([] & [[db f] o] & E & db1 & replies & db2 & _ & _ & _ & _ & Hd); [eexists; vm_compute; reflexivity|].
  assert ((snd (execute_batch sample_server sample_batch true ((sample_opened, false), []))).2 = encode_replies sample_replies /\
    (snd (execute_batch sample_server sample_batch true ((sample_opened, false), []))).1.2 = false) as [Ev Ef] by (vm_compute; by split).
  rewrite E in Ev, Ef. cbn [fst snd] in Ev, Ef. subst f o. exists db. split; [exact E|exact Hd].
Defined.

(** Three keys in a database for two. *)
Definition sample_full : Database Memory := snd (set (of_str "z") (of_str "1") sample_hash_db).

Lemma sample_full_ok : exists K R rs, db_ok sample_full K R /\ logged rs sample_full /\ len R = 3.
Proof.
  destruct sample_hash_ok as [Hok Hl].
  destruct (wp_returns _ _ _ _ (set_wp sample_hash_db _ _ _ (of_str "z") (of_str "1") Hok Hl)) as ([] & db' & E & _ & _ & Hok' & Hl' & _);
    [eexists; vm_compute; reflexivity|].
  unfold sample_full. rewrite E. eexists _, _, _. split; [exact Hok'|]. split; [exact Hl'|reflexivity].
Qed.

