(* ===== verification/Server.v ===== *)
(** * Server: clients, their buffers and the event loop

    [Server] of [src/server.cpp]: it reads requests from its clients into
    buffers, parses them in batches, runs them on the database and sends the
    replies, as far as the sockets take them.  A handler may throw, which ends
    [Server::start].  The maintenance thread runs between the handlers, and
    within [execute_batch] while it waits. *)

From S2P Require Import Prelude Charconv Errors Effects RespParse Stream Replies Sockets Wal Allocator Store Replay Open Stats Execute Batch.

(** ** State *)

Definition max_input_buffer_size : nat := Z.to_nat (1024 * 1024).
Definition max_output_buffer_size : nat := Z.to_nat (1024 * 1024).
Definition read_chunk_size : nat := Z.to_nat (64 * 1024).
Definition batch_limit : nat := 1024.
Definition compact_buffer_threshold : nat := Z.to_nat (64 * 1024).

(** The limits as numbers; they are not to be computed with in unary. *)
Lemma limits_Z : Z.of_nat max_input_buffer_size = 1048576 /\ Z.of_nat max_output_buffer_size = 1048576 /\
  Z.of_nat read_chunk_size = 65536 /\ Z.of_nat batch_limit = 1024.
Proof. unfold max_input_buffer_size, max_output_buffer_size, read_chunk_size, batch_limit. lia. Qed.

#[global] Opaque max_input_buffer_size max_output_buffer_size read_chunk_size batch_limit compact_buffer_threshold.

Record ClientInfo := mkClient {
  socket : Socket;
  buffer : bytes;
  input_offset : nat;
  output_buffer : bytes;
  output_offset : nat;
  batch : list Command;
  watching_write : bool;
  close_after_write : bool;
  half_closed : bool;
  processing_queued : bool
}.

Definition new_client (k : Socket) : ClientInfo := mkClient k [] 0 [] 0 [] false false false false.

Definition put_socket (k : Socket) (c : ClientInfo) : ClientInfo :=
  mkClient k (buffer c) (input_offset c) (output_buffer c) (output_offset c) (batch c) (watching_write c) (close_after_write c) (half_closed c) (processing_queued c).
Definition put_input (b : bytes) (offset : nat) (c : ClientInfo) : ClientInfo :=
  mkClient (socket c) b offset (output_buffer c) (output_offset c) (batch c) (watching_write c) (close_after_write c) (half_closed c) (processing_queued c).
Definition put_output (b : bytes) (offset : nat) (c : ClientInfo) : ClientInfo :=
  mkClient (socket c) (buffer c) (input_offset c) b offset (batch c) (watching_write c) (close_after_write c) (half_closed c) (processing_queued c).
Definition put_batch (l : list Command) (c : ClientInfo) : ClientInfo :=
  mkClient (socket c) (buffer c) (input_offset c) (output_buffer c) (output_offset c) l (watching_write c) (close_after_write c) (half_closed c) (processing_queued c).
Definition put_watching (b : bool) (c : ClientInfo) : ClientInfo :=
  mkClient (socket c) (buffer c) (input_offset c) (output_buffer c) (output_offset c) (batch c) b (close_after_write c) (half_closed c) (processing_queued c).
Definition put_closing (b : bool) (c : ClientInfo) : ClientInfo :=
  mkClient (socket c) (buffer c) (input_offset c) (output_buffer c) (output_offset c) (batch c) (watching_write c) b (half_closed c) (processing_queued c).
Definition put_half_closed (b : bool) (c : ClientInfo) : ClientInfo :=
  mkClient (socket c) (buffer c) (input_offset c) (output_buffer c) (output_offset c) (batch c) (watching_write c) (close_after_write c) b (processing_queued c).
Definition put_queued (b : bool) (c : ClientInfo) : ClientInfo :=
  mkClient (socket c) (buffer c) (input_offset c) (output_buffer c) (output_offset c) (batch c) (watching_write c) (close_after_write c) (half_closed c) b.

(** What is not parsed, and what is not sent yet. *)
Definition unread (c : ClientInfo) : bytes := drop (input_offset c) (buffer c).
Definition unsent (c : ClientInfo) : bytes := drop (output_offset c) (output_buffer c).

(** [A] is the allocator of the database, [P] the poller. *)
Record Server (A P : Type) := mkServer {
  database : Database A;
  maintenance_failed : bool;
  clients : gmap Z ClientInfo;
  next_client_id : Z;
  pending_clients : list Z;
  input_disconnects : Z;   (** [input_buffer_disconnects] *)
  output_disconnects : Z;   (** [output_buffer_disconnects] *)
  start_time : nat;   (** [started_at], a reading of the steady clock *)
  poller : P;   (** [socket_system] *)
  listen_socket : Z;   (** its handle *)
  accepts : list accept_outcome;   (** of the calls to come *)
  running : bool
}.
Arguments mkServer {A P}.
Arguments database {A P}.
Arguments maintenance_failed {A P}.
Arguments clients {A P}.
Arguments next_client_id {A P}.
Arguments pending_clients {A P}.
Arguments input_disconnects {A P}.
Arguments output_disconnects {A P}.
Arguments start_time {A P}.
Arguments poller {A P}.
Arguments listen_socket {A P}.
Arguments accepts {A P}.
Arguments running {A P}.

Section setters.

Context {A P : Type}.

Definition put_database (d : Database A * bool) (s : Server A P) : Server A P :=
  mkServer d.1 d.2 (clients s) (next_client_id s) (pending_clients s) (input_disconnects s) (output_disconnects s) (start_time s) (poller s) (listen_socket s) (accepts s) (running s).
Definition put_clients (m : gmap Z ClientInfo) (s : Server A P) : Server A P :=
  mkServer (database s) (maintenance_failed s) m (next_client_id s) (pending_clients s) (input_disconnects s) (output_disconnects s) (start_time s) (poller s) (listen_socket s) (accepts s) (running s).
Definition put_next_id (id : Z) (s : Server A P) : Server A P :=
  mkServer (database s) (maintenance_failed s) (clients s) id (pending_clients s) (input_disconnects s) (output_disconnects s) (start_time s) (poller s) (listen_socket s) (accepts s) (running s).
Definition put_pending (l : list Z) (s : Server A P) : Server A P :=
  mkServer (database s) (maintenance_failed s) (clients s) (next_client_id s) l (input_disconnects s) (output_disconnects s) (start_time s) (poller s) (listen_socket s) (accepts s) (running s).
Definition put_disconnects (i o : Z) (s : Server A P) : Server A P :=
  mkServer (database s) (maintenance_failed s) (clients s) (next_client_id s) (pending_clients s) i o (start_time s) (poller s) (listen_socket s) (accepts s) (running s).
Definition put_start_time (t : nat) (s : Server A P) : Server A P :=
  mkServer (database s) (maintenance_failed s) (clients s) (next_client_id s) (pending_clients s) (input_disconnects s) (output_disconnects s) t (poller s) (listen_socket s) (accepts s) (running s).
Definition put_poller (p : P) (s : Server A P) : Server A P :=
  mkServer (database s) (maintenance_failed s) (clients s) (next_client_id s) (pending_clients s) (input_disconnects s) (output_disconnects s) (start_time s) p (listen_socket s) (accepts s) (running s).
Definition put_listener (h : Z) (s : Server A P) : Server A P :=
  mkServer (database s) (maintenance_failed s) (clients s) (next_client_id s) (pending_clients s) (input_disconnects s) (output_disconnects s) (start_time s) (poller s) h (accepts s) (running s).
Definition put_accepts (l : list accept_outcome) (s : Server A P) : Server A P :=
  mkServer (database s) (maintenance_failed s) (clients s) (next_client_id s) (pending_clients s) (input_disconnects s) (output_disconnects s) (start_time s) (poller s) (listen_socket s) l (running s).
Definition put_running (b : bool) (s : Server A P) : Server A P :=
  mkServer (database s) (maintenance_failed s) (clients s) (next_client_id s) (pending_clients s) (input_disconnects s) (output_disconnects s) (start_time s) (poller s) (listen_socket s) (accepts s) b.

Definition count_input_disconnect (s : Server A P) : Server A P := put_disconnects (u64 (input_disconnects s + 1)) (output_disconnects s) s.
Definition count_output_disconnect (s : Server A P) : Server A P := put_disconnects (input_disconnects s) (u64 (output_disconnects s + 1)) s.

End setters.

(** ** Buffers *)

(** [compact_buffer]; the capacity of a buffer is not part of the model. *)
Definition compact_buffer (b : bytes) (offset : nat) : bytes * nat :=
  if (offset =? length b)%nat then ([], 0%nat)
  else if (compact_buffer_threshold <=? offset)%nat && (length b <=? offset * 2)%nat then (drop offset b, 0%nat)
  else (b, offset).

Inductive flush_end := flush_done | flush_gone.

(** The loop of [flush_client]; every round sends at least one byte. *)
Fixpoint flush_loop (rounds : nat) (c : ClientInfo) : flush_end * ClientInfo :=
  match rounds with
  | O => (flush_done, c)
  | S rounds =>
      if (output_offset c <? length (output_buffer c))%nat then
        match send (unsent c) (socket c) with
        | (send_count n, k) =>
            if 0 <? n then
              let '(b, offset) := compact_buffer (output_buffer c) (output_offset c + Z.to_nat n) in
              flush_loop rounds (put_output b offset (put_socket k c))
            else (flush_gone, put_socket k c)
        | (send_block, k) => (flush_done, put_socket k c)
        | (send_fail, k) => (flush_gone, put_socket k c)
        end
      else (flush_done, c)
  end.

Definition flush_rounds (c : ClientInfo) : nat := S (length (unsent c)).

Inductive read_end := read_done | read_oversized | read_gone.

(** The loop of [read_client]; after as many rounds as there are chunks in a
    full buffer, and one, the input is oversized. *)
Fixpoint read_loop (rounds : nat) (c : ClientInfo) : read_end * ClientInfo :=
  match rounds with
  | O => (read_done, c)
  | S rounds =>
      match receive read_chunk_size (socket c) with
      | (recv_data [], k) => (read_done, put_closing true (put_half_closed true (put_socket k c)))
      | (recv_data data, k) =>
          let c := put_input (buffer c ++ data) (input_offset c) (put_socket k c) in
          if (max_input_buffer_size <? length (buffer c) - input_offset c)%nat then (read_oversized, c)
          else if (length data <? read_chunk_size)%nat then (read_done, c)
          else read_loop rounds c
      | (recv_block, k) => (read_done, put_socket k c)
      | (recv_fail, k) => (read_gone, put_socket k c)
      end
  end.

Definition read_rounds : nat := 17.

(** The loop of [process_client] over the requests in the buffer: the client,
    how many there are, whether one writes, and the error that ended it. *)
Fixpoint parse_batch (little_endian : bool) (room count : nat) (has_write : bool) (c : ClientInfo) : ClientInfo * nat * bool * option ErrorCode :=
  match room with
  | O => (c, count, has_write, None)
  | S room =>
      if (input_offset c <? length (buffer c))%nat then
        let slots := if (count =? length (batch c))%nat then batch c ++ [empty_command] else batch c in
        let command := default empty_command (slots !! count) in
        match parse_command_into (unread c) command with
        | (Unexpected code, command) =>
            (put_batch (<[count := command]> slots) c, count, has_write,
             if is_incomplete_resp_error code then None else Some code)
        | (Ok _, command) =>
            let '(id, is_write) := classify_command little_endian (cmd_name command) in
            parse_batch little_endian room (S count) (has_write || is_write)
              (put_input (buffer c) (input_offset c + bytes_consumed command)
                (put_batch (<[count := set_classified id command]> slots) c))
        end
      else (c, count, has_write, None)
  end.

(** ** Handlers *)

Section handlers.

Context {A P : Type} `{NodeAllocator A} `{!Platform A} `{!Measures A} `{Poller P} `{Descriptors}.
Context (little_endian : bool).

Abbreviation Serving := (M (Server A P)).

(** [clients.find], and nothing when the client is not there. *)
Definition with_client (client_id : Z) (k : ClientInfo -> Serving unit) : Serving unit :=
  let! s := get in
  match clients s !! client_id with
  | None => ret tt
  | Some c => k c
  end.

Definition put_client (client_id : Z) (c : ClientInfo) : Serving unit :=
  modify (fun s => put_clients (<[client_id := c]> (clients s)) s).

Definition watch (handle token : Z) (readable writable : bool) : Serving unit :=
  zoom poller put_poller (pl_watch handle token readable writable).

Definition unwatch (handle : Z) : Serving unit := modify (fun s => put_poller (pl_unwatch handle (poller s)) s).

Definition remove_client (client_id : Z) : Serving unit :=
  with_client client_id (fun c =>
    do! unwatch (sk_handle (socket c)) in
    modify (fun s => put_clients (delete client_id (clients s)) s)).

Definition request_write (client_id : Z) : Serving unit :=
  with_client client_id (fun c =>
    if watching_write c then ret tt else
    do! watch (sk_handle (socket c)) client_id (negb (half_closed c)) true in
    put_client client_id (put_watching true c)).

Definition flush_client (client_id : Z) : Serving unit :=
  with_client client_id (fun c =>
    let '(r, c) := flush_loop (flush_rounds c) c in
    do! put_client client_id c in
    match r with
    | flush_gone => remove_client client_id
    | flush_done =>
        if (output_offset c <? length (output_buffer c))%nat then ret tt else
        do! when (watching_write c)
              (do! watch (sk_handle (socket c)) client_id (negb (half_closed c)) false in
               put_client client_id (put_watching false c)) in
        when (close_after_write c && negb (processing_queued c)) (remove_client client_id)
    end).

(** The ends of [read_client] and of [process_client] that give up on the
    input: an error reply, and the connection closes once it is sent. *)
Definition reject (client_id : Z) (text : bytes) : Serving unit :=
  with_client client_id (fun c =>
    match append_error text (output_buffer c) with
    | (inl _, out) =>
        do! put_client client_id (put_output out (output_offset c) c) in
        do! modify count_output_disconnect in
        remove_client client_id
    | (inr _, out) =>
        do! put_client client_id (put_closing true (put_input [] 0 (put_output out (output_offset c) c))) in
        request_write client_id
    end).

(** The call of [execute_batch] for the first commands of a client. *)
Definition run_batch (client_id : Z) (count : nat) (has_write : bool) : Serving unit :=
  with_client client_id (fun c =>
    let! s := get in
    let stats := mkServerStats (Z.of_nat (size (clients s))) (start_time s) (input_disconnects s) (output_disconnects s) in
    zoom (fun s => ((database s, maintenance_failed s), output_buffer c))
         (fun t s => put_clients (<[client_id := put_output t.2 (output_offset c) c]> (clients s)) (put_database t.1 s))
         (execute_batch stats (take count (batch c)) has_write)).

(** The end of [process_client]. *)
Definition deliver (client_id : Z) (count : nat) : Serving unit :=
  with_client client_id (fun c =>
    let '(b, offset) := compact_buffer (buffer c) (input_offset c) in
    let c := put_input b offset c in
    let more := (count =? batch_limit)%nat && (input_offset c <? length (buffer c))%nat && negb (processing_queued c) in
    let c := if more then put_queued true c else c in
    do! put_client client_id c in
    do! when more (modify (fun s => put_pending (pending_clients s ++ [client_id]) s)) in
    if (max_output_buffer_size <? length (output_buffer c) - output_offset c)%nat then
      do! modify count_output_disconnect in remove_client client_id
    else if (output_offset c <? length (output_buffer c))%nat then
      do! flush_client client_id in
      with_client client_id (fun c =>
        when (output_offset c <? length (output_buffer c))%nat (request_write client_id))
    else when (close_after_write c && negb (processing_queued c)) (remove_client client_id)).

Definition process_client (client_id : Z) : Serving unit :=
  with_client client_id (fun c =>
    let c := put_output (unsent c) 0 c in
    let '(c, count, has_write, protocol_error) := parse_batch little_endian batch_limit 0 false c in
    do! put_client client_id c in
    let! ran :=
      (if (count =? 0)%nat then ret true else
       try_catch (do! run_batch client_id count has_write in ret true)
         (fun e =>
            if bool_decide (e = too_large)
            then do! modify count_output_disconnect in do! remove_client client_id in ret false
            else throw e)) in
    if negb ran then ret tt else
    match protocol_error with
    | Some code => reject client_id (error_message protocol_error_prefix ++ error_message code)
    | None => deliver client_id count
    end).

Definition read_client (client_id : Z) : Serving unit :=
  with_client client_id (fun c =>
    if half_closed c then ret tt else
    let '(r, c) := read_loop read_rounds c in
    do! put_client client_id c in
    match r with
    | read_gone => remove_client client_id
    | read_oversized => do! modify count_input_disconnect in reject client_id (error_message request_too_large)
    | read_done => process_client client_id
    end).

(** *** Connections *)

Definition next_id (id : Z) : Z := if id =? int32_max then 0 else id + 1.

(** The search for an identifier that is free: one more step than there are
    clients is enough. *)
Fixpoint free_id (fuel : nat) (taken : gmap Z ClientInfo) (id : Z) : Z :=
  match fuel with
  | O => id
  | S fuel => if bool_decide (is_Some (taken !! id)) then free_id fuel taken (next_id id) else id
  end.

Definition max_clients : nat := 4096.

(** Every socket that is open is watched. *)
Definition open_sockets (s : Server A P) : gset Z := dom (pl_watched (poller s)).

Fixpoint accept_loop (rounds : nat) : Serving unit :=
  match rounds with
  | O => ret tt
  | S rounds =>
      let! s := get in
      let outcome := hd accept_block (accepts s) in
      do! modify (put_accepts (tail (accepts s))) in
      match Sockets.accept (open_sockets s) outcome with
      | inl e => throw e
      | inr None => ret tt
      | inr (Some (k, nonblocking)) =>
          if negb nonblocking then throw (exn_error socket_nonblocking_failed) else
          if (max_clients <=? size (clients s))%nat then accept_loop rounds else
          let client_id := free_id (S (size (clients s))) (clients s) (next_client_id s) in
          do! modify (put_next_id (next_id client_id)) in
          do! put_client client_id (new_client k) in
          do! watch (sk_handle k) client_id true false in
          accept_loop rounds
      end
  end.

Definition accept_connections : Serving unit := accept_loop 64.

(** ** The event loop *)

(** The clients that have more requests in their buffers than a batch takes. *)
Fixpoint serve_queued (count : nat) : Serving unit :=
  match count with
  | O => ret tt
  | S count =>
      let! s := get in
      match pending_clients s with
      | [] => ret tt
      | id :: rest =>
          do! modify (put_pending rest) in
          do! with_client id (fun c => do! put_client id (put_queued false c) in process_client id) in
          serve_queued count
      end
  end.

Definition has_client (client_id : Z) : Serving bool := gets (fun s => bool_decide (is_Some (clients s !! client_id))).

Definition handle_event (event : SocketEvent) : Serving unit :=
  if ev_token event =? listener_token then
    if ev_error event then throw (exn_error listening_socket_failed)
    else when (ev_readable event) accept_connections
  else
    let id := ev_token event in
    let! here := has_client id in if negb here then ret tt else
    do! when (ev_readable event) (read_client id) in
    let! here := has_client id in if negb here then ret tt else
    do! when (ev_writable event) (flush_client id) in
    let! here := has_client id in if negb here then ret tt else
    when (ev_error event) (remove_client id).

(** One round of the loop of [start], on what [wait] reports. *)
Definition turn (reported : exn + list SocketEvent) : Serving unit :=
  let! s := get in
  if maintenance_failed s || wal_failed (database s) then throw (exn_error disk_write_failed) else
  do! serve_queued (Nat.min (length (pending_clients s)) 64) in
  match reported with
  | inl e => throw e
  | inr events => for_each events handle_event
  end.

Definition stop : Serving unit := modify (put_running false).

Definition close_connections : Serving unit := modify (fun s =>
  let p := map_fold (fun _ c p => pl_unwatch (sk_handle (socket c)) p) (poller s) (clients s) in
  put_listener invalid_socket (put_poller (pl_unwatch (listen_socket s) p) (put_clients ∅ s))).

(** The calls on the listening socket that can fail, in their order. *)
Record Listening := mkListening { created : bool; bound : bool; listening : bool; unblocked : bool }.

Definition open_listener (l : Listening) : Serving unit :=
  if negb (created l) then throw (exn_error socket_creation_failed) else
  do! modify (fun s => put_listener (new_fd (open_sockets s)) s) in
  if negb (bound l) then throw (exn_error socket_bind_failed) else
  if negb (listening l) then throw (exn_error socket_listen_failed) else
  if negb (unblocked l) then throw (exn_error socket_nonblocking_failed) else
  let! h := gets listen_socket in
  watch h listener_token true false.

(** [open_wal] with the file that is found and the operating system's answers,
    when there is a path. *)
Record LogFile := mkLogFile { log_sync : WalSync; log_found : bytes; log_script : list io_outcome; log_error : option nat }.

Definition on_database (m : M (Database A) unit) : Serving unit :=
  zoom database (fun db s => put_database (db, maintenance_failed s) s) m.

Definition begin_serving (log : option LogFile) (l : Listening) : Serving unit :=
  do! (match log with
       | Some f => on_database (open_wal (log_sync f) (log_found f) (log_script f) (log_error f))
       | None => ret tt
       end) in
  do! modify (put_running true) in
  do! modify (fun s => put_start_time (time_ (database s)) s) in
  do! on_database (let! _ := now_ms in ret tt) in
  open_listener l.

(** What happens after the loop. *)
Definition end_serving : Serving unit :=
  do! on_database flush_wal in
  do! stop in
  do! close_connections in
  let! failed := gets maintenance_failed in
  when failed (throw (exn_error disk_write_failed)).

(** The maintenance thread between the rounds. *)
Definition maintenance : Serving unit := modify (fun s => put_database (maintain (database s, maintenance_failed s)) s).

(** [start]; for every round of the loop, how often the maintenance thread ran
    before it, and what [wait] reported.  [should_stop] holds after them. *)
Definition start (log : option LogFile) (l : Listening) (rounds : list (nat * (exn + list SocketEvent))) : Serving unit :=
  do! begin_serving log l in
  do! for_each rounds (fun r => do! for_each (replicate r.1 tt) (fun _ => maintenance) in turn r.2) in
  end_serving.

End handlers.
