(* ===== verification/Serving.v ===== *)
(** * Serving: what every client of the server can rely on

    The invariant of [Server], kept by every handler and by every interleaving
    of the handlers with the maintenance thread, the thread of the log, the
    network and new connections: no client is forgotten with a request that is
    complete or with a reply that is not sent, buffers are bounded, the poller
    knows exactly the sockets of the clients, and what a client has been sent
    is the replies to what it asked, in order.  The handlers are verified
    against what [Backend] promises of the database, twice: with nothing
    promised, and with the soundness of the log. *)

From S2P Require Import Prelude Charconv Errors Effects RespParse Stream Replies Sockets WalCodec Wal Allocator Buckets Store Keyspace StoreSpec Contents Replay Open Stats Durable Execute Batch Server.

(** ** Buffers *)

Lemma compact_buffer_spec b offset : (offset <= length b)%nat ->
  let '(b', offset') := compact_buffer b offset in drop offset' b' = drop offset b /\ (offset' <= length b')%nat.
Proof.
  intros Hle. unfold compact_buffer. destruct (Nat.eqb_spec offset (length b)) as [->|Hne].
  - rewrite drop_all. split; [done|cbn; lia].
  - destruct (_ && _); [|done]. rewrite drop_0. split; [done|lia].
Qed.

(** What the peer has been sent, and what is still to be sent. *)
Definition outgoing (c : ClientInfo) : bytes := sk_wire (socket c) ++ unsent c.

(** The bytes the calls of [recv] to come deliver. *)
Definition recv_bytes (o : recv_outcome) : bytes := match o with recv_data data => data | _ => [] end.
Definition inbound (k : Socket) : bytes := concat (map recv_bytes (sk_recvs k)).

(** Nothing but the output and the progress of [send] has changed. *)
Record sent_from (c c' : ClientInfo) : Prop := {
  sf_out : outgoing c' = outgoing c;
  sf_offset : (output_offset c' <= length (output_buffer c'))%nat;
  sf_less : (length (unsent c') <= length (unsent c))%nat;
  sf_rest : exists b offset k, c' = put_output b offset (put_socket k c) /\ sk_handle k = sk_handle (socket c) /\
    sk_recvs k = sk_recvs (socket c) /\ sk_heard k = sk_heard (socket c)
}.

Lemma sent_from_refl c : (output_offset c <= length (output_buffer c))%nat -> sent_from c c.
Proof. intros Hc. split; [done..|]. exists (output_buffer c), (output_offset c), (socket c). by destruct c. Qed.

Lemma sent_from_trans c1 c2 c3 : sent_from c1 c2 -> sent_from c2 c3 -> sent_from c1 c3.
Proof.
  intros [E1 _ L1 (b1 & o1 & k1 & -> & ? & ? & ?)] [E2 O2 L2 (b2 & o2 & k2 & -> & ? & ? & ?)]. cbn [socket put_output put_socket] in *.
  split; [congruence|done|lia|]. exists b2, o2, k2. split_and!; [done|congruence..].
Qed.

(** One [send] that takes something. *)
Lemma sent_step c n k b offset :
  (output_offset c <= length (output_buffer c))%nat -> send (unsent c) (socket c) = (send_count n, k) ->
  compact_buffer (output_buffer c) (output_offset c + Z.to_nat n) = (b, offset) ->
  sent_from c (put_output b offset (put_socket k c)) /\
  (length (unsent (put_output b offset (put_socket k c))) + Z.to_nat n = length (unsent c))%nat.
Proof.
  intros Hc Es Eb. unfold send in Es. destruct (sk_sends (socket c)) as [|[m| |] rest]; simplify_eq. set (taken := Z.to_nat (Z.min m (len (unsent c)))).
  assert (taken <= length (unsent c))%nat as Ht by (unfold taken, len; lia). rewrite Nat2Z.id in *.
  assert (length (unsent c) = length (output_buffer c) - output_offset c)%nat as El by apply length_drop.
  pose proof (compact_buffer_spec (output_buffer c) (output_offset c + taken)) as Hb. fold taken in Eb. rewrite Eb in Hb. destruct Hb as [Ed Ho]; [lia|].
  assert (unsent (put_output b offset (put_socket (mkSocket (sk_handle (socket c)) (sk_recvs (socket c)) rest (sk_heard (socket c))
    (sk_wire (socket c) ++ take taken (unsent c))) c)) = drop taken (unsent c)) as Eu.
  { unfold unsent. cbn [output_buffer output_offset put_output]. by rewrite Ed, drop_drop. }
  split; [split|].
  - unfold outgoing. rewrite Eu. cbn [socket put_output put_socket sk_wire]. by rewrite <- app_assoc, take_drop.
  - exact Ho.
  - rewrite Eu, length_drop. lia.
  - by eexists _, _, _.
  - rewrite Eu, length_drop. lia.
Qed.

Lemma put_socket_same c k : sk_handle k = sk_handle (socket c) -> sk_recvs k = sk_recvs (socket c) -> sk_heard k = sk_heard (socket c) ->
  sk_wire k = sk_wire (socket c) -> (output_offset c <= length (output_buffer c))%nat -> sent_from c (put_socket k c).
Proof.
  intros E1 E2 E3 E4 Hc. split; [|done..|].
  - unfold outgoing. cbn [socket put_socket]. by rewrite E4.
  - exists (output_buffer c), (output_offset c), k. by destruct c.
Qed.

Lemma flush_loop_spec rounds : forall c, (output_offset c <= length (output_buffer c))%nat -> sent_from c (flush_loop rounds c).2.
Proof.
  induction rounds as [|rounds IH]; intros c Hc; cbn [flush_loop]; [by apply sent_from_refl|].
  destruct (_ <? _)%nat; [|by apply sent_from_refl]. destruct (send (unsent c) (socket c)) as [[n| |] k] eqn:Es.
  2,3: cbn [snd]; unfold send in Es; destruct (sk_sends (socket c)) as [|[] ?]; simplify_eq; by apply put_socket_same.
  destruct (0 <? n) eqn:En.
  - destruct (compact_buffer _ _) as [b offset] eqn:Eb. destruct (sent_step c n k b offset Hc Es Eb) as [Hs _].
    eapply sent_from_trans; [exact Hs|]. apply IH. apply Hs.
  - cbn [snd]. apply Z.ltb_ge in En. unfold send in Es. destruct (sk_sends (socket c)) as [|[] ?]; simplify_eq.
    apply put_socket_same; try done. cbn [sk_wire]. replace (Z.to_nat _) with 0%nat by lia. by rewrite take_0, app_nil_r.
Qed.

(** The rounds of [flush_rounds] are enough: more of them change nothing. *)
Lemma flush_loop_enough n : forall m c, (output_offset c <= length (output_buffer c))%nat ->
  (length (unsent c) < n)%nat -> (length (unsent c) < m)%nat -> flush_loop n c = flush_loop m c.
Proof.
  induction n as [|n IH]; intros [|m] c Hc Hn Hm; try lia. cbn [flush_loop]. destruct (_ <? _)%nat; [|done].
  destruct (send (unsent c) (socket c)) as [[k| |] sk] eqn:Es; [|done..]. destruct (Z.ltb_spec 0 k); [|done].
  destruct (compact_buffer _ _) as [b offset] eqn:Eb. destruct (sent_step c k sk b offset Hc Es Eb) as [Hs Hl].
  apply IH; [apply Hs|lia|lia].
Qed.

(** What [data] that arrived has changed. *)
Record heard_from (c : ClientInfo) (data : bytes) (c' : ClientInfo) : Prop := {
  hf_unread : unread c' = unread c ++ data;
  hf_offset : (input_offset c' <= length (buffer c'))%nat;
  hf_heard : sk_heard (socket c') = sk_heard (socket c) ++ data;
  hf_inbound : inbound (socket c) = data ++ inbound (socket c');
  hf_rest : exists b k (closed : bool), c' = mkClient k b (input_offset c) (output_buffer c) (output_offset c) (batch c) (watching_write c)
      (closed || close_after_write c) (closed || half_closed c) (processing_queued c) /\
    sk_handle k = sk_handle (socket c) /\ sk_wire k = sk_wire (socket c)
}.

Lemma heard_from_trans c1 d1 c2 d2 c3 : heard_from c1 d1 c2 -> heard_from c2 d2 c3 -> heard_from c1 (d1 ++ d2) c3.
Proof.
  intros [U1 _ H1 I1 (b1 & k1 & cl1 & E1 & ? & ?)] [U2 O2 H2 I2 (b2 & k2 & cl2 & E2 & ? & ?)]. split.
  - by rewrite U2, U1, app_assoc.
  - done.
  - by rewrite H2, H1, app_assoc.
  - by rewrite I1, I2, app_assoc.
  - subst c2 c3. cbn in *. exists b2, k2, (cl2 || cl1). cbn. rewrite <- !orb_assoc. split_and!; [done|congruence..].
Qed.

(** One [recv]: an end of the stream, some bytes, or nothing. *)
Lemma receive_data c data k : (input_offset c <= length (buffer c))%nat ->
  receive read_chunk_size (socket c) = (recv_data data, k) -> heard_from c data (put_input (buffer c ++ data) (input_offset c) (put_socket k c)).
Proof.
  intros Hc Er. unfold receive in Er. destruct (sk_recvs (socket c)) as [|[d| |] rest] eqn:Es; simplify_eq. split.
  - unfold unread. cbn [buffer input_offset put_input]. by rewrite drop_app_le.
  - cbn. rewrite length_app. lia.
  - done.
  - unfold inbound. rewrite Es. cbn. rewrite <- (take_drop read_chunk_size d) at 1. rewrite <- app_assoc. f_equal.
    by destruct (bool_decide_reflect (drop read_chunk_size d = [])) as [->|].
  - eexists _, _, false. split; [reflexivity|done].
Qed.

Lemma receive_nothing c o k : (input_offset c <= length (buffer c))%nat ->
  receive read_chunk_size (socket c) = (o, k) -> (forall data, o <> recv_data data) -> heard_from c [] (put_socket k c).
Proof.
  intros Hc Er Ho. assert (inbound (socket c) = inbound k /\ sk_handle k = sk_handle (socket c) /\ sk_wire k = sk_wire (socket c) /\
    sk_heard k = sk_heard (socket c)) as (E1 & E2 & E3 & E4).
  { unfold receive, inbound in *. destruct (sk_recvs (socket c)) as [|[d| |] rest] eqn:Es; simplify_eq; [by rewrite Es|by destruct (Ho (take read_chunk_size d))|done..]. }
  split; try rewrite app_nil_r; try done. exists (buffer c), k, false. by destruct c.
Qed.

Lemma close_heard c data c' : heard_from c data c' -> heard_from c data (put_closing true (put_half_closed true c')).
Proof.
  intros [U O Hh I (b & k & cl & -> & E1 & E2)]. cbn in *. split; [done..|]. by exists b, k, true.
Qed.

Lemma read_loop_spec rounds : forall c, (input_offset c <= length (buffer c))%nat -> (length (unread c) <= max_input_buffer_size)%nat ->
  let '(r, c') := read_loop rounds c in
  exists data, heard_from c data c' /\
    (r = read_oversized -> (max_input_buffer_size < length (unread c'))%nat) /\
    (r <> read_oversized -> (length (unread c') <= max_input_buffer_size)%nat).
Proof.
  induction rounds as [|rounds IH]; intros c Hc Hn; cbn [read_loop].
  { exists []. split; [|done]. split; rewrite ?app_nil_r; try done. exists (buffer c), (socket c), false. by destruct c. }
  destruct (receive read_chunk_size (socket c)) as [o k] eqn:Er. destruct o as [data| |].
  2,3: exists []; pose proof (receive_nothing c _ k Hc Er ltac:(done)) as Hh; (split; [exact Hh|]; split; [done|intros _; by rewrite (hf_unread _ _ _ Hh), app_nil_r]).
  pose proof (receive_data c data k Hc Er) as Hh. destruct data as [|x data].
  { exists []. assert (heard_from c [] (put_socket k c)) as Hh'.
    { destruct Hh as [U O Hh I R]. destruct R as (b & k' & cl & E & E2).
      assert (k' = k) as -> by by apply (f_equal socket) in E. split; try done; [by rewrite app_nil_r|]. exists (buffer c), k, false. by destruct c. }
    split; [by apply close_heard|]. split; [done|]. intros _. unfold unread in *. cbn in *. exact Hn. }
  set (d := x :: data) in *. set (c1 := put_input (buffer c ++ d) (input_offset c) (put_socket k c)) in *.
  assert (length (unread c1) = length (buffer c1) - input_offset c1)%nat as El by apply length_drop.
  destruct (Nat.ltb_spec max_input_buffer_size (length (buffer c1) - input_offset c1)%nat).
  { exists d. split; [exact Hh|]. split; [intros _; lia|done]. }
  destruct (_ <? _)%nat.
  { exists d. split; [exact Hh|]. split; [done|intros _; lia]. }
  specialize (IH c1 (hf_offset _ _ _ Hh) ltac:(lia)). destruct (read_loop rounds c1) as [r c']. destruct IH as (d2 & Hh2 & Hr).
  exists (d ++ d2). split; [by eapply heard_from_trans|exact Hr].
Qed.

(** Seventeen rounds of 64 KiB are enough: more of them change nothing. *)
Lemma read_loop_enough n : forall m c, (input_offset c <= length (buffer c))%nat ->
  (max_input_buffer_size < length (unread c) + n * read_chunk_size)%nat -> (max_input_buffer_size < length (unread c) + m * read_chunk_size)%nat ->
  (length (unread c) <= max_input_buffer_size)%nat -> read_loop n c = read_loop m c.
Proof.
  induction n as [|n IH]; intros [|m] c Hc Hn Hm Hle; try lia. cbn [read_loop].
  destruct (receive read_chunk_size (socket c)) as [o k] eqn:Er. destruct o as [data| |]; [|done..].
  pose proof (receive_data c data k Hc Er) as Hh. destruct data as [|x data]; [done|]. set (d := x :: data) in *.
  set (c1 := put_input (buffer c ++ d) (input_offset c) (put_socket k c)) in *.
  assert (length (unread c1) = length (buffer c1) - input_offset c1)%nat as El by apply length_drop.
  destruct (Nat.ltb_spec max_input_buffer_size (length (buffer c1) - input_offset c1)%nat); [done|].
  destruct (Nat.ltb_spec (length d) read_chunk_size); [done|].
  assert (length (unread c1) = length (unread c) + length d)%nat as Ed by by rewrite (hf_unread _ _ _ Hh), length_app.
  apply IH; [apply Hh|lia..].
Qed.

Lemma read_rounds_enough c n : (input_offset c <= length (buffer c))%nat -> (length (unread c) <= max_input_buffer_size)%nat ->
  (read_rounds <= n)%nat -> read_loop n c = read_loop read_rounds c.
Proof. intros Hc Hle Hn. pose proof limits_Z as (E1 & _ & E2 & _). unfold read_rounds in *. apply read_loop_enough; [done|nia..|done]. Qed.

(** ** Parsing a batch *)

Section parse.

Variable little_endian : bool.

(** A command as the parser leaves it. *)
Definition classified (c : Command) : Prop :=
  cmd_wf c /\ classified_id c = (classify_command little_endian (cmd_name c)).1.

Definition writes (c : Command) : bool := (classify_command little_endian (cmd_name c)).2.

Lemma read_or_write name : (classify_command little_endian name).2 = false -> is_read (classify_command little_endian name).1 = true.
Proof.
  rewrite classify_eq. unfold classify_reference, command_table. cbn [fmap list_fmap prod_map fst snd id assoc].
  repeat (case_bool_decide; [done|]). done.
Qed.

Lemma classified_marked cs : Forall classified cs -> marked cs (existsb writes cs).
Proof.
  intros Hc Hw. apply Forall_forall. intros c Hin. rewrite Forall_forall in Hc. destruct (Hc c Hin) as [_ ->]. apply read_or_write.
  destruct (classify_command little_endian (cmd_name c)).2 eqn:E; [|done]. rewrite <- Hw. symmetry. apply existsb_exists.
  exists c. split; [by apply list_elem_of_In|exact E].
Qed.

(** Where the loop ends: an error, or no room, or nothing that is complete. *)
Definition batch_end (full : bool) (c : ClientInfo) (err : option ErrorCode) : Prop :=
  match err with
  | Some code => parse_command (unread c) = Unexpected code /\ is_incomplete_resp_error code = false
  | None => full = true \/ undecided (unread c)
  end.

Record parsed (room count : nat) (has_write : bool) (c : ClientInfo) (count' : nat) (has_write' : bool) (c' : ClientInfo) (new : list Command) : Prop := {
  pb_new : take count' (batch c') = take count (batch c) ++ new;
  pb_count : count' = (count + length new)%nat;
  pb_room : (length new <= room)%nat;
  pb_decodes : decodes (unread c) (map request_of new) (unread c');
  pb_class : Forall classified new;
  pb_writes : has_write' = has_write || existsb writes new;
  pb_rest : exists l offset, c' = put_input (buffer c) offset (put_batch l c) /\ (offset <= length (buffer c))%nat /\
    Forall cmd_wf l /\ (length l <= count + room)%nat
}.

Lemma set_classified_request id c : request_of (set_classified id c) = request_of c /\ bytes_consumed (set_classified id c) = bytes_consumed c.
Proof. done. Qed.

Lemma slot_ready (count : nat) l : Forall cmd_wf l -> (count <= length l)%nat ->
  let slots := if (count =? length l)%nat then l ++ [empty_command] else l in
  Forall cmd_wf slots /\ (count < length slots)%nat /\ take count slots = take count l /\ (length slots <= Nat.max (S count) (length l))%nat.
Proof.
  intros Hl Hle. cbv zeta. destruct (Nat.eqb_spec count (length l)) as [->|Hne].
  - rewrite length_app, take_app_length, take_ge by done. cbn. split_and!; [|lia|done|lia].
    apply Forall_app. split; [done|]. apply Forall_singleton, ArgumentListFacts.empty_wf.
  - split_and!; [done|lia|done|lia].
Qed.

Lemma parsed_none room count has_write c l : (input_offset c <= length (buffer c))%nat -> Forall cmd_wf l -> (length l <= count + room)%nat ->
  take count l = take count (batch c) -> parsed room count has_write c count has_write (put_batch l c) [].
Proof.
  intros Hc Hl Hn Et. split; cbn [length map existsb].
  - by rewrite app_nil_r.
  - lia.
  - lia.
  - constructor.
  - by apply Forall_nil.
  - by rewrite orb_false_r.
  - by exists l, (input_offset c).
Qed.

Lemma parsed_stop room count has_write c : (input_offset c <= length (buffer c))%nat -> Forall cmd_wf (batch c) ->
  (length (batch c) <= count + room)%nat -> parsed room count has_write c count has_write c [].
Proof. intros Hc Hl Hn. assert (put_batch (batch c) c = c) as E by by destruct c. rewrite <- E at 2. by apply parsed_none. Qed.

(** One more command, and those after it. *)
Lemma parsed_cons room count has_write c slots cmd c0 count' has_write' c' new :
  let cmd' := set_classified (classify_command little_endian (cmd_name cmd)).1 cmd in
  parse_command (unread c) = Ok c0 -> same_request cmd c0 ->
  (count < length slots)%nat -> take count slots = take count (batch c) ->
  parsed room (S count) (has_write || writes cmd)
    (put_input (buffer c) (input_offset c + bytes_consumed cmd) (put_batch (<[count := cmd']> slots) c)) count' has_write' c' new ->
  parsed (S room) count has_write c count' has_write' c' (cmd' :: new).
Proof.
  intros cmd' Ec0 (En & Ea & Eb & Hwf & _) Hlen Htake [P1 P2 P3 P4 P5 P6 (l' & offset & -> & P7 & P8 & P9)].
  set (l := <[count := cmd']> slots) in *.
  assert (take (S count) l = take count (batch c) ++ [cmd']) as Et.
  { unfold l. rewrite (take_S_r _ _ cmd') by (by apply list_lookup_insert_eq). by rewrite take_insert_ge, Htake. }
  cbn [batch put_input put_batch buffer] in *. split; cbn [length map existsb].
  - cbn [batch put_input put_batch]. rewrite P1, Et. by rewrite <- app_assoc.
  - lia.
  - lia.
  - replace (request_of cmd') with (request_of c0) by (unfold request_of, cmd', arguments in *; cbn; by rewrite En, Ea).
    econstructor; [exact Ec0|]. unfold unread in *. cbn [buffer input_offset put_input put_batch] in *. rewrite <- Eb, drop_drop. exact P4.
  - constructor; [by split|exact P5].
  - rewrite P6. by rewrite orb_assoc.
  - exists l', offset. split; [done|]. split; [done|]. split; [done|lia].
Qed.

Lemma parse_batch_spec room : forall count has_write c,
  (input_offset c <= length (buffer c))%nat -> Forall cmd_wf (batch c) -> (count <= length (batch c) <= count + room)%nat ->
  let '(c', count', has_write', err) := parse_batch little_endian room count has_write c in
  exists new, parsed room count has_write c count' has_write' c' new /\ batch_end (length new =? room)%nat c' err.
Proof.
  induction room as [|room IH]; intros count hw c Hc Hl Hn; cbn [parse_batch].
  { exists []. split; [apply parsed_stop; [done..|lia]|by left]. }
  destruct (Nat.ltb_spec (input_offset c) (length (buffer c))) as [Hlt|Hge].
  2:{ exists []. split; [apply parsed_stop; [done..|lia]|]. right. left. apply drop_ge. lia. }
  destruct (slot_ready count (batch c) Hl ltac:(lia)) as (Hsl & Hlen & Htake & Hmax). set (slots := if (count =? _)%nat then _ else _) in *.
  destruct (lookup_lt_is_Some_2 slots count Hlen) as [slot Hslot]. rewrite Hslot. change (default empty_command (Some slot)) with slot. cbv zeta.
  assert (cmd_wf slot) as Hwf by (rewrite Forall_forall in Hsl; apply Hsl; by eapply list_elem_of_lookup_2).
  destruct (into_command (unread c) slot Hwf) as [Hwf' Hp]. destruct (parse_command_into (unread c) slot) as [[u|code] cmd] eqn:Ep; cbn [snd] in Hwf'.
  - destruct Hp as (c0 & Ec0 & Hsame). pose proof Hsame as (_ & _ & Eb & _). destruct (parse_command_bounds _ _ Ec0) as (Hbounds & _ & _).
    rewrite <- Eb in Hbounds. assert (length (unread c) = length (buffer c) - input_offset c)%nat as Eu by apply length_drop.
    destruct (classify_command little_endian (cmd_name cmd)) as [id w] eqn:Ecl.
    set (c1 := put_input _ _ _). specialize (IH (S count) (hw || w) c1).
    assert (length (batch c1) = length slots) as El by (cbn; apply length_insert).
    specialize (IH ltac:(cbn; lia) ltac:(by apply Forall_insert) ltac:(lia)). destruct (parse_batch _ room _ _ c1) as [[[c' count'] hw'] err].
    destruct IH as (new & Hpn & He). exists (set_classified id cmd :: new). split; [|exact He].
    pose proof (parsed_cons room count hw c slots cmd c0 count' hw' c' new) as Hcons. cbv zeta in Hcons.
    unfold writes in Hcons. rewrite Ecl in Hcons. cbn [fst snd] in Hcons. by apply Hcons.
  - exists []. split; [apply parsed_none; [done|by apply Forall_insert|rewrite length_insert; lia|by rewrite take_insert_ge by lia]|].
    unfold batch_end. change (unread (put_batch _ c)) with (unread c).
    destruct (is_incomplete_resp_error code) eqn:Ei; [right; right; by exists code|by split].
Qed.

End parse.

(** ** What the server relies on *)

Section serving.

Context {A P : Type} `{NodeAllocator A} `{!Platform A} `{!Measures A} `{Poller P} `{Descriptors}.
Context (little_endian : bool).

(** The tick of the log's own thread. *)
Definition log_tick (db : Database A) : Database A := snd (on_wal_ flusher_tick db).

(** What the database and the maintenance thread promise: an invariant; which
    requests are fit, given streams of bytes that are; and how a batch of fit
    commands is answered. *)
Class Backend := {
  bk_holds : Database A * bool -> Prop;
  bk_fit : Request -> Prop;
  bk_stream : bytes -> Prop;
  bk_answered : list Command -> bytes -> Prop;
  bk_stream_drop a b : bk_stream (a ++ b) -> bk_stream b;
  bk_stream_fit input more c :
    bk_stream (input ++ more) -> (length input <= max_input_buffer_size)%nat -> parse_command input = Ok c -> bk_fit (request_of c);
  bk_batch stats cs has_write d out :
    bk_holds d -> Forall (classified little_endian) cs -> Forall (fun c => bk_fit (request_of c)) cs -> marked cs has_write ->
    wp (execute_batch stats cs has_write)
      (fun _ s => bk_holds s.1 /\ exists text, bk_answered cs text /\ s.2 = out ++ text)
      (fun _ s => bk_holds s.1) (d, out);
  bk_maintain d : bk_holds d -> bk_holds (maintain d);
  bk_tick d : bk_holds d -> bk_holds (log_tick d.1, d.2);
  bk_clock d : bk_holds d -> bk_holds (snd (now_ms d.1), d.2)
}.

Context {BK : Backend}.

(** All the replies to some requests, batch by batch. *)
Inductive replied : list Request -> bytes -> Prop :=
| replied_nil : replied [] []
| replied_more requests text cs text' :
    replied requests text -> bk_answered cs text' -> replied (requests ++ map request_of cs) (text ++ text').

(** Input the server gives up on, and what it says. *)
Definition refused (rest message : bytes) : Prop :=
  (exists code, parse_command rest = Unexpected code /\ is_incomplete_resp_error code = false /\
     message = error_message protocol_error_prefix ++ error_message code) \/
  (max_input_buffer_size < length rest)%nat /\ message = error_message request_too_large.

(** What a client has been sent, or will be: the replies to the requests its
    stream begins with, and when its input was refused the error after them. *)
Definition talk (c : ClientInfo) : Prop :=
  exists requests text, replied requests text /\
    ((decodes (sk_heard (socket c)) requests (unread c) /\ outgoing c = text) \/
     (close_after_write c = true /\ exists h0 h1 rest message more, sk_heard (socket c) = h0 ++ h1 /\
        decodes h0 requests rest /\ refused rest message /\ outgoing c = text ++ encode_reply (RError message) ++ more)).

(** What holds of a client between handlers; [W] are the sockets that are
    watched, and [Q] the clients that are queued. *)
Record client_ok (W : Watched) (Q : list Z) (id : Z) (c : ClientInfo) : Prop := {
  co_input : (input_offset c <= length (buffer c))%nat;
  co_output : (output_offset c <= length (output_buffer c))%nat;
  co_unread : (length (unread c) <= max_input_buffer_size)%nat;
  co_unsent : (length (unsent c) <= max_output_buffer_size)%nat;
  co_batch : Forall cmd_wf (batch c) /\ (length (batch c) <= batch_limit)%nat;
  co_watched : exists readable, W !! sk_handle (socket c) = Some (id, readable, watching_write c) /\ (half_closed c = false -> readable = true);
  co_half : half_closed c = true -> close_after_write c = true;
  co_writing : watching_write c = true <-> unsent c <> [];
  co_queued : processing_queued c = true -> id ∈ Q;
  co_closing : close_after_write c = true -> unsent c <> [] \/ processing_queued c = true;
  co_parsed : processing_queued c = false -> undecided (unread c);
  co_stream : bk_stream (unread c ++ inbound (socket c));
  co_talk : talk c
}.

Definition good_accept (o : accept_outcome) : Prop :=
  match o with accepted recvs _ _ => bk_stream (concat (map recv_bytes recvs)) | _ => True end.

(** What holds of the server but for its clients. *)
Record server_base (s : Server A P) : Prop := {
  sb_holds : bk_holds (database s, maintenance_failed s);
  sb_poller : pl_ok (poller s);
  sb_ids id : is_Some (clients s !! id) -> 0 <= id <= int32_max;
  sb_size : (size (clients s) <= max_clients)%nat;
  sb_next : 0 <= next_client_id s <= int32_max;
  sb_listener : pl_watched (poller s) !! listen_socket s = Some (listener_token, true, false);
  sb_known h t r w : pl_watched (poller s) !! h = Some (t, r, w) ->
    h = listen_socket s \/ exists c, clients s !! t = Some c /\ sk_handle (socket c) = h;
  sb_accepts : Forall good_accept (accepts s)
}.

Definition server_ok (s : Server A P) : Prop :=
  server_base s /\ forall id c, clients s !! id = Some c -> client_ok (pl_watched (poller s)) (pending_clients s) id c.

(** In the middle of a handler for the client [id], which is [c]: all the
    others are in order, and its socket is watched. *)
Record holding (id : Z) (c : ClientInfo) (s : Server A P) : Prop := {
  ho_base : server_base s;
  ho_here : clients s !! id = Some c;
  ho_others i d : i <> id -> clients s !! i = Some d -> client_ok (pl_watched (poller s)) (pending_clients s) i d;
  ho_watched : exists readable, pl_watched (poller s) !! sk_handle (socket c) = Some (id, readable, watching_write c) /\
    (half_closed c = false -> readable = true)
}.

Lemma ok_holding s id c : server_ok s -> clients s !! id = Some c ->
  holding id c s /\ client_ok (pl_watched (poller s)) (pending_clients s) id c.
Proof. intros [Hb Hc] Hid. pose proof (Hc id c Hid) as Hok. split; [|exact Hok]. split; [done|done|by intros; apply Hc|apply Hok]. Qed.

Lemma holding_ok s id c : holding id c s -> client_ok (pl_watched (poller s)) (pending_clients s) id c -> server_ok s.
Proof.
  intros Hh Hc. split; [apply Hh|]. intros i d Hi. destruct (decide (i = id)) as [->|Hne]; [|by apply (ho_others _ _ _ Hh)].
  rewrite (ho_here _ _ _ Hh) in Hi. by injection Hi as <-.
Qed.

(** The queue may grow. *)
Lemma client_ok_queue W Q Q' id c : (id ∈ Q -> id ∈ Q') -> client_ok W Q id c -> client_ok W Q' id c.
Proof. intros HQ Hc. destruct Hc. constructor; try assumption. auto. Qed.

(** Another socket may be watched differently. *)
Lemma client_ok_watched W W' Q id c : W' !! sk_handle (socket c) = W !! sk_handle (socket c) -> client_ok W Q id c -> client_ok W' Q id c.
Proof. intros E Hc. destruct Hc as [? ? ? ? ? Hw]. constructor; try assumption. by rewrite E. Qed.

(** Two clients have two sockets. *)
Lemma other_handle s id c i d : holding id c s -> i <> id -> clients s !! i = Some d -> sk_handle (socket d) <> sk_handle (socket c).
Proof.
  intros Hh Hne Hd E. destruct (co_watched _ _ _ _ (ho_others _ _ _ Hh i d Hne Hd)) as (r & Hr & _).
  destruct (ho_watched _ _ _ Hh) as (r' & Hr' & _). rewrite E in Hr. congruence.
Qed.

Lemma holding_not_listener s id c : holding id c s -> sk_handle (socket c) <> listen_socket s.
Proof.
  intros Hh E. destruct (ho_watched _ _ _ Hh) as (r & Hr & _). rewrite E, (sb_listener _ (ho_base _ _ _ Hh)) in Hr. injection Hr as Hid _ _.
  pose proof (sb_ids _ (ho_base _ _ _ Hh) id ltac:(rewrite (ho_here _ _ _ Hh); by eexists)). unfold listener_token in Hid. lia.
Qed.

Definition broken_off (s : Server A P) : Prop := bk_holds (database s, maintenance_failed s).

Lemma with_client_wp id c (k : ClientInfo -> M (Server A P) unit) Q E s :
  clients s !! id = Some c -> wp (k c) Q E s -> wp (with_client id k) Q E s.
Proof. intros Hc Hk. apply wp_bind, wp_get. by rewrite Hc. Qed.

Lemma no_client_wp id (k : ClientInfo -> M (Server A P) unit) (Q : unit -> Server A P -> Prop) E s :
  clients s !! id = None -> Q tt s -> wp (with_client id k) Q E s.
Proof. intros Hc HQ. apply wp_bind, wp_get. by rewrite Hc. Qed.

Lemma put_holding id c c' s :
  holding id c s -> sk_handle (socket c') = sk_handle (socket c) -> watching_write c' = watching_write c ->
  (half_closed c' = false -> half_closed c = false) -> holding id c' (put_clients (<[id := c']> (clients s)) s).
Proof.
  intros Hh E1 E2 E3. pose proof (ho_here _ _ _ Hh) as Hc. split.
  - destruct (ho_base _ _ _ Hh) as [B1 B2 B3 B4 B5 B6 B7 B8]. constructor; try assumption; cbn [clients put_clients poller listen_socket].
    + intros i Hi. apply B3. destruct (decide (i = id)) as [->|]; [by rewrite Hc; eexists|by rewrite lookup_insert_ne in Hi].
    + by rewrite map_size_insert_Some.
    + intros h t r w Hw. destruct (B7 h t r w Hw) as [->|(d & Hd & <-)]; [by left|right]. destruct (decide (t = id)) as [->|Hne].
      * exists c'. rewrite lookup_insert_eq. split; [done|]. congruence.
      * exists d. by rewrite lookup_insert_ne.
  - apply lookup_insert_eq.
  - intros i d Hne Hd. cbn [clients put_clients] in Hd. rewrite lookup_insert_ne in Hd by done. by apply (ho_others _ _ _ Hh).
  - cbn. destruct (ho_watched _ _ _ Hh) as (r & Hr & Hhalf). exists r. rewrite E1, E2. split; [exact Hr|]. auto.
Qed.

(** The queue may grow, and the counters and the list of connections to
    accept may change. *)
Lemma base_pending l s : server_base s -> server_base (put_pending l s).
Proof. by intros []. Qed.

Lemma base_disconnects i o s : server_base s -> server_base (put_disconnects i o s).
Proof. by intros []. Qed.

Lemma pending_holding id c l s : (forall i, i ∈ pending_clients s -> i ∈ l) -> holding id c s -> holding id c (put_pending l s).
Proof.
  intros Hl Hh. split; [by apply base_pending, Hh|exact (ho_here _ _ _ Hh)| |exact (ho_watched _ _ _ Hh)].
  intros i d Hne Hd. eapply client_ok_queue; [exact (Hl i)|by apply (ho_others _ _ _ Hh)].
Qed.

Lemma count_holding id c i o s : holding id c s -> holding id c (put_disconnects i o s).
Proof. intros Hh. split; [by apply base_disconnects, Hh|exact (ho_here _ _ _ Hh)|exact (ho_others _ _ _ Hh)|exact (ho_watched _ _ _ Hh)]. Qed.

Lemma database_holding id c d s : holding id c s -> bk_holds d -> holding id c (put_database d s).
Proof. intros Hh Hd. split; [|exact (ho_here _ _ _ Hh)|exact (ho_others _ _ _ Hh)|exact (ho_watched _ _ _ Hh)]. destruct (ho_base _ _ _ Hh). constructor; try assumption. by destruct d. Qed.

(** [SocketSystem::watch] for the client at hand, and what goes with it. *)
Lemma rewatch_wp id c w s : holding id c s ->
  wp (do! watch (sk_handle (socket c)) id (negb (half_closed c)) w in put_client id (put_watching w c))
    (fun _ s' => holding id (put_watching w c) s' /\ pending_clients s' = pending_clients s) (fun _ => broken_off) s.
Proof.
  intros Hh. pose proof (ho_base _ _ _ Hh) as HB. pose proof (ho_here _ _ _ Hh) as Hc. apply wp_bind, wp_zoom.
  assert (is_int32 id) as Hid.
  { pose proof (sb_ids _ HB id ltac:(rewrite Hc; by eexists)) as Hr. unfold is_int32, int32_max in *. lia. }
  assert (forall t r0 w0, pl_watched (poller s) !! sk_handle (socket c) = Some (t, r0, w0) -> t = id) as Ht.
  { intros t r0 w0 Et. destruct (ho_watched _ _ _ Hh) as (r & Hr & _). congruence. }
  eapply wp_mono; [exact (pl_watch_spec (sk_handle (socket c)) id (negb (half_closed c)) w (poller s) (sb_poller _ HB) Hid Ht)|..].
  2:{ intros e p' _. apply HB. }
  intros u p' [Hok' Ew]. apply wp_modify. split; [|done]. split.
  - destruct HB as [B1 B2 B3 B4 B5 B6 B7 B8]. constructor; try assumption; cbn [clients put_clients put_poller poller listen_socket]; try rewrite Ew.
    + intros i Hi. apply B3. destruct (decide (i = id)) as [->|]; [by rewrite Hc; eexists|by rewrite lookup_insert_ne in Hi].
    + by rewrite map_size_insert_Some.
    + rewrite lookup_insert_ne by (by eapply holding_not_listener). exact B6.
    + intros h t r' w' Hw. destruct (decide (h = sk_handle (socket c))) as [->|Hne].
      * rewrite lookup_insert_eq in Hw. injection Hw as <- _ _. right. exists (put_watching w c). by rewrite lookup_insert_eq.
      * rewrite lookup_insert_ne in Hw by done. destruct (B7 h t r' w' Hw) as [->|(d & Hd & E)]; [by left|right].
        exists d. rewrite lookup_insert_ne; [done|]. intros ->. congruence.
  - apply lookup_insert_eq.
  - intros i d Hne Hd. cbn [clients put_clients put_poller poller pending_clients] in *. rewrite lookup_insert_ne in Hd by done.
    eapply client_ok_watched; [|by apply (ho_others _ _ _ Hh)]. rewrite Ew, lookup_insert_ne; [done|].
    intros E. by eapply (other_handle s id c i d Hh).
  - cbn. rewrite Ew, lookup_insert_eq. eexists. split; [done|]. by intros ->.
Qed.

Lemma remove_wp id c s : holding id c s ->
  wp (remove_client id) (fun _ s' => server_ok s' /\ clients s' = delete id (clients s)) (fun _ _ => False) s.
Proof.
  intros Hh. pose proof (ho_base _ _ _ Hh) as HB. pose proof (ho_here _ _ _ Hh) as Hc. eapply with_client_wp; [exact Hc|].
  apply wp_bind, wp_modify, wp_modify. split; [|done].
  destruct (pl_unwatch_spec (sk_handle (socket c)) (poller s) (sb_poller _ HB)) as [Hok Ew].
  assert (forall i d, delete id (clients s) !! i = Some d -> i <> id /\ clients s !! i = Some d) as Hdel.
  { intros i d Hd. apply lookup_delete_Some in Hd as [Hne Hd]. split; [congruence|done]. }
  split.
  - destruct HB as [B1 B2 B3 B4 B5 B6 B7 B8]. constructor; try assumption; cbn [clients put_clients put_poller poller listen_socket]; try rewrite Ew.
    + intros i [d Hi]. apply B3. destruct (Hdel i d Hi) as [_ ->]. by eexists.
    + rewrite map_size_delete_Some by by eexists. lia.
    + rewrite lookup_delete_ne by (by eapply holding_not_listener). exact B6.
    + intros h t r w Hw. apply lookup_delete_Some in Hw as [Hne Hw]. destruct (B7 h t r w Hw) as [->|(d & Hd & E)]; [by left|right].
      exists d. rewrite lookup_delete_ne; [done|]. intros ->. congruence.
  - intros i d Hd. cbn [clients put_clients put_poller poller pending_clients] in *. destruct (Hdel i d Hd) as [Hne Hd'].
    eapply client_ok_watched; [|by apply (ho_others _ _ _ Hh)]. rewrite Ew, lookup_delete_ne; [done|].
    intros E. by eapply (other_handle s id c i d Hh).
Qed.

Lemma request_write_wp id c s : holding id c s ->
  wp (request_write id)
    (fun _ s' => holding id (put_watching true c) s' /\ pending_clients s' = pending_clients s) (fun _ => broken_off) s.
Proof.
  intros Hh. eapply with_client_wp; [apply Hh|]. destruct (watching_write c) eqn:Ew; [|by apply rewatch_wp].
  apply wp_ret. assert (put_watching true c = c) as -> by (destruct c; cbn in *; by subst). done.
Qed.

(** ** Handlers *)

(** What holds of a client in the middle of its handler. *)
Record client_mid (Q : list Z) (id : Z) (c : ClientInfo) : Prop := {
  cm_input : (input_offset c <= length (buffer c))%nat;
  cm_output : (output_offset c <= length (output_buffer c))%nat;
  cm_unread : (length (unread c) <= max_input_buffer_size)%nat;
  cm_batch : Forall cmd_wf (batch c) /\ (length (batch c) <= batch_limit)%nat;
  cm_half : half_closed c = true -> close_after_write c = true;
  cm_writing : watching_write c = true -> unsent c <> [];
  cm_queued : processing_queued c = true -> id ∈ Q;
  cm_stream : bk_stream (unread c ++ inbound (socket c));
  cm_talk : talk c
}.

Lemma ok_mid W Q id c : client_ok W Q id c -> client_mid Q id c.
Proof. intros []. constructor; try assumption. by apply co_writing0. Qed.

Lemma mid_ok s id c : holding id c s -> client_mid (pending_clients s) id c ->
  (length (unsent c) <= max_output_buffer_size)%nat -> (unsent c <> [] -> watching_write c = true) ->
  (close_after_write c = true -> unsent c <> [] \/ processing_queued c = true) ->
  (processing_queued c = false -> undecided (unread c)) -> server_ok s.
Proof.
  intros Hh [] Hn Hw Hcl Hp. eapply holding_ok; [exact Hh|]. constructor; try assumption; [exact (ho_watched _ _ _ Hh)|by split].
Qed.

Lemma put_watching_mid Q id b c : (b = true -> unsent c <> []) -> client_mid Q id c -> client_mid Q id (put_watching b c).
Proof. intros Hb []. constructor; assumption. Qed.

Lemma talk_same c c' : sk_heard (socket c') = sk_heard (socket c) -> unread c' = unread c -> outgoing c' = outgoing c ->
  (close_after_write c = true -> close_after_write c' = true) -> talk c -> talk c'.
Proof.
  intros E1 E2 E3 E4 (requests & text & Hr & Ht). exists requests, text. split; [exact Hr|]. rewrite E1, E2, E3.
  destruct Ht as [Ht|[Hcl Ht]]; [by left|right; auto].
Qed.

Lemma put_watching_same b c : watching_write c = b -> put_watching b c = c.
Proof. intros <-. by destruct c. Qed.

Lemma sent_mid Q id b c c' : sent_from c c' -> client_mid Q id c -> (b = true -> unsent c' <> []) -> client_mid Q id (put_watching b c').
Proof.
  intros [Eo Ho _ (b' & offset & k & -> & E1 & E2 & E3)] [] Hw. assert (inbound k = inbound (socket c)) as Ei by (unfold inbound; by rewrite E2).
  constructor; try assumption.
  - unfold unread in *. cbn [socket buffer input_offset put_output put_socket put_watching] in *. by rewrite Ei.
  - eapply talk_same; [..|exact cm_talk0]; [exact E3|done|exact Eo|done].
Qed.

(** After [flush_client]: the client is gone, or this is what it became. *)
Definition flushed (c : ClientInfo) (id : Z) (s s' : Server A P) : Prop :=
  (server_ok s' /\ clients s' !! id = None) \/
  exists c', holding id c' s' /\ pending_clients s' = pending_clients s /\ client_mid (pending_clients s) id c' /\
    (length (unsent c') <= length (unsent c))%nat /\ unread c' = unread c /\ processing_queued c' = processing_queued c /\
    close_after_write c' = close_after_write c /\
    (unsent c' = [] -> close_after_write c' = true -> processing_queued c' = true) /\
    (unsent c' <> [] -> watching_write c' = watching_write c).

Lemma unsent_nil c : (output_offset c <= length (output_buffer c))%nat ->
  (output_offset c <? length (output_buffer c))%nat = false <-> unsent c = [].
Proof.
  intros Hc. rewrite Nat.ltb_ge. unfold unsent. split; [intros; apply drop_ge; lia|].
  intros E. apply (f_equal length) in E. rewrite length_drop in E. cbn in E. lia.
Qed.

Lemma unread_nil c : (input_offset c <= length (buffer c))%nat ->
  (input_offset c <? length (buffer c))%nat = false <-> unread c = [].
Proof.
  intros Hc. rewrite Nat.ltb_ge. unfold unread. split; [intros; apply drop_ge; lia|].
  intros E. apply (f_equal length) in E. rewrite length_drop in E. cbn in E. lia.
Qed.

Lemma gone_flushed id c0 c s0 s : holding id c s -> wp (remove_client id) (fun _ => flushed c0 id s0) (fun _ => broken_off) s.
Proof.
  intros Hh. eapply wp_mono; [by eapply remove_wp| |done]. intros u s' [Hok E]. left. split; [exact Hok|]. rewrite E. apply lookup_delete_eq.
Qed.

Lemma stays_flushed id b c c1 s0 s : holding id (put_watching b c1) s -> pending_clients s = pending_clients s0 ->
  client_mid (pending_clients s0) id c -> sent_from c c1 -> (b = true -> unsent c1 <> []) ->
  (unsent c1 = [] -> close_after_write c1 = true -> processing_queued c1 = true) -> (unsent c1 <> [] -> b = watching_write c) -> flushed c id s0 s.
Proof.
  intros Hh Ep Hm Hs Hb Hcl Hw. right. exists (put_watching b c1). pose proof (sf_less _ _ Hs) as Hless.
  split; [exact Hh|]. split; [exact Ep|]. split; [by eapply sent_mid|]. split; [exact Hless|]. destruct Hs as [_ _ _ (b' & o & k & -> & _)].
  split_and!; done.
Qed.

Lemma flush_client_wp id c s : holding id c s -> client_mid (pending_clients s) id c ->
  wp (flush_client id) (fun _ => flushed c id s) (fun _ => broken_off) s.
Proof.
  intros Hh Hm. eapply with_client_wp; [apply Hh|]. pose proof (flush_loop_spec (flush_rounds c) c (cm_output _ _ _ Hm)) as Hs.
  destruct (flush_loop (flush_rounds c) c) as [r c1]. cbn [snd] in Hs. apply wp_bind, wp_modify.
  assert (holding id c1 (put_clients (<[id := c1]> (clients s)) s) /\ watching_write c1 = watching_write c) as [Hh1 Ew].
  { destruct (sf_rest _ _ Hs) as (b & offset & k & -> & Ek & _). split; [|done]. by apply (put_holding id c). }
  set (s1 := put_clients _ s) in *. destruct r; [|by eapply gone_flushed]. destruct (output_offset c1 <? length (output_buffer c1))%nat eqn:Eo.
  - assert (unsent c1 <> []) as Hne by (intros E; apply (unsent_nil c1) in E; [congruence|apply Hs]).
    apply wp_ret. eapply (stays_flushed id (watching_write c1) c c1); try done. by rewrite put_watching_same.
  - apply (unsent_nil c1) in Eo; [|apply Hs]. apply wp_bind.
    assert (forall s2, holding id (put_watching false c1) s2 -> pending_clients s2 = pending_clients s ->
      wp (when (close_after_write c1 && negb (processing_queued c1)) (remove_client id)) (fun _ => flushed c id s) (fun _ => broken_off) s2) as Hend.
    { intros s2 Hh2 Ep. apply wp_when; [intros _; by eapply gone_flushed|]. intros Hcl. eapply (stays_flushed id false c c1); try done.
      intros _ E. rewrite E in Hcl. by apply negb_false_iff. }
    apply wp_when.
    + intros _. eapply wp_mono; [by eapply rewatch_wp| |done]. intros u s2 [Hh2 Ep]. by apply Hend.
    + intros E. apply Hend; [|done]. by rewrite put_watching_same.
Qed.

Lemma gone_ok id c s : holding id c s -> wp (remove_client id) (fun _ => server_ok) (fun _ => broken_off) s.
Proof. intros Hh. eapply wp_mono; [by eapply remove_wp| |done]. by intros u s' [Hok _]. Qed.

(** The flush of a client that is in order. *)
Lemma flush_client_ok id s : server_ok s -> wp (flush_client id) (fun _ => server_ok) (fun _ => broken_off) s.
Proof.
  intros Hs. destruct (clients s !! id) as [c|] eqn:Ec; [|by apply no_client_wp]. destruct (ok_holding s id c Hs Ec) as [Hh Hok].
  eapply wp_mono; [apply (flush_client_wp id c); [exact Hh|by eapply ok_mid]| |done].
  intros u s' [[H' _]|(c' & Hh' & Ep & Hm & Hle & Eu & Eq & Ecl & Hcl & Hw)]; [exact H'|]. rewrite <- Ep in Hm.
  apply (mid_ok s' id c' Hh' Hm).
  - etrans; [exact Hle|exact (co_unsent _ _ _ _ Hok)].
  - intros Hne. rewrite (Hw Hne). apply (co_writing _ _ _ _ Hok). intros E. rewrite E in Hle. destruct (unsent c'); [done|cbn in Hle; lia].
  - intros E. destruct (decide (unsent c' = [])) as [Ee|]; [right; by apply Hcl|by left].
  - rewrite Eu, Eq. exact (co_parsed _ _ _ _ Hok).
Qed.

(** What [deliver] does first: the buffer is compacted, and the client queued
    if there may be more requests in it. *)
Definition queue_more (count : nat) (c : ClientInfo) : bool :=
  (count =? batch_limit)%nat && (input_offset c <? length (buffer c))%nat && negb (processing_queued c).

Lemma compacted_mid Q id c b offset : client_mid Q id c -> compact_buffer (buffer c) (input_offset c) = (b, offset) ->
  unread (put_input b offset c) = unread c /\ client_mid Q id (put_input b offset c).
Proof.
  intros Hm Eb. pose proof (compact_buffer_spec (buffer c) (input_offset c) (cm_input _ _ _ Hm)) as Hb. rewrite Eb in Hb. destruct Hb as [Eu Ho].
  assert (unread (put_input b offset c) = unread c) as E by exact Eu. split; [exact E|]. destruct Hm.
  constructor; try assumption; try rewrite E; try assumption. by refine (talk_same c _ _ E _ _ cm_talk0).
Qed.

Lemma queued_mid Q id c : client_mid Q id c -> client_mid (Q ++ [id]) id (put_queued true c).
Proof. intros []. constructor; try assumption. intros _. apply elem_of_app. right. by apply list_elem_of_singleton. Qed.

Lemma deliver_queue id count c0 c s : holding id c0 s ->
  sk_handle (socket c) = sk_handle (socket c0) -> watching_write c = watching_write c0 -> half_closed c = half_closed c0 ->
  client_mid (pending_clients s) id c -> count = batch_limit \/ undecided (unread c) ->
  let more := queue_more count c in
  let c' := if more then put_queued true c else c in
  wp (do! put_client id c' in when more (modify (fun s => put_pending (pending_clients s ++ [id]) s)))
    (fun _ s' => holding id c' s' /\ client_mid (pending_clients s') id c' /\ (processing_queued c' = false -> undecided (unread c')))
    (fun _ => broken_off) s.
Proof.
  intros Hh E1 E2 E3 Hm He more c'. apply wp_bind, wp_modify.
  assert (holding id c' (put_clients (<[id := c']> (clients s)) s)) as Hh'.
  { apply (put_holding id c0); [exact Hh|..]; unfold c'; destruct more; cbn; congruence. }
  apply wp_when; intros Em; [apply wp_modify|]; unfold c' in *; rewrite Em in *.
  - split; [|split; [by apply queued_mid|done]]. apply pending_holding; [|exact Hh']. intros i Hi. apply elem_of_app. by left.
  - split; [exact Hh'|]. split; [exact Hm|]. intros Eq. destruct He as [->|He]; [|exact He]. left. apply unread_nil; [apply Hm|].
    unfold more, queue_more in Em. rewrite Nat.eqb_refl, Eq, andb_true_r in Em. exact Em.
Qed.

(** What [deliver] does then: the replies are sent, as far as possible. *)
Lemma send_replies id c s : holding id c s -> client_mid (pending_clients s) id c -> (processing_queued c = false -> undecided (unread c)) ->
  wp (if (max_output_buffer_size <? length (output_buffer c) - output_offset c)%nat
      then do! modify count_output_disconnect in remove_client id
      else if (output_offset c <? length (output_buffer c))%nat
      then do! flush_client id in
           with_client id (fun c => when (output_offset c <? length (output_buffer c))%nat (request_write id))
      else when (close_after_write c && negb (processing_queued c)) (remove_client id))
    (fun _ => server_ok) (fun _ => broken_off) s.
Proof.
  intros Hh Hm Hp. assert (length (unsent c) = length (output_buffer c) - output_offset c)%nat as El by apply length_drop. rewrite <- El.
  destruct (Nat.ltb_spec max_output_buffer_size (length (unsent c))) as [Hgt|Hle].
  { apply wp_bind, wp_modify. eapply gone_ok. by apply count_holding. }
  destruct (output_offset c <? length (output_buffer c))%nat eqn:Eo.
  - apply wp_bind. eapply wp_mono; [by apply (flush_client_wp id c)| |done].
    intros u s' [[H' En]|(c' & Hh' & Ep & Hm' & Hle' & Eu & Eq & Ecl & Hcl & _)]; [by apply no_client_wp|].
    eapply with_client_wp; [apply Hh'|]. rewrite <- Ep in Hm'. apply wp_when; intros Eo'.
    + assert (unsent c' <> []) as Hne by (intros E; apply (unsent_nil c') in E; [congruence|apply Hm']).
      eapply wp_mono; [by apply request_write_wp| |done]. intros u' s2 [Hh2 Ep2].
      apply (mid_ok s2 id (put_watching true c') Hh2); rewrite ?Ep2; [by apply put_watching_mid|by etrans|done|by left|].
      intros E. change (unread (put_watching true c')) with (unread c'). rewrite Eu. apply Hp. by rewrite <- Eq.
    + apply (unsent_nil c') in Eo'; [|apply Hm']. apply (mid_ok s' id c' Hh' Hm'); [by etrans|done|right; by apply Hcl|].
      rewrite Eu, Eq. exact Hp.
  - apply (unsent_nil c) in Eo; [|apply Hm]. apply wp_when; [intros _; by eapply gone_ok|]. intros Hcl.
    apply (mid_ok s id c Hh Hm); [exact Hle|done| |exact Hp]. intros E. rewrite E in Hcl. right. by apply negb_false_iff.
Qed.

Lemma wp_bind2 {X Y Z} (a : M (Server A P) X) (b : M (Server A P) Y) (k : M (Server A P) Z) Q Q' E s :
  wp (bind a (fun _ => b)) Q' E s -> (forall y s', Q' y s' -> wp k Q E s') -> wp (bind a (fun _ => bind b (fun _ => k))) Q E s.
Proof. unfold wp, bind. destruct (a s) as [[e|x] s1]; [done|]. destruct (b s1) as [[e|y] s2]; [done|]. intros Hq Hk. exact (Hk y s2 Hq). Qed.

Lemma deliver_wp id count c s : holding id c s -> client_mid (pending_clients s) id c ->
  count = batch_limit \/ undecided (unread c) -> wp (deliver id count) (fun _ => server_ok) (fun _ => broken_off) s.
Proof.
  intros Hh Hm He. eapply with_client_wp; [apply Hh|]. destruct (compact_buffer (buffer c) (input_offset c)) as [b offset] eqn:Eb.
  destruct (compacted_mid _ _ _ _ _ Hm Eb) as [Eu Hm1]. cbv zeta. set (c1 := put_input b offset c) in *. rewrite <- Eu in He.
  pose proof (deliver_queue id count c c1 s Hh eq_refl eq_refl eq_refl Hm1 He) as Hq. cbv zeta in Hq. unfold queue_more in Hq.
  eapply wp_bind2; [exact Hq|]. intros _ s' (Hh' & Hm' & Hp'). by apply send_replies.
Qed.

(** Input that is given up on. *)
Lemma talk_reject c c' message : sk_heard (socket c') = sk_heard (socket c) -> outgoing c' = outgoing c ++ encode_reply (RError message) ->
  close_after_write c' = true -> refused (unread c) message -> talk c -> talk c'.
Proof.
  intros E1 E2 E3 Hr (requests & text & Hrep & Ht). exists requests, text. split; [exact Hrep|]. right. split; [exact E3|]. rewrite E1, E2.
  destruct Ht as [[Hd Eo]|[_ (h0 & h1 & rest & message0 & more & Eh & Hd & Hr0 & Eo)]].
  - exists (sk_heard (socket c)), [], (unread c), message, []. rewrite !app_nil_r, Eo. by split_and!.
  - exists h0, h1, rest, message0, (more ++ encode_reply (RError message)). rewrite Eo, <- !app_assoc. by split_and!.
Qed.

Lemma unsent_append c text offset : (output_offset c <= length (output_buffer c))%nat -> offset = output_offset c ->
  drop offset (output_buffer c ++ text) = unsent c ++ text.
Proof. intros Hc ->. unfold unsent. by rewrite drop_app_le. Qed.

Lemma reject_wp id c s message : holding id c s -> (output_offset c <= length (output_buffer c))%nat ->
  Forall cmd_wf (batch c) /\ (length (batch c) <= batch_limit)%nat -> (processing_queued c = true -> id ∈ pending_clients s) ->
  bk_stream (inbound (socket c)) -> talk c -> refused (unread c) message ->
  wp (reject id message) (fun _ => server_ok) (fun _ => broken_off) s.
Proof.
  intros Hh Ho Hb Hq Hst Ht Hr. eapply with_client_wp; [apply Hh|]. pose proof (append_error_replies message (output_buffer c)) as Ha. unfold wp in Ha.
  destruct (append_error message (output_buffer c)) as [[e|u] out].
  - apply wp_bind, wp_modify, wp_bind, wp_modify. eapply (gone_ok id (put_output out (output_offset c) c)). apply count_holding.
    by apply (put_holding id c).
  - destruct Ha as [-> Hlen]. apply wp_bind, wp_modify. set (c' := put_closing true _). set (err := encode_reply (RError message)) in *.
    assert (unsent c' = unsent c ++ err) as Eu by by apply unsent_append.
    assert (unsent c' <> []) as Hne by (rewrite Eu; unfold err; cbn; destruct (unsent c); discriminate).
    eapply wp_mono; [apply (request_write_wp id c'); by apply (put_holding id c)| |done]. intros u' s' [Hh' Ep].
    apply (mid_ok s' id (put_watching true c') Hh'); [|..|done|by left|by intros _; left].
    + rewrite Ep. apply put_watching_mid; [done|]. constructor; try done.
      * cbn. rewrite length_app. lia.
      * unfold unread. cbn. lia.
      * apply (talk_reject c c' message); try done. unfold outgoing. by rewrite Eu, app_assoc.
    + change (unsent (put_watching true c')) with (drop (output_offset c) (output_buffer c ++ err)). rewrite length_drop.
      pose proof limits_Z as (_ & E & _). unfold len, max_reply_bytes in Hlen. lia.
Qed.

(** Requests that fit, because the stream does. *)
Lemma stream_fits input requests rest more : decodes input requests rest -> bk_stream (input ++ more) ->
  (length input <= max_input_buffer_size)%nat -> Forall bk_fit requests.
Proof.
  induction 1 as [input|input c requests rest Ep _ IH]; intros Hst Hn; [by apply Forall_nil|]. constructor; [by eapply bk_stream_fit|].
  apply IH; [|rewrite length_drop; lia]. apply (bk_stream_drop (take (bytes_consumed c) input)). by rewrite app_assoc, take_drop.
Qed.

Lemma talk_batch c c' new text : sk_heard (socket c') = sk_heard (socket c) -> decodes (unread c) (map request_of new) (unread c') ->
  bk_answered new text -> outgoing c' = outgoing c ++ text -> close_after_write c' = close_after_write c -> talk c -> talk c'.
Proof.
  intros E1 Hd Ha E2 E3 (requests & text0 & Hrep & [[Hd0 Eo]|[Hcl (h0 & h1 & rest & message & more & Eh & Hd0 & Hr & Eo)]]).
  - exists (requests ++ map request_of new), (text0 ++ text). split; [by constructor|]. left. rewrite E1, E2, Eo. split; [|done].
    by eapply decodes_trans.
  - exists requests, text0. split; [exact Hrep|]. right. rewrite E1, E2, E3. split; [exact Hcl|].
    exists h0, h1, rest, message, (more ++ text). rewrite Eo, <- !app_assoc. by split_and!.
Qed.

Lemma run_batch_wp id c count has_write s :
  holding id c s -> Forall (classified little_endian) (take count (batch c)) -> Forall (fun d => bk_fit (request_of d)) (take count (batch c)) ->
  marked (take count (batch c)) has_write ->
  wp (run_batch id count has_write)
    (fun _ s' => pending_clients s' = pending_clients s /\ exists text, bk_answered (take count (batch c)) text /\
       holding id (put_output (output_buffer c ++ text) (output_offset c) c) s')
    (fun _ s' => exists c', holding id c' s') s.
Proof.
  intros Hh Hc Hf Hm. eapply with_client_wp; [apply Hh|]. apply wp_bind, wp_get, wp_zoom.
  eapply wp_mono; [exact (bk_batch _ _ _ _ (output_buffer c) (sb_holds _ (ho_base _ _ _ Hh)) Hc Hf Hm)|..].
  - intros u [d out] [Hd (text & Ha & Eo)]. cbn [fst snd] in *. subst out. split; [done|]. exists text. split; [exact Ha|].
    apply (put_holding id c _ (put_database d s)); [by apply database_holding|done..].
  - intros e [d out] Hd. cbn [fst snd] in *. exists (put_output out (output_offset c) c).
    apply (put_holding id c _ (put_database d s)); [by apply database_holding|done..].
Qed.

(** The commands of a batch are parsed: what is known of the client, before
    they run. *)
Record batch_ready (c : ClientInfo) (count : nat) (has_write : bool) (c' : ClientInfo) (new : list Command) : Prop := {
  br_new : take count (batch c') = new;
  br_count : count = length new;
  br_decodes : decodes (unread c) (map request_of new) (unread c');
  br_class : Forall (classified little_endian) new;
  br_marked : marked new has_write;
  br_rest : exists l offset, c' = put_input (buffer c) offset (put_batch l (put_output (unsent c) 0 c)) /\ (offset <= length (buffer c))%nat /\
    Forall cmd_wf l /\ (length l <= batch_limit)%nat
}.

Lemma parse_ready Q id c : client_mid Q id c ->
  let '(c', count, has_write, err) := parse_batch little_endian batch_limit 0 false (put_output (unsent c) 0 c) in
  exists new, batch_ready c count has_write c' new /\ batch_end (count =? batch_limit)%nat c' err.
Proof.
  intros Hm. pose proof (parse_batch_spec little_endian batch_limit 0 false (put_output (unsent c) 0 c) (cm_input _ _ _ Hm)
    (proj1 (cm_batch _ _ _ Hm)) (conj (Nat.le_0_l _) (proj2 (cm_batch _ _ _ Hm)))) as Hp.
  destruct (parse_batch _ _ _ _ _) as [[[c' count] hw] err]. destruct Hp as (new & [P1 P2 P3 P4 P5 P6 P7] & He). exists new.
  assert (count = length new) as -> by exact P2. split; [|exact He]. split; try done.
  rewrite P6. by apply classified_marked.
Qed.

(** After the batch ran, or when there was nothing to run. *)
Lemma ready_mid Q id c count hw c' new text :
  client_mid Q id c -> batch_ready c count hw c' new -> bk_answered new text \/ new = [] /\ text = [] ->
  client_mid Q id (put_output (output_buffer c' ++ text) (output_offset c') c').
Proof.
  intros Hm Hb Ha. destruct (decodes_suffix _ _ _ (br_decodes _ _ _ _ _ Hb)) as [used Eused].
  assert (outgoing (put_output (output_buffer c' ++ text) (output_offset c') c') = outgoing c ++ text) as Eout.
  { destruct (br_rest _ _ _ _ _ Hb) as (l & offset & -> & _). unfold outgoing, unsent. cbn. by rewrite drop_0, app_assoc. }
  assert (unsent (put_output (output_buffer c' ++ text) (output_offset c') c') = unsent c ++ text) as Eun.
  { destruct (br_rest _ _ _ _ _ Hb) as (l & offset & -> & _). unfold unsent. cbn. by rewrite drop_0. }
  assert (talk (put_output (output_buffer c' ++ text) (output_offset c') c')) as Ht.
  { destruct (br_rest _ _ _ _ _ Hb) as (l & offset & Ec' & _). destruct Ha as [Ha|[-> ->]].
    - apply (talk_batch c _ new text); [by subst c'|apply Hb|exact Ha|exact Eout|by subst c'|apply Hm].
    - pose proof (br_decodes _ _ _ _ _ Hb) as Hd. cbn [map] in Hd. assert (unread c' = unread c) as Eu by by inversion Hd.
      apply (talk_same c); [by subst c'|exact Eu|by rewrite Eout, app_nil_r|by subst c'|apply Hm]. }
  destruct (br_rest _ _ _ _ _ Hb) as (l & offset & Ec' & Hoff & Hl & Hn). destruct Hm.
  constructor.
  - by subst c'.
  - subst c'. cbn. lia.
  - change (length (unread c') <= max_input_buffer_size)%nat. apply (f_equal length) in Eused. rewrite length_app in Eused. lia.
  - by subst c'.
  - by subst c'.
  - rewrite Eun. subst c'. cbn. intros Hw E. apply app_nil in E as [E _]. by apply cm_writing0.
  - by subst c'.
  - apply (bk_stream_drop used). rewrite app_assoc. change (unread (put_output _ _ c')) with (unread c'). rewrite <- Eused. by subst c'.
  - exact Ht.
Qed.

(** The batch runs, or the client goes because its replies are too large. *)
Lemma execute_ready id c0 c count hw new s : holding id c s -> client_mid (pending_clients s) id c0 -> batch_ready c0 count hw c new ->
  wp (if (count =? 0)%nat then ret true else
      try_catch (do! run_batch id count hw in ret true)
        (fun e => if bool_decide (e = too_large)
                  then do! modify count_output_disconnect in do! remove_client id in ret false else throw e))
    (fun (ran : bool) s' => if ran then exists c' text, holding id c' s' /\ pending_clients s' = pending_clients s /\
         client_mid (pending_clients s') id c' /\ c' = put_output (output_buffer c ++ text) (output_offset c) c
       else server_ok s')
    (fun _ => broken_off) s.
Proof.
  intros Hh Hm Hb. destruct (Nat.eqb_spec count 0) as [E0|Hne].
  - apply wp_ret. assert (new = []) as -> by (apply nil_length_inv; rewrite <- (br_count _ _ _ _ _ Hb); exact E0).
    pose proof (ready_mid _ id c0 count hw c [] [] Hm Hb (or_intror (conj eq_refl eq_refl))) as Hm'.
    assert (put_output (output_buffer c ++ []) (output_offset c) c = c) as Ec by (rewrite app_nil_r; by destruct c).
    exists c, []. split; [exact Hh|]. split; [done|]. split; [by rewrite Ec in Hm'|by rewrite Ec].
  - assert (Forall (fun d => bk_fit (request_of d)) new) as Hf.
    { apply Forall_map, (stream_fits _ _ _ (inbound (socket c0)) (br_decodes _ _ _ _ _ Hb)); [exact (cm_stream _ _ _ Hm)|exact (cm_unread _ _ _ Hm)]. }
    pose proof (br_new _ _ _ _ _ Hb) as En. pose proof (run_batch_wp id c count hw s Hh) as Hr. rewrite En in Hr.
    specialize (Hr (br_class _ _ _ _ _ Hb) Hf (br_marked _ _ _ _ _ Hb)). apply wp_try_catch, wp_bind. eapply wp_mono; [exact Hr|..].
    + intros u s' [Ep (text & Ha & Hh')]. apply wp_ret. eexists _, text. split; [exact Hh'|]. split; [exact Ep|]. split; [|done].
      rewrite Ep. eapply ready_mid; [exact Hm|exact Hb|by left].
    + intros e s' [c' Hh']. case_bool_decide; [|apply wp_throw; apply Hh'].
      apply wp_bind, wp_modify, wp_bind. eapply wp_mono; [by eapply gone_ok, count_holding| |done]. intros u s2 H'. by apply wp_ret.
Qed.

Lemma process_client_wp id c s : holding id c s -> client_mid (pending_clients s) id c ->
  wp (process_client little_endian id) (fun _ => server_ok) (fun _ => broken_off) s.
Proof.
  intros Hh Hm. eapply with_client_wp; [apply Hh|]. cbv zeta. pose proof (parse_ready _ id c Hm) as Hp.
  destruct (parse_batch _ _ _ _ _) as [[[c1 count] hw] err]. destruct Hp as (new & Hb & He). apply wp_bind, wp_modify.
  assert (holding id c1 (put_clients (<[id := c1]> (clients s)) s)) as Hh1.
  { destruct (br_rest _ _ _ _ _ Hb) as (l & offset & -> & _). by apply (put_holding id c). }
  apply wp_bind. eapply wp_mono; [exact (execute_ready id c c1 count hw new _ Hh1 Hm Hb)| |done].
  intros [] s'; cbn [negb]; [|by intros; apply wp_ret]. intros (c2 & text & Hh2 & Ep & Hm2 & E2).
  assert (unread c2 = unread c1) as Eu by by subst c2. destruct err as [code|]; cbn [batch_end] in He.
  - rewrite <- Eu in He. apply (reject_wp id c2); [exact Hh2|exact (cm_output _ _ _ Hm2)|exact (cm_batch _ _ _ Hm2)|exact (cm_queued _ _ _ Hm2)| |exact (cm_talk _ _ _ Hm2)|].
    + eapply bk_stream_drop, Hm2.
    + left. exists code. destruct He. by split_and!.
  - rewrite <- Eu in He. apply (deliver_wp id count c2); [exact Hh2|exact Hm2|]. destruct He as [He|He]; [left|by right]. by apply Nat.eqb_eq.
Qed.

Lemma talk_heard c data c' : heard_from c data c' -> talk c -> talk c'.
Proof.
  intros [Eu _ Eh _ (b & k & closed & Ec & _ & Ew)] (requests & text & Hrep & Ht). exists requests, text. split; [exact Hrep|].
  assert (outgoing c' = outgoing c) as -> by (subst c'; unfold outgoing, unsent; cbn; by rewrite Ew). rewrite Eu, Eh.
  destruct Ht as [[Hd Eo]|[Hcl (h0 & h1 & rest & message & more & Eh0 & Hd & Hr & Eo)]].
  - left. split; [by apply decodes_app|done].
  - right. split; [subst c'; cbn; rewrite Hcl; by apply orb_true_r|]. exists h0, (h1 ++ data), rest, message, more. rewrite Eh0, app_assoc. by split_and!.
Qed.

Lemma heard_mid Q id c data c' : heard_from c data c' -> client_mid Q id c -> (length (unread c') <= max_input_buffer_size)%nat -> client_mid Q id c'.
Proof.
  intros Hh Hm Hn. pose proof (talk_heard _ _ _ Hh (cm_talk _ _ _ Hm)) as Ht. destruct Hh as [Eu Ho Eh Ei (b & k & closed & Ec & Ek & Ew)].
  assert (bk_stream (unread c' ++ inbound (socket c'))) as Hst by (rewrite Eu, <- app_assoc, <- Ei; exact (cm_stream _ _ _ Hm)).
  destruct Hm. constructor; try assumption; try by subst c'.
  subst c'. cbn. destruct closed; [done|exact cm_half0].
Qed.

Lemma read_client_wp id s : server_ok s -> wp (read_client little_endian id) (fun _ => server_ok) (fun _ => broken_off) s.
Proof.
  intros Hs. destruct (clients s !! id) as [c|] eqn:Ec; [|by apply no_client_wp]. destruct (ok_holding s id c Hs Ec) as [Hh Hok].
  pose proof (ok_mid _ _ _ _ Hok) as Hm. eapply with_client_wp; [exact Ec|]. destruct (half_closed c) eqn:Ehalf; [by apply wp_ret|].
  pose proof (read_loop_spec read_rounds c (cm_input _ _ _ Hm) (cm_unread _ _ _ Hm)) as Hr. destruct (read_loop read_rounds c) as [r c1].
  destruct Hr as (data & Hd & Hover & Hfits). apply wp_bind, wp_modify.
  assert (holding id c1 (put_clients (<[id := c1]> (clients s)) s)) as Hh1.
  { destruct (hf_rest _ _ _ Hd) as (b & k & closed & -> & Ek & _). by apply (put_holding id c). }
  destruct r.
  - eapply process_client_wp; [exact Hh1|]. eapply heard_mid; [exact Hd|exact Hm|by apply Hfits].
  - apply wp_bind, wp_modify. assert (batch c1 = batch c /\ processing_queued c1 = processing_queued c /\
      output_offset c1 = output_offset c /\ output_buffer c1 = output_buffer c) as (E1 & E2 & E3 & E4)
      by (destruct (hf_rest _ _ _ Hd) as (b & k & closed & -> & _); done).
    apply (reject_wp id c1); [by apply count_holding|..]; rewrite ?E1, ?E2, ?E3, ?E4.
    + exact (cm_output _ _ _ Hm).
    + exact (cm_batch _ _ _ Hm).
    + exact (cm_queued _ _ _ Hm).
    + apply (bk_stream_drop (unread c ++ data)). rewrite <- app_assoc, <- (hf_inbound _ _ _ Hd). exact (cm_stream _ _ _ Hm).
    + exact (talk_heard _ _ _ Hd (cm_talk _ _ _ Hm)).
    + right. split; [by apply Hover|done].
  - by eapply gone_ok.
Qed.

(** *** The queue *)

Lemma serve_queued_wp n : forall s, server_ok s ->
  wp (serve_queued little_endian n) (fun _ => server_ok) (fun _ => broken_off) s.
Proof.
  induction n as [|n IH]; intros s Hs; [exact Hs|]. cbn [serve_queued]. apply wp_bind, wp_get.
  destruct (pending_clients s) as [|id rest] eqn:Ep; [exact Hs|]. apply wp_bind, wp_modify, wp_bind.
  apply (wp_mono _ (fun _ => server_ok) _ (fun _ => broken_off)); [|intros u s' Hs'; by apply IH|intros e s' He; exact He].
  destruct (clients s !! id) as [c|] eqn:Ec.
  - destruct (ok_holding s id c Hs Ec) as [Hh Hok]. eapply with_client_wp; [exact Ec|]. apply wp_bind, wp_modify.
    assert (forall i, i <> id -> i ∈ pending_clients s -> i ∈ rest) as Hrest.
    { intros i Hne Hi. rewrite Ep in Hi. apply elem_of_cons in Hi as [|]; [congruence|done]. }
    apply (process_client_wp id (put_queued false c)).
    + apply (put_holding id c _ (put_pending rest s)); [|done..]. split; [by apply base_pending, Hh|exact (ho_here _ _ _ Hh)| |exact (ho_watched _ _ _ Hh)].
      intros i d Hne Hd. eapply client_ok_queue; [exact (Hrest i Hne)|by apply (ho_others _ _ _ Hh)].
    + apply ok_mid in Hok. destruct Hok. constructor; try assumption. discriminate.
  - apply no_client_wp; [exact Ec|]. destruct Hs as [Hb Hc]. split; [by apply base_pending|]. intros i d Hd. eapply client_ok_queue; [|by apply Hc].
    intros Hi. rewrite Ep in Hi. apply elem_of_cons in Hi as [->|Hi]; [|exact Hi]. cbn in Hd. congruence.
Qed.

(** *** Connections *)

Lemma next_id_mod id : 0 <= id <= int32_max -> next_id id = (id + 1) mod 2 ^ 31.
Proof.
  unfold next_id, int32_max. intros Hid. destruct (Z.eqb_spec id (2 ^ 31 - 1)) as [->|Hne]; [done|]. rewrite Z.mod_small; lia.
Qed.

Lemma mod_id id : 0 <= id mod 2 ^ 31 <= int32_max.
Proof. pose proof (Z.mod_pos_bound id (2 ^ 31) ltac:(lia)). unfold int32_max. lia. Qed.

(** The search finds an identifier that is free, or has seen as many that are
    taken as it had steps. *)
Lemma free_id_search fuel : forall taken id, 0 <= id <= int32_max ->
  0 <= free_id fuel taken id <= int32_max /\
  (taken !! free_id fuel taken id = None \/ forall k, 0 <= k < Z.of_nat fuel -> is_Some (taken !! ((id + k) mod 2 ^ 31))).
Proof.
  induction fuel as [|fuel IH]; intros taken id Hid; cbn [free_id]; [split; [done|right; lia]|]. case_bool_decide as Ht.
  - destruct (IH taken (next_id id)) as [Hr Hf]; [rewrite next_id_mod by done; apply mod_id|]. split; [exact Hr|]. destruct Hf as [Hf|Hf]; [by left|right].
    intros k Hk. destruct (decide (k = 0)) as [->|Hne]; [rewrite Z.add_0_r, Z.mod_small by (unfold int32_max in Hid; lia); exact Ht|].
    specialize (Hf (k - 1) ltac:(lia)). rewrite next_id_mod, Zplus_mod_idemp_l in Hf by done. by replace (id + 1 + (k - 1)) with (id + k) in Hf by lia.
  - split; [done|]. left. by apply eq_None_not_Some.
Qed.

Lemma free_id_free (taken : gmap Z ClientInfo) id : 0 <= id <= int32_max -> (size taken <= max_clients)%nat ->
  0 <= free_id (S (size taken)) taken id <= int32_max /\ taken !! free_id (S (size taken)) taken id = None.
Proof.
  intros Hid Hn. destruct (free_id_search (S (size taken)) taken id Hid) as [Hr [Hf|Hf]]; [done|]. exfalso.
  set (ids := (fun k => (id + Z.of_nat k) mod 2 ^ 31) <$> seq 0 (S (size taken))).
  assert (NoDup ids) as Hnd.
  { apply NoDup_fmap_2_strong; [|apply NoDup_ListNoDup, List.seq_NoDup]. intros x y Hx Hy E. apply elem_of_seq in Hx, Hy. unfold max_clients in Hn.
    apply (f_equal (fun z => (z - id) mod 2 ^ 31)) in E. rewrite !Zminus_mod_idemp_l in E.
    replace (id + Z.of_nat x - id) with (Z.of_nat x) in E by lia. replace (id + Z.of_nat y - id) with (Z.of_nat y) in E by lia.
    rewrite !Z.mod_small in E by lia. lia. }
  assert (list_to_set ids ⊆ dom taken) as Hsub.
  { intros i Hi. apply elem_of_list_to_set, list_elem_of_fmap in Hi as (k & -> & Hk). apply elem_of_seq in Hk. apply elem_of_dom, Hf. lia. }
  apply subseteq_size in Hsub. rewrite size_list_to_set in Hsub by done. rewrite size_dom in Hsub. unfold ids in Hsub.
  rewrite length_fmap, length_seq in Hsub. lia.
Qed.

Lemma next_id_range id : 0 <= id <= int32_max -> 0 <= next_id id <= int32_max.
Proof. intros Hid. rewrite next_id_mod by done. apply mod_id. Qed.

Lemma new_client_ok W Q id k : W !! sk_handle k = Some (id, true, false) -> sk_heard k = [] -> sk_wire k = [] -> bk_stream (inbound k) ->
  client_ok W Q id (new_client k).
Proof.
  intros Hw Eh Ew Hst. constructor.
  - apply Nat.le_0_l.
  - apply Nat.le_0_l.
  - apply Nat.le_0_l.
  - apply Nat.le_0_l.
  - split; [by apply Forall_nil|apply Nat.le_0_l].
  - by exists true.
  - done.
  - done.
  - done.
  - done.
  - by intros _; left.
  - exact Hst.
  - exists [], []. split; [constructor|]. left. unfold outgoing. cbn. rewrite Eh, Ew. split; [constructor|done].
Qed.

(** A new client, with an identifier and a socket of its own. *)
Lemma new_client_base id k p s : server_base s -> clients s !! id = None -> 0 <= id <= int32_max -> (size (clients s) < max_clients)%nat ->
  pl_watched (poller s) !! sk_handle k = None -> pl_ok p -> pl_watched p = <[sk_handle k := (id, true, false)]> (pl_watched (poller s)) ->
  server_base (put_poller p (put_clients (<[id := new_client k]> (clients s)) s)).
Proof.
  intros [B1 B2 B3 B4 B5 B6 B7 B8] Hid Hr Hn Hk Hok Ew. constructor; try assumption; cbn [clients put_clients put_poller poller listen_socket]; try rewrite Ew.
  - intros i Hi. destruct (decide (i = id)) as [->|Hne]; [done|]. rewrite lookup_insert_ne in Hi by done. by apply B3.
  - rewrite map_size_insert_None by done. lia.
  - rewrite lookup_insert_ne by (intros E; rewrite E in Hk; congruence). exact B6.
  - intros h t r w Hw. destruct (decide (h = sk_handle k)) as [->|Hne].
    + rewrite lookup_insert_eq in Hw. injection Hw as <- _ _. right. exists (new_client k). by rewrite lookup_insert_eq.
    + rewrite lookup_insert_ne in Hw by done. destruct (B7 h t r w Hw) as [->|(d & Hd & E)]; [by left|right]. exists d.
      rewrite lookup_insert_ne; [done|]. intros ->. congruence.
Qed.

Lemma accept_one_wp id k s : server_ok s -> clients s !! id = None -> 0 <= id <= int32_max -> (size (clients s) < max_clients)%nat ->
  pl_watched (poller s) !! sk_handle k = None -> sk_heard k = [] -> sk_wire k = [] -> bk_stream (inbound k) ->
  wp (do! put_client id (new_client k) in watch (sk_handle k) id true false) (fun _ => server_ok) (fun _ => broken_off) s.
Proof.
  intros [Hb Hc] Hid Hr Hn Hk Eh Ew Hst. apply wp_bind, wp_modify, wp_zoom. cbn [poller put_clients].
  assert (is_int32 id) as Hi by (unfold is_int32, int32_max in *; lia).
  eapply wp_mono; [apply (pl_watch_spec (sk_handle k) id true false (poller s) (sb_poller _ Hb) Hi); intros t r w E; congruence|..].
  - intros u p [Hok Ep]. split; [by apply new_client_base|]. intros i d Hd. cbn [clients put_clients put_poller poller pending_clients] in *.
    rewrite Ep. destruct (decide (i = id)) as [->|Hne].
    + rewrite lookup_insert_eq in Hd. injection Hd as <-. apply new_client_ok; [apply lookup_insert_eq|done..].
    + rewrite lookup_insert_ne in Hd by done. eapply client_ok_watched; [|by apply Hc]. apply lookup_insert_ne.
      intros E. destruct (co_watched _ _ _ _ (Hc i d Hd)) as (r & Hr' & _). congruence.
  - intros e p _. exact (sb_holds _ Hb).
Qed.

Lemma accepts_ok l s : Forall good_accept l -> server_ok s -> server_ok (put_accepts l s).
Proof. intros Hl [[] Hc]. split; [by constructor|exact Hc]. Qed.

Lemma next_ok id s : 0 <= id <= int32_max -> server_ok s -> server_ok (put_next_id id s).
Proof. intros Hid [[] Hc]. split; [by constructor|exact Hc]. Qed.

Lemma accept_loop_wp rounds : forall s, server_ok s -> wp (accept_loop rounds) (fun _ => server_ok) (fun _ => broken_off) s.
Proof.
  induction rounds as [|rounds IH]; intros s Hs; [exact Hs|]. cbn [accept_loop]. apply wp_bind, wp_get, wp_bind, wp_modify.
  pose proof (sb_accepts _ (proj1 Hs)) as Ha. assert (Forall good_accept (tail (accepts s)) /\ good_accept (hd accept_block (accepts s))) as [Htl Hhd].
  { destruct (accepts s) as [|o l]; [by split|]. apply Forall_cons in Ha as [? ?]. by split. }
  pose proof (accepts_ok _ s Htl Hs) as Hs1. set (s1 := put_accepts _ s) in *.
  destruct (hd accept_block (accepts s)) as [recvs sends nonblocking| |]; cbn [Sockets.accept]; [|exact Hs1|exact (sb_holds _ (proj1 Hs))].
  destruct nonblocking; cbn [negb]; [|exact (sb_holds _ (proj1 Hs))]. destruct (Nat.leb_spec max_clients (size (clients s))); [by apply IH|].
  destruct (free_id_free (clients s) (next_client_id s) (sb_next _ (proj1 Hs)) ltac:(lia)) as [Hr Hfree]. set (id := free_id _ _ _) in *.
  apply wp_bind, wp_modify. pose proof (next_ok _ s1 (next_id_range _ Hr) Hs1) as Hs2. set (s2 := put_next_id _ s1) in *.
  eapply wp_bind2; [apply (accept_one_wp id (mkSocket (new_fd (open_sockets s)) recvs sends [] []) s2); try done|].
  - cbn. apply not_elem_of_dom. apply (new_fd_fresh (open_sockets s)).
  - intros u s' Hs'. by apply IH.
Qed.

(** *** The event loop *)

Lemma remove_client_ok id s : server_ok s -> wp (remove_client id) (fun _ => server_ok) (fun _ => broken_off) s.
Proof.
  intros Hs. destruct (clients s !! id) as [c|] eqn:Ec; [|by apply no_client_wp]. eapply gone_ok. by apply (ok_holding s id c).
Qed.

(** While the client is there. *)
Lemma if_here_wp id (m : M (Server A P) unit) s : server_ok s ->
  (forall s, server_ok s -> wp m (fun _ => server_ok) (fun _ => broken_off) s) ->
  wp (let! here := has_client id in if negb here then ret tt else m) (fun _ => server_ok) (fun _ => broken_off) s.
Proof. intros Hs Hm. apply wp_bind, wp_gets. destruct (negb _); [exact Hs|by apply Hm]. Qed.

Lemma when_ok (b : bool) (m : M (Server A P) unit) s : server_ok s ->
  (forall s, server_ok s -> wp m (fun _ => server_ok) (fun _ => broken_off) s) -> wp (when b m) (fun _ => server_ok) (fun _ => broken_off) s.
Proof. intros Hs Hm. apply wp_when; intros _; [by apply Hm|exact Hs]. Qed.

Lemma then_ok {X Y} (m : M (Server A P) X) (k : M (Server A P) Y) s : wp m (fun _ => server_ok) (fun _ => broken_off) s ->
  (forall s, server_ok s -> wp k (fun _ => server_ok) (fun _ => broken_off) s) -> wp (do! m in k) (fun _ => server_ok) (fun _ => broken_off) s.
Proof. intros Hm Hk. apply wp_bind. eapply wp_mono; [exact Hm|intros x s' Hs'; by apply Hk|done]. Qed.

Lemma handle_event_wp ev s : server_ok s -> wp (handle_event little_endian ev) (fun _ => server_ok) (fun _ => broken_off) s.
Proof.
  intros Hs. unfold handle_event. destruct (ev_token ev =? listener_token).
  - destruct (ev_error ev); [exact (sb_holds _ (proj1 Hs))|]. apply when_ok; [exact Hs|]. intros s'. apply accept_loop_wp.
  - apply if_here_wp; [exact Hs|]. clear s Hs. intros s Hs. apply then_ok; [apply when_ok; [exact Hs|]; intros s'; apply read_client_wp|].
    clear s Hs. intros s Hs. apply if_here_wp; [exact Hs|]. clear s Hs. intros s Hs.
    apply then_ok; [apply when_ok; [exact Hs|]; intros s'; apply flush_client_ok|].
    clear s Hs. intros s Hs. apply if_here_wp; [exact Hs|]. clear s Hs. intros s Hs. apply when_ok; [exact Hs|]. intros s'. apply remove_client_ok.
Qed.

Lemma turn_wp reported s : server_ok s -> wp (turn little_endian reported) (fun _ => server_ok) (fun _ => broken_off) s.
Proof.
  intros Hs. apply wp_bind, wp_get. destruct (_ || _); [exact (sb_holds _ (proj1 Hs))|]. apply then_ok; [by apply serve_queued_wp|].
  clear s Hs. intros s Hs. destruct reported as [e|events]; [exact (sb_holds _ (proj1 Hs))|].
  apply wp_for_each; [|exact Hs]. intros ev s' _. apply handle_event_wp.
Qed.

Lemma database_ok d s : bk_holds d -> server_ok s -> server_ok (put_database d s).
Proof. intros Hd [[] Hc]. split; [constructor; try assumption; by destruct d|exact Hc]. Qed.

(** ** Any interleaving *)

(** More of the calls on a socket are decided. *)
Definition extend_socket (recvs : list recv_outcome) (sends : list send_outcome) (k : Socket) : Socket :=
  mkSocket (sk_handle k) (sk_recvs k ++ recvs) (sk_sends k ++ sends) (sk_heard k) (sk_wire k).

(** What can happen next: the server takes a client from the queue or handles
    an event, the maintenance thread or that of the log runs, more of the
    calls on a socket are decided, or there is somebody to accept. *)
Inductive step (s : Server A P) : Server A P -> Prop :=
| step_queued s' : serve_queued little_endian 1 s = (inr tt, s') -> step s s'
| step_event ev s' : handle_event little_endian ev s = (inr tt, s') -> step s s'
| step_maintain : step s (put_database (maintain (database s, maintenance_failed s)) s)
| step_log : step s (put_database (log_tick (database s), maintenance_failed s) s)
| step_network id c recvs sends :
    clients s !! id = Some c -> bk_stream (unread c ++ inbound (extend_socket recvs sends (socket c))) ->
    step s (put_clients (<[id := put_socket (extend_socket recvs sends (socket c)) c]> (clients s)) s)
| step_connect outcomes : Forall good_accept outcomes -> step s (put_accepts (accepts s ++ outcomes) s).

Lemma network_ok s id c recvs sends : server_ok s -> clients s !! id = Some c ->
  bk_stream (unread c ++ inbound (extend_socket recvs sends (socket c))) ->
  server_ok (put_clients (<[id := put_socket (extend_socket recvs sends (socket c)) c]> (clients s)) s).
Proof.
  intros Hs Hc Hst. destruct (ok_holding s id c Hs Hc) as [Hh Hok]. set (c' := put_socket _ c).
  assert (talk c') as Ht by by refine (talk_same c c' _ _ _ _ (co_talk _ _ _ _ Hok)).
  apply (holding_ok _ id c'); [by apply (put_holding id c)|]. destruct Hok.
  constructor; [exact co_input0|exact co_output0|exact co_unread0|exact co_unsent0|assumption..].
Qed.

Lemma step_keeps s s' : server_ok s -> step s s' -> server_ok s'.
Proof.
  intros Hs Hst. destruct Hst as [s' E|ev s' E| | |id c recvs sends Hc Hst|outcomes Ho].
  - pose proof (serve_queued_wp 1 s Hs) as Hw. unfold wp in Hw. by rewrite E in Hw.
  - pose proof (handle_event_wp ev s Hs) as Hw. unfold wp in Hw. by rewrite E in Hw.
  - apply database_ok; [|exact Hs]. apply bk_maintain, Hs.
  - apply database_ok; [|exact Hs]. apply (bk_tick (_, _)), Hs.
  - by apply network_ok.
  - apply accepts_ok; [|exact Hs]. apply Forall_app. split; [apply Hs|exact Ho].
Qed.

Lemma reachable_ok s s' : server_ok s -> rtc step s s' -> server_ok s'.
Proof. intros Hs. induction 1 as [|s s1 s' Hstep _ IH]; [exact Hs|]. apply IH. by eapply step_keeps. Qed.

(** A turn of the loop is made of such steps. *)
Lemma serve_queued_split n s s' : serve_queued little_endian (S n) s = (inr tt, s') ->
  exists s1, serve_queued little_endian 1 s = (inr tt, s1) /\ serve_queued little_endian n s1 = (inr tt, s').
Proof.
  cbn [serve_queued]. unfold bind, get. destruct (pending_clients s) as [|id rest] eqn:Ep.
  - intros [= <-]. exists s. split; [done|]. destruct n; [done|]. cbn [serve_queued]. unfold bind, get. by rewrite Ep.
  - unfold modify. destruct (with_client id _ _) as [[e|[]] s1]; [done|]. intros E. by exists s1.
Qed.

Lemma serve_queued_steps n : forall s s', serve_queued little_endian n s = (inr tt, s') -> rtc step s s'.
Proof.
  induction n as [|n IH]; intros s s' E; [by injection E as <-|]. destruct (serve_queued_split n s s' E) as (s1 & E1 & E2).
  eapply rtc_l; [by apply step_queued|by apply IH].
Qed.

Lemma events_steps events : forall s s', for_each events (handle_event little_endian) s = (inr tt, s') -> rtc step s s'.
Proof.
  induction events as [|ev events IH]; intros s s' E; [by injection E as <-|]. cbn in E. unfold bind in E.
  destruct (handle_event little_endian ev s) as [[e|[]] s1] eqn:E1; [done|]. eapply rtc_l; [by eapply step_event|by apply IH].
Qed.

Lemma turn_steps reported s s' : turn little_endian reported s = (inr tt, s') -> rtc step s s'.
Proof.
  unfold turn, bind at 1, get at 1. destruct (_ || _); [done|]. unfold bind.
  destruct (serve_queued _ _ s) as [[e|[]] s1] eqn:E1; [done|]. destruct reported as [e|events]; [done|]. intros E.
  transitivity s1; [by eapply serve_queued_steps|by eapply events_steps].
Qed.

(** ** The beginning *)

(** A server before [start]: nobody is watched. *)
Record idle (s : Server A P) : Prop := {
  id_poller : pl_ok (poller s);
  id_watched : pl_watched (poller s) = ∅;
  id_clients : clients s = ∅;
  id_pending : pending_clients s = [];
  id_next : next_client_id s = 0;
  id_failed : maintenance_failed s = false;
  id_accepts : Forall good_accept (accepts s)
}.

Lemma open_listener_wp l s : idle s -> bk_holds (database s, false) ->
  wp (open_listener l) (fun _ => server_ok) (fun _ => broken_off) s.
Proof.
  intros [I1 I2 I3 I4 I5 I6 I7] Hd. assert (broken_off s) as Hb by (unfold broken_off; by rewrite I6). unfold open_listener.
  destruct (created l); cbn [negb]; [|exact Hb]. apply wp_bind, wp_modify. destruct (bound l); cbn [negb]; [|exact Hb].
  destruct (listening l); cbn [negb]; [|exact Hb]. destruct (unblocked l); cbn [negb]; [|exact Hb].
  apply wp_bind, wp_gets, wp_zoom. cbn [poller put_listener listen_socket]. set (h := new_fd _).
  assert (is_int32 listener_token) as Hi by (unfold is_int32, int32_max, listener_token; lia).
  eapply wp_mono; [apply (pl_watch_spec h listener_token true false (poller s) I1 Hi); intros t r w; rewrite I2; by rewrite lookup_empty| |done].
  intros u p [Hok Ew]. rewrite I2 in Ew. split.
  - constructor; cbn [database maintenance_failed clients next_client_id accepts poller listen_socket put_poller put_listener].
    + by rewrite I6.
    + exact Hok.
    + rewrite I3. intros id [c Hc]. by rewrite lookup_empty in Hc.
    + rewrite I3, map_size_empty. lia.
    + rewrite I5. unfold int32_max. lia.
    + rewrite Ew. apply lookup_insert_eq.
    + intros h' t r w. rewrite Ew. intros Hw. left. apply lookup_insert_Some in Hw as [[<- _]|[_ Hw]]; [done|]. by rewrite lookup_empty in Hw.
    + exact I7.
  - cbn [clients put_poller put_listener]. rewrite I3. intros id c Hc. by rewrite lookup_empty in Hc.
Qed.

(** All of it; the log is opened first, when there is one. *)
Definition opens_healthy (log : option LogFile) (s : Server A P) : Prop :=
  match log with
  | Some f => wp (open_wal (log_sync f) (log_found f) (log_script f) (log_error f)) (fun _ db => bk_holds (db, false)) (fun _ _ => True) (database s)
  | None => bk_holds (database s, false)
  end.

Lemma idle_database d s : idle s -> idle (put_database (d, maintenance_failed s) s).
Proof. by intros []. Qed.

Lemma begin_serving_wp log l s : idle s -> opens_healthy log s ->
  wp (begin_serving log l) (fun _ => server_ok) (fun _ _ => True) s.
Proof.
  intros Hi Ho. unfold begin_serving. apply wp_bind.
  apply (wp_mono _ (fun _ s1 => idle s1 /\ bk_holds (database s1, false)) _ (fun _ _ => True)); [|clear s Hi Ho|done].
  - destruct log as [f|]; [|by apply wp_ret]. apply wp_zoom. eapply wp_mono; [exact Ho| |done]. intros u db Hdb. split; [by apply idle_database|exact Hdb].
  - intros u s [Hi Hd]. apply wp_bind, wp_modify, wp_bind, wp_modify, wp_bind, wp_zoom, wp_bind. unfold wp at 1.
    pose proof (bk_clock (database s, false) Hd) as Hclock. cbn [fst snd] in Hclock. cbn [database put_start_time put_running].
    destruct (now_ms (database s)) as [[e|t] db] eqn:En; [done|]. cbn [snd] in Hclock. apply wp_ret.
    eapply wp_mono; [apply open_listener_wp; [by destruct Hi|exact Hclock]|by intros|done].
Qed.

End serving.
