(* ===== verification/ServerSpec.v ===== *)
(** * ServerSpec: the server with a database behind it

    What [Backend] asks for, provided twice: by any database, of which nothing
    is known but that replies are appended to the output, and by a database
    whose log is sound.  With the invariant of [Serving] this gives the
    theorems about the server: no client is forgotten, whatever the database
    and the network do; replies come in order, one for each request; and a
    crash at any moment loses nothing that was answered. *)

From S2P Require Import Prelude Charconv Errors Effects RespParse Stream Replies Sockets Pack WalCodec Wal Allocator Slab Buckets Node Store Keyspace StoreSpec Contents Sample Strings Timers Lists Hashes Replay Open Stats Throws Records Durable Execute Batch Server Serving.

(** ** Any database *)

Section growing.

Context {A : Type} `{NodeAllocator A} `{!Platform A} `{!Measures A}.

(** Whatever [m] does, the output it found is still there. *)
Definition growing (m : M (Session (A := A)) unit) : Prop := forall W, calm (fun s => W `prefix_of` s.2) (fun _ => True) m.

Lemma db_growing {X} (m : M (Database A) X) W : calm (fun s => W `prefix_of` s.2) (fun _ => True) (on_db m).
Proof. intros s Hs. apply wp_zoom. unfold wp. by destruct (m s.1) as [[]]. Qed.

Lemma out_growing (m : M bytes unit) W : (forall W, calm (fun o => W `prefix_of` o) (fun _ => True) m) ->
  calm (fun s : Session (A := A) => W `prefix_of` s.2) (fun _ => True) (on_out m).
Proof. intros Hm s Hs. apply wp_zoom. eapply wp_mono; [exact (Hm W s.2 Hs)|by intros|by intros]. Qed.

Lemma put_text_growing text W : calm (fun o => W `prefix_of` o) (fun _ => True) (put_text text).
Proof. apply calm_modify. intros o Ho. by apply prefix_app_r. Qed.

Lemma space_growing n W : calm (fun o => W `prefix_of` o) (fun _ => True) (require_reply_space n).
Proof. apply calm_bind; [apply calm_get|]. intros o. destruct (_ || _); [by apply calm_throw|apply calm_ret]. Qed.

Lemma appends_growing m r W : appends m r -> calm (fun o => W `prefix_of` o) (fun _ => True) m.
Proof.
  intros Hm o Ho. eapply wp_mono; [apply (Hm o)|..].
  - intros u o' ->. by apply prefix_app_r.
  - intros e o' [_ ->]. by split.
Qed.

(** The structure of a command. *)
Ltac grow_step :=
  lazymatch goal with
  | |- calm _ _ (bind _ _) => apply calm_bind; [|intros ?]
  | |- calm _ _ (ret _) => apply calm_ret
  | |- calm _ _ (throw _) => by apply calm_throw
  | |- calm _ _ (try_catch _ _) => apply calm_try_catch; [|intros ? ?]
  | |- calm _ _ (on_db _) => apply db_growing
  | |- calm _ _ (on_out _) => apply out_growing; intros ?
  | |- calm _ _ (put_text _) => apply put_text_growing
  | |- calm _ _ (require_reply_space _) => apply space_growing
  | |- calm _ _ (if ?b then _ else _) => destruct b
  | |- calm _ _ (match ?x with _ => _ end) => destruct x
  | |- calm _ _ _ => eapply appends_growing; solve [eauto with reddish]
  end.

Lemma execute_growing command stats cid : growing (execute_into command stats cid).
Proof.
  intros W. destruct cid; cbn [execute_into];
    unfold execute_info, append_info, execute_ping, execute_get, execute_set, execute_increment, execute_list_push, execute_list_pop,
      execute_list_length, execute_hash_set, execute_hash_get, execute_hash_del, execute_hash_length, execute_expire, execute_ttl, execute_del,
      append_result, append_value, append_wrong_arguments; repeat grow_step.
Qed.

Lemma execute_batch_appends stats cs has_write (d : Database A * bool) out :
  wp (execute_batch stats cs has_write) (fun _ s => exists text, s.2 = out ++ text) (fun _ _ => True) (d, out).
Proof.
  assert (calm (fun s : Session (A := A) => out `prefix_of` s.2) (fun _ => True) (locked_batch stats cs has_write)) as Hl.
  { unfold locked_batch. grow_step; [apply calm_when, db_growing|]. grow_step; [|apply calm_when, db_growing].
    grow_step; [|grow_step; [apply calm_when, db_growing|grow_step]]. apply calm_for_each. intros c _. apply calm_try_catch; [apply execute_growing|].
    intros e _. grow_step; [|grow_step]. repeat grow_step. }
  unfold execute_batch. apply wp_bind, wp_zoom. cbn [fst snd]. destruct d as [db failed].
  eapply wp_mono; [apply (Hl (db, out)); done| |done]. intros u [db1 o] Ho. cbn [fst snd] in Ho. apply wp_bind, wp_gets, wp_when; [|intros _; exact Ho].
  intros _. apply wp_bind, wp_modify, wp_bind, wp_gets, wp_when; [by intros|]. intros _. exact Ho.
Qed.

End growing.

Section backends.

Context {A : Type} `{NodeAllocator A} `{!Platform A} `{!Measures A}.
Context (little_endian : bool).

(** Nothing is known of the database, and any bytes may arrive. *)
Program Definition any_backend : Backend (A := A) little_endian := {|
  bk_holds _ := True;
  bk_fit _ := True;
  bk_stream _ := True;
  bk_answered _ _ := True
|}.
Next Obligation. done. Qed.
Next Obligation. done. Qed.
Next Obligation.
  intros stats cs has_write d out _ _ _ _. eapply wp_mono; [apply execute_batch_appends| |done].
  intros u s [text E]. split; [done|]. by exists text.
Qed.
Next Obligation. done. Qed.
Next Obligation. done. Qed.
Next Obligation. done. Qed.

(** ** A database with a sound log *)

(** A request for which no clock overflows. *)
Definition modest_request (r : Request) : Prop :=
  match r with
  | (name, [_; text]) => (classify_command little_endian name).1 = id_expire ->
      forall seconds, from_chars_int64 text = Some seconds -> seconds_ok seconds
  | _ => True
  end.

(** Wherever one begins to read such a stream, its requests are modest. *)
Definition modest (data : bytes) : Prop :=
  forall used rest c, data = used ++ rest -> parse_command rest = Ok c -> modest_request (request_of c).

Lemma modest_drop a b : modest (a ++ b) -> modest b.
Proof. intros Hm used rest c -> Hp. apply (Hm (a ++ used) rest c); [by rewrite <- app_assoc|exact Hp]. Qed.

(** What the commands of [execute_batch] have to be. *)
Definition fit_request (r : Request) : Prop := command_ok (classify_command little_endian r.1).1 r.2.

Lemma twos_short n fields : Forall (fun p : bytes => (length p <= n)%nat) fields -> Forall (fun p : bytes * bytes => (length p.2 <= n)%nat) (by_twos fields).
Proof.
  assert (forall m fields, (length fields <= m)%nat -> Forall (fun p : bytes => (length p <= n)%nat) fields ->
    Forall (fun p : bytes * bytes => (length p.2 <= n)%nat) (by_twos fields)) as Hm; [|by apply (Hm (length fields))].
  clear fields. induction m as [|m IH]; intros [|f [|v rest]] Hl Hf; cbn in *; try lia; try by apply Forall_nil.
  apply Forall_cons in Hf as [_ Hf]. apply Forall_cons in Hf as [Hv Hf]. constructor; [exact Hv|]. apply IH; [lia|exact Hf].
Qed.

Lemma modest_fit input more c : modest (input ++ more) -> (length input <= max_input_buffer_size)%nat -> parse_command input = Ok c ->
  fit_request (request_of c).
Proof.
  intros Hm Hn Ep. destruct (parse_command_app input more c Ep) as (c' & Ep' & Er & _).
  pose proof (Hm [] (input ++ more) c' eq_refl Ep') as Hmod. rewrite Er in Hmod. destruct (parse_command_bounds _ _ Ep) as (_ & [_ Hs] & _).
  unfold fit_request, request_of in *. cbn [fst snd] in *. destruct (classify_command little_endian (cmd_name c)).1 eqn:Eid; cbn [command_ok]; try done.
  - destruct (arguments c) as [|key fields]; [done|]. apply Forall_cons in Hs as [_ Hs]. apply twos_short in Hs. unfold bodies_fit.
    eapply Forall_impl; [exact Hs|]. intros [f v] Hv. cbn [snd] in *. pose proof limits_Z as (E & _). unfold body_size_text, max_string_header, hash_limit, len. case_match; lia.
  - destruct (arguments c) as [|key [|text [|]]]; try done. by apply Hmod.
Qed.

Definition healthy (d : Database A * bool) : Prop := (exists K, sound d.1 K) /\ 0 <= max_keys_ d.1 /\ unbatched d.1.

Lemma healthy_kept d : healthy d <-> kept_up d.1 d.1 /\ 0 <= max_keys_ d.1.
Proof. split; [intros (Hs & Hm & Hu)|intros [(Hs & _ & Hu) Hm]]; by split_and!. Qed.

Lemma kept_healthy db d : 0 <= max_keys_ db -> kept_up db d.1 -> healthy d.
Proof. intros Hm (Hs & E & Hu). split; [exact Hs|]. split; [lia|exact Hu]. Qed.

Lemma tick_unbatched (db : Database A) : unbatched db -> unbatched (log_tick db).
Proof.
  unfold unbatched, log_tick, on_wal_. destruct (wal_ db) as [w|] eqn:Ew; [|intros _; cbn; by rewrite Ew]. intros Hu.
  assert (wp flusher_tick (fun _ w' => defer_sync_ w' = false) (fun _ w' => defer_sync_ w' = false) w) as Hw.
  { unfold flusher_tick. apply wp_try_catch. eapply wp_mono; [apply flush_keeps|..].
    - intros u w' [_ E]. congruence.
    - intros e w' E. wp_steps. cbn. congruence. }
  unfold wp in Hw. by destruct (flusher_tick w) as [[] w'].
Qed.

(** The replies to the commands of a batch, one for each, in order. *)
Definition batch_text (cs : list Command) (text : bytes) : Prop :=
  Forall (classified little_endian) cs /\
  exists stats (db : Database A) replies db', answers stats cs db replies db' /\ text = encode_replies replies.

Lemma healthy_batch stats cs has_write d out :
  healthy d -> Forall (classified little_endian) cs -> Forall (fun c => fit_request (request_of c)) cs -> marked cs has_write ->
  wp (execute_batch stats cs has_write)
    (fun _ s => healthy s.1 /\ exists text, batch_text cs text /\ s.2 = out ++ text) (fun _ s => healthy s.1) (d, out).
Proof.
  intros ([K Hs] & Hm & Hu) Hc Hf Hmk. destruct d as [db failed]. cbn [fst snd] in *.
  assert (commands_ok cs) as Hok.
  { apply Forall_forall. intros c Hin. rewrite Forall_forall in Hc, Hf. destruct (Hc c Hin) as [_ E]. pose proof (Hf c Hin) as Hfit.
    unfold fit_request, request_of in Hfit. cbn [fst snd] in Hfit. by rewrite E. }
  eapply wp_mono; [by apply (execute_batch_wp stats cs has_write db failed K out)|..].
  - intros u s [Hk (db1 & (replies & db2 & Ha & Eo & _) & _)]. split; [by eapply kept_healthy|]. exists (encode_replies replies). split; [|exact Eo].
    split; [exact Hc|]. by exists stats, (entered has_write db), replies, db2.
  - intros e s Hk. by eapply kept_healthy.
Qed.

Program Definition sound_backend : Backend (A := A) little_endian := {|
  bk_holds := healthy;
  bk_fit := fit_request;
  bk_stream := modest;
  bk_answered := batch_text
|}.
Next Obligation. exact modest_drop. Qed.
Next Obligation. exact modest_fit. Qed.
Next Obligation. exact healthy_batch. Qed.
Next Obligation.
  intros d Hd. apply healthy_kept in Hd as [Hk Hm]. eapply kept_healthy; [exact Hm|]. by apply maintain_keeps.
Qed.
Next Obligation.
  intros d ([K Hs] & Hm & Hu). split; [|split].
  - pose proof (request_stays (req_call c_tick) d.1 K Hs (conj eq_refl I)) as Hw. cbn [run_request] in Hw. cbn [fst].
    unfold stays, wp in Hw. unfold log_tick.
    change (run_call c_tick) with flusher_tick in Hw. destruct (on_wal_ flusher_tick d.1) as [[] db']; exact Hw.
  - cbn [fst]. unfold log_tick. by rewrite on_wal_max.
  - by apply tick_unbatched.
Qed.
Next Obligation.
  intros d ([K Hs] & Hm & Hu). split; [|by split]. exists K. apply time_sound; [exact Hs|cbn; lia].
Qed.

End backends.

(** ** The beginning *)

Section opening.

Context {A P : Type} `{NodeAllocator A} `{!Platform A} `{!Measures A} `{Poller P} `{Descriptors}.
Context (little_endian : bool).

Lemma open_wal_unbatched sync found script err (db : Database A) :
  wp (open_wal sync found script err) (fun _ => unbatched) (fun _ _ => True) db.
Proof.
  unfold open_wal. apply wp_bind, wp_get. destruct (_ || _); [done|]. apply wp_bind, wp_modify, wp_bind, wp_try_catch.
  unfold wp at 1. destruct (make_wal _ _ _ _ _) as [[e|[]] db1].
  - apply wp_bind, wp_modify, wp_bind, wp_modify. by apply wp_throw.
  - apply wp_bind, wp_modify. unfold remove_expired_locked. apply wp_bind, now_wp. eapply wp_mono; [apply in_batch_unbatched|intros x db2 Hu; exact Hu|done].
Qed.

(** A log that is opened makes a healthy database. *)
Lemma open_wal_healthy sync found script rs (db : Database A) :
  unopened_db db -> opens_as found rs -> steady_young -> sync <> sync_none -> 0 <= max_keys_ db ->
  wp (open_wal sync found script None) (fun _ db' => healthy (db', false)) (fun _ _ => True) db.
Proof.
  intros Hdb Hfound Hy Hsync Hm.
  assert (forall t w, 0 <= w <= int64_max -> same_moment (i64 (steady_at (S t) + Z.max 0 (w - wall_at t))) w) as HT
    by (intros t w; by apply restored_moment).
  eapply wp_mono; [apply wp_and; [exact (open_wal_wp same_moment HT sync found script rs db Hdb Hfound)|apply open_wal_unbatched]| |done].
  intros u db' [Ho Hu]. destruct (opened_sound db sync rs true db' Hsync (or_introl Ho)) as [K Hs].
  destruct Ho as (S & K0 & db1 & ks & R' & _ & (_ & _ & _ & _ & E1 & _) & (_ & _ & Haf) & _). split; [by exists K|]. split; [|exact Hu].
  cbn [fst]. assert (max_keys_ db' = max_keys_ db1) as -> by apply Haf. lia.
Qed.

(** Everything the server may come to after it began to listen. *)
Definition serves (BK : Backend (A := A) little_endian) (log : option LogFile) (l : Listening) (s0 s : Server A P) : Prop :=
  exists s1, begin_serving log l s0 = (inr tt, s1) /\ rtc (step little_endian (BK := BK)) s1 s.

Lemma serves_ok (BK : Backend (A := A) little_endian) log l (s0 s : Server A P) :
  idle little_endian (BK := BK) s0 -> opens_healthy little_endian (BK := BK) log s0 -> serves BK log l s0 s -> server_ok little_endian (BK := BK) s.
Proof.
  intros Hi Ho (s1 & E & Hr). eapply reachable_ok; [|exact Hr]. pose proof (begin_serving_wp little_endian (BK := BK) log l s0 Hi Ho) as Hw.
  unfold wp in Hw. by rewrite E in Hw.
Qed.

End opening.

(** ** Results *)

Section results.

Context {A P : Type} `{NodeAllocator A} `{!Platform A} `{!Measures A} `{Poller P} `{Descriptors}.
Context (little_endian : bool).

(** A server object as constructed: no clients, no log, an empty poller. *)
Record new_server (s : Server A P) : Prop := {
  ns_poller : pl_ok (poller s);
  ns_watched : pl_watched (poller s) = ∅;
  ns_clients : clients s = ∅;
  ns_pending : pending_clients s = [];
  ns_next : next_client_id s = 0;
  ns_failed : maintenance_failed s = false;
  ns_accepts : accepts s = []
}.

Lemma new_idle (BK : Backend (A := A) little_endian) (s : Server A P) : new_server s -> idle little_endian (BK := BK) s.
Proof. intros []. constructor; try assumption. rewrite ns_accepts0. by apply Forall_nil. Qed.

Lemma any_opens log (s : Server A P) : opens_healthy little_endian (BK := any_backend little_endian) log s.
Proof. destruct log as [f|]; [|done]. unfold opens_healthy, wp. by destruct (open_wal _ _ _ _ _) as [[] db]. Qed.

(** C3: no client is forgotten.  In every state the server can reach, whatever the
    database answers and whatever bytes, connections and failures the network
    brings, in any order: a client that has replies to be sent is watched for
    writing, and one that has none is not; one whose stream has not ended is
    watched for reading; when its buffer holds a complete request, or
    anything else a decision can be taken on, it is in the queue; and one that
    is to be closed has replies to be sent or is in the queue. *)
Theorem no_client_forgotten log l (s0 s : Server A P) id c :
  new_server s0 -> serves little_endian (any_backend little_endian) log l s0 s -> clients s !! id = Some c ->
  (exists readable, pl_watched (poller s) !! sk_handle (socket c) = Some (id, readable, negb (bool_decide (unsent c = []))) /\
     (half_closed c = false -> readable = true)) /\
  (undecided (unread c) \/ id ∈ pending_clients s) /\
  (close_after_write c = true -> unsent c <> [] \/ id ∈ pending_clients s).
Proof.
  intros Hn Hs Hc. destruct (serves_ok little_endian _ log l s0 s (new_idle _ _ Hn) (any_opens log s0) Hs) as [_ Hok].
  destruct (Hok id c Hc). split; [|split].
  - destruct co_watched as (r & Hr & Hhalf). exists r. split; [|exact Hhalf]. rewrite Hr. do 2 f_equal.
    case_bool_decide as E; [|by apply co_writing]. destruct (watching_write c); [|done]. exfalso. by apply co_writing.
  - destruct (processing_queued c) eqn:E; [right; by apply co_queued|left; by apply co_parsed].
  - intros E. destruct (co_closing E) as [|]; [by left|right; by apply co_queued].
Qed.

(** C19: the state of the server stays within its types and limits.  In every state
    it can reach the identifiers of the clients and the next one are [int]s
    from 0 on; no offset is beyond its buffer, so that no difference of sizes
    wraps around; unread input and unsent output are at most 1 MiB each, a
    batch has at most 1024 commands, and there are at most 4096 clients; and
    the poller watches the listening socket and the sockets of the clients,
    each with its own token, and nothing else. *)
Theorem server_well_formed log l (s0 s : Server A P) :
  new_server s0 -> serves little_endian (any_backend little_endian) log l s0 s ->
  (size (clients s) <= max_clients)%nat /\ 0 <= next_client_id s <= int32_max /\
  (forall id c, clients s !! id = Some c ->
     0 <= id <= int32_max /\ (input_offset c <= length (buffer c))%nat /\ (output_offset c <= length (output_buffer c))%nat /\
     (length (unread c) <= max_input_buffer_size)%nat /\ (length (unsent c) <= max_output_buffer_size)%nat /\
     Forall cmd_wf (batch c) /\ (length (batch c) <= batch_limit)%nat) /\
  pl_ok (poller s) /\ pl_watched (poller s) !! listen_socket s = Some (listener_token, true, false) /\
  forall h token r w, pl_watched (poller s) !! h = Some (token, r, w) ->
    h = listen_socket s \/ exists c, clients s !! token = Some c /\ sk_handle (socket c) = h.
Proof.
  intros Hn Hs. destruct (serves_ok little_endian _ log l s0 s (new_idle _ _ Hn) (any_opens log s0) Hs) as [[] Hok].
  split; [exact sb_size|]. split; [exact sb_next|]. split; [|split; [exact sb_poller|split; [exact sb_listener|exact sb_known]]].
  intros id c Hc. split; [apply sb_ids; by eexists|]. destruct (Hok id c Hc).
  split; [exact co_input|]. split; [exact co_output|]. split; [exact co_unread|]. split; [exact co_unsent|exact co_batch].
Qed.

(** The reply to a request: the one the command it names comes to, in the
    state of the database at the time. *)
Definition answered_by (q : Request) (r : reply) : Prop :=
  exists stats (db : Database A) command db', request_of command = q /\ classified_id command = (classify_reference q.1).1 /\
    answer_to stats db command r db'.

Lemma answers_each stats cs (db : Database A) rs db' :
  answers stats cs db rs db' -> Forall (classified little_endian) cs -> Forall2 answered_by (map request_of cs) rs.
Proof.
  induction 1 as [db|command cs db r db1 rs db' Ha _ IH]; intros Hc; [constructor|]. apply Forall_cons in Hc as [[_ E] Hc].
  cbn [map]. constructor; [|by apply IH]. exists stats, db, command, db1. split; [done|]. split; [by rewrite E, classify_eq|exact Ha].
Qed.

Lemma encode_replies_app rs1 rs2 : encode_replies (rs1 ++ rs2) = encode_replies rs1 ++ encode_replies rs2.
Proof. unfold encode_replies. by rewrite map_app, concat_app. Qed.

Lemma replied_each requests text : replied little_endian (BK := sound_backend little_endian) requests text ->
  exists rs, Forall2 answered_by requests rs /\ text = encode_replies rs.
Proof.
  induction 1 as [|requests text cs text' _ (rs & Hrs & ->) [Hc (stats & db & rs' & db' & Ha & ->)]]; [by exists []|].
  exists (rs ++ rs'). split; [|by rewrite encode_replies_app]. apply Forall2_app; [exact Hrs|]. by eapply answers_each.
Qed.

(** A server that was started on a log, and what it has come to. *)
Record serves_log (sync : WalSync) (found : bytes) (rs : list (WalOp * list bytes)) (s0 s : Server A P) : Prop := {
  sl_new : new_server s0;
  sl_db : unopened_db (database s0);
  sl_max : 0 <= max_keys_ (database s0);
  sl_found : opens_as found rs;
  sl_sync : sync <> sync_none;
  sl_serves : exists script l, serves little_endian (sound_backend little_endian) (Some (mkLogFile sync found script None)) l s0 s
}.

Lemma serves_log_ok sync found rs s0 s : steady_young -> serves_log sync found rs s0 s ->
  server_ok little_endian (BK := sound_backend little_endian) s.
Proof.
  intros Hy [Hn Hdb Hm Hf Hsync (script & l & Hs)]. eapply serves_ok; [by apply new_idle| |exact Hs].
  by apply (open_wal_healthy sync found script rs).
Qed.

(** C2: replies come in order, one for each request.  For every client of a server
    with a log, in every state it can reach: what was sent on its socket and
    what is still to be sent are the replies to the requests its bytes begin
    with, one reply for each, in their order; all the bytes but those still in
    its buffer are accounted for.  If the server gave up on the input, the
    error comes after the replies to the requests before it. *)
Theorem replies_in_order sync found rs (s0 s : Server A P) id c :
  steady_young -> serves_log sync found rs s0 s -> clients s !! id = Some c ->
  exists requests replies, Forall2 answered_by requests replies /\
    ((decodes (sk_heard (socket c)) requests (unread c) /\ sk_wire (socket c) ++ unsent c = encode_replies replies) \/
     (close_after_write c = true /\ exists h0 h1 rest message more, sk_heard (socket c) = h0 ++ h1 /\ decodes h0 requests rest /\
        refused rest message /\ sk_wire (socket c) ++ unsent c = encode_replies replies ++ encode_reply (RError message) ++ more)).
Proof.
  intros Hy Hs Hc. destruct (co_talk _ _ _ _ _ (proj2 (serves_log_ok _ _ _ _ _ Hy Hs) id c Hc)) as (requests & text & Hr & Ht).
  apply replied_each in Hr as (replies & Hrs & ->). exists requests, replies. split; [exact Hrs|exact Ht].
Qed.

(** C1: a crash of the server at any moment loses nothing that was answered.  In
    every state it can reach, between handlers and after a turn of its loop
    that returned or threw, if every record is synced and the log works, what
    a crash leaves of the log means the keyspace. *)
Theorem server_crash_safe sync found rs (s0 s : Server A P) reported :
  steady_young -> serves_log sync found rs s0 s ->
  durable_now (database s) /\
  wp (turn little_endian reported) (fun _ s' => durable_now (database s')) (fun _ s' => durable_now (database s')) s.
Proof.
  intros Hy Hs. pose proof (serves_log_ok _ _ _ _ _ Hy Hs) as Hok.
  assert (forall s' : Server A P, broken_off little_endian (BK := sound_backend little_endian) s' -> durable_now (database s')) as Hd.
  { intros s' Hb. apply healthy_kept in Hb as [Hk _]. exact (kept_up_durable _ _ Hk). }
  split; [apply Hd, Hok|]. eapply wp_mono; [exact (turn_wp little_endian (BK := sound_backend little_endian) reported s Hok)|..].
  - intros u s' [Hb' _]. apply Hd, Hb'.
  - intros e s' Hb'. by apply Hd.
Qed.
(** *** The end *)

(** Everything is on the disk, under any policy that syncs at all. *)
Definition on_disk (db : Database A) : Prop :=
  exists K R, db_ok db K R /\
    forall w d, wal_ db = Some w -> sync_ w <> sync_none -> crash_image w d ->
    exists rs S, opens_as d rs /\ apply_all rs ∅ = Some S /\ matches same_moment K S.

Lemma clean_on_disk (db : Database A) K :
  sound db K -> (forall w, wal_ db = Some w -> failed_ w = false /\ dirty_ w = false) -> on_disk db.
Proof.
  intros (R & w & acked & extra & S & Hs) Hclean. exists K, R. split; [exact (so_ok _ _ _ _ _ _ _ Hs)|]. intros w' d Ew Hsync Hcrash.
  assert (w' = w) as -> by (rewrite (so_log _ _ _ _ _ _ _ Hs) in Ew; congruence). destruct (Hclean w Ew) as [Hf Hd].
  pose proof (so_inv _ _ _ _ _ _ _ Hs) as Hi. rewrite (so_extra _ _ _ _ _ _ _ Hs Hf), app_nil_r in Hi.
  pose proof (clean_settled _ _ Hi Hf Hd Hsync) as Eset. destruct (inv_open _ _ Hi Hf) as (_ & Hnone & _).
  destruct Hcrash as [(k & Hk & ->)|(f & E & _)]; [|congruence]. exists acked, S.
  split; [|split; [exact (so_acked _ _ _ _ _ _ _ Hs)|exact (so_matches _ _ _ _ _ _ _ Hs)]].
  right. exists []. rewrite app_nil_r. split; [|split; [by left|apply Hi]]. rewrite Eset in Hk |- *. unfold settled in *.
  cbn [contents durable] in *. apply take_ge. lia.
Qed.

Lemma flush_wal_on_disk (db : Database A) K : sound db K -> wp flush_wal (fun _ => on_disk) (fun _ _ => True) db.
Proof.
  intros Hs. pose proof (request_stays (req_call c_flush) db K Hs (conj eq_refl I)) as Hst. cbn [run_request] in Hst.
  change (run_call c_flush) with flush in Hst. unfold stays, wp in Hst. unfold wp, flush_wal.
  destruct (on_wal_ flush db) as [[e|u] db'] eqn:E; [exact I|]. destruct Hst as [K' Hs']. apply (clean_on_disk db' K' Hs').
  unfold on_wal_ in E. destruct (wal_ db) as [w|] eqn:Ew.
  - pose proof (wp_and _ _ _ _ _ _ (flush_keeps w) (flush_cleans w)) as Hw. unfold wp, flush in *.
    destruct (flush_locked w) as [[e|u'] w1]; [discriminate E|]. injection E as <- <-. intros w' Ew'. cbn in Ew'. injection Ew' as <-.
    destruct Hw as [[Hf _] Hd]. split; [exact Hf|exact Hd].
  - injection E as <- <-. intros w' Ew'. congruence.
Qed.

(** Taking every client out of the poller. *)
Lemma unwatch_all (m : gmap Z ClientInfo) (p : P) : pl_ok p ->
  let p' := map_fold (fun _ c p => pl_unwatch (sk_handle (socket c)) p) p m in
  pl_ok p' /\ (forall i c, m !! i = Some c -> pl_watched p' !! sk_handle (socket c) = None) /\
  (forall h x, pl_watched p' !! h = Some x -> pl_watched p !! h = Some x).
Proof.
  intros Hp. cbv zeta.
  apply (map_fold_weak_ind (fun p' m => pl_ok p' /\ (forall i c, m !! i = Some c -> pl_watched p' !! sk_handle (socket c) = None) /\
    (forall h x, pl_watched p' !! h = Some x -> pl_watched p !! h = Some x))).
  - split; [exact Hp|]. split; [|done]. intros i c Hc. by rewrite lookup_empty in Hc.
  - intros i c m' p' _ (Hok & Hgone & Hsub). destruct (pl_unwatch_spec (sk_handle (socket c)) p' Hok) as [Hok' ->]. split; [exact Hok'|]. split.
    + intros j d Hd. apply lookup_insert_Some in Hd as [[_ ->]|[_ Hd]]; [apply lookup_delete_eq|]. apply lookup_delete_None. right. by eapply Hgone.
    + intros h x Hx. apply lookup_delete_Some in Hx as [_ Hx]. by apply Hsub.
Qed.

Lemma close_connections_wp s : server_ok little_endian (BK := sound_backend little_endian) s ->
  wp close_connections (fun _ s' => clients s' = ∅ /\ pl_watched (poller s') = ∅ /\ database s' = database s) (fun _ _ => False) s.
Proof.
  intros [Hb Hc]. apply wp_modify. cbv zeta. split; [done|]. split; [|done]. cbn [poller put_listener put_poller].
  destruct (unwatch_all (clients s) (poller s) (sb_poller _ _ Hb)) as (Hok & Hgone & Hsub).
  destruct (pl_unwatch_spec (listen_socket s) _ Hok) as [_ ->]. apply map_eq. intros h. rewrite lookup_empty. apply lookup_delete_None.
  destruct (decide (h = listen_socket s)) as [|Hne]; [by left|right]. apply eq_None_not_Some. intros [[[t r] w] Hw].
  destruct (sb_known _ _ Hb h t r w (Hsub _ _ Hw)) as [|(c & Hcl & <-)]; [done|]. rewrite (Hgone t c Hcl) in Hw. discriminate.
Qed.

(** C20: stopping loses nothing.  When the loop of a server with a log has ended and
    the rest of [start] returns, no client and no socket is left, and the log
    on the disk means the keyspace, under the policy that syncs every second
    too. *)
Theorem shutdown_durable sync found rs (s0 s : Server A P) :
  steady_young -> serves_log sync found rs s0 s ->
  wp end_serving (fun _ s' => running s' = false /\ clients s' = ∅ /\ pl_watched (poller s') = ∅ /\ on_disk (database s')) (fun _ _ => True) s.
Proof.
  intros Hy Hs. pose proof (serves_log_ok _ _ _ _ _ Hy Hs) as Hok. destruct (sb_holds _ _ (proj1 Hok)) as ([K HK] & _). cbn [fst] in HK.
  unfold end_serving. apply wp_bind, wp_zoom.
  eapply wp_mono; [exact (flush_wal_on_disk (database s) K HK)| |done]. intros u db Hd. apply wp_bind, wp_modify, wp_bind.
  set (s1 := put_running false _). assert (wp close_connections (fun _ s' => clients s' = ∅ /\ pl_watched (poller s') = ∅ /\ database s' = db /\ running s' = false)
    (fun _ _ => False) s1) as Hcl.
  { pose proof (close_connections_wp s Hok) as Hw. unfold wp, close_connections, modify in *. cbv zeta in *. destruct Hw as (_ & Hw & _). done. }
  eapply wp_mono; [exact Hcl| |done]. intros u' s' (E1 & E2 & E3 & E4). apply wp_bind, wp_gets, wp_when; [done|]. intros _.
  split; [exact E4|]. split; [exact E1|]. split; [exact E2|by rewrite E3].
Qed.

(** *** The queue *)

(** Whatever [m] does, the clients in the queue keep their places. *)
Definition in_line {X} (m : M (Server A P) X) : Prop := forall W, calm (fun s => W `prefix_of` pending_clients s) (fun _ => True) m.

Lemma with_client_line id k : (forall c, in_line (k c)) -> in_line (with_client (A := A) (P := P) id k).
Proof. intros Hk W. apply calm_bind; [apply calm_get|]. intros s. destruct (clients s !! id); [apply Hk|apply calm_ret]. Qed.

Lemma same_line (f : Server A P -> Server A P) : (forall s, pending_clients (f s) = pending_clients s) -> in_line (modify f).
Proof. intros Hf W. apply calm_modify. intros s Hs. by rewrite Hf. Qed.

Lemma zoom_line {T X} (part : Server A P -> T) put (m : M T X) : (forall t s, pending_clients (put t s) = pending_clients s) -> in_line (zoom part put m).
Proof. intros Hp W s Hs. apply wp_zoom. unfold wp. destruct (m (part s)) as [[] t]; by rewrite Hp. Qed.

Ltac line_step :=
  lazymatch goal with
  | |- in_line _ => intros ?
  | |- calm _ _ (bind _ _) => apply calm_bind; [|intros ?]
  | |- calm _ _ (ret _) => apply calm_ret
  | |- calm _ _ (throw _) => by apply calm_throw
  | |- calm _ _ Effects.get => apply calm_get
  | |- calm _ _ (gets _) => apply calm_gets
  | |- calm _ _ (when _ _) => apply calm_when
  | |- calm _ _ (try_catch _ _) => apply calm_try_catch; [|intros ? _]
  | |- calm _ _ (zoom _ _ _) => by apply zoom_line
  | |- calm _ _ (with_client _ _) => apply with_client_line; intros ?
  | |- calm _ _ (put_client _ _) => by apply same_line
  | |- calm _ _ (unwatch _) => by apply same_line
  | |- calm _ _ (if ?b then _ else _) => destruct b
  | |- calm _ _ (match ?x with _ => _ end) => destruct x
  end.

Lemma remove_line id : in_line (remove_client (A := A) (P := P) id).
Proof. unfold remove_client. repeat line_step. by apply same_line. Qed.

Lemma request_write_line id : in_line (request_write (A := A) (P := P) id).
Proof. unfold request_write, watch. repeat line_step. Qed.

Lemma flush_line id : in_line (flush_client (A := A) (P := P) id).
Proof. unfold flush_client, watch. repeat line_step; apply remove_line. Qed.

Lemma reject_line id text : in_line (reject (A := A) (P := P) id text).
Proof. unfold reject. repeat line_step; first [apply remove_line|apply request_write_line|by apply same_line]. Qed.

Lemma deliver_line id count : in_line (deliver (A := A) (P := P) id count).
Proof.
  unfold deliver. do 2 line_step. destruct (compact_buffer _ _) as [b offset]. cbv zeta. set (c1 := if _ && _ then _ else _). repeat line_step.
  all: first [apply remove_line|apply request_write_line|apply flush_line|by apply same_line|apply calm_modify; intros s Hs; by apply prefix_app_r].
Qed.

Lemma process_line id : in_line (process_client (A := A) (P := P) little_endian id).
Proof.
  unfold process_client, run_batch. do 2 line_step. cbv zeta. destruct (parse_batch _ _ _ _ _) as [[[c1 count] hw] err].
  repeat line_step; first [apply remove_line|apply reject_line|apply deliver_line|by apply same_line].
Qed.

Lemma in_line_added {X} (m : M (Server A P) X) s r s' : in_line m -> m s = (r, s') -> exists added, pending_clients s' = pending_clients s ++ added.
Proof.
  intros Hm E. pose proof (Hm (pending_clients s) s ltac:(cbv beta; reflexivity)) as Hw. unfold wp in Hw. rewrite E in Hw.
  destruct r; [destruct Hw as [Hw _]|]; destruct Hw as [k Hk]; by exists k.
Qed.

Lemma serve_queued_line n : forall s s', serve_queued (A := A) (P := P) little_endian n s = (inr tt, s') ->
  exists added, pending_clients s' = drop n (pending_clients s) ++ added.
Proof.
  induction n as [|n IH]; intros s s' E; [injection E as <-; exists []; by rewrite app_nil_r|]. cbn [serve_queued] in E. unfold bind, Effects.get, modify in E.
  cbv beta iota in E. destruct (pending_clients s) as [|id rest] eqn:Ep; [unfold ret in E; injection E as <-; exists []; by rewrite Ep|].
  match type of E with match ?m ?t with _ => _ end = _ => destruct (m t) as [[e|[]] s1] eqn:E1 end; [done|].
  destruct (IH s1 s' E) as [added2 E2].
  apply (in_line_added (with_client id (fun c => do! put_client id (put_queued false c) in process_client little_endian id))) in E1 as [added1 Eq1].
  - cbn [pending_clients put_pending] in Eq1. rewrite E2, Eq1. cbn [drop]. exists (drop (n - length rest) added1 ++ added2).
    by rewrite drop_app, app_assoc.
  - repeat line_step. apply process_line.
Qed.

Lemma read_line id : in_line (read_client (A := A) (P := P) little_endian id).
Proof.
  unfold read_client. repeat line_step; first [apply remove_line|apply reject_line|apply process_line|by apply same_line].
Qed.

Lemma event_line ev : in_line (handle_event (A := A) (P := P) little_endian ev).
Proof.
  assert (forall rounds, in_line (accept_loop (A := A) (P := P) rounds)) as Ha.
  { induction rounds as [|rounds IH]; cbn [accept_loop]; unfold watch; repeat line_step; first [apply IH|by apply same_line]. }
  unfold handle_event, accept_connections, has_client. cbv zeta. repeat line_step; first [apply Ha|apply flush_line|apply remove_line|apply read_line].
Qed.

Lemma events_line events : forall s s' : Server A P, for_each events (handle_event little_endian) s = (inr tt, s') ->
  exists added, pending_clients s' = pending_clients s ++ added.
Proof. intros s s' E. eapply in_line_added; [|exact E]. intros W. apply calm_for_each. intros ev _. apply event_line. Qed.

(** C21: the queue is served in order.  A turn of the loop that returns has taken
    the first clients out of the queue, 64 of them or all; the others have
    moved up, in their order, before any that were added.  So a client with
    [n] others before it is taken in turn [n / 64 + 1] at the latest. *)
Theorem queue_served reported (s s' : Server A P) : turn little_endian reported s = (inr tt, s') ->
  exists added, pending_clients s' = drop 64 (pending_clients s) ++ added.
Proof.
  unfold turn, bind at 1, Effects.get at 1. destruct (_ || _); [done|]. unfold bind.
  destruct (serve_queued _ _ s) as [[e|[]] s1] eqn:E1; [done|]. destruct reported as [e|events]; [done|]. intros E.
  apply serve_queued_line in E1 as [added1 E1]. apply events_line in E as [added2 E]. exists (added1 ++ added2). rewrite E, E1, <- app_assoc.
  f_equal. destruct (Nat.le_ge_cases (length (pending_clients s)) 64).
  - rewrite Nat.min_l by done. by rewrite !drop_ge.
  - by rewrite Nat.min_r.
Qed.

(** The loops of [read_client] and [flush_client] end.  Seventeen chunks are
    enough for a buffer within its limit, which is then full, and a round of
    [flush_client] for each byte, and one: any more rounds give the same
    client and the same outcome. *)
Theorem socket_loops_end c n :
  (input_offset c <= length (buffer c))%nat -> (length (unread c) <= max_input_buffer_size)%nat ->
  (output_offset c <= length (output_buffer c))%nat ->
  ((read_rounds <= n)%nat -> read_loop n c = read_loop read_rounds c) /\
  ((flush_rounds c <= n)%nat -> flush_loop n c = flush_loop (flush_rounds c) c).
Proof.
  intros Hi Hn Ho. split; intros Hr; [by apply read_rounds_enough|]. apply flush_loop_enough; [done| |]; unfold flush_rounds in *; lia.
Qed.

End results.

(** ** A run *)

(** A server on the sample log, over the poll array; a client that sends two
    requests and a part of a third, and takes the replies in two pieces. *)
Definition sample_log_file : LogFile := mkLogFile sync_always sample_found [] None.
Definition sample_listening : Listening := mkListening true true true true.

Definition sample_server0 : Server Memory Poll :=
  mkServer sample_new false ∅ 0 [] 0 0 0 empty_poll invalid_socket [] false.

Definition sample_server1 : Server Memory Poll := snd (begin_serving (Some sample_log_file) sample_listening sample_server0).

Definition sample_input : bytes :=
  encode_request [of_str "PING"] ++ encode_request [of_str "SET"; of_str "a"; of_str "b"] ++ take 9 (encode_request [of_str "PING"]).

Definition sample_accepts : list accept_outcome := [accepted [recv_data sample_input] [send_count 3; send_block; send_count 100] true].

Definition sample_server2 : Server Memory Poll := put_accepts (accepts sample_server1 ++ sample_accepts) sample_server1.
Definition sample_server3 : Server Memory Poll := snd (handle_event true (mkEvent listener_token true false false) sample_server2).
Definition sample_server4 : Server Memory Poll := snd (handle_event true (mkEvent 0 true false false) sample_server3).

(** A stream can be checked for being modest. *)
Definition modest_checked (r : Request) : bool :=
  match r with
  | (name, [_; text]) =>
      negb (bool_decide ((classify_command true name).1 = id_expire)) ||
      match from_chars_int64 text with Some seconds => seconds <=? 2 ^ 52 | None => true end
  | _ => true
  end.

Lemma modest_by_check data :
  forallb (fun i => match parse_command (drop i data) with Ok c => modest_checked (request_of c) | Unexpected _ => true end)
    (seq 0 (S (length data))) = true -> modest true data.
Proof.
  rewrite forallb_forall. intros Hf used rest c -> Ep. specialize (Hf (length used)). rewrite drop_app_length, Ep in Hf.
  assert (In (length used) (seq 0 (S (length (used ++ rest))))) as Hin by (apply in_seq; rewrite length_app; lia). specialize (Hf Hin).
  unfold modest_request, modest_checked, request_of in *. destruct (arguments c) as [|a [|text [|]]]; try done.
  intros E seconds Es. rewrite bool_decide_true, Es in Hf by exact E. unfold seconds_ok. cbn in Hf. by apply Z.leb_le.
Qed.

Lemma sample_serves (BK : Backend true) : Forall (good_accept true (BK := BK)) sample_accepts ->
  serves true BK (Some sample_log_file) sample_listening sample_server0 sample_server4.
Proof.
  intros Ha. exists sample_server1. split; [vm_compute; reflexivity|].
  eapply rtc_l; [apply (step_connect true sample_server1 sample_accepts Ha)|]. fold sample_server2.
  eapply rtc_l; [apply (step_event true sample_server2 (mkEvent listener_token true false false) sample_server3); vm_compute; reflexivity|].
  apply rtc_once, (step_event true sample_server3 (mkEvent 0 true false false) sample_server4). vm_compute. reflexivity.
Qed.

Lemma wp_snd {S X} (m : M S X) (Q : S -> Prop) s : wp m (fun _ => Q) (fun _ => Q) s -> Q (snd (m s)).
Proof. unfold wp. by destruct (m s) as [[]]. Qed.

Lemma sample_any_accepts : Forall (good_accept true (BK := any_backend true)) sample_accepts.
Proof. constructor; [exact I|by apply Forall_nil]. Qed.

Lemma sample_server_new : new_server sample_server0.
Proof. constructor; [exact empty_poll_ok|vm_compute; reflexivity|reflexivity..]. Qed.

Lemma sample_serves_log : serves_log true sync_always sample_found sample_stamps sample_server0 sample_server4.
Proof.
  constructor; [exact sample_server_new|exact sample_new_unopened|vm_compute; discriminate|exact sample_found_opens|discriminate|].
  exists [], sample_listening. apply sample_serves. constructor; [|by apply Forall_nil]. cbn [good_accept map recv_bytes concat].
  apply modest_by_check. vm_compute. reflexivity.
Qed.

Definition sample_client : ClientInfo := default (new_client (mkSocket 0 [] [] [] [])) (clients sample_server4 !! 0).

Lemma sample_client_here : clients sample_server4 !! 0 = Some sample_client.
Proof. vm_compute. reflexivity. Qed.

Lemma no_client_forgotten_witness : unsent sample_client <> [] /\
  exists readable, pl_watched (poller sample_server4) !! sk_handle (socket sample_client) = Some (0, readable, true).
Proof.
  destruct (no_client_forgotten true (Some sample_log_file) sample_listening sample_server0 sample_server4 0 sample_client sample_server_new
    (sample_serves _ sample_any_accepts) sample_client_here) as ((r & Hr & _) & _). split; [vm_compute; discriminate|].
  exists r. rewrite Hr. vm_compute. reflexivity.
Defined.

Lemma server_well_formed_witness : (size (clients sample_server4) <= max_clients)%nat /\ 0 <= next_client_id sample_server4 <= int32_max.
Proof.
  destruct (server_well_formed true (Some sample_log_file) sample_listening sample_server0 sample_server4 sample_server_new
    (sample_serves _ sample_any_accepts)) as (H1 & H2 & _). split; [exact H1|exact H2].
Defined.

Lemma replies_in_order_witness : sk_wire (socket sample_client) = of_str "+PO" /\
  exists requests replies, Forall2 answered_by requests replies /\ decodes sample_input requests (unread sample_client) /\
    of_str "+PO" ++ unsent sample_client = encode_replies replies.
Proof.
  assert (sk_wire (socket sample_client) = of_str "+PO" /\ sk_heard (socket sample_client) = sample_input /\ close_after_write sample_client = false)
    as (E1 & E2 & E3) by (vm_compute; split_and!; reflexivity). split; [exact E1|].
  destruct (replies_in_order true sync_always sample_found sample_stamps sample_server0 sample_server4 0 sample_client sample_young sample_serves_log
    sample_client_here) as (requests & replies & Hf & [[Hd Eo]|[Ec _]]); [|rewrite E3 in Ec; discriminate].
  exists requests, replies. rewrite E1, E2 in *. split; [exact Hf|]. split; [exact Hd|exact Eo].
Defined.

Lemma server_crash_safe_witness : durable_now (database sample_server4) /\
  durable_now (database (snd (turn true (inr [mkEvent 0 false true false]) sample_server4))).
Proof.
  destruct (server_crash_safe true sync_always sample_found sample_stamps sample_server0 sample_server4 (inr [mkEvent 0 false true false])
    sample_young sample_serves_log) as [H1 H2]. split; [exact H1|exact (wp_snd _ (fun s => durable_now (database s)) _ H2)].
Defined.

Lemma shutdown_durable_witness : exists s', end_serving sample_server4 = (inr tt, s') /\ on_disk (database s').
Proof.
  destruct (wp_returns _ _ _ _ (shutdown_durable true sync_always sample_found sample_stamps sample_server0 sample_server4 sample_young sample_serves_log))
    as ([] & s' & E & _ & _ & _ & Hd); [eexists; vm_compute; reflexivity|]. exists s'. split; [exact E|exact Hd].
Defined.

Lemma queue_served_witness :
  exists s' added, turn true (inr []) (put_pending [7; 0] sample_server4) = (inr tt, s') /\ pending_clients s' = drop 64 [7; 0] ++ added.
Proof.
  assert (turn true (inr []) (put_pending [7; 0] sample_server4) = (inr tt, snd (turn true (inr []) (put_pending [7; 0] sample_server4)))) as E
    by (vm_compute; reflexivity).
  destruct (queue_served true (inr []) _ _ E) as [added Ha]. exists (snd (turn true (inr []) (put_pending [7; 0] sample_server4))), added.
  split; [exact E|exact Ha].
Defined.

Lemma socket_loops_end_witness : read_loop 1000 sample_client = read_loop read_rounds sample_client /\
  flush_loop 1000 sample_client = flush_loop (flush_rounds sample_client) sample_client.
Proof.
  destruct (socket_loops_end sample_client 1000) as [H1 H2]; [vm_compute; lia|apply Nat2Z.inj_le; rewrite (proj1 limits_Z); vm_compute; discriminate|vm_compute; lia|].
  split; [apply H1; vm_compute; lia|apply H2; vm_compute; lia].
Defined.

(** A protocol error does not end the conversation: what the client sent after
    it is still parsed and executed, until the error has been sent. *)
Definition sample_bad_accepts : list accept_outcome :=
  [accepted [recv_data (of_str "!" ++ crlf); recv_data (encode_request [of_str "SET"; of_str "a"; of_str "b"])] [send_block] true].

Definition sample_bad_server : Server Memory Poll :=
  fold_left (fun s ev => snd (handle_event true ev s)) [mkEvent listener_token true false false; mkEvent 0 true false false; mkEvent 0 true false false]
    (put_accepts sample_bad_accepts sample_server1).

Example executed_after_protocol_error :
  (fun c => (close_after_write c, unsent c)) <$> clients sample_bad_server !! 0 =
  Some (true, encode_reply (RError (error_message protocol_error_prefix ++ error_message expected_resp_array_prefix)) ++ encode_reply (RSimple (of_str "OK"))).
Proof. vm_compute. reflexivity. Qed.
