(* ===== verification/Main.v ===== *)
(** * Main: the command line

    [main] of [src/main.cpp]: the arguments give a configuration or the usage
    message; with [--compact-wal] the log is opened and compacted, otherwise
    the server runs.  Arguments that say a configuration give it back, and
    every configuration that is accepted is a sensible one; compacting a log
    keeps what it means. *)

From S2P Require Import Prelude Charconv Errors Effects RespParse Sockets Pack WalCodec Wal Allocator Slab Buckets Node Store Keyspace StoreSpec Contents Sample Strings Timers Lists Hashes Replay Open Snapshot Stats Throws Records Durable Execute Batch Server.

(** ** The program *)

Record ServerConfig := mkConfig {
  port : Z;
  max_keys : Z;
  max_memory : Z;
  wal_path : bytes;   (** empty: no log *)
  wal_sync : WalSync
}.

Definition default_config : ServerConfig := mkConfig 6379 1024 0 [] sync_everysec.

Definition set_port (n : Z) (c : ServerConfig) : ServerConfig := mkConfig n (max_keys c) (max_memory c) (wal_path c) (wal_sync c).
Definition set_max_keys (n : Z) (c : ServerConfig) : ServerConfig := mkConfig (port c) n (max_memory c) (wal_path c) (wal_sync c).
Definition set_max_memory (n : Z) (c : ServerConfig) : ServerConfig := mkConfig (port c) (max_keys c) n (wal_path c) (wal_sync c).
Definition set_wal_path (p : bytes) (c : ServerConfig) : ServerConfig := mkConfig (port c) (max_keys c) (max_memory c) p (wal_sync c).
Definition set_wal_sync (y : WalSync) (c : ServerConfig) : ServerConfig := mkConfig (port c) (max_keys c) (max_memory c) (wal_path c) y.

(** The variables of [main]. *)
Record Options := mkOptions {
  config : ServerConfig;
  disable_wal : bool;
  port_supplied : bool;
  compact : bool
}.

Definition first_options : Options := mkOptions (set_wal_path (of_str "reddish.wal") default_config) false false false.

Definition on_config (f : ServerConfig -> ServerConfig) (o : Options) : Options :=
  mkOptions (f (config o)) (disable_wal o) (port_supplied o) (compact o).

Definition number (text : bytes) : option Z :=
  match from_chars_size text with
  | Some n => if n =? 0 then None else Some n
  | None => None
  end.

Definition flag_is (flag : bytes) (name : String.string) : bool := bool_decide (flag = of_str name).

(** What a flag with a value does; [None] is the usage message. *)
Definition set_option (flag value : bytes) (o : Options) : option Options :=
  if flag_is flag "--max-keys" || flag_is flag "--max-memory" then
    match number value with
    | None => None
    | Some n => Some (on_config (if flag_is flag "--max-keys" then set_max_keys n else set_max_memory n) o)
    end
  else if flag_is flag "--wal-path" then
    if bool_decide (value = []) then None else Some (on_config (set_wal_path value) o)
  else if flag_is value "always" then Some (on_config (set_wal_sync sync_always) o)
  else if flag_is value "everysec" then Some (on_config (set_wal_sync sync_everysec) o)
  else if flag_is value "none" then Some (on_config (set_wal_sync sync_none) o)
  else None.

Definition uint16_max : Z := 2 ^ 16 - 1.

Definition takes_value (flag : bytes) : bool :=
  flag_is flag "--max-keys" || flag_is flag "--max-memory" || flag_is flag "--wal-path" || flag_is flag "--wal-sync".

(** The loop over the arguments. *)
Fixpoint parse_flags (args : list bytes) (o : Options) : option Options :=
  match args with
  | [] => Some o
  | flag :: args =>
      if flag_is flag "--compact-wal" then parse_flags args (mkOptions (config o) (disable_wal o) (port_supplied o) true)
      else if flag_is flag "--no-wal" then parse_flags args (mkOptions (config o) true (port_supplied o) (compact o))
      else if takes_value flag then
        match args with
        | [] => None
        | value :: args => match set_option flag value o with Some o => parse_flags args o | None => None end
        end
      else
        match number flag with
        | None => None
        | Some n =>
            if port_supplied o || (uint16_max <? n) then None
            else parse_flags args (mkOptions (set_port n (config o)) (disable_wal o) true (compact o))
        end
  end.

Definition parse_arguments (args : list bytes) : option Options :=
  match parse_flags args first_options with
  | Some o => Some (if disable_wal o then on_config (set_wal_path []) o else o)
  | None => None
  end.

Section main.

Context {A P : Type} `{NodeAllocator A} `{!Platform A} `{!Measures A} `{Poller P} `{Descriptors}.
Context (little_endian : bool).

(** The memory of a database with a limit, and what the operating system
    answers. *)
Variable memory_of : Z -> A.

Record World := mkWorld {
  wal_exists : bool;   (** [std::filesystem::exists(config.wal_path)] *)
  file_found : bytes;
  file_script : list io_outcome;
  open_error : option nat;
  compact_error : option nat;
  sockets : Listening;
  empty_poller : P;
  rounds : list (nat * (exn + list SocketEvent))
}.

(** [--compact-wal] *)
Definition compact_log (c : ServerConfig) (w : World) : exn + Database A :=
  match new_database (memory_of (max_memory c)) (max_keys c) with
  | (inl e, _) => inl e
  | (inr db, _) =>
      match (do! open_wal (wal_sync c) (file_found w) (file_script w) (open_error w) in compact_wal (compact_error w)) db with
      | (inl e, _) => inl e
      | (inr _, db) => inr db
      end
  end.

(** [Server::Server] *)
Definition make_server (c : ServerConfig) (p : P) : exn + Server A P :=
  match new_database (memory_of (max_memory c)) (max_keys c) with
  | (inl e, _) => inl e
  | (inr db, _) => inr (mkServer db false ∅ 0 [] 0 0 0 p invalid_socket [] false)
  end.

Definition log_file (c : ServerConfig) (w : World) : option LogFile :=
  if bool_decide (wal_path c = []) then None else Some (mkLogFile (wal_sync c) (file_found w) (file_script w) (open_error w)).

(** The exit code. *)
Definition main (args : list bytes) (w : World) : Z :=
  match parse_arguments args with
  | None => 1
  | Some o =>
      if compact o then
        if disable_wal o || negb (wal_exists w) then 1 else
        match compact_log (config o) w with inl _ => 1 | inr _ => 0 end
      else
        match make_server (config o) (empty_poller w) with
        | inl _ => 1
        | inr s => match fst (start little_endian (log_file (config o) w) (sockets w) (rounds w) s) with inl _ => 1 | inr _ => 0 end
        end
  end.

End main.

(** ** Facts *)

Lemma number_range text n : number text = Some n -> 1 <= n <= size_max.
Proof.
  unfold number. destruct (from_chars_size text) as [m|] eqn:E; [|done]. apply from_chars_size_inv in E. destruct (Z.eqb_spec m 0); [done|].
  intros [= <-]. lia.
Qed.

Lemma number_printed n : 1 <= n <= size_max -> number (to_dec n) = Some n.
Proof. intros Hn. unfold number. rewrite from_chars_size_to_dec by lia. by rewrite (proj2 (Z.eqb_neq n 0)) by lia. Qed.

(** What every configuration is. *)
Definition config_ok (c : ServerConfig) : Prop :=
  1 <= port c <= uint16_max /\ 1 <= max_keys c <= size_max /\ 0 <= max_memory c <= size_max.

Definition options_ok (o : Options) : Prop := config_ok (config o) /\ wal_path (config o) <> [].

Lemma set_option_ok flag value o o' : options_ok o -> set_option flag value o = Some o' -> options_ok o' /\ disable_wal o' = disable_wal o.
Proof.
  intros [(H1 & H2 & H3) H4]. unfold set_option. destruct (_ || _).
  - destruct (number value) as [n|] eqn:En; [|done]. apply number_range in En. intros [= <-]. split; [|done].
    unfold options_ok, config_ok. destruct (flag_is flag "--max-keys"); cbn; split_and!; try done; lia.
  - destruct (flag_is flag "--wal-path").
    + case_bool_decide; [done|]. intros [= <-]. done.
    + repeat (case_match; [intros [= <-]; done|]). done.
Qed.

Lemma parse_flags_ok args : forall o o', options_ok o -> parse_flags args o = Some o' -> options_ok o'.
Proof.
  assert (forall n args o o', (length args <= n)%nat -> options_ok o -> parse_flags args o = Some o' -> options_ok o') as Hn;
    [|intros o o'; by apply (Hn (length args))]. clear args. induction n as [|n IH]; intros [|flag args] o o' Hlen Ho E; cbn in Hlen; try lia;
    try (by injection E as <-). cbn [parse_flags] in E. repeat case_match; try discriminate E; try (eapply IH; [|..|exact E]; [cbn in *; lia|]).
  - exact Ho.
  - exact Ho.
  - by eapply set_option_ok.
  - match goal with H : number flag = Some _ |- _ => apply number_range in H end.
    match goal with H : _ || _ = false |- _ => apply orb_false_iff in H as [_ Hp]; apply Z.ltb_ge in Hp end.
    destruct Ho as [(Hc1 & Hc2 & Hc3) Hc4]. unfold options_ok, config_ok. cbn. split_and!; try done; lia.
Qed.

(** A configuration as arguments. *)
Definition sync_name (y : WalSync) : bytes :=
  of_str match y with sync_everysec => "everysec" | sync_always => "always" | sync_none => "none" end.

Definition arguments_of (o : Options) : list bytes :=
  [to_dec (port (config o)); of_str "--max-keys"; to_dec (max_keys (config o)); of_str "--wal-sync"; sync_name (wal_sync (config o))] ++
  (if max_memory (config o) =? 0 then [] else [of_str "--max-memory"; to_dec (max_memory (config o))]) ++
  (if disable_wal o then [of_str "--no-wal"] else [of_str "--wal-path"; wal_path (config o)]) ++
  (if compact o then [of_str "--compact-wal"] else []).

(** A number is no flag. *)
Lemma dec_not_flag n name : 0 <= n -> is_digit (default Byte.x00 (of_str name !! 0%nat)) = false -> flag_is (to_dec n) name = false.
Proof.
  intros Hn Hname. unfold flag_is. apply bool_decide_eq_false_2. intros E. destruct (to_dec_spec n Hn) as (Hd & Hne & _). rewrite E in Hd, Hne.
  destruct (of_str name) as [|c l]; [done|]. cbn in Hname. apply Forall_cons in Hd as [Hd _]. congruence.
Qed.

Lemma parse_port n args o : 1 <= n <= uint16_max -> port_supplied o = false ->
  parse_flags (to_dec n :: args) o = parse_flags args (mkOptions (set_port n (config o)) (disable_wal o) true (compact o)).
Proof.
  intros Hn Ho. assert (forall name, is_digit (default Byte.x00 (of_str name !! 0%nat)) = false -> flag_is (to_dec n) name = false) as Hf
    by (intros name; apply dec_not_flag; lia).
  cbn [parse_flags]. unfold takes_value. rewrite !Hf by reflexivity. cbn [orb]. unfold uint16_max in *.
  rewrite number_printed by (unfold size_max; lia). rewrite Ho. cbn [orb]. by rewrite (proj2 (Z.ltb_ge _ _)) by lia.
Qed.

Lemma parse_value flag value args o : flag_is flag "--compact-wal" = false -> flag_is flag "--no-wal" = false -> takes_value flag = true ->
  parse_flags (flag :: value :: args) o = match set_option flag value o with Some o => parse_flags args o | None => None end.
Proof. intros H1 H2 H3. cbn [parse_flags]. by rewrite H1, H2, H3. Qed.

Lemma set_max_keys_option n o : 1 <= n <= size_max -> set_option (of_str "--max-keys") (to_dec n) o = Some (on_config (set_max_keys n) o).
Proof. intros Hn. unfold set_option. change (flag_is (of_str "--max-keys") "--max-keys") with true. cbn [orb]. by rewrite number_printed. Qed.

Lemma set_max_memory_option n o : 1 <= n <= size_max -> set_option (of_str "--max-memory") (to_dec n) o = Some (on_config (set_max_memory n) o).
Proof.
  intros Hn. unfold set_option. change (flag_is (of_str "--max-memory") "--max-memory") with true.
  change (flag_is (of_str "--max-memory") "--max-keys") with false. cbn [orb]. by rewrite number_printed.
Qed.

Lemma set_wal_path_option path o : path <> [] -> set_option (of_str "--wal-path") path o = Some (on_config (set_wal_path path) o).
Proof.
  intros Hp. unfold set_option. change (flag_is (of_str "--wal-path") "--max-memory") with false.
  change (flag_is (of_str "--wal-path") "--max-keys") with false. change (flag_is (of_str "--wal-path") "--wal-path") with true. cbn [orb].
  by rewrite bool_decide_false.
Qed.

Lemma set_wal_sync_option y o : set_option (of_str "--wal-sync") (sync_name y) o = Some (on_config (set_wal_sync y) o).
Proof. by destruct y. Qed.

(** ** Results *)

(** C39: every way to say a configuration is understood.  The arguments written for
    a port, a number of keys, a limit on memory, a policy, a path or none, and
    the mode give back exactly these. *)
Theorem arguments_roundtrip o : config_ok (config o) -> port_supplied o = true -> (disable_wal o = true <-> wal_path (config o) = []) ->
  parse_arguments (arguments_of o) = Some o.
Proof.
  intros (Hp & Hk & Hm) Hs Hd. unfold parse_arguments, arguments_of. cbn [app]. rewrite parse_port by done.
  rewrite parse_value, set_max_keys_option by done. rewrite parse_value, set_wal_sync_option by done.
  destruct o as [[p k m path y] dis sup comp]; cbn [config port max_keys max_memory wal_path wal_sync disable_wal port_supplied compact] in *. subst sup.
  destruct (Z.eqb_spec m 0) as [->|Hm0]; cbn [app].
  - destruct dis; cbn [app].
    + rewrite (proj1 Hd eq_refl). destruct comp; reflexivity.
    + assert (path <> []) as Hpath by (intros E; by apply Hd in E). rewrite parse_value, set_wal_path_option by done. destruct comp; reflexivity.
  - rewrite parse_value, set_max_memory_option by (done || lia). destruct dis; cbn [app].
    + rewrite (proj1 Hd eq_refl). destruct comp; reflexivity.
    + assert (path <> []) as Hpath by (intros E; by apply Hd in E). rewrite parse_value, set_wal_path_option by done. destruct comp; reflexivity.
Qed.

(** Every configuration that is accepted is one the server can run with: the
    port is a [std::uint16_t] and not 0, there is room for a key, the limits
    are [std::size_t]s, and the path is empty exactly if the log is off. *)
Theorem accepted_config_ok args o : parse_arguments args = Some o ->
  config_ok (config o) /\ (disable_wal o = true <-> wal_path (config o) = []).
Proof.
  unfold parse_arguments. destruct (parse_flags args first_options) as [o'|] eqn:E; [|done]. intros [= <-].
  destruct (parse_flags_ok args first_options o') as [Hc Hp]; [split; [vm_compute; split_and!; discriminate|vm_compute; discriminate]|exact E|].
  destruct (disable_wal o') eqn:Ed; cbn; [by rewrite Ed|]. split; [exact Hc|]. rewrite Ed. done.
Qed.

Section compaction.

Context {A P : Type} `{NodeAllocator A} `{!Platform A} `{!Measures A} `{Poller P} `{Descriptors}.

(** The keyspace the new log gives back: that of the old one, less keys past
    their deadline. *)
Definition compacted_from (rs : list (WalOp * list bytes)) (db' : Database A) : Prop :=
  exists S K K' ks now1 ks' now2, apply_all rs ∅ = Some S /\ matches same_moment K S /\
    swept now1 no_expiry_limit K ks /\ swept now2 no_expiry_limit (dropped ks K) ks' /\ K' = dropped ks' (dropped ks K) /\
    (exists R, db_ok db' K' R) /\
    exists log new S', wal_ db' = Some log /\ disk_ log = settled new /\ apply_all new ∅ = Some S' /\ matches same_moment K' S'.

Lemma compact_opened (c : ServerConfig) (w : World (P := P)) rs (db db1 db' : Database A) :
  unopened_db db -> opens_as (file_found w) rs -> steady_young -> wal_sync c <> sync_none ->
  open_wal (wal_sync c) (file_found w) (file_script w) None db = (inr tt, db1) -> compact_wal (compact_error w) db1 = (inr tt, db') ->
  compacted_from rs db'.
Proof.
  intros Hdb Hf Hy Hsync E1 E2.
  assert (forall t w, 0 <= w <= int64_max -> same_moment (i64 (steady_at (Datatypes.S t) + Z.max 0 (w - wall_at t))) w) as HT
    by (intros t w0; by apply restored_moment).
  pose proof (wp_elim _ _ _ _ _ _ (open_wal_wp same_moment HT (wal_sync c) (file_found w) (file_script w) rs db Hdb Hf) E1) as Ho. cbv beta iota in Ho.
  destruct Ho as (S & K & db0 & ks & R' & ES & Hres & Hg & Hsw & _). destruct (restored_sound _ _ _ _ _ _ ES Hsync Hres) as (R & w0 & Hs0).
  assert (sound db1 (dropped ks K)) as (R1 & w1 & acked & extra & S1 & Hs1)
    by (eapply sound_gone; [exact Hs0|by eapply swept_own|rewrite app_nil_r; exact Hg]).
  assert (is_Some (wal_ db1)) as Hlog by (rewrite (so_log _ _ _ _ _ _ _ Hs1); by eexists).
  pose proof (wp_elim _ _ _ _ _ _ (compact_wal_wp (compact_error w) db1 _ _ _ (so_ok _ _ _ _ _ _ _ Hs1) (sound_logged _ _ _ _ _ _ _ Hs1) Hlog
    (so_live _ _ _ _ _ _ _ Hs1) (sound_fine _ _ _ _ _ _ _ Hs1)) E2) as Hc. cbv beta iota in Hc.
  destruct Hc as (ks' & Hsw' & _ & (Hok' & _ & _ & _ & w2 & w' & _ & Ew' & new & Hlead & _ & _ & _ & Edisk & _)).
  destruct (Hlead ∅ (matches_empty _)) as (S' & ES' & HM').
  exists S, K, (dropped ks' (dropped ks K)), ks, (steady_at (time_ db0)), ks', (steady_at (time_ db1)).
  split; [exact ES|]. split; [exact (so_matches _ _ _ _ _ _ _ Hs0)|]. split; [exact Hsw|]. split; [exact Hsw'|]. split; [done|].
  split; [by eexists|]. by exists w', new, S'.
Qed.

(** C13: compacting a log keeps what it means.  When [reddish --compact-wal] ends
    with success on a log that can be read, the new log is on the disk in
    full, with no record more, and applying its records gives the keyspace
    the records of the old one give, values and deadlines, less the keys that
    were past their deadline while it ran. *)
Theorem compact_log_correct (memory_of : Z -> A) (c : ServerConfig) (w : World (P := P)) rs db' :
  (forall n, al_ok (memory_of n) /\ al_live (memory_of n) = ∅ /\ al_taken (memory_of n) = ∅) ->
  steady_young -> wal_sync c <> sync_none -> opens_as (file_found w) rs -> open_error w = None ->
  compact_log memory_of c w = inr db' -> compacted_from rs db'.
Proof.
  intros Hmem Hy Hsync Hf He E. unfold compact_log in E. destruct (new_database _ _) as [[e|db] a] eqn:En; [done|].
  destruct (Hmem (max_memory c)) as (M1 & M2 & M3). pose proof (new_database_ok _ _ _ _ M1 M2 M3 En) as Hdb. rewrite He in E. unfold bind in E.
  destruct (open_wal _ _ _ _ db) as [[e|[]] db1] eqn:E1; [done|]. destruct (compact_wal _ db1) as [[e|[]] db2] eqn:E2; [done|]. injection E as <-.
  by eapply (compact_opened c w rs db db1 db2).
Qed.

End compaction.

Lemma arguments_roundtrip_witness :
  parse_arguments (arguments_of (mkOptions (mkConfig 7000 10 4096 (of_str "log") sync_always) false true true)) =
  Some (mkOptions (mkConfig 7000 10 4096 (of_str "log") sync_always) false true true).
Proof.
  apply arguments_roundtrip; [split_and!; vm_compute; discriminate|reflexivity|split; vm_compute; discriminate].
Defined.

Lemma accepted_config_ok_witness : config_ok (mkConfig 1 1024 5 [] sync_none) /\
  parse_arguments (map of_str ["--max-memory"; "5"; "--no-wal"; "1"; "--wal-sync"; "none"]%string) =
  Some (mkOptions (mkConfig 1 1024 5 [] sync_none) true true false).
Proof.
  assert (parse_arguments (map of_str ["--max-memory"; "5"; "--no-wal"; "1"; "--wal-sync"; "none"]%string) =
    Some (mkOptions (mkConfig 1 1024 5 [] sync_none) true true false)) as E by (vm_compute; reflexivity).
  destruct (accepted_config_ok _ _ E) as [Hc _]. split; [exact Hc|exact E].
Defined.

(** The sample log is compacted. *)
Definition sample_world : World (P := Poll) := mkWorld true sample_found [] None None (mkListening true true true true) empty_poll [].

Definition sample_config : ServerConfig := mkConfig 6379 1024 0 (of_str "reddish.wal") sync_always.

Lemma sample_memory_new : al_ok sample_memory /\ al_live sample_memory = ∅ /\ al_taken sample_memory = ∅.
Proof. split; [split; [apply new_pool_inv; lia|apply map_disjoint_empty_l]|split; reflexivity]. Qed.

Lemma compact_log_correct_witness : exists db', compact_log (fun _ => sample_memory) sample_config sample_world = inr db' /\ compacted_from sample_stamps db'.
Proof.
  assert (exists db', compact_log (fun _ => sample_memory) sample_config sample_world = inr db') as [db' E].
  { destruct (compact_log (fun _ => sample_memory) sample_config sample_world) as [e|db'] eqn:E; [|by eexists]. vm_compute in E. discriminate. }
  exists db'. split; [exact E|]. apply (compact_log_correct (fun _ => sample_memory) sample_config sample_world sample_stamps db').
  - intros _. exact sample_memory_new.
  - exact sample_young.
  - discriminate.
  - exact sample_found_opens.
  - reflexivity.
  - exact E.
Defined.
